(* ===== verification/_CoqProject ===== *)
-Q . S2P
Prelude.v
Utf8.v
Effects.v
Escape.v
Terminal.v
NetAddress.v
NetPolicy.v
NetProxy.v
NetClient.v
PathPolicy.v
Text.v
Diff.v
Patch.v
Edit.v
PatchPlan.v
Publish.v
Glob.v
GitIgnore.v
ShellPolicy.v
ShellOutput.v
ObjectStore.v
SnapshotTree.v
SnapshotDiff.v
Collect.v
Records.v
Recording.v
Worktree.v
ChangeStore.v
StoreReads.v
Reverts.v
RevertPlans.v
RevertPublish.v
RevertSettle.v
RevertLive.v
Retention.v
RetainSafe.v
RetainLeast.v
HostContract.v
Ledger.v
RemoteHost.v
LedgerSafe.v
LedgerBytes.v
Watch.v
