(* ===== verification/Prelude.v ===== *)
(** * Workcell MCP: a verification library of its decision-making core

    The program serves a workspace to language models over MCP.  This library models the
    parts that decide: what may be touched, what a request changes, what is shown, what
    survives a crash, and what a remote host promises its peers.  Paths below are under
    [src/], most of them under [src/crates/].

    ** The parts, and where each is modelled

    Every part is a file of this directory, in the order of [_CoqProject]; the doc comment at
    its top names its sources.

    - Shared: [Prelude] (results, strings as lists of code points, sorting and integer
      lemmas, tactics), [Utf8] (encoding, strict and lossy decoding of the standard library),
      [Effects] (operations that end in a value or an error, in a state that holds an
      environment and a log; the logics [emits], [runs] and [wp]).
    - Output shown to a client, [output-filter]: [Escape] (escape.rs), [Terminal]
      (terminal.rs), and [ShellOutput] ([mcp-shell]/output.rs).
    - Network, [net]: [NetAddress] (classification.rs), [NetPolicy] (policy.rs), [NetProxy]
      (proxy.rs), [NetClient] (http_client.rs and what it calls).  A request asks [NetPolicy]
      about each URL, which asks [NetAddress] about each address, at every redirect.
    - Files, [mcp-files]: [PathPolicy] (path_policy.rs) decides every path; [Text] (text.rs)
      reads; [Edit] and [Patch] compute new texts; [PatchPlan] plans a patch of many files
      under the byte budgets; [Publish] (atomic_write.rs, patch_publication.rs) writes what
      was prepared; [Diff] previews it.  [Glob] and [GitIgnore] select files.  [Worktree]
      (snapshot_tree.rs) is the access the change records have to the workspace's tree.
    - Shell, [mcp-shell]: [ShellPolicy] (permission.rs) decides from the tree of a command.
    - Snapshots, [snapshot-store]: [ObjectStore] (lib.rs) keeps git objects; [SnapshotTree]
      (meta.rs, tree.rs) stores captures as trees in it and compares them, [SnapshotDiff]
      holds the theorems about that; [Collect] (collect.rs) deletes what nothing reaches.
    - Change records, [workspace-snapshot]: [Records] (format.rs, snapshot.rs, and the
      strings of [workcell-host-contract]) is the data; [Recording] (recording.rs, and
      [compose] of revert.rs) turns the difference of two captures into a record and records
      into a revert.  [ChangeStore] (store.rs, format.rs) keeps records, open records and
      journals in files, on the objects of [ObjectStore], and [StoreReads] says what reading
      them comes to.  [Reverts] (revert.rs) plans, publishes and settles reverts on that store
      and on [Worktree]; its theorems are [RevertPlans], [RevertPublish], [RevertSettle] and
      [RevertLive].  [Retention] (cleanup.rs) evicts records and collects objects;
      [RetainSafe] says what it keeps, [RetainLeast] how much it evicts.
    - A remote host, [src/remote_host.rs]: [HostContract] ([workcell-host-contract]/lib.rs) is
      the data peers exchange and the checks they make of it; [Ledger] the operations that
      wait, run and ended; [RemoteHost] the requests on the ledger and their histories, with
      the theorems in [LedgerSafe] and [LedgerBytes]; [Watch] the subscriptions to changes.

    ** How state and operations correspond

    A struct is a Record with its fields, an enum an Inductive with its variants, a function a
    Definition of its name; names that would clash carry a prefix.  [u64] and the like are [N]
    with the bounds or the saturation written out; a string is a list of code points ([str])
    or its bytes (list N), as its file says.  Errors are [Result].  Operations that call the
    outside are [Eff] operations, or, where the order of calls with those of other processes
    matters ([Publish]), explicit interleavings; those of a value under a lock ([Ledger],
    [Watch]) are functions of it, and a history of calls is a list or an inductive relation.

    What is not the program's is a class of operations and, where a theorem relies on its
    behaviour, a class of laws: [UrlLib], [HttpLib] and [NetEnv] (the url and http crates,
    resolver, transport and clocks), [FileEnv], [CoreEnv] and [PublishEnv] (the file system,
    digests, other processes), [GitLib] and [TreeLib] (gix and serde), [JsonLib] (serde_json of
    the records), [Memory] (sizes of types and capacities of the allocator).  Each has an
    instance in a witness, so no law is vacuous.  New identifiers, the umask, the digest of a
    holder's name and what the stat cache names are arguments; so are, in an [Env], the clock,
    and the order in which a hash map is iterated, any permutation of its entries.

    ** Crashes and other processes

    [ObjectStore], [Worktree] and [ChangeStore] have explicit disks whose calls may each fail,
    by a list of faults, and log the disk they leave; a property of every logged world holds
    wherever the process stops.  Within one call of theirs nobody else writes; between calls,
    the tree changes only as far as the clock of its inodes shows ([Worktree.evolves]).  In
    [Text] and [PathPolicy] every answer of the file system may differ from the last.

    ** What the theorems show

    - Confinement: [PathPolicy.resolve_confined], [Text.validated_text_unchanged],
      [Publish.publish_patch_ok] (a published patch leaves exactly the planned contents, or
      reports what it did not), [Worktree.publication_atomic],
      [NetClient.request_hops_checked] (every address a request connects to was classified and
      allowed), [NetPolicy.validate_url_decides], [ShellPolicy.authorized_command].
    - Agreement with a reference: [Edit.replace_exact_correct],
      [Patch.apply_update_chunks_correct], [PatchPlan.plan_patch_ok],
      [Glob.glob_matches_candidate], [GitIgnore.decide_last_match_wins],
      [Escape.strip_refines_reference], [Terminal.feed_chunk_independent],
      [ShellOutput.read_stream_chunk_independent], [Diff.file_diff_describes],
      [NetAddress.classify_ip_public], [SnapshotDiff.changes_describe].
    - Round trips: [Patch.parse_patch_round_trip], [SnapshotDiff.build_entries_round_trip],
      [Recording.compose_undoes_history].
    - Crashes and collection: [ObjectStore.writes_survive_crashes],
      [Collect.collect_keeps_reachable], [Collect.mark_roots_terminates],
      [RetainSafe.retention_keeps_what_is_named], [RetainLeast.eviction_takes_fewest].
    - Change records and reverts: [Recording.finish_continues_histories],
      [RevertSettle.prepare_revert_plans], [RevertPublish.execute_revert_safe] (at every moment
      a prefix of the plan is published, and the journal counts it),
      [RevertLive.revert_goes_through], [RevertSettle.reconcile_truthful].
    - A remote host: [LedgerSafe.executes_at_most_once], [LedgerSafe.life_cycle],
      [LedgerSafe.statuses_valid], [LedgerBytes.never_overcommitted],
      [LedgerBytes.ceiling_gives_up], [LedgerBytes.forgotten_is_noted],
      [Watch.follower_misses_nothing], [Watch.poll_responses_valid].
    - Bounds: [NetClient.request_bounded].

    Other files hold theorems that these rest on or that stand beside them.

    ** Fuel

    A loop whose recursion is not structural takes fuel, and a lemma or theorem says the fuel
    it is given is enough: one turn consumes a character of the text it scans ([Patch],
    [Glob], [GitIgnore], [Utf8]) or an entry of the list ([SnapshotTree.tree_loop]); a depth
    that the code bounds is the fuel itself ([MAX_TREE_DEPTH], the redirects of
    [NetClient]); marking is bounded by the children of the trees there are
    ([Collect.mark_roots_terminates]); a temporary name is found after as many tries as there
    are temporaries ([ObjectStore.create_temporary_total]); each turn of the ledger's ceiling
    gives up an event or a record ([LedgerBytes.ceiling_gives_up]); the search for how much to
    evict narrows its interval at each probe ([RetainLeast.smallest_fitting_least]).

    ** What modelling showed

    The findings are theorems or Examples in the files they concern: among them that
    [strip_escape_sequences] can join lines ([Escape]), that a deny rule can be evaded with a
    line continuation ([ShellPolicy]), that a decorated end marker ends a patch early and that
    appending to an empty file leaves a blank line ([Patch]), that two asterisks inside a
    component are read as recursive ([GitIgnore]), and that a host can forget an operation
    that ran without moving the boundary it owns up to ([LedgerBytes]).

    ** Not modelled

    The async runtime, locks and worker threads: operations run one at a time, except where a
    file says how they interleave.  Transport, protocol and command-line code
    ([src/server.rs], [cli.rs], [transfer], the rest of the host contract's messages), which
    moves values without deciding.  The parsers of third-party formats (TOML, JSON,
    tree-sitter, Monty code) and the indexes built from them ([source-languages],
    [mcp-code], [mcp-code-graph], [code-graph]), which are theirs.  Of the workspace, the
    traversal and the watcher ([workspace.rs], [index]), which list files by calls of the
    operating system; of [workspace-scm], the calls to git; of [snapshot-store], the stat
    cache; of [workspace-snapshot], captures and the admission of calls. *)

From Stdlib Require Import Lia.
From stdpp Require Export base numbers strings pretty option sets list.

(** ** Rust results *)

Inductive Result (A E : Type) : Type :=
| Ok (value : A)
| Err (error : E).
Arguments Ok {A E} value.
Arguments Err {A E} error.

Declare Scope workcell_scope.
Delimit Scope workcell_scope with W.

Definition result_bind {A B E} (r : Result A E) (f : A → Result B E) : Result B E :=
  match r with Ok a => f a | Err e => Err e end.

Definition result_map {A B E} (f : A → B) (r : Result A E) : Result B E :=
  match r with Ok a => Ok (f a) | Err e => Err e end.

Definition ok_or {A E} (o : option A) (e : E) : Result A E :=
  match o with Some a => Ok a | None => Err e end.

Definition is_ok {A E} (r : Result A E) : bool :=
  match r with Ok _ => true | Err _ => false end.

Notation "'let?' x := e 'in' k" := (result_bind e (fun x => k))
  (at level 10, x pattern, e at level 100, k at level 200, only parsing) : workcell_scope.
Notation "'ensure' b 'else' e ';' k" := (if b then k else Err e)
  (at level 10, b at level 100, e at level 100, k at level 200, only parsing) : workcell_scope.

#[export] Instance Result_eq_dec {A E} `{EqDecision A} `{EqDecision E} :
  EqDecision (Result A E).
Proof. solve_decision. Defined.

(** ** Characters and strings

    A Rust [char] is a Unicode scalar value, an [N] here; a [&str] is the list of
    its scalar values.  Byte lengths are computed by [str_len] from the UTF-8
    width of each scalar, so every length test of the code is the code's. *)

Abbreviation char := N (only parsing).
Abbreviation str := (list N) (only parsing).

Definition lit (s : string) : str :=
  map Ascii.N_of_ascii (String.list_ascii_of_string s).

(** A Unicode scalar value: not a surrogate, at most U+10FFFF. *)
Definition is_scalar (c : char) : bool :=
  ((c <? 0xD800) || ((0xE000 <=? c) && (c <=? 0x10FFFF)))%N.

(** [char::len_utf8] and [str::len]. *)
Definition len_utf8 (c : char) : nat :=
  if (c <? 0x80)%N then 1 else if (c <? 0x800)%N then 2
  else if (c <? 0x10000)%N then 3 else 4.

Definition str_len (s : str) : nat := sum_list_with len_utf8 s.

(** [char::encode_utf16] and [str::encode_utf16]. *)
Definition char_utf16 (c : char) : list N :=
  (if c <? 0x10000 then [c]
   else [0xD800 + N.shiftr (c - 0x10000) 10;
         0xDC00 + N.land (c - 0x10000) 0x3FF])%N.

Definition encode_utf16 (s : str) : list N := flat_map char_utf16 s.

(** [char::is_whitespace]: the Unicode White_Space property. *)
Definition is_whitespace (c : char) : bool :=
  (((9 <=? c) && (c <=? 13)) || (c =? 32) || (c =? 0x85) || (c =? 0xA0) ||
   (c =? 0x1680) || ((0x2000 <=? c) && (c <=? 0x200A)) || (c =? 0x2028) ||
   (c =? 0x2029) || (c =? 0x202F) || (c =? 0x205F) || (c =? 0x3000))%N.

(** [char::is_control]: general category Cc. *)
Definition is_control (c : char) : bool :=
  ((c <? 32) || ((0x7F <=? c) && (c <=? 0x9F)))%N.

Definition is_ascii_digit (c : char) : bool := ((48 <=? c) && (c <=? 57))%N.
Definition is_ascii_upper (c : char) : bool := ((65 <=? c) && (c <=? 90))%N.
Definition is_ascii_lower (c : char) : bool := ((97 <=? c) && (c <=? 122))%N.
Definition is_ascii_alphanumeric (c : char) : bool :=
  is_ascii_digit c || is_ascii_upper c || is_ascii_lower c.
Definition ascii_lower (c : char) : char :=
  if is_ascii_upper c then (c + 32)%N else c.
Definition to_ascii_lowercase (s : str) : str := map ascii_lower s.

Definition NL : char := 10%N.
Definition CR : char := 13%N.
Definition ESC : char := 27%N.
Definition SLASH : char := 47%N.
Definition SPACE : char := 32%N.

Definition str_eqb (a b : str) : bool := bool_decide (a = b).

(** ** [str] methods of the standard library the program uses *)

Fixpoint strip_prefix (p s : str) : option str :=
  match p, s with
  | [], _ => Some s
  | c :: p', d :: s' => if (c =? d)%N then strip_prefix p' s' else None
  | _ :: _, [] => None
  end.

Definition starts_with (p s : str) : bool :=
  match strip_prefix p s with Some _ => true | None => false end.

Definition strip_suffix (p s : str) : option str :=
  @reverse N <$> strip_prefix (reverse p) (reverse s).

Definition ends_with (p s : str) : bool :=
  match strip_suffix p s with Some _ => true | None => false end.

Fixpoint drop_while (f : char → bool) (s : str) : str :=
  match s with
  | [] => []
  | c :: s' => if f c then drop_while f s' else s
  end.

(** The first piece of [str::split] on a set of characters. *)
Fixpoint take_while (f : char → bool) (s : str) : str :=
  match s with
  | [] => []
  | c :: s' => if f c then c :: take_while f s' else []
  end.

Definition trim_start_matches (f : char → bool) (s : str) : str := drop_while f s.
Definition trim_end_matches (f : char → bool) (s : str) : str :=
  reverse (drop_while f (reverse s)).
Definition trim_start (s : str) : str := trim_start_matches is_whitespace s.
Definition trim_end (s : str) : str := trim_end_matches is_whitespace s.
Definition trim (s : str) : str := trim_end (trim_start s).

Definition contains_char (c : char) (s : str) : bool := existsb (N.eqb c) s.

(** [str::find], [str::rfind] of a substring, as scalar positions. *)
Fixpoint find_str (p s : str) : option nat :=
  if starts_with p s then Some 0
  else match s with [] => None | _ :: s' => S <$> find_str p s' end.

Fixpoint rfind_str (p s : str) : option nat :=
  match s with
  | [] => if starts_with p [] then Some 0 else None
  | _ :: s' =>
      match rfind_str p s' with
      | Some i => Some (S i)
      | None => if starts_with p s then Some 0 else None
      end
  end.

Definition find_char (c : char) (s : str) : option nat := find_str [c] s.

(** [str::replace]: non-overlapping occurrences, left to right.  [skip] counts
    the characters of the current occurrence still to be passed over. *)
Fixpoint replace_go (p r : str) (skip : nat) (s : str) : str :=
  match s with
  | [] => []
  | c :: s' =>
      match skip with
      | S k => replace_go p r k s'
      | 0 => if starts_with p s then r ++ replace_go p r (length p - 1) s'
             else c :: replace_go p r 0 s'
      end
  end.

Definition replace (p r s : str) : str :=
  match p with
  | [] => r ++ flat_map (fun c => c :: r) s
  | _ => replace_go p r 0 s
  end.

(** [str::split] on one character: always at least one field. *)
Fixpoint split_on (c : char) (s : str) : list str :=
  match s with
  | [] => [[]]
  | d :: s' =>
      if (d =? c)%N then [] :: split_on c s'
      else match split_on c s' with
           | l :: ls => (d :: l) :: ls
           | [] => [[d]]
           end
  end.

(** [slice::join]. *)
Fixpoint join (sep : str) (ls : list str) : str :=
  match ls with
  | [] => []
  | [l] => l
  | l :: ls' => l ++ sep ++ join sep ls'
  end.

Definition strip_cr (l : str) : str := default l (strip_suffix [CR] l).

(** [str::lines]: the terminator is a newline, or a return and a newline; a
    final line without a terminator keeps its return. *)
Fixpoint lines_of (ls : list str) : list str :=
  match ls with
  | [] => []
  | [l] => match l with [] => [] | _ => [l] end
  | l :: ls' => strip_cr l :: lines_of ls'
  end.

Definition lines (s : str) : list str := lines_of (split_on NL s).

Definition split_once_char (c : char) (s : str) : option (str * str) :=
  (fix go (acc s : str) :=
     match s with
     | [] => None
     | d :: s' => if (d =? c)%N then Some (reverse acc, s') else go (d :: acc) s'
     end) [] s.

Definition split_once (p s : str) : option (str * str) :=
  (fun i => (take i s, drop (i + length p) s)) <$> find_str p s.

(** Decimal formatting, and [parse] of an unsigned integer of maximum [max]. *)
Definition dec (n : nat) : str := lit (pretty (N.of_nat n)).

Fixpoint parse_digits (radix max acc : N) (s : str) : option N :=
  match s with
  | [] => Some acc
  | c :: s' =>
      if is_ascii_digit c && (c - 48 <? radix)%N then
        let acc' := (acc * radix + (c - 48))%N in
        if (acc' <=? max)%N then parse_digits radix max acc' s' else None
      else None
  end.

Definition parse_unsigned (max : N) (s : str) : option N :=
  match s with
  | [] => None
  | c :: s' =>
      if (c =? 43)%N then match s' with [] => None | _ => parse_digits 10 max 0 s' end
      else parse_digits 10 max 0 s
  end.

(** [&s[n..]] for a byte offset [n]: [None] is the panic of an offset past the
    end or inside a character. *)
Fixpoint str_from (n : nat) (s : str) : option str :=
  match n, s with
  | 0, _ => Some s
  | S _, [] => None
  | S _, c :: s' => if (len_utf8 c <=? n)%nat then str_from (n - len_utf8 c) s' else None
  end.

(** [u64::saturating_add]. *)
Definition u64_sat_add (a b : N) : N := N.min (a + b) 0xFFFFFFFFFFFFFFFF.

Definition U8_MAX : N := 0xFF%N.
Definition U64_MAX : N := 0xFFFFFFFFFFFFFFFF%N.
Definition USIZE_MAX : N := U64_MAX.

(** ** Lemmas and automation shared by the components *)

Create HintDb rust.
Create Rewrite HintDb rust.

(** Turns boolean tests of the code into propositions. *)
Ltac bool_prop :=
  repeat match goal with
  | H : _ && _ = true |- _ => apply andb_true_iff in H; destruct H
  | H : _ || _ = false |- _ => apply orb_false_iff in H; destruct H
  | H : negb _ = true |- _ => apply negb_true_iff in H
  | H : negb _ = false |- _ => apply negb_false_iff in H
  | H : (_ <=? _)%nat = true |- _ => apply Nat.leb_le in H
  | H : (_ <=? _)%nat = false |- _ => apply Nat.leb_gt in H
  | H : (_ <? _)%nat = true |- _ => apply Nat.ltb_lt in H
  | H : (_ <? _)%nat = false |- _ => apply Nat.ltb_ge in H
  | H : (_ =? _)%nat = true |- _ => apply Nat.eqb_eq in H
  | H : (_ =? _)%nat = false |- _ => apply Nat.eqb_neq in H
  | H : (_ =? _)%N = true |- _ => apply N.eqb_eq in H
  | H : (_ =? _)%N = false |- _ => apply N.eqb_neq in H
  | H : (_ <=? _)%N = true |- _ => apply N.leb_le in H
  | H : (_ <=? _)%N = false |- _ => apply N.leb_gt in H
  | H : (_ <? _)%N = true |- _ => apply N.ltb_lt in H
  | H : (_ <? _)%N = false |- _ => apply N.ltb_ge in H
  | H : bool_decide _ = true |- _ => apply bool_decide_eq_true in H
  | H : bool_decide _ = false |- _ => apply bool_decide_eq_false in H
  end.

(** Closes a bound by evaluation, for constants too large for [simpl]. *)
Ltac compute_le := apply Nat.leb_le; vm_compute; reflexivity.

(** Splits the innermost test of the goal. *)
Ltac case_if :=
  match goal with |- context [if ?b then _ else _] => destruct b eqn:? end.

(** A name is on a list exactly when it is one of the cases of an inductive predicate. *)
Ltac listed_names :=
  split;
  [ intros H; repeat (apply elem_of_cons in H as [->|H]; [constructor|]); by apply elem_of_nil in H
  | destruct 1; cbn [map]; rewrite !elem_of_cons; tauto ].

Lemma result_bind_ok {A B E} (r : Result A E) (f : A → Result B E) b :
  result_bind r f = Ok b ↔ ∃ a, r = Ok a ∧ f a = Ok b.
Proof. destruct r; simpl; naive_solver. Qed.

Lemma str_eqb_eq a b : str_eqb a b = true ↔ a = b.
Proof. apply bool_decide_eq_true. Qed.

Lemma len_utf8_bounds c : 1 ≤ len_utf8 c ≤ 4.
Proof. unfold len_utf8. repeat case_if; lia. Qed.
#[export] Hint Resolve len_utf8_bounds : rust.

Lemma str_len_app a b : str_len (a ++ b) = str_len a + str_len b.
Proof. apply sum_list_with_app. Qed.

Lemma str_len_cons c s : str_len (c :: s) = len_utf8 c + str_len s.
Proof. done. Qed.

Lemma str_len_nil : str_len [] = 0.
Proof. done. Qed.
#[export] Hint Rewrite str_len_app str_len_cons str_len_nil : rust.

Lemma str_len_zero s : str_len s = 0 ↔ s = [].
Proof.
  destruct s as [|c s]; rewrite ?str_len_cons; [done|].
  pose proof (len_utf8_bounds c). split; [lia|done].
Qed.

Lemma str_len_take_le n s : str_len (take n s) ≤ str_len s.
Proof.
  rewrite <- (take_drop n s) at 2. rewrite str_len_app. lia.
Qed.

Lemma strip_prefix_Some p s r : strip_prefix p s = Some r ↔ s = p ++ r.
Proof.
  revert s. induction p as [|c p IH]; intros [|d s]; simpl.
  - split; congruence.
  - split; congruence.
  - split; discriminate.
  - destruct (N.eqb_spec c d) as [->|Hne]; [rewrite IH|]; split; congruence.
Qed.

Lemma starts_with_true p s : starts_with p s = true ↔ ∃ r, s = p ++ r.
Proof.
  unfold starts_with. destruct (strip_prefix p s) eqn:E.
  - apply strip_prefix_Some in E. naive_solver.
  - split; [done|]. intros [r Hr]. apply strip_prefix_Some in Hr. congruence.
Qed.

Lemma starts_with_app p s : starts_with p (p ++ s) = true.
Proof. apply starts_with_true. eauto. Qed.

Lemma strip_suffix_Some p s r : strip_suffix p s = Some r ↔ s = r ++ p.
Proof.
  unfold strip_suffix. rewrite fmap_Some. setoid_rewrite strip_prefix_Some. split.
  - intros (x & Hs & ->). apply (f_equal reverse) in Hs.
    by rewrite reverse_involutive, reverse_app, reverse_involutive in Hs.
  - intros ->. exists (reverse r). by rewrite reverse_app, reverse_involutive.
Qed.

Lemma ends_with_true p s : ends_with p s = true ↔ ∃ r, s = r ++ p.
Proof.
  unfold ends_with. destruct (strip_suffix p s) eqn:E.
  - apply strip_suffix_Some in E. naive_solver.
  - split; [done|]. intros [r Hr]. apply strip_suffix_Some in Hr. congruence.
Qed.

Lemma find_str_Some p s i :
  find_str p s = Some i ↔
  starts_with p (drop i s) = true ∧ i ≤ length s ∧
  ∀ j, j < i → starts_with p (drop j s) = false.
Proof.
  revert i. induction s as [|c s IH]; intros i; simpl.
  - destruct (starts_with p []) eqn:E.
    + split; [intros [= <-]; split_and!; [done|lia|lia]|].
      intros (_ & Hi & _). f_equal. lia.
    + split; [done|]. rewrite drop_nil. intros (? & _). congruence.
  - destruct (starts_with p (c :: s)) eqn:E.
    + split; [intros [= <-]; split_and!; [done|lia|lia]|].
      intros (_ & _ & Hj). destruct i; [done|]. specialize (Hj 0). simpl in Hj.
      rewrite Hj in E; [done|lia].
    + rewrite fmap_Some. split.
      * intros (k & Hk & ->). apply IH in Hk as (H1 & H2 & H3).
        split_and!; [done|lia|]. intros [|j] Hj; simpl; [done|]. apply H3. lia.
      * intros (H1 & H2 & H3). destruct i as [|k]; [simpl in H1; congruence|].
        exists k. split; [|done]. apply IH. split_and!; [done|lia|].
        intros j Hj. apply (H3 (S j)). lia.
Qed.

Lemma find_str_None p s :
  find_str p s = None ↔ ∀ j, j ≤ length s → starts_with p (drop j s) = false.
Proof.
  induction s as [|c s IH]; simpl.
  - destruct (starts_with p []) eqn:E; split; try done.
    + intros H. specialize (H 0 (Nat.le_refl _)). simpl in H. congruence.
    + intros _ j _. by rewrite drop_nil.
  - destruct (starts_with p (c :: s)) eqn:E.
    + split; [done|]. intros H. specialize (H 0). simpl in H. rewrite H in E; [done|lia].
    + rewrite fmap_None, IH. split.
      * intros H [|j] Hj; simpl; [done|]. apply H. lia.
      * intros H j Hj. apply (H (S j)). lia.
Qed.

Lemma rfind_str_None p s :
  rfind_str p s = None ↔ ∀ j, j ≤ length s → starts_with p (drop j s) = false.
Proof.
  induction s as [|c s IH]; simpl.
  - destruct (starts_with p []) eqn:E; split; try done.
    + intros H. specialize (H 0 (Nat.le_refl _)). simpl in H. congruence.
    + intros _ j _. by rewrite drop_nil.
  - destruct (rfind_str p s) as [k|].
    + split; [done|]. intros H. assert (Some k = None) as [=]. apply IH.
      intros j Hj. apply (H (S j)). lia.
    + destruct (starts_with p (c :: s)) eqn:E; split; try done.
      * intros H. specialize (H 0). simpl in H. rewrite H in E; [done|lia].
      * intros _ [|j] Hj; simpl; [done|]. apply IH; [done|lia].
Qed.

Lemma rfind_str_Some p s i :
  rfind_str p s = Some i ↔
  starts_with p (drop i s) = true ∧ i ≤ length s ∧
  ∀ j, i < j → j ≤ length s → starts_with p (drop j s) = false.
Proof.
  revert i. induction s as [|c s IH]; intros i; simpl.
  - destruct (starts_with p []) eqn:E.
    + split; [intros [= <-]; split_and!; [done|lia|lia]|].
      intros (_ & Hi & _). f_equal. lia.
    + split; [done|]. rewrite drop_nil. intros (? & _). congruence.
  - destruct (rfind_str p s) as [k|] eqn:Ek.
    + destruct (proj1 (IH k) eq_refl) as (H1 & H2 & H3). split.
      * intros [= <-]. split_and!; [done|lia|]. intros [|j] Hj Hl; [lia|]. apply H3; lia.
      * intros (G1 & G2 & G3). destruct i as [|i].
        { specialize (G3 (S k)). simpl in G3. rewrite G3 in H1; [done|lia|lia]. }
        assert (Some k = Some i) as [= ->]; [|done].
        apply IH. split_and!; [done|lia|]. intros j Hj Hl. apply (G3 (S j)); lia.
    + pose proof (proj1 (rfind_str_None p s) Ek) as Hnone. clear IH Ek.
      destruct (starts_with p (c :: s)) eqn:E.
      * split.
        { intros [= <-]. split_and!; [done|lia|]. intros [|j] Hj Hl; [lia|]. apply Hnone. lia. }
        intros (G1 & G2 & _). destruct i; [done|]. simpl in G1. rewrite Hnone in G1; [done|lia].
      * split; [done|]. intros (G1 & G2 & _). destruct i; simpl in G1; [congruence|].
        rewrite Hnone in G1; [done|lia].
Qed.

Lemma drop_while_suffix f s : ∃ pre, s = pre ++ drop_while f s ∧ Forall (λ c, f c = true) pre.
Proof.
  induction s as [|c s (pre & Hs & Hp)]; simpl; [by exists []|].
  destruct (f c) eqn:E; [|by exists []].
  exists (c :: pre). split; [simpl; congruence|by constructor].
Qed.

Lemma drop_while_head f s c r : drop_while f s = c :: r → f c = false.
Proof.
  induction s as [|d s IH]; simpl; [done|].
  destruct (f d) eqn:E; [done|]. by intros [= -> ->].
Qed.

Lemma drop_while_id f s : (∀ c, head s = Some c → f c = false) → drop_while f s = s.
Proof. destruct s as [|c s]; simpl; [done|]. intros H. by rewrite (H c). Qed.

Lemma drop_while_idem f s : drop_while f (drop_while f s) = drop_while f s.
Proof.
  destruct (drop_while f s) as [|c r] eqn:E; [done|].
  apply drop_while_id. intros d [= <-]. by eapply drop_while_head.
Qed.

Lemma drop_while_all f s : Forall (λ c, f c = true) s → drop_while f s = [].
Proof. induction 1 as [|c s Hc _ IH]; simpl; [done|]. by rewrite Hc. Qed.

(** [trim_end_matches] removes a suffix of matching characters. *)
Lemma trim_end_prefix f s :
  ∃ post, s = trim_end_matches f s ++ post ∧ Forall (λ c, f c = true) post.
Proof.
  unfold trim_end_matches. destruct (drop_while_suffix f (reverse s)) as (pre & Hs & Hp).
  exists (reverse pre). split; [|by apply Forall_reverse].
  rewrite <- reverse_app, <- Hs. by rewrite reverse_involutive.
Qed.

Lemma trim_end_matches_id f s : (∀ c, last s = Some c → f c = false) → trim_end_matches f s = s.
Proof.
  intros H. unfold trim_end_matches. rewrite drop_while_id; [apply reverse_involutive|].
  intros c Hc. apply H. by rewrite <- head_reverse.
Qed.

Lemma trim_end_matches_last f s c : last (trim_end_matches f s) = Some c → f c = false.
Proof.
  unfold trim_end_matches. rewrite last_reverse.
  destruct (drop_while f (reverse s)) eqn:E; [done|]. intros [= <-].
  by eapply drop_while_head.
Qed.

Lemma trim_id s :
  (∀ c, head s = Some c → is_whitespace c = false) →
  (∀ c, last s = Some c → is_whitespace c = false) → trim s = s.
Proof.
  intros H1 H2. unfold trim, trim_start, trim_end, trim_start_matches.
  rewrite drop_while_id by done. by apply trim_end_matches_id.
Qed.

(** ** Splitting and joining *)

Lemma split_on_nonempty c s : split_on c s ≠ [].
Proof. destruct s as [|d s]; simpl; [done|]. case_if; [done|]. by destruct (split_on c s). Qed.

Lemma join_cons sep l ls : ls ≠ [] → join sep (l :: ls) = l ++ sep ++ join sep ls.
Proof. by destruct ls. Qed.

Lemma join_snoc sep ls l : ls ≠ [] → join sep (ls ++ [l]) = join sep ls ++ sep ++ l.
Proof.
  induction ls as [|x ls IH]; [done|]. intros _.
  destruct (decide (ls = [])) as [->|Hne]; [done|].
  assert (ls ++ [l] ≠ []) by (intros [_ ?]%app_eq_nil; done).
  cbn [app]. rewrite !join_cons, IH by done. by rewrite <- !app_assoc.
Qed.

Lemma join_split_on c s : join [c] (split_on c s) = s.
Proof.
  induction s as [|d s IH]; simpl; [done|].
  pose proof (split_on_nonempty c s) as Hne. destruct (N.eqb_spec d c) as [->|_].
  - rewrite join_cons by done. simpl. by rewrite IH.
  - destruct (split_on c s) as [|l ls]; [done|]. destruct ls as [|l' ls].
    + simpl in *. congruence.
    + rewrite join_cons in * by done. simpl in *. congruence.
Qed.

Lemma split_on_clean c s : c ∉ s → split_on c s = [s].
Proof.
  induction s as [|d s IH]; simpl; [done|]. intros [Hd Hs]%not_elem_of_cons.
  destruct (N.eqb_spec d c) as [->|_]; [done|]. by rewrite IH.
Qed.

Lemma split_on_app c l s : c ∉ l → split_on c (l ++ c :: s) = l :: split_on c s.
Proof.
  induction l as [|d l IH]; simpl; [by rewrite N.eqb_refl|].
  intros [Hd Hl]%not_elem_of_cons.
  destruct (N.eqb_spec d c) as [->|_]; [done|]. by rewrite IH.
Qed.

Lemma split_on_join c ls : ls ≠ [] → Forall (λ l, c ∉ l) ls → split_on c (join [c] ls) = ls.
Proof.
  intros Hne H. induction H as [|l ls Hl Hls IH]; [done|].
  destruct ls as [|l' ls]; [by apply split_on_clean|].
  rewrite join_cons by done. cbn [app]. rewrite split_on_app by done. by rewrite IH.
Qed.

Lemma split_on_Forall c s : Forall (λ l, c ∉ l) (split_on c s).
Proof.
  induction s as [|d s IH]; simpl; [repeat constructor; set_solver|].
  destruct (N.eqb_spec d c) as [->|Hd]; [constructor; [set_solver|done]|].
  destruct (split_on c s) as [|l ls]; [repeat constructor; set_solver|].
  inversion IH; subst. constructor; [set_solver|done].
Qed.

Lemma lookup_take_drop {A} (l : list A) i n k :
  k < n → take n (drop i l) !! k = l !! (i + k).
Proof. intros Hk. by rewrite lookup_take_lt, lookup_drop by done. Qed.

Lemma str_from_take e s : e ≤ length s → str_from (str_len (take e s)) s = Some (drop e s).
Proof.
  revert s. induction e as [|e IH]; intros s He; [by destruct s|].
  destruct s as [|c s]; simpl in He; [lia|].
  rewrite firstn_cons, str_len_cons. pose proof (len_utf8_bounds c).
  destruct (len_utf8 c + str_len (take e s)) as [|n] eqn:E; [lia|]. cbn [str_from].
  rewrite (proj2 (Nat.leb_le (len_utf8 c) (S n))) by lia.
  replace (S n - len_utf8 c) with (str_len (take e s)) by lia.
  apply IH. lia.
Qed.

Lemma starts_with_one c s : starts_with [c] s = true ↔ head s = Some c.
Proof.
  rewrite starts_with_true. destruct s; simpl; naive_solver.
Qed.

Lemma find_char_Some c s i :
  find_char c s = Some i → i ≤ length s ∧ c ∉ take i s ∧ (∃ r, drop i s = c :: r).
Proof.
  unfold find_char. rewrite find_str_Some, starts_with_one. intros (Hh & Hi & Hj).
  split_and!; [done| |destruct (drop i s); naive_solver].
  intros (j & Hjc)%list_elem_of_lookup. apply lookup_take_Some in Hjc as [Hjc Hlt].
  specialize (Hj j Hlt). apply not_true_iff_false in Hj. apply Hj, starts_with_one.
  by rewrite head_lookup, lookup_drop, Nat.add_0_r.
Qed.

Lemma find_char_None c s : find_char c s = None → c ∉ s.
Proof.
  unfold find_char. rewrite find_str_None. intros Hj (j & Hjc)%list_elem_of_lookup.
  specialize (Hj j). apply lookup_lt_Some in Hjc as Hl.
  assert (starts_with [c] (drop j s) = false) as Hf%not_true_iff_false by (apply Hj; lia).
  apply Hf, starts_with_one. by rewrite head_lookup, lookup_drop, Nat.add_0_r.
Qed.

Lemma last_drop_Some {A} (s : list A) n x : last (drop n s) = Some x → last s = Some x.
Proof.
  intros H. rewrite <- (take_drop n s), last_app. by rewrite H.
Qed.

Lemma u64_sat_add_assoc a b c : u64_sat_add (u64_sat_add a b) c = u64_sat_add a (b + c).
Proof. unfold u64_sat_add. lia. Qed.

Lemma u64_sat_add_0 a : (a <= U64_MAX)%N → u64_sat_add a 0 = a.
Proof. unfold u64_sat_add, U64_MAX. lia. Qed.

Lemma u64_sat_add_le a b : (u64_sat_add a b <= U64_MAX)%N.
Proof. unfold u64_sat_add, U64_MAX. lia. Qed.

(** Slices of bytes compare lexicographically. *)
Fixpoint bytes_cmp (a b : list N) : comparison :=
  match a, b with
  | [], [] => Eq
  | [], _ :: _ => Lt
  | _ :: _, [] => Gt
  | x :: a', y :: b' => match (x ?= y)%N with Eq => bytes_cmp a' b' | c => c end
  end.

Lemma bytes_cmp_refl a : bytes_cmp a a = Eq.
Proof. induction a as [|x a IH]; simpl; [done|]. by rewrite N.compare_refl. Qed.

Lemma bytes_cmp_eq a b : bytes_cmp a b = Eq ↔ a = b.
Proof.
  split; [|intros ->; apply bytes_cmp_refl].
  revert b. induction a as [|x a IH]; intros [|y b]; simpl; try done.
  destruct (x ?= y)%N eqn:E; try done. apply N.compare_eq in E as ->. intros H. f_equal. auto.
Qed.

Lemma bytes_cmp_antisym a b : bytes_cmp b a = CompOpp (bytes_cmp a b).
Proof.
  revert b. induction a as [|x a IH]; intros [|y b]; simpl; try done.
  rewrite N.compare_antisym. destruct (x ?= y)%N; simpl; auto.
Qed.

Lemma bytes_cmp_gt a b : bytes_cmp a b = Gt ↔ bytes_cmp b a = Lt.
Proof. rewrite (bytes_cmp_antisym a b). by destruct (bytes_cmp a b). Qed.

Lemma bytes_cmp_app p a b : bytes_cmp (p ++ a) (p ++ b) = bytes_cmp a b.
Proof. induction p as [|x p IH]; simpl; [done|]. by rewrite N.compare_refl. Qed.

Lemma bytes_cmp_trans a b c : bytes_cmp a b = Lt → bytes_cmp b c = Lt → bytes_cmp a c = Lt.
Proof.
  revert b c. induction a as [|x a IH]; intros [|y b] [|z c]; simpl; try done.
  destruct (N.compare_spec x y), (N.compare_spec y z); subst; try done;
    try (by rewrite (proj2 (N.compare_lt_iff _ _)) by lia).
  rewrite N.compare_refl. eauto.
Qed.

(** Either the smaller is a prefix, or they differ at a byte both have. *)
Lemma bytes_cmp_lt_cases a b :
  bytes_cmp a b = Lt →
  (∃ r, r ≠ [] ∧ b = a ++ r) ∨ ∀ x y, bytes_cmp (a ++ x) (b ++ y) = Lt.
Proof.
  revert b. induction a as [|x a IH]; intros [|y b]; simpl; try done.
  { intros _. left. by exists (y :: b). }
  destruct (x ?= y)%N eqn:E; try done; [|by right].
  apply N.compare_eq in E as ->. intros [(r & Hr & ->)|H]%IH; [left; by exists r|by right].
Qed.

Lemma bytes_cmp_prefix a r : r ≠ [] → bytes_cmp a (a ++ r) = Lt.
Proof. intros Hr. induction a as [|x a IH]; simpl; [by destruct r|]. by rewrite N.compare_refl. Qed.

Definition bytes_lt (a b : list N) : Prop := bytes_cmp a b = Lt.

#[export] Instance bytes_lt_strict : StrictOrder bytes_lt.
Proof.
  split; [|intros a b c; apply bytes_cmp_trans].
  intros a. unfold complement, bytes_lt. by rewrite bytes_cmp_refl.
Qed.

#[export] Instance bytes_lt_dec a b : Decision (bytes_lt a b).
Proof. unfold bytes_lt. apply _. Defined.

Lemma bytes_total a b : bytes_lt a b ∨ a = b ∨ bytes_lt b a.
Proof.
  unfold bytes_lt. destruct (bytes_cmp a b) eqn:E; [|by left|].
  - right. left. by apply bytes_cmp_eq.
  - right. right. by apply bytes_cmp_gt.
Qed.
