(* ===== verification/Utf8.v ===== *)
(** * UTF-8 of the standard library

    [char::encode_utf8], [std::str::from_utf8] with its error, and
    [String::from_utf8_lossy]: one replacement character for each maximal part of an
    ill-formed sequence. *)

From S2P Require Import Prelude.

Definition REPLACEMENT : char := 0xFFFD%N.

(** [char::encode_utf8] and [str::as_bytes]. *)
Definition char_bytes (c : char) : list N :=
  (if c <? 0x80 then [c]
   else if c <? 0x800 then [0xC0 + c / 64; 0x80 + c mod 64]
   else if c <? 0x10000 then [0xE0 + c / 4096; 0x80 + c / 64 mod 64; 0x80 + c mod 64]
   else [0xF0 + c / 262144; 0x80 + c / 4096 mod 64; 0x80 + c / 64 mod 64; 0x80 + c mod 64])%N.

Definition str_bytes (s : str) : list N := flat_map char_bytes s.

(** What the bytes start with: a scalar, an ill-formed sequence of so many bytes, or a
    sequence that the end of the bytes cuts short. *)
Inductive Utf8Step : Type :=
| Scalar (c : char) (rest : list N)
| Bad (skipped : nat) (rest : list N)
| Truncated.

Definition within (low high b : N) : bool := ((low <=? b) && (b <=? high))%N.
Definition continuation (b : N) : bool := within 0x80 0xBF b.

(** The second bytes a first byte of three or four admits. *)
Definition second_ok (b0 b1 : N) : bool :=
  if (b0 =? 0xE0)%N then within 0xA0 0xBF b1
  else if (b0 =? 0xED)%N then within 0x80 0x9F b1
  else if (b0 =? 0xF0)%N then within 0x90 0xBF b1
  else if (b0 =? 0xF4)%N then within 0x80 0x8F b1
  else continuation b1.

Definition utf8_step (b0 : N) (rest : list N) : Utf8Step :=
  if (b0 <? 0x80)%N then Scalar b0 rest
  else if within 0xC2 0xDF b0 then
    match rest with
    | [] => Truncated
    | b1 :: rest1 =>
        if continuation b1 then Scalar ((b0 - 0xC0) * 64 + (b1 - 0x80))%N rest1 else Bad 1 rest
    end
  else if within 0xE0 0xEF b0 then
    match rest with
    | [] => Truncated
    | b1 :: rest1 =>
        if second_ok b0 b1 then
          match rest1 with
          | [] => Truncated
          | b2 :: rest2 =>
              if continuation b2
              then Scalar ((b0 - 0xE0) * 4096 + (b1 - 0x80) * 64 + (b2 - 0x80))%N rest2
              else Bad 2 rest1
          end
        else Bad 1 rest
    end
  else if within 0xF0 0xF4 b0 then
    match rest with
    | [] => Truncated
    | b1 :: rest1 =>
        if second_ok b0 b1 then
          match rest1 with
          | [] => Truncated
          | b2 :: rest2 =>
              if continuation b2 then
                match rest2 with
                | [] => Truncated
                | b3 :: rest3 =>
                    if continuation b3
                    then Scalar ((b0 - 0xF0) * 262144 + (b1 - 0x80) * 4096 + (b2 - 0x80) * 64
                                 + (b3 - 0x80))%N rest3
                    else Bad 3 rest2
                end
              else Bad 2 rest1
          end
        else Bad 1 rest
    end
  else Bad 1 rest.

(** [from_utf8]: the text, or the valid part before the error, its length
    ([valid_up_to]), and [error_len].  Each step consumes bytes, so their number is enough
    [fuel]. *)
Inductive Utf8Result : Type :=
| Valid (s : str)
| Invalid (valid : str) (valid_up_to : nat) (error_len : option nat).

Fixpoint from_utf8_go (fuel : nat) (bytes : list N) (total : nat) (valid : str) : Utf8Result :=
  match fuel, bytes with
  | _, [] => Valid valid
  | 0, _ => Invalid valid 0 None
  | S fuel', b0 :: rest =>
      match utf8_step b0 rest with
      | Scalar c rest' => from_utf8_go fuel' rest' total (valid ++ [c])
      | Bad n _ => Invalid valid (total - length bytes) (Some n)
      | Truncated => Invalid valid (total - length bytes) None
      end
  end.

Definition from_utf8 (bytes : list N) : Utf8Result :=
  from_utf8_go (length bytes) bytes (length bytes) [].

Fixpoint lossy_go (fuel : nat) (bytes : list N) : str :=
  match fuel, bytes with
  | _, [] => []
  | 0, _ => []
  | S fuel', b0 :: rest =>
      match utf8_step b0 rest with
      | Scalar c rest' => c :: lossy_go fuel' rest'
      | Bad _ rest' => REPLACEMENT :: lossy_go fuel' rest'
      | Truncated => [REPLACEMENT]
      end
  end.

Definition from_utf8_lossy (bytes : list N) : str := lossy_go (length bytes) bytes.

(** [from_utf8(..).ok()]. *)
Definition from_utf8_ok (bytes : list N) : option str :=
  match from_utf8 bytes with Valid s => Some s | Invalid _ _ _ => None end.

(** ** Steps *)

Ltac utf8_cases :=
  unfold utf8_step;
  repeat match goal with
  | |- context [match ?l with [] => Truncated | _ => _ end] => is_var l; destruct l
  | |- context [if ?b then _ else _] => destruct b eqn:?
  end.

(** A step consumes the bytes before its rest. *)
Lemma utf8_step_rest b0 rest :
  match utf8_step b0 rest with
  | Scalar _ rest' => ∃ used, b0 :: rest = used ++ rest' ∧ used ≠ []
  | Bad n rest' => ∃ used, b0 :: rest = used ++ rest' ∧ length used = n ∧ n ≠ 0
  | Truncated => True
  end.
Proof.
  utf8_cases; try exact I;
    match goal with
    | |- ∃ used, ?b :: ?r = used ++ ?r ∧ _ => by exists [b]
    | |- ∃ used, ?b :: ?b1 :: ?r = used ++ ?r ∧ _ => by exists [b; b1]
    | |- ∃ used, ?b :: ?b1 :: ?b2 :: ?r = used ++ ?r ∧ _ => by exists [b; b1; b2]
    | |- ∃ used, ?b :: ?b1 :: ?b2 :: ?b3 :: ?r = used ++ ?r ∧ _ => by exists [b; b1; b2; b3]
    end.
Qed.

Ltac rewrite_tests :=
  repeat match goal with H : ?x = ?b |- context [?x] => is_constructor b; rewrite H end.

(** More bytes change only a step that was cut short. *)
Lemma utf8_step_app b0 rest more :
  match utf8_step b0 rest with
  | Scalar c rest' => utf8_step b0 (rest ++ more) = Scalar c (rest' ++ more)
  | Bad n rest' => utf8_step b0 (rest ++ more) = Bad n (rest' ++ more)
  | Truncated => True
  end.
Proof.
  destruct (utf8_step b0 rest) eqn:E; revert E; utf8_cases; intros [= <- <-] || intros [=];
    try exact I; subst; unfold utf8_step; simpl; rewrite_tests; reflexivity.
Qed.

(** A scalar depends on its own bytes only. *)
Lemma utf8_step_scalar b0 rest c r :
  utf8_step b0 rest = Scalar c r →
  ∃ used, rest = used ++ r ∧ ∀ more, utf8_step b0 (used ++ more) = Scalar c more.
Proof.
  utf8_cases; intros [= <- <-];
    match goal with
    | |- ∃ used, ?r = used ++ ?r ∧ _ => exists []
    | |- ∃ used, ?b1 :: ?r = used ++ ?r ∧ _ => exists [b1]
    | |- ∃ used, ?b1 :: ?b2 :: ?r = used ++ ?r ∧ _ => exists [b1; b2]
    | |- ∃ used, ?b1 :: ?b2 :: ?b3 :: ?r = used ++ ?r ∧ _ => exists [b1; b2; b3]
    end; (split; [done|]); intros more; unfold utf8_step; simpl; rewrite_tests; reflexivity.
Qed.

(** ** Lossy decoding *)

Lemma lossy_go_fuel fuel fuel' bytes :
  length bytes ≤ fuel → length bytes ≤ fuel' → lossy_go fuel bytes = lossy_go fuel' bytes.
Proof.
  revert fuel' bytes. induction fuel as [|fuel IH]; intros fuel' bytes H H'.
  { destruct bytes; [by destruct fuel'|simpl in H; lia]. }
  destruct bytes as [|b0 rest]; [by destruct fuel'|]. destruct fuel' as [|fuel']; [simpl in H'; lia|].
  cbn [lossy_go]. pose proof (utf8_step_rest b0 rest) as Hr. simpl in H, H'.
  destruct (utf8_step b0 rest) as [c r|n r|]; [| |done].
  - destruct Hr as (used & E & Hu). f_equal. apply (f_equal length) in E.
    rewrite length_app in E. destruct used; [done|]. simpl in E. apply IH; lia.
  - destruct Hr as (used & E & Hu & Hn). f_equal. apply (f_equal length) in E.
    rewrite length_app in E. simpl in E. apply IH; lia.
Qed.

Lemma from_utf8_lossy_cons b0 rest :
  from_utf8_lossy (b0 :: rest) =
    match utf8_step b0 rest with
    | Scalar c rest' => c :: from_utf8_lossy rest'
    | Bad _ rest' => REPLACEMENT :: from_utf8_lossy rest'
    | Truncated => [REPLACEMENT]
    end.
Proof.
  unfold from_utf8_lossy. cbn [length lossy_go]. pose proof (utf8_step_rest b0 rest) as Hr.
  destruct (utf8_step b0 rest) as [c r|n r|]; [| |done].
  - destruct Hr as (used & E & Hu). f_equal. apply (f_equal length) in E.
    rewrite length_app in E. destruct used; [done|]. simpl in E. apply lossy_go_fuel; lia.
  - destruct Hr as (used & E & Hu & Hn). f_equal. apply (f_equal length) in E.
    rewrite length_app in E. simpl in E. apply lossy_go_fuel; lia.
Qed.

(** The bytes of an ill-formed sequence decode to one replacement character. *)
Lemma lossy_bad b0 rest n rest' :
  utf8_step b0 rest = Bad n rest' → ∃ bad, b0 :: rest = bad ++ rest' ∧ length bad = n ∧ n ≠ 0 ∧
    from_utf8_lossy bad = [REPLACEMENT].
Proof.
  intros E. pose proof (utf8_step_rest b0 rest) as Hr. rewrite E in Hr.
  destruct Hr as (bad & Hb & Hn & Hn'). exists bad. split_and!; [done..|].
  destruct bad as [|b bad]; [by subst|]. simpl in Hb. injection Hb as <- Hb.
  rewrite from_utf8_lossy_cons. subst rest.
  revert E Hn. destruct bad as [|b1 [|b2 [|b3 bad]]]; simpl; unfold utf8_step;
    repeat match goal with |- context [if ?b then _ else _] => destruct b eqn:? end;
    intros E Hn; try done; try (destruct rest'; simplify_eq/=; try done; lia).
  all: repeat case_match; simplify_eq/=; try done; lia.
Qed.

(** What [from_utf8] found, in terms of lossy decoding with any bytes that follow. *)
Definition utf8_result_ok (bytes : list N) (r : Utf8Result) : Prop :=
  match r with
  | Valid s => ∀ more, from_utf8_lossy (bytes ++ more) = s ++ from_utf8_lossy more
  | Invalid valid upto None =>
      ∃ pre rest, bytes = pre ++ rest ∧ length pre = upto ∧ rest ≠ [] ∧
        ∀ more, from_utf8_lossy (bytes ++ more) = valid ++ from_utf8_lossy (rest ++ more)
  | Invalid valid upto (Some n) =>
      ∃ pre bad rest, bytes = pre ++ bad ++ rest ∧ length pre = upto ∧ length bad = n ∧ n ≠ 0 ∧
        from_utf8_lossy (pre ++ bad) = valid ++ [REPLACEMENT] ∧
        ∀ more, from_utf8_lossy (bytes ++ more)
                = valid ++ REPLACEMENT :: from_utf8_lossy (rest ++ more)
  end.

Lemma from_utf8_go_ok fuel bytes before valid :
  length bytes ≤ fuel →
  (∀ more, from_utf8_lossy (before ++ more) = valid ++ from_utf8_lossy more) →
  utf8_result_ok (before ++ bytes)
    (from_utf8_go fuel bytes (length before + length bytes) valid).
Proof.
  revert bytes before valid. induction fuel as [|fuel IH]; intros bytes before valid Hf Hb.
  { destruct bytes; [|simpl in Hf; lia]. simpl. by rewrite app_nil_r. }
  destruct bytes as [|b0 rest]; [simpl; by rewrite app_nil_r|]. simpl in Hf.
  cbn [from_utf8_go]. pose proof (utf8_step_app b0 rest) as Ha.
  destruct (utf8_step b0 rest) as [c r|n r|] eqn:E.
  - apply utf8_step_scalar in E as (used & -> & E). clear Ha.
    specialize (IH r (before ++ b0 :: used) (valid ++ [c])).
    rewrite length_app in Hf. rewrite <- app_assoc in IH. cbn [app] in IH.
    replace (length before + length (b0 :: used ++ r)) with (length (before ++ b0 :: used) + length r)
      by (rewrite length_app; simpl; rewrite length_app; lia).
    apply IH; [lia|]. intros more.
    by rewrite <- !app_assoc, Hb, <- app_comm_cons, from_utf8_lossy_cons, E.
  - destruct (lossy_bad _ _ _ _ E) as (bad & Hbad & Hn & Hn' & Hl).
    exists before, bad, r. rewrite Hbad. split_and!; [done|simpl; lia|done|done|by rewrite Hb, Hl|].
    intros more. rewrite <- Hbad, <- app_assoc, Hb, <- app_comm_cons, from_utf8_lossy_cons.
    by rewrite Ha.
  - exists before, (b0 :: rest). split_and!; [done|simpl; lia|done|].
    intros more. by rewrite <- app_assoc, Hb.
Qed.

Lemma from_utf8_spec bytes : utf8_result_ok bytes (from_utf8 bytes).
Proof. by apply (from_utf8_go_ok (length bytes) bytes [] []). Qed.

(** ** Encoding *)

Lemma length_char_bytes c : length (char_bytes c) = len_utf8 c.
Proof. unfold char_bytes, len_utf8. repeat case_match; done. Qed.

Lemma length_str_bytes s : length (str_bytes s) = str_len s.
Proof.
  induction s as [|c s IH]; [done|].
  change (str_bytes (c :: s)) with (char_bytes c ++ str_bytes s).
  by rewrite length_app, length_char_bytes, str_len_cons, IH.
Qed.

Lemma str_bytes_app a b : str_bytes (a ++ b) = str_bytes a ++ str_bytes b.
Proof. apply flat_map_app. Qed.

Ltac decide_tests :=
  repeat match goal with
  | |- context [(?a <? ?b)%N] =>
      first [rewrite (proj2 (N.ltb_lt a b)) by lia | rewrite (proj2 (N.ltb_ge a b)) by lia]
  | |- context [(?a <=? ?b)%N] =>
      first [rewrite (proj2 (N.leb_le a b)) by lia | rewrite (proj2 (N.leb_gt a b)) by lia]
  | |- context [(?a =? ?b)%N] => destruct (N.eqb_spec a b)
  end; cbn [andb].

Lemma utf8_step_char c :
  is_scalar c = true → ∃ b0 rest, char_bytes c = b0 :: rest ∧
    ∀ more, utf8_step b0 (rest ++ more) = Scalar c more.
Proof.
  intros Hc. assert (c < 0xD800 ∨ 0xE000 <= c <= 0x10FFFF)%N as Hs.
  { unfold is_scalar in Hc. apply orb_true_iff in Hc as [H%N.ltb_lt|[H1%N.leb_le H2%N.leb_le]%andb_true_iff]; lia. }
  clear Hc. unfold char_bytes.
  replace (c / 4096)%N with (c / 64 / 64)%N by (rewrite N.Div0.div_div; done).
  replace (c / 262144)%N with (c / 64 / 64 / 64)%N by (rewrite !N.Div0.div_div; done).
  pose proof (N.div_mod c 64 ltac:(lia)). pose proof (N.mod_lt c 64 ltac:(lia)).
  set (r0 := (c mod 64)%N) in *. set (q1 := (c / 64)%N) in *.
  pose proof (N.div_mod q1 64 ltac:(lia)). pose proof (N.mod_lt q1 64 ltac:(lia)).
  set (r1 := (q1 mod 64)%N) in *. set (q2 := (q1 / 64)%N) in *.
  pose proof (N.div_mod q2 64 ltac:(lia)). pose proof (N.mod_lt q2 64 ltac:(lia)).
  set (r2 := (q2 mod 64)%N) in *. set (q3 := (q2 / 64)%N) in *.
  clearbody r0 q1 r1 q2 r2 q3.
  destruct (N.ltb_spec c 0x80).
  { eexists _, _. split; [done|]. intros more. unfold utf8_step. by decide_tests. }
  destruct (N.ltb_spec c 0x800).
  { eexists _, _. split; [done|]. intros more. unfold utf8_step, within, continuation. cbn [app].
    unfold within. decide_tests. f_equal. lia. }
  destruct (N.ltb_spec c 0x10000); (eexists _, _; split; [done|]; intros more);
    unfold utf8_step, second_ok, continuation, within; cbn [app]; decide_tests; f_equal; lia.
Qed.

(** Encoded text decodes to itself, and what follows it decodes separately. *)
Lemma from_utf8_lossy_str s more :
  Forall (λ c, is_scalar c = true) s →
  from_utf8_lossy (str_bytes s ++ more) = s ++ from_utf8_lossy more.
Proof.
  induction 1 as [|c s Hc Hs IH]; [done|].
  change (str_bytes (c :: s)) with (char_bytes c ++ str_bytes s). rewrite <- app_assoc.
  destruct (utf8_step_char c Hc) as (b0 & rest & -> & Hstep).
  rewrite <- app_comm_cons, from_utf8_lossy_cons, Hstep. simpl. by rewrite IH.
Qed.

(** ** Well-formed bytes *)

Definition is_utf8 (bytes : list N) : bool :=
  match from_utf8 bytes with Valid _ => true | Invalid _ _ _ => false end.

Inductive WellFormed : list N → Prop :=
| WF_nil : WellFormed []
| WF_step b0 rest c r : utf8_step b0 rest = Scalar c r → WellFormed r → WellFormed (b0 :: rest).

Lemma is_utf8_wf bytes : is_utf8 bytes = true ↔ WellFormed bytes.
Proof.
  unfold is_utf8, from_utf8. generalize (length bytes) at 2 as total.
  generalize (@nil N) as valid.
  assert (length bytes ≤ length bytes) as Hle by done. revert Hle.
  generalize (length bytes) at 2 3 as fuel. intros fuel. revert bytes.
  induction fuel as [|fuel IH]; intros bytes Hle valid total.
  { destruct bytes; [|simpl in Hle; lia]. simpl. split; [constructor|done]. }
  destruct bytes as [|b0 rest]; [split; [constructor|done]|]. cbn [from_utf8_go].
  simpl in Hle. pose proof (utf8_step_rest b0 rest) as Hu.
  destruct (utf8_step b0 rest) as [c r|n r|] eqn:E.
  - destruct Hu as (used & Hu & Hne). rewrite IH.
    + split; [by econstructor|]. inversion 1; congruence.
    + apply (f_equal length) in Hu. rewrite length_app in Hu. destruct used; [done|].
      simpl in Hu. lia.
  - split; [done|]. inversion 1; congruence.
  - split; [done|]. inversion 1; congruence.
Qed.

(** An ASCII byte continues no sequence. *)
Lemma utf8_step_ascii b0 rest b more :
  (b < 0x80)%N → utf8_step b0 rest = Truncated → ∃ n r, utf8_step b0 (rest ++ b :: more) = Bad n r.
Proof.
  intros Hb. assert (continuation b = false) as Hc.
  { unfold continuation, within. apply andb_false_iff. left. apply N.leb_gt. lia. }
  assert (second_ok b0 b = false) as Hs.
  { unfold second_ok, within. repeat case_match; try done; apply andb_false_iff; left;
      apply N.leb_gt; lia. }
  unfold utf8_step. destruct rest as [|b1 [|b2 [|b3 rest]]]; cbn [app];
    repeat case_match; try done; intros _; try (by eexists _, _);
    repeat match goal with H : ?x = _ |- context [?x] => rewrite H end; by eexists _, _.
Qed.

(** What precedes an ASCII byte is well-formed by itself, and so is what follows it. *)
Lemma wf_ascii_split a b c :
  (b < 0x80)%N → WellFormed (a ++ b :: c) → WellFormed a ∧ WellFormed c.
Proof.
  intros Hb. remember (a ++ b :: c) as s eqn:Es. intros Hwf. revert a Es.
  induction Hwf as [|b0 rest ch r E Hr IH]; intros [|x a] Es; simplify_eq/=.
  - split; [constructor|]. unfold utf8_step in E.
    rewrite (proj2 (N.ltb_lt _ _)) in E by done. by simplify_eq.
  - pose proof (utf8_step_app x a (b :: c)) as Ha. destruct (utf8_step x a) as [c0 r0|n r0|] eqn:E0.
    + rewrite Ha in E. simplify_eq. destruct (IH _ eq_refl) as [H1 H2].
      split; [by econstructor|done].
    + congruence.
    + destruct (utf8_step_ascii x a b c Hb E0) as (n & r' & E'). congruence.
Qed.
