(* ===== verification/Effects.v ===== *)
(** * Effectful operations: errors, an environment, and a log

    The components that call the outside world share this monad: an operation runs in a
    state that holds the environment and the log of what was asked of it, and ends in a
    value or an error.  [emits] is the logic of logs their safety theorems use. *)

From S2P Require Import Prelude.

Section effects.
Context {World Event Error : Type}.

Record State := { world : World; log : list Event }.

(** Errors end an operation; the state survives them. *)
Definition Eff (A : Type) : Type := State → Result A Error * State.

Definition ret {A} (a : A) : Eff A := fun s => (Ok a, s).
Definition throw {A} (e : Error) : Eff A := fun s => (Err e, s).
Definition lift {A} (r : Result A Error) : Eff A := fun s => (r, s).
Definition and_then {A B} (m : Eff A) (f : A → Eff B) : Eff B :=
  fun s => match m s with (Ok a, s') => f a s' | (Err e, s') => (Err e, s') end.
(** The result of an operation as a value, for [match result]. *)
Definition attempt {A} (m : Eff A) : Eff (Result A Error) :=
  fun s => let '(r, s') := m s in (Ok r, s').
(** One call of the environment; [event] is what it logs. *)
Definition ask {A} (event : option Event) (f : World → A * World) : Eff A :=
  fun s => let '(a, w) := f (world s) in
           (Ok a, {| world := w; log := log s ++ match event with Some e => [e] | None => [] end |}).

(** The state in which an operation starts. *)
Definition start (w : World) : State := {| world := w; log := [] |}.

(** [emits P m Q]: whatever the environment does, [m] appends to the log only events
    that satisfy [P], and a value it returns satisfies [Q]. *)
Definition emits {A} (P : Event → Prop) (m : Eff A) (Q : A → Prop) : Prop :=
  ∀ s, ∃ new, log (m s).2 = log s ++ new ∧ Forall P new ∧
    ∀ a, (m s).1 = Ok a → Q a.

Lemma emits_ret {A} P (a : A) (Q : A → Prop) : Q a → emits P (ret a) Q.
Proof. intros H s. exists []. rewrite app_nil_r. split_and!; [done..|]. by intros ? [= <-]. Qed.

Lemma emits_throw {A} P e (Q : A → Prop) : emits P (throw e) Q.
Proof. intros s. exists []. by rewrite app_nil_r. Qed.

Lemma emits_lift {A} P (r : Result A Error) (Q : A → Prop) :
  (∀ a, r = Ok a → Q a) → emits P (lift r) Q.
Proof. intros H s. exists []. by rewrite app_nil_r. Qed.

Lemma emits_bind {A B} P (m : Eff A) (f : A → Eff B) R Q :
  emits P m R → (∀ a, R a → emits P (f a) Q) → emits P (and_then m f) Q.
Proof.
  intros Hm Hf s. unfold and_then. destruct (Hm s) as (n1 & E1 & H1 & R1).
  destruct (m s) as [[a|e] s1]; simpl in *; [|by exists n1].
  destruct (Hf a (R1 a eq_refl) s1) as (n2 & E2 & H2 & Q2).
  exists (n1 ++ n2). rewrite E2, E1, app_assoc. split_and!; [done| |done].
  by apply Forall_app.
Qed.

Lemma emits_ask {A} P ev (f : World → A * World) :
  from_option P True ev → emits P (ask ev f) (λ _, True).
Proof.
  intros H s. unfold ask. destruct (f (world s)). simpl.
  eexists. split; [done|]. split; [|done]. destruct ev; [by repeat constructor|constructor].
Qed.

Lemma emits_attempt {A} P (m : Eff A) Q :
  emits P m Q → emits P (attempt m) (λ r, ∀ a, r = Ok a → Q a).
Proof.
  intros Hm s. destruct (Hm s) as (n & E & H & HQ). unfold attempt.
  destruct (m s) as [r s']. exists n. split_and!; [done..|]. by intros ? [= <-].
Qed.

Lemma emits_weaken {A} P P' (m : Eff A) (Q Q' : A → Prop) :
  emits P m Q → (∀ e, P e → P' e) → (∀ a, Q a → Q' a) → emits P' m Q'.
Proof.
  intros Hm HP HQ s. destruct (Hm s) as (n & E & H & HQ'). exists n.
  split_and!; [done| |naive_solver]. by eapply Forall_impl.
Qed.

Lemma emits_ask_result {A} P (f : World → A * World) :
  emits P (ask None f) (λ a, ∃ w w', f w = (a, w')).
Proof.
  intros s. unfold ask. destruct (f (world s)) as [a w] eqn:E. simpl. exists []. rewrite app_nil_r.
  split_and!; [done..|]. intros ? [= <-]. by exists (world s), w.
Qed.

(** [runs m Post]: [m] appends to the log some events that [Post] relates to its result. *)
Definition runs {A} (m : Eff A) (Post : Result A Error → list Event → Prop) : Prop :=
  ∀ s, ∃ new, log (m s).2 = log s ++ new ∧ Post (m s).1 new.

Lemma runs_ret {A} (a : A) (Post : _ → _ → Prop) : Post (Ok a) [] → runs (ret a) Post.
Proof. intros H s. exists []. by rewrite app_nil_r. Qed.

Lemma runs_throw {A} e (Post : Result A Error → _ → Prop) : Post (Err e) [] → runs (throw e) Post.
Proof. intros H s. exists []. by rewrite app_nil_r. Qed.

Lemma runs_lift {A} r (Post : Result A Error → _ → Prop) : Post r [] → runs (lift r) Post.
Proof. intros H s. exists []. by rewrite app_nil_r. Qed.

Lemma runs_ask {A} (ev : option Event) (f : World → A * World) (Post : _ → _ → Prop) :
  (∀ a, Post (Ok a) match ev with Some e => [e] | None => [] end) → runs (ask ev f) Post.
Proof. intros H s. unfold ask. destruct (f (world s)). simpl. by eexists. Qed.

Lemma runs_bind {A B} (m : Eff A) (f : A → Eff B) R (Post : _ → _ → Prop) :
  runs m R →
  (∀ a n1, R (Ok a) n1 → runs (f a) (λ r n2, Post r (n1 ++ n2))) →
  (∀ e n1, R (Err e) n1 → Post (Err e) n1) → runs (and_then m f) Post.
Proof.
  intros Hm Hf He s. unfold and_then. destruct (Hm s) as (n1 & E1 & H1).
  destruct (m s) as [[a|e] s1]; simpl in *; [|exists n1; auto].
  destruct (Hf a n1 H1 s1) as (n2 & E2 & H2). exists (n1 ++ n2).
  by rewrite E2, E1, app_assoc.
Qed.

Lemma runs_attempt {A} (m : Eff A) (Post : _ → _ → Prop) :
  runs m (λ r new, Post (Ok r) new) → runs (attempt m) Post.
Proof.
  intros Hm s. destruct (Hm s) as (n & E & H). unfold attempt.
  destruct (m s) as [r s']. by exists n.
Qed.

Lemma runs_weaken {A} (m : Eff A) (R Post : _ → _ → Prop) :
  runs m R → (∀ r n, R r n → Post r n) → runs m Post.
Proof. intros Hm H s. destruct (Hm s) as (n & E & HR). exists n. auto. Qed.

(** An operation whose events all satisfy [False] leaves the log alone. *)
Lemma runs_silent {A} (m : Eff A) (Q : A → Prop) (Post : _ → _ → Prop) :
  emits (λ _, False) m Q → (∀ a, Q a → Post (Ok a) []) → (∀ e, Post (Err e) []) →
  runs m Post.
Proof.
  intros Hm Hok Herr s. destruct (Hm s) as (n & E & Hn & HQ). exists [].
  destruct n as [|ev n]; [|by inversion Hn]. split; [done|].
  destruct (m s) as [[a|e] s'] eqn:Em; simpl in *; [|done]. by apply Hok, HQ.
Qed.

(** [wp P m w Q]: from the world [w], [m] ends in a result and a world that [Q] relates,
    and logs only events that satisfy [P]. *)
Definition wp {A} (P : Event → Prop) (m : Eff A) (w : World)
    (Q : Result A Error → World → Prop) : Prop :=
  ∀ s, world s = w → Q (m s).1 (world (m s).2) ∧
    ∃ new, log (m s).2 = log s ++ new ∧ Forall P new.

Lemma wp_ret {A} P (a : A) w (Q : _ → _ → Prop) : Q (Ok a) w → wp P (ret a) w Q.
Proof. intros H s <-. split; [done|]. exists []. by rewrite app_nil_r. Qed.

Lemma wp_throw {A} P e w (Q : Result A Error → _ → Prop) : Q (Err e) w → wp P (throw e) w Q.
Proof. intros H s <-. split; [done|]. exists []. by rewrite app_nil_r. Qed.

Lemma wp_lift {A} P (r : Result A Error) w (Q : _ → _ → Prop) : Q r w → wp P (lift r) w Q.
Proof. intros H s <-. split; [done|]. exists []. by rewrite app_nil_r. Qed.

Lemma wp_ask {A} P (ev : option Event) (f : World → A * World) w (Q : _ → _ → Prop) :
  from_option P True ev → Q (Ok (f w).1) (f w).2 → wp P (ask ev f) w Q.
Proof.
  intros HP H s <-. unfold ask. destruct (f (world s)) as [a w']. simpl in *. split; [done|].
  eexists. split; [done|]. destruct ev; repeat constructor; done.
Qed.

Lemma wp_bind {A B} P (m : Eff A) (f : A → Eff B) w (Q : _ → _ → Prop) :
  wp P m w (λ r w', match r with Ok a => wp P (f a) w' Q | Err e => Q (Err e) w' end) →
  wp P (and_then m f) w Q.
Proof.
  intros Hm s E. destruct (Hm s E) as (H & n1 & E1 & H1). unfold and_then.
  destruct (m s) as [[a|e] s1]; simpl in *; [|by eauto].
  destruct (H s1 eq_refl) as (H2 & n2 & E2 & F2). split; [done|]. exists (n1 ++ n2).
  rewrite E2, E1, app_assoc. split; [done|]. by apply Forall_app.
Qed.

Lemma wp_attempt {A} P (m : Eff A) w (Q : Result (Result A Error) Error → World → Prop) :
  wp P m w (λ r w', Q (Ok r) w') → wp P (attempt m) w Q.
Proof.
  intros Hm s E. destruct (Hm s E) as (H & n & E1 & H1). unfold attempt.
  destruct (m s) as [r s']. by eauto.
Qed.

Lemma wp_mono {A} P (P' : Event → Prop) (m : Eff A) w (Q Q' : _ → _ → Prop) :
  wp P m w Q → (∀ e, P e → P' e) → (∀ r w', Q r w' → Q' r w') → wp P' m w Q'.
Proof.
  intros Hm HP HQ s E. destruct (Hm s E) as (H & n & E1 & H1). split; [auto|].
  exists n. split; [done|]. by eapply Forall_impl.
Qed.

(** What a run that ends in a value went through. *)
Lemma ret_ok {A} (a a' : A) s s' : ret a s = (Ok a', s') ↔ a' = a ∧ s' = s.
Proof. unfold ret. naive_solver. Qed.
Lemma throw_ok {A} e (a : A) s s' : throw e s = (Ok a, s') ↔ False.
Proof. unfold throw. naive_solver. Qed.
Lemma lift_ok {A} (r : Result A Error) a s s' : lift r s = (Ok a, s') ↔ r = Ok a ∧ s' = s.
Proof. unfold lift. naive_solver. Qed.
Lemma and_then_ok {A B} (m : Eff A) (f : A → Eff B) b s s' :
  and_then m f s = (Ok b, s') ↔ ∃ a s1, m s = (Ok a, s1) ∧ f a s1 = (Ok b, s').
Proof. unfold and_then. destruct (m s) as [[a|e] s1]; naive_solver. Qed.
Lemma ask_ok {A} (f : World → A * World) a s s' :
  ask None f s = (Ok a, s') ↔ f (world s) = (a, world s') ∧ log s' = log s.
Proof.
  unfold ask. destruct (f (world s)) as [a' w], s' as [w' l']. simpl. rewrite app_nil_r. split.
  - by intros [= <- <- <-].
  - by intros [[= -> ->] ->].
Qed.

End effects.
Arguments State : clear implicits.
Arguments Eff : clear implicits.

Notation "'do?' x := e 'in' k" := (and_then e (fun x => k))
  (at level 10, x pattern, e at level 100, k at level 200, only parsing) : workcell_scope.

Create HintDb effects.
#[export] Hint Resolve emits_throw : effects.

(** One [and_then] of a computation, with what its result satisfies. *)
Ltac step R := eapply (emits_bind _ _ _ R); [|intros].

(** An operation without events of its own, of which only this much is needed. *)
Ltac quiet :=
  repeat first
    [ apply emits_throw
    | apply emits_ret; exact I
    | apply emits_lift; intros; exact I
    | apply emits_ask; exact I
    | eapply emits_weaken; [apply emits_attempt; solve [quiet]|intros ? Hq; exact Hq|
        intros; exact I]
    | match goal with
      | |- emits _ (match ?x with _ => _ end) _ => destruct x
      | |- emits _ (if ?x then _ else _) _ => destruct x
      | |- emits _ (let '_ := ?x in _) _ => destruct x
      end
    | eapply (emits_bind _ _ _ (λ _, True)); [|intros] ].
