(* ===== verification/Escape.v ===== *)
(** * Escape sequences: [crates/output-filter/src/escape.rs]

    The scanner that decides where a terminal escape sequence ends, shared by
    the row renderer (file [Terminal]) and by [strip_escape_sequences], and the
    strip itself.  A [&[char]] is a list of scalars; an index is a [nat]. *)

From S2P Require Import Prelude.
Local Open Scope nat_scope.

Definition MAX_ESCAPE_CHARS : nat := 64.
Definition MAX_OSC_CHARS : nat := 512.
Definition SCAN_WINDOW_CHARS : nat := MAX_OSC_CHARS + 2.

Inductive Scan : Type :=
| Found (end_ : nat)
| Incomplete.

#[export] Instance Scan_eq_dec : EqDecision Scan.
Proof. solve_decision. Defined.

Definition is_final_byte (c : char) : bool := ((0x40 <=? c) && (c <=? 0x7E))%N.
Definition is_intermediate_byte (c : char) : bool := ((0x20 <=? c) && (c <=? 0x2F))%N.
Definition is_printable (c : char) : bool := ((0x20 <=? c) && (c <=? 0x7E))%N.

Definition LBRACKET : char := 91%N.
Definition RBRACKET : char := 93%N.
Definition BACKSLASH : char := 92%N.
Definition BEL : char := 7%N.

(** The three [while let Some(character) = source.get(index)] loops share one
    shape and differ in what ends a sequence: [stop character rest] is the number
    of characters consumed when [character], followed by [rest], ends it. *)
Fixpoint scan_loop (stop : char → str → option nat) (bound start index : nat)
    (rest : str) : Scan :=
  match rest with
  | [] => Incomplete
  | c :: rest' =>
      match stop c rest' with
      | Some width => Found (index + width)
      | None =>
          if bound <? (index + 1) - start then Found (start + 1)
          else scan_loop stop bound start (index + 1) rest'
      end
  end.

Definition stop_csi (c : char) (_ : str) : option nat :=
  if is_final_byte c then Some 1 else None.

Definition stop_osc (c : char) (rest : str) : option nat :=
  if (c =? BEL)%N then Some 1
  else if (c =? ESC)%N && bool_decide (head rest = Some BACKSLASH) then Some 2
  else None.

Definition stop_nf (c : char) (_ : str) : option nat :=
  if negb (is_intermediate_byte c) then Some 1 else None.

Definition scan_escape (source : str) (start : nat) : Scan :=
  match source !! (start + 1) with
  | None => Incomplete
  | Some introducer =>
      if (introducer =? LBRACKET)%N
      then scan_loop stop_csi MAX_ESCAPE_CHARS start (start + 2) (drop (start + 2) source)
      else if (introducer =? RBRACKET)%N
      then scan_loop stop_osc MAX_OSC_CHARS start (start + 2) (drop (start + 2) source)
      else scan_loop stop_nf MAX_ESCAPE_CHARS start (start + 1) (drop (start + 1) source)
  end.

(** Byte length of the removable sequence at the front of [window]. *)
Definition sequence_bytes (window : str) : option nat :=
  match scan_escape window 0 with
  | Incomplete => None
  | Found end_ =>
      if end_ <=? 1 then None
      else match window !! 1 with
           | None => None
           | Some second =>
               if negb (is_printable second) then None
               else Some (str_len (take end_ window))
           end
  end.

(** The loop of [strip_escape_sequences]; [None] is a slicing panic or no fuel. *)
Fixpoint strip_loop (fuel : nat) (rest out : str) (removed : N) : option (str * N) :=
  match fuel with
  | 0 => None
  | S fuel' =>
      let window := take SCAN_WINDOW_CHARS rest in
      let next_state :=
        match sequence_bytes window with
        | Some bytes => rest' ← str_from bytes rest; Some (rest', out, u64_sat_add removed 1)
        | None => rest' ← str_from 1 rest; Some (rest', out ++ [ESC], removed)
        end in
      '(rest', out', removed') ← next_state;
      match find_char ESC rest' with
      | Some next => strip_loop fuel' (drop next rest') (out' ++ take next rest') removed'
      | None => Some (out' ++ rest', removed')
      end
  end.

Definition strip_escape_sequences (text : str) : option (str * N) :=
  match find_char ESC text with
  | None => Some (text, 0%N)
  | Some first => strip_loop (S (length text)) (drop first text) (take first text) 0
  end.

(** ** Reference semantics of the strip

    [strips text out n]: [out] is [text] with [n] sequences deleted.  A sequence
    is judged on the whole remaining text, not on a window of it. *)
Definition removable (s : str) (e : nat) : Prop :=
  scan_escape s 0 = Found e ∧ 1 < e ∧ ∃ c, s !! 1 = Some c ∧ is_printable c = true.

Inductive strips : str → str → N → Prop :=
| strips_nil : strips [] [] 0
| strips_char c s o n : c ≠ ESC → strips s o n → strips (c :: s) (c :: o) n
| strips_keep s o n :
    (∀ e, ¬ removable (ESC :: s) e) → strips s o n → strips (ESC :: s) (ESC :: o) n
| strips_drop s e o n :
    removable (ESC :: s) e → strips (drop e (ESC :: s)) o n → strips (ESC :: s) o (n + 1).

(** ** The scanner *)

(** What the loops need of [stop]: it consumes one or two characters that are
    there, and only an escape character looks at its successor. *)
Class StopLaws (stop : char → str → option nat) : Prop := {
  stop_width c r w : stop c r = Some w → 1 ≤ w ≤ 1 + length r;
  stop_lookahead c r r' : head r = head r' → stop c r = stop c r';
  stop_esc c r r' : c ≠ ESC → stop c r = stop c r';
}.

#[export] Instance stop_csi_laws : StopLaws stop_csi.
Proof.
  split; unfold stop_csi; intros; try done. case_match; simplify_eq; lia.
Qed.

#[export] Instance stop_nf_laws : StopLaws stop_nf.
Proof.
  split; unfold stop_nf; intros; try done. case_match; simplify_eq; lia.
Qed.

#[export] Instance stop_osc_laws : StopLaws stop_osc.
Proof.
  split; unfold stop_osc.
  - intros c r w. repeat case_if; [intros [= <-]; lia| |done]. bool_prop.
    intros [= <-]. destruct r; simpl in *; [done|lia].
  - by intros c r r' ->.
  - intros c r r' Hc. apply N.eqb_neq in Hc. by rewrite Hc.
Qed.

Section loop.
Context (stop : char → str → option nat) `{!StopLaws stop} (bound start : nat).

Lemma scan_loop_bounds index rest e :
  start < index → scan_loop stop bound start index rest = Found e →
  start < e ∧ e ≤ Nat.max (start + 1) (index + length rest).
Proof using Type*.
  revert index. induction rest as [|c rest IH]; intros index Hi; simpl; [done|].
  destruct (stop c rest) as [w|] eqn:Ew.
  - apply stop_width in Ew. intros [= <-]. lia.
  - case_if; [intros [= <-]; lia|]. intros (?&?)%IH; lia.
Qed.

Lemma scan_loop_resolves index rest :
  index ≤ start + bound → start + bound < index + length rest →
  scan_loop stop bound start index rest ≠ Incomplete.
Proof using Type*.
  revert index. induction rest as [|c rest IH]; intros index Hi Hl; simpl in *; [lia|].
  destruct (stop c rest); [done|]. case_if; [done|]. bool_prop. apply IH; lia.
Qed.

Lemma scan_loop_window k index rest :
  index ≤ start + bound → start + bound + 2 ≤ index + k →
  scan_loop stop bound start index (take k rest) = scan_loop stop bound start index rest.
Proof using Type*.
  revert k index. induction rest as [|c rest IH]; intros k index Hi Hk; [by rewrite take_nil|].
  destruct k as [|k]; [lia|]. rewrite firstn_cons. cbn [scan_loop].
  rewrite (stop_lookahead c (take k rest) rest).
  2: { destruct k; [lia|]. by destruct rest. }
  destruct (stop c rest); [done|]. case_if; [done|]. bool_prop. apply IH; lia.
Qed.

Lemma scan_loop_extend index rest more e :
  last rest ≠ Some ESC → scan_loop stop bound start index rest = Found e →
  scan_loop stop bound start index (rest ++ more) = Found e.
Proof using Type*.
  revert index. induction rest as [|c rest IH]; intros index Hl; simpl; [done|].
  destruct rest as [|d rest].
  - rewrite (stop_esc c ([] ++ more) []) by (simpl in Hl; congruence).
    destruct (stop c []); [done|]. by case_if.
  - rewrite (stop_lookahead c ((d :: rest) ++ more) (d :: rest)) by done.
    destruct (stop c (d :: rest)); [done|]. case_if; [done|]. by apply IH.
Qed.
End loop.

(** Case analysis on the introducer, one goal per loop. *)
Ltac scan_cases :=
  unfold scan_escape in *;
  match goal with
  | |- context [match ?s !! (?i + 1) with _ => _ end] => destruct (s !! (i + 1)) as [?c|] eqn:?
  | H : context [match ?s !! (?i + 1) with _ => _ end] |- _ => destruct (s !! (i + 1)) as [?c|] eqn:?
  end; [repeat case_match|try done].

Lemma scan_escape_bounds source start e :
  scan_escape source start = Found e → start < e ≤ length source.
Proof.
  intros H. scan_cases; apply scan_loop_bounds in H; try apply _; try lia;
  rewrite length_drop in H;
  match goal with E : source !! _ = Some _ |- _ => apply lookup_lt_Some in E end; lia.
Qed.

(** A sequence of length at most two past the widest bound always resolves. *)
Lemma scan_escape_resolves source start :
  start + SCAN_WINDOW_CHARS ≤ length source → scan_escape source start ≠ Incomplete.
Proof.
  unfold SCAN_WINDOW_CHARS, MAX_OSC_CHARS. intros Hl. unfold scan_escape.
  destruct (source !! (start + 1)) eqn:E; [|apply lookup_ge_None in E; lia].
  repeat case_if; (apply scan_loop_resolves; [apply _|..];
    rewrite ?length_drop; unfold MAX_ESCAPE_CHARS, MAX_OSC_CHARS; lia).
Qed.

Lemma scan_escape_window source k :
  SCAN_WINDOW_CHARS ≤ k → scan_escape (take k source) 0 = scan_escape source 0.
Proof.
  unfold SCAN_WINDOW_CHARS, MAX_OSC_CHARS. intros Hk. unfold scan_escape.
  rewrite lookup_take_lt by lia.
  destruct (source !! (0 + 1)); [|done].
  rewrite !skipn_firstn_comm.
  repeat case_if; apply scan_loop_window;
    first [apply _|unfold MAX_ESCAPE_CHARS, MAX_OSC_CHARS; lia].
Qed.

(** Reading more input does not change a sequence already found, as long as the
    shorter input does not stop at an escape character. *)
Lemma scan_escape_extend source more start e :
  last source ≠ Some ESC → scan_escape source start = Found e →
  scan_escape (source ++ more) start = Found e.
Proof.
  intros Hl H. unfold scan_escape in *.
  destruct (source !! (start + 1)) as [c|] eqn:E; [|done].
  pose proof (lookup_lt_Some _ _ _ E). rewrite (lookup_app_l_Some _ _ _ _ E).
  repeat case_if; rewrite drop_app_le by lia;
    apply scan_loop_extend; try apply _; try done; intros HE; apply last_drop_Some in HE; by apply Hl.
Qed.

(** ** The strip *)

Lemma sequence_bytes_Some s bytes :
  sequence_bytes (take SCAN_WINDOW_CHARS s) = Some bytes →
  ∃ e, removable s e ∧ bytes = str_len (take e s).
Proof.
  unfold sequence_bytes, removable. rewrite scan_escape_window by lia.
  destruct (scan_escape s 0) as [e|] eqn:E; [|done].
  case_if; [done|]. bool_prop. rewrite lookup_take_lt by (unfold SCAN_WINDOW_CHARS; lia).
  destruct (s !! 1) as [c|] eqn:Ec; [|done]. case_if; [done|]. bool_prop.
  rewrite <- (scan_escape_window s SCAN_WINDOW_CHARS) in E by lia.
  apply scan_escape_bounds in E as [_ E]. rewrite length_take in E. intros [= <-].
  exists e. split; [eauto|]. rewrite take_take. do 2 f_equal. lia.
Qed.

Lemma sequence_bytes_None s :
  sequence_bytes (take SCAN_WINDOW_CHARS s) = None → ∀ e, ¬ removable s e.
Proof.
  unfold sequence_bytes. rewrite scan_escape_window by lia.
  intros H e (He & Hlt & c & Hc & Hp). rewrite He in H.
  rewrite (proj2 (Nat.leb_gt e 1)) in H by lia.
  rewrite lookup_take_lt in H by (unfold SCAN_WINDOW_CHARS; lia).
  by rewrite Hc, Hp in H.
Qed.

Lemma strips_clean pre s o n : ESC ∉ pre → strips s o n → strips (pre ++ s) (pre ++ o) n.
Proof.
  induction pre as [|c pre IH]; [done|]. intros [Hc Hp]%not_elem_of_cons Hs.
  simpl. constructor; [congruence|by apply IH].
Qed.

Lemma strips_no_esc s : ESC ∉ s → strips s s 0.
Proof.
  intros H. rewrite <- (app_nil_r s). apply strips_clean; [done|constructor].
Qed.

Lemma removable_length s e : removable s e → 1 < e ≤ length s.
Proof. intros (H & He & _). apply scan_escape_bounds in H. lia. Qed.

(** The tail of the loop body: copy up to the next escape and go round again. *)
Lemma strip_loop_tail fuel r :
  (∀ s next, drop next r = ESC :: s →
     ∃ o n, strips (drop next r) o n ∧ ∀ out removed, (removed <= U64_MAX)%N →
       strip_loop fuel (drop next r) out removed = Some (out ++ o, u64_sat_add removed n)) →
  ∃ o n, strips r o n ∧ ∀ out removed, (removed <= U64_MAX)%N →
    match find_char ESC r with
    | Some next => strip_loop fuel (drop next r) (out ++ take next r) removed
    | None => Some (out ++ r, removed)
    end = Some (out ++ o, u64_sat_add removed n).
Proof.
  intros IH. destruct (find_char ESC r) as [next|] eqn:Ef.
  - apply find_char_Some in Ef as (_ & Hclean & s & Hd).
    destruct (IH s next Hd) as (o & n & Hs & Hl).
    exists (take next r ++ o), n. split.
    + rewrite <- (take_drop next r) at 1. by apply strips_clean.
    + intros out removed Hr. by rewrite Hl, (assoc_L (++)).
  - apply find_char_None in Ef. exists r, 0%N. split; [by apply strips_no_esc|].
    intros out removed Hr. by rewrite u64_sat_add_0.
Qed.

Lemma strip_loop_strips fuel rest s :
  rest = ESC :: s → length rest < fuel →
  ∃ o n, strips rest o n ∧ ∀ out removed, (removed <= U64_MAX)%N →
    strip_loop fuel rest out removed = Some (out ++ o, u64_sat_add removed n).
Proof.
  revert rest s. induction fuel as [|fuel IH]; intros rest s Hr Hf; [lia|].
  assert (Hnext : ∀ k, 1 ≤ k → ∀ s next, drop next (drop k rest) = ESC :: s →
     ∃ o n, strips (drop next (drop k rest)) o n ∧ ∀ out removed, (removed <= U64_MAX)%N →
       strip_loop fuel (drop next (drop k rest)) out removed = Some (out ++ o, u64_sat_add removed n)).
  { intros k Hk s' next Hd. apply (IH _ s'); [done|].
    apply (f_equal length) in Hd as Hd'. rewrite !length_drop in *. simpl in Hd'. lia. }
  cbn [strip_loop].
  destruct (sequence_bytes (take SCAN_WINDOW_CHARS rest)) as [bytes|] eqn:Eb.
  - apply sequence_bytes_Some in Eb as (e & He & ->).
    pose proof (removable_length _ _ He).
    destruct (strip_loop_tail fuel (drop e rest)) as (o & n & Hs & Hl).
    { apply (Hnext e). lia. }
    exists o, (n + 1)%N. split; [subst rest; by eapply strips_drop|].
    intros out removed Hm. rewrite str_from_take by lia. cbn.
    rewrite Hl by apply u64_sat_add_le. do 2 f_equal. unfold u64_sat_add. lia.
  - pose proof (sequence_bytes_None _ Eb) as He.
    destruct (strip_loop_tail fuel s) as (o & n & Hs & Hl).
    { specialize (Hnext 1 (le_n _)). by rewrite Hr in Hnext. }
    exists (ESC :: o), n. split; [rewrite Hr in *; by constructor|].
    intros out removed Hm. rewrite Hr.
    assert (str_from 1 (ESC :: s) = Some s) as -> by (by destruct s).
    cbn [mbind option_bind]. rewrite Hl by done. by rewrite <- (assoc_L (++)).
Qed.

Lemma strips_sublist s o n : strips s o n → sublist o s.
Proof.
  induction 1; [constructor|by constructor..|].
  etrans; [done|]. apply sublist_drop.
Qed.

(** ** Properties *)

(** C39: [strip_escape_sequences] terminates without a slicing panic on every text
    and implements the reference semantics [strips], in which each sequence is
    recognised on the whole remaining text: the bounded scan window loses
    nothing, and the reported count is the number of deletions, saturating. *)
Theorem strip_refines_reference text :
  ∃ out n, strips text out n ∧ strip_escape_sequences text = Some (out, N.min n U64_MAX).
Proof.
  unfold strip_escape_sequences. destruct (find_char ESC text) as [first|] eqn:Ef.
  - apply find_char_Some in Ef as (Hf & Hclean & s & Hd).
    destruct (strip_loop_strips (S (length text)) (drop first text) s Hd) as (o & n & Hs & Hl).
    { rewrite length_drop. lia. }
    exists (take first text ++ o), n. split.
    + rewrite <- (take_drop first text) at 1. by apply strips_clean.
    + rewrite Hl by (unfold U64_MAX; lia). by unfold u64_sat_add, U64_MAX.
  - exists text, 0%N. split; [by apply strips_no_esc, find_char_None|done].
Qed.

(** without an escape character nothing is removed or counted. *)
Theorem strip_without_escape text :
  ESC ∉ text → strip_escape_sequences text = Some (text, 0%N).
Proof.
  intros H. unfold strip_escape_sequences. destruct (find_char ESC text) as [i|] eqn:E; [|done].
  apply find_char_Some in E as (_ & _ & r & Hd). destruct H.
  rewrite <- (take_drop i text), Hd. set_solver.
Qed.

(** The claim of the documentation, that no line is dropped or joined, fails for
    a newline inside a sequence: a control sequence whose parameters hold a
    newline is removed with the newline in it. *)
Theorem strip_joins_lines :
  strip_escape_sequences (lit "first" ++ [ESC; LBRACKET; NL] ++ lit "msecond") =
    Some (lit "firstsecond", 1%N).
Proof. vm_compute. reflexivity. Qed.
