(* ===== verification/Terminal.v ===== *)
(** * Row renderer: [crates/output-filter/src/terminal.rs]

    [RowRenderer] turns a control stream into the rows a terminal would show.
    A chunk is processed by [push]: [rest] is [source[index..]], the loop body is
    [push_step].  Rendered text is threaded as the [out] string the code appends
    to. *)

From stdpp Require Import sorting.
From S2P Require Import Prelude Escape.
Local Open Scope nat_scope.

Definition ROW_CANVAS_CHARS : nat := N.to_nat 16384.
Definition ROW_MARK_BYTES : nat := N.to_nat 4096.
Definition BS : char := 8%N.

Record RowRenderer := mkRow {
  canvas : str;
  marks : list (nat * str);
  mark_bytes : nat;
  column : nat;
  row_redraws : N;
  row_dirty : bool;
  partial : str;
  redraws : N;
}.

#[export] Instance RowRenderer_eq_dec : EqDecision RowRenderer.
Proof. solve_decision. Defined.

Definition new : RowRenderer := mkRow [] [] 0 0 0 false [] 0.

Definition set_canvas c r :=
  mkRow c (marks r) (mark_bytes r) (column r) (row_redraws r) (row_dirty r) (partial r) (redraws r).
Definition set_marks m b r :=
  mkRow (canvas r) m b (column r) (row_redraws r) (row_dirty r) (partial r) (redraws r).
Definition set_column c r :=
  mkRow (canvas r) (marks r) (mark_bytes r) c (row_redraws r) (row_dirty r) (partial r) (redraws r).
Definition set_row_redraws n r :=
  mkRow (canvas r) (marks r) (mark_bytes r) (column r) n (row_dirty r) (partial r) (redraws r).
Definition set_dirty d r :=
  mkRow (canvas r) (marks r) (mark_bytes r) (column r) (row_redraws r) d (partial r) (redraws r).
Definition set_partial p r :=
  mkRow (canvas r) (marks r) (mark_bytes r) (column r) (row_redraws r) (row_dirty r) p (redraws r).
Definition set_redraws n r :=
  mkRow (canvas r) (marks r) (mark_bytes r) (column r) (row_redraws r) (row_dirty r) (partial r) n.

Definition reset_row (r : RowRenderer) : RowRenderer :=
  mkRow [] [] 0 0 0 false (partial r) (redraws r).

(** The cells are walked with the marks not yet emitted. *)
Fixpoint render_cells (col : nat) (cells : str) (ms : list (nat * str)) : str :=
  match cells with
  | [] => concat (map snd ms)
  | c :: cells' =>
      let fix go (ms : list (nat * str)) : str :=
        match ms with
        | (at_, raw) :: ms' =>
            if at_ <=? col then raw ++ go ms' else c :: render_cells (S col) cells' ms
        | [] => c :: render_cells (S col) cells' []
        end in
      go ms
  end.

Definition render_row (r : RowRenderer) : str :=
  let shown :=
    if row_dirty r then trim_end_matches (N.eqb SPACE) (canvas r) else canvas r in
  render_cells 0 shown (marks r).

Definition flush_row (r : RowRenderer) (out : str) : RowRenderer * str :=
  (set_redraws (u64_sat_add (redraws r) (row_redraws r)) r, out ++ render_row r).

Definition end_row (r : RowRenderer) (out : str) : RowRenderer * str :=
  let '(r, out) := flush_row r out in (reset_row r, out ++ [NL]).

Definition carriage_return (r : RowRenderer) : RowRenderer :=
  let r :=
    match canvas r with
    | [] => r
    | _ => set_dirty true (set_row_redraws (u64_sat_add (row_redraws r) 1) r)
    end in
  set_marks [] 0 (set_column 0 r).

Definition write (c : char) (r : RowRenderer) (out : str) : RowRenderer * str :=
  let '(r, out) :=
    if ROW_CANVAS_CHARS <=? column r
    then let '(r, out) := flush_row r out in (reset_row r, out ++ [NL])
    else (r, out) in
  let padded := canvas r ++ replicate (column r - length (canvas r)) SPACE in
  let cells :=
    if column r <? length padded then <[column r := c]> padded else padded ++ [c] in
  (set_column (column r + 1) (set_canvas cells r), out).

(** [partition_point (|(column, _)| *column <= self.column)] of a list sorted by
    column (an invariant, [wf] below). *)
Fixpoint partition_point (col : nat) (ms : list (nat * str)) : nat :=
  match ms with
  | (at_, _) :: ms' => if at_ <=? col then S (partition_point col ms') else 0
  | [] => 0
  end.

Definition push_mark (raw : str) (r : RowRenderer) : RowRenderer :=
  if ROW_MARK_BYTES <? mark_bytes r + str_len raw then r
  else
    let at_ := partition_point (column r) (marks r) in
    set_marks (take at_ (marks r) ++ (column r, raw) :: drop at_ (marks r))
      (mark_bytes r + str_len raw) r.

Definition move_to (col : nat) (r : RowRenderer) : RowRenderer :=
  let r :=
    if (col <? column r) && (col <? length (canvas r)) then set_dirty true r else r in
  set_column col r.

(** Erase in line. *)
Definition erase_line (parameters raw : str) (r : RowRenderer) : RowRenderer :=
  if bool_decide (parameters = [] ∨ parameters = lit "0") then
    if column r <? length (canvas r)
    then set_dirty true (set_canvas (take (column r) (canvas r)) r) else r
  else if bool_decide (parameters = lit "1") then
    let end_ := Nat.min (column r) (length (canvas r)) in
    if 0 <? end_
    then set_dirty true (set_canvas (replicate end_ SPACE ++ drop end_ (canvas r)) r) else r
  else if bool_decide (parameters = lit "2") then
    match canvas r with [] => r | _ => set_dirty true (set_canvas [] r) end
  else push_mark raw r.

Definition is_one_of (s : string) (c : char) : bool := contains_char c (lit s).

Definition apply_escape (raw : str) (r : RowRenderer) : RowRenderer :=
  match strip_prefix [ESC; LBRACKET] raw with
  | None => push_mark raw r
  | Some body =>
      match last body with
      | None => push_mark raw r
      | Some final_byte =>
          let parameters := take (length body - 1) body in
          if starts_with (lit "?") parameters || contains_char 58 parameters
          then push_mark raw r
          else
            let count := N.max (default 1%N (parse_unsigned USIZE_MAX parameters)) 1 in
            if is_one_of "K" final_byte then erase_line parameters raw r
            else if is_one_of "C" final_byte then
              set_column (N.to_nat (N.min (N.of_nat (column r) + count) (N.of_nat ROW_CANVAS_CHARS))) r
            else if is_one_of "D" final_byte then
              move_to (N.to_nat (N.of_nat (column r) - count)) r
            else if is_one_of "G" final_byte then
              move_to (N.to_nat (N.min (count - 1) (N.of_nat ROW_CANVAS_CHARS))) r
            else if is_one_of "ABJ" final_byte then r
            else if is_one_of "EFHf" final_byte then move_to 0 r
            else push_mark raw r
      end
  end.

(** One iteration of the loop of [push] on a non-empty [rest]: [None] ends the
    call with the input held in [partial]. *)
Definition push_step (c : char) (rest : str) (r : RowRenderer) (out : str) :
    RowRenderer * str * option str :=
  if (c =? NL)%N then (end_row r out, Some rest)
  else if (c =? CR)%N then
    match rest with
    | [] => (set_partial [CR] r, out, None)
    | next :: _ => if (next =? NL)%N then (r, out, Some rest) else (carriage_return r, out, Some rest)
    end
  else if (c =? BS)%N then
    let r := if 0 <? column r then set_dirty true (set_column (column r - 1) r) else r in
    (r, out, Some rest)
  else if (c =? ESC)%N then
    match scan_escape (c :: rest) 0 with
    | Incomplete => (set_partial (c :: rest) r, out, None)
    | Found end_ => (apply_escape (take end_ (c :: rest)) r, out, Some (drop end_ (c :: rest)))
    end
  else (write c r out, Some rest).

Fixpoint push_loop (fuel : nat) (rest : str) (r : RowRenderer) (out : str) :
    option (RowRenderer * str) :=
  match rest with
  | [] => Some (r, out)
  | c :: rest' =>
      match fuel with
      | 0 => None
      | S fuel' =>
          match push_step c rest' r out with
          | (r', out', Some rest'') => push_loop fuel' rest'' r' out'
          | (r', out', None) => Some (r', out')
          end
      end
  end.

Definition push (text : str) (r : RowRenderer) (out : str) : option (RowRenderer * str) :=
  let source := partial r ++ text in
  push_loop (length source) source (set_partial [] r) out.

(** What [finish] does with the bytes still held. *)
Definition apply_orphan (orphan : str) (r : RowRenderer) : RowRenderer :=
  if starts_with [ESC] orphan then push_mark orphan r
  else if starts_with [CR] orphan then carriage_return r
  else r.

Definition finish (r : RowRenderer) (out : str) : RowRenderer * str :=
  let r := apply_orphan (partial r) (set_partial [] r) in
  if bool_decide (canvas r = []) && negb (row_dirty r) then (r, out)
  else let '(r, out) := flush_row r out in (reset_row r, out).

Definition row (r : RowRenderer) (out : str) : str :=
  if bool_decide (canvas r = []) && negb (row_dirty r) then out else out ++ render_row r.

Definition render_terminal (text : str) : option (str * N) :=
  '(r, out) ← push text new [];
  let '(r, out) := finish r out in
  Some (out, redraws r).

(** A stream fed chunk by chunk, as [Tail::push] of the shell tool does. *)
Fixpoint feed (chunks : list str) (r : RowRenderer) (out : str) : option (RowRenderer * str) :=
  match chunks with
  | [] => Some (r, out)
  | text :: chunks' => '(r, out) ← push text r out; feed chunks' r out
  end.

(** A character that is neither a cursor control nor the start of a sequence. *)
Definition is_plain (c : char) : bool :=
  negb ((c =? NL)%N || (c =? CR)%N || (c =? BS)%N || (c =? ESC)%N).

(** The invariant of the retained state. *)
Record wf (r : RowRenderer) : Prop := {
  wf_canvas : length (canvas r) ≤ ROW_CANVAS_CHARS;
  wf_column : column r ≤ ROW_CANVAS_CHARS;
  wf_mark_sum : mark_bytes r = sum_list_with (λ m, str_len m.2) (marks r);
  wf_mark_bytes : mark_bytes r ≤ ROW_MARK_BYTES;
  wf_marks : StronglySorted (λ m m' : nat * str, m.1 ≤ m'.1) (marks r);
  wf_partial : partial r = [] ∨ partial r = [CR] ∨
    length (partial r) < SCAN_WINDOW_CHARS ∧ scan_escape (partial r) 0 = Incomplete;
}.

(** ** The invariant is preserved *)

Lemma partition_point_sorted col raw ms :
  StronglySorted (λ m m' : nat * str, m.1 ≤ m'.1) ms →
  StronglySorted (λ m m' : nat * str, m.1 ≤ m'.1)
    (take (partition_point col ms) ms ++ (col, raw) :: drop (partition_point col ms) ms).
Proof.
  induction 1 as [|[c s] ms Hs IH Hf]; simpl; [repeat constructor|].
  case_if; bool_prop; simpl.
  - constructor; [done|].
    rewrite <- (take_drop (partition_point col ms) ms) in Hf.
    apply Forall_app in Hf as [??]. apply Forall_app. auto.
  - constructor; [by constructor|]. constructor; simpl; [lia|].
    eapply Forall_impl; [done|]. simpl. lia.
Qed.

Lemma wf_new : wf new.
Proof. split; simpl; try lia; [constructor|auto]. Qed.

Lemma wf_reset r : wf r → wf (reset_row r).
Proof. intros []. split; simpl; try done; try lia. constructor. Qed.

Lemma wf_set_redraws n r : wf r → wf (set_redraws n r).
Proof. by intros []. Qed.

Lemma wf_set_dirty d r : wf r → wf (set_dirty d r).
Proof. by intros []. Qed.

Lemma wf_set_column c r : c ≤ ROW_CANVAS_CHARS → wf r → wf (set_column c r).
Proof. by intros ? []. Qed.

Lemma wf_set_canvas c r : length c ≤ ROW_CANVAS_CHARS → wf r → wf (set_canvas c r).
Proof. by intros ? []. Qed.

Lemma wf_set_partial p r :
  p = [] ∨ p = [CR] ∨ length p < SCAN_WINDOW_CHARS ∧ scan_escape p 0 = Incomplete →
  wf r → wf (set_partial p r).
Proof. by intros ? []. Qed.
#[local] Hint Resolve wf_reset wf_set_redraws wf_set_dirty wf_set_column wf_set_canvas : rust.

Lemma wf_push_mark raw r : wf r → wf (push_mark raw r).
Proof.
  intros Hr. unfold push_mark. case_if; [done|]. bool_prop. destruct Hr.
  split; simpl; try done; [|by apply partition_point_sorted].
  rewrite sum_list_with_app. simpl.
  rewrite wf_mark_sum0, <- (take_drop (partition_point (column r) (marks r)) (marks r)) at 1.
  rewrite sum_list_with_app. lia.
Qed.
#[local] Hint Resolve wf_push_mark : rust.

Lemma wf_carriage_return r : wf r → wf (carriage_return r).
Proof.
  intros []. unfold carriage_return. destruct (canvas r) eqn:E;
    (split; simpl; rewrite ?E in *; try done; try lia; constructor).
Qed.

Lemma wf_flush r out r' out' : wf r → flush_row r out = (r', out') → wf r'.
Proof. intros Hr [= <- _]. auto with rust. Qed.

Lemma wf_end_row r out : wf r → wf (end_row r out).1.
Proof. intros Hr. simpl. auto with rust. Qed.

Lemma canvas_nonzero : 1 ≤ ROW_CANVAS_CHARS.
Proof. unfold ROW_CANVAS_CHARS. lia. Qed.

Lemma wf_write c r out : wf r → wf (write c r out).1.
Proof.
  intros Hr. unfold write. destruct (ROW_CANVAS_CHARS <=? column r) eqn:E; simpl; bool_prop.
  - pose proof canvas_nonzero. by apply wf_set_column, wf_set_canvas; auto with rust.
  - apply wf_set_column; [lia|]. apply wf_set_canvas; [|done]. destruct Hr.
    case_if; bool_prop;
      rewrite ?length_insert, ?length_app, ?length_replicate in *; simpl; lia.
Qed.

Lemma wf_move_to col r : col ≤ ROW_CANVAS_CHARS → wf r → wf (move_to col r).
Proof. intros ??. unfold move_to. case_if; auto with rust. Qed.

Lemma wf_erase_line parameters raw r : wf r → wf (erase_line parameters raw r).
Proof.
  intros Hr. pose proof (wf_canvas r Hr). unfold erase_line. repeat case_if; auto with rust.
  - apply wf_set_dirty, wf_set_canvas; [|done]. rewrite length_take. lia.
  - apply wf_set_dirty, wf_set_canvas; [|done].
    rewrite length_app, length_replicate, length_drop. lia.
  - destruct (canvas r); [done|]. apply wf_set_dirty, wf_set_canvas; [simpl; lia|done].
Qed.
#[local] Hint Resolve wf_carriage_return wf_write wf_end_row wf_erase_line : rust.

Lemma wf_apply_escape raw r : wf r → wf (apply_escape raw r).
Proof.
  intros Hr. pose proof (wf_column r Hr). unfold apply_escape.
  destruct (strip_prefix _ raw) as [body|]; [|auto with rust].
  destruct (last body); [|auto with rust].
  repeat case_if; auto with rust;
    first [apply wf_move_to|apply wf_set_column]; try done; lia.
Qed.

Lemma wf_push_step c rest r out : wf r → wf (push_step c rest r out).1.1.
Proof.
  intros Hr. unfold push_step.
  repeat case_if; cbn [fst]; auto with rust; pose proof (wf_column r Hr).
  - destruct rest as [|next rest]; cbn [fst]; [|case_if; cbn [fst]; auto with rust].
    apply wf_set_partial; auto.
  - simpl. apply wf_set_dirty, wf_set_column; [lia|done].
  - destruct (scan_escape (c :: rest) 0) eqn:E; simpl; [by apply wf_apply_escape|].
    apply wf_set_partial; [|done]. right. right. split; [|done].
    destruct (decide (length (c :: rest) < SCAN_WINDOW_CHARS)); [done|].
    exfalso. eapply (scan_escape_resolves (c :: rest) 0); [lia|done].
Qed.

Lemma wf_push_loop fuel rest r out r' out' :
  wf r → push_loop fuel rest r out = Some (r', out') → wf r'.
Proof.
  revert rest r out. induction fuel as [|fuel IH]; intros [|c rest] r out Hr; simpl;
    try (by intros [= <- _]).
  pose proof (wf_push_step c rest r out Hr) as Hs.
  destruct (push_step c rest r out) as [[r1 out1] [rest1|]]; simpl in Hs; [by apply IH|].
  by intros [= <- _].
Qed.

Lemma wf_push text r out r' out' : wf r → push text r out = Some (r', out') → wf r'.
Proof. intros Hr. unfold push. apply wf_push_loop, wf_set_partial; auto. Qed.

Lemma wf_finish r out : wf r → wf (finish r out).1.
Proof.
  intros Hr. assert (wf (apply_orphan (partial r) (set_partial [] r))).
  { assert (wf (set_partial [] r)) by (apply wf_set_partial; auto).
    unfold apply_orphan. repeat case_if; auto with rust. }
  unfold finish. cbv zeta. case_if; simpl; auto with rust.
Qed.

(** ** The loop of [push] *)

Lemma push_step_shorter c rest r out r' out' rest' :
  push_step c rest r out = (r', out', Some rest') → length rest' ≤ length rest.
Proof.
  unfold push_step.
  assert (∀ x : RowRenderer * str, (x, Some rest) = (r', out', Some rest') → length rest' ≤ length rest)
    as Hrest by (intros [] [= _ _ <-]; lia).
  repeat case_if; try apply Hrest.
  - destruct rest as [|next rest]; [done|]. case_if; apply Hrest.
  - destruct (scan_escape (c :: rest) 0) as [e|] eqn:E; [|done].
    apply scan_escape_bounds in E. intros [= _ _ <-]. rewrite length_drop. simpl in *. lia.
Qed.

(** Fuel equal to the length of the input is enough. *)
Lemma push_loop_total fuel rest r out :
  length rest ≤ fuel → is_Some (push_loop fuel rest r out).
Proof.
  revert rest r out. induction fuel as [|fuel IH]; intros [|c rest] r out Hf; simpl in *;
    try lia; try by eexists.
  destruct (push_step c rest r out) as [[r1 out1] [rest1|]] eqn:E; [|by eexists].
  apply push_step_shorter in E. apply IH. lia.
Qed.

Lemma push_loop_fuel fuel fuel' rest r out res :
  push_loop fuel rest r out = Some res → fuel ≤ fuel' →
  push_loop fuel' rest r out = Some res.
Proof.
  revert fuel' rest r out. induction fuel as [|fuel IH]; intros [|fuel'] [|c rest] r out; simpl;
    try done; try lia.
  intros H Hf. destruct (push_step c rest r out) as [[r1 out1] [rest1|]]; [|done].
  apply IH; [done|lia].
Qed.

(** A step that goes on looks only at the input it consumed, unless that input
    ends in an escape character. *)
Lemma push_step_extend c rest more r out r' out' rest' :
  last (c :: rest) ≠ Some ESC →
  push_step c rest r out = (r', out', Some rest') →
  push_step c (rest ++ more) r out = (r', out', Some (rest' ++ more)).
Proof.
  intros Hl. unfold push_step.
  assert (∀ x : RowRenderer * str, (x, Some rest) = (r', out', Some rest') →
     (x, Some (rest ++ more)) = (r', out', Some (rest' ++ more)))
    as Hrest by (intros [] [= -> -> <-]; done).
  repeat case_if; try apply Hrest.
  - destruct rest as [|next rest]; [done|]. cbn [app]. case_if; apply Hrest.
  - destruct (scan_escape (c :: rest) 0) as [e|] eqn:E; [|done].
    pose proof (scan_escape_bounds _ _ _ E) as [_ Hb].
    apply (scan_escape_extend _ more) in E; [|done]. rewrite app_comm_cons, E.
    rewrite take_app_le, drop_app_le by done. by intros [= <- <- <-].
Qed.

Lemma push_step_last c rest r out r' out' rest' :
  last (c :: rest) ≠ Some ESC →
  push_step c rest r out = (r', out', Some rest') → last rest' ≠ Some ESC.
Proof.
  intros Hl Hs HE. apply Hl. revert Hs. unfold push_step.
  assert (∀ x : RowRenderer * str, (x, Some rest) = (r', out', Some rest') →
     last (c :: rest) = Some ESC) as Hrest.
  { intros [] [= _ _ <-]. destruct rest; [done|]. by rewrite last_cons_cons. }
  repeat case_if; try apply Hrest.
  - destruct rest as [|next rest]; [done|]. case_if; apply Hrest.
  - destruct (scan_escape (c :: rest) 0) as [e|] eqn:E; [|done].
    intros [= _ _ <-]. by eapply last_drop_Some.
Qed.

Lemma push_step_partial c rest r out r' out' rest' :
  push_step c rest r out = (r', out', Some rest') → partial r' = partial r.
Proof.
  unfold push_step. repeat case_if; try (by intros [= <- _ _]).
  - destruct rest as [|next rest]; [done|]. case_if; [by intros [= <- _ _]|].
    intros [= <- _ _]. unfold carriage_return. by destruct (canvas r).
  - destruct (scan_escape (c :: rest) 0); [|done]. intros [= <- _ _].
    unfold apply_escape, move_to, erase_line, push_mark. by repeat (case_if || case_match).
  - unfold write. case_if; by intros [= <- _ _].
Qed.

Lemma push_step_stop c rest r out r' out' :
  push_step c rest r out = (r', out', None) → r' = set_partial (c :: rest) r ∧ out' = out.
Proof.
  unfold push_step. repeat case_if; try (intros H; by inversion H).
  - bool_prop. subst c. destruct rest as [|next rest]; [by intros [= <- <-]|]. by case_if.
  - destruct (scan_escape (c :: rest) 0); [done|]. by intros [= <- <-].
Qed.

Lemma set_partial_id r : partial r = [] → set_partial [] r = r.
Proof. by destruct r; simpl; intros ->. Qed.

Lemma push_loop_app fuel a b r out :
  partial r = [] → last a ≠ Some ESC → length (a ++ b) ≤ fuel →
  push_loop fuel (a ++ b) r out =
    ('(r1, out1) ← push_loop fuel a r out; push b r1 out1).
Proof.
  assert (Henough : ∀ fuel rest r out, length rest ≤ fuel →
    push_loop fuel rest r out = push_loop (length rest) rest r out).
  { intros fuel' rest r' out' Hf.
    destruct (push_loop_total (length rest) rest r' out' (le_n _)) as [res Hres].
    rewrite Hres. by eapply push_loop_fuel. }
  revert a r out. induction fuel as [|fuel IH]; intros a r out Hp Hl Hf.
  - destruct a, b; simpl in Hf; try lia. simpl. unfold push. by rewrite Hp, set_partial_id.
  - destruct a as [|c a].
    + change (push_loop (S fuel) ([] ++ b) r out = push b r out).
      unfold push. rewrite Hp, set_partial_id by done. by apply Henough.
    + cbn [app push_loop]. destruct (push_step c a r out) as [[r1 out1] [rest|]] eqn:E.
      * rewrite (push_step_extend _ _ _ _ _ _ _ _ Hl E).
        pose proof (push_step_shorter _ _ _ _ _ _ _ E).
        apply IH; [by rewrite (push_step_partial _ _ _ _ _ _ _ E)| |].
        -- by eapply push_step_last.
        -- rewrite length_app in *. simpl in *. lia.
      * apply push_step_stop in E as [-> ->]. cbn [mbind option_bind]. unfold push.
        rewrite <- (Henough (S fuel)) by done. cbn [partial set_partial app push_loop].
        by rewrite <- (set_partial_id r) at 1.
Qed.

Lemma push_app a b r out :
  last (partial r ++ a) ≠ Some ESC →
  push (a ++ b) r out = ('(r1, out1) ← push a r out; push b r1 out1).
Proof.
  intros Hl. unfold push at 1. rewrite (assoc_L (++)), push_loop_app by done.
  change (push a r out)
    with (push_loop (length (partial r ++ a)) (partial r ++ a) (set_partial [] r) out).
  destruct (push_loop_total (length (partial r ++ a)) (partial r ++ a) (set_partial [] r) out)
    as [res Hres]; [done|].
  erewrite push_loop_fuel; [|exact Hres|rewrite (length_app _ b); lia]. by rewrite Hres.
Qed.

Lemma feed_concat chunks r out :
  chunks ≠ [] → Forall (λ a, a ≠ [] ∧ last a ≠ Some ESC) chunks →
  feed chunks r out = push (concat chunks) r out.
Proof.
  intros Hne H. revert r out. induction H as [|a chunks [Ha Hl] _ IH]; intros r out; [done|].
  cbn [feed concat]. destruct chunks as [|a' chunks].
  - cbn [concat]. rewrite app_nil_r. by destruct (push a r out) as [[]|].
  - rewrite push_app.
    + destruct (push a r out) as [[r1 out1]|]; [|done]. cbn [mbind option_bind]. by apply IH.
    + rewrite last_app. by destruct (last a) eqn:E; [|apply last_None in E].
Qed.

(** ** Plain characters *)

Lemma push_step_plain c rest r out :
  is_plain c = true → push_step c rest r out = (write c r out, Some rest).
Proof.
  unfold is_plain, push_step. intros H. bool_prop.
  repeat match goal with E : (c =? _)%N = false |- _ => rewrite E end.
  rewrite !(proj2 (N.eqb_neq _ _)) by done. done.
Qed.

(** [l] written over [cells] from column [col]. *)
Definition overlay (col : nat) (l cells : str) : str :=
  take col cells ++ l ++ drop (col + length l) cells.

Lemma overlay_cons col c l cells :
  col ≤ length cells →
  overlay (S col) l (take col cells ++ c :: drop (S col) cells) = overlay col (c :: l) cells.
Proof.
  intros Hc. unfold overlay.
  rewrite (cons_middle c), (assoc_L (++) (take col cells) [c] (drop (S col) cells)).
  assert (length (take col cells ++ [c]) = S col) as Hlen.
  { rewrite length_app, length_take. simpl. lia. }
  rewrite take_app_length' by lia. rewrite drop_app_add' by lia.
  rewrite drop_drop, <- !(assoc_L (++)). cbn [length app]. do 4 f_equal. lia.
Qed.

(** Writing overwrites in place from the cursor column. *)
Lemma push_loop_plain fuel l rest r out :
  Forall (λ c, is_plain c = true) l →
  column r ≤ length (canvas r) → column r + length l ≤ ROW_CANVAS_CHARS →
  push_loop (length l + fuel) (l ++ rest) r out =
  push_loop fuel rest
    (set_column (column r + length l) (set_canvas (overlay (column r) l (canvas r)) r)) out.
Proof.
  intros Hl. revert r. induction Hl as [|c l Hc Hl IH]; intros r Hcol Hrow; cbn [length app].
  - unfold overlay. cbn [length app]. rewrite Nat.add_0_r, take_drop. by destruct r.
  - cbn [Nat.add push_loop]. rewrite push_step_plain by done. unfold write.
    simpl in Hrow. rewrite (proj2 (Nat.leb_gt _ _)) by lia.
    replace (column r - length (canvas r)) with 0 by lia. cbn [replicate].
    rewrite app_nil_r.
    assert ((if column r <? length (canvas r) then <[column r:=c]> (canvas r) else canvas r ++ [c])
      = take (column r) (canvas r) ++ c :: drop (S (column r)) (canvas r)) as ->.
    { case_if; bool_prop; [by rewrite insert_take_drop|].
      rewrite take_ge, drop_ge by lia. done. }
    rewrite IH; cbn [column canvas set_column set_canvas].
    + f_equal. unfold set_column, set_canvas; cbn.
      rewrite Nat.add_1_r, overlay_cons by done. f_equal. lia.
    + rewrite length_app, length_take. simpl. lia.
    + lia.
Qed.

Lemma render_cells_no_marks col cells : render_cells col cells [] = cells.
Proof. revert col. induction cells as [|c cells IH]; intros col; simpl; [done|]. by rewrite IH. Qed.

(** The state after a plain row [l] written on a fresh row. *)
Definition row_of (l : str) (n : N) : RowRenderer := mkRow l [] 0 (length l) 0 false [] n.

Lemma push_loop_plain_fresh fuel l rest n out :
  Forall (λ c, is_plain c = true) l → length l ≤ ROW_CANVAS_CHARS →
  push_loop (length l + fuel) (l ++ rest) (row_of [] n) out = push_loop fuel rest (row_of l n) out.
Proof.
  intros Hl Hrow. rewrite push_loop_plain by (try done; simpl; lia).
  f_equal. unfold row_of, set_column, set_canvas, overlay; cbn.
  by rewrite drop_nil, app_nil_r.
Qed.

Lemma push_loop_plain_rows fuel ls n out :
  ls ≠ [] → (n <= U64_MAX)%N →
  Forall (λ l, Forall (λ c, is_plain c = true) l ∧ length l ≤ ROW_CANVAS_CHARS) ls →
  length (join [NL] ls) ≤ fuel →
  ∃ l, push_loop fuel (join [NL] ls) (row_of [] n) out = Some (row_of l n, out ++ take (length (join [NL] ls) - length l) (join [NL] ls)) ∧
       drop (length (join [NL] ls) - length l) (join [NL] ls) = l.
Proof.
  intros Hne Hn H. revert fuel out. induction H as [|l ls [Hl Hlen] Hls IH]; [done|].
  intros fuel out Hf. destruct ls as [|l' ls].
  - cbn [join] in *. exists l. rewrite Nat.sub_diag, take_0, drop_0, app_nil_r. split; [|done].
    pose proof (push_loop_plain_fresh (fuel - length l) l [] n out Hl Hlen) as E.
    rewrite app_nil_r, Nat.add_comm, Nat.sub_add in E by done. rewrite E.
    by destruct (fuel - length l).
  - rewrite join_cons in * by done. rewrite !length_app in Hf. simpl in Hf.
    destruct (IH ltac:(done) (fuel - length l - 1) (out ++ l ++ [NL])) as (l0 & Hp & Hd); [simpl; lia|].
    assert (length l0 ≤ length (join [NL] (l' :: ls))) as Hl0.
    { rewrite <- Hd, length_drop. lia. }
    exists l0. set (more := join [NL] (l' :: ls)) in *. clearbody more.
    assert (length (l ++ [NL] ++ more) - length l0 = length (l ++ [NL]) + (length more - length l0)) as ->.
    { rewrite !length_app. simpl. lia. }
    rewrite (assoc_L (++)), take_app_add, drop_app_add. split; [|done].
    rewrite <- (assoc_L (++)). replace fuel with (length l + S (fuel - length l - 1)) by lia.
    rewrite push_loop_plain_fresh by done. cbn [push_loop app].
    change (push_step NL more (row_of l n) out) with (end_row (row_of l n) out, Some more).
    unfold end_row, flush_row, render_row. cbn. rewrite render_cells_no_marks.
    change (reset_row _) with (row_of [] (u64_sat_add n 0)). rewrite u64_sat_add_0 by done.
    rewrite <- (assoc_L (++) out l [NL]), Hp. by rewrite <- !(assoc_L (++)).
Qed.

Lemma finish_row_of l n out :
  (n <= U64_MAX)%N → finish (row_of l n) out = (row_of [] n, out ++ l).
Proof.
  intros Hn. unfold finish, apply_orphan. cbn [starts_with strip_prefix partial row_of].
  cbn [canvas set_partial row_dirty negb]. destruct l as [|c l].
  - cbn. by rewrite app_nil_r.
  - unfold flush_row, render_row. cbn -[render_cells u64_sat_add].
    rewrite render_cells_no_marks.
    change (reset_row _) with (row_of [] (u64_sat_add n 0)). by rewrite u64_sat_add_0.
Qed.

(** ** Properties *)

(** retained state is one row wide whatever the stream: any sequence of chunks
    leaves a canvas and a column within [ROW_CANVAS_CHARS], at most
    [ROW_MARK_BYTES] of decoration sorted by column, and less than one scan
    window of held input; and no chunk makes the renderer fail. *)
Theorem feed_bounded chunks :
  ∃ r out, feed chunks new [] = Some (r, out) ∧ wf r.
Proof.
  assert (H : ∀ chunks r out, wf r → ∃ r' out', feed chunks r out = Some (r', out') ∧ wf r').
  { clear. induction chunks as [|a chunks IH]; intros r out Hr; [by exists r, out|].
    cbn [feed]. destruct (push_loop_total _ (partial r ++ a) (set_partial [] r) out (le_n _))
      as [[r1 out1] E].
    change (push a r out = Some (r1, out1)) in E. rewrite E. cbn [mbind option_bind].
    apply IH. by eapply wf_push. }
  apply H, wf_new.
Qed.

(** C34: chunk boundaries do not matter.  Feeding any chunks, none of which ends in
    an escape character, leaves the same renderer and the same text as feeding
    their concatenation at once, from any state. *)
Theorem feed_chunk_independent chunks r out :
  chunks ≠ [] → Forall (λ a, a ≠ [] ∧ last a ≠ Some ESC) chunks →
  feed chunks r out = push (concat chunks) r out.
Proof. apply feed_concat. Qed.

(** ordinary output is reproduced byte for byte: text without cursor controls
    whose lines fit the canvas renders as itself and absorbs no redraw. *)
Theorem render_terminal_plain ls :
  ls ≠ [] →
  Forall (λ l, Forall (λ c, is_plain c = true) l ∧ length l ≤ ROW_CANVAS_CHARS) ls →
  render_terminal (join [NL] ls) = Some (join [NL] ls, 0%N).
Proof.
  intros Hne H. unfold render_terminal, push. cbn [partial new app].
  destruct (push_loop_plain_rows (length (join [NL] ls)) ls 0 [] Hne) as (l & Hp & Hd);
    [unfold U64_MAX; lia|done|done|].
  change (set_partial [] new) with (row_of [] 0). rewrite Hp. cbn [mbind option_bind].
  rewrite finish_row_of by (unfold U64_MAX; lia). cbn [app]. f_equal. f_equal.
  rewrite <- Hd at 2. apply take_drop.
Qed.

(** a frame redrawn over another shows the terminal row: the second frame over
    the first, trailing blanks dropped, counted as one redraw. *)
Theorem render_terminal_redraw a b :
  a ≠ [] → Forall (λ c, is_plain c = true) a → Forall (λ c, is_plain c = true) b → b ≠ [] →
  length a ≤ ROW_CANVAS_CHARS → length b ≤ ROW_CANVAS_CHARS →
  render_terminal (a ++ [CR] ++ b ++ [NL]) =
    Some (trim_end_matches (N.eqb SPACE) (b ++ drop (length b) a) ++ [NL], 1%N).
Proof.
  intros Ha Hpa Hpb Hb Hla Hlb. unfold render_terminal, push. cbn [partial new app].
  change (set_partial [] new) with (row_of [] 0).
  rewrite !length_app. cbn [length]. rewrite length_app, <- Nat.add_succ_r. cbn [length].
  rewrite push_loop_plain_fresh by done.
  destruct b as [|c b]; [done|]. inversion Hpb as [|?? Hc Hpb']; subst.
  replace (length (c :: b) + 2) with (S (length (c :: b) + 1)) by lia.
  cbn [app push_loop].
  assert (push_step CR (c :: b ++ [NL]) (row_of a 0) [] =
    (mkRow a [] 0 0 1 true [] 0, [], Some (c :: b ++ [NL]))) as ->.
  { unfold push_step. cbn. unfold is_plain in Hc. bool_prop.
    rewrite (proj2 (N.eqb_neq c NL)) by done. by destruct a. }
  change (c :: b ++ [NL]) with ((c :: b) ++ [NL]).
  rewrite push_loop_plain; [|done|simpl; lia|simpl; simpl in Hlb; lia].
  cbn [column canvas].
  remember (overlay 0 (c :: b) a) as cells eqn:Hcells.
  cbn [push_loop]. unfold push_step, end_row, flush_row, render_row.
  cbn -[trim_end_matches render_cells]. rewrite render_cells_no_marks, Hcells. reflexivity.
Qed.

(** [finish] is idempotent: a second call emits nothing and counts nothing. *)
Theorem finish_idempotent r out :
  let '(r1, out1) := finish r out in finish r1 out1 = (r1, out1).
Proof.
  assert (H : ∀ r out, partial r = [] → canvas r = [] → row_dirty r = false →
    finish r out = (r, out)).
  { intros [] o; simpl; intros -> -> ->. done. }
  unfold finish at 1. set (r1 := apply_orphan _ _).
  assert (partial r1 = []) as Hp.
  { subst r1. unfold apply_orphan, push_mark, carriage_return.
    by repeat (case_if || case_match). }
  case_if; simpl; [|by apply H].
  bool_prop. by apply H.
Qed.

(** an escape sequence cut by a chunk boundary inside its two-character
    terminator is read differently from the same bytes in one chunk: the
    condition of [feed_chunk_independent] on the last character is needed. *)
Theorem feed_chunk_boundary_in_terminator :
  let head_ := [ESC; RBRACKET] ++ replicate 510 120%N ++ [ESC] in
  ∃ r1 out1 r2 out2,
    feed [head_; [BACKSLASH]] new [] = Some (r1, out1) ∧
    push (head_ ++ [BACKSLASH]) new [] = Some (r2, out2) ∧
    canvas r1 = [RBRACKET] ++ replicate 510 120%N ∧ canvas r2 = [].
Proof. vm_compute. do 4 eexists. split_and!; reflexivity. Qed.

(** A sequence truncated by the end of a stream that printed nothing is dropped,
    where the comment in [finish] says its bytes are kept. *)
Theorem finish_drops_lone_orphan :
  render_terminal ([ESC; LBRACKET] ++ lit "31") = Some ([], 0%N).
Proof. reflexivity. Qed.

(** ** Witnesses *)

Lemma feed_chunk_independent_witness :
  feed [lit "10%"; [CR] ++ lit "20%"; [NL]] new [] = push (lit "10%" ++ [CR] ++ lit "20%" ++ [NL]) new [].
Proof.
  apply (feed_chunk_independent [lit "10%"; [CR] ++ lit "20%"; [NL]]); [done|].
  repeat (constructor; [split; done|]). constructor.
Defined.

Lemma render_terminal_plain_witness :
  render_terminal (join [NL] [lit "one"; lit "two"]) = Some (join [NL] [lit "one"; lit "two"], 0%N).
Proof.
  apply render_terminal_plain; [done|].
  repeat (constructor; [split; [repeat constructor|compute_le]|]). constructor.
Defined.

Lemma render_terminal_redraw_witness :
  render_terminal (lit "abc" ++ [CR] ++ lit "X " ++ [NL]) =
    Some (trim_end_matches (N.eqb SPACE) (lit "X " ++ drop 2 (lit "abc")) ++ [NL], 1%N).
Proof.
  apply (render_terminal_redraw (lit "abc") (lit "X ")); try done;
    first [compute_le|repeat constructor].
Defined.
