(* ===== verification/NetAddress.v ===== *)
(** * Address and hostname classification: [crates/net/src/classification.rs]

    A [u32] or [u128] is a [Z] in range; masks are built by the shifts of the
    code, with their wrap-around.  [IpAddr::from_str] of the standard library is
    modelled by its recursive-descent parser. *)

From S2P Require Import Prelude.
Local Open Scope Z_scope.

(** [IpAddr] of the standard library: the address as its integer. *)
Inductive IpAddr : Type :=
| V4 (address : Z)
| V6 (address : Z).

#[export] Instance IpAddr_eq_dec : EqDecision IpAddr.
Proof. solve_decision. Defined.

Inductive IpClassification : Type :=
| Public | Unspecified | Loopback | Private | LinkLocal | Shared
| Documentation | Benchmarking | Multicast | Reserved.

#[export] Instance IpClassification_eq_dec : EqDecision IpClassification.
Proof. solve_decision. Defined.

Definition is_public (c : IpClassification) : bool :=
  match c with Public => true | _ => false end.

Inductive HostClassification : Type :=
| PublicName
| SpecialUseName
| Ip (c : IpClassification)
| Invalid.

#[export] Instance HostClassification_eq_dec : EqDecision HostClassification.
Proof. solve_decision. Defined.

(** [u32::MAX << k] and [u128::MAX << k], truncated to the width. *)
Definition shl_max (width k : Z) : Z := Z.shiftl (2 ^ width - 1) k mod 2 ^ width.

Definition from_be_bytes (a b c d : Z) : Z :=
  Z.lor (Z.shiftl a 24) (Z.lor (Z.shiftl b 16) (Z.lor (Z.shiftl c 8) d)).

Definition in_v4 (value network prefix : Z) : bool :=
  let mask := if prefix =? 0 then 0 else shl_max 32 (32 - prefix) in
  Z.land value mask =? Z.land network mask.

Definition in_v6 (value network prefix : Z) : bool :=
  let mask := if prefix =? 0 then 0 else shl_max 128 (128 - prefix) in
  Z.land value mask =? Z.land network mask.

Definition v6_network (first second third fourth : Z) : Z :=
  Z.lor (Z.shiftl first 112)
    (Z.lor (Z.shiftl second 96) (Z.lor (Z.shiftl third 80) (Z.shiftl fourth 64))).

Definition classify_ipv4 (value : Z) : IpClassification :=
  if in_v4 value (from_be_bytes 0 0 0 0) 8 then Unspecified
  else if in_v4 value (from_be_bytes 10 0 0 0) 8
       || in_v4 value (from_be_bytes 172 16 0 0) 12
       || in_v4 value (from_be_bytes 192 168 0 0) 16 then Private
  else if in_v4 value (from_be_bytes 100 64 0 0) 10 then Shared
  else if in_v4 value (from_be_bytes 127 0 0 0) 8 then Loopback
  else if in_v4 value (from_be_bytes 169 254 0 0) 16 then LinkLocal
  else if in_v4 value (from_be_bytes 192 0 2 0) 24
       || in_v4 value (from_be_bytes 198 51 100 0) 24
       || in_v4 value (from_be_bytes 203 0 113 0) 24 then Documentation
  else if in_v4 value (from_be_bytes 198 18 0 0) 15 then Benchmarking
  else if in_v4 value (from_be_bytes 224 0 0 0) 4 then Multicast
  else if in_v4 value (from_be_bytes 192 0 0 0) 24
       || in_v4 value (from_be_bytes 192 88 99 0) 24
       || in_v4 value (from_be_bytes 240 0 0 0) 4 then Reserved
  else Public.

(** [Ipv6Addr::to_ipv4_mapped]: the [::ffff:0:0/96] block. *)
Definition to_ipv4_mapped (value : Z) : option Z :=
  if Z.shiftr value 32 =? 0xFFFF then Some (Z.land value 0xFFFFFFFF) else None.

Definition classify_ipv6 (value : Z) : IpClassification :=
  match to_ipv4_mapped value with
  | Some mapped => classify_ipv4 mapped
  | None =>
      if value =? 0 then Unspecified
      else if value =? 1 then Loopback
      else if in_v6 value (v6_network 0xfc00 0 0 0) 7 then Private
      else if in_v6 value (v6_network 0xfe80 0 0 0) 10 then LinkLocal
      else if in_v6 value (v6_network 0xff00 0 0 0) 8 then Multicast
      else if in_v6 value (v6_network 0x2001 0x0db8 0 0) 32
           || in_v6 value (v6_network 0x3fff 0 0 0) 20 then Documentation
      else if in_v6 value (v6_network 0x2001 0x0002 0 0) 48 then Benchmarking
      else if in_v6 value (v6_network 0x0100 0 0 0) 64
           || in_v6 value (v6_network 0x0064 0xff9b 1 0) 48
           || in_v6 value (v6_network 0x2001 0 0 0) 23
           || in_v6 value (v6_network 0x2002 0 0 0) 16
           || in_v6 value (v6_network 0x5f00 0 0 0) 16
           || negb (in_v6 value (v6_network 0x2000 0 0 0) 3) then Reserved
      else Public
  end.

Definition classify_ip (address : IpAddr) : IpClassification :=
  match address with
  | V4 address => classify_ipv4 address
  | V6 address => classify_ipv6 address
  end.

(** ** [IpAddr::from_str] of the standard library *)
Module IpParser.

Definition digit_value (radix : Z) (c : char) : option Z :=
  let v := Z.of_N c in
  let d :=
    if (48 <=? v) && (v <=? 57) then v - 48
    else if (97 <=? v) && (v <=? 122) then v - 87
    else if (65 <=? v) && (v <=? 90) then v - 55
    else 36 in
  if d <? radix then Some d else None.

(** [read_number] with a digit limit. *)
Fixpoint read_digits (radix : Z) (max_digits count : nat) (acc : Z) (s : str) :
    option (nat * Z * str) :=
  match s with
  | [] => Some (count, acc, [])
  | c :: s' =>
      match digit_value radix c with
      | None => Some (count, acc, s)
      | Some d =>
          if (max_digits <? S count)%nat then None
          else read_digits radix max_digits (S count) (acc * radix + d) s'
      end
  end.

Definition read_number (radix max : Z) (max_digits : nat) (allow_zero_prefix : bool) (s : str) :
    option (Z * str) :=
  match read_digits radix max_digits 0 0 s with
  | Some (count, value, s') =>
      if (count =? 0)%nat || (max <? value) then None
      else if negb allow_zero_prefix && bool_decide (head s = Some 48%N) && (1 <? count)%nat
      then None
      else Some (value, s')
  | None => None
  end.

Definition read_given_char (c : char) (s : str) : option str :=
  match s with
  | d :: s' => if (c =? d)%N then Some s' else None
  | [] => None
  end.

Definition read_separator {A} (sep : char) (index : nat) (inner : str → option (A * str))
    (s : str) : option (A * str) :=
  if (0 <? index)%nat then s' ← read_given_char sep s; inner s' else inner s.

Definition DOT : char := 46%N.
Definition COLON : char := 58%N.

Fixpoint read_ipv4_groups (n index : nat) (acc : Z) (s : str) : option (Z * str) :=
  match n with
  | 0%nat => Some (acc, s)
  | S n' =>
      '(g, s') ← read_separator DOT index (read_number 10 255 3 false) s;
      read_ipv4_groups n' (S index) (acc * 256 + g) s'
  end.

Definition read_ipv4_addr (s : str) : option (Z * str) := read_ipv4_groups 4 0 0 s.

(** Groups read so far, whether an embedded IPv4 address ended them, the rest. *)
Fixpoint read_groups (n index : nat) (acc : list Z) (s : str) : list Z * bool * str :=
  match n with
  | 0%nat => (acc, false, s)
  | S n' =>
      let v4 := if (0 <? n')%nat then read_separator COLON index read_ipv4_addr s else None in
      match v4 with
      | Some (a, s') => (acc ++ [Z.shiftr a 16; Z.land a 0xFFFF], true, s')
      | None =>
          match read_separator COLON index (read_number 16 0xFFFF 4 true) s with
          | Some (g, s') => read_groups n' (S index) (acc ++ [g]) s'
          | None => (acc, false, s)
          end
      end
  end.

Definition of_segments (gs : list Z) : Z := foldl (fun acc g => acc * 65536 + g) 0 gs.

Definition read_ipv6_addr (s : str) : option (Z * str) :=
  let '(hd, hd_ipv4, s1) := read_groups 8 0 [] s in
  if (length hd =? 8)%nat then Some (of_segments hd, s1)
  else if hd_ipv4 then None
  else
    s2 ← read_given_char COLON s1;
    s3 ← read_given_char COLON s2;
    let '(tl, _, s4) := read_groups (8 - (length hd + 1)) 0 [] s3 in
    Some (of_segments (hd ++ replicate (8 - length hd - length tl) 0 ++ tl), s4).

Definition read_ip_addr (s : str) : option (IpAddr * str) :=
  match read_ipv4_addr s with
  | Some (a, s') => Some (V4 a, s')
  | None => '(a, s') ← read_ipv6_addr s; Some (V6 a, s')
  end.

Definition parse (s : str) : option IpAddr :=
  match read_ip_addr s with
  | Some (a, []) => Some a
  | _ => None
  end.

End IpParser.

Definition parse_ip : str → option IpAddr := IpParser.parse.

Definition SPECIAL_SUFFIXES : list str :=
  [lit "localhost"; lit "local"; lit "localdomain"; lit "lan"; lit "home.arpa";
   lit "test"; lit "invalid"; lit "example"].

Definition normalize_hostname (hostname : str) : str :=
  to_ascii_lowercase
    (trim_end_matches (N.eqb 46)
       (trim_end_matches (N.eqb 93)
          (trim_start_matches (N.eqb 91) (trim hostname)))).

Definition has_special_suffix (normalized : str) : bool :=
  existsb
    (fun suffix =>
       str_eqb normalized suffix
       || match strip_suffix suffix normalized with
          | Some prefix => ends_with [46%N] prefix
          | None => false
          end) SPECIAL_SUFFIXES.

Definition classify_hostname (hostname : str) : HostClassification :=
  let normalized := normalize_hostname hostname in
  match normalized with
  | [] => Invalid
  | _ =>
      match parse_ip normalized with
      | Some address => Ip (classify_ip address)
      | None => if has_special_suffix normalized then SpecialUseName else PublicName
      end
  end.

(** ** Reference tables

    Blocks as first and last address. *)
Definition quad (a b c d : Z) : Z := a * 2 ^ 24 + b * 2 ^ 16 + c * 2 ^ 8 + d.
Definition between (lo hi v : Z) : Prop := lo ≤ v ≤ hi.

Definition v4_block (c : IpClassification) (v : Z) : Prop :=
  match c with
  | Unspecified => between (quad 0 0 0 0) (quad 0 255 255 255) v
  | Private =>
      between (quad 10 0 0 0) (quad 10 255 255 255) v ∨
      between (quad 172 16 0 0) (quad 172 31 255 255) v ∨
      between (quad 192 168 0 0) (quad 192 168 255 255) v
  | Shared => between (quad 100 64 0 0) (quad 100 127 255 255) v
  | Loopback => between (quad 127 0 0 0) (quad 127 255 255 255) v
  | LinkLocal => between (quad 169 254 0 0) (quad 169 254 255 255) v
  | Documentation =>
      between (quad 192 0 2 0) (quad 192 0 2 255) v ∨
      between (quad 198 51 100 0) (quad 198 51 100 255) v ∨
      between (quad 203 0 113 0) (quad 203 0 113 255) v
  | Benchmarking => between (quad 198 18 0 0) (quad 198 19 255 255) v
  | Multicast => between (quad 224 0 0 0) (quad 239 255 255 255) v
  | Reserved =>
      between (quad 192 0 0 0) (quad 192 0 0 255) v ∨
      between (quad 192 88 99 0) (quad 192 88 99 255) v ∨
      between (quad 240 0 0 0) (quad 255 255 255 255) v
  | Public => False
  end.

(** Global unicast space less the special-purpose blocks inside it. *)
Definition hextets (a b c : Z) : Z := a * 2 ^ 112 + b * 2 ^ 96 + c * 2 ^ 80.
Definition v6_public (v : Z) : Prop :=
  hextets 0x2000 0 0 ≤ v < hextets 0x4000 0 0 ∧
  ¬ (hextets 0x2001 0 0 ≤ v < hextets 0x2001 0x200 0) ∧
  ¬ (hextets 0x2001 0xdb8 0 ≤ v < hextets 0x2001 0xdb9 0) ∧
  ¬ (hextets 0x2002 0 0 ≤ v < hextets 0x2003 0 0) ∧
  ¬ (hextets 0x3fff 0 0 ≤ v < hextets 0x3fff 0x1000 0).

(** ** Masks are intervals *)

Lemma land_shl_max width k v :
  0 ≤ k ≤ width → 0 ≤ v < 2 ^ width →
  Z.land v (shl_max width k) = Z.shiftl (Z.shiftr v k) k.
Proof.
  intros Hk Hv. apply Z.bits_inj'. intros n Hn. unfold shl_max.
  rewrite Z.land_spec, Z.shiftl_spec by lia.
  replace (2 ^ width - 1) with (Z.ones width) by (rewrite Z.ones_equiv; lia).
  destruct (Z.lt_ge_cases n width) as [Hw|Hw].
  - rewrite Z.mod_pow2_bits_low, Z.shiftl_spec by lia.
    destruct (Z.lt_ge_cases n k) as [Hnk|Hnk].
    + rewrite !(Z.testbit_neg_r _ (n - k)) by lia. apply andb_false_r.
    + rewrite Z.ones_spec_low by lia. rewrite Z.shiftr_spec by lia.
      rewrite andb_true_r. f_equal. lia.
  - rewrite Z.mod_pow2_bits_high, andb_false_r by lia.
    rewrite Z.shiftr_spec by lia. symmetry.
    replace (n - k + k) with n by lia.
    destruct (Z.eq_dec v 0) as [->|Hv0]; [apply Z.testbit_0_l|].
    apply Z.bits_above_log2; [lia|].
    apply Z.log2_lt_pow2; [lia|]. pose proof (Z.pow_le_mono_r 2 width n). lia.
Qed.

Lemma masked_interval width k v n :
  0 ≤ k ≤ width → 0 ≤ v < 2 ^ width → 0 ≤ n < 2 ^ width → n mod 2 ^ k = 0 →
  (Z.land v (shl_max width k) =? Z.land n (shl_max width k))
  = (n <=? v) && (v <? n + 2 ^ k).
Proof.
  intros Hk Hv Hn Hm. rewrite !land_shl_max by done. apply eq_bool_prop_intro.
  rewrite !Is_true_true, andb_true_iff, Z.eqb_eq, Z.leb_le, Z.ltb_lt.
  rewrite !Z.shiftl_mul_pow2, !Z.shiftr_div_pow2 by lia.
  assert (0 < 2 ^ k) by (apply Z.pow_pos_nonneg; lia).
  pose proof (Z.div_mod v (2 ^ k) ltac:(lia)). pose proof (Z.mod_pos_bound v (2 ^ k)).
  pose proof (Z.div_mod n (2 ^ k) ltac:(lia)).
  generalize dependent (2 ^ k). intros P Hm HP Hd Hb Hdn.
  generalize dependent (v / P). generalize dependent (n / P). intros m Hdn q Hd.
  split; [nia|]. intros Hi. assert (m = q) as -> by nia. done.
Qed.

Lemma in_v4_interval v n p lo hi :
  0 ≤ v < 2 ^ 32 → 1 ≤ p ≤ 32 →
  0 ≤ n < 2 ^ 32 → n mod 2 ^ (32 - p) = 0 → n = lo → n + 2 ^ (32 - p) = hi + 1 →
  in_v4 v n p = (lo <=? v) && (v <=? hi).
Proof.
  intros Hv Hp Hn Hm <- Hhi. unfold in_v4. rewrite (proj2 (Z.eqb_neq p 0)) by lia.
  rewrite masked_interval by lia. f_equal. apply eq_bool_prop_intro.
  rewrite !Is_true_true, Z.ltb_lt, Z.leb_le. lia.
Qed.

Lemma in_v6_interval v n p lo hi :
  0 ≤ v < 2 ^ 128 → 1 ≤ p ≤ 128 →
  0 ≤ n < 2 ^ 128 → n mod 2 ^ (128 - p) = 0 → n = lo → n + 2 ^ (128 - p) = hi →
  in_v6 v n p = (lo <=? v) && (v <? hi).
Proof.
  intros Hv Hp Hn Hm <- Hhi. unfold in_v6. rewrite (proj2 (Z.eqb_neq p 0)) by lia.
  rewrite masked_interval by lia. by rewrite Hhi.
Qed.

(** Rewrites the next block test to its interval; the side conditions are closed
    constants. *)
Ltac block_v4 lo hi :=
  rewrite (in_v4_interval _ _ _ lo hi);
  [|assumption|lia|vm_compute; split; congruence|vm_compute; reflexivity
   |vm_compute; reflexivity|vm_compute; reflexivity].
Ltac block_v6 lo hi :=
  rewrite (in_v6_interval _ _ _ lo hi);
  [|assumption|lia|vm_compute; split; congruence|vm_compute; reflexivity
   |vm_compute; reflexivity|vm_compute; reflexivity].

(** [classify_ipv4] and [classify_ipv6] with their masks read as intervals. *)
Definition within (lo hi v : Z) : bool := (lo <=? v) && (v <=? hi).

Definition v4_table (v : Z) : IpClassification :=
  if within (quad 0 0 0 0) (quad 0 255 255 255) v then Unspecified
  else if within (quad 10 0 0 0) (quad 10 255 255 255) v
       || within (quad 172 16 0 0) (quad 172 31 255 255) v
       || within (quad 192 168 0 0) (quad 192 168 255 255) v then Private
  else if within (quad 100 64 0 0) (quad 100 127 255 255) v then Shared
  else if within (quad 127 0 0 0) (quad 127 255 255 255) v then Loopback
  else if within (quad 169 254 0 0) (quad 169 254 255 255) v then LinkLocal
  else if within (quad 192 0 2 0) (quad 192 0 2 255) v
       || within (quad 198 51 100 0) (quad 198 51 100 255) v
       || within (quad 203 0 113 0) (quad 203 0 113 255) v then Documentation
  else if within (quad 198 18 0 0) (quad 198 19 255 255) v then Benchmarking
  else if within (quad 224 0 0 0) (quad 239 255 255 255) v then Multicast
  else if within (quad 192 0 0 0) (quad 192 0 0 255) v
       || within (quad 192 88 99 0) (quad 192 88 99 255) v
       || within (quad 240 0 0 0) (quad 255 255 255 255) v then Reserved
  else Public.

Lemma classify_ipv4_table v : 0 ≤ v < 2 ^ 32 → classify_ipv4 v = v4_table v.
Proof.
  intros Hv. unfold classify_ipv4, v4_table, within.
  block_v4 (quad 0 0 0 0) (quad 0 255 255 255).
  block_v4 (quad 10 0 0 0) (quad 10 255 255 255).
  block_v4 (quad 172 16 0 0) (quad 172 31 255 255).
  block_v4 (quad 192 168 0 0) (quad 192 168 255 255).
  block_v4 (quad 100 64 0 0) (quad 100 127 255 255).
  block_v4 (quad 127 0 0 0) (quad 127 255 255 255).
  block_v4 (quad 169 254 0 0) (quad 169 254 255 255).
  block_v4 (quad 192 0 2 0) (quad 192 0 2 255).
  block_v4 (quad 198 51 100 0) (quad 198 51 100 255).
  block_v4 (quad 203 0 113 0) (quad 203 0 113 255).
  block_v4 (quad 198 18 0 0) (quad 198 19 255 255).
  block_v4 (quad 224 0 0 0) (quad 239 255 255 255).
  block_v4 (quad 192 0 0 0) (quad 192 0 0 255).
  block_v4 (quad 192 88 99 0) (quad 192 88 99 255).
  block_v4 (quad 240 0 0 0) (quad 255 255 255 255).
  reflexivity.
Qed.

Lemma within_between lo hi v : within lo hi v = true ↔ between lo hi v.
Proof. unfold within, between. lia. Qed.

(** The numbers of the block bounds, for [lia]. *)
Ltac quads := unfold v4_block, v4_table, within, between, quad in *; simpl in *.

Lemma v4_block_table v c : v4_block c v → v4_table v = c.
Proof. intros H. destruct c; quads; repeat case_if; solve [reflexivity | lia]. Qed.

Lemma v4_table_block v : v4_table v = Public ∨ v4_block (v4_table v) v.
Proof.
  unfold v4_table. repeat case_if; auto; right; quads; lia.
Qed.

(** [classify_ipv4] assigns every 32-bit address the class whose registered
    block contains it, and [Public] exactly when no block does: the order of the
    tests and the masks lose and shadow nothing. *)
Theorem classify_ipv4_blocks v c :
  0 ≤ v < 2 ^ 32 →
  classify_ipv4 v = c ↔
  v4_block c v ∨ (c = Public ∧ ∀ c', ¬ v4_block c' v).
Proof.
  intros Hv. rewrite classify_ipv4_table by done. split.
  - intros <-. destruct (v4_table_block v) as [H|H]; [right|by left].
    split; [done|]. intros c' Hc. pose proof (v4_block_table _ _ Hc) as E.
    rewrite H in E. by subst c'.
  - intros [H|[-> H]]; [by apply v4_block_table|].
    destruct (v4_table_block v) as [E|E]; [done|by apply H in E].
Qed.

Lemma classify_ipv4_blocks_witness :
  0 ≤ from_be_bytes 172 31 255 255 < 2 ^ 32 ∧
  classify_ipv4 (from_be_bytes 172 31 255 255) = Private ∧
  classify_ipv4 (from_be_bytes 172 32 0 0) = Public.
Proof.
  split_and!; [vm_compute; congruence|vm_compute; reflexivity| |].
  - apply classify_ipv4_blocks; [vm_compute; split; congruence|].
    left. simpl. right. left. vm_compute. split; congruence.
  - vm_compute. reflexivity.
Defined.

(** The mapped block, as an interval. *)
Lemma to_ipv4_mapped_Some v a :
  0 ≤ v < 2 ^ 128 →
  to_ipv4_mapped v = Some a ↔ 0 ≤ a < 2 ^ 32 ∧ v = 0xFFFF * 2 ^ 32 + a.
Proof.
  intros Hv. unfold to_ipv4_mapped. change 0xFFFFFFFF with (Z.ones 32).
  rewrite Z.land_ones, Z.shiftr_div_pow2 by lia.
  pose proof (Z.div_mod v (2 ^ 32)). pose proof (Z.mod_pos_bound v (2 ^ 32)).
  case_if; [apply Z.eqb_eq in Heqb|apply Z.eqb_neq in Heqb]; split; try done.
  - intros [= <-]. lia.
  - intros [? ->]. f_equal. lia.
  - intros [? ->]. lia.
Qed.

Definition v6_table (v : Z) : IpClassification :=
  let block a b c a' b' c' := (hextets a b c <=? v) && (v <? hextets a' b' c') in
  if v =? 0 then Unspecified
  else if v =? 1 then Loopback
  else if block 0xfc00 0 0 0xfe00 0 0 then Private
  else if block 0xfe80 0 0 0xfec0 0 0 then LinkLocal
  else if block 0xff00 0 0 0x10000 0 0 then Multicast
  else if block 0x2001 0xdb8 0 0x2001 0xdb9 0
       || block 0x3fff 0 0 0x3fff 0x1000 0 then Documentation
  else if block 0x2001 2 0 0x2001 2 1 then Benchmarking
  else if ((hextets 0x100 0 0 <=? v) && (v <? hextets 0x100 0 0 + 2 ^ 64))
       || block 0x64 0xff9b 1 0x64 0xff9b 2
       || block 0x2001 0 0 0x2001 0x200 0
       || block 0x2002 0 0 0x2003 0 0
       || block 0x5f00 0 0 0x5f01 0 0
       || negb (block 0x2000 0 0 0x4000 0 0) then Reserved
  else Public.

Lemma classify_ipv6_table v :
  0 ≤ v < 2 ^ 128 → to_ipv4_mapped v = None → classify_ipv6 v = v6_table v.
Proof.
  intros Hv Hm. unfold classify_ipv6, v6_table. rewrite Hm.
  block_v6 (hextets 0xfc00 0 0) (hextets 0xfe00 0 0).
  block_v6 (hextets 0xfe80 0 0) (hextets 0xfec0 0 0).
  block_v6 (hextets 0xff00 0 0) (hextets 0x10000 0 0).
  block_v6 (hextets 0x2001 0xdb8 0) (hextets 0x2001 0xdb9 0).
  block_v6 (hextets 0x3fff 0 0) (hextets 0x3fff 0x1000 0).
  block_v6 (hextets 0x2001 2 0) (hextets 0x2001 2 1).
  block_v6 (hextets 0x100 0 0) (hextets 0x100 0 0 + 2 ^ 64).
  block_v6 (hextets 0x64 0xff9b 1) (hextets 0x64 0xff9b 2).
  block_v6 (hextets 0x2001 0 0) (hextets 0x2001 0x200 0).
  block_v6 (hextets 0x2002 0 0) (hextets 0x2003 0 0).
  block_v6 (hextets 0x5f00 0 0) (hextets 0x5f01 0 0).
  block_v6 (hextets 0x2000 0 0) (hextets 0x4000 0 0).
  reflexivity.
Qed.

Ltac hex := unfold v6_public, v6_table, hextets in *; simpl in *.

Lemma v6_table_public v : v6_table v = Public ↔ v6_public v.
Proof.
  split.
  - intros H. hex. repeat case_match; try done. lia.
  - intros H. hex. repeat case_match; try done; lia.
Qed.

(** The addresses public-internet policy may reach. *)
Definition globally_routable (a : IpAddr) : Prop :=
  match a with
  | V4 v => ∀ c, ¬ v4_block c v
  | V6 v =>
      (∃ m, 0 ≤ m < 2 ^ 32 ∧ v = 0xFFFF * 2 ^ 32 + m ∧ ∀ c, ¬ v4_block c m)
      ∨ v6_public v
  end.

Definition addr_in_range (a : IpAddr) : Prop :=
  match a with V4 v => 0 ≤ v < 2 ^ 32 | V6 v => 0 ≤ v < 2 ^ 128 end.

Lemma classify_v4_public v :
  0 ≤ v < 2 ^ 32 → classify_ipv4 v = Public ↔ ∀ c, ¬ v4_block c v.
Proof.
  intros Hv. rewrite classify_ipv4_table by done. split.
  - intros H c Hc. pose proof (v4_block_table _ _ Hc) as E. rewrite H in E. by subst c.
  - intros H. destruct (v4_table_block v) as [E|E]; [done|by apply H in E].
Qed.

Lemma classify_ip_routable a :
  addr_in_range a → classify_ip a = Public ↔ globally_routable a.
Proof.
  destruct a as [v|v]; simpl; intros Hv; [by apply classify_v4_public|].
  destruct (to_ipv4_mapped v) as [m|] eqn:E.
  - unfold classify_ipv6. rewrite E. apply to_ipv4_mapped_Some in E as [Hm ->]; [|done].
    rewrite classify_v4_public by done. split; [eauto|]. intros [(m' & ? & ? & H)|H].
    + by replace m with m' by lia.
    + hex. lia.
  - rewrite classify_ipv6_table, v6_table_public by done. split; [auto|].
    intros [(m & Hm & -> & _)|H]; [|done].
    apply eq_None_not_Some in E as []. exists m. apply to_ipv4_mapped_Some; lia.
Qed.

(** C38: [classify_ip] calls an address public exactly when it is globally routable
    unicast: outside every special-purpose IPv4 block, or in the IPv6 global
    unicast space less its special-purpose blocks, or an IPv4-mapped address whose
    embedded IPv4 address is public. *)
Theorem classify_ip_public a :
  addr_in_range a → is_public (classify_ip a) = true ↔ globally_routable a.
Proof.
  intros Ha. rewrite <- classify_ip_routable by done.
  destruct (classify_ip a); simpl; naive_solver.
Qed.

Lemma classify_ip_public_witness :
  addr_in_range (V6 (0xFFFF * 2 ^ 32 + quad 127 0 0 1)) ∧
  ¬ globally_routable (V6 (0xFFFF * 2 ^ 32 + quad 127 0 0 1)).
Proof.
  assert (addr_in_range (V6 (0xFFFF * 2 ^ 32 + quad 127 0 0 1))) as H
    by (vm_compute; split; congruence).
  split; [exact H|].
  intros E%classify_ip_public; [|exact H]. vm_compute in E. discriminate.
Defined.

(** ** Special-use names *)

Definition is_letter (c : char) : bool := is_ascii_upper c || is_ascii_lower c.

(** [x] ends in [b], at the start of the name or after a dot. *)
Definition labelled (b x : str) : Prop :=
  ∃ a, x = a ++ b ∧ (a = [] ∨ last a = Some 46%N).

Lemma labelled_drop_while f b x :
  f 46%N = false → (∀ c, head b = Some c → f c = false) →
  labelled b x → labelled b (drop_while f x).
Proof.
  intros Hf Hb (a & -> & Ha). induction a as [|c a IH]; simpl.
  { exists []. simpl. rewrite drop_while_id by done. auto. }
  destruct (f c) eqn:E; [|exists (c :: a); auto].
  apply IH. destruct Ha as [?|Ha]; [done|]. destruct a; [simpl in *; congruence|by right].
Qed.

Lemma ascii_lower_letter c d : ascii_lower c = d → is_ascii_lower d = true → is_letter c = true.
Proof.
  unfold ascii_lower, is_letter, is_ascii_upper, is_ascii_lower.
  intros <-. case_if; [done|]. intros ->. done.
Qed.

Lemma letter_plain c :
  is_letter c = true →
  is_whitespace c = false ∧ c ≠ 91%N ∧ c ≠ 93%N ∧ c ≠ 46%N.
Proof.
  unfold is_letter, is_ascii_upper, is_ascii_lower, is_whitespace. intros H.
  split_and!; [|intros ->; done..].
  rewrite orb_true_iff, !andb_true_iff, !N.leb_le in H.
  rewrite !orb_false_iff, !andb_false_iff, !N.eqb_neq, !N.leb_gt. lia.
Qed.

Lemma special_suffix_ends s c :
  s ∈ SPECIAL_SUFFIXES → head s = Some c ∨ last s = Some c → is_ascii_lower c = true.
Proof.
  intros Hs. assert (Forall (λ s, from_option is_ascii_lower true (head s) = true
    ∧ from_option is_ascii_lower true (last s) = true) SPECIAL_SUFFIXES) as H.
  { unfold SPECIAL_SUFFIXES. repeat constructor. }
  rewrite Forall_forall in H. destruct (H s Hs) as [H1 H2].
  intros [E|E]; rewrite E in *; done.
Qed.

Lemma drop_while_replicate f c n s : f c = true → drop_while f (replicate n c ++ s) = drop_while f s.
Proof. intros H. induction n; simpl; [done|]. by rewrite H. Qed.

Lemma has_special_suffix_labelled s x :
  s ∈ SPECIAL_SUFFIXES → labelled s x → has_special_suffix x = true.
Proof.
  intros Hs (a & -> & Ha). unfold has_special_suffix. apply existsb_exists.
  exists s. split; [by apply list_elem_of_In|]. apply orb_true_iff.
  destruct Ha as [->|Ha]; [left; by apply str_eqb_eq|right].
  rewrite (proj2 (strip_suffix_Some s (a ++ s) a) eq_refl).
  apply ends_with_true. apply last_Some in Ha as [r ->]. by exists r.
Qed.

Lemma last_lowercase s : last (to_ascii_lowercase s) = ascii_lower <$> last s.
Proof. apply (fmap_last ascii_lower). Qed.

(** A name whose last labels are special-use normalizes to such a name. *)
Lemma normalize_special t s a n :
  s ∈ SPECIAL_SUFFIXES → to_ascii_lowercase t = s → (a = [] ∨ last a = Some 46%N) →
  labelled s (normalize_hostname (a ++ t ++ replicate n 46%N)).
Proof.
  intros Hs Ht Ha. set (b := t ++ replicate n 46%N).
  assert (∀ c, head t = Some c ∨ last t = Some c → is_letter c = true) as Hl.
  { intros c Hc. apply (ascii_lower_letter _ (ascii_lower c)); [done|].
    apply (special_suffix_ends s); [done|]. subst s.
    destruct Hc as [Hc|Hc]; [left|right].
    - destruct t; naive_solver.
    - by rewrite last_lowercase, Hc. }
  assert (t ≠ []) as Hne. { intros ->. subst s. apply (bool_decide_eq_true_2 _) in Hs. done. }
  assert (∀ c, head b = Some c → is_letter c = true) as Hhead.
  { intros c Hc. apply Hl. left. subst b. by destruct t. }
  assert (∀ x, labelled b x → ∀ c, last x = Some c → is_letter c = true ∨ c = 46%N) as Hlast.
  { intros x (p & -> & _) c. subst b. destruct n as [|n].
    - cbn [replicate]. rewrite app_nil_r, last_app. destruct (last t) eqn:Et; [|by apply last_None in Et].
      intros [= <-]. left. apply Hl. auto.
    - rewrite replicate_S_end, !app_assoc, last_snoc. intros [= <-]. by right. }
  assert (labelled b (a ++ b)) as L0 by (exists a; auto).
  unfold normalize_hostname, trim, trim_start, trim_end, trim_start_matches.
  assert (labelled b (drop_while is_whitespace (a ++ b))) as L1.
  { apply labelled_drop_while; [done| |done]. intros c Hc. by apply letter_plain, Hhead. }
  rewrite (trim_end_matches_id is_whitespace); cycle 1.
  { intros c Hc. destruct (Hlast _ L1 c Hc) as [H| ->]; [by apply letter_plain|done]. }
  assert (labelled b (drop_while (N.eqb 91) (drop_while is_whitespace (a ++ b)))) as L2.
  { apply labelled_drop_while; [done| |done]. intros c Hc%Hhead%letter_plain.
    apply N.eqb_neq. naive_solver. }
  rewrite (trim_end_matches_id (N.eqb 93)); cycle 1.
  { intros c Hc. destruct (Hlast _ L2 c Hc) as [H| ->]; [|done].
    apply letter_plain in H. apply N.eqb_neq. naive_solver. }
  destruct L2 as (p & -> & Hp). exists (to_ascii_lowercase p). subst b.
  unfold trim_end_matches. rewrite !reverse_app, reverse_replicate, <- !app_assoc.
  rewrite drop_while_replicate by done. rewrite drop_while_id.
  - rewrite reverse_app, !reverse_involutive. unfold to_ascii_lowercase at 1.
    rewrite map_app. split; [by subst s|]. destruct Hp as [->|Hp]; [by left|right].
    by rewrite last_lowercase, Hp.
  - intros c Hc. destruct (reverse t) as [|d r] eqn:E.
    { apply (f_equal reverse) in E. by rewrite reverse_involutive in E. }
    simpl in Hc. injection Hc as ->. assert (last t = Some c) as Hc.
    { by rewrite <- (reverse_involutive t), E, last_reverse. }
    destruct (letter_plain c) as (_ & _ & _ & H); [by apply Hl; right|].
    apply N.eqb_neq. congruence.
Qed.

(** A special-use name, or any name below one, in any ASCII case and with any
    number of trailing dots, is never classified as a public name. *)
Theorem special_names_never_public s t a n :
  s ∈ SPECIAL_SUFFIXES → to_ascii_lowercase t = s → (a = [] ∨ last a = Some 46%N) →
  classify_hostname (a ++ t ++ replicate n 46%N) ≠ PublicName.
Proof.
  intros Hs Ht Ha. pose proof (normalize_special t s a n Hs Ht Ha) as L.
  unfold classify_hostname. rewrite (has_special_suffix_labelled s _ Hs L).
  destruct (normalize_hostname _); [done|]. by destruct (parse_ip _).
Qed.

Lemma special_names_never_public_witness :
  classify_hostname (lit "db." ++ lit "LocalHost" ++ replicate 2 46%N) = SpecialUseName ∧
  classify_hostname (lit "db." ++ lit "LocalHost" ++ replicate 2 46%N) ≠ PublicName.
Proof.
  split; [vm_compute; reflexivity|].
  apply (special_names_never_public (lit "localhost")); [|reflexivity|right; reflexivity].
  unfold SPECIAL_SUFFIXES. left.
Defined.

(** ** Parsed addresses fit their width *)
Section parser_range.
Import IpParser.

Lemma digit_value_range radix c d : digit_value radix c = Some d → 0 ≤ d < radix.
Proof.
  unfold digit_value. destruct (_ <? radix) eqn:E; [|done]. apply Z.ltb_lt in E.
  intros [= <-]. split; [|done]. clear E. repeat case_if; lia.
Qed.

Lemma read_digits_nonneg radix m n acc s n' v r :
  0 ≤ acc → 0 < radix → read_digits radix m n acc s = Some (n', v, r) → 0 ≤ v.
Proof.
  revert n acc. induction s as [|c s IH]; intros n acc Hacc Hr; simpl; [by intros [= <- <- <-]|].
  destruct (digit_value radix c) as [d|] eqn:Ed; [|intros [= <- <- <-]; done].
  case_if; [done|]. apply digit_value_range in Ed. apply IH; nia.
Qed.

Lemma read_number_range radix max m z s v r :
  0 < radix → read_number radix max m z s = Some (v, r) → 0 ≤ v ≤ max.
Proof.
  unfold read_number. intros Hr. destruct (read_digits _ _ _ _ _) as [[[n v'] r']|] eqn:E; [|done].
  apply read_digits_nonneg in E; [|lia|done]. case_if; [done|]. case_if; [done|].
  intros [= -> ->]. apply orb_false_iff in Heqb as [_ Hle]. lia.
Qed.

Lemma read_separator_inner {A} sep i (inner : str → option (A * str)) s a r :
  read_separator sep i inner s = Some (a, r) → ∃ s', inner s' = Some (a, r).
Proof.
  unfold read_separator. case_if; [|eauto]. intros (s' & _ & H)%bind_Some. eauto.
Qed.

Lemma read_ipv4_groups_range n i acc k s v r :
  0 ≤ k → 0 ≤ acc < 256 ^ k → read_ipv4_groups n i acc s = Some (v, r) →
  0 ≤ v < 256 ^ (k + Z.of_nat n).
Proof.
  revert i acc k s. induction n as [|n IH]; intros i acc k s Hk Hacc; simpl.
  - intros [= <- <-]. by rewrite Z.add_0_r.
  - intros ([g s'] & H1 & H2)%bind_Some.
    apply read_separator_inner in H1 as [s'' H1]. apply read_number_range in H1; [|lia].
    apply (IH _ _ (k + 1)) in H2; [|lia|].
    + by replace (k + Z.of_nat (S n)) with (k + 1 + Z.of_nat n) by lia.
    + rewrite Z.pow_add_r by lia. lia.
Qed.

Lemma read_ipv4_range s v r : read_ipv4_addr s = Some (v, r) → 0 ≤ v < 2 ^ 32.
Proof. intros H. by apply (read_ipv4_groups_range 4 0 0 0) in H. Qed.

Definition group_ok (g : Z) : Prop := 0 ≤ g < 65536.

Lemma read_groups_range n i acc s hd b r :
  Forall group_ok acc → read_groups n i acc s = (hd, b, r) →
  Forall group_ok hd ∧ (length hd ≤ length acc + n)%nat.
Proof.
  revert i acc s. induction n as [|n IH]; intros i acc s Hacc; cbn [read_groups].
  { intros [= <- <- <-]. split; [done|lia]. }
  destruct (if (0 <? n)%nat then _ else _) as [[a s']|] eqn:E4.
  - intros [= <- <- <-]. destruct n as [|n]; [done|]. simpl in E4.
    apply read_separator_inner in E4 as [s'' E4]. apply read_ipv4_range in E4.
    split; [|rewrite length_app; simpl; lia].
    apply Forall_app. split; [done|]. unfold group_ok. change 0xFFFF with (Z.ones 16).
    rewrite Z.land_ones, Z.shiftr_div_pow2 by lia.
    pose proof (Z.mod_pos_bound a (2 ^ 16)).
    constructor; [|constructor; [lia|constructor]].
    split; [apply Z.div_pos; lia|apply Z.div_lt_upper_bound; lia].
  - destruct (read_separator _ _ (read_number _ _ _ _) _) as [[g s']|] eqn:Eg.
    + apply read_separator_inner in Eg as [s'' Eg]. apply read_number_range in Eg; [|lia].
      intros H. apply IH in H as [H1 H2].
      * rewrite length_app in H2. simpl in H2. split; [done|lia].
      * apply Forall_app. split; [done|]. unfold group_ok. constructor; [lia|done].
    + intros [= <- <- <-]. split; [done|lia].
Qed.

Lemma of_segments_range gs : Forall group_ok gs → 0 ≤ of_segments gs < 65536 ^ Z.of_nat (length gs).
Proof.
  unfold of_segments. induction gs as [|g gs IH] using rev_ind; [done|].
  intros [Hgs Hg]%Forall_app. apply Forall_cons in Hg as [Hg _]. rewrite foldl_app, length_app.
  cbn [foldl length]. specialize (IH Hgs). unfold group_ok in Hg.
  rewrite Nat2Z.inj_add, Z.pow_add_r by lia. change (65536 ^ Z.of_nat 1) with 65536. lia.
Qed.

Lemma read_ipv6_range s v r : read_ipv6_addr s = Some (v, r) → 0 ≤ v < 2 ^ 128.
Proof.
  unfold read_ipv6_addr. change (2 ^ 128) with (65536 ^ Z.of_nat 8).
  destruct (read_groups 8 0 [] s) as [[hd b] s1] eqn:E1.
  apply read_groups_range in E1 as [Hhd Hlen]; [|done]. cbn [length] in Hlen.
  destruct (Nat.eqb_spec (length hd) 8) as [H8|H8].
  { intros [= <- <-]. rewrite <- H8. by apply of_segments_range. }
  destruct b; [done|]. intros (s2 & _ & (s3 & _ & H)%bind_Some)%bind_Some.
  destruct (read_groups (8 - (length hd + 1)) 0 [] s3) as [[tl b'] s4] eqn:E2.
  apply read_groups_range in E2 as [Htl Htlen]; [|done]. cbn [length] in Htlen.
  injection H as <- <-.
  set (gs := hd ++ replicate (8 - length hd - length tl) 0 ++ tl).
  assert (length gs = 8%nat) as Hgs.
  { unfold gs. rewrite !length_app, length_replicate. lia. }
  rewrite <- Hgs. apply of_segments_range. apply Forall_app. split; [done|].
  apply Forall_app. split; [|done]. apply Forall_replicate. unfold group_ok. lia.
Qed.

End parser_range.

Lemma parse_ip_in_range s a : parse_ip s = Some a → addr_in_range a.
Proof.
  unfold parse_ip, IpParser.parse, IpParser.read_ip_addr.
  destruct (IpParser.read_ipv4_addr s) as [[v r]|] eqn:E4.
  - destruct r; [|done]. intros [= <-]. by eapply read_ipv4_range.
  - destruct (IpParser.read_ipv6_addr s) as [[v r]|] eqn:E6; simpl; [|done].
    destruct r; [|done]. intros [= <-]. by eapply read_ipv6_range.
Qed.
#[export] Hint Resolve parse_ip_in_range : rust.
