(* ===== verification/NetPolicy.v ===== *)
(** * URL policy: [crates/net/src/policy.rs]

    The [url] crate is the class [UrlLib]: its parser, its join and the accessors
    the code reads.  Nothing is assumed of them here. *)

From S2P Require Import Prelude NetAddress.

(** [url::Host]. *)
Inductive Host : Type :=
| Domain (name : str)
| Ipv4 (address : Z)
| Ipv6 (address : Z).

#[export] Instance Host_eq_dec : EqDecision Host.
Proof. solve_decision. Defined.

(** [url::Url] and the parts of its interface the program calls. *)
Class UrlLib := {
  Url : Type;
  url_eq_dec :: EqDecision Url;
  url_parse : str → option Url;
  url_join : Url → str → option Url;
  url_scheme : Url → str;
  url_host : Url → option Host;
  url_host_str : Url → option str;
  url_username : Url → str;
  url_password : Url → option str;
  url_as_str : Url → str;
  url_port_or_known_default : Url → option N;
}.

(** [OperatorConfiguredPolicy]. *)
Record OperatorConfiguredPolicy := {
  allow_non_public_ips : bool;
  allow_special_use_names : bool;
  allow_url_credentials : bool;
}.

Inductive UrlPolicy : Type :=
| PublicInternet
| OperatorConfigured (options : OperatorConfiguredPolicy).

Inductive UrlPolicyError : Type :=
| InvalidUrl (value : str)
| UnsupportedScheme
| CredentialsNotAllowed
| MissingHost
| SpecialUseHostname (host : str)
| NonPublicIp (address : IpAddr) (classification : IpClassification).

#[export] Instance UrlPolicyError_eq_dec : EqDecision UrlPolicyError.
Proof. solve_decision. Defined.

Definition operator_options (p : UrlPolicy) : OperatorConfiguredPolicy :=
  match p with
  | PublicInternet =>
      {| allow_non_public_ips := false; allow_special_use_names := false;
         allow_url_credentials := false |}
  | OperatorConfigured options => options
  end.

Definition validate_classified_ip (p : UrlPolicy) (address : IpAddr)
    (classification : IpClassification) : Result unit UrlPolicyError :=
  if is_public classification || allow_non_public_ips (operator_options p) then Ok ()
  else Err (NonPublicIp address classification).

Definition validate_ip (p : UrlPolicy) (address : IpAddr) : Result unit UrlPolicyError :=
  validate_classified_ip p address (classify_ip address).

(** The authority of [scheme://authority/...]: up to a slash, question mark or hash. *)
Definition ends_authority (c : char) : bool := contains_char c (lit "/?#").
Definition authority_of (rest : str) : str := take_while (fun c => negb (ends_authority c)) rest.

Definition has_at (authority : option str) : bool :=
  match authority with Some a => contains_char 64%N (authority_of a) | None => false end.

Definition raw_value_has_userinfo (value : str) : bool :=
  let value := trim value in
  has_at
    (match strip_prefix (lit "//") value with
     | Some rest => Some rest
     | None => snd <$> split_once (lit "://") value
     end).

Section policy.
Context `{UrlLib}.

Definition has_userinfo (url : Url) : bool :=
  if negb (bool_decide (url_username url = [])) || bool_decide (is_Some (url_password url))
  then true
  else has_at (snd <$> split_once (lit "://") (url_as_str url)).

Definition validate_host (p : UrlPolicy) (host : Host) : Result unit UrlPolicyError :=
  match host with
  | Domain host =>
      match classify_hostname host with
      | PublicName => Ok ()
      | SpecialUseName =>
          if allow_special_use_names (operator_options p) then Ok ()
          else Err (SpecialUseHostname host)
      | Ip classification =>
          match parse_ip host with
          | Some address => validate_classified_ip p address classification
          | None => Err MissingHost
          end
      | Invalid => Err MissingHost
      end
  | Ipv4 address => validate_classified_ip p (V4 address) (classify_ip (V4 address))
  | Ipv6 address => validate_classified_ip p (V6 address) (classify_ip (V6 address))
  end.

Definition is_http (scheme : str) : bool :=
  str_eqb scheme (lit "http") || str_eqb scheme (lit "https").

Definition validate_url (p : UrlPolicy) (url : Url) : Result unit UrlPolicyError :=
  if negb (is_http (url_scheme url)) then Err UnsupportedScheme
  else if has_userinfo url && negb (allow_url_credentials (operator_options p))
  then Err CredentialsNotAllowed
  else
    (let? host := ok_or (url_host url) MissingHost in validate_host p host)%W.

Definition resolve_value (value : str) (base : option Url) : option Url :=
  match base with
  | Some base => url_join base value
  | None => url_parse value
  end.

Definition parse_url (p : UrlPolicy) (value : str) (base : option Url) :
    Result Url UrlPolicyError :=
  if raw_value_has_userinfo value && negb (allow_url_credentials (operator_options p))
  then Err CredentialsNotAllowed
  else
    (let? url := ok_or (resolve_value value base) (InvalidUrl value) in
     let? _ := validate_url p url in
     Ok url)%W.

End policy.

(** ** What a policy permits *)

(** What a policy may except from its rules; only an operator's policy grants any, each by the
    option of its name. *)
Inductive Exception : Type := NonPublicAddresses | SpecialUseNames | Credentials.

Inductive granted : UrlPolicy → Exception → Prop :=
| GrantedAddresses names credentials :
    granted (OperatorConfigured (Build_OperatorConfiguredPolicy true names credentials)) NonPublicAddresses
| GrantedNames addresses credentials :
    granted (OperatorConfigured (Build_OperatorConfiguredPolicy addresses true credentials)) SpecialUseNames
| GrantedCredentials addresses names :
    granted (OperatorConfigured (Build_OperatorConfiguredPolicy addresses names true)) Credentials.

(** An address a policy lets a connection reach. *)
Definition permits_ip (p : UrlPolicy) (a : IpAddr) : Prop :=
  globally_routable a ∨ granted p NonPublicAddresses.

(** The names that stand for no place of the public internet, and those below them. *)
Inductive special_use : str → Prop :=
| UseLocalhost : special_use (lit "localhost")
| UseLocal : special_use (lit "local")
| UseLocaldomain : special_use (lit "localdomain")
| UseLan : special_use (lit "lan")
| UseHomeArpa : special_use (lit "home.arpa")
| UseTest : special_use (lit "test")
| UseInvalid : special_use (lit "invalid")
| UseExample : special_use (lit "example").

Definition special_name (x : str) : Prop := ∃ s, special_use s ∧ labelled s x.

(** [s'] is [s] without the characters [c] it begins with, and without those it ends in. *)
Definition strips_start (c : char) (s s' : str) : Prop :=
  ∃ n, s = replicate n c ++ s' ∧ head s' ≠ Some c.
Definition strips_end (c : char) (s s' : str) : Prop :=
  ∃ n, s = s' ++ replicate n c ∧ last s' ≠ Some c.

(** A host name without white space around it, brackets and final dots, in lower case. *)
Definition bare_host (name x : str) : Prop :=
  ∃ s1 s2 s3, strips_start 91%N (trim name) s1 ∧ strips_end 93%N s1 s2 ∧
    strips_end 46%N s2 s3 ∧ x = to_ascii_lowercase s3.

Definition permits_host (p : UrlPolicy) (h : Host) : Prop :=
  match h with
  | Domain name => ∃ x, bare_host name x ∧ x ≠ [] ∧
      match parse_ip x with
      | Some a => is_Some (parse_ip name) ∧ permits_ip p a
      | None => special_name x → granted p SpecialUseNames
      end
  | Ipv4 a => permits_ip p (V4 a)
  | Ipv6 a => permits_ip p (V6 a)
  end.

(** What follows the first [://] of a text. *)
Definition after_scheme (text rest : str) : Prop :=
  ∃ scheme, text = scheme ++ lit "://" ++ rest ∧
    ∀ a b, text = a ++ lit "://" ++ b → length scheme ≤ length a.

(** It has an at-sign before its first slash, question mark or hash. *)
Definition names_user (rest : str) : Prop :=
  ∃ user host, rest = user ++ 64%N :: host ∧ ∀ c, c ∈ user → c ∉ lit "/?#".

(** Userinfo as it is spelled, in a value that may begin at its authority. *)
Definition spells_userinfo (value : str) : Prop :=
  ∃ rest, names_user rest ∧
    (trim value = lit "//" ++ rest ∨
     (∀ r, trim value ≠ lit "//" ++ r) ∧ after_scheme (trim value) rest).

(** The addresses of the [url] crate fit their widths. *)
Definition host_in_range (h : Host) : Prop :=
  match h with
  | Domain _ => True
  | Ipv4 a => addr_in_range (V4 a)
  | Ipv6 a => addr_in_range (V6 a)
  end.

Lemma contains_char_In c s : contains_char c s = true ↔ c ∈ s.
Proof.
  unfold contains_char. rewrite existsb_exists. setoid_rewrite list_elem_of_In.
  setoid_rewrite N.eqb_eq. naive_solver.
Qed.

Lemma granted_ok p :
  (granted p NonPublicAddresses ↔ allow_non_public_ips (operator_options p) = true) ∧
  (granted p SpecialUseNames ↔ allow_special_use_names (operator_options p) = true) ∧
  (granted p Credentials ↔ allow_url_credentials (operator_options p) = true).
Proof.
  destruct p as [|[addresses names credentials]]; simpl; split_and!; split; try (by inversion 1);
    try (by intros ->; constructor); done.
Qed.

Lemma drop_while_strips c s s' : drop_while (N.eqb c) s = s' ↔ strips_start c s s'.
Proof.
  split.
  - intros <-. destruct (drop_while_suffix (N.eqb c) s) as (pre & Hs & Hp).
    exists (length pre). split.
    + rewrite Hs at 1. f_equal. clear Hs. induction Hp as [|d pre ->%N.eqb_eq _ IH]; simpl; congruence.
    + intros Hh. destruct (drop_while _ s) as [|d r] eqn:E; [done|]. injection Hh as ->.
      apply drop_while_head in E. by rewrite N.eqb_refl in E.
  - intros (n & -> & Hh). rewrite drop_while_replicate by apply N.eqb_refl.
    apply drop_while_id. intros d Hd. apply N.eqb_neq. congruence.
Qed.

Lemma trim_end_strips c s s' : trim_end_matches (N.eqb c) s = s' ↔ strips_end c s s'.
Proof.
  unfold trim_end_matches. transitivity (strips_start c (reverse s) (reverse s')).
  - rewrite <- drop_while_strips. split; [|intros ->; apply reverse_involutive].
    intros <-. by rewrite reverse_involutive.
  - unfold strips_start, strips_end. rewrite head_reverse. f_equiv. intros n.
    split; (intros [E ?]; split; [|done]).
    + apply (f_equal reverse) in E. by rewrite reverse_app, !reverse_involutive, reverse_replicate in E.
    + by rewrite E, reverse_app, reverse_replicate.
Qed.

Lemma normalize_bare name x : normalize_hostname name = x ↔ bare_host name x.
Proof.
  unfold normalize_hostname, bare_host, trim_start_matches. split.
  - intros <-. eexists _, _, _. split_and!; [by apply drop_while_strips|by apply trim_end_strips..|done].
  - by intros (s1 & s2 & s3 & <-%drop_while_strips & <-%trim_end_strips & <-%trim_end_strips & ->).
Qed.

Lemma special_use_ok s : s ∈ SPECIAL_SUFFIXES ↔ special_use s.
Proof. unfold SPECIAL_SUFFIXES. listed_names. Qed.

Lemma special_name_ok x : has_special_suffix x = true ↔ special_name x.
Proof.
  split.
  - intros (s & Hs%list_elem_of_In & H)%existsb_exists. exists s. split; [by apply special_use_ok|].
    apply orb_true_iff in H as [->%str_eqb_eq|H]; [by exists []; split; [|left]|].
    destruct (strip_suffix s x) as [a|] eqn:E; [|done]. apply strip_suffix_Some in E as ->.
    exists a. split; [done|right]. apply ends_with_true in H as [r ->]. apply last_snoc.
  - intros (s & Hs & H). by apply (has_special_suffix_labelled s); [apply special_use_ok|].
Qed.

Lemma has_at_ok rest : has_at (Some rest) = true ↔ names_user rest.
Proof.
  unfold has_at, authority_of, names_user. rewrite contains_char_In.
  induction rest as [|c rest IH]; simpl.
  { rewrite elem_of_nil. split; [done|]. by intros ([] & ? & ? & _). }
  assert (∀ c, ends_authority c = true ↔ c ∈ lit "/?#") as He.
  { intros d. apply contains_char_In. }
  destruct (ends_authority c) eqn:E; simpl.
  - rewrite elem_of_nil. split; [done|]. intros ([|d user] & host & [= -> Hr] & Hu).
    + by vm_compute in E.
    + exfalso. apply (Hu d); [by left|]. by apply He.
  - rewrite elem_of_cons, IH. split.
    + intros [<-|(user & host & -> & Hu)]; [exists [], rest; split; [done|set_solver]|].
      exists (c :: user), host. split; [done|]. intros d [->|Hd]%elem_of_cons; [|by apply Hu].
      rewrite <- He. congruence.
    + intros ([|d user] & host & [= -> ->] & Hu); [by left|right].
      exists user, host. split; [done|]. intros d' Hd. apply Hu. by right.
Qed.

Lemma after_scheme_ok text rest : snd <$> split_once (lit "://") text = Some rest ↔ after_scheme text rest.
Proof.
  unfold split_once, after_scheme. split.
  - intros ([a b] & (i & Hi & E)%fmap_Some & ->)%fmap_Some. injection E as -> ->.
    apply find_str_Some in Hi as (H1 & Hi & Hj). apply starts_with_true in H1 as [r Hr].
    exists (take i text). split.
    + rewrite <- (take_drop i text) at 1. rewrite <- drop_drop, Hr. f_equal.
    + intros a b E. rewrite length_take, Nat.min_l by lia. apply Nat.nlt_ge. intros Hlt.
      specialize (Hj _ Hlt). rewrite E, drop_app_length, starts_with_app in Hj. done.
  - intros (scheme & E & Hf).
    assert (find_str (lit "://") text = Some (length scheme)) as ->.
    { apply find_str_Some. rewrite E at 1 2. rewrite drop_app_length, starts_with_app, length_app.
      split_and!; [done|lia|]. intros j Hj. apply not_true_iff_false. intros [r Hr]%starts_with_true.
      specialize (Hf (take j text) r). rewrite length_take in Hf.
      enough (length scheme ≤ j `min` length text) by lia. apply Hf. rewrite <- Hr. symmetry. apply take_drop. }
    simpl. f_equal. rewrite E. rewrite (app_assoc scheme). apply drop_app_length'. by rewrite length_app.
Qed.

Lemma spells_userinfo_ok value : raw_value_has_userinfo value = true ↔ spells_userinfo value.
Proof.
  unfold raw_value_has_userinfo, spells_userinfo. cbv zeta.
  destruct (strip_prefix (lit "//") (trim value)) as [r|] eqn:E.
  - apply strip_prefix_Some in E. rewrite E, has_at_ok. split; [eauto|].
    intros (rest & Hn & [->%(inj _)|[H _]]); [done|by destruct (H r)].
  - assert (∀ r, trim value ≠ lit "//" ++ r) as Hno.
    { intros r Hr%strip_prefix_Some. congruence. }
    destruct (snd <$> split_once (lit "://") (trim value)) as [rest|] eqn:Es.
    + rewrite has_at_ok. split; [intros Hn; exists rest; split; [done|right; split; [done|by apply after_scheme_ok]]|].
      intros (rest' & Hn & [?|[_ H%after_scheme_ok]]); [by destruct (Hno rest')|]. congruence.
    + split; [done|]. intros (rest' & Hn & [?|[_ H%after_scheme_ok]]); [by destruct (Hno rest')|]. congruence.
Qed.

Section policy_theorems.
Context `{UrlLib}.

(** Userinfo of a parsed URL, which its text may spell although both parts are empty. *)
Definition carries_userinfo (u : Url) : Prop :=
  url_username u ≠ [] ∨ is_Some (url_password u) ∨
  ∃ rest, after_scheme (url_as_str u) rest ∧ names_user rest.

Definition permits_url (p : UrlPolicy) (u : Url) : Prop :=
  (url_scheme u = lit "http" ∨ url_scheme u = lit "https") ∧
  (carries_userinfo u → granted p Credentials) ∧
  ∃ h, url_host u = Some h ∧ permits_host p h.

Lemma carries_userinfo_ok u : has_userinfo u = true ↔ carries_userinfo u.
Proof.
  unfold has_userinfo, carries_userinfo.
  destruct (bool_decide_reflect (url_username u = [])) as [E|]; simpl; [|naive_solver].
  destruct (url_password u) as [w|]; simpl; [naive_solver|].
  transitivity (∃ rest, after_scheme (url_as_str u) rest ∧ names_user rest).
  - setoid_rewrite <- after_scheme_ok.
    destruct (snd <$> split_once (lit "://") (url_as_str u)) as [rest|]; [rewrite has_at_ok|simpl]; naive_solver.
  - split; [auto|]. intros [?|[[? ?]|?]]; done.
Qed.

Lemma validate_classified_ip_ok p a c :
  validate_classified_ip p a c = Ok () ↔ c = Public ∨ granted p NonPublicAddresses.
Proof.
  unfold validate_classified_ip. destruct (granted_ok p) as (-> & _ & _).
  destruct c, (allow_non_public_ips _); simpl; naive_solver.
Qed.

Lemma validate_ip_ok p a : addr_in_range a → validate_ip p a = Ok () ↔ permits_ip p a.
Proof.
  intros Ha. unfold validate_ip, permits_ip.
  by rewrite validate_classified_ip_ok, classify_ip_routable.
Qed.

Lemma validate_host_ok p h : host_in_range h → validate_host p h = Ok () ↔ permits_host p h.
Proof.
  destruct h as [name|a|a]; simpl; intros Hr.
  2:{ exact (validate_ip_ok p (V4 a) Hr). }
  2:{ exact (validate_ip_ok p (V6 a) Hr). }
  transitivity (normalize_hostname name ≠ [] ∧
    match parse_ip (normalize_hostname name) with
    | Some a => is_Some (parse_ip name) ∧ permits_ip p a
    | None => special_name (normalize_hostname name) → granted p SpecialUseNames
    end).
  - unfold classify_hostname. destruct (normalize_hostname name) as [|c x]; [by split; [|intros []]|].
    destruct (parse_ip (c :: x)) as [a|] eqn:Ea.
    + pose proof (parse_ip_in_range _ _ Ea) as Ha. unfold permits_ip.
      rewrite <- (classify_ip_routable a Ha). destruct (parse_ip name) as [b|]; [|by split; [|intros (_ & [? ?] & _)]].
      rewrite validate_classified_ip_ok. naive_solver.
    + destruct (granted_ok p) as (_ & -> & _). rewrite <- special_name_ok.
      destruct (has_special_suffix (c :: x)), (allow_special_use_names _); naive_solver.
  - split; [intros H'; exists (normalize_hostname name); split; [by apply normalize_bare|done]|].
    by intros (x & <-%normalize_bare & H').
Qed.

Lemma is_http_true s : is_http s = true ↔ s = lit "http" ∨ s = lit "https".
Proof. unfold is_http. by rewrite orb_true_iff, !str_eqb_eq. Qed.

Lemma validate_url_ok p u :
  (∀ h, url_host u = Some h → host_in_range h) → validate_url p u = Ok () ↔ permits_url p u.
Proof.
  intros Hr. unfold validate_url, permits_url. rewrite <- is_http_true, <- carries_userinfo_ok.
  destruct (granted_ok p) as (_ & _ & ->).
  assert ((∃ h, url_host u = Some h ∧ permits_host p h) ↔
          result_bind (ok_or (url_host u) MissingHost) (validate_host p) = Ok ()) as ->.
  { rewrite result_bind_ok. destruct (url_host u) as [h|]; simpl; [|naive_solver].
    specialize (Hr h eq_refl). pose proof (validate_host_ok p h Hr). naive_solver. }
  destruct (is_http _), (has_userinfo u), (allow_url_credentials _); simpl; naive_solver.
Qed.

(** C31: A URL policy accepts exactly the URLs it permits: HTTP or HTTPS; without userinfo, be
    it only spelled in the text, unless the operator grants credentials; and with a host that
    is an address, globally routable unless the operator grants others, or a name that is not
    empty and, unless the operator grants them, no special-use name or name below one, however
    it is cased, bracketed or dotted.  A value is parsed exactly when it resolves to a URL that
    is permitted and, unless credentials are granted, spells no userinfo itself.  Public
    internet policy grants nothing. *)
Theorem validate_url_decides p :
  (∀ u h, url_host u = Some h → host_in_range h) →
  (∀ u, validate_url p u = Ok () ↔ permits_url p u) ∧
  (∀ value base u, parse_url p value base = Ok u ↔
     resolve_value value base = Some u ∧ permits_url p u ∧
     (spells_userinfo value → granted p Credentials)).
Proof.
  intros Hr. split; [intros u; exact (validate_url_ok p u (Hr u))|]. intros value base u.
  rewrite <- (validate_url_ok p u (Hr u)), <- spells_userinfo_ok. destruct (granted_ok p) as (_ & _ & ->).
  unfold parse_url. destruct (raw_value_has_userinfo value), (allow_url_credentials _) eqn:E; simpl;
    [|by split; [|intros (_ & _ & Hu); specialize (Hu eq_refl)]|..];
    (destruct (resolve_value value base) as [u'|]; simpl; [|by split; [|intros []]]);
    destruct (validate_url p u') as [[]|] eqn:Ev; simpl; split;
    intros Hu; destruct_and?; simplify_eq; auto; congruence.
Qed.

(** Operator exceptions only add: what public-internet policy accepts, every
    operator-configured policy accepts. *)
Theorem public_internet_strictest o u :
  validate_url PublicInternet u = Ok () → validate_url (OperatorConfigured o) u = Ok ().
Proof.
  unfold validate_url. destruct (is_http _); simpl; [|done].
  destruct (has_userinfo u); simpl; [done|].
  destruct (url_host u) as [h|]; simpl; [|done].
  destruct h as [name|a|a]; simpl.
  1: destruct (classify_hostname name); try done; destruct (parse_ip name); [|done].
  all: rewrite !validate_classified_ip_ok; simpl; intros [?|Hg]; [by left|by inversion Hg].
Qed.

End policy_theorems.

Lemma take_while_app f a b : Forall (λ c, f c = true) a → take_while f (a ++ b) = a ++ take_while f b.
Proof. induction 1 as [|c a Hc _ IH]; simpl; [done|]. by rewrite Hc, IH. Qed.

Lemma authority_at user rest :
  Forall (λ c, ends_authority c = false) user →
  contains_char 64%N (authority_of (user ++ 64%N :: rest)) = true.
Proof.
  intros Hu. unfold authority_of. rewrite take_while_app.
  - apply contains_char_In. simpl. set_solver.
  - eapply Forall_impl; [exact Hu|]. by intros c ->.
Qed.

(** Trimming a text that has a plain character keeps everything before it. *)
Lemma trim_around ws a c b :
  Forall (λ c, is_whitespace c = true) ws →
  (∀ d, head (a ++ [c]) = Some d → is_whitespace d = false) → is_whitespace c = false →
  ∃ b', trim (ws ++ a ++ c :: b) = a ++ c :: b'.
Proof.
  intros Hws Ha Hc. unfold trim, trim_start, trim_start_matches.
  replace (drop_while is_whitespace (ws ++ a ++ c :: b)) with (a ++ c :: b).
  2:{ induction Hws as [|d ws Hd _ IH]; simpl; [|by rewrite Hd].
      rewrite drop_while_id; [done|]. intros d Hd. apply Ha. by destruct a. }
  unfold trim_end, trim_end_matches.
  replace (a ++ c :: b) with ((a ++ [c]) ++ b) by by rewrite <- app_assoc.
  rewrite reverse_app. destruct (drop_while_suffix is_whitespace (reverse b)) as (pre & Hb & Hpre).
  rewrite Hb, <- app_assoc. assert (∀ x y, Forall (λ c, is_whitespace c = true) x →
    drop_while is_whitespace (x ++ y) = drop_while is_whitespace y) as Hdrop.
  { intros x y. induction 1 as [|d x Hd _ IH]; simpl; [done|by rewrite Hd]. }
  rewrite Hdrop by done. rewrite drop_while_id.
  - exists (reverse (drop_while is_whitespace (reverse b))).
    rewrite reverse_app, reverse_involutive, <- app_assoc. done.
  - intros d. rewrite reverse_app. simpl.
    destruct (drop_while is_whitespace (reverse b)) as [|e r] eqn:E; simpl; intros [= <-]; [done|].
    by eapply drop_while_head.
Qed.

(** The first separator of [scheme://rest] follows the scheme. *)
Lemma split_once_scheme scheme rest :
  58%N ∉ scheme → split_once (lit "://") (scheme ++ lit "://" ++ rest) = Some (scheme, rest).
Proof.
  intros Hs. unfold split_once.
  assert (find_str (lit "://") (scheme ++ lit "://" ++ rest) = Some (length scheme)) as ->.
  - apply find_str_Some. split_and!.
    + rewrite drop_app_length. apply starts_with_app.
    + rewrite length_app. lia.
    + intros j Hj. apply not_true_iff_false. intros [r Hr]%starts_with_true.
      apply (f_equal head) in Hr. rewrite drop_app_le in Hr by lia.
      apply Hs. destruct (drop j scheme) as [|d t] eqn:E.
      { apply (f_equal length) in E. rewrite length_drop in E. simpl in E. lia. }
      simpl in Hr. injection Hr as ->.
      rewrite <- (take_drop j scheme), E. set_solver.
  - cbv [fmap option_fmap option_map]. f_equal. f_equal; [apply take_app_length|].
    rewrite (app_assoc scheme (lit "://") rest).
    apply drop_app_length'. by rewrite length_app.
Qed.

(** The scheme and colon before the slashes; a scheme-relative value has neither. *)
Definition scheme_part (scheme : str) : str :=
  match scheme with [] => [] | _ => scheme ++ lit ":" end.

(** A value of the form [scheme://authority...] or [//authority...] with an
    at-sign in its authority is refused by public-internet policy before it is
    parsed, whatever whitespace precedes it. *)
Theorem raw_userinfo_refused `{UrlLib} ws scheme user rest base :
  Forall (λ c, is_whitespace c = true) ws →
  Forall (λ c, is_ascii_lower c = true) scheme →
  Forall (λ c, ends_authority c = false) user →
  parse_url PublicInternet
    (ws ++ (scheme_part scheme ++ lit "//" ++ user) ++ 64%N :: rest) base
  = Err CredentialsNotAllowed.
Proof.
  intros Hws Hs Hu. unfold parse_url.
  destruct (trim_around ws (scheme_part scheme ++ lit "//" ++ user) 64%N rest)
    as [rest' Ht]; [done| |done|].
  { intros d. destruct scheme as [|e scheme]; simpl; [by intros [= <-]|].
    intros [= <-]. apply Forall_cons in Hs as [He _].
    apply letter_plain. unfold is_letter. by rewrite He, orb_true_r. }
  assert (raw_value_has_userinfo (ws ++ (scheme_part scheme ++ lit "//" ++ user) ++ 64%N :: rest)
          = true) as ->; [|done].
  unfold raw_value_has_userinfo. rewrite Ht. destruct scheme as [|e scheme].
  - change (has_at (Some (user ++ 64%N :: rest')) = true). by apply authority_at.
  - assert (58%N ∉ (e :: scheme)) as Hcolon.
    { intros Hin. rewrite Forall_forall in Hs. by specialize (Hs _ Hin). }
    replace ((scheme_part (e :: scheme) ++ lit "//" ++ user) ++ 64%N :: rest')
      with ((e :: scheme) ++ lit "://" ++ (user ++ 64%N :: rest'))
      by (unfold scheme_part; rewrite <- !app_assoc; done).
    assert (strip_prefix (lit "//") ((e :: scheme) ++ lit "://" ++ user ++ 64%N :: rest') = None) as ->.
    { apply Forall_cons in Hs as [He _]. change (lit "//") with [47; 47]%N.
      cbn [strip_prefix app]. by destruct (N.eqb_spec 47 e) as [<-|]. }
    rewrite split_once_scheme by done. by apply authority_at.
Qed.

(** ** A concrete URL library, for the examples

    [scheme://[user@]host[/rest]] with a name or an IPv4 literal as host. *)
Module ExampleUrl.

Record url := { scheme : str; user : str; host : str; text : str }.

#[export] Instance url_eq : EqDecision url.
Proof. solve_decision. Defined.

Definition parse (s : str) : option url :=
  '(sch, rest) ← split_once (lit "://") s;
  let authority := authority_of rest in
  Some match split_once_char 64%N authority with
       | Some (u, h) => {| scheme := sch; user := u; host := h; text := s |}
       | None => {| scheme := sch; user := []; host := authority; text := s |}
       end.

Definition join (base : url) (s : str) : option url :=
  match parse s with
  | Some u => Some u
  | None => parse (scheme base ++ lit "://" ++ host base ++ s)
  end.

Definition host_of (u : url) : option Host :=
  match host u with
  | [] => None
  | h => Some match parse_ip h with Some (V4 a) => Ipv4 a | Some (V6 a) => Ipv6 a | None => Domain h end
  end.

Definition port (u : url) : option N :=
  if str_eqb (scheme u) (lit "https") then Some 443%N
  else if str_eqb (scheme u) (lit "http") then Some 80%N else None.

Definition lib : UrlLib := {|
  Url := url; url_parse := parse; url_join := join; url_scheme := scheme;
  url_host := host_of; url_host_str u := Some (host u);
  url_username := user; url_password _ := None; url_as_str := text;
  url_port_or_known_default := port;
|}.

End ExampleUrl.

Definition example_private : ExampleUrl.url :=
  ExampleUrl.Build_url (lit "http") [] (lit "10.0.0.8") (lit "http://10.0.0.8/x").
Definition example_docs : ExampleUrl.url :=
  ExampleUrl.Build_url (lit "https") [] (lit "docs.rs") (lit "https://docs.rs/std").

Lemma example_hosts_in_range (u : ExampleUrl.url) h : ExampleUrl.host_of u = Some h → host_in_range h.
Proof.
  unfold ExampleUrl.host_of. destruct (ExampleUrl.host u) as [|c x]; [discriminate|].
  destruct (parse_ip (c :: x)) as [[a|a]|] eqn:E; intros [= <-]; [|apply (parse_ip_in_range _ _ E)|exact I].
  exact (parse_ip_in_range _ _ E).
Qed.

(** [http://10.0.0.8/x] is not permitted, [https://docs.rs/std] is parsed and permitted, and what
    has an empty user is refused. *)
Lemma validate_url_decides_witness :
  ¬ @permits_url ExampleUrl.lib PublicInternet example_private ∧
  @permits_url ExampleUrl.lib PublicInternet example_docs ∧
  ¬ (spells_userinfo (lit "https://@docs.rs/") → granted PublicInternet Credentials).
Proof.
  destruct (@validate_url_decides ExampleUrl.lib PublicInternet example_hosts_in_range) as [H1 H2].
  split; [|split].
  - intros Hp. apply H1 in Hp. vm_compute in Hp. discriminate.
  - assert (@parse_url ExampleUrl.lib PublicInternet (lit "https://docs.rs/std") None
      = Ok example_docs) as E by (vm_compute; reflexivity).
    apply H2 in E. apply E.
  - intros Hg. assert (spells_userinfo (lit "https://@docs.rs/")) as Hs
      by (apply spells_userinfo_ok; vm_compute; reflexivity).
    specialize (Hg Hs). inversion Hg.
Defined.

Lemma public_internet_strictest_witness :
  @validate_url ExampleUrl.lib
    (OperatorConfigured (Build_OperatorConfiguredPolicy false true false)) example_docs = Ok ().
Proof.
  assert (@validate_url ExampleUrl.lib PublicInternet example_docs = Ok ()) as E
    by (vm_compute; reflexivity).
  exact (@public_internet_strictest ExampleUrl.lib _ example_docs E).
Defined.

Lemma raw_userinfo_refused_witness :
  @parse_url ExampleUrl.lib PublicInternet
    (lit "  " ++ (scheme_part (lit "https") ++ lit "//" ++ lit "token") ++ 64%N :: lit "docs.rs/")
    None = Err CredentialsNotAllowed.
Proof.
  apply (@raw_userinfo_refused ExampleUrl.lib); repeat constructor.
Defined.
