(* ===== verification/NetProxy.v ===== *)
(** * Outbound proxy selection: [crates/net/src/proxy.rs]

    The proxy endpoint, the [NO_PROXY] rules and the per-hop route.  The prepared
    connector of [reqwest] is opaque. *)

From S2P Require Import Prelude NetAddress NetPolicy.

(** [reqwest::Proxy::all]. *)
Class ProxyLib `{UrlLib} := {
  Connector : Type;
  connector_for : Url → option Connector;
}.

Inductive ProxyConfigurationError : Type :=
| ProxyInvalidUrl
| ProxyUnsupportedScheme
| ProxyMissingHost
| InvalidBypassRule.

(** [AddressBlock]. *)
Record AddressBlock := { network : IpAddr; prefix : Z }.

(** [BypassRules]. *)
Record BypassRules := {
  wildcard : bool;
  domains : list str;
  addresses : list IpAddr;
  blocks : list AddressBlock;
}.

Definition BypassRules_default : BypassRules :=
  {| wildcard := false; domains := []; addresses := []; blocks := [] |}.

Definition unbracket (value : str) : str :=
  trim_end_matches (N.eqb 93) (trim_start_matches (N.eqb 91) value).

Definition masked_u128 (value prefix width : Z) : Z :=
  if (prefix =? 0)%Z then 0%Z else Z.land value (shl_max 128 (width - prefix)).

Definition block_parse (value : str) : option AddressBlock :=
  '(network, prefix) ← split_once (lit "/") value;
  network ← parse_ip (unbracket (trim network));
  prefix ← parse_unsigned U8_MAX (trim prefix);
  let width := match network with V4 _ => 32%N | V6 _ => 128%N end in
  if (prefix <=? width)%N then Some {| network := network; prefix := Z.of_N prefix |} else None.

Definition block_contains (b : AddressBlock) (address : IpAddr) : bool :=
  match network b, address with
  | V4 network, V4 address =>
      (masked_u128 network (prefix b) 32 =? masked_u128 address (prefix b) 32)%Z
  | V6 network, V6 address =>
      (masked_u128 network (prefix b) 128 =? masked_u128 address (prefix b) 128)%Z
  | _, _ => false
  end.

Definition STAR : str := lit "*".

Definition domain_rule (entry : str) : str :=
  to_ascii_lowercase (trim_end_matches (N.eqb 46) (trim_start_matches (N.eqb 46) entry)).

(** One entry of the loop of [BypassRules::parse]. *)
Definition bypass_entry (rules : BypassRules) (entry : str) :
    Result BypassRules ProxyConfigurationError :=
  let entry := trim entry in
  if bool_decide (entry = []) then Ok rules
  else if str_eqb entry STAR then
    Ok {| wildcard := true; domains := domains rules;
          addresses := addresses rules; blocks := blocks rules |}
  else if contains_char SLASH entry then
    (let? block := ok_or (block_parse entry) InvalidBypassRule in
     Ok {| wildcard := wildcard rules; domains := domains rules;
           addresses := addresses rules; blocks := blocks rules ++ [block] |})%W
  else
    match parse_ip (unbracket entry) with
    | Some address =>
        Ok {| wildcard := wildcard rules; domains := domains rules;
              addresses := addresses rules ++ [address]; blocks := blocks rules |}
    | None =>
        let domain := domain_rule entry in
        if bool_decide (domain = []) then Ok rules
        else Ok {| wildcard := wildcard rules; domains := domains rules ++ [domain];
                   addresses := addresses rules; blocks := blocks rules |}
    end.

Fixpoint bypass_entries (rules : BypassRules) (entries : list str) :
    Result BypassRules ProxyConfigurationError :=
  match entries with
  | [] => Ok rules
  | entry :: entries' =>
      (let? rules := bypass_entry rules entry in bypass_entries rules entries')%W
  end.

Definition bypass_parse (value : str) : Result (option BypassRules) ProxyConfigurationError :=
  (let? rules := bypass_entries BypassRules_default (split_on 44%N value) in
   if negb (wildcard rules) && bool_decide (domains rules = [])
      && bool_decide (addresses rules = []) && bool_decide (blocks rules = [])
   then Ok None else Ok (Some rules))%W.

Definition matches_address (rules : BypassRules) (address : IpAddr) : bool :=
  bool_decide (address ∈ addresses rules)
  || existsb (fun block => block_contains block address) (blocks rules).

Definition matches_domain (rule name : str) : bool :=
  str_eqb name rule || ends_with (46%N :: rule) name.

Definition rules_match (rules : BypassRules) (host : Host) : bool :=
  if wildcard rules then true
  else
    match host with
    | Domain name =>
        let name := to_ascii_lowercase (trim_end_matches (N.eqb 46) name) in
        existsb (fun rule => matches_domain rule name) (domains rules)
    | Ipv4 address => matches_address rules (V4 address)
    | Ipv6 address => matches_address rules (V6 address)
    end.

Section proxy.
Context `{UL : UrlLib} `{!ProxyLib}.

(** [ProxyEndpoint]: equality looks at the target and the credentials flag. *)
Record ProxyEndpoint := { target : str; authenticated : bool; proxy : Connector }.

Definition endpoint_eqb (a b : ProxyEndpoint) : bool :=
  str_eqb (target a) (target b) && eqb (authenticated a) (authenticated b).

Definition endpoint_parse (value : str) : Result ProxyEndpoint ProxyConfigurationError :=
  let trimmed := trim value in
  if bool_decide (trimmed = []) then Err ProxyInvalidUrl
  else
    let normalized :=
      if bool_decide (is_Some (find_str (lit "://") trimmed)) then trimmed
      else lit "http://" ++ trimmed in
    (let? url := ok_or (url_parse normalized) ProxyInvalidUrl in
     ensure is_http (url_scheme url) else ProxyUnsupportedScheme;
     let? host :=
       ok_or (match url_host_str url with
              | Some host => if bool_decide (host = []) then None else Some host
              | None => None
              end) ProxyMissingHost in
     let? port := ok_or (url_port_or_known_default url) ProxyMissingHost in
     let authenticated :=
       negb (bool_decide (url_username url = [])) || bool_decide (is_Some (url_password url)) in
     let target := url_scheme url ++ lit "://" ++ host ++ lit ":" ++ lit (pretty port) in
     let? proxy := ok_or (connector_for url) ProxyInvalidUrl in
     Ok {| target := target; authenticated := authenticated; proxy := proxy |})%W.

Inductive ProxyRoute : Type :=
| DirectRoute
| ViaProxy (endpoint : ProxyEndpoint).

(** [ProxyConfiguration]. *)
Record ProxyConfiguration := {
  proxy_http : option ProxyEndpoint;
  proxy_https : option ProxyEndpoint;
  bypass : option BypassRules;
}.

Definition direct : ProxyConfiguration :=
  {| proxy_http := None; proxy_https := None; bypass := None |}.

(** [value.map(str::trim).filter(|value| !value.is_empty())]. *)
Definition configured (value : option str) : option str :=
  match trim <$> value with Some [] => None | v => v end.

Definition parse_optional (value : option str) :
    Result (option ProxyEndpoint) ProxyConfigurationError :=
  match configured value with
  | Some value => result_map Some (endpoint_parse value)
  | None => Ok None
  end.

Definition or_else {A} (a b : option A) : option A :=
  match a with Some _ => a | None => b end.

Definition from_values (http https all bypass : option str) :
    Result ProxyConfiguration ProxyConfigurationError :=
  (let? all := parse_optional all in
   let? http := parse_optional http in
   let? https := parse_optional https in
   let? bypass :=
     match configured bypass with
     | Some value => bypass_parse value
     | None => Ok None
     end in
   Ok {| proxy_http := or_else http all; proxy_https := or_else https all;
         bypass := bypass |})%W.

Definition is_direct (c : ProxyConfiguration) : bool :=
  bool_decide (proxy_http c = None) && bool_decide (proxy_https c = None).

Definition route (c : ProxyConfiguration) (url : Url) : ProxyRoute :=
  let endpoint :=
    if str_eqb (url_scheme url) (lit "http") then proxy_http c
    else if str_eqb (url_scheme url) (lit "https") then proxy_https c
    else None in
  match endpoint with
  | None => DirectRoute
  | Some endpoint =>
      match url_host url with
      | None => DirectRoute
      | Some host =>
          if match bypass c with Some rules => rules_match rules host | None => false end
          then DirectRoute else ViaProxy endpoint
      end
  end.

End proxy.

(** ** What a bypass list means *)

(** Two addresses of one family that agree on the first [prefix] bits. *)
Definition block_covers (b : AddressBlock) (a : IpAddr) : Prop :=
  match network b, a with
  | V4 n, V4 a => (n / 2 ^ (32 - prefix b) = a / 2 ^ (32 - prefix b))%Z
  | V6 n, V6 a => (n / 2 ^ (128 - prefix b) = a / 2 ^ (128 - prefix b))%Z
  | _, _ => False
  end.

Definition host_address (h : Host) : option IpAddr :=
  match h with Domain _ => None | Ipv4 a => Some (V4 a) | Ipv6 a => Some (V6 a) end.

(** [name] is [rule] or a name below it. *)
Definition below (rule name : str) : Prop :=
  name = rule ∨ ∃ labels, name = labels ++ 46%N :: rule.

(** One trimmed entry of the list, read on its own. *)
Definition entry_bypasses (e : str) (h : Host) : Prop :=
  if str_eqb e STAR then True
  else if contains_char SLASH e then
    ∃ b a, block_parse e = Some b ∧ host_address h = Some a ∧ block_covers b a
  else match parse_ip (unbracket e) with
       | Some a => host_address h = Some a
       | None =>
           ∃ name, h = Domain name ∧ domain_rule e ≠ [] ∧
             below (domain_rule e) (to_ascii_lowercase (trim_end_matches (N.eqb 46) name))
       end.

Definition list_bypasses (value : str) (h : Host) : Prop :=
  ∃ e, e ∈ split_on 44%N value ∧ trim e ≠ [] ∧ entry_bypasses (trim e) h.

(** ** Lemmas *)

Lemma mask_agrees width p n v :
  (0 ≤ p ≤ width)%Z → (width ≤ 128)%Z → (0 ≤ n < 2 ^ width)%Z → (0 ≤ v < 2 ^ width)%Z →
  (masked_u128 n p width =? masked_u128 v p width)%Z = true ↔
  (n / 2 ^ (width - p) = v / 2 ^ (width - p))%Z.
Proof.
  intros Hp Hw Hn Hv. unfold masked_u128. destruct (Z.eqb_spec p 0) as [->|Hp0].
  - rewrite Z.sub_0_r, !Z.div_small by done. done.
  - assert (2 ^ width ≤ 2 ^ 128)%Z by (apply Z.pow_le_mono_r; lia).
    rewrite !land_shl_max by lia. rewrite Z.eqb_eq.
    rewrite !Z.shiftl_mul_pow2, !Z.shiftr_div_pow2 by lia.
    assert (0 < 2 ^ (width - p))%Z by (apply Z.pow_pos_nonneg; lia). nia.
Qed.

Definition block_ok (b : AddressBlock) : Prop :=
  addr_in_range (network b) ∧
  match network b with V4 _ => (0 ≤ prefix b ≤ 32)%Z | V6 _ => (0 ≤ prefix b ≤ 128)%Z end.

Lemma block_parse_ok e b : block_parse e = Some b → block_ok b.
Proof.
  unfold block_parse. intros ([n p] & _ & H)%bind_Some.
  apply bind_Some in H as (a & Ha%parse_ip_in_range & H).
  apply bind_Some in H as (q & _ & H). case_match eqn:E; [|done]. injection H as <-.
  apply N.leb_le in E. split; [done|]. simpl. destruct a; lia.
Qed.

Lemma block_contains_covers b a :
  block_ok b → addr_in_range a → block_contains b a = true ↔ block_covers b a.
Proof.
  intros [Hn Hp] Ha. unfold block_contains, block_covers.
  destruct (network b) as [n|n], a as [v|v]; simpl in *; try done; apply mask_agrees; lia.
Qed.

Lemma matches_domain_below rule name : matches_domain rule name = true ↔ below rule name.
Proof.
  unfold matches_domain, below. by rewrite orb_true_iff, str_eqb_eq, ends_with_true.
Qed.

Definition rules_ok (r : BypassRules) : Prop := Forall block_ok (blocks r).

(** What the collected rules match, as a proposition. *)
Definition rules_spec (r : BypassRules) (h : Host) : Prop :=
  wildcard r = true ∨
  (∃ name, h = Domain name ∧
     ∃ rule, rule ∈ domains r ∧
       below rule (to_ascii_lowercase (trim_end_matches (N.eqb 46) name))) ∨
  (∃ a, host_address h = Some a ∧
     (a ∈ addresses r ∨ ∃ b, b ∈ blocks r ∧ block_covers b a)).

Lemma matches_address_spec r a :
  rules_ok r → addr_in_range a →
  matches_address r a = true ↔ a ∈ addresses r ∨ ∃ b, b ∈ blocks r ∧ block_covers b a.
Proof.
  intros Hr Ha. unfold matches_address. rewrite orb_true_iff, bool_decide_eq_true, existsb_exists.
  unfold rules_ok in Hr. rewrite Forall_forall in Hr.
  apply or_iff_compat_l. split; intros (b & Hb & H); exists b.
  - apply list_elem_of_In in Hb. split; [done|]. by apply block_contains_covers in H; auto.
  - split; [by apply list_elem_of_In|]. apply block_contains_covers; auto.
Qed.

Lemma rules_match_spec r h :
  rules_ok r → host_in_range h → rules_match r h = true ↔ rules_spec r h.
Proof.
  intros Hr Hh. unfold rules_match, rules_spec. destruct (wildcard r); [naive_solver|].
  destruct h as [name|a|a]; simpl in *.
  - rewrite existsb_exists. setoid_rewrite matches_domain_below.
    setoid_rewrite <- list_elem_of_In. naive_solver.
  - rewrite matches_address_spec by done. naive_solver.
  - rewrite matches_address_spec by done. naive_solver.
Qed.

Lemma bypass_entry_spec r e r' h :
  bypass_entry r e = Ok r' → rules_ok r →
  rules_ok r' ∧
  (rules_spec r' h ↔ rules_spec r h ∨ (trim e ≠ [] ∧ entry_bypasses (trim e) h)).
Proof.
  unfold bypass_entry, entry_bypasses, rules_spec. intros H Hr. revert H.
  destruct (bool_decide_reflect (trim e = [])) as [Hn|Hn]; [intros [= <-]; naive_solver|].
  destruct (str_eqb (trim e) STAR); [intros [= <-]; simpl; naive_solver|].
  destruct (contains_char SLASH (trim e)).
  - destruct (block_parse (trim e)) as [b|] eqn:Eb; simpl; [|done]. intros [= <-]. simpl.
    split; [apply Forall_app; split; [done|]; repeat constructor; by eapply block_parse_ok|].
    setoid_rewrite elem_of_app. setoid_rewrite list_elem_of_singleton. naive_solver.
  - destruct (parse_ip (unbracket (trim e))) as [a|]; [intros [= <-]; simpl|].
    + split; [done|]. setoid_rewrite elem_of_app. setoid_rewrite list_elem_of_singleton.
      naive_solver.
    + destruct (bool_decide_reflect (domain_rule (trim e) = [])); intros [= <-]; simpl;
        (split; [done|]); [naive_solver|].
      setoid_rewrite elem_of_app. setoid_rewrite list_elem_of_singleton. naive_solver.
Qed.

Lemma bypass_entries_spec r es r' h :
  bypass_entries r es = Ok r' → rules_ok r →
  rules_ok r' ∧
  (rules_spec r' h ↔
   rules_spec r h ∨ ∃ e, e ∈ es ∧ trim e ≠ [] ∧ entry_bypasses (trim e) h).
Proof.
  revert r. induction es as [|e es IH]; intros r; cbn [bypass_entries].
  - intros [= <-] Hr. split; [done|]. set_solver.
  - intros (r1 & H1 & H2)%result_bind_ok Hr.
    apply (bypass_entry_spec _ _ _ h) in H1 as [Hr1 E1]; [|done].
    apply IH in H2 as [Hr' E2]; [|done]. split; [done|]. rewrite E2, E1.
    setoid_rewrite elem_of_cons. naive_solver.
Qed.

(** A parsed [NO_PROXY] list matches a host exactly when one of its entries does
    on its own: the wildcard, the domain itself or a name below it, the address, or
    an address block agreeing on its prefix bits; a list parsed to no rules has no
    entry that matches anything. *)
Theorem bypass_parse_meaning value rules h :
  bypass_parse value = Ok rules → host_in_range h →
  (match rules with Some r => rules_match r h = true | None => False end)
  ↔ list_bypasses value h.
Proof.
  intros (r & Hr & H)%result_bind_ok Hh.
  apply (bypass_entries_spec _ _ _ h) in Hr as [Hok Hspec]; [|constructor].
  assert (¬ rules_spec BypassRules_default h) as Hd by (unfold rules_spec; simpl; set_solver).
  assert (rules_spec r h ↔ list_bypasses value h) as <-.
  { rewrite Hspec. unfold list_bypasses. split; [intros [?|?]; done|by right]. }
  destruct (negb (wildcard r) && _ && _ && _) eqn:E; injection H as <-;
    [|by apply rules_match_spec].
  split; [done|]. bool_prop. destruct r as [w ds az bs]; simpl in *. subst.
  intros Hs. apply Hd. exact Hs.
Qed.

Lemma bypass_parse_meaning_witness :
  list_bypasses (lit "localhost, .corp.example ,10.0.0.0/8") (Domain (lit "Git.Corp.Example.")) ∧
  ¬ list_bypasses (lit "localhost, .corp.example ,10.0.0.0/8") (Ipv4 (quad 11 0 0 1)).
Proof.
  destruct (bypass_parse (lit "localhost, .corp.example ,10.0.0.0/8")) as [rules|] eqn:E;
    [|vm_compute in E; discriminate].
  vm_compute in E. injection E as <-.
  assert (host_in_range (Ipv4 (quad 11 0 0 1))) as Hr by (vm_compute; split; congruence).
  split.
  - apply (bypass_parse_meaning (lit "localhost, .corp.example ,10.0.0.0/8") _
      (Domain (lit "Git.Corp.Example.")) ltac:(vm_compute; reflexivity) I).
    vm_compute. reflexivity.
  - intros Hb.
    apply (bypass_parse_meaning (lit "localhost, .corp.example ,10.0.0.0/8") _
      (Ipv4 (quad 11 0 0 1)) ltac:(vm_compute; reflexivity) Hr) in Hb.
    vm_compute in Hb. discriminate.
Defined.
