(* ===== verification/NetClient.v ===== *)
(** * The bounded HTTP client: [crates/net/src/http_client.rs], [redirect.rs],
      [retry.rs], [deadline.rs], [body.rs], [http_error.rs]

    One request: its refusals before any I/O, the redirect chain with a policy check
    and a resolution per hop, the retries, and the bounded body.  The [http] crate,
    the resolver, the transport, the timers and the clocks are parameters; the log
    of the state records what the client asked of them. *)

From stdpp Require Import gmap.
From S2P Require Import Prelude Effects NetAddress NetPolicy NetProxy.

(** Nanoseconds; the maximum of [std::time::Duration]. *)
Definition DURATION_MAX : N := (U64_MAX * 1000000000 + 999999999)%N.
Definition from_secs (s : N) : N := (s * 1000000000)%N.
Definition from_millis (ms : N) : N := (ms * 1000000)%N.

(** The [http] and [httpdate] crates. *)
Class HttpLib := {
  HeaderMap : Type;
  HeaderValue : Type;
  hm_new : HeaderMap;
  hm_append : HeaderMap → str → HeaderValue → HeaderMap;
  hm_get_all : HeaderMap → str → list HeaderValue;
  hm_keys : HeaderMap → list str;
  hv_to_str : HeaderValue → option str;
  Method : Type;
  method_eq_dec :: EqDecision Method;
  GET : Method;
  method_is_idempotent : Method → bool;
  parse_http_date : str → option N;
}.

(** What [HeaderMap] documents of [append], [get_all] and [keys]. *)
Class HttpLaws `{HttpLib} := {
  get_all_new n : hm_get_all hm_new n = [];
  get_all_append m n v n' :
    hm_get_all (hm_append m n v) n' = hm_get_all m n' ++ (if str_eqb n n' then [v] else []);
  keys_get_all m n : n ∈ hm_keys m ↔ hm_get_all m n ≠ [];
}.

Definition hm_get `{HttpLib} (m : HeaderMap) (n : str) : option HeaderValue :=
  head (hm_get_all m n).

(** ** Errors *)

Record TransportError := { message : str; at_proxy : bool }.

Inductive NetError : Type :=
| Policy (e : UrlPolicyError)
| RequestBodyTooLarge (length : N)
| ReservedHeader (name : str)
| Dns (e : str)
| EmptyDnsAnswer (hostname : str)
| Transport (e : TransportError)
| Proxy (e : str)
| Redirect (e : str)
| Timeout
| Cancelled.

(** [From<TransportError>] and [From<DnsError>]. *)
Definition of_transport_error (e : TransportError) : NetError :=
  if at_proxy e then Proxy (lit "HTTP transport failed: " ++ message e) else Transport e.

Definition is_retryable (e : NetError) : bool :=
  match e with Dns _ | EmptyDnsAnswer _ | Transport _ => true | _ => false end.

(** ** Deadlines: [deadline.rs] *)

(** How a stage raced against cancellation and the deadline ended: either came
    first, or the stage finished, observed at an instant. *)
Inductive StageEnd (A E : Type) : Type :=
| StageCancelled
| StageElapsed
| StageDone (r : Result A E) (now : N).
Arguments StageCancelled {A E}.
Arguments StageElapsed {A E}.
Arguments StageDone {A E} r now.

Definition run_until {A E} (s : StageEnd A E) : Result (Result A E * N) NetError :=
  match s with
  | StageCancelled => Err Cancelled
  | StageElapsed => Err Timeout
  | StageDone r now => Ok (r, now)
  end.

Definition try_run_until {A E} (into : E → NetError) (deadline : N) (s : StageEnd A E) :
    Result A NetError :=
  (let? (r, now) := run_until s in
   match r with
   | Ok a => Ok a
   | Err error => Err (if (deadline <=? now)%N then Timeout else into error)
   end)%W.

Definition remaining (deadline now : N) : Result N NetError :=
  if (now <? deadline)%N then Ok (deadline - now)%N else Err Timeout.

(** ** Retries: [retry.rs] *)

Record RetryPolicy := {
  max_retries : nat;
  base_delay : N;
  max_delay : N;
  statuses : gset N;
}.

Definition RetryPolicy_default : RetryPolicy :=
  {| max_retries := 1; base_delay := from_millis 75; max_delay := from_millis 250;
     statuses := list_to_set [408; 425; 429; 500; 502; 503; 504]%N |}.

Definition RetryPolicy_disabled : RetryPolicy :=
  {| max_retries := 0; base_delay := base_delay RetryPolicy_default;
     max_delay := max_delay RetryPolicy_default; statuses := statuses RetryPolicy_default |}.

Section retry.
Context `{HttpLib}.

Definition retry_after_delay (headers : HeaderMap) (now : N) : option N :=
  value ← hm_get headers (lit "retry-after");
  value ← hv_to_str value;
  let value := trim value in
  match parse_unsigned U64_MAX value with
  | Some seconds => Some (from_secs seconds)
  | None => (fun at_ => (at_ - now)%N) <$> parse_http_date value
  end.

(** [saturating_pow] and [saturating_mul]. *)
Definition u32_pow2 (exponent : N) : N := N.min (2 ^ exponent) 0xFFFFFFFF.
Definition duration_mul (d k : N) : N := N.min (d * k) DURATION_MAX.

Definition delay_for (p : RetryPolicy) (retry_number : nat) (headers : option HeaderMap)
    (now : N) : N :=
  match headers ≫= (fun headers => retry_after_delay headers now) with
  | Some delay => N.min delay (max_delay p)
  | None =>
      let retry_number := N.of_nat retry_number in
      let exponent := N.min (if (retry_number <=? 0xFFFFFFFF)%N then retry_number else 0xFFFFFFFF) 31 in
      N.min (duration_mul (base_delay p) (u32_pow2 exponent)) (max_delay p)
  end.

End retry.

(** ** Requests and responses *)

Section client.
Context `{UL : UrlLib} `{PL : !ProxyLib} `{HL : HttpLib}.

Record FetchOptions := {
  timeout : N;
  max_redirects : nat;
  max_body_bytes : nat;
  headers : HeaderMap;
  retry : RetryPolicy;
}.

Inductive RedirectScope := SameOrigin | AnyOrigin.

Record RequestSpec := {
  method : Method;
  url : Url;
  body : option (list N);
  redirects : RedirectScope;
  options : FetchOptions;
}.

Inductive TransportRoute :=
| Direct (resolved_addresses : list IpAddr)
| ThroughProxy (endpoint : ProxyEndpoint).

Record TransportRequest := {
  t_method : Method;
  t_url : Url;
  t_headers : HeaderMap;
  t_body : option (list N);
  t_route : TransportRoute;
  t_timeout : N;
}.

(** A response: its body stream as the stages of its reads, in order. *)
Record TransportResponse := {
  r_status : N;
  r_headers : HeaderMap;
  r_body : list (StageEnd (list N) TransportError);
}.

Record BoundedResponse := {
  b_status : N;
  b_headers : HeaderMap;
  b_url : Url;
  b_body : list N;
  b_truncated : bool;
}.

Record HttpClient := { policy : UrlPolicy; proxying : ProxyConfiguration }.

End client.

(** ** The environment and the client's state *)

(** The resolver, the transport, the timer and the clocks. *)
Class NetEnv `{UL : UrlLib} `{PL : !ProxyLib} `{HL : HttpLib} := {
  World : Type;
  env_resolve : str → World → StageEnd (list IpAddr) str * World;
  env_execute : TransportRequest → World → StageEnd TransportResponse TransportError * World;
  env_sleep : N → World → StageEnd unit Empty_set * World;
  env_now : World → N * World;
  env_system_now : World → N * World;
}.

Section fetch.
Context `{UL : UrlLib} `{PL : !ProxyLib} `{HL : HttpLib} `{NE : !NetEnv}.

Inductive Event :=
| Resolved (hostname : str)
| Sent (hop : TransportRequest)
| Slept (delay : N).

Local Open Scope workcell_scope.

Abbreviation Client := (Eff World Event NetError) (only parsing).

Definition policy_check (r : Result unit UrlPolicyError) : Client unit :=
  lift match r with Ok a => Ok a | Err e => Err (Policy e) end.

(** ** Redirects: [redirect.rs] *)

Definition MAX_REDIRECTS : nat := 20.

Definition is_redirect (status : N) : bool :=
  existsb (N.eqb status) [301; 302; 303; 307; 308]%N.

Definition same_origin (l r : Url) : bool :=
  bool_decide (url_scheme l = url_scheme r) && bool_decide (url_host l = url_host r)
  && bool_decide (url_port_or_known_default l = url_port_or_known_default r).

Definition SAFE_HEADERS : list str :=
  [lit "accept"; lit "accept-language"; lit "cache-control"; lit "pragma"; lit "range";
   lit "user-agent"].

Definition cross_origin_headers (headers : HeaderMap) : HeaderMap :=
  foldl (fun safe name =>
           foldl (fun safe value => hm_append safe name value) safe (hm_get_all headers name))
    hm_new SAFE_HEADERS.

Definition location (headers : HeaderMap) : option str :=
  hm_get headers (lit "location") ≫= hv_to_str.

Definition redirect_location (response : TransportResponse) : Result (option str) NetError :=
  if negb (is_redirect (r_status response)) then Ok None
  else result_map Some (ok_or (location (r_headers response))
                          (Redirect (lit "missing Location header"))).

Definition replayable_redirect_location (response : TransportResponse) (url : Url) : option str :=
  if negb ((r_status response =? 307) || (r_status response =? 308))%N then None
  else
    match location (r_headers response) with
    | Some location =>
        if match url_join url location with Some next => same_origin url next | None => false end
        then Some location else None
    | None => None
    end.

Definition leaves_origin (url : Url) (location : str) : bool :=
  match url_join url location with Some next => negb (same_origin url next) | None => false end.

Definition followed_location (request : RequestSpec) (response : TransportResponse) (url : Url) :
    Result (option str) NetError :=
  if negb (bool_decide (method request = GET)) || bool_decide (is_Some (body request))
  then Ok (replayable_redirect_location response url)
  else
    (let? location := redirect_location response in
     Ok match redirects request with
        | AnyOrigin => location
        | SameOrigin =>
            match location with
            | Some l => if leaves_origin url l then None else Some l
            | None => None
            end
        end)%W.

Fixpoint validate_all (p : UrlPolicy) (addresses : list IpAddr) : Client unit :=
  match addresses with
  | [] => ret tt
  | a :: addresses' => do? _ := policy_check (validate_ip p a) in validate_all p addresses'
  end.

Definition resolve_target (c : HttpClient) (url : Url) (deadline : N) : Client (list IpAddr) :=
  do? host := lift (ok_or (url_host url) (Policy MissingHost)) in
  match host with
  | Ipv4 address =>
      do? _ := policy_check (validate_ip (policy c) (V4 address)) in ret [V4 address]
  | Ipv6 address =>
      do? _ := policy_check (validate_ip (policy c) (V6 address)) in ret [V6 address]
  | Domain hostname =>
      do? stage := ask (Some (Resolved hostname)) (env_resolve hostname) in
      do? addresses := lift (try_run_until Dns deadline stage) in
      if bool_decide (addresses = []) then throw (EmptyDnsAnswer hostname)
      else do? _ := validate_all (policy c) addresses in ret addresses
  end.

Definition execute_hop (c : HttpClient) (request : RequestSpec) (url : Url)
    (headers : HeaderMap) (deadline : N) : Client TransportResponse :=
  do? _ := policy_check (validate_url (policy c) url) in
  do? route :=
    match route (proxying c) url with
    | ViaProxy endpoint => ret (ThroughProxy endpoint)
    | DirectRoute =>
        do? addresses := resolve_target c url deadline in ret (Direct addresses)
    end in
  do? now := ask None env_now in
  do? timeout := lift (remaining deadline now) in
  let hop := {| t_method := method request; t_url := url; t_headers := headers;
                t_body := body request; t_route := route; t_timeout := timeout |} in
  do? stage := ask (Some (Sent hop)) (env_execute hop) in
  lift (try_run_until of_transport_error deadline stage).

(** ** Bodies: [body.rs] *)

Fixpoint read_chunks (limit : nat) (deadline : N)
    (stream : list (StageEnd (list N) TransportError)) (output : list N) :
    Result (list N * bool) NetError :=
  match stream with
  | [] => Ok (output, false)
  | stage :: stream' =>
      (let? chunk := try_run_until of_transport_error deadline stage in
       let remaining := limit - length output in
       if (remaining <? length chunk)%nat then Ok (output ++ take remaining chunk, true)
       else read_chunks limit deadline stream' (output ++ chunk))%W
  end.

Definition read_bounded_body (response : TransportResponse) (limit : nat) (deadline : N) :
    Result (list N * bool) NetError :=
  read_chunks limit deadline (r_body response) [].

(** The loop over [0..=redirect_limit]: [left] iterations remain. *)
Fixpoint redirect_loop (c : HttpClient) (request : RequestSpec) (deadline : N)
    (redirect_limit left : nat) (url : Url) (headers : HeaderMap) : Client BoundedResponse :=
  match left with
  | 0 => throw (Redirect (lit "redirect limit exceeded"))
  | S left' =>
      let redirect_count := S redirect_limit - left in
      do? response := execute_hop c request url headers deadline in
      do? followed := lift (followed_location request response url) in
      match followed with
      | None =>
          do? body :=
            lift (read_bounded_body response (max_body_bytes (options request)) deadline) in
          ret {| b_status := r_status response; b_headers := r_headers response; b_url := url;
                 b_body := body.1; b_truncated := body.2 |}
      | Some location =>
          if (redirect_limit <=? redirect_count)%nat
          then throw (Redirect (lit "redirect limit exceeded"))
          else
            do? next :=
              lift match parse_url (policy c) location (Some url) with
                   | Ok next => Ok next | Err e => Err (Policy e) end in
            let headers :=
              if negb (same_origin url next) then cross_origin_headers headers else headers in
            redirect_loop c request deadline redirect_limit left' next headers
      end
  end.

Definition fetch_redirect_chain (c : HttpClient) (request : RequestSpec) (deadline : N) :
    Client BoundedResponse :=
  let redirect_limit := Nat.min (max_redirects (options request)) MAX_REDIRECTS in
  redirect_loop c request deadline redirect_limit (S redirect_limit)
    (NetClient.url request) (NetClient.headers (options request)).

(** ** The client: [http_client.rs] *)

Definition MAX_REQUEST_BODY_BYTES : N := (1024 * 1024)%N.
Definition DEFAULT_MAX_REDIRECTS : nat := 5.
Definition DEFAULT_MAX_BODY_BYTES : N := (1024 * 1024)%N.
Definition MAX_RETRIES : nat := 3.

Definition RESERVED_HEADERS : list str :=
  [lit "host"; lit "content-length"; lit "transfer-encoding"; lit "connection";
   lit "keep-alive"; lit "te"; lit "trailer"; lit "upgrade"; lit "expect"].
Definition RESERVED_HEADER_PREFIX : str := lit "proxy-".

Definition FetchOptions_default : FetchOptions :=
  {| timeout := from_secs 10; max_redirects := DEFAULT_MAX_REDIRECTS;
     max_body_bytes := N.to_nat DEFAULT_MAX_BODY_BYTES; headers := hm_new;
     retry := RetryPolicy_default |}.

Definition is_reserved (name : str) : bool :=
  existsb (str_eqb name) RESERVED_HEADERS || starts_with RESERVED_HEADER_PREFIX name.

Definition sleep_until_or_cancel (delay : N) : Client unit :=
  do? stage := ask (Some (Slept delay)) (env_sleep delay) in
  do? _ := lift (run_until stage) in ret tt.

(** The retry loop: [left] is [retries - attempt]. *)
Fixpoint retry_loop (c : HttpClient) (request : RequestSpec) (deadline : N)
    (left attempt_number : nat) : Client BoundedResponse :=
  do? result := attempt (fetch_redirect_chain c request deadline) in
  let policy := retry (options request) in
  match left with
  | 0 => lift result
  | S left' =>
      match result with
      | Ok response =>
          if bool_decide (b_status response ∈ statuses policy) then
            do? now := ask None env_system_now in
            do? _ := sleep_until_or_cancel
                       (delay_for policy attempt_number (Some (b_headers response)) now) in
            retry_loop c request deadline left' (S attempt_number)
          else lift result
      | Err error =>
          if is_retryable error then
            do? _ := sleep_until_or_cancel (delay_for policy attempt_number None 0) in
            retry_loop c request deadline left' (S attempt_number)
          else lift result
      end
  end.

Definition body_length (request : RequestSpec) : N :=
  match body request with Some b => N.of_nat (length b) | None => 0%N end.

Definition retries (request : RequestSpec) : nat :=
  if method_is_idempotent (method request)
  then Nat.min (max_retries (retry (options request))) MAX_RETRIES else 0.

Definition request (c : HttpClient) (request : RequestSpec) : Client BoundedResponse :=
  do? _ := policy_check (validate_url (policy c) (NetClient.url request)) in
  do? _ :=
    (if (MAX_REQUEST_BODY_BYTES <? body_length request)%N
     then throw (RequestBodyTooLarge (body_length request)) else ret tt) in
  do? _ :=
    match List.find is_reserved (hm_keys (NetClient.headers (options request))) with
    | Some name => throw (ReservedHeader name)
    | None => ret tt
    end in
  do? now := ask None env_now in
  let deadline := (now + timeout (options request))%N in
  retry_loop c request deadline (retries request) 0.

Definition get_url (c : HttpClient) (url : Url) (options : FetchOptions) :
    Client BoundedResponse :=
  request c {| method := GET; url := url; body := None; redirects := AnyOrigin;
               options := options |}.

Definition get (c : HttpClient) (value : str) (options : FetchOptions) :
    Client BoundedResponse :=
  do? url := lift match parse_url (policy c) value None with
                  | Ok url => Ok url | Err e => Err (Policy e) end in
  get_url c url options.

End fetch.

(** ** Policy checks in the logic of logs *)
Section checks.
Context `{UL : UrlLib} `{PL : !ProxyLib} `{HL : HttpLib} `{NE : !NetEnv}.

Lemma policy_check_ok r : ∀ a, (match r with Ok a => Ok a | Err e => Err (Policy e) end) = Ok a →
  r = Ok tt.
Proof. by destruct r as [[]|]. Qed.

Lemma emits_policy_check P r : emits P (policy_check r) (λ _, r = Ok tt).
Proof. apply emits_lift. intros a. apply policy_check_ok. Qed.

End checks.
#[export] Hint Resolve emits_policy_check : effects.

(** ** Every hop is checked *)
Section safety.
Context `{UL : UrlLib} `{PL : !ProxyLib} `{HL : HttpLib} `{NE : !NetEnv}.
Implicit Types (c : HttpClient) (rq : RequestSpec).

Abbreviation Client := (Eff World Event NetError) (only parsing).

(** The addresses a direct hop may connect to: at least one, each accepted by the
    policy, and for an address literal exactly that address. *)
Definition addresses_ok c (u : Url) (l : list IpAddr) : Prop :=
  l ≠ [] ∧ Forall (λ a, validate_ip (policy c) a = Ok ()) l ∧
  match url_host u with
  | Some (Ipv4 a) => l = [V4 a]
  | Some (Ipv6 a) => l = [V6 a]
  | _ => True
  end.

(** A hop the client may put on the wire for request [rq]. *)
Definition hop_ok c rq (h : TransportRequest) : Prop :=
  t_method h = method rq ∧ t_body h = body rq ∧
  validate_url (policy c) (t_url h) = Ok () ∧ (0 < t_timeout h)%N ∧
  match t_route h with
  | Direct addresses =>
      route (proxying c) (t_url h) = DirectRoute ∧ addresses_ok c (t_url h) addresses
  | ThroughProxy endpoint => route (proxying c) (t_url h) = ViaProxy endpoint
  end.

(** Every hop satisfies [P] and every pause is at most [D]. *)
Definition paced (D : N) (P : TransportRequest → Prop) (e : Event) : Prop :=
  match e with Sent h => P h | Slept d => (d <= D)%N | Resolved _ => True end.

Lemma delay_for_le (p : RetryPolicy) n (hs : option HeaderMap) now :
  (delay_for p n hs now <= max_delay p)%N.
Proof. unfold delay_for. case_match; lia. Qed.

Lemma emits_validate_all P p l :
  emits P (validate_all p l) (λ _, Forall (λ a, validate_ip p a = Ok ()) l).
Proof.
  induction l as [|a l IH]; simpl; [by apply emits_ret|].
  step (λ _ : unit, validate_ip p a = Ok ()); [auto with effects|].
  eapply emits_weaken; [exact IH|done|]. simpl. by constructor.
Qed.

Lemma emits_resolve_target D P c u d :
  emits (paced D P) (resolve_target c u d) (addresses_ok c u).
Proof.
  unfold resolve_target. step (λ h, url_host u = Some h).
  { apply emits_lift. intros h. destruct (url_host u); simpl; congruence. }
  destruct a as [name|v|v].
  - step (λ _ : StageEnd (list IpAddr) str, True); [by apply emits_ask|].
    step (λ _ : list IpAddr, True); [by apply emits_lift|]. case_bool_decide; [auto with effects|].
    step (λ _ : unit, Forall (λ a, validate_ip (policy c) a = Ok ()) a0);
      [apply emits_validate_all|].
    apply emits_ret. unfold addresses_ok. by rewrite H.
  - step (λ _ : unit, validate_ip (policy c) (V4 v) = Ok ()); [auto with effects|].
    apply emits_ret. unfold addresses_ok. rewrite H. split_and!; [done|by repeat constructor|done].
  - step (λ _ : unit, validate_ip (policy c) (V6 v) = Ok ()); [auto with effects|].
    apply emits_ret. unfold addresses_ok. rewrite H. split_and!; [done|by repeat constructor|done].
Qed.

Lemma remaining_pos d n t : remaining d n = Ok t → (0 < t)%N.
Proof. unfold remaining. case_if; [|done]. intros [= <-]. bool_prop. lia. Qed.

Lemma emits_execute_hop D c rq u hs d P :
  (∀ h, hop_ok c rq h → t_url h = u → t_headers h = hs → P h) →
  emits (paced D P) (execute_hop c rq u hs d) (λ _, True).
Proof.
  intros HP. unfold execute_hop.
  step (λ _ : unit, validate_url (policy c) u = Ok ()); [auto with effects|].
  step (λ r, match r with
             | Direct l => route (proxying c) u = DirectRoute ∧ addresses_ok c u l
             | ThroughProxy e => route (proxying c) u = ViaProxy e end).
  { destruct (route (proxying c) u) eqn:E; [|by apply emits_ret].
    step (addresses_ok c u); [apply emits_resolve_target|]. by apply emits_ret. }
  step (λ _ : N, True); [by apply emits_ask|].
  step (λ t, (0 < t)%N); [by apply emits_lift; eauto using remaining_pos|].
  step (λ _ : StageEnd TransportResponse TransportError, True); [|by apply emits_lift].
  apply emits_ask. simpl. apply HP; [|done|done]. unfold hop_ok. simpl. auto.
Qed.

(** An invariant of the loop: a property of the current target and headers that
    every followed redirect preserves. *)
Lemma emits_redirect_loop D c rq d limit left u hs P (Inv : Url → HeaderMap → Prop) :
  Inv u hs →
  (∀ h, hop_ok c rq h → Inv (t_url h) (t_headers h) → P h) →
  (∀ u hs r l next, Inv u hs → followed_location rq r u = Ok (Some l) →
     parse_url (policy c) l (Some u) = Ok next →
     Inv next (if negb (same_origin u next) then cross_origin_headers hs else hs)) →
  emits (paced D P) (redirect_loop c rq d limit left u hs) (λ _, True).
Proof.
  intros Hinv HP Hstep. revert u hs Hinv.
  induction left as [|left IH]; intros u hs Hinv; simpl; [auto with effects|].
  step (λ _ : TransportResponse, True).
  { apply emits_execute_hop. intros h Hh Hu Hhs. apply HP; [done|]. by subst. }
  step (λ f, followed_location rq a u = Ok f); [by apply emits_lift|].
  destruct a0 as [l|].
  - case_if; [auto with effects|].
    step (λ next, parse_url (policy c) l (Some u) = Ok next).
    { apply emits_lift. intros x. destruct (parse_url _ _ _); congruence. }
    eauto.
  - step (λ _ : list N * bool, True); [by apply emits_lift|]. by apply emits_ret.
Qed.

Lemma emits_sleep D P delay :
  (delay <= D)%N → emits (paced D P) (sleep_until_or_cancel delay) (λ _, True).
Proof.
  intros HD. unfold sleep_until_or_cancel. step (λ _ : StageEnd () Empty_set, True); [by apply emits_ask|].
  step (λ _ : Result () Empty_set * N, True); [by apply emits_lift|]. by apply emits_ret.
Qed.

Lemma emits_retry_loop c rq d left n P :
  emits (paced (max_delay (retry (options rq))) P) (fetch_redirect_chain c rq d) (λ _, True) →
  emits (paced (max_delay (retry (options rq))) P) (retry_loop c rq d left n) (λ _, True).
Proof.
  intros Hc. revert n. induction left as [|left IH]; intros n; simpl;
    (step (λ _ : Result BoundedResponse NetError, True);
     [eapply emits_weaken; [by apply emits_attempt|by intros ?|by intros ?]|]).
  { by apply emits_lift. }
  destruct a as [r|e].
  - case_bool_decide; [|by apply emits_lift].
    step (λ _ : N, True); [by apply emits_ask|].
    step (λ _ : unit, True); [apply emits_sleep, delay_for_le|]. apply IH.
  - case_if; [|by apply emits_lift]. step (λ _ : unit, True); [apply emits_sleep, delay_for_le|]. apply IH.
Qed.

(** The checks [request] makes before it asks anything of the environment. *)
Definition admissible c rq : Prop :=
  validate_url (policy c) (url rq) = Ok () ∧ (body_length rq <= MAX_REQUEST_BODY_BYTES)%N ∧
  Forall (λ n, is_reserved n = false) (hm_keys (headers (options rq))).

Lemma emits_request c rq P :
  (admissible c rq → ∀ d, emits (paced (max_delay (retry (options rq))) P) (fetch_redirect_chain c rq d) (λ _, True)) →
  emits (paced (max_delay (retry (options rq))) P) (request c rq) (λ _, True).
Proof.
  intros Hc. unfold request.
  step (λ _ : unit, validate_url (policy c) (url rq) = Ok ()); [auto with effects|].
  step (λ _ : unit, (body_length rq <= MAX_REQUEST_BODY_BYTES)%N).
  { case_if; [auto with effects|]. apply emits_ret. by bool_prop. }
  step (λ _ : unit, Forall (λ n, is_reserved n = false) (hm_keys (headers (options rq)))).
  { destruct (List.find _ _) eqn:E; [auto with effects|]. apply emits_ret.
    apply Forall_forall. intros x Hx. eapply find_none; [done|]. by apply list_elem_of_In. }
  step (λ _ : N, True); [by apply emits_ask|].
  apply emits_retry_loop, Hc. by split_and!.
Qed.

(** The hops an operation put on the wire, in order. *)
Fixpoint hops (l : list Event) : list TransportRequest :=
  match l with
  | [] => []
  | Sent h :: l' => h :: hops l'
  | _ :: l' => hops l'
  end.

Fixpoint pauses (l : list Event) : list N :=
  match l with
  | [] => []
  | Slept d :: l' => d :: pauses l'
  | _ :: l' => pauses l'
  end.

Lemma emits_log {A} D P (m : Client A) Q s :
  emits (paced D P) m Q → log s = [] →
  Forall P (hops (log (m s).2)) ∧ Forall (λ d, (d <= D)%N) (pauses (log (m s).2)).
Proof.
  intros Hm Hs. destruct (Hm s) as (new & E & HP & _). rewrite E, Hs. simpl.
  clear -HP. induction HP as [|[] l H _ IH]; simpl in *; naive_solver.
Qed.

(** C5: Whatever the resolver, the transport and the clocks answer, every hop the
    client puts on the wire, over all redirects and retries, carries the request's
    method and body, targets a URL the policy accepts, has time left, and either goes
    through the proxy the configuration routes that URL to, or connects to a
    non-empty set of addresses that the policy accepts every one of. *)
Theorem request_hops_checked c rq w : Forall (hop_ok c rq) (hops (log (request c rq (start w)).2)).
Proof.
  eapply emits_log; [|reflexivity]. apply emits_request. intros _ d.
  apply (emits_redirect_loop _ _ _ _ _ _ _ _ _ (λ _ _, True)); auto.
Qed.

(** ** Headers and origins across redirects *)

Definition origin (u : Url) : str * option Host * option N :=
  (url_scheme u, url_host u, url_port_or_known_default u).

Lemma same_origin_true l r : same_origin l r = true ↔ origin l = origin r.
Proof.
  unfold same_origin, origin. rewrite !andb_true_iff, !bool_decide_eq_true.
  split; [intros [[-> ->] ->]; done|intros [= -> -> ->]; done].
Qed.

(** A redirect to another origin is followed only for a body-less GET under
    [AnyOrigin]. *)
Lemma followed_cross_origin c rq r u l next :
  followed_location rq r u = Ok (Some l) → parse_url (policy c) l (Some u) = Ok next →
  same_origin u next = false →
  method rq = GET ∧ body rq = None ∧ redirects rq = AnyOrigin.
Proof.
  intros Hf Hp Hso. assert (url_join u l = Some next) as Hj.
  { unfold parse_url, resolve_value in Hp. destruct (_ && _); [done|].
    apply result_bind_ok in Hp as (u' & Hu' & (x & _ & [= ->])%result_bind_ok).
    by destruct (url_join u l); simplify_eq/=. }
  revert Hf. unfold followed_location.
  destruct (bool_decide_reflect (method rq = GET)) as [Hm|Hm],
    (bool_decide_reflect (is_Some (body rq))) as [Hb|Hb]; simpl.
  2: { intros (o & _ & [= E])%result_bind_ok. apply eq_None_not_Some in Hb.
       split_and!; [done..|]. destruct (redirects rq); [|done]. destruct o as [l'|]; [|done].
       revert E. case_if; [done|]. intros [= ->]. unfold leaves_origin in Heqb.
       rewrite Hj, Hso in Heqb. done. }
  all: intros [= E]; revert E; unfold replayable_redirect_location.
  all: case_if; [done|]; destruct (location _) as [l'|]; [|done].
  all: case_if; [|done]; intros [= ->]; rewrite Hj, Hso in Heqb0; done.
Qed.

Section headers.
Context {laws : HttpLaws}.

Lemma get_all_append_many m n vs n' :
  hm_get_all (foldl (λ safe value, hm_append safe n value) m vs) n' =
  hm_get_all m n' ++ (if str_eqb n n' then vs else []).
Proof.
  revert m. induction vs as [|v vs IH]; intros m; simpl.
  { case_if; by rewrite app_nil_r. }
  rewrite IH, get_all_append, <- app_assoc. by case_if.
Qed.

Lemma get_all_names names hs m n :
  NoDup names →
  hm_get_all (foldl (λ safe name, foldl (λ safe value, hm_append safe name value) safe
                       (hm_get_all hs name)) m names) n =
  hm_get_all m n ++ (if bool_decide (n ∈ names) then hm_get_all hs n else []).
Proof.
  intros Hnd. revert m. induction Hnd as [|n0 names Hn0 _ IH]; intros m; simpl.
  { by rewrite app_nil_r. }
  rewrite IH, get_all_append_many, <- app_assoc. f_equal.
  unfold str_eqb. destruct (bool_decide_reflect (n0 = n)) as [->|Hne].
  - rewrite (bool_decide_eq_false_2 (n ∈ names)), app_nil_r by done.
    by rewrite (bool_decide_eq_true_2 (n ∈ n :: names)) by left.
  - simpl. by rewrite (bool_decide_ext (n ∈ n0 :: names) (n ∈ names)) by set_solver.
Qed.

Lemma SAFE_HEADERS_NoDup : NoDup SAFE_HEADERS.
Proof. apply (bool_decide_unpack _). vm_compute. exact I. Qed.

(** The values of the safe headers, and no others. *)
Definition sanitized (original hs : HeaderMap) : Prop :=
  ∀ n, hm_get_all hs n = if bool_decide (n ∈ SAFE_HEADERS) then hm_get_all original n else [].

Lemma cross_origin_sanitized hs : sanitized hs (cross_origin_headers hs).
Proof.
  intros n. unfold cross_origin_headers. rewrite get_all_names by apply SAFE_HEADERS_NoDup.
  by rewrite get_all_new.
Qed.

Lemma sanitized_again original hs :
  sanitized original hs → sanitized original (cross_origin_headers hs).
Proof.
  intros H n. rewrite cross_origin_sanitized, H. by case_bool_decide.
Qed.

(** A hop either stays on the request's own origin with the caller's headers
    unchanged, or carries exactly the caller's values of the six safe headers; only a
    GET without a body sent under [AnyOrigin] ever has a hop of the second kind, so no
    body, no other method and no credential header reaches another origin. *)
Theorem request_hops_confined c rq w :
  Forall (λ h,
    (origin (t_url h) = origin (url rq) ∧ t_headers h = headers (options rq)) ∨
    (method rq = GET ∧ body rq = None ∧ redirects rq = AnyOrigin ∧
     sanitized (headers (options rq)) (t_headers h)))
    (hops (log (request c rq (start w)).2)).
Proof.
  eapply emits_log; [|reflexivity]. apply emits_request. intros _ d.
  apply (emits_redirect_loop _ _ _ _ _ _ _ _ _ (λ u hs,
    (origin u = origin (url rq) ∧ hs = headers (options rq)) ∨
    (method rq = GET ∧ body rq = None ∧ redirects rq = AnyOrigin ∧
     sanitized (headers (options rq)) hs))); [by left|by auto|].
  intros u hs r l next Hinv Hf Hp.
  destruct (same_origin u next) eqn:Hso; simpl.
  - apply same_origin_true in Hso. rewrite <- Hso. done.
  - right. destruct (followed_cross_origin _ _ _ _ _ _ Hf Hp Hso) as (? & ? & ?).
    split_and!; [done..|]. destruct Hinv as [[_ ->]|(_ & _ & _ & H')].
    + apply cross_origin_sanitized.
    + by apply sanitized_again.
Qed.

End headers.

(** ** Refusals and bounds *)

(** A request with a URL the policy rejects, a body over the limit or a reserved
    header is refused with a final error before the client resolves, sends or even
    reads a clock. *)
Theorem request_refused c rq s :
  ¬ admissible c rq → ∃ e, request c rq s = (Err e, s) ∧ is_retryable e = false.
Proof.
  unfold admissible, request, and_then, policy_check, lift. intros Hn.
  destruct (validate_url (policy c) (url rq)) as [[]|e]; [|by eexists].
  case_if; [by eexists|]. bool_prop.
  destruct (List.find _ _) as [n|] eqn:E; [by eexists|]. exfalso. apply Hn.
  split_and!; [done..|]. apply Forall_forall. intros x Hx.
  eapply find_none; [done|]. by apply list_elem_of_In.
Qed.

(** What an operation adds to the log, with its result. *)
Definition traces {A} (m : Client A) (Q : list Event → Result A NetError → Prop) : Prop :=
  ∀ s, ∃ new, log (m s).2 = log s ++ new ∧ Q new (m s).1.

Lemma traces_weaken {A} (m : Client A) (Q Q' : list Event → Result A NetError → Prop) :
  traces m Q → (∀ l r, Q l r → Q' l r) → traces m Q'.
Proof. intros H HQ s. destruct (H s) as (new & E & Hn). eauto. Qed.

Lemma traces_lift {A} (r : Result A NetError) (Q : list Event → Result A NetError → Prop) :
  Q [] r → traces (lift r) Q.
Proof. intros H s. exists []. by rewrite app_nil_r. Qed.

Lemma traces_bind {A B} (m : Client A) (f : A → Client B) Q1 (Q : list Event → Result B NetError → Prop) :
  traces m Q1 → (∀ l e, Q1 l (Err e) → Q l (Err e)) →
  (∀ l a, Q1 l (Ok a) → traces (f a) (λ l' r, Q (l ++ l') r)) → traces (and_then m f) Q.
Proof.
  intros Hm He Hf s. unfold and_then. destruct (Hm s) as (l & E & H1).
  destruct (m s) as [[a|e] s1]; simpl in *; [|by eauto].
  destruct (Hf l a H1 s1) as (l' & E' & H'). exists (l ++ l'). split; [|done].
  by rewrite E', E, (assoc_L (++)).
Qed.

Lemma traces_lift_bind {A B} (r : Result A NetError) (f : A → Client B)
    (Q : list Event → Result B NetError → Prop) :
  (∀ e, r = Err e → Q [] (Err e)) → (∀ a, r = Ok a → traces (f a) Q) → traces (and_then (lift r) f) Q.
Proof.
  intros He Hf s. unfold and_then, lift. destruct r as [a|e].
  - by apply Hf.
  - exists []. rewrite app_nil_r. split; [done|by apply He].
Qed.

Lemma traces_ask_bind {A B} ev (g : World → A * World) (f : A → Client B)
    (Q : list Event → Result B NetError → Prop) :
  (∀ a, traces (f a) (λ l, Q (option_list ev ++ l))) → traces (and_then (ask ev g) f) Q.
Proof.
  intros Hf s. unfold and_then, ask. destruct (g (world s)) as [a w].
  destruct (Hf a {| world := w; log := log s ++ option_list ev |}) as (l & E & H).
  exists (option_list ev ++ l). rewrite (assoc_L (++)). by split.
Qed.

Lemma traces_attempt {A} (m : Client A) Q :
  traces m Q → traces (attempt m) (λ l r, ∃ r0, r = Ok r0 ∧ Q l r0).
Proof. intros H s. destruct (H s) as (l & E & Hl). unfold attempt. destruct (m s). simpl in *. eauto. Qed.

(** What the client asked last before an error that may be retried. *)
Definition asked_last {A} (l : list Event) (r : Result A NetError) : Prop :=
  match r with
  | Err (Dns _) => ∃ name, last l = Some (Resolved name)
  | Err (EmptyDnsAnswer name) => last l = Some (Resolved name)
  | Err (Transport _) => ∃ h, last l = Some (Sent h)
  | _ => True
  end.

(** An attempt: one hop per redirect at most, the first to the request's own URL with its own
    headers, no pause; a response comes from the last hop, and an error that may be retried
    from the resolver or the transport, whichever was asked last. *)
Record attempt_of (rq : RequestSpec) (l : list Event) (r : Result BoundedResponse NetError) : Prop := {
  at_pauses : pauses l = [];
  at_hops : length (hops l) ≤ S (Nat.min (max_redirects (options rq)) 20);
  at_first : ∀ h, head (hops l) = Some h → t_url h = url rq ∧ t_headers h = headers (options rq);
  at_asked : asked_last l r;
  at_answer : ∀ b, r = Ok b → ∃ h, last l = Some (Sent h) ∧ t_url h = b_url b;
}.

(** Why an attempt is followed by another, while any is left. *)
Definition may_retry (rq : RequestSpec) (r : Result BoundedResponse NetError) : Prop :=
  match r with
  | Ok b => b_status b ∈ statuses (retry (options rq))
  | Err e => (∃ m, e = Dns m) ∨ (∃ n, e = EmptyDnsAnswer n) ∨ ∃ t, e = Transport t
  end.

(** How long the client waits after attempt [k]: twice as long each time, or what the response
    asks, but never longer than the policy's maximum. *)
Definition pause_after (rq : RequestSpec) (k : nat) (r : Result BoundedResponse NetError) (d : N) : Prop :=
  let backoff := N.min (N.min (base_delay (retry (options rq)) * 2 ^ N.of_nat k) DURATION_MAX)
                       (max_delay (retry (options rq))) in
  match r with
  | Err _ => d = backoff
  | Ok b => d = backoff ∨
      ∃ asked now, retry_after_delay (b_headers b) now = Some asked ∧
        d = N.min asked (max_delay (retry (options rq)))
  end.

(** The attempts from the [k]-th on, of which [limit] may be retried. *)
Inductive attempts (rq : RequestSpec) (limit : nat) :
    nat → list Event → Result BoundedResponse NetError → Prop :=
| attempt_final k l r :
    k ≤ limit → attempt_of rq l r → k = limit ∨ ¬ may_retry rq r → attempts rq limit k l r
| attempt_interrupted k l r d e :
    k < limit → attempt_of rq l r → may_retry rq r → pause_after rq k r d →
    e = Cancelled ∨ e = Timeout → attempts rq limit k (l ++ [Slept d]) (Err e)
| attempt_again k l r d l' r' :
    k < limit → attempt_of rq l r → may_retry rq r → pause_after rq k r d →
    attempts rq limit (S k) l' r' → attempts rq limit k (l ++ Slept d :: l') r'.

Lemma hops_app a b : hops (a ++ b) = hops a ++ hops b.
Proof. induction a as [|[] a IH]; simpl; rewrite ?IH; done. Qed.

Lemma pauses_app a b : pauses (a ++ b) = pauses a ++ pauses b.
Proof. induction a as [|[] a IH]; simpl; rewrite ?IH; done. Qed.

Lemma attempts_bounds rq limit k l r :
  attempts rq limit k l r →
  length (pauses l) + k ≤ limit ∧
  length (hops l) ≤ S (length (pauses l)) * S (Nat.min (max_redirects (options rq)) 20) ∧
  Forall (λ d, (d <= max_delay (retry (options rq)))%N) (pauses l).
Proof.
  assert (∀ k r d, pause_after rq k r d → (d <= max_delay (retry (options rq)))%N) as Hd.
  { intros k' [b|e] d; simpl; [|lia]. intros [?|(? & ? & ? & ?)]; lia. }
  induction 1 as [k l r Hk [Hp Hh _ _ _] _|k l r d e Hk [Hp Hh _ _ _] _ Hpause _
    |k l r d l' r' Hk [Hp Hh _ _ _] _ Hpause _ (IH1 & IH2 & IH3)];
    rewrite ?pauses_app, ?hops_app, ?Hp; cbn [pauses hops app]; rewrite ?app_nil_r.
  - simpl length. split_and!; [lia|lia|constructor].
  - simpl length. split_and!; [lia|lia|repeat constructor; eauto].
  - rewrite length_app. simpl length in *. split_and!; [lia|lia|constructor; eauto].
Qed.

(** The result of a stage raced against the deadline. *)
Lemma try_run_until_err {A E} (into : E → NetError) d (s : StageEnd A E) e :
  try_run_until into d s = Err e → e = Cancelled ∨ e = Timeout ∨ ∃ x, e = into x.
Proof.
  unfold try_run_until. destruct s as [| |[a|x] now]; simpl; [by intros [= <-]; auto..|done|].
  intros [= <-]. case_if; eauto.
Qed.

Lemma asked_transport {A} d (s : StageEnd A TransportError) (B : Type) l h e :
  try_run_until of_transport_error d s = Err e → last l = Some (Sent h) →
  asked_last (A := B) l (Err e).
Proof.
  intros [->|[->|[x ->]]]%try_run_until_err Hl; [done..|]. unfold of_transport_error.
  destruct (at_proxy x); simpl; eauto.
Qed.

Lemma read_chunks_err limit d stream output e :
  read_chunks limit d stream output = Err e →
  e = Cancelled ∨ e = Timeout ∨ ∃ x, e = of_transport_error x.
Proof.
  revert output. induction stream as [|stage stream IH]; intros output; simpl; [done|].
  destruct (try_run_until of_transport_error d stage) as [chunk|e'] eqn:E; simpl.
  - case_if; [done|]. apply IH.
  - intros [= <-]. by eapply try_run_until_err.
Qed.

Lemma followed_location_err rq resp u e :
  followed_location rq resp u = Err e → ∃ x, e = Redirect x.
Proof.
  unfold followed_location, redirect_location. destruct (_ || _); [done|].
  destruct (negb _); simpl; [by destruct (redirects rq)|].
  destruct (location _); simpl; [by destruct (redirects rq)|]. intros [= <-]. by eexists.
Qed.

Lemma traces_validate_all p l (Q : list Event → Result unit NetError → Prop) :
  (∀ e, Q [] (Err (Policy e))) → Q [] (Ok tt) → traces (validate_all p l) Q.
Proof.
  intros He Hq. induction l as [|a l IH]; simpl; [by apply (traces_lift (Ok tt))|].
  apply traces_lift_bind; [|by intros]. intros e. destruct (validate_ip p a); [done|]. by intros [= <-].
Qed.

Lemma traces_resolve_target c u d :
  traces (resolve_target c u d) (λ l r, pauses l = [] ∧ hops l = [] ∧ asked_last l r).
Proof.
  unfold resolve_target. apply traces_lift_bind.
  { intros e. destruct (url_host u); simpl; [done|]. by intros [= <-]. }
  assert (∀ p a k, traces (do? _ := policy_check (validate_ip p a) in ret k)%W
    (λ l (r : Result (list IpAddr) NetError), pauses l = [] ∧ hops l = [] ∧ asked_last l r)) as Hv.
  { intros p a k. apply traces_lift_bind; [|by intros; apply (traces_lift (Ok _))].
    intros e. destruct (validate_ip p a); [done|]. by intros [= <-]. }
  intros [name|v|v] _; [|apply Hv..].
  apply traces_ask_bind. intros stage. simpl. apply traces_lift_bind.
  { intros e [->|[->|[x ->]]]%try_run_until_err; simpl; eauto. }
  intros addresses _. case_bool_decide; [by apply (traces_lift (Err _))|].
  apply (traces_bind _ _ (λ l r, l = [] ∧ match r with Ok _ => True | Err e => ∃ x, e = Policy x end)).
  - apply traces_validate_all; eauto.
  - by intros l e [-> [x ->]].
  - intros l x [-> _]. by apply (traces_lift (Ok _)).
Qed.

(** What one hop does. *)
Definition one_hop (u : Url) (hs : HeaderMap) (l : list Event) (r : Result TransportResponse NetError) :
    Prop :=
  pauses l = [] ∧ asked_last l r ∧
  ((hops l = [] ∧ ∃ e, r = Err e) ∨
   ∃ h, last l = Some (Sent h) ∧ hops l = [h] ∧ t_url h = u ∧ t_headers h = hs).

Lemma traces_execute_hop c rq u hs d : traces (execute_hop c rq u hs d) (one_hop u hs).
Proof.
  unfold execute_hop. apply traces_lift_bind.
  { intros e. destruct (validate_url (policy c) u); [done|]. intros [= <-].
    split_and!; [done..|]. left. split; [done|by eexists]. }
  intros _ _. apply (traces_bind _ _ (λ l r, pauses l = [] ∧ hops l = [] ∧ asked_last l r)).
  - destruct (route (proxying c) u); [|by apply (traces_lift (Ok _))].
    eapply traces_bind; [apply traces_resolve_target|done|]. intros l a (? & ? & _).
    apply (traces_lift (Ok _)). by rewrite app_nil_r.
  - intros l e (? & ? & ?). split_and!; [done..|]. left. split; [done|by eexists].
  - intros l rt (Hp & Hh & _). apply traces_ask_bind. intros now. apply traces_lift_bind.
    { intros e. unfold remaining. case_if; [done|]. intros [= <-]. rewrite app_nil_r.
      split_and!; [done..|]. left. split; [done|by eexists]. }
    intros t _. apply traces_ask_bind. intros stage. apply (traces_lift _). simpl.
    set (h := {| t_method := _ |}). unfold one_hop. rewrite pauses_app, hops_app, last_snoc, Hp, Hh.
    split_and!; [done| |right; by exists h]. destruct (try_run_until _ _ _) as [a|e] eqn:E; [done|].
    eapply asked_transport; [exact E|apply last_snoc].
Qed.

(** What an attempt does from some hop on. *)
Definition chain_of (left : nat) (u : Url) (hs : HeaderMap) (l : list Event)
    (r : Result BoundedResponse NetError) : Prop :=
  pauses l = [] ∧ length (hops l) ≤ left ∧ asked_last l r ∧
  (∀ h, head (hops l) = Some h → t_url h = u ∧ t_headers h = hs) ∧
  ∀ b, r = Ok b → ∃ h, last l = Some (Sent h) ∧ t_url h = b_url b.

(** After a hop: the chain goes on, or ends with the hop's response or an error of its own. *)
Lemma chain_after left u hs l h l' (r : Result BoundedResponse NetError) :
  pauses l = [] → last l = Some (Sent h) → hops l = [h] → t_url h = u → t_headers h = hs →
  (∃ u' hs', chain_of left u' hs' l' r) ∨
  (l' = [] ∧ match r with
             | Ok b => b_url b = u
             | Err (Dns _) | Err (EmptyDnsAnswer _) => False
             | Err _ => True
             end) →
  chain_of (S left) u hs (l ++ l') r.
Proof.
  intros Hp Hl Hh Hu Hhs [(u' & hs' & Hp' & Hlen & Ha & _ & Hb)|[-> Hr]];
    unfold chain_of; rewrite pauses_app, hops_app, Hp, Hh; cbn [length head app].
  - split_and!; [done|lia| |by intros ? [= <-]|].
    + assert (∀ e, last l' = Some e → last (l ++ l') = Some e) as Hlast.
      { intros e E. by rewrite last_app, E. }
      destruct r as [b|[]]; simpl in *; naive_solver.
    + intros b E. destruct (Hb b E) as (h' & E' & ?). exists h'. by rewrite last_app, E'.
  - rewrite app_nil_r. split_and!; [done|simpl; lia| |by intros ? [= <-]|].
    + destruct r as [b|[]]; simpl in *; eauto; done.
    + intros b ->. exists h. split; congruence.
Qed.

Lemma traces_redirect_loop c rq d limit left u hs :
  traces (redirect_loop c rq d limit left u hs) (chain_of left u hs).
Proof.
  revert u hs. induction left as [|left IH]; intros u hs; cbn [redirect_loop]; cbv zeta.
  { apply (traces_lift (Err _)). split_and!; simpl; [done|lia|done..]. }
  eapply traces_bind; [apply traces_execute_hop| |].
  { intros l e (Hp & Ha & [[Hh _]|(h & Hl & Hh & Hu & Hhs)]).
    - unfold chain_of. rewrite Hh. split_and!; simpl; [done|lia|done..].
    - unfold chain_of. rewrite Hh. split_and!; simpl; [done|lia|done|by intros ? [= <-]|done]. }
  intros l resp (Hp & _ & [[_ [e [=]]]|(h & Hl & Hh & Hu & Hhs)]).
  assert (∀ l' r, ((∃ u' hs', chain_of left u' hs' l' r) ∨
    (l' = [] ∧ match r with
               | Ok b => b_url b = u
               | Err (Dns _) | Err (EmptyDnsAnswer _) => False
               | Err _ => True
               end)) → chain_of (S left) u hs (l ++ l') r) as Hafter.
  { intros l' r. by eapply chain_after. }
  apply traces_lift_bind.
  { intros e He. apply Hafter. right. split; [done|].
    destruct (followed_location_err _ _ _ _ He) as [x ->]. done. }
  intros [loc|] _.
  - case_if; [apply (traces_lift (Err _)), Hafter; by right|].
    apply traces_lift_bind.
    { intros e. destruct (parse_url _ _ _); [done|]. intros [= <-]. apply Hafter. by right. }
    intros next _. eapply traces_weaken; [apply IH|]. intros l' r H'. apply Hafter. left. eauto.
  - apply traces_lift_bind.
    { intros e He. apply Hafter. right. split; [done|].
      destruct (read_chunks_err _ _ _ _ _ He) as [->|[->|[x ->]]]; [done..|].
      unfold of_transport_error. by destruct (at_proxy x). }
    intros body _. apply (traces_lift (Ok _)), Hafter. by right.
Qed.

Lemma traces_attempt_of c rq d : traces (fetch_redirect_chain c rq d) (attempt_of rq).
Proof.
  unfold fetch_redirect_chain. eapply traces_weaken; [apply traces_redirect_loop|].
  intros l r (? & ? & ? & ? & ?). by split.
Qed.

Lemma is_retryable_ok e : is_retryable e = true ↔ (∃ m, e = Dns m) ∨ (∃ n, e = EmptyDnsAnswer n) ∨ ∃ t, e = Transport t.
Proof. destruct e; simpl; naive_solver. Qed.

Lemma pause_after_delay rq k (r : Result BoundedResponse NetError) hs now :
  k < 4 → match r with Ok b => hs = Some (b_headers b) | Err _ => hs = None end →
  pause_after rq k r (delay_for (retry (options rq)) k hs now).
Proof.
  intros Hk Hr. unfold delay_for.
  assert (N.min (duration_mul (base_delay (retry (options rq)))
      (u32_pow2 (N.min (if (N.of_nat k <=? 0xFFFFFFFF)%N then N.of_nat k else 0xFFFFFFFF) 31)))
      (max_delay (retry (options rq))) =
    N.min (N.min (base_delay (retry (options rq)) * 2 ^ N.of_nat k) DURATION_MAX)
      (max_delay (retry (options rq)))) as E.
  { unfold duration_mul. do 4 f_equal. do 4 (destruct k as [|k]; [done|]). lia. }
  unfold pause_after. cbv zeta. rewrite E. destruct r as [b|e]; subst hs; simpl; [|done].
  destruct (retry_after_delay (b_headers b) now) as [asked|] eqn:Ea; [right; eauto|by left].
Qed.

Lemma traces_sleep d :
  traces (sleep_until_or_cancel d) (λ l r, l = [Slept d] ∧ ∀ e, r = Err e → e = Cancelled ∨ e = Timeout).
Proof.
  unfold sleep_until_or_cancel. apply traces_ask_bind. intros stage. simpl. apply traces_lift_bind.
  - intros e. destruct stage; simpl; intros [= <-]; (split; [done|]); intros ? [= <-]; auto.
  - intros _ _. by apply (traces_lift (Ok tt)).
Qed.

Lemma decide_admissible c rq : admissible c rq ∨ ¬ admissible c rq.
Proof.
  unfold admissible.
  destruct (decide (validate_url (policy c) (url rq) = Ok ())), 
    (decide (body_length rq <= MAX_REQUEST_BODY_BYTES)%N),
    (decide (Forall (λ n, is_reserved n = false) (hm_keys (headers (options rq))))); tauto.
Qed.

Lemma traces_retry_loop c rq d limit left k :
  left + k = limit → limit < 4 → traces (retry_loop c rq d left k) (attempts rq limit k).
Proof.
  intros Hk Hlimit. revert k Hk. induction left as [|left IH]; intros k Hk; cbn [retry_loop]; cbv zeta;
    (eapply traces_bind; [apply traces_attempt, traces_attempt_of|by intros l e (r0 & [=] & _)|];
     intros l r (r0 & [= <-] & Hr)).
  { apply traces_lift. rewrite app_nil_r. apply attempt_final; [lia|done|]. left. lia. }
  assert (∀ pause, may_retry rq r → pause_after rq k r pause →
    traces (do? _ := sleep_until_or_cancel pause in retry_loop c rq d left (S k))%W
      (λ l' r', attempts rq limit k (l ++ l') r')) as Hagain.
  { intros pause Hm Hd. eapply traces_bind; [apply traces_sleep| |].
    - intros l' e [-> He]. apply attempt_interrupted with (r := r); [lia|done..|by apply He].
    - intros l' [] [-> _]. apply (traces_weaken _ (attempts rq limit (S k))); [apply IH; lia|].
      intros l' r' H'. simpl.
      apply attempt_again with (r := r); [lia|done..]. }
  assert (¬ may_retry rq r → traces (lift r) (λ l' r', attempts rq limit k (l ++ l') r')) as Hlast.
  { intros Hn. apply traces_lift. rewrite app_nil_r. apply attempt_final; [lia|done|by right]. }
  destruct r as [b|e].
  - case_bool_decide as Hb; [|by apply Hlast]. apply traces_ask_bind. intros now. simpl.
    apply Hagain; [done|]. by apply pause_after_delay; [lia|].
  - destruct (is_retryable e) eqn:Ee.
    + apply is_retryable_ok in Ee. apply Hagain; [done|]. by apply pause_after_delay; [lia|].
    + apply Hlast. simpl. rewrite <- is_retryable_ok. congruence.
Qed.

Lemma traces_request c rq :
  admissible c rq → traces (request c rq) (attempts rq (retries rq) 0).
Proof.
  intros (Hv & Hb & Hh). unfold request. rewrite Hv.
  apply traces_lift_bind; [done|]. intros _ _.
  rewrite (proj2 (N.ltb_ge _ _)) by done. apply (traces_lift_bind (Ok tt)); [done|]. intros _ _.
  destruct (List.find _ _) as [n|] eqn:E.
  { apply find_some in E as [Hin E]. rewrite Forall_forall in Hh. rewrite Hh in E; [done|].
    by apply list_elem_of_In. }
  apply (traces_lift_bind (Ok tt)); [done|]. intros _ _. apply traces_ask_bind. intros now. simpl.
  apply traces_retry_loop; [lia|]. unfold retries, MAX_RETRIES. case_if; lia.
Qed.

(** C37: A request that is refused asks nothing.  Otherwise it is a sequence of attempts, at most
    [1 + min(max_retries, 3)], a single one for a method that is not idempotent: each makes at
    most [1 + min(max_redirects, 20)] hops, from the request's own URL on, and no pause; each
    but the last ended in an answer of the resolver or the transport that may be retried, which
    it is while attempts are left; between two there is one pause, twice as long each time or
    as long as the response asks, never longer than the policy's maximum; and the result is
    that of the last attempt, or the end of the pause that was cut short.  So there are at most
    as many pauses as retries, and no more hops than the attempts around them allow. *)
Theorem request_bounded c rq w :
  let r := (request c rq (start w)).1 in
  let events := log (request c rq (start w)).2 in
  let limit := if method_is_idempotent (method rq)
               then Nat.min (max_retries (retry (options rq))) 3 else 0 in
  (¬ admissible c rq → events = [] ∧ ∃ e, r = Err e) ∧
  (admissible c rq → attempts rq limit 0 events r) ∧
  length (pauses events) ≤ limit ∧
  length (hops events) ≤ S (length (pauses events)) * S (Nat.min (max_redirects (options rq)) 20) ∧
  Forall (λ d, (d <= max_delay (retry (options rq)))%N) (pauses events).
Proof.
  intros r events limit.
  assert (¬ admissible c rq → events = [] ∧ ∃ e, r = Err e) as Href.
  { intros (e & E & _)%(request_refused c rq (start w)). subst events r. rewrite E. eauto. }
  assert (admissible c rq → attempts rq limit 0 events r) as Hatt.
  { intros H. destruct (traces_request c rq H (start w)) as (new & E & Hnew).
    subst events r. rewrite E. exact Hnew. }
  split; [done|]. split; [done|]. destruct (decide_admissible c rq) as [H|H].
  - destruct (attempts_bounds _ _ _ _ _ (Hatt H)) as (? & ? & ?). split_and!; [lia|done..].
  - destruct (Href H) as [-> _]. simpl. split_and!; [lia|lia|constructor].
Qed.

(** ** Bodies *)

(** The chunks of a stream that never fails. *)
Definition chunks_of (chunks : list (list N * N)) : list (StageEnd (list N) TransportError) :=
  map (λ '(chunk, now), StageDone (Ok chunk) now) chunks.

Lemma read_chunks_ok limit d chunks output :
  length output ≤ limit →
  read_chunks limit d (chunks_of chunks) output =
  Ok (take limit (output ++ mjoin chunks.*1),
      (limit <? length (output ++ mjoin chunks.*1))%nat).
Proof.
  revert output. induction chunks as [|[chunk now] chunks IH]; intros output Ho; simpl.
  - rewrite app_nil_r, take_ge by done. by rewrite (proj2 (Nat.ltb_ge _ _)).
  - case_if; bool_prop.
    + rewrite !length_app, (proj2 (Nat.ltb_lt _ _)) by lia. f_equal. f_equal.
      rewrite take_app, take_app. rewrite (take_ge output) by lia. f_equal.
      replace (limit - length output - length chunk) with 0 by lia. by rewrite take_0, app_nil_r.
    + rewrite IH by (rewrite length_app; lia). by rewrite <- app_assoc.
Qed.

(** A body is the first [limit] bytes of the stream, whatever its chunking, and is
    marked truncated exactly when the stream has more. *)
Theorem bounded_body_prefix r limit d chunks :
  r_body r = chunks_of chunks →
  read_bounded_body r limit d =
  Ok (take limit (mjoin chunks.*1), (limit <? length (mjoin chunks.*1))%nat).
Proof. intros E. unfold read_bounded_body. rewrite E, read_chunks_ok; [done|simpl; lia]. Qed.

End safety.

(** ** A concrete environment, for the examples

    A header map as an association list; an origin that redirects its only page to
    another host, which answers. *)
Module ExampleNet.

#[export] Instance urls : UrlLib := ExampleUrl.lib.
#[export] Instance connectors : ProxyLib := {| Connector := unit; connector_for _ := Some tt |}.

#[export] Instance http : HttpLib := {|
  HeaderMap := list (str * str);
  HeaderValue := str;
  hm_new := [];
  hm_append m n v := m ++ [(n, v)];
  hm_get_all m n := (filter (λ p, p.1 = n) m).*2;
  hm_keys m := m.*1;
  hv_to_str v := Some v;
  Method := bool;
  GET := true;
  method_is_idempotent m := m;
  parse_http_date _ := None;
|}.

#[export] Instance http_laws : HttpLaws.
Proof.
  constructor.
  - done.
  - intros m n v n'. simpl. rewrite filter_app, fmap_app. f_equal.
    unfold str_eqb. case_bool_decide; simpl.
    + by rewrite filter_cons_True.
    + by rewrite filter_cons_False.
  - intros m n. simpl. induction m as [|[n0 v] m IH]; [set_solver|].
    change (n ∈ ((n0, v) :: m).*1) with (n ∈ n0 :: m.*1). rewrite elem_of_cons, IH.
    destruct (decide (n0 = n)) as [->|Hne].
    + rewrite filter_cons_True by done. naive_solver.
    + rewrite filter_cons_False by done. naive_solver.
Qed.

Definition answer (hop : TransportRequest) : TransportResponse :=
  if str_eqb (ExampleUrl.host (t_url hop)) (lit "docs.rs")
  then {| r_status := 302; r_headers := [(lit "location", lit "https://static.docs.rs/std")];
          r_body := [] |}
  else {| r_status := 200; r_headers := [];
          r_body := [StageDone (Ok [1; 2; 3]%N) 5; StageDone (Ok [4; 5]%N) 6] |}.

#[export] Instance env : NetEnv := {|
  World := unit;
  env_resolve _ w := (StageDone (Ok [V4 (quad 93 184 216 34)]) 1, w);
  env_execute hop w := (StageDone (Ok (answer hop)) 2, w);
  env_sleep _ w := (StageDone (Ok tt) 3, w);
  env_now w := (0%N, w);
  env_system_now w := (0%N, w);
|}.

Definition client : HttpClient := {| policy := PublicInternet; proxying := direct |}.
Definition fetch_docs : RequestSpec :=
  {| method := GET; url := example_docs; body := None; redirects := AnyOrigin;
     options :=
       {| timeout := 10; max_redirects := 5; max_body_bytes := 4;
          headers := [(lit "authorization", lit "secret"); (lit "accept", lit "text/html")];
          retry := RetryPolicy_default |} |}.

End ExampleNet.

Import ExampleNet.

(** The redirect leaves the origin: the second hop has lost the credential, and the
    body is cut at four bytes. *)
Example fetch_docs_runs :
  (match (request client fetch_docs (start tt)).1 with
   | Ok r => Some (b_body r, b_truncated r) | Err _ => None end,
   map (λ h, map fst (t_headers h)) (hops (log (request client fetch_docs (start tt)).2)))
  = (Some ([1; 2; 3; 4]%N, true), [[lit "authorization"; lit "accept"]; [lit "accept"]]).
Proof. vm_compute. reflexivity. Qed.

Lemma request_hops_confined_witness :
  Forall (λ h,
    (origin (t_url h) = origin (url fetch_docs) ∧ t_headers h = headers (options fetch_docs)) ∨
    (method fetch_docs = GET ∧ body fetch_docs = None ∧ redirects fetch_docs = AnyOrigin ∧
     sanitized (headers (options fetch_docs)) (t_headers h)))
    (hops (log (request client fetch_docs (start tt)).2)).
Proof. exact (request_hops_confined (laws := http_laws) client fetch_docs tt). Defined.

Definition fetch_private : RequestSpec :=
  {| method := GET; url := example_private; body := None; redirects := AnyOrigin;
     options := options fetch_docs |}.

Lemma request_refused_witness :
  ∃ e, request client fetch_private (start (World := World) tt)
         = (Err e, start (World := World) tt) ∧ is_retryable e = false.
Proof.
  apply request_refused. intros (Hv & _). vm_compute in Hv. discriminate.
Defined.

Definition example_body : TransportResponse :=
  {| r_status := 200; r_headers := []; r_body := chunks_of [([1; 2]%N, 0%N); ([3; 4]%N, 1%N)] |}.

Lemma bounded_body_prefix_witness :
  read_bounded_body example_body 3 10 = Ok ([1; 2; 3]%N, true).
Proof.
  exact (bounded_body_prefix example_body 3 10 [([1; 2]%N, 0%N); ([3; 4]%N, 1%N)] eq_refl).
Defined.
