(* ===== verification/PathPolicy.v ===== *)
(** * Root path policy: [crates/mcp-files/src/path_policy.rs], [error.rs]

    Paths are [std::path::Path] on Unix, as the sequence [Path::components] yields;
    a file name is text.  [canonicalize] is the file system as seen at each call, so
    it may answer differently from one call to the next. *)

From S2P Require Import Prelude.

(** ** Errors: [error.rs] *)

(** The kinds of [io::Error] the code distinguishes. *)
Inductive IoError : Type := IoNotFound | IoPermissionDenied | IoAlreadyExists | IoOther.

Inductive FilesystemError : Type :=
| RootEscape (m : str)
| ProtectedPath (m : str)
| Operation (m : str)
| InvalidRequest (m : str)
| NotFound (m : str)
| Stale (m : str)
| Aborted
| Io (context : str) (source : IoError).

#[export] Instance IoError_eq_dec : EqDecision IoError.
Proof. solve_decision. Defined.
#[export] Instance FilesystemError_eq_dec : EqDecision FilesystemError.
Proof. solve_decision. Defined.

Definition error_code (e : FilesystemError) : str :=
  match e with
  | RootEscape _ => lit "path_outside_root"
  | ProtectedPath _ => lit "protected_path"
  | Operation _ => lit "invalid_operation"
  | InvalidRequest _ => lit "invalid_input"
  | NotFound _ => lit "not_found"
  | Stale _ => lit "stale_resource"
  | Aborted => lit "cancelled"
  | Io _ IoNotFound => lit "not_found"
  | Io _ IoPermissionDenied => lit "filesystem_permission_denied"
  | Io _ (IoAlreadyExists | IoOther) => lit "filesystem_io"
  end.

Definition invalid {A} (m : str) : Result A FilesystemError := Err (InvalidRequest m).

Definition is_not_found (e : FilesystemError) : bool :=
  match e with
  | NotFound _ => true
  | Io _ source => bool_decide (source = IoNotFound)
  | _ => false
  end.

(** ** Paths of the standard library *)

Inductive Component : Type :=
| RootDir
| CurDir
| ParentDir
| Normal (name : str).

#[export] Instance Component_eq_dec : EqDecision Component.
Proof. solve_decision. Defined.

Abbreviation Path := (list Component) (only parsing).

Definition is_absolute (p : Path) : bool := bool_decide (head p = Some RootDir).

Definition component_of (first : bool) (s : str) : option Component :=
  if bool_decide (s = []) then None
  else if str_eqb s (lit ".") then (if first then Some CurDir else None)
  else if str_eqb s (lit "..") then Some ParentDir
  else Some (Normal s).

(** [Path::new(s).components()]: empty pieces and inner dots are dropped. *)
Definition path_new (s : str) : Path :=
  match split_on SLASH s with
  | [] => []
  | [] :: [] => []
  | [] :: rest => RootDir :: omap (component_of false) rest
  | first :: rest => option_list (component_of true first) ++ omap (component_of false) rest
  end.

Definition component_text (c : Component) : str :=
  match c with
  | RootDir => lit "/" | CurDir => lit "." | ParentDir => lit ".." | Normal s => s
  end.

(** [Path::to_string_lossy]. *)
Definition path_text (p : Path) : str :=
  match p with
  | RootDir :: rest => lit "/" ++ join (lit "/") (map component_text rest)
  | _ => join (lit "/") (map component_text p)
  end.

(** [PathBuf::push] and [Path::join]: an absolute argument replaces. *)
Definition path_join (p q : Path) : Path := if is_absolute q then q else p ++ q.

(** [PathBuf::pop] and [Path::parent]: nothing above the root directory. *)
Definition path_parent (p : Path) : option Path :=
  match last p with
  | Some RootDir | None => None
  | Some _ => Some (take (length p - 1) p)
  end.

Definition path_pop (p : Path) : Path := default p (path_parent p).

Definition path_file_name (p : Path) : option str :=
  match last p with Some (Normal name) => Some name | _ => None end.

Fixpoint path_strip_prefix (root p : Path) : option Path :=
  match root, p with
  | [], _ => Some p
  | r :: root', c :: p' => if bool_decide (r = c) then path_strip_prefix root' p' else None
  | _ :: _, [] => None
  end.

Definition path_starts_with (p root : Path) : bool :=
  match path_strip_prefix root p with Some _ => true | None => false end.

(** ** The policy *)

Record RootPathPolicy := { root : Path; confined : bool }.

Fixpoint normalize_onto (normalized : Path) (p : Path) : Path :=
  match p with
  | [] => normalized
  | CurDir :: p' => normalize_onto normalized p'
  | ParentDir :: p' => normalize_onto (path_pop normalized) p'
  | RootDir :: p' => normalize_onto (path_join normalized [RootDir]) p'
  | Normal name :: p' => normalize_onto (path_join normalized [Normal name]) p'
  end.

Definition normalize (p : Path) : Path := normalize_onto [] p.

Definition starts_with_root (candidate root : Path) : bool := path_starts_with candidate root.

Section policy.
(** [str::to_lowercase], the Unicode mapping. *)
Context (to_lowercase : str → str).
(** [dunce::canonicalize] at the [n]-th call. *)
Context (canonicalize : nat → Path → Result Path IoError).

Definition is_ascii (s : str) : bool := forallb (fun c => (c <? 128)%N) s.

Definition fold_case (component : str) : str :=
  if is_ascii component then to_ascii_lowercase component else to_lowercase component.

Definition PROTECTED_DIRECTORIES : list str := [lit ".git"; lit ".ssh"; lit ".workcell"].

Definition protected_basename (basename : str) : bool :=
  str_eqb basename (lit ".env")
  || starts_with (lit ".env.") basename
  || existsb (str_eqb basename) [lit ".npmrc"; lit ".pypirc"; lit ".netrc"]
  || ends_with (lit ".key") basename
  || existsb (str_eqb basename) [lit "id_rsa"; lit "id_dsa"; lit "id_ecdsa"; lit "id_ed25519"].

(** The loop over the components: [None] is the early return. *)
Fixpoint protected_loop (basename : option str) (p : Path) : bool :=
  match p with
  | [] => match basename with Some basename => protected_basename basename | None => false end
  | component :: p' =>
      let folded := fold_case (component_text component) in
      if existsb (str_eqb folded) PROTECTED_DIRECTORIES then true
      else protected_loop (Some folded) p'
  end.

Definition protected_relative (p : Path) : bool := protected_loop None p.

Definition assert_inside (policy : RootPathPolicy) (candidate : Path) (requested : str) :
    Result unit FilesystemError :=
  if starts_with_root candidate (root policy) then Ok ()
  else Err (RootEscape (lit "Path escapes filesystem root: " ++ requested)).

Definition assert_not_protected (policy : RootPathPolicy) (candidate : Path) (requested : str) :
    Result unit FilesystemError :=
  (let? relative := ok_or (path_strip_prefix (root policy) candidate)
                      (RootEscape (lit "Path escapes filesystem root: " ++ requested)) in
   if bool_decide (relative = []) then Ok ()
   else if protected_relative relative
   then Err (ProtectedPath (lit "Path is protected by filesystem policy: " ++ requested))
   else Ok ())%W.

Definition check_confined (policy : RootPathPolicy) (candidate : Path) (requested : str) :
    Result unit FilesystemError :=
  if confined policy
  then (let? _ := assert_inside policy candidate requested in
        assert_not_protected policy candidate requested)%W
  else Ok ().

(** The loop of [resolve]; each iteration removes a component, so [fuel] is the
    number of components and [None] its exhaustion.  [suffix] holds the removed
    names, the innermost first. *)
Fixpoint resolve_loop (policy : RootPathPolicy) (requested : str) (fuel call : nat)
    (current : Path) (suffix : list str) : option (Result Path FilesystemError) :=
  match canonicalize call current with
  | Ok existing =>
      let canonical := foldl (fun c part => path_join c [Normal part]) existing (reverse suffix) in
      Some (let? _ := check_confined policy canonical requested in Ok canonical)%W
  | Err _ =>
      let failed := Operation (lit "Cannot resolve path: " ++ requested) in
      match path_file_name current with
      | None => Some (Err failed)
      | Some name =>
          match path_parent current with
          | None => Some (Err failed)
          | Some parent =>
              match fuel with
              | 0 => None
              | S fuel' =>
                  resolve_loop policy requested fuel' (S call) parent (suffix ++ [name])
              end
          end
      end
  end.

Definition lexical_path (policy : RootPathPolicy) (requested : str) : Path :=
  let requested_path := path_new requested in
  if is_absolute requested_path then normalize requested_path
  else normalize (path_join (root policy) requested_path).

Definition resolve (policy : RootPathPolicy) (requested : str) :
    option (Result Path FilesystemError) :=
  if bool_decide (requested = []) then Some (Err (InvalidRequest (lit "path is required")))
  else
    let lexical := lexical_path policy requested in
    match check_confined policy lexical requested with
    | Err e => Some (Err e)
    | Ok _ => resolve_loop policy requested (length lexical) 0 lexical []
    end.

Definition revalidate (policy : RootPathPolicy) (authorized : Path) :
    Result Path FilesystemError :=
  match canonicalize 0 authorized with
  | Err e => Err (Io (lit "Cannot revalidate authorized path " ++ path_text authorized) e)
  | Ok canonical =>
      (let? _ := check_confined policy canonical (path_text authorized) in Ok canonical)%W
  end.

Definition resolve_internal_existing (policy : RootPathPolicy) (candidate : Path) :
    Result Path FilesystemError :=
  match canonicalize 0 candidate with
  | Err e => Err (Io (lit "Cannot resolve internal workspace path " ++ path_text candidate) e)
  | Ok canonical =>
      if confined policy
      then (let? _ := assert_inside policy canonical (path_text candidate) in Ok canonical)%W
      else Ok canonical
  end.

Definition relative (policy : RootPathPolicy) (p : Path) : Result str FilesystemError :=
  (let? _ := (if confined policy then assert_inside policy p (path_text p) else Ok ()) in
   match path_strip_prefix (root policy) p with
   | None => Ok (path_text p)
   | Some relative =>
       if bool_decide (relative = []) then Ok (lit ".")
       else Ok (join (lit "/") (map component_text relative))
   end)%W.

Definition is_protected_path (policy : RootPathPolicy) (p : Path) : bool :=
  protected_relative (default p (path_strip_prefix (root policy) p)).

Definition traversal_allows_protected (policy : RootPathPolicy) (traversal_root : Path) : bool :=
  negb (confined policy) || is_protected_path policy traversal_root.

Definition traversal_entry_allowed (policy : RootPathPolicy) (allows_protected : bool)
    (candidate : Path) : bool :=
  allows_protected || negb (is_protected_path policy candidate).

Definition authorize_canonical_entry (policy : RootPathPolicy) (candidate : Path) : bool :=
  if negb (confined policy) then true
  else if negb (starts_with_root candidate (root policy)) then false
  else match path_strip_prefix (root policy) candidate with
       | Some relative => bool_decide (relative = []) || negb (protected_relative relative)
       | None => false
       end.

Definition protects_relative (policy : RootPathPolicy) (relative : str) : bool :=
  confined policy && protected_relative (path_new relative).

End policy.

(** ** Lemmas on paths *)

Lemma path_strip_prefix_Some r p rel : path_strip_prefix r p = Some rel ↔ p = r ++ rel.
Proof.
  revert p. induction r as [|c r IH]; intros p; simpl; [split; congruence|].
  destruct p as [|d p]; [done|]. case_bool_decide as Hc.
  - rewrite IH. subst d. split; congruence.
  - split; congruence.
Qed.

Lemma path_starts_with_true p r : path_starts_with p r = true ↔ ∃ rel, p = r ++ rel.
Proof.
  unfold path_starts_with. setoid_rewrite <- path_strip_prefix_Some.
  destruct (path_strip_prefix r p); naive_solver.
Qed.

Lemma path_parent_snoc p name : path_parent (p ++ [Normal name]) = Some p.
Proof.
  unfold path_parent. rewrite last_snoc, length_app. simpl.
  by rewrite Nat.add_sub, take_app_length.
Qed.

Lemma path_file_name_Some p name :
  path_file_name p = Some name → ∃ parent, p = parent ++ [Normal name].
Proof.
  unfold path_file_name. destruct (last p) as [[]|] eqn:E; try done.
  intros [= ->]. by apply last_Some in E.
Qed.

(** Names as the file system has them. *)
Definition name_ok (s : str) : Prop := s ≠ [] ∧ SLASH ∉ s ∧ s ≠ lit "." ∧ s ≠ lit "..".

(** An absolute path without dot components. *)
Definition absolute (names : list str) : Path := RootDir :: map Normal names.

Lemma component_of_name first s : name_ok s → component_of first s = Some (Normal s).
Proof.
  intros (H1 & _ & H2 & H3). unfold component_of, str_eqb.
  by rewrite !bool_decide_eq_false_2 by done.
Qed.

Lemma map_component_text ns : map component_text (map Normal ns) = ns.
Proof. induction ns; simpl; congruence. Qed.

Lemma path_new_text ns : Forall name_ok ns → path_new (path_text (absolute ns)) = absolute ns.
Proof.
  intros Hns. unfold path_new, path_text, absolute. rewrite map_component_text.
  change (lit "/" ++ ?s) with (SLASH :: s).
  assert (∀ s, split_on SLASH (SLASH :: s) = [] :: split_on SLASH s) as -> by done.
  destruct ns as [|n ns]; [done|]. change (lit "/") with [SLASH].
  rewrite (split_on_join SLASH (n :: ns)); [|done|].
  2: { eapply Forall_impl; [exact Hns|]. by intros s (_ & ? & _). }
  f_equal. induction Hns as [|s l Hs _ IH]; [done|]. cbn [omap list_omap map].
  rewrite component_of_name by done. by rewrite IH.
Qed.

Lemma normalize_onto_names acc ns :
  is_absolute acc = true → normalize_onto acc (map Normal ns) = acc ++ map Normal ns.
Proof.
  revert acc. induction ns as [|n ns IH]; intros acc Ha; simpl; [by rewrite app_nil_r|].
  unfold path_join. simpl. rewrite IH; [by rewrite <- app_assoc|].
  by destruct acc.
Qed.

Lemma normalize_absolute ns : normalize (absolute ns) = absolute ns.
Proof. apply (normalize_onto_names [RootDir]). done. Qed.

Lemma path_pop_absolute ns : ∃ ns', path_pop (absolute ns) = absolute ns'.
Proof.
  unfold path_pop. destruct ns as [|n ns _] using rev_ind; [by exists []|].
  exists ns. unfold absolute. rewrite map_app. cbn [map].
  change (RootDir :: ?a ++ ?b) with ((RootDir :: a) ++ b). by rewrite path_parent_snoc.
Qed.

(** Normalization never leaves a dot component and never climbs above the root. *)
Lemma normalize_onto_absolute ns p : ∃ ns', normalize_onto (absolute ns) p = absolute ns'.
Proof.
  revert ns. induction p as [|[] p IH]; intros ns; simpl; [by exists ns|..].
  - apply (IH []).
  - apply IH.
  - destruct (path_pop_absolute ns) as [ns' ->]. apply IH.
  - specialize (IH (ns ++ [name])). unfold absolute in *. by rewrite map_app in IH.
Qed.

Lemma existsb_str_eqb s l : existsb (str_eqb s) l = true ↔ s ∈ l.
Proof.
  rewrite existsb_exists. setoid_rewrite str_eqb_eq. setoid_rewrite <- list_elem_of_In.
  naive_solver.
Qed.

Section policy_theorems.
Context (to_lowercase : str → str).
Context (canonicalize : nat → Path → Result Path IoError).
Implicit Types (policy : RootPathPolicy).

Abbreviation fold := (fold_case to_lowercase) (only parsing).

Definition protected_spec (p : Path) : Prop :=
  (∃ c, c ∈ p ∧ fold (component_text c) ∈ PROTECTED_DIRECTORIES) ∨
  (∃ c, last p = Some c ∧ protected_basename (fold (component_text c)) = true).

Lemma protected_loop_spec b p :
  protected_loop to_lowercase b p = true ↔
  protected_spec p ∨ (p = [] ∧ from_option protected_basename false b = true).
Proof.
  revert b. induction p as [|c p IH]; intros b; cbn [protected_loop].
  { unfold protected_spec. destruct b; simpl; set_solver. }
  cbv zeta.
  destruct (existsb (str_eqb (fold (component_text c))) PROTECTED_DIRECTORIES) eqn:E.
  { apply existsb_str_eqb in E. split; [|done]. intros _. left. left. exists c. set_solver. }
  assert (fold (component_text c) ∉ PROTECTED_DIRECTORIES) as Hc.
  { intros H. apply existsb_str_eqb in H. congruence. }
  rewrite IH. unfold protected_spec. cbn [from_option]. destruct p as [|d p]; [set_solver|].
  rewrite last_cons_cons. set_solver.
Qed.

Lemma protected_relative_spec p : protected_relative to_lowercase p = true ↔ protected_spec p.
Proof.
  unfold protected_relative. rewrite protected_loop_spec. simpl. naive_solver.
Qed.

(** A path the policy shows: below the root, and nothing protected on the way. *)
Definition visible policy (p : Path) : Prop :=
  ∃ rel, p = root policy ++ rel ∧ ¬ protected_spec rel.

Lemma protected_spec_nil : ¬ protected_spec [].
Proof. unfold protected_spec. set_solver. Qed.

Lemma check_confined_visible policy p requested :
  confined policy = true →
  check_confined to_lowercase policy p requested = Ok () ↔ visible policy p.
Proof.
  intros Hc. unfold check_confined, assert_inside, assert_not_protected, starts_with_root,
    path_starts_with, visible. rewrite Hc. setoid_rewrite <- path_strip_prefix_Some.
  destruct (path_strip_prefix (root policy) p) as [rel|] eqn:E; simpl; [|naive_solver].
  case_bool_decide as Hrel.
  { subst rel. split; [|done]. intros _. exists []. split; [done|apply protected_spec_nil]. }
  destruct (protected_relative to_lowercase rel) eqn:Ep.
  - apply protected_relative_spec in Ep. naive_solver.
  - assert (¬ protected_spec rel) by (rewrite <- protected_relative_spec; congruence).
    naive_solver.
Qed.

Lemma checked_iff policy p requested :
  check_confined to_lowercase policy p requested = Ok () ↔ (confined policy = true → visible policy p).
Proof.
  destruct (confined policy) eqn:Hc.
  - rewrite check_confined_visible by done. naive_solver.
  - unfold check_confined. by rewrite Hc.
Qed.

Lemma authorize_visible policy p :
  confined policy = true → authorize_canonical_entry to_lowercase policy p = true ↔ visible policy p.
Proof.
  intros Hc. rewrite <- (check_confined_visible policy p []) by done.
  unfold authorize_canonical_entry, check_confined, assert_inside, assert_not_protected,
    starts_with_root, path_starts_with. rewrite Hc. simpl.
  destruct (path_strip_prefix _ _) as [rel|]; simpl; [|done].
  case_bool_decide; simpl; [done|]. by destruct (protected_relative _ _).
Qed.

Lemma foldl_push existing suffix :
  foldl (λ c part, path_join c [Normal part]) existing suffix = existing ++ map Normal suffix.
Proof.
  revert existing. induction suffix as [|s suffix IH]; intros existing; simpl;
    [by rewrite app_nil_r|]. rewrite IH. unfold path_join. simpl. by rewrite <- app_assoc.
Qed.

(** [target] is the canonical path of the nearest existing ancestor of [spelling], which lacks
    the names [missing] at its end: the [i]-th call, from [call] on, asked about the spelling
    without its last [i] names, and every one but the last failed. *)
Definition nearest (call : nat) (spelling : Path) (missing : list str) (target : Path) : Prop :=
  ∃ existing, spelling = existing ++ map Normal missing ∧
    canonicalize (call + length missing) existing = Ok target ∧
    ∀ i, i < length missing →
      ∃ e, canonicalize (call + i) (existing ++ map Normal (take (length missing - i) missing)) = Err e.

Lemma nearest_here call p missing target t :
  canonicalize call p = Ok t → nearest call p missing target ↔ missing = [] ∧ target = t.
Proof.
  intros Hc. split.
  - intros (existing & -> & Ht & Hf). destruct missing as [|m missing].
    + cbn [map length] in *. rewrite app_nil_r, ?Nat.add_0_r in *. split; congruence.
    + destruct (Hf 0) as [e He]; [simpl; lia|]. rewrite Nat.add_0_r, Nat.sub_0_r, firstn_all in He. congruence.
  - intros [-> ->]. exists p. cbn [map length]. rewrite app_nil_r, Nat.add_0_r. split_and!; [done..|]. lia.
Qed.

Lemma nearest_above call parent name missing target e :
  canonicalize call (parent ++ [Normal name]) = Err e →
  nearest call (parent ++ [Normal name]) missing target ↔
  ∃ missing', missing = missing' ++ [name] ∧ nearest (S call) parent missing' target.
Proof.
  intros He. split.
  - intros (existing & Hp & Ht & Hf). destruct missing as [|m missing' _] using rev_ind.
    + cbn [map length] in *. rewrite app_nil_r, Nat.add_0_r in *. congruence.
    + rewrite map_app, app_assoc in Hp. apply app_inj_tail in Hp as [-> [= ->]]. exists missing'. split; [done|].
      exists existing. rewrite length_app in *. cbn [length] in *. split_and!; [done| |].
      * by replace (S call + length missing') with (call + (length missing' + 1)) by lia.
      * intros i Hi. destruct (Hf (S i)) as [e' He']; [lia|]. exists e'.
        rewrite take_app_le in He' by lia. rewrite <- He'. f_equal; [lia|]. do 3 f_equal. lia.
  - intros (missing' & -> & existing & -> & Ht & Hf). exists existing. rewrite length_app. cbn [length].
    split_and!; [by rewrite map_app, app_assoc| |].
    + by replace (call + (length missing' + 1)) with (S call + length missing') by lia.
    + intros [|i] Hi.
      * exists e. rewrite Nat.add_0_r, take_ge by (rewrite length_app; simpl; lia). by rewrite map_app, app_assoc.
      * destruct (Hf i) as [e' He']; [lia|]. exists e'. rewrite take_app_le by lia. rewrite <- He'.
        f_equal; [lia|]. do 3 f_equal. lia.
Qed.

(** [resolve_loop] answers: the nearest existing ancestor, canonicalized, with the
    missing names appended, provided the policy shows it. *)
Lemma resolve_loop_spec policy requested fuel call current suffix :
  length current ≤ fuel →
  ∃ r, resolve_loop to_lowercase canonicalize policy requested fuel call current suffix = Some r ∧
    ∀ p, r = Ok p ↔ (confined policy = true → visible policy p) ∧
      ∃ missing target, nearest call current missing target ∧ p = target ++ map Normal (missing ++ reverse suffix).
Proof.
  revert call current suffix. induction fuel as [|fuel IH]; intros call current suffix Hlen;
    cbn [resolve_loop]; destruct (canonicalize call current) as [existing|e] eqn:Ec.
  1, 3: eexists; split; [done|]; intros p; setoid_rewrite (nearest_here _ _ _ _ _ Ec); rewrite foldl_push; split;
    [intros ([] & Hc & [= <-])%result_bind_ok; rewrite checked_iff in Hc; split; [done|]; by exists [], existing
    |intros (Hv & ms & t & [-> ->] & ->); apply result_bind_ok; exists (); by rewrite checked_iff].
  - destruct current; [|simpl in Hlen; lia]. simpl. eexists. split; [done|]. intros p. split; [done|].
    intros (_ & missing & target & (ex & Hex & Ht & _) & _).
    symmetry in Hex. apply app_nil in Hex as [-> Hm%map_eq_nil]. subst missing. cbn [length] in Ht.
    rewrite Nat.add_0_r in Ht. congruence.
  - destruct (path_file_name current) as [name|] eqn:En.
    2: { eexists. split; [done|]. intros p. split; [done|].
      intros (_ & missing & target & (ex & Hex & Ht & _) & _). destruct missing as [|m missing _] using rev_ind.
      - cbn [map length] in *. rewrite app_nil_r, Nat.add_0_r in *. congruence.
      - unfold path_file_name in En. rewrite Hex, map_app, app_assoc in En. cbn [map] in En. by rewrite last_snoc in En. }
    apply path_file_name_Some in En as [parent ->]. rewrite path_parent_snoc.
    rewrite length_app in Hlen. simpl in Hlen.
    destruct (IH (S call) parent (suffix ++ [name]) ltac:(lia)) as (r & -> & Hr).
    exists r. split; [done|]. intros p. rewrite Hr. setoid_rewrite (nearest_above _ _ _ _ _ _ Ec).
    rewrite reverse_app. cbn [reverse rev_append app]. split; intros [Hv H]; (split; [done|]).
    + destruct H as (ms & t & Hn & ->). exists (ms ++ [name]), t. split; [by eauto|]. by rewrite <- app_assoc.
    + destruct H as (ms & t & (ms' & -> & Hn) & ->). exists ms', t. split; [done|]. by rewrite <- app_assoc.
Qed.

Lemma resolve_answers policy requested :
  ∃ r, resolve to_lowercase canonicalize policy requested = Some r ∧
    ∀ p, r = Ok p ↔ requested ≠ [] ∧
      (confined policy = true → visible policy (lexical_path policy requested) ∧ visible policy p) ∧
      ∃ missing target, nearest 0 (lexical_path policy requested) missing target ∧
        p = target ++ map Normal missing.
Proof.
  unfold resolve. case_bool_decide as Hne; [eexists; split; [done|naive_solver]|].
  set (lexical := lexical_path policy requested).
  destruct (resolve_loop_spec policy requested (length lexical) 0 lexical []) as (r & Hr & Hp); [done|].
  pose proof (checked_iff policy lexical requested) as Hc.
  destruct (check_confined to_lowercase policy lexical requested) as [[]|e] eqn:E0; clear E0.
  - exists r. split; [done|]. intros p. rewrite Hp, reverse_nil. setoid_rewrite app_nil_r. naive_solver.
  - eexists. split; [done|]. intros p. split; [done|]. intros (_ & Hv & _).
    assert (Err e = Ok ()) as E; [|done]. apply Hc. intros H. by apply Hv.
Qed.

(** C4: [resolve] always answers, and it returns a path exactly when it is the canonical path
    of the nearest existing ancestor of the spelling (the file system was asked about the
    spelling first, and about an ancestor only when all below it had failed), with the missing
    names appended, and a confined policy shows both the spelling and that path: they lie below
    the root with no protected component, whatever the file system answers from one call to the
    next. *)
Theorem resolve_confined policy requested :
  ∃ r, resolve to_lowercase canonicalize policy requested = Some r ∧
    ∀ p, r = Ok p ↔ requested ≠ [] ∧
      (confined policy = true → visible policy (lexical_path policy requested) ∧ visible policy p) ∧
      ∃ missing target, nearest 0 (lexical_path policy requested) missing target ∧
        p = target ++ map Normal missing.
Proof. apply resolve_answers. Qed.

(** Enumeration agrees with access: a canonical entry, existing under its own name,
    is authorized by [authorize_canonical_entry] exactly when [resolve] returns it. *)
Theorem authorize_agrees_with_resolve policy names :
  Forall name_ok names →
  canonicalize 0 (absolute names) = Ok (absolute names) →
  authorize_canonical_entry to_lowercase policy (absolute names) = true ↔
  resolve to_lowercase canonicalize policy (path_text (absolute names))
  = Some (Ok (absolute names)).
Proof.
  intros Hns Hcan. unfold resolve.
  assert (path_text (absolute names) ≠ []) as Hne by done.
  rewrite bool_decide_eq_false_2 by done.
  assert (lexical_path policy (path_text (absolute names)) = absolute names) as ->.
  { unfold lexical_path. rewrite path_new_text by done. simpl. apply normalize_absolute. }
  destruct (confined policy) eqn:Hc.
  - rewrite authorize_visible by done.
    rewrite <- (check_confined_visible policy _ (path_text (absolute names))) by done.
    destruct (check_confined _ _ _ _) as [[]|e] eqn:E; [|done].
    destruct (length (absolute names)) as [|fuel]; cbn [resolve_loop]; rewrite Hcan;
      cbv zeta; cbn [foldl]; rewrite reverse_nil; cbn [foldl]; rewrite E; split; intros _; reflexivity.
  - unfold authorize_canonical_entry, check_confined. rewrite Hc. cbn [negb].
    destruct (length (absolute names)) as [|fuel]; cbn [resolve_loop]; rewrite Hcan;
      cbv zeta; unfold check_confined; rewrite Hc; split; intros _; reflexivity.
Qed.

End policy_theorems.

Definition example_policy : RootPathPolicy :=
  {| root := absolute [lit "work"]; confined := true |}.

(** A file system where every path exists under its own name. *)
Definition plain_fs (n : nat) (p : Path) : Result Path IoError := Ok p.

Definition name_okb (s : str) : bool :=
  negb (existsb (str_eqb s) [[]; lit "."; lit ".."]) && negb (contains_char SLASH s).

Lemma name_okb_ok s : name_okb s = true → name_ok s.
Proof.
  intros [H1 H2]%andb_true_iff.
  apply negb_true_iff, not_true_iff_false in H1. rewrite existsb_str_eqb in H1.
  rewrite !not_elem_of_cons in H1. destruct H1 as (? & ? & ? & _).
  assert (SLASH ∉ s); [|by unfold name_ok].
  apply negb_true_iff, not_true_iff_false in H2. intros Hin. apply H2.
  unfold contains_char. apply existsb_exists.
  exists SLASH. split; [by apply list_elem_of_In|done].
Qed.

Lemma names_ok ns : forallb name_okb ns = true → Forall name_ok ns.
Proof.
  rewrite forallb_forall, Forall_forall. intros H s Hs. apply name_okb_ok, H.
  by apply list_elem_of_In.
Qed.

Lemma authorize_agrees_with_resolve_witness :
  resolve to_ascii_lowercase plain_fs example_policy (lit "/work/src/a.rs")
    = Some (Ok (absolute [lit "work"; lit "src"; lit "a.rs"])) ∧
  resolve to_ascii_lowercase plain_fs example_policy (lit "/work/.GIT/config")
    ≠ Some (Ok (absolute [lit "work"; lit ".GIT"; lit "config"])).
Proof.
  split.
  - apply (authorize_agrees_with_resolve to_ascii_lowercase plain_fs example_policy
      [lit "work"; lit "src"; lit "a.rs"]); [apply names_ok; reflexivity|reflexivity|].
    vm_compute. reflexivity.
  - intros H. apply (authorize_agrees_with_resolve to_ascii_lowercase plain_fs example_policy
      [lit "work"; lit ".GIT"; lit "config"]) in H; [|apply names_ok; reflexivity|reflexivity].
    vm_compute in H. discriminate.
Defined.
