(* ===== verification/Text.v ===== *)
(** * Reading files: [crates/mcp-files/src/text.rs]

    Bounded reads, the version of a file (its identity and the digest of its bytes), the
    snapshot an edit is prepared from and its validation before publication.  The file
    system, the clock of cancellation, SHA-256 and the [file_format] crate are the
    class [FileEnv]; every call of it may change the world, so other
    processes interleave with each step. *)

From S2P Require Import Prelude Utf8 Effects PathPolicy.
Local Open Scope workcell_scope.

(** ** Text *)

Definition enforce_bytes (label value : str) (maximum : nat) : Result unit FilesystemError :=
  if (maximum <? str_len value)%nat
  then invalid (label ++ lit " exceeds maximum size of " ++ dec maximum ++ lit " bytes")
  else Ok ().

Lemma enforce_bytes_ok label s max : enforce_bytes label s max = Ok () → str_len s ≤ max.
Proof. unfold enforce_bytes. case_if; [done|]. intros _. by bool_prop. Qed.

Definition split_text_lines (text : str) : list str :=
  map strip_cr (split_on NL text).

Definition is_high (u : N) : bool := ((55296 <=? u) && (u <? 56320))%N.
Definition is_low (u : N) : bool := ((56320 <=? u) && (u <? 57344))%N.

(** [String::from_utf16_lossy]: a surrogate without its partner becomes U+FFFD. *)
Fixpoint from_utf16_lossy (units : list N) : str :=
  match units with
  | [] => []
  | u :: units' =>
      if is_high u then
        match units' with
        | v :: units'' =>
            if is_low v
            then (65536 + (u - 55296) * 1024 + (v - 56320))%N :: from_utf16_lossy units''
            else 65533%N :: from_utf16_lossy units'
        | [] => [65533%N]
        end
      else if is_low u then 65533%N :: from_utf16_lossy units'
      else u :: from_utf16_lossy units'
  end.

Definition truncate_line (line : str) (maximum : nat) : str :=
  let utf16 := encode_utf16 line in
  if (length utf16 <=? maximum)%nat then line
  else from_utf16_lossy (take maximum utf16) ++ lit "... (line truncated)".

Definition js_length (value : str) : nat := length (encode_utf16 value).

(** ** Versions *)

(** [FileIdentity]. *)
Record FileIdentity := { first : N; second : N; size : N; modified_nanos : N }.

#[export] Instance FileIdentity_eq_dec : EqDecision FileIdentity.
Proof. solve_decision. Defined.

(** What [std::fs::Metadata] tells; [md_modified] is [None] when the time is not
    available or before the epoch. *)
Record Metadata := {
  md_dev : N;
  md_ino : N;
  md_len : N;
  md_modified : option N;
  md_mode : N;
}.

Definition file_identity (m : Metadata) : FileIdentity :=
  {| first := md_dev m; second := md_ino m; size := md_len m;
     modified_nanos := default 0%N (md_modified m) |}.

Class FileEnv := {
  World : Type;
  env_cancelled : World → bool * World;
  env_metadata : Path → World → Result Metadata IoError * World;
  (** All the bytes a read of the file to its end gives. *)
  env_read : Path → World → Result (list N) IoError * World;
  Digest : Type;
  digest_eq_dec :: EqDecision Digest;
  sha256 : list N → Digest;
  FileFormat : Type;
  from_bytes : list N → FileFormat;
  media_type : FileFormat → str;
  (** The name of the variant of the format's enumeration. *)
  variant : FileFormat → str;
}.

Section text.
Context `{FE : FileEnv} {Event : Type}.

(** [FileVersion]. *)
Record FileVersion := { identity : FileIdentity; digest : Digest }.

#[export] Instance FileVersion_eq_dec : EqDecision FileVersion.
Proof. solve_decision. Defined.

Abbreviation Io A := (Eff World Event FilesystemError A) (only parsing).

Definition check_cancelled : Io unit :=
  do? cancelled := ask None env_cancelled in
  if cancelled then throw Aborted else ret tt.

(** A call of the file system that fails with [FilesystemError::io_path]. *)
Definition io_path {A} (action : str) (p : Path) (r : Result A IoError) :
    Result A FilesystemError :=
  match r with
  | Ok a => Ok a
  | Err e => Err (PathPolicy.Io (action ++ lit " " ++ path_text p) e)
  end.

Definition metadata (p : Path) : Io Metadata :=
  do? r := ask None (env_metadata p) in lift (io_path (lit "Cannot inspect") p r).

Definition read_bounded (p : Path) (maximum : nat) : Io (list N) :=
  do? _ := check_cancelled in
  let capacity := S maximum in
  if (USIZE_MAX <? N.of_nat capacity)%N
  then throw (Operation (lit "maximum file size is too large"))
  else
    do? r := ask None (env_read p) in
    do? all := lift (io_path (lit "Cannot read") p r) in
    let bytes := take capacity all in
    do? _ := check_cancelled in
    if (maximum <? length bytes)%nat
    then throw (InvalidRequest (lit "File exceeds maximum size of " ++ dec maximum ++
                                lit " bytes: " ++ path_text p))
    else ret bytes.

(** [controls as f64 / len as f64 > 0.3], which for the at most 4096 bytes of a sample
    is the comparison of the exact quotients. *)
Definition has_binary_sample (bytes : list N) : bool :=
  match bytes with
  | [] => false
  | _ =>
      existsb (N.eqb 0) bytes
      || (3 * length bytes <?
          10 * length (filter (λ b, (b < 9 ∨ (13 < b ∧ b < 32))%N) bytes))%nat
  end.

Definition TEXTUAL_FORMATS : list str :=
  map lit ["BmfontAscii"; "DrawingExchangeFormatAscii"; "Glyphs";
           "InitialGraphicsExchangeSpecification"; "InterQuakeExport"; "Latex"; "MayaAscii";
           "Model3dAscii"; "PemCertificate"; "PemCertificateSigningRequest"; "PemPrivateKey";
           "PemPublicKey"; "PgpMessage"; "PgpPrivateKeyBlock"; "PgpPublicKeyBlock";
           "PgpSignature"; "PgpSignedMessage"; "PolygonAscii"; "RichTextFormat";
           "StandardForTheExchangeOfProductModelData"; "StereolithographyAscii";
           "UniversalSceneDescriptionAscii"; "VirtualRealityModelingLanguage";
           "WebassemblyText"; "XPixmap"]%string.

Definition is_textual_format (format : FileFormat) (bytes : list N) : bool :=
  let media_type := media_type format in
  if starts_with (lit "text/") media_type || str_eqb media_type (lit "application/xml")
     || ends_with (lit "+xml") media_type || ends_with (lit "+json") media_type
  then true
  else if existsb (str_eqb (variant format)) TEXTUAL_FORMATS then true
  else if existsb (str_eqb (variant format))
            [lit "EncapsulatedPostscript"; lit "Postscript"]
  then starts_with (lit "%!") bytes
  else false.

Definition is_binary_content (bytes : list N) : bool :=
  let format := from_bytes bytes in
  let recognized_binary :=
    negb (existsb (str_eqb (variant format)) [lit "Empty"; lit "ArbitraryBinaryData"])
    && negb (is_textual_format format bytes) in
  recognized_binary || has_binary_sample (take (Nat.min (length bytes) (N.to_nat 4096)) bytes).

Definition reject_binary (p : Path) (bytes : list N) : Result unit FilesystemError :=
  if is_binary_content bytes
  then invalid (lit "Cannot operate on binary file: " ++ path_text p) else Ok ().

Definition read_file_snapshot_required (p : Path) (maximum : nat) :
    Io (list N * FileVersion) :=
  do? _ := check_cancelled in
  do? before := metadata p in
  do? bytes := read_bounded p maximum in
  do? after := metadata p in
  if bool_decide (file_identity before ≠ file_identity after)
  then throw (Operation (lit "File changed while it was being read: " ++ path_text p))
  else ret (bytes, {| identity := file_identity after; digest := sha256 bytes |}).

Definition read_text_snapshot_required (p : Path) (maximum : nat) : Io (str * FileVersion) :=
  do? snapshot := read_file_snapshot_required p maximum in
  let '(bytes, version) := snapshot in
  do? _ := lift (reject_binary p bytes) in
  ret (from_utf8_lossy bytes, version).

Definition read_file_version_required (p : Path) (maximum : nat) : Io FileVersion :=
  do? snapshot := read_file_snapshot_required p maximum in ret snapshot.2.

Definition validate_snapshot (p : Path) (expected : FileVersion) (maximum : nat) : Io unit :=
  do? r := attempt (read_file_version_required p maximum) in
  let stale := throw (Stale (lit "File changed before publication: " ++ path_text p)) in
  match r with
  | Err Aborted => throw Aborted
  | Ok current => if bool_decide (current = expected) then ret tt else stale
  | Err _ => stale
  end.

Definition exists_ (p : Path) : Io bool :=
  do? r := ask None (env_metadata p) in ret (is_ok r).

End text.
Arguments FileVersion {FE}.

(** ** The core of a group: [operations.rs] *)

(** The file system as [RootPathPolicy::resolve] sees it, and [str::to_lowercase]. *)
Class CoreEnv := {
  core_files :: FileEnv;
  env_canonicalize : World → (nat → Path → Result Path IoError) * World;
  to_lowercase : str → str;
}.

Section core.
Context `{CE : CoreEnv} {Event : Type}.
Context (policy : RootPathPolicy).

(** [policy.resolve]; the exhausted fuel never occurs (PathPolicy). *)
Definition resolve_path (requested : str) : Eff World Event FilesystemError Path :=
  do? canonicalize := ask None env_canonicalize in
  match resolve to_lowercase canonicalize policy requested with
  | Some r => lift r
  | None => throw (Operation (lit "unreachable"))
  end.

Definition require_write (allow_write : bool) : Result unit FilesystemError :=
  if allow_write then Ok ()
  else Err (Operation (lit "Filesystem is read-only; restart with write access")).

Definition validate_prepared_path (requested_path : str) (authorized_path : Path) :
    Eff World Event FilesystemError unit :=
  let changed :=
    throw (Operation (lit "Prepared resource changed before execution: " ++ requested_path)) in
  do? current := attempt (resolve_path requested_path) in
  match current with
  | Ok current => if bool_decide (current = authorized_path) then ret tt else changed
  | Err _ => changed
  end.

End core.

(** ** What a version says *)
Section text_theorems.
Context `{FE : FileEnv} {Event : Type} (P : Event → Prop).

Lemma emits_check_cancelled (Q : unit → Prop) : Q tt → emits P check_cancelled Q.
Proof.
  intros HQ. unfold check_cancelled. step (λ _ : bool, True); [by apply emits_ask|].
  destruct a; [apply emits_throw|by apply emits_ret].
Qed.

(** The bytes of [p] were read whole, no more than [maximum] of them. *)
Definition was_read (p : Path) (maximum : nat) (bytes : list N) : Prop :=
  length bytes ≤ maximum ∧ ∃ w w', env_read p w = (Ok bytes, w').

Definition was_seen (p : Path) (id : FileIdentity) : Prop :=
  ∃ w w' m, env_metadata p w = (Ok m, w') ∧ file_identity m = id.

Lemma emits_metadata p : emits P (metadata p) (λ m, was_seen p (file_identity m)).
Proof.
  unfold metadata. step (λ r, ∃ w w', env_metadata p w = (r, w')); [apply emits_ask_result|].
  apply emits_lift. destruct a as [m|e]; [|done]. intros ? [= <-].
  destruct H as (w & w' & H). by exists w, w', m.
Qed.

Lemma emits_read_bounded p maximum : emits P (read_bounded p maximum) (was_read p maximum).
Proof.
  unfold read_bounded. step (λ _ : unit, True); [by apply emits_check_cancelled|].
  case_match; [apply emits_throw|].
  step (λ r, ∃ w w', env_read p w = (r, w')); [apply emits_ask_result|].
  step (λ all, a0 = Ok all).
  { apply emits_lift. by destruct a0; intros ? [= <-]. }
  subst a0. step (λ _ : unit, True); [by apply emits_check_cancelled|].
  destruct (Nat.ltb_spec maximum (length (take (S maximum) a1))) as [|Hle];
    [apply emits_throw|]. apply emits_ret.
  rewrite length_take in Hle. assert (length a1 ≤ maximum) by lia.
  rewrite take_ge by lia. done.
Qed.

(** What a version attests. *)
Definition attested (p : Path) (maximum : nat) (bytes : list N) (v : FileVersion) : Prop :=
  was_read p maximum bytes ∧ was_seen p (identity v) ∧ digest v = sha256 bytes.

Lemma emits_read_file_snapshot p maximum :
  emits P (read_file_snapshot_required p maximum) (λ r, attested p maximum r.1 r.2).
Proof.
  unfold read_file_snapshot_required. step (λ _ : unit, True); [by apply emits_check_cancelled|].
  step (λ m, was_seen p (file_identity m)); [apply emits_metadata|].
  step (was_read p maximum); [apply emits_read_bounded|].
  step (λ m, was_seen p (file_identity m)); [apply emits_metadata|].
  case_bool_decide; [apply emits_throw|]. by apply emits_ret.
Qed.

Lemma emits_read_text_snapshot p maximum :
  emits P (read_text_snapshot_required p maximum) (λ r, ∃ bytes,
    attested p maximum bytes r.2 ∧ is_binary_content bytes = false ∧
    r.1 = from_utf8_lossy bytes).
Proof.
  unfold read_text_snapshot_required.
  step (λ r : list N * FileVersion, attested p maximum r.1 r.2);
    [apply emits_read_file_snapshot|]. destruct a as [bytes v].
  step (λ _ : unit, is_binary_content bytes = false).
  { apply emits_lift. unfold reject_binary. by destruct (is_binary_content bytes). }
  apply emits_ret. by exists bytes.
Qed.

Lemma emits_validate_snapshot p expected maximum :
  emits P (validate_snapshot p expected maximum) (λ _, ∃ bytes,
    attested p maximum bytes expected).
Proof.
  unfold validate_snapshot.
  step (λ r : Result FileVersion FilesystemError, ∀ v, r = Ok v → ∃ bytes,
    attested p maximum bytes v).
  { apply emits_attempt. unfold read_file_version_required.
    step (λ r : list N * FileVersion, attested p maximum r.1 r.2);
      [apply emits_read_file_snapshot|]. apply emits_ret. by exists a.1. }
  destruct a as [v|e].
  - case_bool_decide; [|apply emits_throw]. subst. apply emits_ret. by apply H.
  - destruct e; apply emits_throw.
Qed.

Lemma emits_exists p : emits P (exists_ p) (λ _, True).
Proof.
  unfold exists_. step (λ _ : Result Metadata IoError, True); [by apply emits_ask|].
  by apply emits_ret.
Qed.

End text_theorems.

Section core_theorems.
Context `{CE : CoreEnv} {Event : Type} (P : Event → Prop) (policy : RootPathPolicy).

Lemma emits_resolve_path requested :
  emits P (resolve_path policy requested)
    (λ p, confined policy = true → visible to_lowercase policy p).
Proof.
  unfold resolve_path. step (λ _ : nat → Path → Result Path IoError, True);
    [by apply emits_ask|].
  destruct (resolve_answers to_lowercase a policy requested) as (r & -> & Hr).
  apply emits_lift. intros p Hp Hc. apply Hr in Hp as (_ & Hv & _). by apply Hv.
Qed.

Lemma emits_validate_prepared_path requested p :
  emits P (validate_prepared_path policy requested p)
    (λ _, confined policy = true → visible to_lowercase policy p).
Proof.
  unfold validate_prepared_path.
  step (λ r : Result Path FilesystemError, ∀ q, r = Ok q → confined policy = true → visible to_lowercase policy q).
  { apply emits_attempt, emits_resolve_path. }
  destruct a as [q|e]; [|apply emits_throw]. case_bool_decide; [|apply emits_throw].
  subst. apply emits_ret. by apply H.
Qed.

End core_theorems.

(** ** What one reading does *)
Section validation.
Context `{FE : FileEnv} {Event : Type}.
Implicit Types s : State World Event.

(** A reading of [p], as the world goes from [w] to [w']: nobody cancels; the file is inspected,
    read to its end, which is within the bound, and inspected again, as [m], with the identity
    it had before. *)
Definition whole_reading (p : Path) (maximum : nat) (w : World) (bytes : list N) (m : Metadata) (w' : World) : Prop :=
  ∃ w1 before w2 w3 w4 w5,
    env_cancelled w = (false, w1) ∧ env_metadata p w1 = (Ok before, w2) ∧
    env_cancelled w2 = (false, w3) ∧ env_read p w3 = (Ok bytes, w4) ∧
    env_cancelled w4 = (false, w5) ∧ env_metadata p w5 = (Ok m, w') ∧
    file_identity before = file_identity m ∧ length bytes ≤ maximum ∧ (N.of_nat (S maximum) <= USIZE_MAX)%N.

Definition version_of (bytes : list N) (m : Metadata) : FileVersion :=
  {| identity := file_identity m; digest := sha256 bytes |}.

Lemma check_cancelled_ok s u s' :
  check_cancelled s = (Ok u, s') ↔ env_cancelled (world s) = (false, world s') ∧ log s' = log s.
Proof.
  unfold check_cancelled. rewrite and_then_ok. setoid_rewrite ask_ok. split.
  - intros ([] & s1 & [H Hl] & H'); [by apply throw_ok in H'|]. by apply ret_ok in H' as [_ ->].
  - intros H. exists false, s'. split; [done|]. by apply ret_ok; destruct u.
Qed.

Lemma metadata_ok p s m s' :
  metadata p s = (Ok m, s') ↔ env_metadata p (world s) = (Ok m, world s') ∧ log s' = log s.
Proof.
  unfold metadata. rewrite and_then_ok. setoid_rewrite ask_ok. setoid_rewrite lift_ok. split.
  - intros ([a|e] & s1 & H & Hr & ->); [|done]. by injection Hr as ->.
  - intros H. by exists (Ok m), s'.
Qed.

Lemma version_of_eq b m b' m' :
  version_of b m = version_of b' m' ↔ file_identity m = file_identity m' ∧ sha256 b = sha256 b'.
Proof.
  unfold version_of. split; [|by intros [-> ->]].
  intros H. split; [exact (f_equal identity H)|exact (f_equal digest H)].
Qed.

Lemma read_bounded_ok p maximum s bytes s' :
  read_bounded p maximum s = (Ok bytes, s') ↔
  (∃ w3 w4, env_cancelled (world s) = (false, w3) ∧ env_read p w3 = (Ok bytes, w4) ∧
    env_cancelled w4 = (false, world s')) ∧ log s' = log s ∧
  length bytes ≤ maximum ∧ (N.of_nat (S maximum) <= USIZE_MAX)%N.
Proof.
  unfold read_bounded. rewrite and_then_ok. setoid_rewrite check_cancelled_ok. split.
  - intros (_ & s1 & [H1 L1] & H). destruct (_ <? _)%N eqn:Em; [by apply throw_ok in H|]. apply N.ltb_ge in Em.
    apply and_then_ok in H as (r & s2 & [H2 L2]%ask_ok & H).
    apply and_then_ok in H as (all & s3 & [Hr ->]%lift_ok & H). destruct r as [a|e]; [|done]. injection Hr as ->.
    apply and_then_ok in H as (_ & s4 & [H4 L4]%check_cancelled_ok & H).
    destruct (Nat.ltb_spec maximum (length (take (S maximum) all))) as [|Hle]; [by apply throw_ok in H|].
    apply ret_ok in H as [-> ->]. rewrite length_take in Hle. rewrite take_ge by lia.
    split; [by exists (world s1), (world s2)|]. split_and!; [congruence|lia|done].
  - intros ((w3 & w4 & H1 & H2 & H3) & Hl & Hlen & Hm).
    exists (), {| world := w3; log := log s |}. split; [done|].
    destruct (N.ltb_spec USIZE_MAX (N.of_nat (S maximum))); [lia|].
    apply and_then_ok. exists (Ok bytes), {| world := w4; log := log s |}. split; [by apply ask_ok|].
    apply and_then_ok. exists bytes, {| world := w4; log := log s |}. split; [by apply lift_ok|].
    rewrite take_ge by lia. apply and_then_ok. exists (), s'. split; [by apply check_cancelled_ok|].
    destruct (Nat.ltb_spec maximum (length bytes)); [lia|]. by apply ret_ok.
Qed.

(** A file is read exactly when a reading of it succeeds, and its version is that reading's. *)
Lemma read_file_snapshot_ok p maximum s r s' :
  read_file_snapshot_required p maximum s = (Ok r, s') ↔
  ∃ bytes m, whole_reading p maximum (world s) bytes m (world s') ∧ log s' = log s ∧ r = (bytes, version_of bytes m).
Proof.
  unfold read_file_snapshot_required, whole_reading. split.
  - intros (_ & s1 & [H1 L1]%check_cancelled_ok & H)%and_then_ok.
    apply and_then_ok in H as (before & s2 & [H2 L2]%metadata_ok & H).
    apply and_then_ok in H as (bytes & s3 & ((w3 & w4 & H3 & H4 & H5) & L3 & Hlen & Hm)%read_bounded_ok & H).
    apply and_then_ok in H as (after & s4 & [H6 L4]%metadata_ok & H).
    case_bool_decide as Hid; [by apply throw_ok in H|]. apply ret_ok in H as [-> ->].
    exists bytes, after. split; [|split; [congruence|done]].
    exists (world s1), before, (world s2), w3, w4, (world s3).
    by split_and!.
  - intros (bytes & m & (w1 & before & w2 & w3 & w4 & w5 & H1 & H2 & H3 & H4 & H5 & H6 & Hid & Hlen & Hm) & Hl & ->).
    apply and_then_ok. exists (), {| world := w1; log := log s |}. split; [by apply check_cancelled_ok|].
    apply and_then_ok. exists before, {| world := w2; log := log s |}. split; [by apply metadata_ok|].
    apply and_then_ok. exists bytes, {| world := w5; log := log s |}.
    split; [apply read_bounded_ok; split; [by exists w3, w4|done]|].
    apply and_then_ok. exists m, s'. split; [by apply metadata_ok|].
    rewrite bool_decide_eq_false_2 by (by intros H). by apply ret_ok.
Qed.

Lemma read_text_snapshot_ok p maximum s r s' :
  read_text_snapshot_required p maximum s = (Ok r, s') ↔
  ∃ bytes m, whole_reading p maximum (world s) bytes m (world s') ∧ log s' = log s ∧
    is_binary_content bytes = false ∧ r = (from_utf8_lossy bytes, version_of bytes m).
Proof.
  unfold read_text_snapshot_required, reject_binary. rewrite and_then_ok. setoid_rewrite read_file_snapshot_ok. split.
  - intros (? & s1 & (bytes & m & Hr & Hl & ->) & H). apply and_then_ok in H as ([] & s2 & [Hb ->]%lift_ok & H).
    apply ret_ok in H as [-> ->]. exists bytes, m. destruct (is_binary_content bytes); [done|]. done.
  - intros (bytes & m & Hr & Hl & Hb & ->). eexists _, s'. split; [by exists bytes, m|]. cbv beta iota.
    apply and_then_ok. exists (), s'. split; [apply lift_ok; by rewrite Hb|]. by apply ret_ok.
Qed.

(** Validation succeeds exactly when a reading now has the version expected, and fails as
    cancelled or stale. *)
Lemma validate_snapshot_spec p v maximum s :
  let '(r, s') := validate_snapshot (Event := Event) p v maximum s in
  (r = Ok () ↔ ∃ now m, whole_reading p maximum (world s) now m (world s') ∧ log s' = log s ∧ version_of now m = v) ∧
  (r = Ok () ∨ r = Err Aborted ∨ ∃ text, r = Err (Stale text)).
Proof.
  unfold validate_snapshot, read_file_version_required, attempt. unfold and_then at 1.
  destruct (and_then (read_file_snapshot_required p maximum) _ s) as [r s1] eqn:E. cbv iota beta.
  assert (∀ now m, whole_reading p maximum (world s) now m (world s1) → log s1 = log s → r = Ok (version_of now m)) as Hdet.
  { intros now m Hr Hl. assert (and_then (read_file_snapshot_required p maximum) (λ x, ret x.2) s = (Ok (version_of now m), s1)) as E'.
    { apply and_then_ok. eexists _, s1. split; [apply read_file_snapshot_ok; by exists now, m|by apply ret_ok]. }
    rewrite E in E'. by injection E' as ->. }
  destruct r as [current|e].
  - apply and_then_ok in E as (x & s2 & (now & m & Hr & Hl & ->)%read_file_snapshot_ok & [-> ->]%ret_ok). simpl.
    case_bool_decide as Hv; simpl.
    + split; [|by left]. split; [|done]. intros _. by exists now, m.
    + split; [|right; right; by eexists]. split; [done|].
      intros (now' & m' & Hr' & Hl' & <-). destruct Hv. specialize (Hdet now' m' Hr' Hl'). exact (f_equal (λ r, match r with Ok x => x | Err _ => version_of now m end) Hdet).
  - assert (∀ now m, whole_reading p maximum (world s) now m (world s1) → log s1 = log s → False) as Hno.
    { intros now m Hr Hl. by specialize (Hdet now m Hr Hl). }
    destruct e; simpl; (split; [|by eauto]); (split; [done|]); intros (b & md & Hr & Hl & _); by destruct (Hno b md Hr Hl).
Qed.

(** C26: The text an edit is prepared from is that of the bytes one reading gave, whole, within
    the bound and not binary.  Validation before publication succeeds exactly when it reads the
    file again, whole and between two inspections that agree, with the identity and the digest
    of the reading before; otherwise it fails, as cancelled or as stale.  So after it succeeded,
    unless the digests of the two readings collide, that text is still the file's. *)
Theorem validated_text_unchanged p maximum maximum' content v s s1 s' r s'' :
  read_text_snapshot_required p maximum s = (Ok (content, v), s1) →
  validate_snapshot p v maximum' s' = (r, s'') →
  ∃ read m, whole_reading p maximum (world s) read m (world s1) ∧
    is_binary_content read = false ∧ content = from_utf8_lossy read ∧
    (r = Ok () ↔ ∃ now m', whole_reading p maximum' (world s') now m' (world s'') ∧ log s'' = log s' ∧
       file_identity m' = file_identity m ∧ sha256 now = sha256 read) ∧
    (r = Ok () ∨ r = Err Aborted ∨ ∃ text, r = Err (Stale text)) ∧
    (r = Ok () → ∃ now m', whole_reading p maximum' (world s') now m' (world s'') ∧
       ((sha256 now = sha256 read → now = read) → content = from_utf8_lossy now)).
Proof.
  intros (read & m & Hr & _ & Hb & [= -> ->])%read_text_snapshot_ok Hv.
  pose proof (validate_snapshot_spec p (version_of read m) maximum' s') as H. rewrite Hv in H. destruct H as [H1 H2].
  setoid_rewrite version_of_eq in H1. exists read, m.
  split; [done|]. split; [done|]. split; [done|]. split; [exact H1|]. split; [exact H2|].
  intros Ho. apply H1 in Ho as (now & m' & Hn & _ & _ & Hd). exists now, m'. split; [done|].
  intros Hc. by rewrite Hc.
Qed.

End validation.

(** ** A concrete file system *)
Module ExampleFiles.

(** One file that nobody touches; the digest is the identity, so it never collides. *)
Definition example_metadata : Metadata :=
  {| md_dev := 1; md_ino := 2; md_len := 8; md_modified := Some 3%N; md_mode := 420 |}.

Definition example_file : Path := absolute [lit "work"; lit "a"].

Definition files : FileEnv :=
  {| World := unit;
     env_cancelled := fun w => (false, w);
     env_metadata := fun p w =>
       (if bool_decide (p = example_file) then Ok example_metadata else Err IoNotFound, w);
     env_read := fun p w =>
       (if bool_decide (p = example_file) then Ok (lit "one" ++ [NL] ++ lit "two" ++ [NL])
        else Err IoNotFound, w);
     Digest := list N;
     digest_eq_dec := _;
     sha256 := fun bytes => bytes;
     FileFormat := unit;
     from_bytes := fun _ => ();
     media_type := fun _ => [];
     variant := fun _ => lit "ArbitraryBinaryData" |}.

#[local] Existing Instance files.

Definition example_version : FileVersion :=
  {| identity := file_identity example_metadata;
     digest := lit "one" ++ [NL] ++ lit "two" ++ [NL] |}.

Lemma validated_text_unchanged_witness :
  ∃ now m, whole_reading example_file 100 () now m () ∧
    (lit "one" ++ [NL] ++ lit "two" ++ [NL])%list = from_utf8_lossy now.
Proof.
  destruct (validated_text_unchanged (Event := Empty_set) example_file 100 100
    (lit "one" ++ [NL] ++ lit "two" ++ [NL]) example_version (start ()) (start ()) (start ()) (Ok ()) (start ()))
    as (read & m & _ & _ & _ & _ & _ & Hv); [vm_compute; reflexivity|vm_compute; reflexivity|].
  destruct (Hv eq_refl) as (now & m' & Hn & Hc).
  exists now, m'. split; [exact Hn|]. apply Hc. intros H. exact H.
Defined.

End ExampleFiles.
