(* ===== verification/Diff.v ===== *)
(** * Bounded diff previews: [crates/mcp-files/src/diff.rs]

    Line counts are unbounded naturals: a line index of a text in memory cannot
    overflow [usize].  Byte lengths are [str_len]. *)

From S2P Require Import Prelude PathPolicy.

Definition TRUNCATION_MARKER : str := lit "... (diff truncated)".
Definition CONTEXT_LINES : nat := 3.

(** [DiffHunk]. *)
Record DiffHunk := { old_start : nat; old_len : nat; new_start : nat; new_len : nat }.

#[export] Instance DiffHunk_eq_dec : EqDecision DiffHunk.
Proof. solve_decision. Defined.

(** [FileDiff]. *)
Record FileDiff := {
  file : str;
  relative_path : str;
  patch : str;
  additions : nat;
  deletions : nat;
  diff_truncated : bool;
}.

(** [size_of::<&str>()] on a 64-bit target. *)
Definition STR_REF_BYTES : N := 16%N.

(** [checked_next_power_of_two], then saturating arithmetic. *)
Definition next_power_of_two (n : N) : N :=
  if (n <=? 1)%N then 1%N else (2 ^ N.log2_up n)%N.

Definition usize_sat (n : N) : N := N.min n USIZE_MAX.

Definition line_index_bytes (content : str) : N :=
  match content with
  | [] => 0%N
  | _ =>
      let lines := usize_sat (N.of_nat (length (filter (fun c => c = NL) content)) + 1) in
      let rounded := next_power_of_two lines in
      usize_sat ((if (rounded <=? USIZE_MAX)%N then rounded else USIZE_MAX) * STR_REF_BYTES)
  end.

Definition line_index_retained_bytes (contents : list str) : N :=
  foldl (fun a c => usize_sat (a + line_index_bytes c)) 0%N contents.

(** ** Lines *)

Definition diff_lines (content : str) : list str :=
  match content with
  | [] => []
  | _ =>
      let lines := split_on NL content in
      match last lines with
      | Some [] => take (length lines - 1) lines
      | _ => lines
      end
  end.

Definition window {A} (lines : list A) (from to : nat) : list A :=
  let start := Nat.min from (length lines) in
  let end_ := Nat.max (Nat.min to (length lines)) start in
  take (end_ - start) (drop start lines).

Fixpoint shared_prefix (left right : list str) : nat :=
  match left, right with
  | l :: left', r :: right' => if str_eqb l r then S (shared_prefix left' right') else 0
  | _, _ => 0
  end.

(** The offsets [0..maximum] from the ends, while the lines agree. *)
Fixpoint shared_suffix_from (left right : list str) (offset count : nat) : nat :=
  match count with
  | 0 => 0
  | S count' =>
      if bool_decide (left !! (length left - offset - 1) = right !! (length right - offset - 1))
      then S (shared_suffix_from left right (S offset) count') else 0
  end.

Definition shared_suffix (left right : list str) (prefix : nat) : nat :=
  shared_suffix_from left right 0 (Nat.min (length left - prefix) (length right - prefix)).

(** ** The bounded text *)

(** [str::is_char_boundary]. *)
Fixpoint is_char_boundary (s : str) (n : nat) : bool :=
  match n, s with
  | 0, _ => true
  | S _, [] => false
  | S _, c :: s' => (len_utf8 c <=? n)%nat && is_char_boundary s' (n - len_utf8 c)
  end.

(** [String::truncate] at a boundary. *)
Fixpoint str_to (n : nat) (s : str) : str :=
  match s with
  | [] => []
  | c :: s' => if (len_utf8 c <=? n)%nat then c :: str_to (n - len_utf8 c) s' else []
  end.

Fixpoint retreat (s : str) (boundary : nat) : nat :=
  match boundary with
  | 0 => 0
  | S b => if is_char_boundary s boundary then boundary else retreat s b
  end.

Definition truncate_utf8 (value : str) (maximum : nat) : str :=
  if (str_len value <=? maximum)%nat then value
  else str_to (retreat value maximum) value.

(** [BoundedPatch]. *)
Record BoundedPatch := { text : str; maximum : nat; truncated : bool }.

Definition BoundedPatch_new (maximum : nat) : BoundedPatch :=
  {| text := []; maximum := maximum; truncated := false |}.

Definition mark_truncated (p : BoundedPatch) : BoundedPatch :=
  let marker_bytes := Nat.min (str_len TRUNCATION_MARKER) (maximum p) in
  let text' :=
    if (maximum p <=? marker_bytes)%nat then str_to marker_bytes TRUNCATION_MARKER
    else
      let keep := maximum p - (marker_bytes + 1) in
      let kept := truncate_utf8 (text p) keep in
      (match kept with [] => [] | _ => kept ++ [NL] end)
      ++ str_to marker_bytes TRUNCATION_MARKER in
  {| text := text'; maximum := maximum p; truncated := true |}.

Definition push_line (p : BoundedPatch) (prefix line : str) : BoundedPatch :=
  if truncated p then p
  else
    let separator := match text p with [] => 0 | _ => 1 end in
    let required := str_len (text p) + separator + str_len prefix + str_len line in
    if (USIZE_MAX <? N.of_nat required)%N then mark_truncated p
    else if (maximum p <? required)%nat then mark_truncated p
    else
      {| text := (match text p with [] => [] | _ => text p ++ [NL] end) ++ prefix ++ line;
         maximum := maximum p; truncated := false |}.

Definition push_lines (p : BoundedPatch) (prefix : str) (lines : list str) : BoundedPatch :=
  foldl (fun p line => push_line p prefix line) p lines.

Definition shorten_patch (patch : str) (maximum_bytes : nat) : option str :=
  if (str_len patch <=? maximum_bytes)%nat then None
  else Some (text (mark_truncated
                     {| text := patch; maximum := maximum_bytes; truncated := false |})).

(** ** Previews *)

Definition MINUS : str := lit "-".
Definition PLUS : str := lit "+".
Definition BLANK : str := lit " ".

Definition hunk_header (old_from old_count new_from new_count : nat) : str :=
  lit "@@ -" ++ dec (old_from + 1) ++ lit "," ++ dec old_count ++
  lit " +" ++ dec (new_from + 1) ++ lit "," ++ dec new_count ++ lit " @@".

Definition file_diff (policy : RootPathPolicy) (file_path : Path) (old_content new_content : str)
    (move_path : option Path) (maximum_bytes : nat) : Result FileDiff FilesystemError :=
  (let? old_name := relative policy file_path in
   let destination := default file_path move_path in
   let? new_name := relative policy destination in
   let old_lines := diff_lines old_content in
   let new_lines := diff_lines new_content in
   let common_prefix := shared_prefix old_lines new_lines in
   let common_suffix := shared_suffix old_lines new_lines common_prefix in
   let slice l from to := take (to - from) (drop from l) in
   let removed := slice old_lines common_prefix (length old_lines - common_suffix) in
   let added := slice new_lines common_prefix (length new_lines - common_suffix) in
   let context_start := common_prefix - 3 in
   let before := slice old_lines context_start common_prefix in
   let suffix_start := length old_lines - common_suffix in
   let after_end := Nat.min (suffix_start + 3) (length old_lines) in
   let after := slice old_lines suffix_start after_end in
   let old_count := length before + length removed + length after in
   let new_count := length before + length added + length after in
   let p := BoundedPatch_new maximum_bytes in
   let p := push_line p [] (lit "--- " ++ old_name) in
   let p := push_line p [] (lit "+++ " ++ new_name) in
   let p := push_line p [] (hunk_header context_start old_count context_start new_count) in
   let p := push_lines p BLANK before in
   let p := push_lines p MINUS removed in
   let p := push_lines p PLUS added in
   let p := push_lines p BLANK after in
   Ok {| file := path_text destination; relative_path := new_name; patch := text p;
         additions := length added; deletions := length removed;
         diff_truncated := truncated p |})%W.

Definition trim_hunk (hunk : DiffHunk) (old_lines new_lines : list str) : DiffHunk :=
  let old := window old_lines (old_start hunk) (old_start hunk + old_len hunk) in
  let new := window new_lines (new_start hunk) (new_start hunk + new_len hunk) in
  let prefix := shared_prefix old new in
  let suffix := shared_suffix old new prefix in
  {| old_start := old_start hunk + prefix; old_len := length old - prefix - suffix;
     new_start := new_start hunk + prefix; new_len := length new - prefix - suffix |}.

(** The groups as index ranges, the last one first while they are collected. *)
Fixpoint group_loop (hunks : list DiffHunk) (index window_end : nat)
    (groups : list (nat * nat)) : list (nat * nat) :=
  match hunks with
  | [] => groups
  | hunk :: hunks' =>
      let groups' :=
        match groups with
        | (s, e) :: rest =>
            if (old_start hunk - CONTEXT_LINES <=? window_end)%nat
            then (s, index + 1) :: rest
            else (index, index + 1) :: groups
        | [] => [(index, index + 1)]
        end in
      group_loop hunks' (index + 1) (old_start hunk + old_len hunk + CONTEXT_LINES) groups'
  end.

Definition group_hunks (hunks : list DiffHunk) : list (nat * nat) :=
  reverse (group_loop hunks 0 0 []).

(** One pushed line: its prefix and its text. *)
Abbreviation pushed := (str * str)%type (only parsing).

Definition old_from (first : DiffHunk) : nat := old_start first - CONTEXT_LINES.
Definition new_from (first : DiffHunk) : nat :=
  new_start first - (old_start first - old_from first).
Definition old_change_end (first last : DiffHunk) : nat :=
  Nat.max (old_start first) (old_start last + old_len last).
Definition old_to (first last : DiffHunk) (old_lines : list str) : nat :=
  Nat.min (old_change_end first last + CONTEXT_LINES) (length old_lines).
Definition new_to (first last : DiffHunk) (old_lines : list str) : nat :=
  new_start last + new_len last + (old_to first last old_lines - old_change_end first last).

(** The loop over one group: each hunk and the context up to the next. *)
Fixpoint group_body (old_lines new_lines : list str) (end_ : nat) (group : list DiffHunk) :
    list pushed :=
  match group with
  | [] => []
  | hunk :: rest =>
      let context_end := match rest with next :: _ => old_start next | [] => end_ end in
      map (pair MINUS) (window old_lines (old_start hunk) (old_start hunk + old_len hunk)) ++
      map (pair PLUS) (window new_lines (new_start hunk) (new_start hunk + new_len hunk)) ++
      map (pair BLANK) (window old_lines (old_start hunk + old_len hunk) context_end) ++
      group_body old_lines new_lines end_ rest
  end.

(** The lines pushed after the header of one group. *)
Definition group_lines (old_lines new_lines : list str) (group : list DiffHunk)
    (first last : DiffHunk) : list pushed :=
  map (pair BLANK) (window old_lines (old_from first) (old_start first)) ++
  group_body old_lines new_lines (old_to first last old_lines) group.

Definition push_group (old_lines new_lines : list str) (hunks : list DiffHunk)
    (p : BoundedPatch) (range : nat * nat) : BoundedPatch :=
  match hunks !! range.1, hunks !! (range.2 - 1) with
  | Some first, Some last =>
      let p := push_line p []
        (hunk_header (old_from first) (old_to first last old_lines - old_from first)
           (new_from first) (new_to first last old_lines - new_from first)) in
      foldl (fun p l => push_line p l.1 l.2) p
        (group_lines old_lines new_lines
           (take (range.2 - range.1) (drop range.1 hunks)) first last)
  | _, _ => p
  end.

Definition file_diff_hunks (policy : RootPathPolicy) (file_path : Path)
    (old_content new_content : str) (hunks : list DiffHunk) (move_path : option Path)
    (maximum_bytes : nat) : Result FileDiff FilesystemError :=
  (let? old_name := relative policy file_path in
   let destination := default file_path move_path in
   let? new_name := relative policy destination in
   let old_lines := diff_lines old_content in
   let new_lines := diff_lines new_content in
   let hunks :=
     filter (fun h => 0 < old_len h ∨ 0 < new_len h)
       (map (fun h => trim_hunk h old_lines new_lines) hunks) in
   let p := BoundedPatch_new maximum_bytes in
   let p := push_line p [] (lit "--- " ++ old_name) in
   let p := push_line p [] (lit "+++ " ++ new_name) in
   let p := foldl (push_group old_lines new_lines hunks) p (group_hunks hunks) in
   Ok {| file := path_text destination; relative_path := new_name; patch := text p;
         additions := sum_list_with new_len hunks; deletions := sum_list_with old_len hunks;
         diff_truncated := truncated p |})%W.

(** ** The bounded text keeps its bound *)

Lemma str_to_prefix n s : ∃ post, s = str_to n s ++ post.
Proof.
  revert n. induction s as [|c s IH]; intros n; simpl; [by exists []|].
  case_if; [|by exists (c :: s)]. destruct (IH (n - len_utf8 c)) as [post E].
  exists post. simpl. congruence.
Qed.

Lemma str_to_len n s : str_len (str_to n s) ≤ n.
Proof.
  revert n. induction s as [|c s IH]; intros n; simpl; [lia|].
  case_if; [|simpl; lia]. bool_prop. rewrite str_len_cons. specialize (IH (n - len_utf8 c)). lia.
Qed.

Lemma retreat_le s b : retreat s b ≤ b.
Proof. induction b as [|b IH]; cbn [retreat]; [done|]. case_if; lia. Qed.

Lemma truncate_utf8_spec s n :
  str_len (truncate_utf8 s n) ≤ n ∧ ∃ post, s = truncate_utf8 s n ++ post.
Proof.
  unfold truncate_utf8. case_if; bool_prop.
  - split; [done|]. exists []. by rewrite app_nil_r.
  - split; [|apply str_to_prefix]. pose proof (str_to_len (retreat s n) s).
    pose proof (retreat_le s n). lia.
Qed.

Lemma marker_len : str_len TRUNCATION_MARKER = 20.
Proof. done. Qed.

Lemma mark_truncated_fits p : str_len (text (mark_truncated p)) ≤ maximum p.
Proof.
  unfold mark_truncated. cbn [text]. set (m := Nat.min _ _).
  pose proof (str_to_len m TRUNCATION_MARKER). destruct (maximum p <=? m)%nat eqn:E; bool_prop;
    [subst m; lia|].
  rewrite str_len_app. pose proof (truncate_utf8_spec (text p) (maximum p - (m + 1))) as [Hk _].
  destruct (truncate_utf8 _ _) as [|c k]; [rewrite str_len_nil; lia|].
  rewrite str_len_app. change (str_len [NL]) with 1. lia.
Qed.

Lemma push_line_fits p prefix line :
  str_len (text p) ≤ maximum p → str_len (text (push_line p prefix line)) ≤ maximum p.
Proof.
  intros Hp. unfold push_line. destruct (truncated p); [done|].
  case_if; [apply mark_truncated_fits|]. case_if; [apply mark_truncated_fits|]. bool_prop.
  cbn [text]. destruct (text p) as [|c s] eqn:E; rewrite ?E, !str_len_app in *;
    rewrite ?str_len_nil in *; [lia|]. change (str_len [NL]) with 1. lia.
Qed.

Lemma push_line_maximum p prefix line : maximum (push_line p prefix line) = maximum p.
Proof. unfold push_line. repeat case_if; done. Qed.

Definition push_all (p : BoundedPatch) (items : list pushed) : BoundedPatch :=
  foldl (fun p l => push_line p l.1 l.2) p items.

(** The text without a bound. *)
Definition rendered (items : list pushed) : str := join [NL] (map (λ l, l.1 ++ l.2) items).

(** What a preview of [full] under [max] bytes may be: the text itself when it fits;
    otherwise a prefix of it, a newline and the marker, all within the bound. *)
Definition preview_of (max : nat) (full preview : str) (cut : bool) : Prop :=
  str_len preview ≤ max ∧
  cut = (max <? str_len full)%nat ∧
  (cut = false → preview = full) ∧
  (cut = true →
     preview = str_to max TRUNCATION_MARKER ∨
     ∃ shown, shown `prefix_of` full ∧
       preview = (match shown with [] => [] | _ => shown ++ [NL] end) ++ TRUNCATION_MARKER).

Lemma rendered_snoc items l :
  items ≠ [] → rendered (items ++ [l]) = rendered items ++ [NL] ++ l.1 ++ l.2.
Proof. intros Hne. unfold rendered. rewrite map_app. apply join_snoc. by destruct items. Qed.

Lemma rendered_prefix a b : rendered a `prefix_of` rendered (a ++ b).
Proof.
  induction b as [|l b IH] using rev_ind; [by rewrite app_nil_r|].
  destruct (decide (a ++ b = [])) as [E|E].
  - apply app_eq_nil in E as [-> ->]. apply prefix_nil.
  - rewrite app_assoc, rendered_snoc by done. by apply prefix_app_r.
Qed.

Lemma push_all_truncated p items : truncated p = true → push_all p items = p.
Proof.
  intros Hp. unfold push_all. induction items as [|l items IH]; simpl; [done|].
  unfold push_line at 2. by rewrite Hp.
Qed.

Lemma mark_truncated_preview max shown full maxi :
  maxi = max → max < str_len full → shown `prefix_of` full →
  preview_of max full
    (text (mark_truncated {| text := shown; maximum := maxi; truncated := false |})) true.
Proof.
  intros -> Hlt Hpre. split; [apply (mark_truncated_fits (Build_BoundedPatch shown max false))|].
  split; [by rewrite (proj2 (Nat.ltb_lt _ _))|]. split; [done|]. intros _.
  unfold mark_truncated. cbn [text maximum]. rewrite marker_len.
  destruct (max <=? Nat.min 20 max)%nat eqn:E; bool_prop.
  - left. by replace (Nat.min 20 max) with max by lia.
  - right. replace (Nat.min 20 max) with 20 by lia.
    destruct (truncate_utf8_spec shown (max - (20 + 1))) as [_ [post Hs]].
    exists (truncate_utf8 shown (max - (20 + 1))). split; [|done].
    transitivity shown; [|done]. by exists post.
Qed.

(** The state while the lines [done_] fit. *)
Definition holding (max : nat) (done_ : list pushed) : BoundedPatch :=
  {| text := rendered done_; maximum := max; truncated := false |}.

Lemma push_line_holding max done_ l :
  (N.of_nat max <= USIZE_MAX)%N → done_ = [] ∨ rendered done_ ≠ [] →
  push_line (holding max done_) l.1 l.2 =
  if (max <? str_len (rendered (done_ ++ [l])))%nat then mark_truncated (holding max done_)
  else holding max (done_ ++ [l]).
Proof.
  intros Hmax Hd. unfold push_line, holding. cbn [truncated text maximum].
  assert (rendered (done_ ++ [l]) =
    match rendered done_ with [] => [] | _ => rendered done_ ++ [NL] end ++ l.1 ++ l.2) as Hr.
  { destruct Hd as [->|Hd]; [done|]. rewrite rendered_snoc by (by intros ->).
    destruct (rendered done_); [done|]. by rewrite <- app_assoc. }
  assert (str_len (rendered done_) + match rendered done_ with [] => 0 | _ => 1 end
    + str_len l.1 + str_len l.2 = str_len (rendered (done_ ++ [l]))) as ->.
  { rewrite Hr, !str_len_app. destruct (rendered done_); [rewrite str_len_nil; lia|].
    rewrite str_len_app. change (str_len [NL]) with 1. lia. }
  rewrite <- Hr. destruct (Nat.ltb_spec max (str_len (rendered (done_ ++ [l])))) as [H|H].
  - by case_if.
  - by rewrite (proj2 (N.ltb_ge _ _)) by lia.
Qed.

Lemma rendered_len_app a b : str_len (rendered a) ≤ str_len (rendered (a ++ b)).
Proof. destruct (rendered_prefix a b) as [k ->]. rewrite str_len_app. lia. Qed.

(** Invariant of pushing: the lines pushed so far, while they fit. *)
Lemma push_all_holding max done_ todo :
  (N.of_nat max <= USIZE_MAX)%N →
  done_ = [] ∧ from_option (λ l, l.1 ++ l.2 ≠ []) True (head todo) ∨ rendered done_ ≠ [] →
  str_len (rendered done_) ≤ max →
  let p := push_all (holding max done_) todo in
  preview_of max (rendered (done_ ++ todo)) (text p) (truncated p).
Proof.
  intros Hmax. revert done_. induction todo as [|l todo IH]; intros done_ Hne Hfit; cbn zeta.
  - rewrite app_nil_r. unfold preview_of. cbn [push_all foldl holding text truncated].
    split_and!; [done| |done|done]. symmetry. by apply Nat.ltb_ge.
  - cbn [push_all foldl]. rewrite push_line_holding by (done || naive_solver).
    pose proof (rendered_len_app (done_ ++ [l]) todo) as Hlen.
    rewrite <- app_assoc in Hlen. cbn [app] in Hlen.
    destruct (Nat.ltb_spec max (str_len (rendered (done_ ++ [l])))) as [H|H].
    + fold (push_all (mark_truncated (holding max done_)) todo).
      rewrite push_all_truncated by done. apply mark_truncated_preview; [done|lia|].
      apply rendered_prefix.
    + specialize (IH (done_ ++ [l])). rewrite <- app_assoc in IH. apply IH; [|done].
      right. destruct Hne as [[-> Hl]|Hne]; [exact Hl|].
      intros E. pose proof (rendered_len_app done_ [l]) as Hl. rewrite E in Hl.
      apply Hne, str_len_zero. rewrite str_len_nil in Hl. lia.
Qed.

(** Whatever lines are pushed, the first not being empty, the preview stays within
    its byte bound, is the complete text exactly when that fits, and is otherwise
    marked truncated and is a prefix of the text, cut at a character boundary, before
    the marker. *)
Theorem bounded_patch_preview max first items :
  (N.of_nat max <= USIZE_MAX)%N → first.1 ++ first.2 ≠ [] →
  let p := push_all (BoundedPatch_new max) (first :: items) in
  preview_of max (rendered (first :: items)) (text p) (truncated p).
Proof.
  intros Hmax Hne. apply (push_all_holding max [] (first :: items)); [done|auto|].
  apply Nat.le_0_l.
Qed.

Lemma bounded_patch_preview_witness :
  let items := [(PLUS, lit "abc"); (PLUS, lit "a much longer line than fits")] in
  let p := push_all (BoundedPatch_new 30) ((MINUS, lit "x") :: items) in
  preview_of 30 (rendered ((MINUS, lit "x") :: items)) (text p) (truncated p) ∧
  truncated p = true.
Proof.
  intros items p. split; [|vm_compute; reflexivity].
  apply (bounded_patch_preview 30 (MINUS, lit "x") items); [vm_compute; congruence|done].
Defined.

(** ** Common prefix and suffix *)

Lemma shared_prefix_spec l r :
  let k := shared_prefix l r in
  k ≤ length l ∧ k ≤ length r ∧ take k l = take k r ∧
  (k = length l ∨ k = length r ∨ l !! k ≠ r !! k).
Proof.
  revert r. induction l as [|x l IH]; intros [|y r]; simpl; try (split_and!; auto with lia; done).
  unfold str_eqb. case_bool_decide as Hxy; simpl; [|split_and!; [lia|lia|done|]].
  - subst y. destruct (IH r) as (H1 & H2 & H3 & H4). split_and!; [lia|lia|by f_equal|].
    destruct H4 as [->|[->|?]]; auto.
  - right. right. congruence.
Qed.

Lemma shared_suffix_from_spec l r off count :
  off + count ≤ length l → off + count ≤ length r →
  let k := shared_suffix_from l r off count in
  k ≤ count ∧
  (∀ j, off ≤ j < off + k → l !! (length l - j - 1) = r !! (length r - j - 1)) ∧
  (k = count ∨ l !! (length l - (off + k) - 1) ≠ r !! (length r - (off + k) - 1)).
Proof.
  revert off. induction count as [|count IH]; intros off Hl Hr; simpl;
    [split_and!; [lia|lia|auto]|].
  case_bool_decide as Heq.
  - destruct (IH (S off)) as (H1 & H2 & H3); [lia|lia|]. split_and!; [lia| |].
    + intros j Hj. destruct (decide (j = off)) as [->|]; [done|]. apply H2. lia.
    + replace (off + S (shared_suffix_from l r (S off) count))
        with (S off + shared_suffix_from l r (S off) count) by lia.
      destruct H3 as [->|?]; auto.
  - split_and!; [lia|lia|]. right. by rewrite Nat.add_0_r.
Qed.

Lemma shared_suffix_spec l r p :
  p ≤ length l → p ≤ length r →
  let k := shared_suffix l r p in
  p + k ≤ length l ∧ p + k ≤ length r ∧ drop (length l - k) l = drop (length r - k) r ∧
  (p + k = length l ∨ p + k = length r ∨
   l !! (length l - k - 1) ≠ r !! (length r - k - 1)).
Proof.
  intros Hl Hr. unfold shared_suffix.
  destruct (shared_suffix_from_spec l r 0 (Nat.min (length l - p) (length r - p)))
    as (H1 & H2 & H3); [lia|lia|]. set (k := shared_suffix_from _ _ _ _) in *. cbn zeta.
  split_and!; [lia|lia| |destruct H3 as [->|?]; [lia|auto]].
  apply list_eq. intros i. rewrite !lookup_drop.
  destruct (decide (i < k)) as [Hi|Hi].
  - specialize (H2 (k - 1 - i)).
    replace (length l - (k - 1 - i) - 1) with (length l - k + i) in H2 by lia.
    replace (length r - (k - 1 - i) - 1) with (length r - k + i) in H2 by lia. apply H2. lia.
  - rewrite !lookup_ge_None_2 by lia. done.
Qed.

(** Two texts split around their difference. *)
Lemma split_difference (l r : list str) :
  let p := shared_prefix l r in
  let s := shared_suffix l r p in
  ∃ removed added,
    l = take p l ++ removed ++ drop (length l - s) l ∧
    r = take p l ++ added ++ drop (length l - s) l ∧
    removed = take (length l - s - p) (drop p l) ∧
    added = take (length r - s - p) (drop p r) ∧
    (head removed = head added → removed = [] ∨ added = []) ∧
    (last removed = last added → removed = [] ∨ added = []).
Proof.
  cbn zeta. destruct (shared_prefix_spec l r) as (P1 & P2 & P3 & P4).
  set (p := shared_prefix l r) in *.
  destruct (shared_suffix_spec l r p P1 P2) as (S1 & S2 & S3 & S4).
  set (s := shared_suffix l r p) in *.
  exists (take (length l - s - p) (drop p l)), (take (length r - s - p) (drop p r)).
  assert (∀ x : list str, p + s ≤ length x →
    x = take p x ++ take (length x - s - p) (drop p x) ++ drop (length x - s) x) as Hsplit.
  { intros x Hx. rewrite <- (take_drop p x) at 1. f_equal.
    rewrite <- (take_drop (length x - s - p) (drop p x)) at 1. f_equal.
    rewrite drop_drop. f_equal. lia. }
  split_and!; [by apply Hsplit| |done|done|..].
  - rewrite P3, S3. by apply Hsplit.
  - rewrite !head_lookup. intros Hh.
    destruct (decide (length l - s - p = 0)) as [E|E]; [left; by rewrite E|].
    destruct (decide (length r - s - p = 0)) as [E'|E']; [right; by rewrite E'|].
    rewrite !lookup_take_drop, Nat.add_0_r in Hh by lia.
    destruct P4 as [?|[?|?]]; [lia|lia|done].
  - rewrite !last_lookup, !length_take, !length_drop. intros Hh.
    destruct (decide (length l - s - p = 0)) as [E|E]; [left; by rewrite E|].
    destruct (decide (length r - s - p = 0)) as [E'|E']; [right; by rewrite E'|].
    rewrite !lookup_take_drop in Hh by lia.
    replace (p + pred (Nat.min (length l - s - p) (length l - p))) with (length l - s - 1) in Hh by lia.
    replace (p + pred (Nat.min (length r - s - p) (length r - p))) with (length r - s - 1) in Hh by lia.
    destruct S4 as [?|[?|?]]; [lia|lia|done].
Qed.

(** ** [file_diff] describes the change *)

Lemma push_lines_all p prefix lines :
  push_lines p prefix lines = push_all p (map (pair prefix) lines).
Proof.
  unfold push_lines, push_all. revert p. induction lines as [|l lines IH]; intros p; simpl; [done|].
  apply IH.
Qed.

Lemma push_all_app p a b : push_all p (a ++ b) = push_all (push_all p a) b.
Proof. apply foldl_app. Qed.

(** The complete unified text of one hunk. *)
Definition one_hunk (old_name new_name : str) (at_ : nat) (before removed added after : list str) :
    list pushed :=
  ([], lit "--- " ++ old_name) :: ([], lit "+++ " ++ new_name) ::
  ([], hunk_header at_ (length before + length removed + length after)
                   at_ (length before + length added + length after)) ::
  map (pair BLANK) before ++ map (pair MINUS) removed ++ map (pair PLUS) added ++
  map (pair BLANK) after.

(** C35: [file_diff] is a faithful preview: old and new lines are one common text around
    the removed and the added lines, which agree neither at their first nor at their
    last line; the counts are those of the complete change whatever the bound; and the
    text, within its byte bound, is the hunk of the removed and added lines between up
    to three lines of context on each side. *)
Theorem file_diff_describes policy file_path old_content new_content move_path max d :
  (N.of_nat max <= USIZE_MAX)%N →
  file_diff policy file_path old_content new_content move_path max = Ok d →
  ∃ old_name new_name pre before removed added after post,
    relative policy file_path = Ok old_name ∧
    relative policy (default file_path move_path) = Ok new_name ∧
    diff_lines old_content = pre ++ before ++ removed ++ after ++ post ∧
    diff_lines new_content = pre ++ before ++ added ++ after ++ post ∧
    length before ≤ 3 ∧ (length before < 3 → pre = []) ∧
    length after ≤ 3 ∧ (length after < 3 → post = []) ∧
    (head removed = head added → removed = [] ∨ added = []) ∧
    (last removed = last added → removed = [] ∨ added = []) ∧
    deletions d = length removed ∧ additions d = length added ∧
    preview_of max (rendered (one_hunk old_name new_name (length pre) before removed added after))
      (patch d) (diff_truncated d).
Proof.
  intros Hmax (old_name & H1 & (new_name & H2 & H)%result_bind_ok)%result_bind_ok.
  cbn zeta in H. injection H as <-. exists old_name, new_name.
  set (l := diff_lines old_content). set (r := diff_lines new_content).
  destruct (shared_prefix_spec l r) as (P1 & P2 & _ & _).
  destruct (split_difference l r) as (removed & added & El & Er & Erem & Eadd & Hh & Hl).
  destruct (shared_suffix_spec l r _ P1 P2) as (S1 & S2 & _ & _).
  set (p := shared_prefix l r) in *. set (s := shared_suffix l r p) in *.
  set (tail := drop (length l - s) l) in *.
  exists (take (p - 3) l), (take (p - (p - 3)) (drop (p - 3) l)), removed, added,
    (take (Nat.min (length l - s + 3) (length l) - (length l - s)) tail), (drop 3 tail).
  assert (length tail = s) as Htail by (subst tail; rewrite length_drop; lia).
  assert (take (Nat.min (length l - s + 3) (length l) - (length l - s)) tail = take 3 tail) as ->.
  { destruct (decide (3 ≤ s)); [f_equal; lia|]. rewrite !take_ge by lia. done. }
  assert (take (p - 3) l ++ take (p - (p - 3)) (drop (p - 3) l) = take p l) as Hpre.
  { rewrite <- (take_drop (p - 3) (take p l)), take_take, Nat.min_l by lia. f_equal.
    by rewrite skipn_firstn_comm. }
  split_and!; [done|done|..|].
  - rewrite app_assoc, Hpre, take_drop. exact El.
  - rewrite app_assoc, Hpre, take_drop. exact Er.
  - rewrite length_take, length_drop. lia.
  - rewrite length_take, length_drop. intros ?. replace (p - 3) with 0 by lia. done.
  - rewrite length_take. lia.
  - rewrite length_take. intros ?. apply drop_ge. lia.
  - done.
  - done.
  - cbn [deletions]. by rewrite Erem.
  - cbn [additions]. by rewrite Eadd.
  - cbn [patch diff_truncated]. rewrite !push_lines_all, <- !push_all_app, <- Erem, <- Eadd.
    rewrite (length_take_le l (p - 3)) by lia.
    apply (bounded_patch_preview max ([], lit "--- " ++ old_name)); [done|].
    done.
Qed.

(** ** Declared hunks *)

Definition slice {A} (l : list A) (a b : nat) : list A := take (b - a) (drop a l).

Lemma slice_app {A} (l : list A) a b c : a ≤ b → b ≤ c → slice l a b ++ slice l b c = slice l a c.
Proof.
  intros Hab Hbc. unfold slice. rewrite <- (take_drop (b - a) (take (c - a) (drop a l))).
  rewrite take_take, Nat.min_l by lia. f_equal.
  rewrite skipn_firstn_comm, drop_drop. f_equal; [lia|]. f_equal. lia.
Qed.

Lemma slice_length {A} (l : list A) a b : b ≤ length l → length (slice l a b) = b - a.
Proof. intros H. unfold slice. rewrite length_take, length_drop. lia. Qed.

Lemma window_slice {A} (l : list A) a b : a ≤ b → b ≤ length l → window l a b = slice l a b.
Proof. intros Hab Hb. unfold window, slice. f_equal; [lia|]. f_equal. lia. Qed.

Lemma slice_nil {A} (l : list A) a : slice l a a = [].
Proof. unfold slice. by rewrite Nat.sub_diag. Qed.

Lemma take_slice {A} (l : list A) a b k : a + k ≤ b → take k (slice l a b) = slice l a (a + k).
Proof. intros H. unfold slice. rewrite take_take. f_equal. lia. Qed.

Lemma drop_of_slice {A} (l : list A) a b k : drop k (slice l a b) = slice l (a + k) b.
Proof. unfold slice. rewrite skipn_firstn_comm, drop_drop. f_equal. lia. Qed.

Definition old_end (h : DiffHunk) : nat := old_start h + old_len h.
Definition new_end (h : DiffHunk) : nat := new_start h + new_len h.

Section aligned.
Context (old new : list str).

(** From line [o] of the old text and [n] of the new one, the texts agree except
    inside the hunks, which are in order and in range. *)
Fixpoint aligned (o n : nat) (hs : list DiffHunk) : Prop :=
  match hs with
  | [] => o ≤ length old ∧ n ≤ length new ∧ drop o old = drop n new
  | h :: hs' =>
      o ≤ old_start h ∧ old_end h ≤ length old ∧
      n ≤ new_start h ∧ new_end h ≤ length new ∧
      slice old o (old_start h) = slice new n (new_start h) ∧
      aligned (old_end h) (new_end h) hs'
  end.

Lemma aligned_bounds o n hs : aligned o n hs → o ≤ length old ∧ n ≤ length new.
Proof. destruct hs; simpl; unfold old_end, new_end; [naive_solver|]. intros. lia. Qed.

Lemma drop_slice {A} (l : list A) a b : a ≤ b → drop a l = slice l a b ++ drop b l.
Proof.
  intros H. unfold slice. rewrite <- (take_drop (b - a) (drop a l)) at 1. f_equal.
  rewrite drop_drop. f_equal. lia.
Qed.

(** Lines that agree before an aligned position extend it backwards. *)
Lemma aligned_extend o n o' n' hs :
  o' ≤ o → n' ≤ n → slice old o' o = slice new n' n → aligned o n hs → aligned o' n' hs.
Proof.
  intros Ho Hn Hs. destruct hs as [|h hs]; simpl.
  - intros (H1 & H2 & H3). split_and!; [lia|lia|].
    by rewrite (drop_slice old o' o), (drop_slice new n' n), Hs, H3 by done.
  - intros (H1 & H2 & H3 & H4 & H5 & H6). split_and!; [lia|done|lia|done| |done].
    by rewrite <- (slice_app old o' o), <- (slice_app new n' n), Hs, H5 by done.
Qed.

Lemma aligned_trim_one o n h hs :
  aligned o n (h :: hs) → aligned o n (trim_hunk h old new :: hs).
Proof.
  intros (H1 & H2 & H3 & H4 & H5 & H6). unfold trim_hunk. unfold old_end, new_end in *.
  rewrite (window_slice old), (window_slice new) by lia.
  set (ow := slice old _ _). set (nw := slice new _ _).
  assert (length ow = old_len h) as Hlo by (unfold ow; rewrite slice_length by done; lia).
  assert (length nw = new_len h) as Hln by (unfold nw; rewrite slice_length by done; lia).
  destruct (shared_prefix_spec ow nw) as (P1 & P2 & P3 & _). set (p := shared_prefix ow nw) in *.
  destruct (shared_suffix_spec ow nw p P1 P2) as (S1 & S2 & S3 & _).
  set (s := shared_suffix ow nw p) in *.
  cbn [aligned old_start old_len new_start new_len old_end new_end]. unfold old_end, new_end.
  cbn [old_start old_len new_start new_len].
  split_and!; [lia|lia|lia|lia|..].
  - rewrite <- (slice_app old o (old_start h)), <- (slice_app new n (new_start h)), H5 by lia.
    f_equal. rewrite <- (take_slice old _ (old_start h + old_len h) p) by lia.
    rewrite <- (take_slice new _ (new_start h + new_len h) p) by lia. exact P3.
  - apply (aligned_extend (old_start h + old_len h) (new_start h + new_len h)); [lia|lia| |done].
    rewrite Hlo, Hln in S3. unfold ow, nw in S3. rewrite !drop_of_slice in S3.
    replace (old_start h + p + (length ow - p - s)) with (old_start h + (old_len h - s)) by lia.
    by replace (new_start h + p + (length nw - p - s)) with (new_start h + (new_len h - s)) by lia.
Qed.

Lemma aligned_trim o n hs :
  aligned o n hs → aligned o n (map (λ h, trim_hunk h old new) hs).
Proof.
  revert o n. induction hs as [|h hs IH]; intros o n H; [done|].
  cbn [map]. apply aligned_trim_one. simpl in *. naive_solver.
Qed.

Lemma aligned_filter o n hs :
  aligned o n hs → aligned o n (filter (λ h, 0 < old_len h ∨ 0 < new_len h) hs).
Proof.
  revert o n. induction hs as [|h hs IH]; intros o n H; [done|].
  destruct H as (H1 & H2 & H3 & H4 & H5 & H6).
  destruct (decide (0 < old_len h ∨ 0 < new_len h)) as [Hd|Hd].
  - rewrite filter_cons_True by done. simpl. naive_solver.
  - rewrite filter_cons_False by done. apply IH in H6. unfold old_end, new_end in *.
    assert (old_len h = 0 ∧ new_len h = 0) as [Ho Hn] by lia.
    rewrite Ho, Hn, !Nat.add_0_r in H6. by eapply aligned_extend; [..|exact H6].
Qed.

(** The totals account for the difference in length. *)
Lemma aligned_totals o n hs :
  aligned o n hs →
  length new - n + sum_list_with old_len hs = length old - o + sum_list_with new_len hs.
Proof.
  revert o n. induction hs as [|h hs IH]; intros o n; simpl.
  - intros (H1 & H2 & H3). apply (f_equal length) in H3. rewrite !length_drop in H3. lia.
  - intros (H1 & H2 & H3 & H4 & H5 & H6). apply (f_equal length) in H5.
    unfold old_end, new_end in *. rewrite !slice_length in H5 by lia.
    pose proof (IH _ _ H6). lia.
Qed.

(** The position an aligned list of hunks leads to. *)
Definition end_from (o : nat) (f : DiffHunk → nat) (hs : list DiffHunk) : nat :=
  from_option f o (last hs).

Lemma aligned_app o n a b :
  aligned o n (a ++ b) → aligned (end_from o old_end a) (end_from n new_end a) b.
Proof.
  revert o n. induction a as [|h a IH]; intros o n; [done|].
  intros (_ & _ & _ & _ & _ & H). apply IH in H. unfold end_from in *.
  destruct a as [|h' a]; [done|]. rewrite last_cons_cons.
  destruct (last (h' :: a)) eqn:E; [done|by apply last_None in E].
Qed.

End aligned.

(** ** Groups *)

(** The lines of one side of a hunk: the context and what that side has. *)
Definition side (other : str) (items : list pushed) : list str :=
  (filter (λ i, i.1 ≠ other) items).*2.
Definition old_side : list pushed → list str := side PLUS.
Definition new_side : list pushed → list str := side MINUS.

Lemma side_app o a b : side o (a ++ b) = side o a ++ side o b.
Proof. unfold side. by rewrite filter_app, fmap_app. Qed.

Lemma side_map o p l : side o (map (pair p) l) = if bool_decide (p = o) then [] else l.
Proof.
  unfold side. induction l as [|x l IH]; [by case_bool_decide|]. cbn [map].
  case_bool_decide as Hp.
  - by rewrite filter_cons_False by (simpl; naive_solver).
  - rewrite filter_cons_True by done. cbn. f_equal. exact IH.
Qed.

Lemma side_keep o p l : p ≠ o → side o (map (pair p) l) = l.
Proof. intros H. by rewrite side_map, bool_decide_eq_false_2. Qed.

Lemma side_skip o l : side o (map (pair o) l) = [].
Proof. by rewrite side_map, bool_decide_eq_true_2. Qed.

(** The sides of concatenated context, removed and added lines. *)
Ltac sides :=
  unfold old_side, new_side; rewrite ?side_app, ?side_skip;
  rewrite ?(side_keep PLUS MINUS), ?(side_keep PLUS BLANK), ?(side_keep MINUS PLUS),
    ?(side_keep MINUS BLANK) by done; cbn [app].

Lemma end_from_cons o f h g : end_from o f (h :: g) = end_from (f h) f g.
Proof.
  unfold end_from. destruct g as [|h' g]; [done|]. rewrite last_cons_cons.
  destruct (last (h' :: g)) eqn:E; [done|by apply last_None in E].
Qed.

Section group_theorems.
Context (old new : list str).

Lemma aligned_end_ge o n a b :
  aligned old new o n (a ++ b) → o ≤ end_from o old_end a ∧ n ≤ end_from n new_end a.
Proof.
  revert o n. induction a as [|h a IH]; intros o n H; [done|]. rewrite !end_from_cons.
  destruct H as (H1 & H2 & H3 & H4 & _ & H6). apply IH in H6. unfold old_end, new_end in *. lia.
Qed.

(** The body of a group, from its first hunk to the end of its context. *)
Lemma group_body_sides h g b e o n :
  aligned old new o n ((h :: g) ++ b) →
  let oe := end_from (old_end h) old_end g in
  let ne := end_from (new_end h) new_end g in
  oe ≤ e → e ≤ length old → ne + (e - oe) ≤ length new →
  slice old oe e = slice new ne (ne + (e - oe)) →
  old_side (group_body old new e (h :: g)) = slice old (old_start h) e ∧
  new_side (group_body old new e (h :: g)) = slice new (new_start h) (ne + (e - oe)).
Proof.
  cbn zeta. revert h o n. induction g as [|h' g IH]; intros h o n Hal.
  - intros H1 H2 H3 H4. cbn [end_from from_option last] in *.
    destruct Hal as (A1 & A2 & A3 & A4 & A5 & _). unfold old_end, new_end in *.
    cbn [group_body]. sides. rewrite !window_slice by lia. cbn [side filter list_filter fmap list_fmap].
    rewrite !app_nil_r, slice_app, H4, slice_app by lia. done.
  - rewrite !end_from_cons. intros H1 H2 H3 H4. destruct Hal as (A1 & A2 & A3 & A4 & A5 & A6).
    destruct (IH h' _ _ A6 H1 H2 H3 H4) as [IHo IHn].
    destruct (aligned_end_ge _ _ _ _ A6) as [Go Gn].
    destruct A6 as (B1 & B2 & B3 & B4 & B5 & B6). rewrite !end_from_cons in *.
    destruct (aligned_end_ge _ _ _ _ B6) as [Ho Hn]. unfold old_end, new_end in *.
    assert (group_body old new e (h :: h' :: g) =
      map (pair MINUS) (window old (old_start h) (old_start h + old_len h)) ++
      map (pair PLUS) (window new (new_start h) (new_start h + new_len h)) ++
      map (pair BLANK) (window old (old_start h + old_len h) (old_start h')) ++
      group_body old new e (h' :: g)) as -> by done.
    unfold old_side, new_side in IHo, IHn. sides. rewrite IHo, IHn, !window_slice by lia.
    rewrite B5 at 2. rewrite !slice_app by lia. done.
Qed.

(** The lines before the first hunk of a group: [lead] of them, within the gap. *)
Lemma lead_sides o n h lead :
  o ≤ old_start h → n ≤ new_start h → old_end h ≤ length old → new_end h ≤ length new →
  slice old o (old_start h) = slice new n (new_start h) →
  lead ≤ old_start h - o →
  lead ≤ new_start h ∧
  slice old (old_start h - lead) (old_start h) = slice new (new_start h - lead) (new_start h).
Proof.
  intros H1 H2 H3 H4 H5 Hl. unfold old_end, new_end in *.
  pose proof (f_equal length H5) as Hlen. rewrite !slice_length in Hlen by lia.
  split; [lia|]. apply (f_equal (drop (old_start h - o - lead))) in H5.
  rewrite !drop_of_slice in H5.
  replace (o + (old_start h - o - lead)) with (old_start h - lead) in H5 by lia.
  replace (n + (old_start h - o - lead)) with (new_start h - lead) in H5 by lia. done.
Qed.

(** The lines after an aligned position: [t] of them, before the next hunk. *)
Lemma trail_sides oe ne b t :
  aligned old new oe ne b → oe + t ≤ length old →
  (∀ h, head b = Some h → oe + t ≤ old_start h) →
  ne + t ≤ length new ∧ slice old oe (oe + t) = slice new ne (ne + t).
Proof.
  intros Hal Ht Hh. destruct b as [|h b].
  - destruct Hal as (H1 & H2 & H3). pose proof (f_equal length H3) as Hlen.
    rewrite !length_drop in Hlen. split; [lia|]. unfold slice. rewrite H3. f_equal. lia.
  - specialize (Hh h eq_refl). destruct Hal as (H1 & H2 & H3 & H4 & H5 & _).
    unfold old_end, new_end in *.
    pose proof (f_equal length H5) as Hlen. rewrite !slice_length in Hlen by lia.
    split; [lia|]. apply (f_equal (take t)) in H5. by rewrite !take_slice in H5 by lia.
Qed.

End group_theorems.

(** *** The ranges of [group_hunks] *)

(** Hunk [i] starts a group: its context window does not touch the previous one. *)
Definition separated (hs : list DiffHunk) (i : nat) : Prop :=
  ∃ prev h, hs !! (i - 1) = Some prev ∧ hs !! i = Some h ∧
    old_end prev + CONTEXT_LINES < old_start h - CONTEXT_LINES.

(** Consecutive ranges down from [e], each starting where a group starts. *)
Fixpoint chain (hs : list DiffHunk) (groups : list (nat * nat)) (e : nat) : Prop :=
  match groups with
  | [] => e = 0
  | (s, e') :: rest => e' = e ∧ s < e ∧ (s = 0 ∨ separated hs s) ∧ chain hs rest s
  end.

Lemma group_loop_chain hs index window_end groups :
  chain hs groups index →
  (∀ i prev, index = S i → hs !! i = Some prev → window_end = old_end prev + CONTEXT_LINES) →
  index ≤ length hs →
  chain hs (group_loop (drop index hs) index window_end groups) (length hs).
Proof.
  intros Hc Hw Hi. remember (drop index hs) as todo eqn:Htodo.
  revert index window_end groups Hc Hw Hi Htodo.
  induction todo as [|h todo IH]; intros index window_end groups Hc Hw Hi Htodo; cbn [group_loop].
  - assert (index = length hs) as ->; [|done].
    apply (f_equal length) in Htodo. rewrite length_drop in Htodo. simpl in Htodo. lia.
  - assert (hs !! index = Some h) as Hh.
    { rewrite <- (Nat.add_0_r index), <- lookup_drop, <- Htodo. done. }
    apply lookup_lt_Some in Hh as Hlt. rewrite Nat.add_1_r.
    apply IH; [| |lia|].
    + destruct groups as [|[s e] rest]; simpl in Hc.
      { simpl. subst index. auto. }
      destruct Hc as (-> & Hs & Hsep & Hrest).
      destruct (Nat.leb_spec (old_start h - CONTEXT_LINES) window_end) as [Hle|Hgt]; simpl.
      * split_and!; [done|lia|done|done].
      * split_and!; [done|lia| |done|done|done|done]. right.
        destruct index as [|i]; [lia|].
        destruct (lookup_lt_is_Some_2 hs i) as [prev Hprev]; [lia|].
        exists prev, h. replace (S i - 1) with i by lia. split_and!; [done|done|].
        rewrite <- (Hw i prev) by done. lia.
    + intros i prev [= <-] Hp. rewrite Hh in Hp. by injection Hp as <-.
    + rewrite <- Nat.add_1_r, <- drop_drop, <- Htodo. done.
Qed.

Lemma chain_In hs groups e s e' :
  chain hs groups e → (s, e') ∈ groups →
  s < e' ∧ e' ≤ e ∧ (s = 0 ∨ separated hs s) ∧ (e' = e ∨ separated hs e').
Proof.
  revert e. induction groups as [|[s0 e0] rest IH]; intros e Hc Hin; [by apply elem_of_nil in Hin|].
  destruct Hc as (-> & Hs & Hsep & Hrest). apply elem_of_cons in Hin as [[= -> ->]|Hin].
  - split_and!; [done|done|done|by left].
  - destruct (IH _ Hrest Hin) as (H1 & H2 & H3 & H4). split_and!; [done|lia|done|].
    destruct H4 as [->|?]; [|by right]. destruct Hsep as [->|?]; [lia|by right].
Qed.

(** The hunks of one range. *)
Definition in_range (hs : list DiffHunk) (range : nat * nat) : list DiffHunk :=
  take (range.2 - range.1) (drop range.1 hs).

Lemma chain_concat hs groups e :
  chain hs groups e → e ≤ length hs → flat_map (in_range hs) (reverse groups) = take e hs.
Proof.
  revert e. induction groups as [|[s e'] rest IH]; intros e Hc He; simpl in Hc.
  { by subst e. }
  destruct Hc as (-> & Hs & _ & Hrest). rewrite reverse_cons, flat_map_app, (IH s) by (done || lia).
  cbn [flat_map]. rewrite app_nil_r. unfold in_range. cbn [fst snd].
  rewrite <- (take_drop s (take e hs)), take_take, Nat.min_l by lia. f_equal.
  by rewrite skipn_firstn_comm.
Qed.

Lemma group_hunks_chain hs : chain hs (group_loop hs 0 0 []) (length hs).
Proof. apply (group_loop_chain hs 0 0 []); [done|done|lia]. Qed.

(** The two sides of a group are the lines its header announces. *)
Lemma group_sides old new hs range first final :
  aligned old new 0 0 hs → range ∈ group_hunks hs →
  hs !! range.1 = Some first → hs !! (range.2 - 1) = Some final →
  old_side (group_lines old new (in_range hs range) first final)
    = slice old (old_from first) (old_to first final old) ∧
  new_side (group_lines old new (in_range hs range) first final)
    = slice new (new_from first) (new_to first final old) ∧
  old_from first ≤ old_to first final old ≤ length old ∧
  new_from first ≤ new_to first final old ≤ length new.
Proof.
  unfold group_hunks. intros Hal Hin Hf Hl. apply (proj1 (elem_of_reverse _ _)) in Hin. destruct range as [s e]. cbn [fst snd] in *.
  destruct (chain_In _ _ _ _ _ (group_hunks_chain hs) Hin) as (Hse & Hen & Hsep & Hsep').
  assert (∃ g b, in_range hs (s, e) = first :: g ∧ drop s hs = (first :: g) ++ b ∧
    b = drop e hs ∧ from_option id first (last g) = final) as (g & b & Eg & Ed & Eb & Elast).
  { unfold in_range. cbn [fst snd]. rewrite (drop_S hs first s) by done.
    destruct (e - s) as [|k] eqn:Ek; [lia|]. exists (take k (drop (S s) hs)), (drop e hs).
    split_and!; [done| |done|].
    - cbn [app]. f_equal. replace e with (S s + k) by lia. by rewrite <- drop_drop, take_drop.
    - rewrite last_lookup, length_take, length_drop, Nat.min_l by lia.
      destruct k as [|k]; [replace (e - 1) with s in Hl by lia; naive_solver|].
      cbn [pred]. rewrite lookup_take_drop by lia. replace (S s + k) with (e - 1) by lia.
      by rewrite Hl. }
  rewrite <- (take_drop s hs), Ed in Hal. apply aligned_app in Hal.
  set (o := end_from 0 old_end (take s hs)) in *. set (n := end_from 0 new_end (take s hs)) in *.
  assert (s = 0 ∧ o = 0 ∨ o + CONTEXT_LINES < old_start first - CONTEXT_LINES) as Ho.
  { destruct Hsep as [->|(prev & h & Hp & Hh & Hlt)]; [by left|right].
    destruct s as [|s']; [change (0 - 1) with 0 in Hp; simplify_eq; unfold old_end in Hlt; lia|].
    assert (o = old_end prev) as ->; [|naive_solver].
    unfold o, end_from. rewrite last_lookup, length_take, Nat.min_l by lia. cbn [pred].
    rewrite lookup_take_lt by lia. replace (S s' - 1) with s' in Hp by lia. by rewrite Hp. }
  assert (∀ f, end_from (f first) f g = f final) as Hend.
  { intros f. unfold end_from. rewrite <- Elast. by destruct (last g). }
  pose proof (aligned_app _ _ _ _ _ _ Hal) as Hb. rewrite !end_from_cons, !Hend in Hb.
  pose proof (group_body_sides old new first g b (old_to first final old) _ _ Hal) as Hbody.
  cbn zeta in Hbody. rewrite !Hend in Hbody.
  destruct Hal as (A1 & A2 & A3 & A4 & A5 & A6).
  destruct (aligned_end_ge _ _ _ _ _ _ A6) as [Go Gn]. rewrite !Hend in Go, Gn.
  destruct (aligned_bounds _ _ _ _ _ Hb) as [Bo Bn].
  assert (old_change_end first final = old_end final) as Hce.
  { unfold old_change_end, old_end in *. lia. }
  set (t := old_to first final old - old_end final).
  assert (old_to first final old = old_end final + t ∧ t ≤ 3) as [Hto Ht].
  { subst t. unfold old_to. rewrite Hce. unfold CONTEXT_LINES. lia. }
  destruct (trail_sides old new _ _ b t Hb) as [T1 T2].
  { rewrite <- Hto. unfold old_to. lia. }
  { intros h Hh. destruct Hsep' as [->|(prev & h' & Hp & Hh' & Hlt)].
    - rewrite drop_all in Eb. by subst b.
    - rewrite Eb, head_lookup, lookup_drop, Nat.add_0_r in Hh. simplify_eq.
      unfold CONTEXT_LINES in Hlt. lia. }
  destruct (lead_sides old new o n first (old_start first - old_from first)) as [L1 L2];
    [lia|lia|done|done|done|unfold old_from, CONTEXT_LINES in *; lia|].
  assert (new_to first final old = new_end final + t) as Hnt.
  { unfold new_to, new_end. rewrite Hce, Hto. lia. }
  assert (old_end final + t ≤ length old) as Hlen by (rewrite <- Hto; unfold old_to; lia).
  rewrite Hto in Hbody |- *. replace (old_end final + t - old_end final) with t in Hbody by lia.
  destruct Hbody as [Bodyo Bodyn]; [lia|lia|lia|exact T2|].
  assert (old_from first ≤ old_start first) by (unfold old_from; lia).
  assert (new_from first ≤ new_start first) by (unfold new_from; lia).
  unfold old_end, new_end in *. unfold group_lines. rewrite Eg, Hto, Hnt.
  unfold old_side, new_side in Bodyo, Bodyn. sides. rewrite Bodyo, Bodyn, window_slice by lia.
  replace (old_start first - (old_start first - old_from first)) with (old_from first) in L2 by lia.
  fold (new_from first) in L2. split_and!; [..|lia|lia|lia|lia].
  - by rewrite slice_app by lia.
  - rewrite L2, slice_app by lia. done.
Qed.

(** *** The preview of declared hunks *)

(** The header and the lines of one group, as pushed. *)
Definition group_text (old new : list str) (hs : list DiffHunk) (range : nat * nat) : list pushed :=
  match hs !! range.1, hs !! (range.2 - 1) with
  | Some first, Some final =>
      ([], hunk_header (old_from first) (old_to first final old - old_from first)
             (new_from first) (new_to first final old - new_from first))
      :: group_lines old new (in_range hs range) first final
  | _, _ => []
  end.

Definition many_hunks (old_name new_name : str) (old new : list str) (hs : list DiffHunk) :
    list pushed :=
  ([], lit "--- " ++ old_name) :: ([], lit "+++ " ++ new_name) ::
  flat_map (group_text old new hs) (group_hunks hs).

Lemma push_groups old new hs p ranges :
  foldl (push_group old new hs) p ranges = push_all p (flat_map (group_text old new hs) ranges).
Proof.
  revert p. induction ranges as [|r ranges IH]; intros p; [done|].
  cbn [foldl flat_map]. rewrite push_all_app, IH. f_equal.
  unfold push_group, group_text. destruct (hs !! r.1); [|done]. by destruct (hs !! (r.2 - 1)).
Qed.

(** A hunk header tells the truth about the lines under it: where they start and how
    many they are, on either side. *)
Definition truthful (old new : list str) (hs : list DiffHunk) (range : nat * nat) : Prop :=
  ∃ first final of_ oc nf nc body,
    hs !! range.1 = Some first ∧ hs !! (range.2 - 1) = Some final ∧
    group_text old new hs range = ([], hunk_header of_ oc nf nc) :: body ∧
    of_ ≤ old_start first ∧ old_end final ≤ of_ + oc ∧
    of_ + oc ≤ length old ∧ nf + nc ≤ length new ∧
    old_side body = slice old of_ (of_ + oc) ∧ new_side body = slice new nf (nf + nc).

Lemma group_truthful old new hs range :
  aligned old new 0 0 hs → range ∈ group_hunks hs → truthful old new hs range.
Proof.
  intros Hal Hin. pose proof Hin as Hin'. unfold group_hunks in Hin'.
  apply (proj1 (elem_of_reverse _ _)) in Hin'. destruct range as [s e].
  destruct (chain_In _ _ _ _ _ (group_hunks_chain hs) Hin') as (Hse & Hen & _ & _).
  destruct (lookup_lt_is_Some_2 hs s) as [first Hf]; [lia|].
  destruct (lookup_lt_is_Some_2 hs (e - 1)) as [final Hl]; [lia|].
  destruct (group_sides old new hs (s, e) first final Hal Hin Hf Hl) as (So & Sn & Bo & Bn).
  assert (old_end final ≤ length old) as Hfinal.
  { rewrite <- (take_drop (e - 1) hs), (drop_S hs final (e - 1)) in Hal by done.
    apply aligned_app in Hal. apply Hal. }
  exists first, final, (old_from first), (old_to first final old - old_from first),
    (new_from first), (new_to first final old - new_from first),
    (group_lines old new (in_range hs (s, e)) first final).
  split_and!; [done|done| |unfold old_from; lia| |lia|lia|..].
  - unfold group_text. cbn [fst snd]. by rewrite Hf, Hl.
  - replace (old_from first + (old_to first final old - old_from first))
      with (old_to first final old) by lia.
    unfold old_to, old_change_end, old_end in *. lia.
  - by replace (old_from first + (old_to first final old - old_from first))
      with (old_to first final old) by lia.
  - by replace (new_from first + (new_to first final old - new_from first))
      with (new_to first final old) by lia.
Qed.

(** For declared hunks that describe the change, [file_diff_hunks] renders every
    non-empty trimmed hunk in exactly one group, in order; each group's header gives
    the true position and length of its two sides; outside the hunks the texts agree;
    the counts are those of the complete change; and the text is bounded like any
    preview. *)
Theorem file_diff_hunks_describes policy file_path old_content new_content hunks move_path max d :
  (N.of_nat max <= USIZE_MAX)%N →
  aligned (diff_lines old_content) (diff_lines new_content) 0 0 hunks →
  file_diff_hunks policy file_path old_content new_content hunks move_path max = Ok d →
  ∃ old_name new_name hs,
    aligned (diff_lines old_content) (diff_lines new_content) 0 0 hs ∧
    Forall (λ h, 0 < old_len h ∨ 0 < new_len h) hs ∧
    flat_map (in_range hs) (group_hunks hs) = hs ∧
    Forall (truthful (diff_lines old_content) (diff_lines new_content) hs) (group_hunks hs) ∧
    additions d = sum_list_with new_len hs ∧ deletions d = sum_list_with old_len hs ∧
    length (diff_lines new_content) + deletions d = length (diff_lines old_content) + additions d ∧
    preview_of max
      (rendered (many_hunks old_name new_name (diff_lines old_content) (diff_lines new_content) hs))
      (patch d) (diff_truncated d).
Proof.
  intros Hmax Hal (old_name & _ & (new_name & _ & H)%result_bind_ok)%result_bind_ok.
  cbn zeta in H. set (hs := filter _ _) in H. injection H as <-.
  assert (aligned (diff_lines old_content) (diff_lines new_content) 0 0 hs) as Hhs
    by (apply aligned_filter, aligned_trim, Hal).
  exists old_name, new_name, hs. cbn [additions deletions patch diff_truncated].
  split_and!; [done| | | |done|done| |].
  - apply Forall_forall. intros h Hh. by apply list_elem_of_filter in Hh as [? _].
  - unfold group_hunks. rewrite (chain_concat hs _ _ (group_hunks_chain hs)) by done.
    apply take_ge. done.
  - apply Forall_forall. intros range Hin. by apply group_truthful.
  - pose proof (aligned_totals _ _ _ _ _ Hhs). lia.
  - rewrite push_groups.
    apply (bounded_patch_preview max ([], lit "--- " ++ old_name)); [done|]. done.
Qed.

(** ** Examples *)

Definition example_file : Path := absolute [lit "work"; lit "a.txt"].
Definition example_old : str := lit "one" ++ [NL] ++ lit "two" ++ [NL] ++ lit "three" ++ [NL].
Definition example_new : str := lit "one" ++ [NL] ++ lit "TWO" ++ [NL] ++ lit "three" ++ [NL].
Definition example_hunk : DiffHunk := {| old_start := 0; old_len := 2; new_start := 0; new_len := 2 |}.

Lemma file_diff_describes_witness :
  ∃ d, file_diff example_policy example_file example_old example_new None 1000 = Ok d ∧
    str_len (patch d) ≤ 1000 ∧ diff_truncated d = false ∧ additions d = 1.
Proof.
  destruct (file_diff example_policy example_file example_old example_new None 1000) as [d|e] eqn:E;
    [|vm_compute in E; discriminate].
  exists d. split; [reflexivity|].
  destruct (file_diff_describes example_policy example_file example_old example_new None 1000 d
    ltac:(vm_compute; congruence) E)
    as (? & ? & ? & ? & ? & ? & ? & ? & _ & _ & _ & _ & _ & _ & _ & _ & _ & _ & _ & _ & [Hd _]).
  split; [exact Hd|]. vm_compute in E. injection E as <-. split; reflexivity.
Defined.

Lemma file_diff_hunks_describes_witness :
  ∃ d, file_diff_hunks example_policy example_file example_old example_new [example_hunk] None 1000
         = Ok d ∧ 3 + deletions d = 3 + additions d ∧ diff_truncated d = false.
Proof.
  destruct (file_diff_hunks example_policy example_file example_old example_new [example_hunk]
    None 1000) as [d|e] eqn:E; [|vm_compute in E; discriminate].
  exists d. split; [reflexivity|].
  assert (aligned (diff_lines example_old) (diff_lines example_new) 0 0 [example_hunk]) as Hal
    by (vm_compute; repeat split; lia).
  destruct (file_diff_hunks_describes example_policy example_file example_old example_new
    [example_hunk] None 1000 d ltac:(vm_compute; congruence) Hal E)
    as (? & ? & ? & _ & _ & _ & _ & _ & _ & Hd & _).
  split; [exact Hd|]. vm_compute in E. injection E as <-. reflexivity.
Defined.

(** A preview cut by [shorten_patch] and one cut during construction can differ: the
    first keeps part of a line the second drops. *)
Example shortened_differs_from_constructed :
  let items := [([], lit "--- a"); (PLUS, lit "a line that does not fit")] in
  shorten_patch (rendered items) 29 ≠ Some (text (push_all (BoundedPatch_new 29) items)).
Proof. vm_compute. discriminate. Qed.
