(* ===== verification/Patch.v ===== *)
(** * Patches: [crates/mcp-files/src/patch.rs]

    The patch parser, as loops over the lines still to be read, and the application of
    update chunks: seeking, splicing and the reported spans. *)

From S2P Require Import Prelude PathPolicy Diff.

(** [UpdateChunk] and [PatchHunk]. *)
Record UpdateChunk := {
  old_lines : list str;
  new_lines : list str;
  context : option str;
  end_of_file : bool;
}.

Inductive PatchHunk : Type :=
| Add (path contents : str)
| Delete (path : str)
| Update (path : str) (move_path : option str) (chunks : list UpdateChunk).

#[export] Instance UpdateChunk_eq_dec : EqDecision UpdateChunk.
Proof. solve_decision. Defined.
#[export] Instance PatchHunk_eq_dec : EqDecision PatchHunk.
Proof. solve_decision. Defined.

Definition hunk_path (h : PatchHunk) : str :=
  match h with Add path _ | Delete path | Update path _ _ => path end.


(** ** Parsing *)

Definition BEGIN_PATCH : str := lit "*** Begin Patch".
Definition END_PATCH : str := lit "*** End Patch".
Definition ADD_FILE : str := lit "*** Add File:".
Definition DELETE_FILE : str := lit "*** Delete File:".
Definition UPDATE_FILE : str := lit "*** Update File:".
Definition MOVE_TO : str := lit "*** Move to:".
Definition END_OF_FILE : str := lit "*** End of File".
Definition STARS : str := lit "***".
Definition CHUNK : str := lit "@@".

(** [line[prefix.len()..]] of a line that starts with the prefix. *)
Definition required_header_path (line prefix : str) : Result str FilesystemError :=
  let value := trim (drop (length prefix) line) in
  if bool_decide (value = []) then invalid (prefix ++ lit " requires a path") else Ok value.

(** The body of an added file: the contents and the lines left. *)
Fixpoint add_lines (lines : list str) : Result (list str * list str) FilesystemError :=
  match lines with
  | [] => Ok ([], [])
  | line :: rest =>
      if starts_with STARS line then Ok ([], lines)
      else
        match strip_prefix (lit "+") line with
        | None => invalid (lit "Add File lines must start with +")
        | Some content_line =>
            result_map (fun r => (content_line :: r.1, r.2)) (add_lines rest)
        end
  end.

(** The changes of one chunk: old lines, new lines, the end-of-file mark, the lines left. *)
Fixpoint change_lines (lines : list str) :
    Result (list str * list str * bool * list str) FilesystemError :=
  match lines with
  | [] => Ok ([], [], false, [])
  | change :: rest =>
      if starts_with CHUNK change then Ok ([], [], false, lines)
      else if starts_with STARS change && negb (str_eqb change END_OF_FILE)
      then Ok ([], [], false, lines)
      else if str_eqb change END_OF_FILE then Ok ([], [], true, rest)
      else
        let push f g := result_map (fun '(o, n, e, r) => (f o, g n, e, r)) (change_lines rest) in
        match strip_prefix (lit " ") change with
        | Some value => push (cons value) (cons value)
        | None =>
            match strip_prefix (lit "-") change with
            | Some value => push (cons value) id
            | None =>
                match strip_prefix (lit "+") change with
                | Some value => push id (cons value)
                | None => invalid (lit "Invalid patch line: " ++ change)
                end
            end
        end
  end.

(** The chunks of one file.  [fuel] bounds the iterations; [None] is its exhaustion. *)
Fixpoint chunk_lines (fuel : nat) (lines : list str) :
    option (Result (list UpdateChunk * list str) FilesystemError) :=
  match lines with
  | [] => Some (Ok ([], []))
  | marker :: rest =>
      if starts_with STARS marker then Some (Ok ([], lines))
      else
        match strip_prefix CHUNK marker with
        | None => Some (invalid (lit "Expected patch chunk, received: " ++ marker))
        | Some marker_body =>
            let context := match trim marker_body with [] => None | value => Some value end in
            match change_lines rest with
            | Err e => Some (Err e)
            | Ok (old_lines, new_lines, end_of_file, rest') =>
                match fuel with
                | 0 => None
                | S fuel' =>
                    result_map (fun r => ({| old_lines := old_lines; new_lines := new_lines;
                                             context := context;
                                             end_of_file := end_of_file |} :: r.1, r.2))
                    <$> chunk_lines fuel' rest'
                end
            end
        end
  end.

(** One section from its header line: the hunk and the lines left. *)
Definition parse_section (line : str) (rest : list str) :
    option (Result (option PatchHunk * list str) FilesystemError) :=
  if starts_with ADD_FILE line then
    Some (let? path := required_header_path line ADD_FILE in
          let? body := add_lines rest in
          let contents := match body.1 with [] => [] | content => join [NL] content ++ [NL] end in
          Ok (Some (Add path contents), body.2))%W
  else if starts_with DELETE_FILE line then
    Some (let? path := required_header_path line DELETE_FILE in
          Ok (Some (Delete path), rest))%W
  else if starts_with UPDATE_FILE line then
    match required_header_path line UPDATE_FILE with
    | Err e => Some (Err e)
    | Ok path =>
        let moved :=
          match rest with
          | next :: rest' =>
              if starts_with MOVE_TO next
              then result_map (fun p => (Some p, rest')) (required_header_path next MOVE_TO)
              else Ok (None, rest)
          | [] => Ok (None, rest)
          end in
        match moved with
        | Err e => Some (Err e)
        | Ok (move_path, rest) =>
            (fun r => let? body := r in
              match body.1 with
              | [] => invalid (lit "Update File has no chunks: " ++ path)
              | chunks => Ok (Some (Update path move_path chunks), body.2)
              end)%W <$> chunk_lines (length rest) rest
        end
    end
  else if negb (bool_decide (trim line = [])) then
    Some (invalid (lit "Invalid patch section: " ++ line))
  else Some (Ok (None, rest)).

Fixpoint parse_sections (fuel : nat) (lines : list str) :
    option (Result (list PatchHunk) FilesystemError) :=
  match lines with
  | [] => Some (Ok [])
  | line :: rest =>
      match fuel with
      | 0 => None
      | S fuel' =>
          match parse_section line rest with
          | None => None
          | Some (Err e) => Some (Err e)
          | Some (Ok (hunk, rest')) =>
              result_map (app (option_list hunk)) <$> parse_sections fuel' rest'
          end
      end
  end.

Fixpoint position (f : str → bool) (lines : list str) : option nat :=
  match lines with
  | [] => None
  | l :: lines' => if f l then Some 0 else S <$> position f lines'
  end.

Definition is_quote (c : char) : bool := ((c =? 39) || (c =? 34))%N.

Definition unquote (raw : str) : str :=
  match raw with
  | c :: value =>
      if is_quote c
      then match last value with
           | Some d => if is_quote d then take (length value - 1) value else raw
           | None => raw
           end
      else raw
  | [] => raw
  end.

Definition is_word (c : char) : bool := (c =? 95)%N || is_ascii_alphanumeric c.

Definition strip_heredoc (input : str) : option str :=
  newline ← find_char NL input;
  let header := trim (take newline input) in
  header ←
    match strip_prefix (lit "cat") header with
    | Some rest =>
        match rest with
        | c :: _ => if is_whitespace c then Some (trim_start rest) else None
        | [] => None
        end
    | None => Some header
    end;
  raw ← strip_prefix (lit "<<") header;
  let delimiter := unquote (trim raw) in
  if bool_decide (delimiter = []) || negb (forallb is_word delimiter) then None
  else
    let body_and_footer := drop (newline + 1) input in
    footer_start ← rfind_str [NL] body_and_footer;
    if str_eqb (trim (drop (footer_start + 1) body_and_footer)) delimiter
    then Some (take footer_start body_and_footer) else None.

Definition MISSING_MARKERS : str := lit "Invalid patch format: missing Begin/End markers".

Definition parse_lines (lines : list str) : option (Result (list PatchHunk) FilesystemError) :=
  match position (fun l => str_eqb (trim l) BEGIN_PATCH) lines,
        position (fun l => str_eqb (trim l) END_PATCH) lines with
  | Some begin, Some end_ =>
      if (end_ <=? begin)%nat then Some (invalid MISSING_MARKERS)
      else
        let body := take (end_ - (begin + 1)) (drop (begin + 1) lines) in
        (fun r => let? hunks := r in
           match hunks with
           | [] => invalid (lit "Patch must contain at least one file section")
           | _ => Ok hunks
           end)%W <$> parse_sections (length body) body
  | _, _ => Some (invalid MISSING_MARKERS)
  end.

Definition parse_patch (patch_text : str) : option (Result (list PatchHunk) FilesystemError) :=
  let trimmed := trim patch_text in
  let unwrapped := default trimmed (strip_heredoc trimmed) in
  parse_lines (split_on NL (replace [CR; NL] [NL] unwrapped)).

(** ** Seeking *)

Inductive Comparison : Type := Exact | TrimEnd | Trim.

Definition comparison_matches (c : Comparison) (left right : str) : bool :=
  match c with
  | Exact => str_eqb left right
  | TrimEnd => str_eqb (trim_end left) (trim_end right)
  | Trim => str_eqb (trim left) (trim right)
  end.

(** [pattern.iter().enumerate().all(...)] at an index. *)
Fixpoint matches_at (c : Comparison) (lines : list str) (index : nat) (pattern : list str) : bool :=
  match pattern with
  | [] => true
  | expected :: pattern' =>
      comparison_matches c (default [] (lines !! index)) expected
      && matches_at c lines (S index) pattern'
  end.

(** The indices from [index], [count] of them. *)
Fixpoint seek_from (c : Comparison) (lines pattern : list str) (start index count : nat) :
    option nat :=
  match count with
  | 0 => None
  | S count' =>
      if (start <=? index)%nat && matches_at c lines index pattern then Some index
      else seek_from c lines pattern start (S index) count'
  end.

Definition seek_with (c : Comparison) (lines pattern : list str) (start : nat) (eof : bool) :
    option nat :=
  let first := if eof then length lines - length pattern else start in
  let last := if eof then first else length lines - length pattern in
  if (last <? first)%nat then None
  else seek_from c lines pattern start first (S (last - first)).

Definition or_else {A} (a b : option A) : option A := match a with Some _ => a | None => b end.

Definition seek (lines pattern : list str) (start : nat) (eof : bool) : option nat :=
  if (length lines <? length pattern)%nat then None
  else or_else (seek_with Exact lines pattern start eof)
         (or_else (seek_with TrimEnd lines pattern start eof)
            (seek_with Trim lines pattern start eof)).

(** ** Applying *)

(** The start, the length and the lines of one replacement. *)
Record Replacement := { start : nat; len : nat; lines_in : list str }.

(** The loop over the chunks. *)
Fixpoint replacements (file_path : str) (lines : list str) (cursor : nat)
    (chunks : list UpdateChunk) : Result (list Replacement) FilesystemError :=
  match chunks with
  | [] => Ok []
  | chunk :: chunks' =>
      (let? cursor :=
         match context chunk with
         | None => Ok cursor
         | Some context =>
             match seek lines [context] cursor false with
             | Some context_index => Ok (context_index + 1)
             | None => invalid (lit "Failed to find context '" ++ context ++ lit "' in " ++ file_path)
             end
         end in
       match old_lines chunk with
       | [] =>
           result_map (cons {| start := length lines; len := 0; lines_in := new_lines chunk |})
             (replacements file_path lines cursor chunks')
       | pattern =>
           match seek lines pattern cursor (end_of_file chunk) with
           | Some found =>
               result_map (cons {| start := found; len := length pattern;
                                   lines_in := new_lines chunk |})
                 (replacements file_path lines (found + length pattern) chunks')
           | None =>
               invalid (lit "Failed to find expected lines in " ++ file_path ++ lit ":" ++ [NL] ++
                        join [NL] pattern)
           end
       end)%W
  end.

(** Stable sorts, by insertion. *)
Fixpoint insert_desc (r : Replacement) (rs : list Replacement) : list Replacement :=
  match rs with
  | [] => [r]
  | r' :: rs' => if (start r' <=? start r)%nat then r :: rs else r' :: insert_desc r rs'
  end.

Definition sort_desc (rs : list Replacement) : list Replacement := foldr insert_desc [] rs.

Definition hunk_le (a b : DiffHunk) : bool :=
  (new_start a <? new_start b)%nat
  || ((new_start a =? new_start b)%nat && (old_start a <=? old_start b)%nat).

Fixpoint insert_hunk (h : DiffHunk) (hs : list DiffHunk) : list DiffHunk :=
  match hs with
  | [] => [h]
  | h' :: hs' => if hunk_le h h' then h :: hs else h' :: insert_hunk h hs'
  end.

Definition sort_hunks (hs : list DiffHunk) : list DiffHunk := foldr insert_hunk [] hs.

(** The walk that accumulates the shift: [saturating_add_signed] clamps at zero. *)
Fixpoint spans (shift : Z) (rs : list Replacement) : list DiffHunk :=
  match rs with
  | [] => []
  | r :: rs' =>
      {| old_start := start r; old_len := len r;
         new_start := Z.to_nat (Z.of_nat (start r) + shift); new_len := length (lines_in r) |}
      :: spans (shift + (Z.of_nat (length (lines_in r)) - Z.of_nat (len r))) rs'
  end.

(** [Vec::splice]: [None] is the panic of a range past the end. *)
Definition splice (lines : list str) (r : Replacement) : option (list str) :=
  if (start r + len r <=? length lines)%nat
  then Some (take (start r) lines ++ lines_in r ++ drop (start r + len r) lines) else None.

Fixpoint splice_all (lines : list str) (rs : list Replacement) : option (list str) :=
  match rs with
  | [] => Some lines
  | r :: rs' => next ← splice lines r; splice_all next rs'
  end.

Definition body_lines (original : str) : list str :=
  split_on NL (default original (strip_suffix [NL] original)).

(** [None] is a panic. *)
Definition apply_update_chunks (file_path : str) (chunks : list UpdateChunk) (original : str) :
    option (Result (str * list DiffHunk) FilesystemError) :=
  let lines := body_lines original in
  match replacements file_path lines 0 chunks with
  | Err e => Some (Err e)
  | Ok rs =>
      let sorted := sort_desc rs in
      let hunks := sort_hunks (spans 0 (reverse sorted)) in
      next ← splice_all lines sorted;
      Some (Ok (join [NL] next ++ [NL], hunks))
  end.

(** ** Lemmas on seeking *)

(** The lines of [pattern] at [index], under one comparison. *)
Definition occurs (c : Comparison) (lines pattern : list str) (index : nat) : Prop :=
  index + length pattern ≤ length lines ∧
  Forall2 (λ l e, comparison_matches c l e = true)
    (take (length pattern) (drop index lines)) pattern.

Lemma matches_at_occurs c lines index pattern :
  index + length pattern ≤ length lines →
  matches_at c lines index pattern = true ↔ occurs c lines pattern index.
Proof.
  unfold occurs. intros Hb.
  assert (matches_at c lines index pattern = true ↔
    Forall2 (λ l e, comparison_matches c l e = true)
      (take (length pattern) (drop index lines)) pattern) as ->; [|naive_solver].
  revert index Hb. induction pattern as [|e pattern IH]; intros index Hb; simpl in *.
  { rewrite take_0. split; [constructor|done]. }
  destruct (lookup_lt_is_Some_2 lines index) as [l Hl]; [lia|].
  rewrite Hl, (drop_S lines l index) by done. cbn [take default from_option].
  rewrite andb_true_iff, IH, Forall2_cons by lia. done.
Qed.

Lemma seek_from_Some c lines pattern st index count i :
  seek_from c lines pattern st index count = Some i ↔
  (index ≤ i < index + count ∧ st ≤ i ∧ matches_at c lines i pattern = true ∧
   ∀ j, index ≤ j < i → st ≤ j → matches_at c lines j pattern = false).
Proof.
  revert index. induction count as [|count IH]; intros index; cbn [seek_from]; [naive_solver lia|].
  destruct ((st <=? index)%nat && matches_at c lines index pattern) eqn:E.
  - apply andb_true_iff in E as [E1%Nat.leb_le E2]. split.
    + intros [= <-]. split_and!; [lia|lia|done|done|lia].
    + intros (H1 & H2 & H3 & H4). f_equal. destruct (decide (index = i)) as [|Hne]; [done|].
      rewrite H4 in E2; [done|lia|lia].
  - rewrite IH. apply andb_false_iff in E. rewrite Nat.leb_gt in E. split.
    + intros (H1 & H2 & H3 & H4). split_and!; [lia|lia|done|done|]. intros j Hj Hst.
      destruct (decide (j = index)) as [->|]; [destruct E; [lia|done]|]. apply H4; lia.
    + intros (H1 & H2 & H3 & H4). destruct (decide (i = index)) as [->|].
      { destruct E; [lia|congruence]. }
      split_and!; [lia|lia|done|done|]. intros j Hj. apply H4. lia.
Qed.

Lemma seek_from_None c lines pattern st index count :
  seek_from c lines pattern st index count = None →
  ∀ j, index ≤ j < index + count → st ≤ j → matches_at c lines j pattern = false.
Proof.
  revert index. induction count as [|count IH]; intros index; cbn [seek_from]; [lia|].
  destruct (_ && _) eqn:E; [done|]. intros H j Hj Hst.
  destruct (decide (j = index)) as [->|]; [|eapply IH; [done|lia|done]].
  apply andb_false_iff in E. rewrite Nat.leb_gt in E. destruct E; [lia|done].
Qed.

(** Where a chunk may land: at or after the cursor, and at the very end for an
    end-of-file chunk. *)
Definition eligible (lines pattern : list str) (st : nat) (eof : bool) (i : nat) : Prop :=
  st ≤ i ∧ (eof = true → i + length pattern = length lines).

Lemma seek_with_Some c lines pattern st eof i :
  length pattern ≤ length lines →
  seek_with c lines pattern st eof = Some i ↔
  occurs c lines pattern i ∧ eligible lines pattern st eof i ∧
  ∀ j, j < i → eligible lines pattern st eof j → ¬ occurs c lines pattern j.
Proof.
  intros Hlen. unfold seek_with, eligible.
  destruct eof; cbv iota zeta.
  - rewrite Nat.ltb_irrefl, Nat.sub_diag, seek_from_Some. split.
    + intros (H1 & H2 & H3 & _). replace i with (length lines - length pattern) in * by lia.
      apply matches_at_occurs in H3; [|lia]. split_and!; [done|lia|lia|]. intros j Hj [_ He]. lia.
    + intros (Hocc & [Hst He] & _). specialize (He eq_refl). destruct Hocc as [Hb Hocc].
      split_and!; [lia|lia|lia| |lia]. apply matches_at_occurs; [lia|by split].
  - destruct (Nat.ltb_spec (length lines - length pattern) st) as [Hlt|Hge].
    + split; [done|]. intros ([Hb _] & [Hst _] & _). lia.
    + rewrite seek_from_Some. split.
      * intros (H1 & H2 & H3 & H4). apply matches_at_occurs in H3; [|lia].
        split_and!; [done|lia|done|]. intros j Hj [Hst _] Hocc.
        pose proof Hocc as [Hb _]. apply matches_at_occurs in Hocc; [|done].
        rewrite H4 in Hocc; [done|lia|lia].
      * intros (Hocc & [Hst _] & Hfirst). pose proof Hocc as [Hb _].
        split_and!; [lia|lia|lia| |]; [by apply matches_at_occurs|].
        intros j Hj Hsj. apply not_true_iff_false. intros Hm%matches_at_occurs; [|lia].
        eapply (Hfirst j); [lia|split; [done|done]|done].
Qed.

Lemma seek_with_None c lines pattern st eof :
  length pattern ≤ length lines →
  seek_with c lines pattern st eof = None →
  ∀ j, eligible lines pattern st eof j → ¬ occurs c lines pattern j.
Proof.
  intros Hlen Hnone j [Hst He] Hocc. pose proof Hocc as [Hb _].
  apply matches_at_occurs in Hocc; [|done]. revert Hnone. unfold seek_with. destruct eof; cbv iota zeta.
  - specialize (He eq_refl). rewrite Nat.ltb_irrefl, Nat.sub_diag. intros Hnone.
    rewrite (seek_from_None _ _ _ _ _ _ Hnone j) in Hocc; [done|lia|done].
  - rewrite (proj2 (Nat.ltb_ge _ _)) by lia. intros Hnone.
    rewrite (seek_from_None _ _ _ _ _ _ Hnone j) in Hocc; [done|lia|done].
Qed.

(** The comparisons, strictest first. *)
Definition stricter (c : Comparison) : list Comparison :=
  match c with Exact => [] | TrimEnd => [Exact] | Trim => [Exact; TrimEnd] end.

Lemma or_else_Some {A} (a b : option A) x :
  or_else a b = Some x ↔ a = Some x ∨ (a = None ∧ b = Some x).
Proof. destruct a; simpl; naive_solver. Qed.

Lemma seek_spec lines pattern st eof i :
  seek lines pattern st eof = Some i →
  ∃ c, occurs c lines pattern i ∧ eligible lines pattern st eof i ∧
    (∀ j, j < i → eligible lines pattern st eof j → ¬ occurs c lines pattern j) ∧
    (∀ c' j, c' ∈ stricter c → eligible lines pattern st eof j → ¬ occurs c' lines pattern j).
Proof.
  unfold seek. destruct (Nat.ltb_spec (length lines) (length pattern)) as [|Hlen]; [done|].
  rewrite !or_else_Some. intros [H|[H1 [H|[H2 H]]]]; apply seek_with_Some in H as (Ho & He & Hf);
    try done; [exists Exact|exists TrimEnd|exists Trim]; (split_and!; [done|done|done|]).
  - intros c' j Hc. by apply elem_of_nil in Hc.
  - intros c' j ->%list_elem_of_singleton. by apply seek_with_None.
  - intros c' j [->| ->%list_elem_of_singleton]%elem_of_cons; by apply seek_with_None.
Qed.

(** Where [seek] must find a pattern: the first place, at or after the cursor (at the end of the
    file for an end-of-file chunk), where it occurs under the strictest of the three comparisons
    under which it occurs at any such place. *)
Definition found_at (lines pattern : list str) (st : nat) (eof : bool) (i : nat) : Prop :=
  ∃ c, occurs c lines pattern i ∧ eligible lines pattern st eof i ∧
    (∀ j, j < i → eligible lines pattern st eof j → ¬ occurs c lines pattern j) ∧
    (∀ c' j, c' ∈ stricter c → eligible lines pattern st eof j → ¬ occurs c' lines pattern j).

(** The pattern occurs at no such place. *)
Definition missing (lines pattern : list str) (st : nat) (eof : bool) : Prop :=
  ∀ c j, eligible lines pattern st eof j → ¬ occurs c lines pattern j.

Lemma seek_found lines pattern st eof i :
  seek lines pattern st eof = Some i ↔ found_at lines pattern st eof i.
Proof.
  split; [apply seek_spec|]. intros (c & Ho & He & Hf & Hs).
  assert (length pattern ≤ length lines) as Hlen by (destruct Ho; lia).
  assert (∀ c', c' ∈ stricter c → seek_with c' lines pattern st eof = None) as Hnone.
  { intros c' Hc. destruct (seek_with _ _ _ _ _) as [k|] eqn:Ek; [|done].
    apply seek_with_Some in Ek as (Hk & Hek & _); [|done]. by destruct (Hs c' k Hc Hek). }
  assert (seek_with c lines pattern st eof = Some i) as Hi by by apply seek_with_Some.
  unfold seek. rewrite (proj2 (Nat.ltb_ge _ _)) by done.
  destruct c; simpl in Hnone.
  - by rewrite Hi.
  - rewrite (Hnone Exact) by set_solver. simpl. by rewrite Hi.
  - rewrite (Hnone Exact), (Hnone TrimEnd) by set_solver. simpl. done.
Qed.

Lemma seek_missing lines pattern st eof :
  seek lines pattern st eof = None ↔ missing lines pattern st eof.
Proof.
  split.
  - unfold seek. intros H c j He [Hb Ho].
    rewrite (proj2 (Nat.ltb_ge _ _)) in H by lia.
    assert (∀ c', seek_with c' lines pattern st eof = None) as Hnone.
    { destruct (seek_with Exact lines pattern st eof) eqn:E1; [done|].
      destruct (seek_with TrimEnd lines pattern st eof) eqn:E2; [done|]. by intros []. }
    by apply (seek_with_None c lines pattern st eof) with (j := j); [lia| | |split].
  - intros H. destruct (seek lines pattern st eof) as [i|] eqn:E; [|done].
    apply seek_found in E as (c & Ho & He & _). by destruct (H c i).
Qed.

(** ** Applying in order *)

Definition is_append (r : Replacement) : bool := (len r =? 0)%nat.
Definition appended (rs : list Replacement) : list Replacement := List.filter is_append rs.
Definition replaced (rs : list Replacement) : list Replacement :=
  List.filter (fun r => negb (is_append r)) rs.

(** The new lines, left to right: what is kept before each replacement, its lines, and
    the rest. *)
Fixpoint rebuild (lines : list str) (o : nat) (rs : list Replacement) : list str :=
  match rs with
  | [] => drop o lines
  | r :: rs' => slice lines o (start r) ++ lines_in r ++ rebuild lines (start r + len r) rs'
  end.

Section applying.
Context (lines : list str).

(** What the loop over the chunks produces. *)
Fixpoint placed (cursor : nat) (rs : list Replacement) : Prop :=
  match rs with
  | [] => True
  | r :: rs' =>
      (start r = length lines ∧ len r = 0 ∧ placed cursor rs') ∨
      (cursor ≤ start r ∧ 0 < len r ∧ start r + len r ≤ length lines ∧
       placed (start r + len r) rs')
  end.

Lemma placed_weaken c c' rs : c' ≤ c → placed c rs → placed c' rs.
Proof.
  intros Hc. revert c c' Hc. induction rs as [|r rs IH]; intros c c' Hc; [done|]. simpl.
  intros [(H1 & H2 & H3)|(H1 & H2 & H3 & H4)]; [left|right]; split_and!; eauto; lia.
Qed.

(** Where the cursor is after the context header of a chunk. *)
Definition after_context (cursor : nat) (chunk : UpdateChunk) (cursor' : nat) : Prop :=
  match context chunk with
  | None => cursor' = cursor
  | Some ctx => ∃ i, found_at lines [ctx] cursor false i ∧ cursor' = i + 1
  end.

(** How a chunk is replaced, from the cursor after its context: a pure insertion goes to the end
    and leaves the cursor; others replace the lines that were found, and go on after them. *)
Definition landed (cursor : nat) (chunk : UpdateChunk) (r : Replacement) (cursor' : nat) : Prop :=
  lines_in r = new_lines chunk ∧ len r = length (old_lines chunk) ∧
  if decide (old_lines chunk = []) then start r = length lines ∧ cursor' = cursor
  else found_at lines (old_lines chunk) cursor (end_of_file chunk) (start r) ∧
    cursor' = start r + len r.

(** The chunks land one after the other, each from where the one before ended. *)
Inductive all_landed : nat → list UpdateChunk → list Replacement → nat → Prop :=
| all_landed_nil cursor : all_landed cursor [] [] cursor
| all_landed_cons cursor cursor1 cursor2 cursor3 chunk chunks r rs :
    after_context cursor chunk cursor1 → landed cursor1 chunk r cursor2 →
    all_landed cursor2 chunks rs cursor3 → all_landed cursor (chunk :: chunks) (r :: rs) cursor3.

(** Why a chunk cannot be applied from a cursor, and the error it gives. *)
Definition cannot_land (file_path : str) (cursor : nat) (chunk : UpdateChunk) (e : FilesystemError) :
    Prop :=
  (∃ ctx, context chunk = Some ctx ∧ missing lines [ctx] cursor false ∧
     e = InvalidRequest
       (lit "Failed to find context '" ++ ctx ++ lit "' in " ++ file_path)) ∨
  (∃ cursor', after_context cursor chunk cursor' ∧ old_lines chunk ≠ [] ∧
     missing lines (old_lines chunk) cursor' (end_of_file chunk) ∧
     e = InvalidRequest
       (lit "Failed to find expected lines in " ++ file_path ++ lit ":" ++ [NL] ++
        join [NL] (old_lines chunk))).

Lemma replacements_landed file_path cursor chunks :
  match replacements file_path lines cursor chunks with
  | Ok rs => ∃ last, all_landed cursor chunks rs last
  | Err e => ∃ done chunk rest rs reached, chunks = done ++ chunk :: rest ∧
      all_landed cursor done rs reached ∧ cannot_land file_path reached chunk e
  end.
Proof.
  revert cursor. induction chunks as [|chunk chunks IH]; intros cursor; cbn [replacements].
  { eexists. constructor. }
  assert (∀ e, cannot_land file_path cursor chunk e →
    ∃ done chunk' rest rs reached, chunk :: chunks = done ++ chunk' :: rest ∧
      all_landed cursor done rs reached ∧ cannot_land file_path reached chunk' e) as Hfail.
  { intros e He. exists [], chunk, chunks, [], cursor. split_and!; [done|constructor|done]. }
  assert (∀ cursor1, after_context cursor chunk cursor1 →
    ∀ r cursor2, landed cursor1 chunk r cursor2 →
    match result_map (cons r) (replacements file_path lines cursor2 chunks) with
    | Ok rs => ∃ last, all_landed cursor (chunk :: chunks) rs last
    | Err e => ∃ done chunk' rest rs reached, chunk :: chunks = done ++ chunk' :: rest ∧
        all_landed cursor done rs reached ∧ cannot_land file_path reached chunk' e
    end) as Hgo.
  { intros c1 Hc1 r c2 Hr. specialize (IH c2).
    destruct (replacements file_path lines c2 chunks) as [rs|e]; simpl.
    - destruct IH as [last H]. exists last. by econstructor.
    - destruct IH as (done & chunk' & rest & rs & reached & -> & H & He).
      exists (chunk :: done), chunk', rest, (r :: rs), reached. split_and!; [done| |done]. by econstructor. }
  assert (∀ cursor1, after_context cursor chunk cursor1 →
    match
      match old_lines chunk with
      | [] => result_map (cons {| start := length lines; len := 0; lines_in := new_lines chunk |})
                (replacements file_path lines cursor1 chunks)
      | pattern =>
          match seek lines pattern cursor1 (end_of_file chunk) with
          | Some found =>
              result_map (cons {| start := found; len := length pattern;
                                  lines_in := new_lines chunk |})
                (replacements file_path lines (found + length pattern) chunks)
          | None => invalid (lit "Failed to find expected lines in " ++ file_path ++ lit ":" ++ [NL] ++
                              join [NL] pattern)
          end
      end
    with
    | Ok rs => ∃ last, all_landed cursor (chunk :: chunks) rs last
    | Err e => ∃ done chunk' rest rs reached, chunk :: chunks = done ++ chunk' :: rest ∧
        all_landed cursor done rs reached ∧ cannot_land file_path reached chunk' e
    end) as Hold.
  { intros c1 Hc1. destruct (old_lines chunk) as [|p ps] eqn:Ep.
    - apply (Hgo c1 Hc1). unfold landed. rewrite Ep. done.
    - cbv zeta. destruct (seek lines (p :: ps) c1 (end_of_file chunk)) as [found|] eqn:Es.
      + apply (Hgo c1 Hc1). unfold landed. rewrite Ep. apply seek_found in Es.
        rewrite decide_False by done. by split_and!.
      + apply Hfail. right. exists c1. rewrite Ep. apply seek_missing in Es. by split_and!. }
  unfold after_context in Hold. destruct (context chunk) as [ctx|] eqn:Ec.
  - destruct (seek lines [ctx] cursor false) as [i|] eqn:Es; simpl.
    + apply Hold. exists i. split; [by apply seek_found|done].
    + apply Hfail. left. exists ctx. split_and!; [done|by apply seek_missing|done].
  - simpl. by apply Hold.
Qed.

Lemma all_landed_placed cursor chunks rs last :
  all_landed cursor chunks rs last →
  placed cursor rs ∧ Forall2 (λ chunk r, lines_in r = new_lines chunk) chunks rs.
Proof.
  induction 1 as [|cursor c1 c2 c3 chunk chunks r rs Hc (Hin & Hl & Hr) _ [IHp IHl]];
    [by split; [|constructor]|].
  split; [|by constructor].
  assert (cursor ≤ c1) as Hle.
  { unfold after_context in Hc. destruct (context chunk); [|by subst].
    destruct Hc as (i & (c & _ & [He _] & _) & ->). lia. }
  case_decide as Ho.
  - destruct Hr as [Hs ->]. left. rewrite Hl, Ho. split_and!; [done|done|by eapply placed_weaken].
  - destruct Hr as [(c & [Hb _] & [He _] & _) ->]. right. rewrite Hl in *.
    split_and!; [lia|by destruct (old_lines chunk); [|simpl; lia]|done|done].
Qed.

Lemma insert_desc_last r rs :
  Forall (λ r', start r < start r') rs → insert_desc r rs = rs ++ [r].
Proof.
  induction 1 as [|r' rs Hr _ IH]; simpl; [done|].
  rewrite (proj2 (Nat.leb_gt _ _)) by done. by rewrite IH.
Qed.

Lemma placed_sort cursor rs :
  placed cursor rs →
  sort_desc rs = appended rs ++ reverse (replaced rs) ∧
  Forall (λ r, cursor ≤ start r ∧ start r < length lines) (replaced rs) ∧
  Forall (λ r, start r = length lines) (appended rs).
Proof.
  revert cursor. induction rs as [|r rs IH]; intros cursor;
    [intros _; split; [done|split; constructor]|].
  cbn [placed]. unfold appended, replaced, is_append in *. cbn [List.filter sort_desc foldr].
  fold (sort_desc rs).
  intros [(Hs & Hl & Hp)|(Hc & Hl & Hb & Hp)].
  - destruct (IH _ Hp) as (E & Hr & Ha). rewrite Hl. cbn [Nat.eqb negb]. split_and!; [|done|by constructor].
    rewrite E. cbn [app].
    assert (Forall (λ r', start r' ≤ start r)
      (List.filter (fun r => (len r =? 0)%nat) rs
        ++ reverse (List.filter (fun r => negb (len r =? 0)%nat) rs))) as Hle.
    { apply Forall_app. split; [eapply Forall_impl; [exact Ha|]; simpl; lia|].
      apply Forall_reverse. eapply Forall_impl; [exact Hr|]. simpl. lia. }
    destruct (_ ++ _) as [|r' l]; [done|]. cbn [insert_desc].
    apply Forall_cons in Hle as [Hle _]. by rewrite (proj2 (Nat.leb_le _ _)).
  - destruct (IH _ Hp) as (E & Hr & Ha). rewrite (proj2 (Nat.eqb_neq (len r) 0)) by lia.
    cbn [negb]. split_and!; [| |done].
    + rewrite E, insert_desc_last, reverse_cons, app_assoc; [done|].
      apply Forall_app. split; [eapply Forall_impl; [exact Ha|]; simpl; lia|].
      apply Forall_reverse. eapply Forall_impl; [exact Hr|]. simpl. lia.
    + constructor; [lia|]. eapply Forall_impl; [exact Hr|]. simpl. lia.
Qed.

(** Replacements in ascending order, in range and apart. *)
Fixpoint in_order (o : nat) (rs : list Replacement) : Prop :=
  match rs with
  | [] => o ≤ length lines
  | r :: rs' =>
      o ≤ start r ∧ start r + len r ≤ length lines ∧ in_order (start r + len r) rs'
  end.

Lemma placed_in_order cursor rs apps :
  cursor ≤ length lines → placed cursor rs →
  Forall (λ r, start r = length lines ∧ len r = 0) apps →
  in_order cursor (replaced rs ++ apps).
Proof.
  intros Hc Hp Ha. revert cursor Hc Hp. induction rs as [|r rs IH]; intros cursor Hc Hp.
  - cbn [replaced List.filter app]. clear -Hc Ha.
    revert cursor Hc. induction Ha as [|r apps [Hs Hl] _ IH]; intros cursor Hc; simpl; [done|].
    rewrite Hs, Hl. split_and!; [done|lia|]. apply IH. lia.
  - unfold replaced, is_append in *. cbn [List.filter].
    destruct Hp as [(Hs & Hl & Hp)|(Hs & Hl & Hb & Hp)].
    + rewrite Hl. cbn [Nat.eqb negb]. by apply IH.
    + rewrite (proj2 (Nat.eqb_neq _ _)) by lia. cbn [negb app in_order].
      split_and!; [done|done|]. by apply IH.
Qed.

Lemma splice_all_app ls a b : splice_all ls (a ++ b) = (next ← splice_all ls a; splice_all next b).
Proof.
  revert ls. induction a as [|r a IH]; intros ls; simpl; [done|].
  destruct (splice ls r); simpl; [apply IH|done].
Qed.

(** Splicing from the end is rebuilding from the start. *)
Lemma splice_all_rebuild o rs :
  in_order o rs →
  splice_all lines (reverse rs) = Some (take o lines ++ rebuild lines o rs).
Proof.
  revert o. induction rs as [|r rs IH]; intros o H.
  - cbn. by rewrite take_drop.
  - destruct H as (H1 & H2 & H3). rewrite reverse_cons, splice_all_app, (IH _ H3). simpl.
    assert (length (take (start r + len r) lines) = start r + len r) as Hlen
      by (rewrite length_take; lia).
    unfold splice. rewrite (proj2 (Nat.leb_le _ _)) by (rewrite length_app; lia). simpl. f_equal.
    rewrite take_app_le by lia. rewrite take_take, Nat.min_l by lia.
    rewrite drop_app_length' by done.
    rewrite <- (take_drop o (take (start r) lines)), take_take, Nat.min_l by lia.
    rewrite <- app_assoc. f_equal. rewrite skipn_firstn_comm. done.
Qed.

Lemma rebuild_app_appends o rs apps :
  in_order o rs → Forall (λ r, start r = length lines ∧ len r = 0) apps →
  rebuild lines o (rs ++ apps) = rebuild lines o rs ++ mjoin (lines_in <$> apps).
Proof.
  intros Ho Ha. revert o Ho. induction rs as [|r rs IH]; intros o Ho.
  - simpl in Ho. cbn [app rebuild]. revert o Ho.
    induction Ha as [|r apps [Hs Hl] _ IHa]; intros o Ho; cbn [rebuild fmap list_fmap].
    { cbn. by rewrite app_nil_r. }
    rewrite Hs, Hl, Nat.add_0_r, IHa by lia. rewrite drop_all.
    unfold slice. rewrite take_ge by (rewrite length_drop; lia). done.
  - destruct Ho as (H1 & H2 & H3). cbn [app rebuild]. rewrite (IH _ H3). by rewrite !app_assoc.
Qed.

(** The spans align the old lines with the new ones. *)
Lemma spans_aligned o new P rs :
  in_order o rs → new = P ++ rebuild lines o rs →
  aligned lines new o (length P) (spans (Z.of_nat (length P) - Z.of_nat o) rs).
Proof.
  revert o P. induction rs as [|r rs IH]; intros o P Ho ->; cbn [spans rebuild aligned].
  - simpl in Ho. split_and!; [done|rewrite length_app; lia|]. by rewrite drop_app_length.
  - destruct Ho as (H1 & H2 & H3). unfold old_end, new_end.
    cbn [Diff.old_start Diff.old_len Diff.new_start Diff.new_len].
    replace (Z.to_nat (Z.of_nat (start r) + (Z.of_nat (length P) - Z.of_nat o)))
      with (length P + (start r - o)) by lia.
    assert (length (slice lines o (start r)) = start r - o) as Hs by (apply slice_length; lia).
    split_and!; [done|done|lia|rewrite !length_app; lia|..].
    + unfold slice at 2. rewrite drop_app_length.
      rewrite take_app_le by lia. rewrite take_ge by lia. done.
    + specialize (IH (start r + len r) (P ++ slice lines o (start r) ++ lines_in r) H3).
      rewrite <- !app_assoc in IH. specialize (IH eq_refl). rewrite !length_app, Hs in IH.
      replace (length P + (start r - o) + length (lines_in r))
        with (length P + (start r - o + length (lines_in r))) by lia.
      replace (Z.of_nat (length P) - Z.of_nat o + (Z.of_nat (length (lines_in r)) - Z.of_nat (len r)))%Z
        with (Z.of_nat (length P + (start r - o + length (lines_in r)))
              - Z.of_nat (start r + len r))%Z by lia.
      exact IH.
Qed.

(** Aligned hunks are sorted already. *)
Lemma aligned_sorted new o n hs : aligned lines new o n hs → sort_hunks hs = hs.
Proof.
  revert o n. induction hs as [|h hs IH]; intros o n H; [done|].
  destruct H as (H1 & H2 & H3 & H4 & H5 & H6). cbn [sort_hunks foldr]. fold (sort_hunks hs).
  rewrite (IH _ _ H6). destruct hs as [|h' hs]; [done|]. cbn [insert_hunk].
  destruct H6 as (G1 & G2 & G3 & _). unfold old_end, new_end in *.
  assert (hunk_le h h' = true) as ->; [|done]. unfold hunk_le.
  rewrite orb_true_iff, andb_true_iff, Nat.ltb_lt, Nat.eqb_eq, Nat.leb_le. lia.
Qed.

End applying.

(** ** What applying does *)

Lemma appended_forall lines cursor rs :
  placed lines cursor rs →
  Forall (λ r, start r = length lines ∧ len r = 0) (reverse (appended rs)).
Proof.
  intros Hp. apply placed_sort in Hp as (_ & _ & Ha). apply Forall_reverse.
  apply Forall_forall. intros r Hr. split.
  - rewrite Forall_forall in Ha. by apply Ha.
  - apply list_elem_of_In, filter_In in Hr as [_ Hr]. by apply Nat.eqb_eq.
Qed.

(** The new lines of a file. *)
Definition patched (lines : list str) (rs : list Replacement) : list str :=
  rebuild lines 0 (replaced rs) ++ mjoin (lines_in <$> reverse (appended rs)).

(** What applying chunks answers. *)
Definition applied (file_path : str) (chunks : list UpdateChunk) (lines : list str)
    (r : Result (str * list DiffHunk) FilesystemError) : Prop :=
  match r with
  | Ok (text, hunks) =>
      ∃ rs last, all_landed lines 0 chunks rs last ∧ placed lines 0 rs ∧
        text = join [NL] (patched lines rs) ++ [NL] ∧
        aligned lines (patched lines rs) 0 0 hunks
  | Err e =>
      ∃ done chunk rest rs reached, chunks = done ++ chunk :: rest ∧
        all_landed lines 0 done rs reached ∧ cannot_land lines file_path reached chunk e
  end.

Lemma apply_update_chunks_runs file_path chunks original :
  ∃ r, apply_update_chunks file_path chunks original = Some r ∧
    applied file_path chunks (body_lines original) r.
Proof.
  unfold apply_update_chunks. set (lines := body_lines original).
  pose proof (replacements_landed lines file_path 0 chunks) as H.
  destruct (replacements file_path lines 0 chunks) as [rs|e] eqn:E; [|by eexists].
  destruct H as [last Hland]. pose proof (all_landed_placed _ _ _ _ _ Hland) as [Hp _].
  destruct (placed_sort _ _ _ Hp) as (Hsort & _ & _).
  pose proof (appended_forall _ _ _ Hp) as Happ.
  assert (in_order lines 0 (replaced rs ++ reverse (appended rs))) as Hin
    by (apply (placed_in_order lines 0 rs); [lia|done|done]).
  assert (reverse (sort_desc rs) = replaced rs ++ reverse (appended rs)) as Hrev
    by (by rewrite Hsort, reverse_app, reverse_involutive).
  assert (sort_desc rs = reverse (replaced rs ++ reverse (appended rs))) as Hsort'
    by (by rewrite <- Hrev, reverse_involutive).
  cbv zeta. rewrite Hrev. rewrite Hsort', (splice_all_rebuild lines 0) by done. simpl.
  assert (in_order lines 0 (replaced rs)) as Hin'.
  { apply (placed_in_order lines 0 rs []) in Hp; [|lia|constructor]. by rewrite app_nil_r in Hp. }
  rewrite (rebuild_app_appends lines 0) by done.
  eexists. split; [done|]. exists rs, last. split_and!; [done|done|done|].
  assert (aligned lines (patched lines rs) 0 0
    (spans 0 (replaced rs ++ reverse (appended rs)))) as Hal.
  { apply (spans_aligned lines 0 (patched lines rs) []); [done|].
    unfold patched. by rewrite <- (rebuild_app_appends lines 0). }
  by rewrite (aligned_sorted _ _ _ _ _ Hal).
Qed.

(** C28: Applying chunks never panics: the splices, made from the end, are in range.  When it
    succeeds, every chunk landed, in order and apart, where [seek] must find it: after its
    context header if it has one, at the first place after the chunk before where its lines
    occur under the strictest comparison that finds any; the new text is the old one rebuilt
    from left to right with every matched region replaced, the pure insertions following it,
    the last one first; and the reported spans account for every change.  It fails only with
    the first chunk whose context or lines occur nowhere they may, and the error names them. *)
Theorem apply_update_chunks_correct file_path chunks original :
  let lines := body_lines original in
  ∃ r, apply_update_chunks file_path chunks original = Some r ∧
    match r with
    | Ok (text, hunks) =>
        ∃ rs last, all_landed lines 0 chunks rs last ∧ placed lines 0 rs ∧
          text = join [NL] (patched lines rs) ++ [NL] ∧
          aligned lines (patched lines rs) 0 0 hunks
    | Err e =>
        ∃ done chunk rest rs reached, chunks = done ++ chunk :: rest ∧
          all_landed lines 0 done rs reached ∧ cannot_land lines file_path reached chunk e
    end.
Proof. apply apply_update_chunks_runs. Qed.

(** *** The spans describe the files *)

Lemma split_on_snoc c s : split_on c (s ++ [c]) = split_on c s ++ [[]].
Proof.
  induction s as [|d s IH]; simpl; [by rewrite N.eqb_refl|].
  destruct (d =? c)%N; [by rewrite IH|]. rewrite IH.
  pose proof (split_on_nonempty c s). by destruct (split_on c s).
Qed.

Lemma last_split_on_empty c s : last (split_on c s) = Some [] → s = [] ∨ ∃ s', s = s' ++ [c].
Proof.
  intros [ls E]%last_Some. rewrite <- (join_split_on c s), E.
  destruct ls as [|l ls]; [by left|right]. rewrite join_snoc by done. rewrite app_nil_r. eauto.
Qed.

(** A text that is not empty has the lines of its body. *)
Lemma diff_lines_body s : s ≠ [] → diff_lines s = body_lines s.
Proof.
  intros Hne. unfold diff_lines, body_lines. destruct s as [|c s]; [done|].
  set (t := c :: s) in *. destruct (strip_suffix [NL] t) as [b|] eqn:E.
  - apply strip_suffix_Some in E. rewrite E, split_on_snoc, last_snoc, length_app. simpl.
    by rewrite Nat.add_sub, take_app_length.
  - destruct (last (split_on NL t)) as [[|d l]|] eqn:El; try done.
    apply last_split_on_empty in El as [?|[s' Hs]]; [done|].
    apply strip_suffix_Some in Hs. congruence.
Qed.

Lemma diff_lines_joined ls :
  ls ≠ [] → Forall (λ l, NL ∉ l) ls → diff_lines (join [NL] ls ++ [NL]) = ls.
Proof.
  intros Hne Hls. rewrite diff_lines_body by (by destruct (join [NL] ls)).
  unfold body_lines. rewrite (proj2 (strip_suffix_Some [NL] _ (join [NL] ls)) eq_refl).
  by apply split_on_join.
Qed.

Lemma slice_Forall {A} (P : A → Prop) l a b : Forall P l → Forall P (slice l a b).
Proof. intros H. unfold slice. by apply Forall_take, Forall_drop. Qed.

Lemma rebuild_Forall (P : str → Prop) lines o rs :
  Forall P lines → Forall (λ r, Forall P (lines_in r)) rs → Forall P (rebuild lines o rs).
Proof.
  intros Hl. revert o. induction rs as [|r rs IH]; intros o H; cbn [rebuild]; [by apply Forall_drop|].
  apply Forall_cons in H as [Hr H]. apply Forall_app. split; [by apply slice_Forall|].
  apply Forall_app. auto.
Qed.

Lemma patched_Forall (P : str → Prop) lines chunks rs :
  Forall P lines → Forall (λ c, Forall P (new_lines c)) chunks →
  Forall2 (λ chunk r, lines_in r = new_lines chunk) chunks rs →
  Forall P (patched lines rs).
Proof.
  intros Hl Hc H2. assert (Forall (λ r, Forall P (lines_in r)) rs) as Hr.
  { induction H2 as [|c r cs rs E _ IH]; [constructor|].
    apply Forall_cons in Hc as [Hc Hcs]. constructor; [by rewrite E|auto]. }
  assert (∀ f, Forall (λ r, Forall P (lines_in r)) (List.filter f rs)) as Hf.
  { intros f. rewrite Forall_forall in *. intros r Hin%list_elem_of_In%filter_In.
    apply Hr. apply list_elem_of_In. tauto. }
  unfold patched. apply Forall_app. split; [by apply rebuild_Forall; [|apply Hf]|].
  assert (Forall (λ r, Forall P (lines_in r)) (reverse (appended rs))) as Ha
    by apply Forall_reverse, Hf.
  induction Ha as [|r l Hrl _ IH]; cbn; [constructor|]. apply Forall_app. auto.
Qed.

(** The spans [apply_update_chunks] reports describe the change to [file_diff_hunks]:
    for a file that is not empty and does not lose its last line, the lines of the old
    and the new text agree except inside the spans. *)
Theorem apply_update_chunks_spans file_path chunks original text hunks :
  apply_update_chunks file_path chunks original = Some (Ok (text, hunks)) →
  Forall (λ c, Forall (λ l, NL ∉ l) (new_lines c)) chunks →
  original ≠ [] → text ≠ [NL] →
  aligned (diff_lines original) (diff_lines text) 0 0 hunks.
Proof.
  intros Happ Hc Hne Htext.
  destruct (apply_update_chunks_runs file_path chunks original) as (r & Hr & Hok).
  rewrite Happ in Hr. injection Hr as <-.
  destruct Hok as (rs & last & Hl%all_landed_placed & Hp & -> & Hal). destruct Hl as [_ Hl].
  rewrite diff_lines_body by done. rewrite diff_lines_joined; [done| |].
  - intros E. rewrite E in Htext. by apply Htext.
  - eapply patched_Forall; [|done|done]. apply split_on_Forall.
Qed.

Definition example_chunk : UpdateChunk :=
  {| old_lines := [lit "two"]; new_lines := [lit "TWO"]; context := Some (lit "one");
     end_of_file := false |}.

Lemma apply_update_chunks_spans_witness :
  aligned (diff_lines example_old) (diff_lines example_new) 0 0
    [{| old_start := 1; old_len := 1; new_start := 1; new_len := 1 |}].
Proof.
  apply (apply_update_chunks_spans (lit "a.txt") [example_chunk] example_old).
  - vm_compute. reflexivity.
  - apply (bool_decide_unpack _). vm_compute. exact I.
  - discriminate.
  - vm_compute. discriminate.
Defined.

(** An insertion into an empty file leaves a blank first line: the empty text splits
    into one empty line, and the insertion goes after it. *)
Example append_to_empty_file :
  apply_update_chunks (lit "a.txt")
    [{| old_lines := []; new_lines := [lit "x"]; context := None; end_of_file := false |}] []
  = Some (Ok ([NL] ++ lit "x" ++ [NL],
      [{| old_start := 1; old_len := 0; new_start := 1; new_len := 1 |}])).
Proof. vm_compute. reflexivity. Qed.

(** Removing every line of a file leaves one blank line. *)
Example remove_every_line :
  apply_update_chunks (lit "a.txt")
    [{| old_lines := [lit "x"]; new_lines := []; context := None; end_of_file := false |}]
    (lit "x" ++ [NL])
  = Some (Ok ([NL], [{| old_start := 0; old_len := 1; new_start := 0; new_len := 0 |}])).
Proof. vm_compute. reflexivity. Qed.

(** ** The parser answers *)

Lemma add_lines_len ls c rest : add_lines ls = Ok (c, rest) → length rest ≤ length ls.
Proof.
  revert c rest. induction ls as [|l ls IH]; intros c rest; cbn [add_lines]; [by intros [= <- <-]|].
  case_if; [by intros [= <- <-]|]. destruct (strip_prefix _ _); [|done].
  destruct (add_lines ls) as [[c' r']|]; [|done]. intros [= <- <-].
  specialize (IH _ _ eq_refl). simpl. lia.
Qed.

Lemma change_lines_len ls o n e rest :
  change_lines ls = Ok (o, n, e, rest) → length rest ≤ length ls.
Proof.
  revert o n e rest. induction ls as [|l ls IH]; intros o n e rest; cbn [change_lines];
    [by intros [= <- <- <- <-]|].
  repeat (case_if; [by intros [= <- <- <- <-]; simpl; lia|]).
  destruct (change_lines ls) as [[[[o' n'] e'] r']|] eqn:E; cbn [result_map].
  - specialize (IH _ _ _ _ eq_refl).
    destruct (strip_prefix (lit " ") l); [intros [= _ _ _ <-]; simpl; lia|].
    destruct (strip_prefix (lit "-") l); [intros [= _ _ _ <-]; simpl; lia|].
    destruct (strip_prefix (lit "+") l); [intros [= _ _ _ <-]; simpl; lia|done].
  - by repeat destruct (strip_prefix _ l).
Qed.

Lemma chunk_lines_total fuel ls :
  length ls ≤ fuel →
  ∃ r, chunk_lines fuel ls = Some r ∧ ∀ c rest, r = Ok (c, rest) → length rest ≤ length ls.
Proof.
  revert ls. induction fuel as [|fuel IH]; intros [|l ls] Hlen; cbn [chunk_lines];
    [|simpl in Hlen; lia| |]; try (eexists; split; [done|]; by intros ? ? [= <- <-]).
  case_if; [eexists; split; [done|]; by intros ? ? [= <- <-]|].
  destruct (strip_prefix CHUNK l); [|by eexists].
  destruct (change_lines ls) as [[[[o n] e] rest]|] eqn:E; [|by eexists].
  apply change_lines_len in E. simpl in Hlen.
  destruct (IH rest ltac:(lia)) as (r & -> & Hr). eexists. split; [done|].
  intros c rest' H. destruct r as [[c0 r0]|]; [|done]. injection H as <- <-.
  specialize (Hr _ _ eq_refl). simpl. lia.
Qed.

Lemma parse_section_total line rest :
  ∃ r, parse_section line rest = Some r ∧ ∀ h rest', r = Ok (h, rest') → length rest' ≤ length rest.
Proof.
  unfold parse_section. case_if.
  { eexists. split; [done|]. intros h r'.
    intros (p & _ & ([c r] & E & [= _ <-])%result_bind_ok)%result_bind_ok.
    by apply add_lines_len in E. }
  case_if.
  { eexists. split; [done|]. intros h r'. by intros (p & _ & [= _ <-])%result_bind_ok. }
  case_if; [|case_if; eexists; (split; [done|]); [done|by intros ? ? [= _ <-]]].
  destruct (required_header_path line UPDATE_FILE) as [path|]; [|by eexists].
  set (moved := match rest with [] => _ | _ => _ end).
  assert (∀ m r, moved = Ok (m, r) → length r ≤ length rest) as Hm.
  { subst moved. destruct rest as [|n rest]; [by intros ? ? [= _ <-]|]. intros m r.
    case_if; [|by intros [= _ <-]]. destruct (required_header_path n MOVE_TO); [|done].
    intros [= _ <-]. simpl. lia. }
  destruct moved as [[m r]|]; [|by eexists]. specialize (Hm _ _ eq_refl).
  destruct (chunk_lines_total (length r) r) as (c & -> & Hc); [done|]. eexists. split; [done|].
  intros h r' ([cs r0] & -> & H)%result_bind_ok. specialize (Hc _ _ eq_refl). cbn in H.
  destruct cs; [done|]. injection H as _ <-. lia.
Qed.

Lemma parse_sections_total fuel ls : length ls ≤ fuel → is_Some (parse_sections fuel ls).
Proof.
  revert ls. induction fuel as [|fuel IH]; intros [|l ls] Hlen; cbn [parse_sections];
    [done|simpl in Hlen; lia|done|].
  destruct (parse_section_total l ls) as (r & -> & Hr). destruct r as [[h rest]|]; [|done].
  simpl in Hlen. specialize (Hr _ _ eq_refl).
  destruct (IH rest ltac:(lia)) as [x ->]. done.
Qed.

Lemma parse_patch_total text : ∃ r, parse_patch text = Some r.
Proof.
  unfold parse_patch, parse_lines. cbv zeta. set (ls := split_on _ _).
  destruct (position _ ls); [|by eexists]. destruct (position _ ls); [|by eexists].
  case_if; [by eexists|].
  match goal with |- context [parse_sections ?f ?b] =>
    destruct (parse_sections_total f b) as [r ->]; [done|] end.
  by eexists.
Qed.

(** ** Printing *)

Inductive Change : Type := Kept (l : str) | Removed (l : str) | Added (l : str).

Record ChunkText := { at_context : option str; changes : list Change; at_end : bool }.

Inductive SectionText : Type :=
| AddText (path : str) (content : list str)
| DeleteText (path : str)
| UpdateText (path : str) (move_path : option str) (chunk : ChunkText) (chunks : list ChunkText).

Definition change_line (c : Change) : str :=
  match c with
  | Kept l => lit " " ++ l | Removed l => lit "-" ++ l | Added l => lit "+" ++ l
  end.

Definition chunk_text (c : ChunkText) : list str :=
  (CHUNK ++ match at_context c with Some t => SPACE :: t | None => [] end)
  :: map change_line (changes c) ++ (if at_end c then [END_OF_FILE] else []).

Definition section_text (s : SectionText) : list str :=
  match s with
  | AddText path content => (ADD_FILE ++ SPACE :: path) :: map (app (lit "+")) content
  | DeleteText path => [DELETE_FILE ++ SPACE :: path]
  | UpdateText path move_path chunk chunks =>
      (UPDATE_FILE ++ SPACE :: path)
      :: match move_path with Some p => [MOVE_TO ++ SPACE :: p] | None => [] end
      ++ flat_map chunk_text (chunk :: chunks)
  end.

Definition patch_text (sections : list SectionText) : str :=
  join [NL] (BEGIN_PATCH :: flat_map section_text sections ++ [END_PATCH]).

(** What a printed section says. *)
Definition old_of (cs : list Change) : list str :=
  flat_map (fun c => match c with Kept l | Removed l => [l] | Added _ => [] end) cs.
Definition new_of (cs : list Change) : list str :=
  flat_map (fun c => match c with Kept l | Added l => [l] | Removed _ => [] end) cs.

Definition chunk_of (c : ChunkText) : UpdateChunk :=
  {| old_lines := old_of (changes c); new_lines := new_of (changes c);
     context := at_context c; end_of_file := at_end c |}.

Definition hunk_of (s : SectionText) : PatchHunk :=
  match s with
  | AddText path content =>
      Add path (match content with [] => [] | _ => join [NL] content ++ [NL] end)
  | DeleteText path => Delete path
  | UpdateText path move_path chunk chunks =>
      Update path move_path (map chunk_of (chunk :: chunks))
  end.

(** A path or a context: not empty, without surrounding whitespace. *)
Definition label_ok (p : str) : Prop := p ≠ [] ∧ trim p = p.

(** A kept line that reads as the end marker would end the patch. *)
Definition change_ok (c : Change) : Prop :=
  match c with Kept l => trim l ≠ END_PATCH | _ => True end.

Definition chunk_ok (c : ChunkText) : Prop :=
  from_option label_ok True (at_context c) ∧ Forall change_ok (changes c).

Definition section_ok (s : SectionText) : Prop :=
  match s with
  | AddText path _ | DeleteText path => label_ok path
  | UpdateText path move_path chunk chunks =>
      label_ok path ∧ from_option label_ok True move_path ∧ Forall chunk_ok (chunk :: chunks)
  end.

(** ** Printed patches parse back *)

(** Lines at which every loop of the parser stops. *)
Definition stops (more : list str) : Prop :=
  match more with [] => True | l :: _ => starts_with STARS l = true ∧ l ≠ END_OF_FILE end.

Lemma trim_space p : trim (SPACE :: p) = trim p.
Proof. done. Qed.

Lemma header_path prefix p :
  label_ok p → required_header_path (prefix ++ SPACE :: p) prefix = Ok p.
Proof.
  intros [Hne Ht]. unfold required_header_path. rewrite drop_app_length, trim_space, Ht.
  by rewrite bool_decide_eq_false_2.
Qed.

Lemma add_lines_text content more :
  stops more → add_lines (map (app (lit "+")) content ++ more) = Ok (content, more).
Proof.
  intros Hm. induction content as [|l content IH].
  - destruct more as [|m more]; [done|]. destruct Hm as [Hm _]. cbn [map app add_lines].
    by rewrite Hm.
  - cbn [map app add_lines]. change (starts_with STARS (lit "+" ++ l)) with false.
    change (strip_prefix (lit "+") (lit "+" ++ l)) with (Some l). cbv iota. by rewrite IH.
Qed.

Lemma change_lines_text cs (eof : bool) more :
  stops more ∨ (∃ l more', more = l :: more' ∧ starts_with CHUNK l = true) →
  change_lines (map change_line cs ++ (if eof then [END_OF_FILE] else []) ++ more)
  = Ok (old_of cs, new_of cs, eof, more).
Proof.
  intros Hm. induction cs as [|c cs IH].
  - destruct eof; [done|]. cbn [map app]. destruct more as [|m more]; [done|].
    cbn [change_lines]. destruct Hm as [[Hm Hne]|(l & more' & [= <- <-] & Hm)].
    + rewrite Hm. unfold str_eqb. rewrite bool_decide_eq_false_2 by done. by case_if.
    + by rewrite Hm.
  - cbn [map app change_lines]. rewrite IH. by destruct c.
Qed.

Lemma chunk_lines_text fuel cs more :
  length cs ≤ fuel → Forall chunk_ok cs → stops more →
  chunk_lines fuel (flat_map chunk_text cs ++ more) = Some (Ok (map chunk_of cs, more)).
Proof.
  intros Hf Hcs Hm. revert fuel Hf. induction Hcs as [|c cs [Hctx _] _ IH]; intros fuel Hf.
  - cbn [flat_map app map]. destruct more as [|m more]; [by destruct fuel|].
    destruct Hm as [Hm _]. destruct fuel; cbn [chunk_lines]; by rewrite Hm.
  - destruct fuel as [|fuel]; [simpl in Hf; lia|]. cbn [flat_map map].
    unfold chunk_text at 1. rewrite <- !app_comm_cons, <- !app_assoc. cbn [chunk_lines].
    set (tail := match at_context c with Some t => SPACE :: t | None => [] end).
    change (starts_with STARS (CHUNK ++ tail)) with false.
    change (strip_prefix CHUNK (CHUNK ++ tail)) with (Some tail). cbv iota.
    rewrite change_lines_text.
    2: { destruct cs as [|c' cs]; [by left|right]. by do 2 eexists. }
    rewrite IH by (simpl in Hf; lia). cbn. f_equal. f_equal. f_equal. f_equal. unfold chunk_of. f_equal.
    subst tail. destruct (at_context c) as [t|]; [|done]. destruct Hctx as [Hne Ht].
    rewrite trim_space, Ht. by destruct t.
Qed.

Lemma section_text_cons s : ∃ header body, section_text s = header :: body ∧ starts_with STARS header = true ∧ header ≠ END_OF_FILE.
Proof. destruct s; by do 2 eexists. Qed.

Lemma parse_section_text s header body more :
  section_ok s → section_text s = header :: body → stops more →
  parse_section header (body ++ more) = Some (Ok (Some (hunk_of s), more)).
Proof.
  intros Hs E Hm.
  assert (header = default [] (head (section_text s)) ∧ body = tail (section_text s)) as [-> ->]
    by by rewrite E.
  clear E. destruct s as [path content|path|path mv chunk chunks];
    cbn [section_text head tail default from_option]; unfold id, parse_section.
  - change (starts_with ADD_FILE (ADD_FILE ++ ?x)) with true. cbv iota.
    rewrite header_path by done. cbn [result_bind]. rewrite add_lines_text by done. by destruct content.
  - change (starts_with ADD_FILE (DELETE_FILE ++ ?x)) with false.
    change (starts_with DELETE_FILE (DELETE_FILE ++ ?x)) with true. cbv iota.
    by rewrite header_path.
  - change (starts_with ADD_FILE (UPDATE_FILE ++ ?x)) with false.
    change (starts_with DELETE_FILE (UPDATE_FILE ++ ?x)) with false.
    change (starts_with UPDATE_FILE (UPDATE_FILE ++ ?x)) with true. cbv iota.
    destruct Hs as (Hp & Hmv & Hch). rewrite header_path by done.
    rewrite <- app_assoc.
    set (cl := flat_map chunk_text (chunk :: chunks) ++ more).
    assert (chunk_lines (length cl) cl = Some (Ok (map chunk_of (chunk :: chunks), more))) as Hcl.
    { apply chunk_lines_text; [|done|done]. subst cl. rewrite length_app.
      generalize (chunk :: chunks). intros l. induction l as [|c l IH]; cbn [flat_map]; [simpl; lia|].
      rewrite length_app. simpl. lia. }
    destruct mv as [p|].
    + cbn [app]. change (starts_with MOVE_TO (MOVE_TO ++ ?x)) with true. cbv iota.
      rewrite header_path by done. cbn [result_map]. by rewrite Hcl.
    + cbn [app]. assert (∃ t r, cl = (CHUNK ++ t) :: r) as (t & r & Ecl) by by do 2 eexists.
      rewrite Ecl. change (starts_with MOVE_TO (CHUNK ++ t)) with false. cbv iota.
      rewrite <- Ecl. by rewrite Hcl.
Qed.

Lemma parse_sections_text fuel ss :
  length (flat_map section_text ss) ≤ fuel → Forall section_ok ss →
  parse_sections fuel (flat_map section_text ss) = Some (Ok (map hunk_of ss)).
Proof.
  intros Hf Hs. revert fuel Hf. induction Hs as [|s ss Hs Hss IH]; intros fuel Hf; [by destruct fuel|].
  cbn [flat_map] in *. destruct (section_text_cons s) as (h & b & E & Hh).
  rewrite E in *. cbn [app length] in *. destruct fuel as [|fuel]; [lia|].
  cbn [parse_sections]. rewrite length_app in Hf.
  assert (stops (flat_map section_text ss)) as Hstop.
  { destruct ss as [|s' ss]; [exact I|]. cbn [flat_map].
    destruct (section_text_cons s') as (h' & b' & E' & Hh'). by rewrite E'. }
  rewrite (parse_section_text s h b) by done.
  rewrite IH by lia. done.
Qed.

(** *** Markers *)

Lemma trim_not_end l t : l = t → starts_with END_PATCH l = false →
  (∀ c, head l = Some c → is_whitespace c = false) → trim l ≠ END_PATCH.
Proof.
  intros _ Hs Hh Ht. unfold trim, trim_start, trim_start_matches in Ht.
  rewrite drop_while_id in Ht by done. destruct (trim_end_prefix is_whitespace l) as (post & E & _).
  unfold trim_end in Ht. rewrite Ht in E. apply not_true_iff_false in Hs. apply Hs.
  apply starts_with_true. by exists post.
Qed.

Lemma chunk_lines_not_end c :
  chunk_ok c → Forall (λ l, trim l ≠ END_PATCH) (chunk_text c).
Proof.
  intros [_ Hc]. unfold chunk_text. constructor.
  { eapply trim_not_end; [done|done|]. by intros d [= <-]. }
  apply Forall_app. split; [|destruct (at_end c); repeat constructor; by vm_compute].
  apply Forall_map. eapply Forall_impl; [exact Hc|]. intros [l|l|l] H; simpl in *; [done|..];
    (eapply trim_not_end; [done|done|by intros d [= <-]]).
Qed.

Lemma section_lines_not_end s :
  section_ok s → Forall (λ l, trim l ≠ END_PATCH) (section_text s).
Proof.
  intros Hs. destruct s as [path content|path|path mv chunk chunks]; cbn [section_text].
  - constructor; [eapply trim_not_end; [done|done|by intros d [= <-]]|].
    apply Forall_map, Forall_true. intros l. eapply trim_not_end; [done|done|by intros d [= <-]].
  - repeat constructor. eapply trim_not_end; [done|done|by intros d [= <-]].
  - destruct Hs as (_ & _ & Hch).
    constructor; [eapply trim_not_end; [done|done|by intros d [= <-]]|]. apply Forall_app. split.
    + destruct mv; repeat constructor. eapply trim_not_end; [done|done|by intros d [= <-]].
    + generalize dependent (chunk :: chunks). intros l Hl. induction Hl; cbn [flat_map]; [constructor|].
      apply Forall_app. split; [by apply chunk_lines_not_end|done].
Qed.

Lemma position_end (f : str → bool) ls l :
  Forall (λ l, f l = false) ls → f l = true → position f (ls ++ [l]) = Some (length ls).
Proof.
  intros H Hl. induction H as [|x ls Hx _ IH]; simpl; [by rewrite Hl|]. by rewrite Hx, IH.
Qed.

Lemma replace_absent p r s c p' : p = c :: p' → c ∉ s → replace p r s = s.
Proof.
  intros -> Hs. unfold replace. induction s as [|d s IH]; [done|]. cbn [replace_go].
  assert (starts_with (c :: p') (d :: s) = false) as ->.
  { apply not_true_iff_false. intros [x Hx]%starts_with_true. set_solver. }
  f_equal. apply IH. set_solver.
Qed.

Lemma join_not_in c ls : c ≠ NL → Forall (λ l, c ∉ l) ls → c ∉ join [NL] ls.
Proof.
  intros Hc H. induction H as [|l ls Hl _ IH]; [set_solver|].
  destruct (decide (ls = [])) as [->|Hne]; [done|]. rewrite join_cons by done. set_solver.
Qed.

(** Lines as a text has them. *)
Definition plain_line (l : str) : Prop := NL ∉ l ∧ CR ∉ l.

Lemma patch_text_shape ss : ∃ mid, patch_text ss = BEGIN_PATCH ++ [NL] ++ mid ++ END_PATCH.
Proof.
  unfold patch_text. rewrite join_cons by (intros [_ ?]%app_eq_nil; done).
  destruct (decide (flat_map section_text ss = [])) as [->|Hne]; [by exists []|].
  rewrite join_snoc by done. eexists (_ ++ [NL]). by rewrite <- app_assoc.
Qed.

Lemma parse_patch_text ss :
  ss ≠ [] → Forall section_ok ss → Forall plain_line (flat_map section_text ss) →
  parse_patch (patch_text ss) = Some (Ok (map hunk_of ss)).
Proof.
  intros Hne Hss Hpl. destruct (patch_text_shape ss) as [mid Hmid].
  assert (trim (patch_text ss) = patch_text ss) as Htrim.
  { rewrite Hmid. apply trim_id; [by intros c [= <-]|]. intros c Hc.
    rewrite !app_assoc, last_app in Hc. vm_compute in Hc. by injection Hc as <-. }
  assert (strip_heredoc (patch_text ss) = None) as Hhd by by rewrite Hmid.
  unfold parse_patch. rewrite Htrim, Hhd. cbn [default from_option]. cbv zeta.
  set (body := flat_map section_text ss) in *.
  assert (Forall plain_line (BEGIN_PATCH :: body ++ [END_PATCH])) as Hall.
  { constructor; [split; apply (bool_decide_unpack _); by vm_compute|]. apply Forall_app.
    split; [done|]. repeat constructor; apply (bool_decide_unpack _); by vm_compute. }
  rewrite (replace_absent _ _ _ CR [NL]); [|done|].
  2: { apply join_not_in; [done|]. eapply Forall_impl; [exact Hall|]. by intros l []. }
  unfold patch_text. rewrite split_on_join; [|done|].
  2: { eapply Forall_impl; [exact Hall|]. by intros l []. }
  fold body. unfold parse_lines.
  assert (position (λ l, str_eqb (trim l) BEGIN_PATCH) (BEGIN_PATCH :: body ++ [END_PATCH]) = Some 0)
    as -> by done.
  assert (position (λ l, str_eqb (trim l) END_PATCH) (BEGIN_PATCH :: body ++ [END_PATCH])
    = Some (S (length body))) as ->.
  { apply (position_end _ (BEGIN_PATCH :: body)); [|done]. constructor; [done|].
    subst body. clear -Hss. induction Hss as [|s ss Hs _ IH]; cbn [flat_map]; [constructor|].
    apply Forall_app. split; [|done]. eapply Forall_impl; [by apply section_lines_not_end|].
    intros l Hl. by apply not_true_iff_false; intros ?%str_eqb_eq. }
  assert (take (S (length body) - (0 + 1)) (drop (0 + 1) (BEGIN_PATCH :: body ++ [END_PATCH])) = body)
    as ->.
  { change (drop (0 + 1) (BEGIN_PATCH :: ?l)) with l. rewrite take_app_le by lia. apply take_ge. lia. }
  cbn [Nat.leb]. cbv zeta. unfold body. rewrite parse_sections_text by done. cbn.
  by destruct ss.
Qed.

(** C40: The parser answers every text, and reads back every patch printed from sections
    with proper paths and contexts: added, deleted, moved and updated files, chunks of
    kept, removed and added lines; a kept line that reads as the end marker is the one
    exception. *)
Theorem parse_patch_round_trip :
  (∀ text, ∃ r, parse_patch text = Some r) ∧
  (∀ ss, ss ≠ [] → Forall section_ok ss → Forall plain_line (flat_map section_text ss) →
     parse_patch (patch_text ss) = Some (Ok (map hunk_of ss))).
Proof. split; [apply parse_patch_total|apply parse_patch_text]. Qed.

Definition example_sections : list SectionText :=
  [AddText (lit "new.txt") [lit "one"; []; lit "*** three"];
   UpdateText (lit "a.txt") (Some (lit "b.txt"))
     {| at_context := Some (lit "fn main"); changes := [Kept (lit "{"); Removed (lit "x"); Added (lit "y")];
        at_end := false |}
     [{| at_context := None; changes := [Added (lit "tail")]; at_end := true |}];
   DeleteText (lit "old.txt")].

Lemma parse_patch_round_trip_witness :
  parse_patch (patch_text example_sections) = Some (Ok (map hunk_of example_sections)).
Proof.
  apply parse_patch_round_trip; [discriminate| |].
  - repeat constructor; vm_compute; discriminate.
  - apply (bool_decide_unpack _). vm_compute. exact I.
Defined.

(** A kept line that reads as the end marker ends the patch: the rest is dropped
    without an error. *)
Example kept_end_marker_drops_the_rest :
  let chunk := {| at_context := None; at_end := false;
                  changes := [Removed (lit "a"); Kept END_PATCH; Removed (lit "b")] |} in
  parse_patch (patch_text [UpdateText (lit "a.txt") None chunk []])
  = Some (Ok [Update (lit "a.txt") None
                [{| old_lines := [lit "a"]; new_lines := []; context := None;
                    end_of_file := false |}]]).
Proof. vm_compute. reflexivity. Qed.
