(* ===== verification/Edit.v ===== *)
(** * Exact-text edits: [crates/mcp-files/src/mutation_operations/edit.rs]

    Offsets are scalar positions; a text and its pieces are cut where the code cuts
    them, always between scalars. *)

From S2P Require Import Prelude Effects PathPolicy Text Diff Patch.

Definition MAX_EDIT_SPANS : nat := 1024.

(** [str::rfind] and slices, on scalars. *)
Definition replace_exact (content old_string new_string : str) (replace_all : bool) :
    Result str FilesystemError :=
  match find_str old_string content with
  | None => invalid (lit "Could not find oldString in the file")
  | Some first =>
      if replace_all then Ok (replace old_string new_string content)
      else if negb (bool_decide (rfind_str old_string content = Some first))
      then invalid (lit "Found multiple matches for oldString; provide more context or set replaceAll")
      else Ok (take first content ++ new_string ++ drop (first + length old_string) content)
  end.

Definition count_newlines (value : str) : nat :=
  length (List.filter (N.eqb NL) value).

Definition line_ending (value ending : str) : str :=
  let normalized := replace [CR; NL] [NL] value in
  if str_eqb ending [NL] then normalized else replace [NL] [CR; NL] normalized.

(** [str::match_indices]: non-overlapping occurrences, left to right. *)
Fixpoint match_from (p : str) (skip index : nat) (s : str) : list nat :=
  match s with
  | [] => []
  | c :: s' =>
      match skip with
      | S k => match_from p k (S index) s'
      | 0 => if starts_with p s then index :: match_from p (length p - 1) (S index) s'
             else match_from p 0 (S index) s'
      end
  end.

Definition match_indices (p s : str) : list nat :=
  match p with [] => seq 0 (S (length s)) | _ => match_from p 0 0 s end.

(** [OpenSpan]. *)
Record OpenSpan := { from : nat; to : nat; last_end : nat; span_start : nat; new_newlines : nat }.

Definition close_span (content : str) (span : OpenSpan) (shift : Z) : DiffHunk * Z :=
  let old_len := 1 + count_newlines (slice content (from span) (to span)) in
  let new_len := 1 + new_newlines span + count_newlines (slice content (last_end span) (to span)) in
  ({| old_start := span_start span; old_len := old_len;
      new_start := Z.to_nat (Z.of_nat (span_start span) + shift); new_len := new_len |},
   (shift + (Z.of_nat new_len - Z.of_nat old_len))%Z).

(** The variables of the loop over the matches. *)
Record Scan := {
  closed : list DiffHunk;
  open : option OpenSpan;
  shift : Z;
  scanned : nat;
  line : nat;
  line_from : nat;
}.

Definition Scan_start : Scan :=
  {| closed := []; open := None; shift := 0; scanned := 0; line := 0; line_from := 0 |}.

(** The position after the last newline of [content[scanned..start]], if any. *)
Fixpoint last_line_from (value : str) (offset : nat) (line_from : nat) : nat :=
  match value with
  | [] => line_from
  | c :: value' =>
      last_line_from value' (S offset) (if (c =? NL)%N then S offset else line_from)
  end.

(** One match: [None] when the regions outrun [MAX_EDIT_SPANS]. *)
Definition scan_match (content old_string : str) (replacement_newlines : nat) (s : Scan)
    (start : nat) : option Scan :=
  let skipped := slice content (scanned s) start in
  let line := line s + count_newlines skipped in
  let line_from := last_line_from skipped (scanned s) (line_from s) in
  let end_ := start + length old_string in
  let line_end :=
    match find_char NL (drop end_ content) with
    | Some index => end_ + index
    | None => length content
    end in
  let region_end :=
    match open s with
    | Some current => if (end_ <=? to current)%nat then to current else line_end
    | None => line_end
    end in
  let fresh :=
    {| from := line_from; to := region_end; last_end := end_; span_start := line;
       new_newlines := count_newlines (slice content line_from start) + replacement_newlines |} in
  let with_open closed open shift :=
    {| closed := closed; open := Some open; shift := shift; scanned := start; line := line;
       line_from := line_from |} in
  match open s with
  | Some current =>
      if (line_from <=? to current)%nat then
        Some (with_open (closed s)
          {| from := from current; to := Nat.max (to current) region_end; last_end := end_;
             span_start := span_start current;
             new_newlines := new_newlines current +
               (count_newlines (slice content (last_end current) start) + replacement_newlines) |}
          (shift s))
      else
        let '(hunk, shift') := close_span content current (shift s) in
        let closed' := closed s ++ [hunk] in
        if (MAX_EDIT_SPANS <=? length closed')%nat then None
        else Some (with_open closed' fresh shift')
  | None => Some (with_open (closed s) fresh (shift s))
  end.

Fixpoint scan_matches (content old_string : str) (replacement_newlines : nat) (replace_all : bool)
    (s : Scan) (starts : list nat) : option Scan :=
  match starts with
  | [] => Some s
  | start :: starts' =>
      s' ← scan_match content old_string replacement_newlines s start;
      if negb replace_all then Some s'
      else scan_matches content old_string replacement_newlines replace_all s' starts'
  end.

Definition edit_spans (content old_string new_string : str) (replace_all : bool) :
    option (list DiffHunk) :=
  s ← scan_matches content old_string (count_newlines new_string) replace_all Scan_start
        (match_indices old_string content);
  open ← open s;
  Some (closed s ++ [(close_span content open (shift s)).1]).

(** ** Preparing an edit *)

(** [FileEditInput] and [FileEditOutput]. *)
Record FileEditInput := { old_string : str; new_string : str; replace_all : option bool }.
Record FileEditOutput := {
  out_path : str; out_relative_path : str; applied : bool; out_diff : FileDiff;
}.

Record EditLimits := { max_write_bytes : nat; max_diff_bytes : nat }.

(** The part of [prepare_edit_bounded] after the file is read; [capacity] is what the
    allocator gave a string. *)
Definition edit_text (policy : RootPathPolicy) (limits : EditLimits) (file_path : Path)
    (relative_path : str) (input : FileEditInput) (old_content : str)
    (capacity : str → N) (maximum_retained_bytes : N) :
    Result (str * FileEditOutput) FilesystemError :=
  let ending := if bool_decide (is_Some (find_str [CR; NL] old_content)) then [CR; NL] else [NL] in
  let old_string := line_ending (old_string input) ending in
  let new_string := line_ending (new_string input) ending in
  let all := default false (replace_all input) in
  (let? new_content := replace_exact old_content old_string new_string all in
   let? _ := enforce_bytes (lit "edited content") new_content (max_write_bytes limits) in
   let preparation_peak :=
     usize_sat (usize_sat (capacity old_content + capacity new_content)
                + line_index_retained_bytes [old_content; new_content]) in
   if (maximum_retained_bytes <? preparation_peak)%N
   then invalid (lit "File edit preparation exceeds maximum retained size of " ++
                 lit (pretty maximum_retained_bytes) ++ lit " bytes")
   else
     let? diff :=
       match edit_spans old_content old_string new_string all with
       | Some spans =>
           file_diff_hunks policy file_path old_content new_content spans None
             (max_diff_bytes limits)
       | None =>
           file_diff policy file_path old_content new_content None (max_diff_bytes limits)
       end in
     Ok (new_content, {| out_path := path_text file_path; out_relative_path := relative_path;
                         applied := false; out_diff := diff |}))%W.

(** [FileWriteOutput]; its input is the content. *)
Record FileWriteOutput := {
  w_path : str; w_relative_path : str; w_existed : bool; w_applied : bool; w_diff : FileDiff;
  w_previous : option str;
}.

Definition enforce_preparation_peak (bytes maximum : N) : Result unit FilesystemError :=
  if (maximum <? bytes)%N
  then invalid (lit "File write preparation exceeds maximum retained size of " ++
                lit (pretty maximum) ++ lit " bytes")
  else Ok ().

Section prepare.
Context `{FE : FileEnv} {Event : Type}.
Context (policy : RootPathPolicy) (limits : EditLimits) (max_file_bytes max_previous_bytes : nat).
(** The capacity the allocator gave a string. *)
Context (capacity : str → N).
Abbreviation Io A := (Eff World Event FilesystemError A) (only parsing).
Local Open Scope workcell_scope.

Definition prepare_edit_bounded (file_path : Path) (relative_path : str) (input : FileEditInput)
    (maximum_retained_bytes : N) : Io (str * FileVersion * FileEditOutput) :=
  do? _ := check_cancelled in
  if bool_decide (old_string input = new_string input)
  then throw (InvalidRequest (lit "No changes to apply: strings are identical"))
  else
    do? snapshot := read_text_snapshot_required file_path max_file_bytes in
    do? out := lift (edit_text policy limits file_path relative_path input snapshot.1 capacity
                       maximum_retained_bytes) in
    ret (out.1, snapshot.2, out.2).

Definition prepare_write_bounded (file_path : Path) (relative_path : str) (content : str)
    (maximum_retained_bytes : N) : Io (str * option FileVersion * FileWriteOutput) :=
  do? _ := check_cancelled in
  do? _ := lift (enforce_bytes (lit "content") content (max_write_bytes limits)) in
  do? read := attempt (read_text_snapshot_required file_path max_file_bytes) in
  do? snapshot :=
    match read with
    | Ok snapshot => ret (Some snapshot)
    | Err error => if is_not_found error then ret None else throw error
    end in
  let existing := fst <$> snapshot in
  let old_content := default [] existing in
  do? _ := lift (enforce_preparation_peak
    (usize_sat (usize_sat (N.of_nat (str_len old_content) + capacity content)
                + line_index_retained_bytes [old_content; content])) maximum_retained_bytes) in
  do? diff := lift (file_diff policy file_path old_content content None (max_diff_bytes limits)) in
  ret (content, snd <$> snapshot,
       {| w_path := path_text file_path; w_relative_path := relative_path;
          w_existed := bool_decide (is_Some existing); w_applied := false; w_diff := diff;
          w_previous :=
            match existing with
            | Some text => if (str_len text <=? max_previous_bytes)%nat then Some text else None
            | None => None
            end |}).

End prepare.

(** ** Replacing *)

Lemma starts_with_drop p s i :
  i ≤ length s → starts_with p (drop i s) = true ↔ ∃ b, s = take i s ++ p ++ b.
Proof.
  intros Hi. rewrite starts_with_true. split.
  - intros [b Hb]. exists b. by rewrite <- Hb, take_drop.
  - intros [b Hb]. exists b. apply (app_inv_head (take i s)). by rewrite take_drop.
Qed.

Lemma occurrence_at p s a b :
  s = a ++ p ++ b → starts_with p (drop (length a) s) = true.
Proof. intros ->. rewrite drop_app_length. apply starts_with_app. Qed.

(** The text has exactly one occurrence of [p], after [a]. *)
Definition only_occurrence (p s a b : str) : Prop :=
  s = a ++ p ++ b ∧ ∀ a' b', s = a' ++ p ++ b' → a' = a.

Lemma unique_occurrence p s i :
  find_str p s = Some i → rfind_str p s = Some i →
  only_occurrence p s (take i s) (drop (i + length p) s).
Proof.
  intros (H1 & H2 & H3)%find_str_Some (_ & _ & H4)%rfind_str_Some.
  apply starts_with_drop in H1 as [b Hb]; [|done].
  assert (drop (i + length p) s = b) as Eb.
  { rewrite Hb, app_assoc, drop_app_length'; [done|]. rewrite length_app, length_take. lia. }
  split; [by rewrite Eb|].
  intros a' b' E. pose proof (occurrence_at _ _ _ _ E) as Ho.
  assert (length a' ≤ length s) by (rewrite E, length_app; lia).
  assert (length a' = i) as <-.
  { destruct (Nat.lt_trichotomy (length a') i) as [Hlt|[?|Hgt]]; [|done|].
    - rewrite H3 in Ho; done.
    - rewrite H4 in Ho; [done|lia|lia]. }
  rewrite E. by rewrite take_app_length.
Qed.

Lemma several_occurrences p s i j :
  find_str p s = Some i → rfind_str p s = Some j → i ≠ j →
  ∃ a b a' b', s = a ++ p ++ b ∧ s = a' ++ p ++ b' ∧ a ≠ a'.
Proof.
  intros (H1 & H2 & _)%find_str_Some (G1 & G2 & _)%rfind_str_Some Hne.
  apply starts_with_drop in H1 as [b Hb]; [|done]. apply starts_with_drop in G1 as [b' Hb']; [|done].
  exists (take i s), b, (take j s), b'. split_and!; [done|done|].
  intros E. apply (f_equal length) in E. rewrite !length_take in E. lia.
Qed.

(** Left-to-right replacement: the pieces between the occurrences stay. *)
Lemma replace_go_pieces p r s skip :
  p ≠ [] → skip ≤ length s →
  ∃ pieces, pieces ≠ [] ∧ drop skip s = join p pieces ∧
    replace_go p r skip s = join r pieces ∧
    Forall (λ q, find_str p q = None) pieces.
Proof.
  intros Hp. revert skip. induction s as [|c s IH]; intros skip Hs.
  - exists [[]]. simpl in Hs. replace skip with 0 by lia. split_and!; [done|done|done|].
    repeat constructor. by destruct p.
  - destruct skip as [|skip]; [|simpl in Hs; apply IH; lia]. cbn [replace_go drop].
    destruct (starts_with p (c :: s)) eqn:E.
    + apply starts_with_true in E as [b Hb].
      destruct p as [|d p]; [done|]. cbn [app] in Hb. injection Hb as -> Hs'.
      cbn [length]. rewrite Nat.sub_succ, Nat.sub_0_r.
      assert (length p ≤ length s) as Hl by (rewrite Hs', length_app; lia).
      destruct (IH (length p) Hl) as (ps & Hne & H1 & H2 & H3).
      exists ([] :: ps). rewrite !join_cons by done. split_and!; [done| | |].
      * rewrite <- H1, Hs', drop_app_length. done.
      * by rewrite H2.
      * constructor; [done|done].
    + destruct (IH 0 ltac:(lia)) as (ps & Hne & H1 & H2 & H3). rewrite drop_0 in H1.
      destruct ps as [|q ps]; [done|]. exists ((c :: q) :: ps).
      assert (∀ x, join x ((c :: q) :: ps) = c :: join x (q :: ps)) as Hj by (by destruct ps).
      rewrite !Hj, <- H1, H2. split_and!; [done|done|done|].
      apply Forall_cons in H3 as [Hq Hps]. constructor; [|done].
      cbn [find_str]. destruct (starts_with p (c :: q)) eqn:Eq; [|by rewrite Hq].
      exfalso. apply starts_with_true in Eq as [b Hb].
      apply not_true_iff_false in E. apply E, starts_with_true.
      rewrite H1. destruct ps as [|q' ps]; [exists b; done|].
      exists (b ++ p ++ join p (q' :: ps)). rewrite join_cons by done.
      change (c :: ?x ++ ?y) with ((c :: x) ++ y). by rewrite Hb, <- app_assoc.
Qed.

(** C36: Without [replaceAll] the edit succeeds exactly when the old text occurs once, and
    replaces that occurrence; with it, exactly when it occurs, and replaces every
    occurrence found from left to right, the pieces between them, in which it does not
    occur, staying as they are. *)
Theorem replace_exact_correct content old_string new_string result :
  old_string ≠ [] →
  (replace_exact content old_string new_string false = Ok result ↔
     ∃ a b, only_occurrence old_string content a b ∧ result = a ++ new_string ++ b) ∧
  (replace_exact content old_string new_string true = Ok result →
     ∃ pieces, 2 ≤ length pieces ∧
       content = join old_string pieces ∧ result = join new_string pieces ∧
       Forall (λ q, find_str old_string q = None) pieces) ∧
  (is_ok (replace_exact content old_string new_string true) = true ↔
     ∃ a b, content = a ++ old_string ++ b).
Proof.
  intros Hp. unfold replace_exact. split_and!.
  - destruct (find_str old_string content) as [i|] eqn:Ef.
    2: { split; [done|]. intros (a & b & [E _] & _).
         pose proof (occurrence_at _ _ _ _ E) as Ho.
         rewrite (proj1 (find_str_None _ _) Ef) in Ho; [done|]. rewrite E, length_app. lia. }
    case_bool_decide as Hr; simpl.
    + pose proof (unique_occurrence _ _ _ Ef Hr) as Hu. split.
      * intros [= <-]. by do 2 eexists.
      * intros (a & b & [E Hu'] & ->). f_equal. destruct Hu as [E0 Hu].
        rewrite (Hu' _ _ E0). f_equal. f_equal.
        rewrite <- (Hu' _ _ E0) in E. rewrite E0 in E at 1.
        by apply app_inv_head, app_inv_head in E.
    + split; [done|]. intros (a & b & [E Hu] & _). exfalso.
      destruct (rfind_str old_string content) as [j|] eqn:Ej.
      * destruct (several_occurrences _ _ _ _ Ef Ej) as (a1 & b1 & a2 & b2 & H1 & H2 & Hne);
          [congruence|]. apply Hne. by rewrite (Hu _ _ H1), (Hu _ _ H2).
      * apply find_str_Some in Ef as (H1 & H2 & _).
        by rewrite (proj1 (rfind_str_None _ _) Ej) in H1.
  - destruct (find_str old_string content) as [i|] eqn:Ef; [|done]. intros [= <-].
    unfold replace. destruct old_string as [|d p]; [done|].
    destruct (replace_go_pieces (d :: p) new_string content 0) as (ps & Hne & H1 & H2 & H3); [done|lia|].
    exists ps. split_and!; [|done|done|done]. destruct ps as [|q [|q' ps]]; [done| |simpl; lia].
    exfalso. rewrite drop_0 in H1. simpl in H1. subst q.
    apply Forall_cons in H3 as [H3 _]. congruence.
  - destruct (find_str old_string content) as [i|] eqn:Ef; simpl.
    + split; [|done]. intros _. apply find_str_Some in Ef as (H1 & H2 & _).
      apply starts_with_drop in H1 as [b Hb]; [|done]. eauto.
    + split; [done|]. intros (a & b & E). pose proof (occurrence_at _ _ _ _ E) as Ho.
      rewrite (proj1 (find_str_None _ _) Ef) in Ho; [done|]. rewrite E, length_app. lia.
Qed.

Lemma replace_exact_correct_witness :
  replace_exact (lit "let a = b;") (lit "b") (lit "c") false = Ok (lit "let a = c;") ∧
  ∃ a b, only_occurrence (lit "b") (lit "let a = b;") a b.
Proof.
  assert (replace_exact (lit "let a = b;") (lit "b") (lit "c") false = Ok (lit "let a = c;")) as E
    by (vm_compute; reflexivity).
  split; [exact E|].
  destruct (replace_exact_correct (lit "let a = b;") (lit "b") (lit "c") (lit "let a = c;"))
    as [[H _] _]; [discriminate|].
  destruct (H E) as (a & b & Hu & _). exact (ex_intro _ a (ex_intro _ b Hu)).
Defined.
