(* ===== verification/PatchPlan.v ===== *)
(** * Planning a patch: [crates/mcp-files/src/mutation_operations/patch.rs],
      [mutation_operations.rs]

    The plan of a multi-file patch, its retained-bytes budget, and the receipt shortened
    to fit the result ceiling.  Reading a file, the existence test and the file system
    behind [RootPathPolicy::resolve] are the class [PlanEnv]; the capacities the allocator
    gives strings, and the size of a serialized receipt, are parameters. *)

From S2P Require Import Prelude Effects PathPolicy Text Diff Patch Edit.
Local Open Scope workcell_scope.

(** ** Receipts *)

Inductive PlannedChangeType : Type := TAdd | TUpdate | TDelete | TMove.

#[export] Instance PlannedChangeType_eq_dec : EqDecision PlannedChangeType.
Proof. solve_decision. Defined.

(** [FileMutation] and [FileApplyPatchOutput]. *)
Record FileMutation := {
  m_file_path : str;
  m_relative_path : str;
  m_type : PlannedChangeType;
  m_patch : str;
  m_additions : nat;
  m_deletions : nat;
  m_truncated : bool;
  m_move_path : option str;
}.

Record FileApplyPatchOutput := {
  o_applied : bool;
  o_diff : str;
  o_files : list FileMutation;
  o_truncated : bool;
}.

Definition assemble (files : list FileMutation) (applied : bool) : FileApplyPatchOutput :=
  {| o_applied := applied; o_diff := join [NL] (map m_patch files); o_files := files;
     o_truncated := existsb m_truncated files |}.

Definition shorten_file (allowance : nat) (f : FileMutation) : FileMutation :=
  match shorten_patch (m_patch f) allowance with
  | Some patch =>
      {| m_file_path := m_file_path f; m_relative_path := m_relative_path f; m_type := m_type f;
         m_patch := patch; m_additions := m_additions f; m_deletions := m_deletions f;
         m_truncated := true; m_move_path := m_move_path f |}
  | None => f
  end.

Definition shorten (output : FileApplyPatchOutput) (allowance : nat) : FileApplyPatchOutput :=
  assemble (map (shorten_file allowance) (o_files output)) (o_applied output).

Section fit.
(** [mcp_response_size]: the serialized size, or the serializer's failure. *)
Context (measure : FileApplyPatchOutput → Result nat FilesystemError).

(** The binary search; each iteration narrows the interval, so its width is enough
    [fuel] and [None] is its exhaustion. *)
Fixpoint fit_loop (output : FileApplyPatchOutput) (limit fuel lower upper : nat) :
    option (Result nat FilesystemError) :=
  if (lower <? upper)%nat then
    match fuel with
    | 0 => None
    | S fuel' =>
        let candidate := lower + (upper - lower + 1) / 2 in
        match measure (shorten output candidate) with
        | Err e => Some (Err e)
        | Ok size =>
            if (size <=? limit)%nat then fit_loop output limit fuel' candidate upper
            else fit_loop output limit fuel' lower (candidate - 1)
        end
    end
  else Some (Ok lower).

Definition longest_patch (output : FileApplyPatchOutput) : nat :=
  foldr Nat.max 0 (map (fun f => str_len (m_patch f)) (o_files output)).

Definition fit (output : FileApplyPatchOutput) (limit : nat) :
    option (Result FileApplyPatchOutput FilesystemError) :=
  match measure output with
  | Err e => Some (Err e)
  | Ok size =>
      if (size <=? limit)%nat then Some (Ok output)
      else
        let upper := longest_patch output in
        (fun r =>
           let? lower := r in
           let fitted := shorten output lower in
           let? size := measure fitted in
           if (limit <? size)%nat
           then invalid (lit "Patch result exceeds maximum size of " ++ dec limit ++ lit " bytes")
           else Ok fitted) <$> fit_loop output limit upper 0 upper
  end.

End fit.

(** ** The budget *)

(** [PatchPlanBudget]. *)
Record PatchPlanBudget := { retained_bytes : N; maximum_bytes : N }.

Definition PatchPlanBudget_new (maximum_bytes patch_bytes : N) : PatchPlanBudget :=
  {| retained_bytes := usize_sat (patch_bytes * 2); maximum_bytes := maximum_bytes |}.

(** A chain of [checked_add] that ends in [unwrap_or(usize::MAX)] saturates. *)
Definition ensure_peak (b : PatchPlanBudget) (old_content_bytes new_content_bytes diff_bytes : N) :
    Result unit FilesystemError :=
  let measured :=
    usize_sat (retained_bytes b + old_content_bytes + new_content_bytes + diff_bytes) in
  if (maximum_bytes b <? measured)%N
  then invalid (lit "Patch plan exceeds maximum content budget of " ++
                lit (pretty (maximum_bytes b)) ++ lit " bytes")
  else Ok ().

(** ** The plan *)

Section plan.
Context `{CE : CoreEnv}.

(** [PlannedChange]. *)
Record PlannedChange := {
  requested_path : str;
  file_path : Path;
  new_content : str;
  change_type : PlannedChangeType;
  move_path : option Path;
  requested_move_path : option str;
  diff : FileDiff;
  expected_source : option FileVersion;
}.

(** What the allocator gave the strings of a change, and the sizes of the types. *)
Record Capacities := {
  requested_path_capacity : PlannedChange → N;
  file_path_capacity : PlannedChange → N;
  content_capacity : PlannedChange → N;
  move_path_capacity : PlannedChange → N;
  requested_move_capacity : PlannedChange → N;
  diff_file_capacity : PlannedChange → N;
  diff_relative_capacity : PlannedChange → N;
  diff_capacity : PlannedChange → N;
  size_of_change : N;
  size_of_diff : N;
  size_of_mutation : N;
}.
Context (caps : Capacities).

Definition sat_sum (l : list N) : N := foldl (fun a c => usize_sat (a + c)) 0%N l.

(** [FileDiff::retained_bytes]. *)
Definition diff_retained (c : PlannedChange) : N :=
  sat_sum [size_of_diff caps; diff_file_capacity caps c; diff_relative_capacity caps c;
           diff_capacity caps c].

(** [PlannedChange::retained_bytes]. *)
Definition change_retained (c : PlannedChange) : N :=
  sat_sum [size_of_change caps; requested_path_capacity caps c; file_path_capacity caps c;
           content_capacity caps c;
           if move_path c then move_path_capacity caps c else 0%N;
           if requested_move_path c then requested_move_capacity caps c else 0%N;
           diff_retained c].

Record PatchLimits := {
  l_max_patch_bytes : nat;
  l_max_patch_plan_bytes : N;
  l_max_patch_result_bytes : nat;
  l_max_patch_files : nat;
  l_max_file_bytes : nat;
  l_max_write_bytes : nat;
  l_max_diff_bytes : nat;
}.
Context (policy : RootPathPolicy) (limits : PatchLimits).

Abbreviation Plan := (Eff World Empty_set FilesystemError) (only parsing).

Definition read_text (p : Path) : Plan (str * FileVersion) :=
  read_text_snapshot_required p (l_max_file_bytes limits).

Definition budget_push (b : PatchPlanBudget) (change : PlannedChange) (old_content_bytes : N) :
    Result PatchPlanBudget FilesystemError :=
  let? _ := ensure_peak b old_content_bytes (content_capacity caps change)
              (diff_capacity caps change) in
  let total := (retained_bytes b + change_retained change)%N in
  if (USIZE_MAX <? total)%N then Err (Operation (lit "Patch plan content budget overflow"))
  else Ok {| retained_bytes := total; maximum_bytes := maximum_bytes b |}.

Definition byte_len (s : str) : N := N.of_nat (str_len s).

(** The arm of [PatchHunk::Add]. *)
Definition plan_add (hunk_path : str) (file_path : Path) (contents : str)
    (budget : PatchPlanBudget) : Plan (PlannedChange * PatchPlanBudget) :=
  do? present := exists_ file_path in
  if present then throw (InvalidRequest (lit "Cannot add existing file: " ++ hunk_path))
  else
    do? _ := lift (enforce_bytes (lit "added file") contents (l_max_write_bytes limits)) in
    do? _ := lift (ensure_peak budget 0 (byte_len contents) 0) in
    do? diff := lift (file_diff policy file_path [] contents None (l_max_diff_bytes limits)) in
    let change :=
      {| requested_path := hunk_path; diff := diff; file_path := file_path;
         new_content := contents; change_type := TAdd; move_path := None;
         requested_move_path := None; expected_source := None |} in
    do? budget := lift (budget_push budget change 0) in
    ret (change, budget).

(** The arm of [PatchHunk::Delete]. *)
Definition plan_delete (hunk_path : str) (file_path : Path) (budget : PatchPlanBudget) :
    Plan (PlannedChange * PatchPlanBudget) :=
  do? _ := lift (ensure_peak budget (N.of_nat (l_max_file_bytes limits)) 0
                   (N.of_nat (l_max_diff_bytes limits))) in
  do? snapshot := read_text file_path in
  let old_bytes := byte_len snapshot.1 in
  do? _ := lift (ensure_peak budget old_bytes 0 (line_index_retained_bytes [snapshot.1])) in
  do? diff := lift (file_diff policy file_path snapshot.1 [] None (l_max_diff_bytes limits)) in
  let change :=
    {| requested_path := hunk_path; diff := diff; file_path := file_path; new_content := [];
       change_type := TDelete; move_path := None; requested_move_path := None;
       expected_source := Some snapshot.2 |} in
  do? budget := lift (budget_push budget change old_bytes) in
  ret (change, budget).

(** The target of a move: resolved, not used by the patch, not existing. *)
Definition plan_move (move_path : option str) (used : list Path) :
    Plan (option (str * Path)) :=
  match move_path with
  | None => ret None
  | Some path =>
      do? target := resolve_path policy path in
      if bool_decide (target ∈ used)
      then throw (InvalidRequest (lit "Patch target conflicts with another path: " ++ path))
      else
        do? present := exists_ target in
        if present then throw (InvalidRequest (lit "Cannot move over existing file: " ++ path))
        else ret (Some (path, target))
  end.

(** The arm of [PatchHunk::Update]; a panic of the splices cannot occur (Patch). *)
Definition plan_update (hunk_path : str) (file_path : Path) (move_path : option str)
    (chunks : list UpdateChunk) (used : list Path) (budget : PatchPlanBudget) :
    Plan (PlannedChange * PatchPlanBudget) :=
  do? _ := lift (ensure_peak budget (N.of_nat (l_max_file_bytes limits))
                   (N.of_nat (l_max_write_bytes limits)) (N.of_nat (l_max_diff_bytes limits))) in
  do? snapshot := read_text file_path in
  let old_bytes := byte_len snapshot.1 in
  do? _ := lift (ensure_peak budget old_bytes 0 0) in
  do? applied :=
    match apply_update_chunks hunk_path chunks snapshot.1 with
    | Some r => lift r
    | None => throw (Operation (lit "unreachable"))
    end in
  let '(new_content, spans) := applied in
  do? _ := lift (enforce_bytes (lit "patched file") new_content (l_max_write_bytes limits)) in
  do? _ := lift (ensure_peak budget old_bytes (byte_len new_content)
                   (line_index_retained_bytes [snapshot.1; new_content])) in
  do? moved := plan_move move_path used in
  let target := snd <$> moved in
  do? diff := lift (file_diff_hunks policy file_path snapshot.1 new_content spans target
                      (l_max_diff_bytes limits)) in
  let change :=
    {| requested_path := hunk_path; diff := diff; file_path := file_path;
       new_content := new_content;
       change_type := match target with Some _ => TMove | None => TUpdate end;
       move_path := target; requested_move_path := fst <$> moved;
       expected_source := Some snapshot.2 |} in
  do? budget := lift (budget_push budget change old_bytes) in
  ret (change, budget).

(** The loop over the hunks; [used] is the set of claimed paths. *)
Fixpoint plan_hunks (hunks : list PatchHunk) (used : list Path) (changes : list PlannedChange)
    (budget : PatchPlanBudget) : Plan (list PlannedChange) :=
  match hunks with
  | [] => ret changes
  | hunk :: hunks' =>
      do? _ := check_cancelled in
      let hunk_path := Patch.hunk_path hunk in
      do? file_path := resolve_path policy hunk_path in
      if bool_decide (file_path ∈ used)
      then throw (InvalidRequest (lit "Patch references a path more than once: " ++ hunk_path))
      else
        let used := file_path :: used in
        do? planned :=
          match hunk with
          | Add _ contents => plan_add hunk_path file_path contents budget
          | Delete _ => plan_delete hunk_path file_path budget
          | Update _ move_path chunks =>
              plan_update hunk_path file_path move_path chunks used budget
          end in
        let '(change, budget) := planned in
        plan_hunks hunks' (option_list (move_path change) ++ used) (changes ++ [change]) budget
  end.

Definition plan_patch (patch_text : str) (maximum_retained_bytes : N) :
    Plan (list PlannedChange) :=
  do? hunks :=
    match parse_patch patch_text with
    | Some r => lift r
    | None => throw (Operation (lit "unreachable"))
    end in
  if (l_max_patch_files limits <? length hunks)%nat
  then throw (InvalidRequest (lit "Patch exceeds maximum of " ++ dec (l_max_patch_files limits) ++
                              lit " file sections"))
  else plan_hunks hunks [] [] (PatchPlanBudget_new maximum_retained_bytes (byte_len patch_text)).

Definition MCP_RAW_RESULT_CEILING_BYTES : N := 64000%N.

Fixpoint file_mutations (changes : list PlannedChange) : Result (list FileMutation) FilesystemError :=
  match changes with
  | [] => Ok []
  | change :: changes' =>
      let? relative := relative policy (default (file_path change) (move_path change)) in
      result_map
        (cons {| m_file_path := path_text (file_path change); m_relative_path := relative;
                 m_type := change_type change; m_patch := patch (diff change);
                 m_additions := additions (diff change); m_deletions := deletions (diff change);
                 m_truncated := diff_truncated (diff change);
                 m_move_path := path_text <$> move_path change |})
        (file_mutations changes')
  end.

Definition patch_output (changes : list PlannedChange) (applied : bool) :
    Result FileApplyPatchOutput FilesystemError :=
  result_map (fun files => assemble files applied) (file_mutations changes).

Context (measure : FileApplyPatchOutput → Result nat FilesystemError).

(** What the preview of one change adds. *)
Definition preview_bytes (c : PlannedChange) : N :=
  sat_sum [requested_path_capacity caps c; file_path_capacity caps c;
           usize_sat (diff_capacity caps c * 2);
           if move_path c then move_path_capacity caps c else 0%N; size_of_mutation caps].

Definition patch_preview_peak (changes : list PlannedChange) : N :=
  usize_sat (sat_sum (map change_retained changes) + sat_sum (map preview_bytes changes)).

Definition enforce_patch_bytes (bytes maximum : N) : Result unit FilesystemError :=
  if (maximum <? bytes)%N
  then invalid (lit "Patch plan exceeds maximum retained size of " ++ lit (pretty maximum) ++
                lit " bytes")
  else Ok ().

Definition fit_patch_output (output : FileApplyPatchOutput) :
    option (Result FileApplyPatchOutput FilesystemError) :=
  fit measure output
    (Nat.min (l_max_patch_result_bytes limits) (N.to_nat MCP_RAW_RESULT_CEILING_BYTES)).

Definition prepare_patch (patch_text : str) (maximum_retained_bytes : N) :
    Plan (list PlannedChange * FileApplyPatchOutput) :=
  do? _ := check_cancelled in
  do? _ := lift (enforce_bytes (lit "patchText") patch_text (l_max_patch_bytes limits)) in
  let maximum_retained_bytes := N.min maximum_retained_bytes (l_max_patch_plan_bytes limits) in
  do? changes := plan_patch patch_text maximum_retained_bytes in
  do? _ := lift (enforce_patch_bytes (patch_preview_peak changes) maximum_retained_bytes) in
  do? output := lift (patch_output changes false) in
  match fit_patch_output output with
  | Some r => do? output := lift r in ret (changes, output)
  | None => throw (Operation (lit "unreachable"))
  end.

End plan.

(** ** Fitting the receipt *)
Section fit_theorems.
Context (measure : FileApplyPatchOutput → Result nat FilesystemError).

Definition fits (limit : nat) (output : FileApplyPatchOutput) : Prop :=
  ∃ size, measure output = Ok size ∧ size ≤ limit.

Lemma fit_loop_spec output limit fuel lower upper :
  lower ≤ upper → upper - lower ≤ fuel →
  ∃ r, fit_loop measure output limit fuel lower upper = Some r ∧
    ((∀ o, is_ok (measure o) = true) → is_ok r = true) ∧
    ∀ l, r = Ok l →
      lower ≤ l ≤ upper ∧ (l = lower ∨ fits limit (shorten output l)) ∧
      (l = upper ∨ ¬ fits limit (shorten output (S l))).
Proof.
  revert lower upper. induction fuel as [|fuel IH]; intros lower upper Hle Hf; cbn [fit_loop];
    destruct (Nat.ltb_spec lower upper) as [Hlt|Hge]; try lia.
  1, 3: eexists; split; [done|]; split; [done|]; intros l [= <-];
    split_and!; [lia|lia|by left|left; lia].
  set (c := lower + (upper - lower + 1) / 2).
  assert (lower < c ≤ upper) as Hc.
  { pose proof (Nat.div_mod (upper - lower + 1) 2 ltac:(lia)).
    pose proof (Nat.mod_upper_bound (upper - lower + 1) 2 ltac:(lia)). subst c. lia. }
  cbv zeta. destruct (measure (shorten output c)) as [size|e] eqn:Em.
  2: { eexists. split; [done|]. split; [|done]. intros Hm. specialize (Hm (shorten output c)).
       by rewrite Em in Hm. }
  destruct (Nat.leb_spec size limit) as [Hs|Hs].
  - destruct (IH c upper) as (r & -> & Hok & Hr); [lia|lia|]. exists r. split_and!; [done..|].
    intros l Hl. destruct (Hr l Hl) as (H1 & H2 & H3). split_and!; [lia|lia| |done].
    destruct H2 as [->|?]; [|by right]. right. by exists size.
  - destruct (IH lower (c - 1)) as (r & -> & Hok & Hr); [lia|lia|]. exists r. split_and!; [done..|].
    intros l Hl. destruct (Hr l Hl) as (H1 & H2 & H3). split_and!; [lia|lia|done|].
    destruct H3 as [->|?]; [|by right]. right. replace (S (c - 1)) with c by lia.
    intros (size' & Em' & Hs'). rewrite Em in Em'. injection Em' as <-. lia.
Qed.

(** The search for a receipt that fits ends; a receipt it returns is within the
    limit, and is the receipt itself, or the receipt shortened to an allowance that no
    longer fits when one byte larger; when sizes can be measured it is refused only if
    not even the receipt without previews fits. *)
Theorem fit_correct output limit :
  ∃ r, fit measure output limit = Some r ∧
    (∀ fitted, r = Ok fitted →
       fits limit fitted ∧
       (fitted = output ∨
        ∃ l, fitted = shorten output l ∧ l ≤ longest_patch output ∧
          (l = longest_patch output ∨ ¬ fits limit (shorten output (S l))))) ∧
    ((∀ o, is_ok (measure o) = true) → is_ok r = false → ¬ fits limit (shorten output 0)).
Proof.
  unfold fit. destruct (measure output) as [size|e] eqn:Em.
  2: { eexists. split; [done|]. split; [done|]. intros Hm _. specialize (Hm output).
       by rewrite Em in Hm. }
  destruct (Nat.leb_spec size limit) as [Hs|Hs].
  { eexists. split; [done|]. split; [|done]. intros fitted [= <-]. split; [by exists size|by left]. }
  cbv zeta. destruct (fit_loop_spec output limit (longest_patch output) 0 (longest_patch output))
    as (r & -> & Hok & Hr); [lia|lia|].
  eexists. split; [done|]. split.
  - intros fitted (l & -> & (size' & Em' & H)%result_bind_ok)%result_bind_ok.
    destruct (Hr l eq_refl) as (H1 & H2 & H3).
    destruct (Nat.ltb_spec limit size') as [|Hle]; [done|]. injection H as <-.
    split; [by exists size'|]. right. exists l. split_and!; [done|lia|done].
  - intros Hm. specialize (Hok Hm). destruct r as [l|e]; [|done]; cbn [result_bind].
    destruct (Hr l eq_refl) as (_ & H2 & _). specialize (Hm (shorten output l)).
    destruct (measure (shorten output l)) as [size'|] eqn:Em'; [|done]. cbn [result_bind].
    destruct (Nat.ltb_spec limit size') as [Hlt|]; [|done]. intros _ Hf0.
    assert (fits limit (shorten output l)) as (s & Es & Hs') by (destruct H2 as [->|?]; done).
    rewrite Em' in Es. injection Es as <-. lia.
Qed.

End fit_theorems.

(** Shortening is not monotone: one byte less allowance can make a receipt longer, by
    the flag that says so. *)
Definition example_measure (o : FileApplyPatchOutput) : Result nat FilesystemError :=
  Ok (sum_list_with (fun f => str_len (m_patch f) + if m_truncated f then 17 else 0) (o_files o)).

Definition example_receipt : FileApplyPatchOutput :=
  assemble [{| m_file_path := lit "/w/a"; m_relative_path := lit "a"; m_type := TAdd;
               m_patch := replicate 40 SPACE; m_additions := 1; m_deletions := 0;
               m_truncated := false; m_move_path := None |}] false.

Example shortening_is_not_monotone :
  example_measure (shorten example_receipt 39) = Ok 56 ∧
  example_measure (shorten example_receipt 40) = Ok 40.
Proof. split; vm_compute; reflexivity. Qed.

(** ** The plan *)
Section plan_theorems.
Context `{CE : CoreEnv} (caps : Capacities) (policy : RootPathPolicy) (limits : PatchLimits).

(** The paths a change claims. *)
Definition claimed (c : PlannedChange) : list Path :=
  file_path c :: option_list (move_path c).

(** What publication expects of a change of each type. *)
Definition publishable (c : PlannedChange) : Prop :=
  match change_type c with
  | TAdd => move_path c = None ∧ expected_source c = None
  | TUpdate => move_path c = None ∧ is_Some (expected_source c)
  | TDelete => move_path c = None ∧ is_Some (expected_source c)
  | TMove => is_Some (move_path c) ∧ is_Some (requested_move_path c) ∧ is_Some (expected_source c)
  end.

Definition change_ok (c : PlannedChange) : Prop :=
  publishable c ∧ str_len (new_content c) ≤ l_max_write_bytes limits ∧
  (confined policy = true → Forall (visible to_lowercase policy) (claimed c)).

Abbreviation any := (λ _ : Empty_set, True) (only parsing).

Lemma emits_read_text p : emits any (read_text limits p) (λ _, True).
Proof. eapply (emits_weaken any); [apply emits_read_text_snapshot|done..]. Qed.

(** What one arm plans for a path: the change claims that path, and new paths only. *)
Definition arm_ok (p : Path) (used : list Path) (r : PlannedChange * PatchPlanBudget) : Prop :=
  file_path r.1 = p ∧ change_ok r.1 ∧ ∀ q, move_path r.1 = Some q → q ∉ used.

Lemma emits_plan_add h p contents b used :
  (confined policy = true → visible to_lowercase policy p) →
  emits any (plan_add caps policy limits h p contents b) (arm_ok p used).
Proof.
  intros Hv. unfold plan_add. step (λ _ : bool, True); [apply emits_exists|].
  destruct a; [apply emits_throw|].
  step (λ _ : unit, str_len contents ≤ l_max_write_bytes limits).
  { apply emits_lift. intros []. apply enforce_bytes_ok. }
  step (λ _ : unit, True); [by apply emits_lift|].
  step (λ _ : FileDiff, True); [by apply emits_lift|].
  step (λ _ : PatchPlanBudget, True); [by apply emits_lift|].
  apply emits_ret. unfold arm_ok, change_ok, publishable, claimed. simpl.
  split_and!; [done|done|done|done| |done]. intros Hc. repeat constructor. auto.
Qed.

Lemma emits_plan_delete h p b used :
  (confined policy = true → visible to_lowercase policy p) →
  emits any (plan_delete caps policy limits h p b) (arm_ok p used).
Proof.
  intros Hv. unfold plan_delete. step (λ _ : unit, True); [by apply emits_lift|].
  step (λ _ : str * FileVersion, True); [apply emits_read_text|].
  step (λ _ : unit, True); [by apply emits_lift|].
  step (λ _ : FileDiff, True); [by apply emits_lift|].
  step (λ _ : PatchPlanBudget, True); [by apply emits_lift|].
  apply emits_ret. unfold arm_ok, change_ok, publishable, claimed. simpl.
  split_and!; [done|done|by eexists|cbn; lia| |done].
  intros Hc. repeat constructor. auto.
Qed.

Lemma emits_plan_move mp used :
  emits any (plan_move policy mp used)
    (λ m, ∀ r t, m = Some (r, t) →
       t ∉ used ∧ (confined policy = true → visible to_lowercase policy t)).
Proof.
  unfold plan_move. destruct mp as [path|]; [|by apply emits_ret].
  step (λ p, confined policy = true → visible to_lowercase policy p);
    [apply emits_resolve_path|].
  case_bool_decide; [apply emits_throw|].
  step (λ _ : bool, True); [apply emits_exists|]. destruct a0; [apply emits_throw|].
  apply emits_ret. by intros ? ? [= <- <-].
Qed.

Lemma emits_plan_update h p mp chunks used b :
  (confined policy = true → visible to_lowercase policy p) →
  emits any (plan_update caps policy limits h p mp chunks used b) (arm_ok p used).
Proof.
  intros Hv. unfold plan_update. step (λ _ : unit, True); [by apply emits_lift|].
  step (λ _ : str * FileVersion, True); [apply emits_read_text|].
  step (λ _ : unit, True); [by apply emits_lift|].
  step (λ _ : str * list DiffHunk, True).
  { destruct (apply_update_chunks _ _ _); [by apply emits_lift|apply emits_throw]. }
  destruct a2 as [content spans].
  step (λ _ : unit, str_len content ≤ l_max_write_bytes limits).
  { apply emits_lift. intros []. apply enforce_bytes_ok. }
  step (λ _ : unit, True); [by apply emits_lift|].
  step (λ m : option (str * Path), ∀ r t, m = Some (r, t) →
       t ∉ used ∧ (confined policy = true → visible to_lowercase policy t));
    [apply emits_plan_move|].
  step (λ _ : FileDiff, True); [by apply emits_lift|].
  step (λ _ : PatchPlanBudget, True); [by apply emits_lift|].
  apply emits_ret. unfold arm_ok, change_ok, publishable, claimed. simpl.
  destruct a4 as [[r t]|]; simpl.
  - destruct (H5 r t eq_refl) as [Hn Hvt]. split_and!; [done|by eexists|by eexists|by eexists|done| |].
    + intros Hc. repeat constructor; auto.
    + by intros q [= <-].
  - split_and!; [done|done|by eexists|done| |done]. intros Hc. repeat constructor. auto.
Qed.

(** The invariant of the loop over the hunks. *)
Definition plan_inv (used : list Path) (changes : list PlannedChange) : Prop :=
  NoDup (flat_map claimed changes) ∧ (∀ p, p ∈ flat_map claimed changes → p ∈ used) ∧
  Forall change_ok changes.

Lemma plan_inv_snoc used changes c :
  plan_inv used changes → file_path c ∉ used → change_ok c →
  (∀ q, move_path c = Some q → q ∉ file_path c :: used) →
  plan_inv (option_list (move_path c) ++ file_path c :: used) (changes ++ [c]).
Proof.
  intros (Hnd & Hin & Hok) Hf Hc Hm. unfold plan_inv. rewrite flat_map_app. cbn [flat_map].
  rewrite app_nil_r. split_and!.
  - apply NoDup_app. split_and!; [done| |].
    + intros p Hp Hcl. apply Hin in Hp. unfold claimed in Hcl.
      apply elem_of_cons in Hcl as [->|Hcl]; [done|].
      destruct (move_path c) as [q|]; [|by apply elem_of_nil in Hcl].
      apply list_elem_of_singleton in Hcl as ->. specialize (Hm q eq_refl). set_solver.
    + unfold claimed. destruct (move_path c) as [q|]; cbn [option_list].
      * specialize (Hm q eq_refl). repeat constructor; set_solver.
      * repeat constructor. set_solver.
  - intros p [Hp|Hp]%elem_of_app; [set_solver|]. unfold claimed in Hp. set_solver.
  - apply Forall_app. split; [done|]. constructor; [done|constructor].
Qed.

Lemma emits_plan_hunks hunks used changes b :
  plan_inv used changes →
  emits any (plan_hunks caps policy limits hunks used changes b)
    (λ out, ∃ used', plan_inv used' out ∧ length out = length changes + length hunks).
Proof.
  revert used changes b. induction hunks as [|hunk hunks IH]; intros used changes b Hinv;
    cbn [plan_hunks].
  { apply emits_ret. exists used. split; [done|simpl; lia]. }
  step (λ _ : unit, True); [by apply emits_check_cancelled|].
  step (λ p, confined policy = true → visible to_lowercase policy p);
    [apply emits_resolve_path|].
  case_bool_decide as Hused; [apply emits_throw|].
  step (arm_ok a0 (a0 :: used)).
  { destruct hunk; [by apply emits_plan_add|by apply emits_plan_delete|by apply emits_plan_update]. }
  destruct a1 as [c b']. destruct H1 as (Hf & Hc & Hm). cbn [fst] in *. subst a0.
  eapply emits_weaken; [apply IH|done|].
  - by apply plan_inv_snoc.
  - intros out (used' & Hinv' & Hlen). exists used'. split; [done|].
    rewrite Hlen, length_app. simpl. lia.
Qed.

(** C27: A plan the patch yields has one change per file section, within the limit; every
    path a change reads, writes or moves to is claimed by that change alone and, under a
    confined policy, lies below the root unprotected; contents are within the write
    limit; and each change carries the target and the expected version its publication
    relies on. *)
Theorem plan_patch_ok patch_text max s changes :
  (plan_patch caps policy limits patch_text max s).1 = Ok changes →
  length changes ≤ l_max_patch_files limits ∧
  NoDup (flat_map claimed changes) ∧ Forall change_ok changes.
Proof.
  intros H. assert (emits any (plan_patch caps policy limits patch_text max)
    (λ changes, length changes ≤ l_max_patch_files limits ∧
       NoDup (flat_map claimed changes) ∧ Forall change_ok changes)) as He.
  { unfold plan_patch. step (λ _ : list PatchHunk, True).
    { destruct (parse_patch patch_text); [by apply emits_lift|apply emits_throw]. }
    destruct (Nat.ltb_spec (l_max_patch_files limits) (length a)); [apply emits_throw|].
    eapply emits_weaken; [apply emits_plan_hunks|done|].
    - split_and!; [constructor|set_solver|constructor].
    - intros out (used & (Hnd & _ & Hok) & Hlen). split_and!; [simpl in Hlen; lia|done|done]. }
  destruct (He s) as (_ & _ & _ & HQ). by apply HQ.
Qed.

End plan_theorems.

(** ** A concrete environment *)
Module ExamplePlan.

Definition example_core : CoreEnv :=
  {| core_files := ExampleFiles.files;
     env_canonicalize := fun w => (plain_fs, w);
     to_lowercase := to_ascii_lowercase |}.

#[local] Existing Instance example_core.

Definition example_caps : Capacities :=
  {| requested_path_capacity := fun c => byte_len (requested_path c);
     file_path_capacity := fun _ => 16%N;
     content_capacity := fun c => byte_len (new_content c);
     move_path_capacity := fun _ => 16%N;
     requested_move_capacity := fun _ => 16%N;
     diff_file_capacity := fun _ => 16%N;
     diff_relative_capacity := fun _ => 16%N;
     diff_capacity := fun c => byte_len (patch (diff c));
     size_of_change := 200%N; size_of_diff := 100%N; size_of_mutation := 150%N |}.

Definition example_limits : PatchLimits :=
  {| l_max_patch_bytes := 500; l_max_patch_plan_bytes := 100000%N;
     l_max_patch_result_bytes := 500; l_max_patch_files := 3; l_max_file_bytes := 100;
     l_max_write_bytes := 100; l_max_diff_bytes := 200 |}.

Definition example_patch : str :=
  join [NL] [lit "*** Begin Patch"; lit "*** Update File: a"; lit "*** Move to: b"; lit "@@";
             lit "-two"; lit "+three"; lit "*** Add File: c"; lit "+new"; lit "*** End Patch"].

Definition example_plan : list PlannedChange :=
  match (plan_patch example_caps example_policy example_limits example_patch 100000
           (Effects.start ())).1 with
  | Ok changes => changes
  | Err _ => []
  end.

Lemma plan_patch_ok_witness :
  map change_type example_plan = [TMove; TAdd] ∧ NoDup (flat_map claimed example_plan).
Proof.
  split; [vm_compute; reflexivity|].
  apply (plan_patch_ok example_caps example_policy example_limits example_patch 100000
           (Effects.start ())).
  vm_compute. reflexivity.
Defined.

End ExamplePlan.
