(* ===== verification/Publish.v ===== *)
(** * Publishing prepared changes: [crates/mcp-files/src/mutation_operations/atomic_write.rs]
      and [patch_publication.rs]

    [commit_write] writes a temporary file beside its target and links or renames it into
    place; [publish_patch] publishes a plan change by change.  The calls that change the
    file system are the class [PublishEnv].  The log records what the operations did to
    paths a user sees: temporary files are not recorded, and a call is recorded when it
    succeeded.  A failed [expect] is the event [Panicked]. *)

From S2P Require Import Prelude Effects PathPolicy Text Diff Patch Edit PatchPlan.
Local Open Scope workcell_scope.

Class PublishEnv := {
  publish_core :: CoreEnv;
  env_create_dir_all : Path → World → Result unit IoError * World;
  (** [std::process::id] and [Uuid::new_v4]. *)
  env_unique : World → (str * str) * World;
  env_create_new : Path → World → Result unit IoError * World;
  env_write_all : Path → str → World → Result unit IoError * World;
  env_flush : Path → World → Result unit IoError * World;
  env_set_permissions : Path → N → World → Result unit IoError * World;
  (** Whether [symlink_metadata] succeeds. *)
  env_symlink_metadata : Path → World → bool * World;
  env_hard_link : Path → Path → World → Result unit IoError * World;
  env_rename : Path → Path → World → Result unit IoError * World;
  env_remove_file : Path → World → Result unit IoError * World;
}.

Section publish.
Context `{PE : PublishEnv}.

Inductive Event : Type :=
| CreatingDirectories (p : Path)
| Validated (p : Path) (v : FileVersion)
| Linked (p : Path) (content : str)
| Replaced (p : Path) (content : str)
| Removed (p : Path)
| Panicked.

Abbreviation Io A := (Eff World Event FilesystemError A) (only parsing).

Context (policy : RootPathPolicy) (limits : PatchLimits).

Definition note (ev : Event) : Io unit := ask (Some ev) (fun w => (tt, w)).

Definition panic {A} : Io A := do? _ := note Panicked in throw (Operation (lit "panic")).

(** A call of the file system, and the error its failure becomes. *)
Definition call (f : World → Result unit IoError * World) (on_error : IoError → FilesystemError) :
    Io unit :=
  do? r := ask None f in
  match r with Ok _ => ret tt | Err e => throw (on_error e) end.

Definition io_error (action : str) (p : Path) (e : IoError) : FilesystemError :=
  PathPolicy.Io (action ++ lit " " ++ path_text p) e.

Definition publication_stale (requested_path : str) : FilesystemError :=
  Stale (lit "Prepared resource changed before publication: " ++ requested_path).

(** [.map_err(|_| publication_stale(..))] on the validation of a path. *)
Definition validate_path (requested_path : str) (p : Path) : Io unit :=
  do? r := attempt (validate_prepared_path policy requested_path p) in
  match r with Ok _ => ret tt | Err _ => throw (publication_stale requested_path) end.

Definition validate_version (p : Path) (expected : FileVersion) : Io unit :=
  do? _ := validate_snapshot p expected (l_max_file_bytes limits) in note (Validated p expected).

Definition set_compatible_permissions (p : Path) (existing : option Metadata) : Io unit :=
  let mode := match existing with Some m => N.land (md_mode m) 511 | None => 384%N end in
  call (env_set_permissions p mode) (io_error (lit "Cannot set file permissions") p).

(** The [async] block of [commit_write]. *)
Definition write_and_publish (requested_path : str) (file_path : Path) (content : str)
    (exclusive : bool) (expected : option FileVersion) (existing : option Metadata)
    (temporary : Path) : Io unit :=
  do? _ := call (env_create_new temporary) (fun e =>
    let failed := io_error (lit "Cannot create temporary file") temporary e in
    match expected, e with
    | Some _, IoNotFound => publication_stale requested_path
    | _, _ => failed
    end) in
  do? _ := call (env_write_all temporary content)
             (io_error (lit "Cannot write temporary file") temporary) in
  do? _ := call (env_flush temporary) (io_error (lit "Cannot flush temporary file") temporary) in
  do? _ := set_compatible_permissions temporary existing in
  do? _ := check_cancelled in
  do? _ := validate_path requested_path file_path in
  do? _ :=
    match expected with
    | Some expected => validate_version file_path expected
    | None =>
        do? present := ask None (env_symlink_metadata file_path) in
        if present then throw (publication_stale requested_path) else ret tt
    end in
  if exclusive then
    do? _ := call (env_hard_link temporary file_path) (fun e =>
      if bool_decide (e = IoAlreadyExists) then publication_stale requested_path
      else io_error (lit "Cannot publish new file") file_path e) in
    do? _ := note (Linked file_path content) in
    call (env_remove_file temporary) (io_error (lit "Cannot remove temporary file") temporary)
  else
    do? _ := call (env_rename temporary file_path)
               (io_error (lit "Cannot replace file") file_path) in
    note (Replaced file_path content).

Definition commit_write (requested_path : str) (file_path : Path) (content : str)
    (exclusive : bool) (expected : option FileVersion) : Io unit :=
  do? _ := check_cancelled in
  match path_parent file_path with
  | None => throw (Operation (lit "Cannot determine parent directory"))
  | Some parent =>
      do? _ :=
        match expected with
        | None =>
            do? _ := note (CreatingDirectories parent) in
            call (env_create_dir_all parent) (io_error (lit "Cannot create directory") parent)
        | Some _ => ret tt
        end in
      do? _ := check_cancelled in
      do? inspected := ask None (env_metadata file_path) in
      let existing := match inspected with Ok m => Some m | Err _ => None end in
      let basename := default [] (path_file_name file_path) in
      do? unique := ask None env_unique in
      let temporary :=
        path_join parent [Normal (lit "." ++ basename ++ lit "." ++ unique.1 ++ lit "." ++
                                  unique.2 ++ lit ".tmp")] in
      do? result := attempt (write_and_publish requested_path file_path content exclusive
                               expected existing temporary) in
      do? _ := if is_ok result then ret (Ok tt) else ask None (env_remove_file temporary) in
      lift result
  end.

Definition validate_source (change : PlannedChange) : Io unit :=
  match expected_source change with
  | None => panic
  | Some expected => validate_version (file_path change) expected
  end.

(** What precedes the change itself. *)
Definition enter_change (change : PlannedChange) : Io unit :=
  do? _ := check_cancelled in validate_path (requested_path change) (file_path change).

Definition remove_source (change : PlannedChange) (action : str) : Io unit :=
  do? _ := call (env_remove_file (file_path change)) (io_error action (file_path change)) in
  note (Removed (file_path change)).

(** The move up to [*published = true], and after it. *)
Definition move_target (change : PlannedChange) : Io unit :=
  match move_path change, requested_move_path change with
  | Some move_path, Some requested_move_path =>
      do? _ := validate_source change in
      commit_write requested_move_path move_path (new_content change) true None
  | _, _ => panic
  end.

Definition move_source (change : PlannedChange) : Io unit :=
  do? _ := validate_source change in
  do? _ := validate_path (requested_path change) (file_path change) in
  remove_source change (lit "Cannot delete moved source").

(** [publish_change]: its result, and the flag [published] behind the reference. *)
Definition publish_change (change : PlannedChange) (published : bool) :
    Io (Result unit FilesystemError * bool) :=
  match change_type change with
  | TMove =>
      do? moved := attempt (do? _ := enter_change change in move_target change) in
      match moved with
      | Err e => ret (Err e, published)
      | Ok _ => do? removed := attempt (move_source change) in ret (removed, true)
      end
  | _ =>
      do? done :=
        attempt (
          do? _ := enter_change change in
          match change_type change with
          | TDelete =>
              do? _ := validate_source change in remove_source change (lit "Cannot delete")
          | _ =>
              commit_write (requested_path change) (file_path change) (new_content change)
                (bool_decide (change_type change = TAdd)) (expected_source change)
          end) in
      ret (done, is_ok done || published)
  end.

Definition after_publication (error : FilesystemError) : FilesystemError :=
  match error with Stale message => Operation message | error => error end.

Fixpoint publish_from (changes : list PlannedChange) (published : bool) : Io unit :=
  match changes with
  | [] => ret tt
  | change :: changes' =>
      do? out := publish_change change published in
      let '(result, published) := out in
      match result with
      | Err error => throw (if published then after_publication error else error)
      | Ok _ => publish_from changes' published
      end
  end.

Definition publish_patch (changes : list PlannedChange) : Io unit := publish_from changes false.

Definition publish_prepared_patch (allow_write : bool) (changes : list PlannedChange) : Io unit :=
  do? _ := lift (require_write allow_write) in publish_patch changes.

End publish.

(** ** What publication does *)
Section publish_theorems.
Context `{PE : PublishEnv} (policy : RootPathPolicy) (limits : PatchLimits).

(** The log without the creation of directories. *)
Definition steps (l : list Event) : list Event :=
  flat_map (fun ev => match ev with CreatingDirectories _ => [] | _ => [ev] end) l.

(** Events that leave every file as it was. *)
Definition unpublished (ev : Event) : Prop :=
  match ev with CreatingDirectories _ | Validated _ _ => True | _ => False end.

Definition is_stale (e : FilesystemError) : Prop :=
  match e with Stale _ => True | _ => False end.

(** What publishing a change does, in order. *)
Definition change_steps (c : PlannedChange) : list Event :=
  let validated := from_option (fun v => [Validated (file_path c) v]) [] (expected_source c) in
  match change_type c with
  | TAdd => [Linked (file_path c) (new_content c)]
  | TUpdate => validated ++ [Replaced (file_path c) (new_content c)]
  | TDelete => validated ++ [Removed (file_path c)]
  | TMove =>
      validated ++ from_option (fun p => [Linked p (new_content c)]) [] (move_path c)
      ++ validated ++ [Removed (file_path c)]
  end.

(** The log follows [T], whole on success; a stale refusal published nothing. *)
Definition follows {A} (T : list Event) (r : Result A FilesystemError) (new : list Event) : Prop :=
  match r with
  | Ok _ => steps new = T
  | Err e => steps new `prefix_of` T ∧ (is_stale e → Forall unpublished new)
  end.

Lemma steps_app l l' : steps (l ++ l') = steps l ++ steps l'.
Proof. apply flat_map_app. Qed.

Lemma follows_err_nil {A} T e : follows (A := A) T (Err e) [].
Proof. split; [apply prefix_nil|constructor]. Qed.

(** An operation that logs [l] when it succeeds, and nothing when it fails. *)
Definition logs {A} (l : list Event) (m : Eff World Event FilesystemError A) : Prop :=
  runs m (λ r n, match r with Ok _ => n = l | Err _ => n = [] end).

Definition still {A} (m : Eff World Event FilesystemError A) : Prop := logs [] m.

Lemma still_emits {A} (m : Eff World Event FilesystemError A) Q :
  emits (λ _, False) m Q → still m.
Proof. intros H. by eapply runs_silent. Qed.

Lemma runs_logs {A B} l (m : Eff World Event FilesystemError A)
    (f : A → Eff World Event FilesystemError B) Post :
  logs l m → (∀ a, runs (f a) (λ r n, Post r (l ++ n))) → (∀ e, Post (Err e) []) →
  runs (and_then m f) Post.
Proof.
  intros Hm Hf He. eapply runs_bind; [apply Hm| |by intros ? ? ->].
  intros a n1 ->. apply Hf.
Qed.

Lemma runs_still {A B} (m : Eff World Event FilesystemError A)
    (f : A → Eff World Event FilesystemError B) Post :
  still m → (∀ a, runs (f a) Post) → (∀ e, Post (Err e) []) → runs (and_then m f) Post.
Proof. apply (runs_logs []). Qed.

Lemma logs_note ev : logs [ev] (note ev).
Proof. by apply runs_ask. Qed.

(** A call logs nothing, and fails with the error of its failure. *)
Lemma runs_call f g :
  runs (call f g : Eff World Event FilesystemError unit)
    (λ r n, n = [] ∧ ∀ e, r = Err e → ∃ io, e = g io).
Proof.
  unfold call. apply (runs_bind _ _ (λ r n, n = [] ∧ is_ok r = true)).
  - apply runs_ask. done.
  - intros [[]|io] n1 [-> _]; [apply runs_ret|apply runs_throw]; split; try done.
    intros e [= <-]. by exists io.
  - by intros e n1 [_ ?].
Qed.

Lemma still_call f g : still (call f g : Eff World Event FilesystemError unit).
Proof. eapply runs_weaken; [apply runs_call|]. by intros [] ? [-> _]. Qed.

Lemma still_ask {A} (f : World → A * World) :
  still (ask None f : Eff World Event FilesystemError A).
Proof. by apply runs_ask. Qed.

Lemma still_check_cancelled : still (check_cancelled : Eff World Event FilesystemError unit).
Proof. by eapply still_emits, (emits_check_cancelled _ (λ _, True)). Qed.

Lemma still_validate_path q p : still (validate_path policy q p).
Proof.
  unfold validate_path. eapply still_emits.
  apply (emits_bind _ _ _ (λ _, True)).
  - by eapply (emits_weaken (λ _, False)); [apply emits_attempt, emits_validate_prepared_path|..].
  - intros [[]|e] _; [by apply (emits_ret _ _ (λ _, True))|apply emits_throw].
Qed.

Hint Resolve still_call still_ask still_check_cancelled still_validate_path follows_err_nil : core.

(** Skip an operation that logs nothing. *)
Ltac skip := apply runs_still; [auto| |auto]; intros.

Lemma logs_validate_version p v : logs [Validated p v] (validate_version limits p v).
Proof.
  unfold validate_version, logs. apply runs_still; [|intros; apply logs_note|done].
  eapply still_emits, emits_validate_snapshot.
Qed.

Lemma runs_publish_temporary exclusive temporary p q c pre :
  Forall unpublished pre →
  runs
    (if exclusive : bool then
       do? _ := call (env_hard_link temporary p) (fun e =>
         if bool_decide (e = IoAlreadyExists) then publication_stale q
         else io_error (lit "Cannot publish new file") p e) in
       do? _ := note (Linked p c) in
       call (env_remove_file temporary) (io_error (lit "Cannot remove temporary file") temporary)
     else
       do? _ := call (env_rename temporary p) (io_error (lit "Cannot replace file") p) in
       note (Replaced p c))
    (λ r n, follows (steps pre ++ [if exclusive then Linked p c else Replaced p c]) r (pre ++ n)).
Proof.
  intros Hpre.
  assert (∀ e, follows (A := unit)
    (steps pre ++ [if exclusive then Linked p c else Replaced p c]) (Err e) (pre ++ [])) as He.
  { intros e. rewrite app_nil_r. split; [by eexists|done]. }
  destruct exclusive; skip.
  - apply (runs_logs [Linked p c]); [apply logs_note| |auto]. intros _.
    eapply runs_weaken; [apply runs_call|].
    intros [[]|e] n [-> Hio]; [by simpl; rewrite steps_app|].
    destruct (Hio e eq_refl) as [io ->]. split; [|done]. by rewrite steps_app.
  - eapply runs_weaken; [apply logs_note|]. intros [[]|e] n ->; [|auto].
    simpl. by rewrite steps_app.
Qed.

(** What a commit logs after creating directories. *)
Definition commit_steps (p : Path) (c : str) (exclusive : bool) (expected : option FileVersion) :
    list Event :=
  from_option (fun v => [Validated p v]) [] expected
  ++ [if exclusive then Linked p c else Replaced p c].

Lemma runs_write_and_publish q p c exclusive expected existing temporary :
  runs (write_and_publish policy limits q p c exclusive expected existing temporary)
    (follows (commit_steps p c exclusive expected)).
Proof.
  unfold write_and_publish, set_compatible_permissions, commit_steps.
  do 6 skip. destruct expected as [v|]; simpl.
  - apply (runs_logs [Validated p v]); [apply logs_validate_version| |auto]. intros _.
    eapply (runs_publish_temporary _ _ _ _ _ [Validated p v]). by repeat constructor.
  - apply runs_still; [| |auto].
    { apply runs_still; [auto| |done]. intros []; [by apply runs_throw|by apply runs_ret]. }
    intros _. eapply (runs_publish_temporary _ _ _ _ _ []).
    constructor.
Qed.

Lemma runs_commit_write q p c exclusive expected :
  runs (commit_write policy limits q p c exclusive expected)
    (follows (commit_steps p c exclusive expected)).
Proof.
  unfold commit_write. skip. destruct (path_parent p) as [parent|]; [|apply runs_throw; auto].
  set (dirs := match expected with None => [CreatingDirectories parent] | Some _ => [] end).
  eapply (runs_bind _ _ (λ _ n, n = dirs ∨ n = [])).
  { subst dirs. destruct expected; [apply runs_ret; auto|].
    eapply (runs_logs [CreatingDirectories parent]); [apply logs_note| |auto]. intros _.
    eapply runs_weaken; [apply still_call|]. intros [] n ->; auto. }
  2: { intros e n1 [->| ->]; split; subst dirs; destruct expected; simpl;
         try apply prefix_nil; repeat constructor. }
  intros _ n1 Hn1.
  assert (steps n1 = [] ∧ Forall unpublished n1) as [Hs Hu].
  { destruct Hn1 as [->| ->]; subst dirs; destruct expected; by repeat constructor. }
  assert (∀ e, follows (A := unit) (commit_steps p c exclusive expected) (Err e) (n1 ++ [])) as He.
  { intros e. rewrite app_nil_r. split; [rewrite Hs; apply prefix_nil|done]. }
  do 3 skip.
  eapply (runs_bind _ _ (λ r n, ∃ r', r = Ok r' ∧
    follows (commit_steps p c exclusive expected) r' n)).
  { apply runs_attempt. eapply runs_weaken; [apply runs_write_and_publish|]. eauto. }
  2: { by intros ? ? (? & ? & _). }
  intros r n2 (r' & [= ->] & Hf).
  apply (runs_bind _ _ (λ r n, n = [] ∧ is_ok r = true)); [| |by intros e n [_ ?]].
  { destruct (is_ok r'); [by apply runs_ret|by apply runs_ask]. }
  intros _ n3 [-> _].
  apply runs_lift. rewrite app_nil_r. destruct r' as [[]|e]; simpl in *.
  - by rewrite steps_app, Hs.
  - rewrite steps_app, Hs. split; [apply Hf|]. intros He'. apply Forall_app. split; [done|].
    by apply Hf.
Qed.

Lemma still_enter_change c : still (enter_change policy c).
Proof. unfold enter_change. apply runs_still; [auto|intros _; apply still_validate_path|auto]. Qed.

Lemma logs_remove_source c action : logs [Removed (file_path c)] (remove_source c action).
Proof. apply (runs_logs []); [apply still_call|intros _; apply logs_note|done]. Qed.

Lemma logs_validate_source c v :
  expected_source c = Some v → logs [Validated (file_path c) v] (validate_source limits c).
Proof. intros H. unfold validate_source. rewrite H. apply logs_validate_version. Qed.

(** An operation that follows [T], after what was validated. *)
Lemma runs_after_validated {A} (m : Eff World Event FilesystemError A) p v T :
  runs m (follows T) →
  runs m (λ r n, follows (Validated p v :: T) r ([Validated p v] ++ n)).
Proof.
  intros Hm. eapply runs_weaken; [apply Hm|]. intros [a|e] n Hf; simpl in *; [by rewrite Hf|].
  destruct Hf as [Hp Hs]. split; [by apply prefix_cons|]. intros He. constructor; [done|auto].
Qed.

Lemma runs_move_target c v t q :
  expected_source c = Some v → move_path c = Some t → requested_move_path c = Some q →
  runs (move_target policy limits c)
    (follows [Validated (file_path c) v; Linked t (new_content c)]).
Proof.
  intros Hv Ht Hq. unfold move_target. rewrite Ht, Hq.
  eapply runs_logs; [by apply logs_validate_source| |auto]. intros _.
  apply runs_after_validated, runs_commit_write.
Qed.

Lemma runs_move_source c v :
  expected_source c = Some v →
  runs (move_source policy limits c) (follows [Validated (file_path c) v; Removed (file_path c)]).
Proof.
  intros Hv. unfold move_source.
  eapply runs_logs; [by apply logs_validate_source| |auto]. intros _. apply runs_after_validated.
  skip. eapply runs_weaken; [apply logs_remove_source|]. intros [] n ->; [done|auto].
Qed.

(** The outcome of a change, with the flag it leaves. *)
Definition outcome (T : list Event) (published : bool)
    (r : Result (Result unit FilesystemError * bool) FilesystemError) (new : list Event) : Prop :=
  match r with
  | Ok (Ok _, flag) => steps new = T ∧ flag = true
  | Ok (Err e, flag) =>
      steps new `prefix_of` T ∧
      (flag = false → published = false ∧ (is_stale e → Forall unpublished new))
  | Err _ => False
  end.

Lemma runs_attempt_follows {A B} (m : Eff World Event FilesystemError A) T
    (f : Result A FilesystemError → Eff World Event FilesystemError B) Post :
  runs m (follows T) →
  (∀ r n, follows T r n → runs (f r) (λ r' n', Post r' (n ++ n'))) →
  runs (do? r := attempt m in f r) Post.
Proof.
  intros Hm Hf. eapply (runs_bind _ _ (λ r n, ∃ r', r = Ok r' ∧ follows T r' n)).
  - apply runs_attempt. eapply runs_weaken; [apply Hm|]. eauto.
  - intros r n (r' & [= ->] & H). by apply Hf.
  - by intros ? ? (? & ? & _).
Qed.

Lemma runs_simple_change (m : Eff World Event FilesystemError unit) T published :
  runs m (follows T) →
  runs (do? r := attempt m in ret (r, is_ok r || published)) (outcome T published).
Proof.
  intros Hm. eapply runs_attempt_follows; [done|]. intros r n Hf. apply runs_ret.
  rewrite app_nil_r. destruct r as [[]|e]; simpl; [done|]. destruct Hf. done.
Qed.

Lemma runs_publish_change c published :
  publishable c →
  runs (publish_change policy limits c published) (outcome (change_steps c) published).
Proof.
  intros Hc. unfold publish_change, publishable, change_steps in *.
  destruct (change_type c) eqn:Et.
  - destruct Hc as [_ Hs]. apply runs_simple_change. apply runs_still; [apply still_enter_change| |auto].
    intros _. rewrite Hs. apply (runs_commit_write _ _ _ true None).
  - destruct Hc as [_ [v Hs]]. apply runs_simple_change.
    apply runs_still; [apply still_enter_change| |auto].
    intros _. rewrite Hs. apply (runs_commit_write _ _ _ false (Some v)).
  - destruct Hc as [_ [v Hs]]. apply runs_simple_change.
    apply runs_still; [apply still_enter_change| |auto]. intros _. rewrite Hs. simpl.
    eapply runs_logs; [by apply logs_validate_source| |auto]. intros _.
    apply runs_after_validated. eapply runs_weaken; [apply logs_remove_source|].
    intros [] n ->; [done|auto].
  - destruct Hc as ([t Ht] & [q Hq] & [v Hs]). rewrite Hs, Ht. simpl.
    eapply runs_attempt_follows.
    { apply runs_still; [apply still_enter_change| |auto]. intros _. by eapply runs_move_target. }
    intros [[]|e] n Hf.
    + eapply runs_attempt_follows; [by apply runs_move_source|]. intros r n' Hf'.
      apply runs_ret. rewrite app_nil_r. simpl in Hf.
      destruct r as [[]|e]; simpl in *; rewrite steps_app, Hf; [by rewrite Hf'|].
      destruct Hf' as [Hp _]. split; [|done]. by do 2 apply prefix_cons.
    + apply runs_ret. rewrite app_nil_r. simpl in *. destruct Hf as [Hp Hst].
      split; [|done]. etransitivity; [exact Hp|by eexists].
Qed.

Lemma after_publication_not_stale e : ¬ is_stale (after_publication e).
Proof. destruct e; simpl; auto. Qed.

Lemma runs_publish_from changes published :
  Forall publishable changes →
  runs (publish_from policy limits changes published) (λ r n,
    match r with
    | Ok _ => steps n = flat_map change_steps changes
    | Err e => steps n `prefix_of` flat_map change_steps changes ∧
               (is_stale e → published = false ∧ Forall unpublished n)
    end).
Proof.
  revert published. induction changes as [|c changes IH]; intros published; cbn [publish_from].
  { intros _. by apply runs_ret. }
  intros [Hc Hcs]%Forall_cons. eapply runs_bind; [by apply runs_publish_change| |done].
  intros [[[]|e] flag] n Ho; simpl in Ho.
  - destruct Ho as [Hn ->]. eapply runs_weaken; [by apply IH|].
    intros [[]|e] n' H; rewrite steps_app, Hn; cbn [flat_map]; [by rewrite H|].
    destruct H as [Hp Hst]. split; [by apply prefix_app|]. intros He. by destruct (Hst He).
  - apply runs_throw. rewrite app_nil_r. destruct Ho as [Hp Hst].
    split; [by apply prefix_app_r|]. intros He.
    destruct flag; [by apply after_publication_not_stale in He|].
    destruct (Hst eq_refl) as [-> Hu]. auto.
Qed.

(** C1: Publishing a plan does what its changes say, in their order, each only after the
    version it was prepared from validated, whatever other processes do in between: a
    success publishes every change, a failure a prefix; no [expect] of a planned change
    fails; and a refusal that says the resource is stale has published nothing. *)
Theorem publish_patch_ok changes (w : World) :
  Forall publishable changes →
  let '(r, s) := publish_patch policy limits changes (Effects.start w) in
  match r with
  | Ok _ => steps (log s) = flat_map change_steps changes
  | Err e =>
      steps (log s) `prefix_of` flat_map change_steps changes ∧
      (error_code e = lit "stale_resource" → Forall unpublished (log s))
  end ∧ Panicked ∉ log s.
Proof.
  intros Hc. destruct (runs_publish_from changes false Hc (Effects.start w)) as (n & Hlog & H).
  unfold publish_patch. destruct (publish_from policy limits changes false (Effects.start w)) as [r s].
  simpl in *. subst n. split.
  - destruct r as [[]|e]; [done|]. destruct H as [Hp Hst]. split; [done|].
    intros He. apply Hst. by destruct e as [| | | | | | |? []].
  - intros Hin.
    assert (Panicked ∈ flat_map change_steps changes) as Hin'.
    { assert (Panicked ∈ steps (log s)) as Hs.
      { apply list_elem_of_In, in_flat_map. exists Panicked. rewrite <- list_elem_of_In. set_solver. }
      destruct r as [[]|e]; [by rewrite <- H|]. destruct H as [[k ->] _]. set_solver. }
    apply list_elem_of_In, in_flat_map in Hin' as (c & _ & Hc').
    apply list_elem_of_In in Hc'. unfold change_steps in Hc'.
    destruct (change_type c), (expected_source c), (move_path c); set_solver.
Qed.

End publish_theorems.

(** ** A concrete publication *)
Module ExamplePublish.

Definition succeeds {W} (w : W) : Result unit IoError * W := (Ok (), w).

(** The files of ExamplePlan; when [raced], another process creates each target that must
    not exist just before the check. *)
Definition example_publish (raced : bool) : PublishEnv :=
  {| publish_core := ExamplePlan.example_core;
     env_create_dir_all := fun _ => succeeds;
     env_unique := fun w => ((lit "42", lit "u"), w);
     env_create_new := fun _ => succeeds;
     env_write_all := fun _ _ => succeeds;
     env_flush := fun _ => succeeds;
     env_set_permissions := fun _ _ => succeeds;
     env_symlink_metadata := fun _ w => (raced, w);
     env_hard_link := fun _ _ => succeeds;
     env_rename := fun _ _ => succeeds;
     env_remove_file := fun _ => succeeds |}.

Definition run (raced : bool) :=
  let PE := example_publish raced in
  publish_patch (PE := PE) example_policy ExamplePlan.example_limits ExamplePlan.example_plan
    (Effects.start tt).

Lemma example_publishable :
  Forall (publishable (CE := ExamplePlan.example_core)) ExamplePlan.example_plan.
Proof.
  let l := eval vm_compute in ExamplePlan.example_plan in
  assert (ExamplePlan.example_plan = l) as -> by (vm_compute; reflexivity).
  repeat constructor; eexists; reflexivity.
Qed.

Lemma publish_patch_ok_witness :
  (run false).1 = Ok () ∧
  steps (PE := example_publish false) (log (run false).2)
    = flat_map (change_steps (PE := example_publish false)) ExamplePlan.example_plan.
Proof.
  split; [vm_compute; reflexivity|].
  pose proof (@publish_patch_ok (example_publish false) example_policy ExamplePlan.example_limits
    ExamplePlan.example_plan tt example_publishable) as H.
  match type of H with (let '(r, s) := ?p in _) => change p with (run false) in H end.
  destruct (run false) as [r s] eqn:E.
  assert (r = Ok ()) as ->.
  { change r with (r, s).1. rewrite <- E. vm_compute. reflexivity. }
  exact (proj1 H).
Defined.

(** A refused new file is stale, and its directories stay created. *)
Example stale_leaves_directories :
  let PE := example_publish true in
  let '(r, s) := commit_write (PE := PE) example_policy ExamplePlan.example_limits
                   (lit "new/b") (absolute [lit "work"; lit "new"; lit "b"]) [] true None
                   (Effects.start tt) in
  is_ok r = false ∧ (∃ m, r = Err (Stale m)) ∧
  log s = [CreatingDirectories (absolute [lit "work"; lit "new"])].
Proof. vm_compute. eauto. Qed.

End ExamplePublish.
