(* ===== verification/Glob.v ===== *)
(** * Glob patterns: [crates/mcp-files/src/glob.rs]

    Brace expansion within its bounds, tokens, the row-by-row matcher over UTF-16 units,
    its fast paths, and matching within a budget of steps.  [glob] is the declarative
    meaning of tokens the matcher is proved against. *)

From S2P Require Import Prelude PathPolicy.
Local Open Scope workcell_scope.

(** ** Tokens *)

Inductive Token : Type :=
| RecursiveDirectories
| Recursive
| SegmentStar
| AnyUnit
| Literal (unit : N)
| Class_ (index : nat).

Record CharClass := { negated : bool; ranges : list (N * N) }.

(** [CharClass::contains]. *)
Definition class_contains (class : CharClass) (unit : N) : bool :=
  if (unit =? SLASH)%N then false
  else
    let listed := existsb (fun r => ((r.1 <=? unit) && (unit <=? r.2))%N) (ranges class) in
    xorb listed (negated class).

Definition push_literal (character : char) : list Token := map Literal (char_utf16 character).

Definition STAR : char := 42%N.
Definition QUESTION : char := 63%N.
Definition COMMA : char := 44%N.
Definition OPEN : char := 123%N.
Definition CLOSE : char := 125%N.

(** [tokenize] of a glob; the index moves one to three characters. *)
Fixpoint tokenize (pattern : str) : list Token :=
  match pattern with
  | [] => []
  | c :: rest =>
      if (c =? STAR)%N then
        match rest with
        | d :: rest' =>
            if (d =? STAR)%N then
              match rest' with
              | e :: rest'' =>
                  if (e =? SLASH)%N then RecursiveDirectories :: tokenize rest''
                  else Recursive :: tokenize rest'
              | [] => Recursive :: tokenize rest'
              end
            else SegmentStar :: tokenize rest
        | [] => SegmentStar :: tokenize rest
        end
      else if (c =? QUESTION)%N then AnyUnit :: tokenize rest
      else push_literal c ++ tokenize rest
  end.

(** ** Rows

    [matches_tokens] computes a row of [value.len() + 1] flags per token, right to left,
    from the row of the tokens after it: flag [i] says that the tokens match the value
    from unit [i].  A row is a list here; each loop of the code is a recursion over the
    value and the next row. *)

(** The loop of [RecursiveDirectories]: the row and [slash_exit]. *)
Fixpoint row_directories (value : list N) (next : list bool) : list bool * bool :=
  match value, next with
  | c :: value', n :: next' =>
      let '(row, slash_exit) := row_directories value' next' in
      let slash_exit :=
        if (c =? SLASH)%N && match next' with n' :: _ => n' | [] => false end
        then true else slash_exit in
      ((n || slash_exit) :: row, slash_exit)
  | _, n :: _ => ([n], false)
  | _, [] => ([], false)
  end.

(** The loops of [Recursive] and [SegmentStar]: [through] says whether the unit can be
    swallowed. *)
Fixpoint row_star (through : N → bool) (value : list N) (next : list bool) : list bool :=
  match value, next with
  | c :: value', n :: next' =>
      let row := row_star through value' next' in
      (n || (through c && match row with r :: _ => r | [] => false end)) :: row
  | _, n :: _ => [n]
  | _, [] => []
  end.

(** The loops that consume one unit; the last flag stays false. *)
Fixpoint row_unit (accepts : N → bool) (value : list N) (next : list bool) : list bool :=
  match value, next with
  | c :: value', _ :: next' =>
      (accepts c && match next' with n :: _ => n | [] => false end) :: row_unit accepts value' next'
  | _, _ :: _ => [false]
  | _, [] => []
  end.

Definition row (classes : list CharClass) (value : list N) (token : Token) (next : list bool) :
    list bool :=
  match token with
  | RecursiveDirectories => (row_directories value next).1
  | Recursive => row_star (fun _ => true) value next
  | SegmentStar => row_star (fun u => negb (u =? SLASH)%N) value next
  | AnyUnit => row_unit (fun u => negb (u =? SLASH)%N) value next
  | Literal expected => row_unit (N.eqb expected) value next
  | Class_ index =>
      row_unit (fun u => match classes !! index with
                         | Some class => class_contains class u
                         | None => false
                         end) value next
  end.

Definition matches_tokens (tokens : list Token) (classes : list CharClass) (value : list N) : bool :=
  let last := replicate (length value) false ++ [true] in
  match foldr (row classes value) last tokens with b :: _ => b | [] => false end.

(** ** Brace expansion *)

Record GlobLimits := {
  max_glob_bytes : nat;
  max_glob_brace_depth : nat;
  max_glob_alternatives : nat;
  max_glob_generated_bytes : nat;
}.

(** The loop of [first_brace_group]; indices count characters, as every cut is at a brace. *)
Fixpoint brace_group_from (pattern : str) (index : nat) (rest : str) : option (nat * nat) :=
  match rest with
  | [] => None
  | c :: rest' =>
      if (c =? CLOSE)%N then
        match rfind_str [OPEN] (take index pattern) with
        | None => brace_group_from pattern (S index) rest'
        | Some start =>
            let body := take (index - S start) (drop (S start) pattern) in
            if negb (bool_decide (body = [])) &&
               negb (contains_char OPEN body || contains_char CLOSE body)
            then Some (start, index)
            else brace_group_from pattern (S index) rest'
        end
      else brace_group_from pattern (S index) rest'
  end.

Definition first_brace_group (pattern : str) : option (nat * nat) :=
  brace_group_from pattern 0 pattern.

(** A [for] loop that may return early. *)
Fixpoint for_each {A S E} (f : A → S → Result S E) (l : list A) (s : S) : Result S E :=
  match l with
  | [] => Ok s
  | a :: l' => let? s' := f a s in for_each f l' s'
  end.

(** [expand_bounded]: [remaining] is [max_glob_brace_depth - depth]; the state is the output
    and the generated bytes. *)
Fixpoint expand_bounded (limits : GlobLimits) (remaining : nat) (pattern : str)
    (state : list str * N) : Result (list str * N) FilesystemError :=
  let '(output, generated_bytes) := state in
  match first_brace_group pattern with
  | None =>
      if (length output =? max_glob_alternatives limits)%nat
      then invalid (lit "glob pattern exceeds maximum of " ++ dec (max_glob_alternatives limits) ++
                    lit " alternatives")
      else
        let generated_bytes := (generated_bytes + N.of_nat (str_len pattern))%N in
        if (USIZE_MAX <? generated_bytes)%N then invalid (lit "glob expansion is too large")
        else if (N.of_nat (max_glob_generated_bytes limits) <? generated_bytes)%N
        then invalid (lit "glob expansion exceeds maximum size of " ++
                      dec (max_glob_generated_bytes limits) ++ lit " bytes")
        else Ok (output ++ [pattern], generated_bytes)
  | Some (start, end_) =>
      match remaining with
      | 0 => invalid (lit "glob pattern exceeds maximum brace depth of " ++
                      dec (max_glob_brace_depth limits))
      | S remaining' =>
          let before := take start pattern in
          let after := drop (S end_) pattern in
          for_each
            (fun part state =>
               let alternative := before ++ part ++ after in
               if (USIZE_MAX <? N.of_nat (str_len alternative))%N
                  || (max_glob_generated_bytes limits <? str_len alternative)%nat
               then invalid (lit "glob expansion is too large")
               else expand_bounded limits remaining' alternative state)
            (split_on COMMA (take (end_ - S start) (drop (S start) pattern)))
            (output, generated_bytes)
      end
  end.

(** ** The matcher *)

Inductive FastPath : Type :=
| LiteralPath (literal : str)
| RecursiveLiteralSuffix (suffix : str).

Definition has_wildcard (s : str) : bool := contains_char STAR s || contains_char QUESTION s.

Definition FastPath_new (pattern : str) : option FastPath :=
  let literal := if has_wildcard pattern then None else Some (LiteralPath pattern) in
  match strip_prefix (lit "**/") pattern with
  | Some suffix =>
      if negb (bool_decide (suffix = [])) && negb (has_wildcard suffix)
      then Some (RecursiveLiteralSuffix suffix) else literal
  | None => literal
  end.

Definition FastPath_steps (f : FastPath) : N :=
  match f with
  | LiteralPath literal | RecursiveLiteralSuffix literal => N.of_nat (str_len literal) + 1
  end%N.

Definition FastPath_is_match (f : FastPath) (value : str) : bool :=
  match f with
  | LiteralPath literal => str_eqb value literal
  | RecursiveLiteralSuffix suffix =>
      str_eqb value suffix
      || match strip_suffix suffix value with
         | Some prefix => ends_with [SLASH] prefix
         | None => false
         end
  end.

Record GlobMatcher := {
  alternatives : list (list Token);
  fast_path : option FastPath;
  subsumes_basename : bool;
}.

Inductive MatchOutcome : Type := Matched | Missed | BudgetExhausted.

Definition outcome (matched : bool) : MatchOutcome := if matched then Matched else Missed.

Section matcher.
(** [std::path::MAIN_SEPARATOR]. *)
Context (MAIN_SEPARATOR : char).

Definition normalize_separators (value : str) : str :=
  if (MAIN_SEPARATOR =? SLASH)%N then value else replace [MAIN_SEPARATOR] [SLASH] value.

Definition GlobMatcher_new (pattern : str) (limits : GlobLimits) :
    Result GlobMatcher FilesystemError :=
  if (max_glob_bytes limits <? str_len pattern)%nat
  then invalid (lit "glob pattern exceeds maximum size of " ++ dec (max_glob_bytes limits) ++
                lit " bytes")
  else
    let normalized := normalize_separators pattern in
    let? state := expand_bounded limits (max_glob_brace_depth limits) normalized ([], 0%N) in
    let expanded := state.1 in
    Ok {| alternatives := map tokenize expanded;
          fast_path := match expanded with [only] => FastPath_new only | _ => None end;
          subsumes_basename := forallb (starts_with (lit "**/")) expanded |}.

(** [try_match]: the result, and the steps that remain. *)
Definition try_match (m : GlobMatcher) (value : str) (remaining_steps : N) :
    Result MatchOutcome FilesystemError * N :=
  let normalized := normalize_separators value in
  match fast_path m with
  | Some fast_path =>
      let steps := FastPath_steps fast_path in
      if (remaining_steps <? steps)%N then (Ok BudgetExhausted, remaining_steps)
      else (Ok (outcome (FastPath_is_match fast_path normalized)), remaining_steps - steps)%N
  | None =>
      let value := encode_utf16 normalized in
      let token_count := N.of_nat (sum_list_with length (alternatives m)) in
      let steps := (token_count * N.min (N.of_nat (length value) + 1) USIZE_MAX)%N in
      if (USIZE_MAX <? steps)%N
      then (Err (Operation (lit "glob matching work is too large")), remaining_steps)
      else if (remaining_steps <? steps)%N then (Ok BudgetExhausted, remaining_steps)
      else
        (Ok (outcome (existsb (fun tokens => matches_tokens tokens [] value) (alternatives m))),
         remaining_steps - steps)%N
  end.

Definition matches_candidate (m : GlobMatcher) (relative_path basename : str)
    (remaining_steps : N) : Result MatchOutcome FilesystemError * N :=
  match try_match m relative_path remaining_steps with
  | (Ok Missed, remaining_steps) =>
      if negb (subsumes_basename m) then try_match m basename remaining_steps
      else (Ok Missed, remaining_steps)
  | other => other
  end.

End matcher.

(** ** The meaning of tokens *)

Definition accepts (classes : list CharClass) (t : Token) (u : N) : Prop :=
  match t with
  | AnyUnit => u ≠ SLASH
  | Literal expected => u = expected
  | Class_ index => ∃ class, classes !! index = Some class ∧ class_contains class u = true
  | _ => False
  end.

(** [glob tokens v]: the tokens match all of [v]. *)
Fixpoint glob (classes : list CharClass) (tokens : list Token) (v : list N) : Prop :=
  match tokens with
  | [] => v = []
  | RecursiveDirectories :: ts =>
      glob classes ts v ∨ ∃ pre v', v = pre ++ SLASH :: v' ∧ glob classes ts v'
  | Recursive :: ts => ∃ pre v', v = pre ++ v' ∧ glob classes ts v'
  | SegmentStar :: ts => ∃ pre v', v = pre ++ v' ∧ SLASH ∉ pre ∧ glob classes ts v'
  | t :: ts => ∃ u v', v = u :: v' ∧ accepts classes t u ∧ glob classes ts v'
  end.

(** A row says of every suffix whether [P] holds of it. *)
Inductive describes (P : list N → Prop) : list N → list bool → Prop :=
| describes_nil b : (b = true ↔ P []) → describes P [] [b]
| describes_cons c v b row :
    (b = true ↔ P (c :: v)) → describes P v row → describes P (c :: v) (b :: row).

Lemma describes_head P v row :
  describes P v row → ∃ b row', row = b :: row' ∧ (b = true ↔ P v).
Proof. intros []; eauto. Qed.

(** The flag of a unit, looked up in the row of the units after it. *)
Lemma describes_next P v row :
  describes P v row → (match row with b :: _ => b | [] => false end = true ↔ P v).
Proof. by intros (b & row' & -> & H)%describes_head. Qed.

Lemma row_directories_ok P v next :
  describes P v next →
  describes (λ v, P v ∨ ∃ pre v', v = pre ++ SLASH :: v' ∧ P v') v (row_directories v next).1 ∧
  ((row_directories v next).2 = true ↔ ∃ pre v', v = pre ++ SLASH :: v' ∧ P v').
Proof.
  induction 1 as [b Hb|c v b next Hb Hd IH]; cbn [row_directories].
  - assert (¬ ∃ pre v', [] = pre ++ SLASH :: v' ∧ P v') as Hn.
    { intros (pre & v' & ? & _). by destruct pre. }
    split; [constructor; naive_solver|naive_solver].
  - destruct (row_directories v next) as [row exit]. simpl in *. destruct IH as [IHr IHe].
    match goal with |- context [if ?found then true else exit] =>
      set (exit' := if found then true else exit) end.
    assert (exit' = true ↔ ∃ pre v', c :: v = pre ++ SLASH :: v' ∧ P v') as He.
    { subst exit'. apply describes_next in Hd. destruct (N.eqb_spec c SLASH) as [->|Hc]; simpl.
      - destruct (match next with b :: _ => b | [] => false end) eqn:En.
        + split; [intros _|done]. exists [], v. naive_solver.
        + rewrite IHe. split.
          * intros (pre & v' & -> & ?). by exists (SLASH :: pre), v'.
          * intros ([|d pre] & v' & Hv & ?); simplify_eq/=; [naive_solver|]. by exists pre, v'.
      - rewrite IHe. split.
        + intros (pre & v' & -> & ?). by exists (c :: pre), v'.
        + intros ([|d pre] & v' & Hv & ?); simplify_eq/=. by exists pre, v'. }
    split; [|done]. constructor; [|done]. rewrite orb_true_iff. naive_solver.
Qed.

Lemma row_star_ok through P v next :
  describes P v next →
  describes (λ v, ∃ pre v', v = pre ++ v' ∧ Forall (λ u, through u = true) pre ∧ P v') v
    (row_star through v next).
Proof.
  induction 1 as [b Hb|c v b next Hb Hd IH]; cbn [row_star].
  - constructor. rewrite Hb. split; [intros; by exists [], []|].
    intros (pre & v' & Hv & _ & ?). symmetry in Hv. by apply app_eq_nil in Hv as [_ ->].
  - constructor; [|done]. apply describes_next in IH. rewrite orb_true_iff, andb_true_iff, IH, Hb.
    split.
    + intros [?|(Hc & pre & v' & -> & ? & ?)]; [by exists [], (c :: v)|].
      exists (c :: pre), v'. split_and!; [done|by constructor|done].
    + intros ([|d pre] & v' & Hv & Hf & ?); simplify_eq/=; [by left|].
      inversion Hf; subst. right. split; [done|]. by exists pre, v'.
Qed.

Lemma row_unit_ok acc P v next :
  describes P v next →
  describes (λ v, ∃ u v', v = u :: v' ∧ acc u = true ∧ P v') v (row_unit acc v next).
Proof.
  induction 1 as [b Hb|c v b next Hb Hd IH]; cbn [row_unit].
  - constructor. naive_solver.
  - constructor; [|done]. apply describes_next in Hd. rewrite andb_true_iff, Hd. naive_solver.
Qed.

Lemma describes_iff P Q v row : (∀ v, P v ↔ Q v) → describes P v row → describes Q v row.
Proof. intros H. induction 1; constructor; try done; by rewrite <- H. Qed.

Lemma row_ok classes t ts v next :
  describes (glob classes ts) v next →
  describes (glob classes (t :: ts)) v (row classes v t next).
Proof.
  intros H. destruct t; cbn [row].
  - by apply row_directories_ok.
  - eapply describes_iff; [|by apply row_star_ok]. intros w. cbn [glob].
    setoid_rewrite Forall_forall. naive_solver.
  - eapply describes_iff; [|by apply row_star_ok]. intros w. cbn [glob].
    setoid_rewrite Forall_forall. setoid_rewrite negb_true_iff. setoid_rewrite N.eqb_neq.
    split; intros (pre & v' & ? & Hp & ?); exists pre, v'; split_and!; try done.
    + intros Hin. by apply (Hp SLASH).
    + intros u Hu ->. done.
  - eapply describes_iff; [|by apply row_unit_ok]. intros w. cbn [glob accepts].
    setoid_rewrite negb_true_iff. setoid_rewrite N.eqb_neq. done.
  - eapply describes_iff; [|by apply row_unit_ok]. intros w. cbn [glob accepts].
    setoid_rewrite N.eqb_eq. naive_solver.
  - eapply describes_iff; [|by apply row_unit_ok]. intros w. cbn [glob accepts].
    split; intros (u & v' & ? & Hu & ?); exists u, v'; split_and!; try done.
    + destruct (classes !! index); [eauto|done].
    + by destruct Hu as (? & -> & ?).
Qed.

(** The rows decide the meaning. *)
Lemma matches_tokens_ok tokens classes value :
  matches_tokens tokens classes value = true ↔ glob classes tokens value.
Proof.
  unfold matches_tokens. apply describes_next.
  induction tokens as [|t ts IH]; simpl; [|by apply row_ok].
  induction value as [|c v IH]; simpl; constructor; done || by split.
Qed.

(** ** UTF-16 *)

(** The characters of a Rust string. *)
Abbreviation scalars := (Forall (λ c, is_scalar c = true)).

Lemma is_scalar_true c :
  is_scalar c = true ↔ (c < 0xD800 ∨ 0xE000 <= c ∧ c <= 0x10FFFF)%N.
Proof.
  unfold is_scalar. by rewrite orb_true_iff, andb_true_iff, N.ltb_lt, !N.leb_le.
Qed.

Lemma char_utf16_cases c :
  is_scalar c = true →
  char_utf16 c = [c] ∨ ∃ h l, char_utf16 c = [h; l] ∧ (0xD800 <= h < 0xDC00)%N ∧
    (0xDC00 <= l < 0xE000)%N ∧ c = (0x10000 + (h - 0xD800) * 1024 + (l - 0xDC00))%N.
Proof.
  rewrite is_scalar_true. intros Hc. unfold char_utf16.
  destruct (N.ltb_spec c 0x10000) as [|Hge]; [by left|right].
  eexists _, _. split; [done|].
  rewrite N.shiftr_div_pow2. change 0x3FF%N with (N.ones 10). rewrite N.land_ones.
  change (2 ^ 10)%N with 1024%N.
  pose proof (N.div_mod (c - 0x10000) 1024 ltac:(lia)).
  pose proof (N.mod_lt (c - 0x10000) 1024 ltac:(lia)).
  assert ((c - 0x10000) / 1024 < 1024)%N by (apply N.Div0.div_lt_upper_bound; lia).
  set (q := ((c - 0x10000) / 1024)%N) in *. set (r := ((c - 0x10000) mod 1024)%N) in *. lia.
Qed.

Lemma encode_utf16_inj a b :
  scalars a → scalars b →
  encode_utf16 a = encode_utf16 b → a = b.
Proof.
  intros Ha. revert b. induction Ha as [|c a Hc Ha IH]; intros b Hb; destruct Hb as [|d b Hd Hb];
    cbn [encode_utf16 flat_map]; intros H; [done|..].
  - by destruct (char_utf16_cases d Hd) as [E|(? & ? & E & _)]; rewrite E in H.
  - by destruct (char_utf16_cases c Hc) as [E|(? & ? & E & _)]; rewrite E in H.
  - pose proof Hc as Hc'. pose proof Hd as Hd'. rewrite is_scalar_true in Hc', Hd'.
    destruct (char_utf16_cases c Hc) as [E|(h & l & E & ? & ? & Ec)];
      destruct (char_utf16_cases d Hd) as [E'|(h' & l' & E' & ? & ? & Ed)];
      rewrite E, E' in H; simplify_eq/=; try lia.
    + f_equal. by apply IH.
    + f_equal. by apply IH.
Qed.

(** Cutting the units of a text before those of another cuts the text. *)
Lemma encode_utf16_cut a b u :
  scalars a → scalars b →
  encode_utf16 a = u ++ encode_utf16 b → (u = [] ∨ last u = Some SLASH) →
  ∃ p, a = p ++ b ∧ u = encode_utf16 p.
Proof.
  intros Ha Hb. revert u. induction Ha as [|c a Hc Ha IH]; intros u H Hu.
  { symmetry in H. apply app_eq_nil in H as [-> H]. exists []. split; [|done].
    symmetry. by apply encode_utf16_inj. }
  destruct u as [|x u].
  { exists []. split; [|done]. apply encode_utf16_inj; [by constructor|done..]. }
  destruct Hu as [|Hu]; [done|]. cbn [encode_utf16 flat_map] in H.
  destruct (char_utf16_cases c Hc) as [E|(h & l & E & ? & ? & _)]; rewrite E in H;
    injection H as <- H; simpl in H.
  - destruct (IH u) as (p & -> & ->); [done| |].
    + destruct u; [by left|by right].
    + exists (c :: p). cbn. by rewrite E.
  - destruct u as [|y u]; [simpl in Hu; injection Hu as ->; unfold SLASH in *; lia|].
    injection H as <- H. destruct (IH u) as (p & -> & ->); [done| |].
    + destruct u as [|z u]; [by left|by right].
    + exists (c :: p). cbn. by rewrite E.
Qed.

Lemma encode_utf16_app a b : encode_utf16 (a ++ b) = encode_utf16 a ++ encode_utf16 b.
Proof. apply flat_map_app. Qed.

Lemma encode_utf16_slash q u :
  scalars q → u ++ [SLASH] = encode_utf16 q → ∃ r, q = r ++ [SLASH].
Proof.
  destruct (decide (q = [])) as [->|Hq]; [by destruct u|].
  destruct (exists_last Hq) as (r & c & ->). intros [_ Hc]%Forall_app H. exists r. f_equal.
  rewrite encode_utf16_app in H. cbn [encode_utf16 flat_map] in H. rewrite app_nil_r in H.
  apply Forall_cons in Hc as [Hc _].
  assert (last (u ++ [SLASH]) = last (encode_utf16 r ++ char_utf16 c)) as Hl by by rewrite H.
  rewrite last_snoc in Hl.
  destruct (char_utf16_cases c Hc) as [E|(h & l & E & ? & ? & _)]; rewrite E in Hl.
  - rewrite last_snoc in Hl. by injection Hl as ->.
  - change [h; l] with ([h] ++ [l]) in Hl. rewrite app_assoc, last_snoc in Hl.
    injection Hl as Hl. unfold SLASH in *. lia.
Qed.

(** ** Fast paths *)

Lemma contains_char_false c s : contains_char c s = false ↔ c ∉ s.
Proof.
  unfold contains_char. rewrite <- not_true_iff_false, existsb_exists.
  setoid_rewrite <- list_elem_of_In. setoid_rewrite N.eqb_eq. naive_solver.
Qed.

Lemma tokenize_literal p :
  has_wildcard p = false → tokenize p = map Literal (encode_utf16 p).
Proof.
  unfold has_wildcard. rewrite orb_false_iff, !contains_char_false.
  induction p as [|c p IH]; intros [H1 H2]; [done|]. apply not_elem_of_cons in H1 as [H1 H1'].
  apply not_elem_of_cons in H2 as [H2 H2']. cbn [tokenize encode_utf16 flat_map].
  destruct (N.eqb_spec c STAR); [done|]. destruct (N.eqb_spec c QUESTION); [done|].
  by rewrite map_app, IH.
Qed.

Lemma glob_literals classes us v : glob classes (map Literal us) v ↔ v = us.
Proof.
  revert v. induction us as [|u us IH]; intros v; cbn [map glob accepts]; [done|].
  split; [intros (? & ? & -> & -> & H%IH); by subst|]. intros ->. exists u, us. by rewrite IH.
Qed.

Lemma tokenize_recursive p : tokenize (lit "**/" ++ p) = RecursiveDirectories :: tokenize p.
Proof. reflexivity. Qed.

Lemma fast_path_ok p f value :
  scalars p → scalars value →
  FastPath_new p = Some f →
  FastPath_is_match f value = true ↔ glob [] (tokenize p) (encode_utf16 value).
Proof.
  intros Hp Hv H. unfold FastPath_new in H.
  assert (has_wildcard p = false → f = LiteralPath p →
    FastPath_is_match f value = true ↔ glob [] (tokenize p) (encode_utf16 value)) as Hlit.
  { intros Hw ->. rewrite tokenize_literal by done. rewrite glob_literals. cbn.
    rewrite str_eqb_eq. split; [by intros ->|]. by apply encode_utf16_inj. }
  destruct (strip_prefix (lit "**/") p) as [suffix|] eqn:Es.
  2: { destruct (has_wildcard p); [done|]. apply Hlit; congruence. }
  assert ((if has_wildcard p then None else Some (LiteralPath p)) = Some f →
    FastPath_is_match f value = true ↔ glob [] (tokenize p) (encode_utf16 value)) as Hlit'.
  { destruct (has_wildcard p); [done|]. intros. apply Hlit; congruence. }
  case_bool_decide as Hs; simpl in H; [by apply Hlit'|].
  destruct (has_wildcard suffix) eqn:Ew; simpl in H; [by apply Hlit'|].
  injection H as <-. apply strip_prefix_Some in Es as ->. clear Hlit Hlit'.
  apply Forall_app in Hp as [_ Hp].
  rewrite tokenize_recursive, (tokenize_literal suffix) by done. cbn [glob FastPath_is_match].
  setoid_rewrite glob_literals. rewrite orb_true_iff, str_eqb_eq. f_equiv.
  { split; [by intros ->|]. by apply encode_utf16_inj. }
  destruct (strip_suffix suffix value) as [pre|] eqn:Ep.
  - apply strip_suffix_Some in Ep as ->. rewrite ends_with_true. split.
    + intros [pre' ->]. exists (encode_utf16 pre'), (encode_utf16 suffix).
      by rewrite !encode_utf16_app, <- app_assoc.
    + intros (u & v' & Hu & ->).
      destruct (encode_utf16_cut (pre ++ suffix) suffix (u ++ [SLASH])) as (q & Hq & Hq'); [done..| | |].
      { by rewrite Hu, <- app_assoc. }
      { right. by rewrite last_snoc. }
      apply app_inv_tail in Hq as ->.
      apply Forall_app in Hv as [Hv _].
      by apply (encode_utf16_slash q u).
  - split; [done|]. intros (u & v' & Hu & ->). exfalso.
    destruct (encode_utf16_cut value suffix (u ++ [SLASH])) as (q & -> & _); [done..| | |].
    { by rewrite Hu, <- app_assoc. }
    { right. by rewrite last_snoc. }
    assert (strip_suffix suffix (q ++ suffix) = Some q) as Hq by by apply strip_suffix_Some.
    by rewrite Hq in Ep.
Qed.

(** ** Expansion *)

(** [expansion p alts]: replacing first innermost groups by each of their parts, in order,
    until no group is left, gives [alts]. *)
Inductive expansion : str → list str → Prop :=
| expansion_plain p : first_brace_group p = None → expansion p [p]
| expansion_group p start end_ outs :
    first_brace_group p = Some (start, end_) →
    Forall2 (λ part, expansion (take start p ++ part ++ drop (S end_) p))
      (split_on COMMA (take (end_ - S start) (drop (S start) p))) outs →
    expansion p (concat outs).

Definition total_bytes (alts : list str) : nat := sum_list_with str_len alts.

Lemma total_bytes_app a b : total_bytes (a ++ b) = total_bytes a + total_bytes b.
Proof. apply sum_list_with_app. Qed.

Lemma split_on_keeps P c s : Forall P s → Forall (Forall P) (split_on c s).
Proof.
  induction 1 as [|d s Hd Hs IH]; simpl; [by repeat constructor|].
  destruct (d =? c)%N; [by repeat constructor|].
  destruct (split_on c s) as [|l ls]; [by repeat constructor|].
  inversion IH; subst. by repeat constructor.
Qed.

(** What one run of [expand_bounded] adds to its state, within the bounds. *)
Definition grows (limits : GlobLimits) (alts : list str) (s s' : list str * N) : Prop :=
  s'.1 = s.1 ++ alts ∧ s'.2 = (s.2 + N.of_nat (total_bytes alts))%N ∧
  (length s.1 ≤ max_glob_alternatives limits → length s'.1 ≤ max_glob_alternatives limits) ∧
  (s.2 <= N.of_nat (max_glob_generated_bytes limits) →
   s'.2 <= N.of_nat (max_glob_generated_bytes limits))%N.

Lemma grows_trans limits a b s s1 s' :
  grows limits a s s1 → grows limits b s1 s' → grows limits (a ++ b) s s'.
Proof.
  intros (H1 & H2 & H3 & H4) (G1 & G2 & G3 & G4). unfold grows. rewrite total_bytes_app.
  split_and!; [by rewrite G1, H1, app_assoc|rewrite G2, H2; lia|auto|auto].
Qed.

Lemma for_each_grows limits (f : str → list str * N → Result _ FilesystemError)
    (p : str → str) parts s s' :
  (∀ part s s', part ∈ parts → f part s = Ok s' →
     ∃ alts, expansion (p part) alts ∧ (scalars (p part) → Forall scalars alts) ∧
       grows limits alts s s') →
  for_each f parts s = Ok s' →
  ∃ outs, Forall2 (λ part, expansion (p part)) parts outs ∧
    (Forall (λ part, scalars (p part)) parts → Forall scalars (concat outs)) ∧
    grows limits (concat outs) s s'.
Proof.
  revert s. induction parts as [|part parts IH]; intros s Hf H; cbn [for_each] in H.
  { injection H as <-. exists []. unfold grows. simpl. rewrite app_nil_r.
    split_and!; [done..|lia|done|done]. }
  apply result_bind_ok in H as (s1 & H1 & H2).
  apply Hf in H1 as (alts & He & Hs & Hg); [|set_solver].
  apply IH in H2 as (outs & Ho & Hso & Hgo); [|set_solver].
  exists (alts :: outs). cbn [concat]. split_and!; [by constructor| |by eapply grows_trans].
  intros [Hp Hps]%Forall_cons. apply Forall_app. auto.
Qed.

Lemma expand_bounded_ok limits remaining p s s' :
  expand_bounded limits remaining p s = Ok s' →
  ∃ alts, expansion p alts ∧ (scalars p → Forall scalars alts) ∧ grows limits alts s s'.
Proof.
  revert p s s'. induction remaining as [|remaining IH]; intros p [output g] s' H;
    cbn [expand_bounded] in H; destruct (first_brace_group p) as [[start end_]|] eqn:Eg; try done.
  1, 3: destruct (Nat.eqb_spec (length output) (max_glob_alternatives limits)); [done|];
    cbv zeta in H; destruct (N.ltb_spec USIZE_MAX (g + N.of_nat (str_len p))); [done|];
    destruct (N.ltb_spec (N.of_nat (max_glob_generated_bytes limits)) (g + N.of_nat (str_len p)));
    [done|]; injection H as <-; exists [p]; unfold grows, total_bytes; simpl; rewrite length_app;
    split_and!; [by constructor|by repeat constructor|done|lia|simpl; lia|lia].
  cbv zeta in H. apply (for_each_grows limits _ (λ part, take start p ++ part ++ drop (S end_) p)) in H.
  - destruct H as (outs & Ho & Hs & H). exists (concat outs). split_and!; [by econstructor| |done].
    intros Hp. apply Hs. eapply Forall_impl; [by apply split_on_keeps, Forall_take, Forall_drop|].
    intros part Hpart. rewrite !Forall_app.
    split_and!; [by apply Forall_take|done|by apply Forall_drop].
  - intros part s1 s2 _ Hp. case_match; [done|]. by apply IH.
Qed.

(** ** The matcher *)

(** On a platform whose separator is the slash. *)
Lemma try_match_ok m value steps alts :
  fast_path m = match alts with [only] => FastPath_new only | _ => None end →
  alternatives m = map tokenize alts → Forall scalars alts → scalars value →
  let '(r, rest) := try_match SLASH m value steps in
  (rest <= steps)%N ∧
  match r with
  | Ok Matched => ∃ alt, alt ∈ alts ∧ glob [] (tokenize alt) (encode_utf16 value)
  | Ok Missed => ¬ ∃ alt, alt ∈ alts ∧ glob [] (tokenize alt) (encode_utf16 value)
  | _ => rest = steps
  end.
Proof.
  intros Hf Ha Hs Hv. unfold try_match, normalize_separators. simpl.
  assert (∀ b : bool, (b = true ↔ ∃ alt, alt ∈ alts ∧ glob [] (tokenize alt) (encode_utf16 value)) →
    match outcome b with
    | Matched => ∃ alt, alt ∈ alts ∧ glob [] (tokenize alt) (encode_utf16 value)
    | Missed => ¬ ∃ alt, alt ∈ alts ∧ glob [] (tokenize alt) (encode_utf16 value)
    | BudgetExhausted => False
    end) as Hout.
  { intros [] Hb; simpl; [by apply Hb|]. by intros ?%Hb. }
  destruct (fast_path m) as [f|].
  - destruct alts as [|only [|]]; [done| |done].
    destruct (N.ltb_spec steps (FastPath_steps f)); [done|]. split; [lia|].
    assert (FastPath_is_match f value = true ↔
      ∃ alt, alt ∈ [only] ∧ glob [] (tokenize alt) (encode_utf16 value)) as Hm.
    { apply Forall_cons in Hs as [Hs _]. rewrite (fast_path_ok only) by done.
      setoid_rewrite list_elem_of_singleton. naive_solver. }
    specialize (Hout _ Hm). by destruct (outcome _).
  - cbv zeta. set (cost := (_ * _)%N). destruct (N.ltb_spec USIZE_MAX cost); [done|].
    destruct (N.ltb_spec steps cost); [done|]. split; [lia|].
    assert (existsb (fun tokens => matches_tokens tokens [] (encode_utf16 value)) (alternatives m)
      = true ↔ ∃ alt, alt ∈ alts ∧ glob [] (tokenize alt) (encode_utf16 value)) as Hm.
    { rewrite existsb_exists, Ha. setoid_rewrite matches_tokens_ok.
      setoid_rewrite <- list_elem_of_In. setoid_rewrite list_elem_of_fmap. naive_solver. }
    specialize (Hout _ Hm). by destruct (outcome _).
Qed.

(** A [**/] pattern that matches a name matches every path that ends in it. *)
Lemma glob_recursive_below alt dir base :
  starts_with (lit "**/") alt = true →
  glob [] (tokenize alt) (encode_utf16 base) →
  glob [] (tokenize alt) (encode_utf16 (dir ++ SLASH :: base)).
Proof.
  intros [p ->]%starts_with_true. rewrite tokenize_recursive, encode_utf16_app.
  change (encode_utf16 (SLASH :: base)) with (SLASH :: encode_utf16 base). cbn [glob].
  intros [H|(pre & v' & -> & H)]; right; [by exists (encode_utf16 dir), (encode_utf16 base)|].
  exists (encode_utf16 dir ++ SLASH :: pre), v'. by rewrite <- app_assoc.
Qed.

(** C29: A compiled glob has the alternatives its braces expand to, within the bounds; and
    matching a candidate answers, whenever it answers, whether some alternative matches its
    path or its basename in full: rows, fast paths and the skipped basename attempt all
    give the declarative meaning of the tokens, and never spend steps they do not have. *)
Theorem glob_matches_candidate pattern limits m relative_path basename steps :
  GlobMatcher_new SLASH pattern limits = Ok m →
  scalars pattern → scalars relative_path →
  (relative_path = basename ∨ ∃ dir, relative_path = dir ++ SLASH :: basename) →
  ∃ alts, expansion pattern alts ∧ length alts ≤ max_glob_alternatives limits ∧
    total_bytes alts ≤ max_glob_generated_bytes limits ∧
    let matched := ∃ alt v, alt ∈ alts ∧ v ∈ [relative_path; basename] ∧
      glob [] (tokenize alt) (encode_utf16 v) in
    let '(r, rest) := matches_candidate SLASH m relative_path basename steps in
    (rest <= steps)%N ∧
    match r with Ok Matched => matched | Ok Missed => ¬ matched | _ => True end.
Proof.
  intros Hm Hp Hr Hb. unfold GlobMatcher_new in Hm. case_match; [done|].
  apply result_bind_ok in Hm as (state & He & Hm).
  apply expand_bounded_ok in He as (alts & Hx & Hs & H1 & H2 & H3 & H4).
  simpl in *. rewrite H1 in Hm, H3. injection Hm as <-. exists alts.
  split_and!; [done|apply H3; lia|lia|].
  set (m := {| alternatives := _ |}). specialize (Hs Hp).
  assert (scalars basename) as Hbase.
  { destruct Hb as [<-|[dir ->]]; [done|]. apply Forall_app in Hr as [_ Hr]. by apply Forall_cons in Hr as [_ ?]. }
  pose proof (try_match_ok m relative_path steps alts eq_refl eq_refl Hs Hr) as T1.
  unfold matches_candidate. destruct (try_match SLASH m relative_path steps) as [r1 rest1].
  destruct T1 as [L1 T1]. destruct r1 as [[]|]; try (split; [done|]); try done.
  - destruct T1 as (alt & ? & ?). exists alt, relative_path. split_and!; [done|set_solver|done].
  - destruct (subsumes_basename m) eqn:Esub; simpl.
    + split; [done|]. intros (alt & v & Halt & Hv & Hg). apply T1. exists alt. split; [done|].
      apply list_elem_of_In in Hv as [<-|[<-|[]]]; [done|].
      destruct Hb as [->|[dir ->]]; [done|]. apply glob_recursive_below; [|done].
      simpl in Esub. rewrite forallb_forall in Esub. by apply Esub, list_elem_of_In.
    + pose proof (try_match_ok m basename rest1 alts eq_refl eq_refl Hs Hbase) as T2.
      destruct (try_match SLASH m basename rest1) as [r2 rest2]. destruct T2 as [L2 T2].
      split; [lia|]. destruct r2 as [[]|]; try done.
      * destruct T2 as (alt & ? & ?). exists alt, basename. split_and!; [done|set_solver|done].
      * intros (alt & v & Halt & Hv & Hg). apply list_elem_of_In in Hv as [<-|[<-|[]]]; eauto.
Qed.

Definition example_limits : GlobLimits :=
  {| max_glob_bytes := 100; max_glob_brace_depth := 8; max_glob_alternatives := 4;
     max_glob_generated_bytes := 200 |}.

Definition example_matcher : GlobMatcher :=
  match GlobMatcher_new SLASH (lit "src/*.{rs,md}") example_limits with
  | Ok m => m
  | Err _ => {| alternatives := []; fast_path := None; subsumes_basename := false |}
  end.

Lemma glob_matches_candidate_witness :
  matches_candidate SLASH example_matcher (lit "src/a.md") (lit "a.md") 1000
    = (Ok Matched, 856%N) ∧
  ∃ alts, expansion (lit "src/*.{rs,md}") alts ∧ length alts ≤ 4.
Proof.
  split; [vm_compute; reflexivity|].
  destruct (glob_matches_candidate (lit "src/*.{rs,md}") example_limits example_matcher
    (lit "src/a.md") (lit "a.md") 1000) as (alts & He & Hl & _).
  - vm_compute. reflexivity.
  - repeat constructor.
  - repeat constructor.
  - right. exists (lit "src"). reflexivity.
  - exists alts. split; [exact He|exact Hl].
Defined.
