(* ===== verification/GitIgnore.v ===== *)
(** * Ignore files: [crates/mcp-files/src/gitignore.rs]

    The gitignore dialect, compiled to the tokens of Glob, the chain of ignore files from
    a directory to the root, its bounds, and the decision for one candidate within a budget
    of steps.  The capacities of compiled patterns are a parameter. *)

From S2P Require Import Prelude Utf8 Glob.
Local Open Scope workcell_scope.

(** ** Data *)

Record IgnorePattern := {
  tokens : list Token;
  classes : list CharClass;
  p_negated : bool;
  directory_only : bool;
}.

Record IgnoreFile := { prefix : str; patterns : list IgnorePattern }.

(** [IgnoreScope]: a file and the scope above it. *)
Inductive IgnoreScope : Type :=
| Nested (file : IgnoreFile) (parent : option IgnoreScope).

Record IgnoreBudget := {
  files : nat;
  b_retained_bytes : N;
  match_steps : N;
  complete : bool;
}.

Record IgnoreLimits := {
  max_gitignore_files : nat;
  max_gitignore_bytes : nat;
  max_gitignore_patterns : nat;
  max_gitignore_retained_bytes : N;
  max_gitignore_match_steps : N;
}.

Definition IgnoreBudget_new (limits : IgnoreLimits) : IgnoreBudget :=
  {| files := max_gitignore_files limits;
     b_retained_bytes := max_gitignore_retained_bytes limits;
     match_steps := max_gitignore_match_steps limits; complete := true |}.

Definition incomplete (b : IgnoreBudget) : IgnoreBudget :=
  {| files := files b; b_retained_bytes := b_retained_bytes b; match_steps := match_steps b;
     complete := false |}.


(** ** The dialect *)

Definition BACKSLASH : char := 92%N.
Definition BANG : char := 33%N.
Definition HASH : char := 35%N.
Definition LBRACKET : char := 91%N.
Definition RBRACKET : char := 93%N.
Definition CARET : char := 94%N.
Definition DASH : char := 45%N.
Definition COLON : char := 58%N.
Definition TAB : char := 9%N.

Definition bmp_unit (c : char) : option N := if (c <=? 65535)%N then Some c else None.

(** The loop of [parse_class]: the members, and the characters after the bracket. *)
Fixpoint class_members (characters : str) (first : bool) (acc : list (N * N)) :
    option (list (N * N) * str) :=
  match characters with
  | [] => None
  | c :: rest =>
      if (c =? RBRACKET)%N && negb first then
        match acc with [] => None | _ => Some (acc, rest) end
      else if (c =? LBRACKET)%N && bool_decide (head rest = Some COLON) then None
      else
        match bmp_unit c with
        | None => None
        | Some low =>
            match rest with
            | d :: e :: rest' =>
                if (d =? DASH)%N && negb (e =? RBRACKET)%N then
                  match bmp_unit e with
                  | None => None
                  | Some high =>
                      if (high <? low)%N then None
                      else class_members rest' false (acc ++ [(low, high)])
                  end
                else class_members rest false (acc ++ [(low, low)])
            | _ => class_members rest false (acc ++ [(low, low)])
            end
        end
  end.

(** [parse_class] on the characters after the opening bracket. *)
Definition parse_class (characters : str) : option (CharClass * str) :=
  let '(neg, characters) :=
    match characters with
    | c :: rest => if (c =? BANG)%N || (c =? CARET)%N then (true, rest) else (false, characters)
    | [] => (false, [])
    end in
  match class_members characters true [] with
  | Some (members, rest) => Some ({| negated := neg; ranges := members |}, rest)
  | None => None
  end.

(** The loop of [tokenize]; every step consumes a character, so their number is enough
    [fuel]: [None] is its exhaustion, [Some None] a pattern that cannot be represented. *)
Fixpoint tokenize_from (fuel : nat) (characters : str) (toks : list Token)
    (cls : list CharClass) : option (option (list Token * list CharClass)) :=
  match characters with
  | [] => Some (Some (toks, cls))
  | c :: rest =>
      match fuel with
      | 0 => None
      | S fuel' =>
          if (c =? BACKSLASH)%N then
            match rest with
            | [] => Some None
            | escaped :: rest' => tokenize_from fuel' rest' (toks ++ push_literal escaped) cls
            end
          else if (c =? STAR)%N then
            match rest with
            | d :: rest' =>
                if (d =? STAR)%N then
                  match rest' with
                  | e :: rest'' =>
                      if (e =? SLASH)%N
                      then tokenize_from fuel' rest'' (toks ++ [RecursiveDirectories]) cls
                      else tokenize_from fuel' rest' (toks ++ [Recursive]) cls
                  | [] => tokenize_from fuel' rest' (toks ++ [Recursive]) cls
                  end
                else tokenize_from fuel' rest (toks ++ [SegmentStar]) cls
            | [] => tokenize_from fuel' rest (toks ++ [SegmentStar]) cls
            end
          else if (c =? QUESTION)%N then tokenize_from fuel' rest (toks ++ [AnyUnit]) cls
          else if (c =? LBRACKET)%N then
            match parse_class rest with
            | None => Some None
            | Some (class, next) =>
                if (65535 <? N.of_nat (length cls))%N then Some None
                else tokenize_from fuel' next (toks ++ [Class_ (length cls)]) (cls ++ [class])
            end
          else tokenize_from fuel' rest (toks ++ push_literal c) cls
      end
  end.

Definition tokenize (pattern : str) : option (option (list Token * list CharClass)) :=
  (fun r => match r with
            | Some ([], _) => None
            | r => r
            end) <$> tokenize_from (length pattern) pattern [] [].

(** [trim_trailing_unescaped_whitespace], from the end: [run] is the run of backslashes
    that starts a reversed text. *)
Fixpoint run (r : str) : nat :=
  match r with c :: r' => if (c =? BACKSLASH)%N then S (run r') else 0 | [] => 0 end.

Fixpoint trim_reversed (r : str) : str :=
  match r with
  | [] => []
  | c :: r' =>
      if (c =? SPACE)%N || (c =? TAB)%N
      then if Nat.odd (run r') then r else trim_reversed r'
      else r
  end.

Definition trim_trailing_unescaped_whitespace (line : str) : str :=
  reverse (trim_reversed (reverse line)).

(** [parse_pattern]; the outer [None] is the exhausted fuel of [tokenize]. *)
Definition parse_pattern (line : str) : option (option IgnorePattern) :=
  let line := trim_trailing_unescaped_whitespace line in
  if bool_decide (line = []) || starts_with [HASH] line then Some None
  else
    let '(neg, body) :=
      match strip_prefix [BANG] line with Some rest => (true, rest) | None => (false, line) end in
    let '(directory, body) :=
      match strip_suffix [SLASH] body with Some rest => (true, rest) | None => (false, body) end in
    if bool_decide (body = []) then Some None
    else
      let anchored := contains_char SLASH body in
      let body := default body (strip_prefix [SLASH] body) in
      if bool_decide (body = []) then Some None
      else
        (fun r =>
           match r with
           | None => None
           | Some (toks, cls) =>
               Some {| tokens := if anchored then toks else RecursiveDirectories :: toks;
                       classes := cls; p_negated := neg; directory_only := directory |}
           end) <$> tokenize body.

(** The loop of [parse_patterns]: the patterns, and whether every line was read. *)
Fixpoint parse_lines (limits : IgnoreLimits) (ls : list str) (acc : list IgnorePattern) :
    option (list IgnorePattern * bool) :=
  match ls with
  | [] => Some (acc, true)
  | line :: ls' =>
      if (max_gitignore_patterns limits <=? length acc)%nat then Some (acc, false)
      else
        match parse_pattern line with
        | None => None
        | Some r => parse_lines limits ls' (acc ++ option_list r)
        end
  end.

Definition parse_patterns (limits : IgnoreLimits) (contents : str) :
    option (list IgnorePattern * bool) :=
  parse_lines limits (lines contents) [].

(** ** Scopes *)
Section scopes.
(** [IgnorePattern::retained_bytes], from the capacities of its vectors. *)
Context (pattern_retained : IgnorePattern → N).
Context (limits : IgnoreLimits).

Definition compile_scope (contents : str) (pre : str) (parent : option IgnoreScope)
    (budget : IgnoreBudget) : option (option IgnoreScope * IgnoreBudget) :=
  match parse_patterns limits contents with
  | None => None
  | Some (pats, all) =>
      let budget := if all then budget else incomplete budget in
      Some
        match pats with
        | [] => (parent, budget)
        | _ =>
            let retained :=
              foldl (fun a p => N.min (a + pattern_retained p) USIZE_MAX)
                (N.of_nat (str_len pre)) pats in
            if (b_retained_bytes budget <? retained)%N then (parent, incomplete budget)
            else
              (Some (Nested {| prefix := pre; patterns := pats |} parent),
               {| files := files budget; b_retained_bytes := b_retained_bytes budget - retained;
                  match_steps := match_steps budget; complete := complete budget |})
        end
  end.

Definition admit_scope (contents : list N) (pre : str) (parent : option IgnoreScope)
    (budget : IgnoreBudget) : option (option IgnoreScope * IgnoreBudget) :=
  if (files budget =? 0)%nat || (max_gitignore_bytes limits <? length contents)%nat
  then Some (parent, incomplete budget)
  else
    let budget :=
      {| files := files budget - 1; b_retained_bytes := b_retained_bytes budget;
         match_steps := match_steps budget; complete := complete budget |} in
    match from_utf8_ok contents with
    | None => Some (parent, incomplete budget)
    | Some contents => compile_scope contents pre parent budget
    end.

(** What opening and reading the file gives: nothing, a failed read, or its bytes. *)
Inductive Reading : Type := NotOpened | ReadFailed | ReadBytes (bytes : list N).

Definition read_bounded (r : Reading) (budget : IgnoreBudget) : option (list N) * IgnoreBudget :=
  match r with
  | NotOpened => (None, budget)
  | ReadFailed => (None, incomplete budget)
  | ReadBytes bytes => (Some (take (max_gitignore_bytes limits + 1) bytes), budget)
  end.

Definition extend_scope (r : Reading) (pre : str) (parent : option IgnoreScope)
    (budget : IgnoreBudget) : option (option IgnoreScope * IgnoreBudget) :=
  match read_bounded r budget with
  | (None, budget) => Some (parent, budget)
  | (Some contents, budget) => admit_scope contents pre parent budget
  end.

End scopes.

(** ** Deciding *)




(** ** The rule: the last line that applies, in the nearest file that has one *)
Section rule.
Context (relative : str) (is_directory : bool).




(** A run from a complete budget: it keeps the budget complete and answers, or it gives up. *)
Definition decided (b b' : IgnoreBudget) : Prop :=
  (match_steps b' <= match_steps b)%N ∧ complete b' = complete b ∧ files b' = files b ∧
  b_retained_bytes b' = b_retained_bytes b.


Lemma decided_refl b : decided b b.
Proof. done. Qed.








End rule.

(** ** The parser answers *)

Lemma class_members_shorter cs first acc members rest :
  class_members cs first acc = Some (members, rest) → length rest < length cs.
Proof.
  revert first acc. induction cs as [cs IH] using (induction_ltof1 _ (@length N)).
  unfold ltof in IH. intros first acc H. destruct cs as [|c cs]; [done|].
  cbn [class_members] in H. destruct ((c =? RBRACKET)%N && negb first).
  { destruct acc; [done|]. injection H as _ <-. simpl. lia. }
  destruct ((c =? LBRACKET)%N && _); [done|]. destruct (bmp_unit c); [|done].
  assert (∀ first acc, class_members cs first acc = Some (members, rest) →
    length rest < length (c :: cs)) as Hcs.
  { intros f a Hf. apply IH in Hf; simpl; lia. }
  destruct cs as [|d [|e cs]]; try (by eapply Hcs).
  destruct ((d =? DASH)%N && negb (e =? RBRACKET)%N); [|by eapply Hcs].
  destruct (bmp_unit e); [|done]. case_match; [done|]. apply IH in H; simpl; lia.
Qed.

Lemma parse_class_shorter cs class rest :
  parse_class cs = Some (class, rest) → length rest < length cs.
Proof.
  unfold parse_class. destruct cs as [|c cs]; [done|].
  destruct ((c =? BANG)%N || (c =? CARET)%N).
  - destruct (class_members cs true []) as [[m r]|] eqn:E; [|done]. intros [= _ <-].
    apply class_members_shorter in E. simpl. lia.
  - destruct (class_members (c :: cs) true []) as [[m r]|] eqn:E; [|done]. intros [= _ <-].
    by apply class_members_shorter in E.
Qed.

Lemma tokenize_from_answers fuel cs toks cls :
  length cs ≤ fuel → is_Some (tokenize_from fuel cs toks cls).
Proof.
  revert cs toks cls. induction fuel as [|fuel IH]; intros cs toks cls Hf.
  { destruct cs; [by eexists|simpl in Hf; lia]. }
  destruct cs as [|c cs]; [by eexists|]. simpl in Hf. cbn [tokenize_from].
  repeat match goal with
  | |- is_Some (Some _) => by eexists
  | |- is_Some (tokenize_from fuel _ _ _) => apply IH; simpl in *; lia
  | |- is_Some (if ?b then _ else _) => destruct b
  | |- is_Some (match parse_class ?r with _ => _ end) =>
      let E := fresh in destruct (parse_class r) as [[? ?]|] eqn:E;
        [apply parse_class_shorter in E|]
  | |- is_Some (match ?l with _ => _ end) => destruct l
  end.
Qed.

Lemma parse_pattern_answers line : is_Some (parse_pattern line).
Proof.
  unfold parse_pattern. repeat case_match; try by eexists.
  all: apply fmap_is_Some; unfold tokenize; apply fmap_is_Some, tokenize_from_answers; lia.
Qed.

(** ** Escaping *)

(** Every character of a name behind a backslash. *)
Definition escape (name : str) : str := flat_map (fun c => [BACKSLASH; c]) name.

Lemma run_escape name : Nat.odd (run (BACKSLASH :: reverse (escape name))) = true.
Proof.
  induction name as [|c name IH] using rev_ind; [done|].
  unfold escape. rewrite flat_map_app, reverse_app. cbn [flat_map app].
  change (reverse [BACKSLASH; c]) with [c; BACKSLASH]. cbn [app].
  change (flat_map (fun c => [BACKSLASH; c]) name) with (escape name).
  cbn [run] in *. rewrite N.eqb_refl in *. destruct (c =? BACKSLASH)%N; [|done].
  by rewrite Nat.odd_succ, Nat.even_succ.
Qed.

Lemma trim_escape name : trim_trailing_unescaped_whitespace (escape name) = escape name.
Proof.
  unfold trim_trailing_unescaped_whitespace. rewrite <- (reverse_involutive (escape name)) at 2.
  f_equal. induction name as [|c name _] using rev_ind; [done|].
  pose proof (run_escape name) as Hr. unfold escape in *. rewrite flat_map_app, reverse_app.
  cbn [flat_map app]. change (reverse [BACKSLASH; c]) with [c; BACKSLASH]. cbn [app trim_reversed].
  rewrite Hr. by destruct (_ || _).
Qed.

Lemma tokenize_escape fuel name toks cls :
  length (escape name) ≤ fuel →
  tokenize_from fuel (escape name) toks cls
    = Some (Some (toks ++ map Literal (encode_utf16 name), cls)).
Proof.
  revert fuel toks. induction name as [|c name IH]; intros fuel toks Hf.
  { destruct fuel; simpl; by rewrite app_nil_r. }
  destruct fuel as [|fuel]; simpl in Hf; [lia|].
  change (escape (c :: name)) with (BACKSLASH :: c :: escape name). cbn [tokenize_from].
  rewrite N.eqb_refl, IH by lia. unfold push_literal. cbn [encode_utf16 flat_map].
  by rewrite map_app, app_assoc.
Qed.

Lemma encode_utf16_nil name : encode_utf16 name = [] → name = [].
Proof.
  destruct name as [|c name]; [done|]. cbn [encode_utf16 flat_map]. unfold char_utf16.
  by destruct (c <? 0x10000)%N.
Qed.

Lemma last_escape name c : last (escape name) = Some c → last name = Some c.
Proof.
  induction name as [|d name _] using rev_ind; [done|]. unfold escape. rewrite flat_map_app.
  cbn [flat_map app]. change [BACKSLASH; d] with ([BACKSLASH] ++ [d]).
  by rewrite app_assoc, !last_snoc.
Qed.

Lemma escape_no_slash name : SLASH ∉ name → SLASH ∉ escape name.
Proof.
  intros H Hin. apply H. apply list_elem_of_In, in_flat_map in Hin as (c & Hc & Hs).
  destruct Hs as [?|[<-|[]]]; [done|]. by apply list_elem_of_In.
Qed.

(** Parsing answers on every line; and a name written with a backslash before each of its
    characters, spaces, marks and brackets included, compiles to a pattern that names
    exactly it, at any depth below its file. *)
Theorem escaped_name_names name :
  name ≠ [] → SLASH ∉ name →
  ∃ p, parse_pattern (escape name) = Some (Some p) ∧
    p_negated p = false ∧ directory_only p = false ∧
    ∀ v, glob (classes p) (tokens p) v ↔
      v = encode_utf16 name ∨ ∃ above, v = above ++ SLASH :: encode_utf16 name.
Proof.
  intros Hn Hs. unfold parse_pattern. rewrite trim_escape.
  assert (∃ c rest, escape name = BACKSLASH :: c :: rest) as (c & rest & E).
  { destruct name as [|c name]; [done|]. by exists c, (escape name). }
  assert (strip_suffix [SLASH] (escape name) = None) as Hsuf.
  { destruct (strip_suffix [SLASH] (escape name)) eqn:Ef; [|done].
    apply strip_suffix_Some in Ef. exfalso. apply (escape_no_slash name Hs). rewrite Ef. set_solver. }
  assert (contains_char SLASH (escape name) = false) as Hc
    by by apply contains_char_false, escape_no_slash.
  assert (strip_prefix [SLASH] (escape name) = None) as Hpre by by rewrite E.
  rewrite bool_decide_eq_false_2 by by rewrite E.
  assert (starts_with [HASH] (escape name) = false) as -> by by rewrite E.
  assert (strip_prefix [BANG] (escape name) = None) as -> by by rewrite E.
  cbn [orb]. rewrite Hsuf. rewrite bool_decide_eq_false_2 by by rewrite E.
  rewrite Hc, Hpre. cbn [default]. rewrite bool_decide_eq_false_2 by by rewrite E.
  unfold tokenize. rewrite tokenize_escape by done. cbn [fmap option_fmap option_map app].
  destruct (encode_utf16 name) as [|u us] eqn:Eu; [by apply encode_utf16_nil in Eu|].
  eexists. split_and!; [reflexivity|done|done|]. intros v.
  cbn [tokens classes map]. change (Literal u :: map Literal us) with (map Literal (u :: us)).
  cbn [glob]. setoid_rewrite glob_literals. split.
  - intros [->|(above & w & -> & ->)]; [by left|]. right. by exists above.
  - intros [->|(above & ->)]; [by left|]. right. by exists above, (u :: us).
Qed.

Lemma escaped_name_names_witness :
  ∃ p, parse_pattern (escape (lit "#a* ")) = Some (Some p) ∧
    matches_tokens (tokens p) (classes p) (encode_utf16 (lit "docs/#a* ")) = true.
Proof.
  destruct (escaped_name_names (lit "#a* ")) as (p & H & _ & _ & Hm).
  - discriminate.
  - intros H. repeat (apply elem_of_cons in H as [H|H]; [discriminate|]). inversion H.
  - exists p. split; [exact H|]. apply matches_tokens_ok, Hm. right.
    exists (encode_utf16 (lit "docs")). reflexivity.
Defined.

(** Two asterisks inside a name are single asterisks to git, which ignores neither path. *)
Definition ignores (line value : str) : bool :=
  match parse_pattern line with
  | Some (Some p) => matches_tokens (tokens p) (classes p) (encode_utf16 value)
  | _ => false
  end.

Example asterisks_inside_a_name :
  ignores (lit "/a**/b") (lit "ab") = true ∧ ignores (lit "/foo**") (lit "food/rust.rs") = true.
Proof. split; vm_compute; reflexivity. Qed.
