(* ===== verification/ShellPolicy.v ===== *)
(** * Shell permissions: [crates/mcp-shell/src/permission.rs], the word decoder of
      [bash/lower.rs] and the limits of [bash.rs]

    The policy and its patterns, the analysis of a command from its syntax tree, and the
    decision.  The tree is what tree-sitter parsed; the lowered program is an argument. *)

From Stdlib Require Import Sorting.Sorted.
From S2P Require Import Prelude PathPolicy.
Local Open Scope workcell_scope.

(** ** Words *)

Definition SQUOTE : char := 39%N.
Definition DQUOTE : char := 34%N.
Definition ESCAPE : char := 92%N.
Definition DOLLAR : char := 36%N.
Definition BACKTICK : char := 96%N.

(** The characters an unquoted static word does not have. *)
Definition dynamic_characters : str := lit "$`*?[{~()<>;&|".

(** The loop of [decode_static_word]. *)
Fixpoint decode_from (characters : str) (quote : option char) (has_word : bool) (decoded : str) :
    option str :=
  match characters with
  | [] => match quote with None => if has_word then Some decoded else None | Some _ => None end
  | c :: rest =>
      match quote with
      | None =>
          if (c =? SQUOTE)%N || (c =? DQUOTE)%N then decode_from rest (Some c) true decoded
          else if (c =? ESCAPE)%N then
            match rest with
            | [] => None
            | escaped :: rest' =>
                if (escaped =? NL)%N then decode_from rest' None has_word decoded
                else decode_from rest' None true (decoded ++ [escaped])
            end
          else if contains_char c dynamic_characters then None
          else if is_whitespace c || is_control c then None
          else decode_from rest None true (decoded ++ [c])
      | Some q =>
          if (c =? q)%N then decode_from rest None has_word decoded
          else if (q =? SQUOTE)%N then decode_from rest quote has_word (decoded ++ [c])
          else if (c =? DOLLAR)%N || (c =? BACKTICK)%N then None
          else if (c =? ESCAPE)%N then
            match rest with
            | [] => None
            | escaped :: rest' =>
                if existsb (N.eqb escaped) [DOLLAR; BACKTICK; DQUOTE; ESCAPE]
                then decode_from rest' quote has_word (decoded ++ [escaped])
                else if (escaped =? NL)%N then decode_from rest' quote has_word decoded
                else decode_from rest' quote has_word (decoded ++ [ESCAPE; escaped])
            end
          else decode_from rest quote has_word (decoded ++ [c])
      end
  end.

Definition decode_static_word (word : str) : option str := decode_from word None false [].

(** ** Whitespace *)

(** The loop of [normalize_shell_whitespace]. *)
Fixpoint normalize_from (characters : str) (quote : option char) (escaped pending_space : bool)
    (normalized : str) : str :=
  match characters with
  | [] => normalized
  | c :: rest =>
      let spaced := if pending_space then normalized ++ [SPACE] else normalized in
      if escaped then normalize_from rest quote false pending_space (normalized ++ [c])
      else if (c =? ESCAPE)%N then normalize_from rest quote true false (spaced ++ [c])
      else
        match quote with
        | None =>
            if (c =? SQUOTE)%N || (c =? DQUOTE)%N
            then normalize_from rest (Some c) false false (spaced ++ [c])
            else if is_whitespace c
            then normalize_from rest None false (negb (bool_decide (normalized = []))) normalized
            else normalize_from rest None false false (spaced ++ [c])
        | Some active =>
            if (active =? c)%N then normalize_from rest None false pending_space (normalized ++ [c])
            else normalize_from rest quote false false (spaced ++ [c])
        end
  end.

Definition normalize_shell_whitespace (source : str) : str :=
  normalize_from (trim source) None false false [].

(** ** The policy *)

Inductive DefaultDecision : Type := Allow | Deny.

#[export] Instance DefaultDecision_eq_dec : EqDecision DefaultDecision.
Proof. solve_decision. Defined.

Record PolicyDocument := {
  version : N; doc_default : DefaultDecision; doc_allow : list str; doc_deny : list str;
}.

Record ShellPermissionPolicy := {
  default_decision : DefaultDecision; allow : list str; deny : list str; yolo : bool;
}.

Inductive ShellPermissionPolicyError : Type :=
| FileUnavailable | TooLarge | InvalidDocument | UnsupportedVersion | UnsupportedPlatform
| TooManyPatterns | InvalidPattern.

Definition POLICY_VERSION : N := 1.
Definition MAX_POLICY_BYTES : N := 65536.
Definition MAX_PATTERNS : nat := 256.
Definition MAX_PATTERN_BYTES : nat := 512.

Definition restricted : ShellPermissionPolicy :=
  {| default_decision := Deny; allow := []; deny := []; yolo := false |}.

Definition yolo_policy : ShellPermissionPolicy :=
  {| default_decision := Deny; allow := []; deny := []; yolo := true |}.

Definition ASTERISK : char := 42%N.

Definition valid_pattern (pattern : str) : bool :=
  negb (bool_decide (pattern = [])) && (str_len pattern <=? MAX_PATTERN_BYTES)%nat
  && str_eqb (trim pattern) pattern && negb (existsb is_control pattern)
  && (length (List.filter (N.eqb ASTERISK) pattern) <=? 1)%nat
  && (negb (contains_char ASTERISK pattern) || ends_with [ASTERISK] pattern).

Definition matches_text (pattern scope : str) : bool :=
  if str_eqb pattern (lit "*") || str_eqb pattern (lit "**") then true
  else
    match strip_suffix (lit " *") pattern with
    | Some prefix => str_eqb scope prefix || starts_with (prefix ++ [SPACE]) scope
    | None =>
        match strip_suffix (lit "*") pattern with
        | Some prefix => starts_with prefix scope
        | None => str_eqb scope pattern
        end
    end.

Inductive ShellWord : Type := Undecodable | LiteralWord (s : str).

Record ShellCommandScope := {
  start_byte : nat; source : str; normalized : str; permission : str; executable : str;
  arguments : option (list ShellWord);
}.

Record ShellCommandAnalysis := { scopes : list ShellCommandScope; opaque : bool }.

Definition scope_matches (pattern : str) (scope : ShellCommandScope) : bool :=
  matches_text pattern (source scope) || matches_text pattern (normalized scope).

Inductive AuthorizationError : Type := Denied (scope : str) | Required (scope : str) | Opaque.

Definition authorize_analysis (policy : ShellPermissionPolicy) (analysis : ShellCommandAnalysis) :
    Result unit AuthorizationError :=
  let named rules scope := existsb (fun pattern => scope_matches pattern scope) rules in
  match find (named (deny policy)) (scopes analysis) with
  | Some scope => Err (Denied (permission scope))
  | None =>
      if opaque analysis && negb (bool_decide (deny policy = [])) then Err Opaque
      else if yolo policy then Ok ()
      else if opaque analysis then Err Opaque
      else if bool_decide (default_decision policy = Allow) then Ok ()
      else
        match find (fun scope => negb (named (allow policy) scope)) (scopes analysis) with
        | Some scope => Err (Required (permission scope))
        | None => Ok ()
        end
  end.

(** [from_toml]; the TOML parser is a parameter. *)
Definition from_toml (toml : str → option PolicyDocument) (contents : str) (yolo : bool) :
    Result ShellPermissionPolicy ShellPermissionPolicyError :=
  if (MAX_POLICY_BYTES <? N.of_nat (str_len contents))%N then Err TooLarge
  else
    match toml contents with
    | None => Err InvalidDocument
    | Some document =>
        if negb (version document =? POLICY_VERSION)%N then Err UnsupportedVersion
        else if (MAX_PATTERNS <? length (doc_allow document) + length (doc_deny document))%nat
        then Err TooManyPatterns
        else if existsb (fun pattern => negb (valid_pattern pattern))
                  (doc_allow document ++ doc_deny document)
        then Err InvalidPattern
        else Ok {| default_decision := doc_default document; allow := doc_allow document;
                   deny := doc_deny document; yolo := yolo |}
    end.

(** An opened policy file: whether it is regular and its length, when they can be told, and
    what reading at most so many bytes as text gives. *)
Record PolicyFile := {
  pf_metadata : option (bool * N);
  pf_read : N → option str;
}.

(** [from_file], on Unix; [None] is a file that cannot be opened. *)
Definition from_file (toml : str → option PolicyDocument) (opened : option PolicyFile)
    (yolo : bool) : Result ShellPermissionPolicy ShellPermissionPolicyError :=
  match opened with
  | None => Err FileUnavailable
  | Some file =>
      match pf_metadata file with
      | None => Err InvalidDocument
      | Some (is_file, len) =>
          if negb is_file then Err InvalidDocument
          else if (MAX_POLICY_BYTES <? len)%N then Err TooLarge
          else
            match pf_read file (MAX_POLICY_BYTES + 1)%N with
            | None => Err InvalidDocument
            | Some contents =>
                if (MAX_POLICY_BYTES <? N.of_nat (str_len contents))%N then Err TooLarge
                else from_toml toml contents yolo
            end
      end
  end.

(** ** The analysis *)

(** A node of the syntax tree, with its field [name] and its named children. *)
Inductive Node : Type := MkNode {
  kind : str;
  node_start : nat;
  node_end : nat;
  name_field : option (nat * nat);
  named_children : list Node;
}.

(** What the analysis uses of a lowered command: where each word starts and its literal,
    and whether it has payloads. *)
Record BashCommand := {
  complete : bool;
  words : list (nat * option str);
  has_payloads : bool;
}.

Record BashProgram := { is_complete : bool; commands : list BashCommand }.

Definition opaque_constructs : list str :=
  map lit ["command_substitution"; "process_substitution"; "subshell"; "function_definition";
           "arithmetic_expansion"; "expansion"; "variable_assignment"]%string.

Definition is_opaque_construct (kind : str) : bool := existsb (str_eqb kind) opaque_constructs.

Definition scope_nodes : list str :=
  map lit ["command"; "declaration_command"; "unset_command"; "test_command"]%string.

Definition is_scope_node (kind : str) : bool := existsb (str_eqb kind) scope_nodes.

Definition opaque_wrappers : list str :=
  map lit ["command"; "env"; "sudo"; "doas"; "eval"; "source"; "."; "bash"; "sh"; "time";
           "coproc"]%string.

(** [Path::new(executable).file_name()], or the text itself. *)
Definition basename_of (executable : str) : str :=
  default executable (path_file_name (path_new executable)).

Definition is_opaque_wrapper (executable : str) : bool :=
  existsb (str_eqb (basename_of executable)) opaque_wrappers.

(** [source.get(a..b)] and [utf8_text]. *)
Fixpoint str_upto (n : nat) (s : str) : option str :=
  match n, s with
  | 0, _ => Some []
  | S _, [] => None
  | S _, c :: s' =>
      if (len_utf8 c <=? n)%nat then cons c <$> str_upto (n - len_utf8 c) s' else None
  end.

Definition str_range (a b : nat) (s : str) : option str :=
  if (b <? a)%nat then None
  else match str_from a s with Some rest => str_upto (b - a) rest | None => None end.

(** Where the name of a scope starts, and its raw text. *)
Definition scope_name (command : str) (node : Node) : option (nat * str) :=
  if str_eqb (kind node) (lit "command") then
    match name_field node with
    | None => None
    | Some (a, b) => (fun raw => (a, raw)) <$> str_range a b command
    end
  else
    match str_range (node_start node) (node_end node) command with
    | None => None
    | Some node_source =>
        let leading_bytes := str_len node_source - str_len (trim_start node_source) in
        let source := trim_start node_source in
        Some (node_start node + leading_bytes,
              take_while (fun c => negb (is_whitespace c)) source)
    end.

Definition command_scope (command : str) (node : Node) : option (ShellCommandScope * bool) :=
  match scope_name command node with
  | None => None
  | Some (start, raw_name) =>
      match decode_static_word raw_name with
      | None => None
      | Some exe =>
          match str_range start (node_end node) command with
          | None => None
          | Some raw_scope =>
              let src := normalize_shell_whitespace raw_scope in
              match str_from (str_len (normalize_shell_whitespace raw_name)) src with
              | None => None
              | Some tail =>
                  let basename := basename_of exe in
                  let norm :=
                    if str_eqb exe basename && str_eqb raw_name basename then src
                    else basename ++ tail in
                  Some ({| start_byte := start; source := src; normalized := norm;
                           permission := basename ++ lit " *"; executable := basename;
                           arguments := None |},
                        is_opaque_wrapper basename)
              end
          end
      end
  end.

(** The lowered command whose first word starts at an offset: a map keeps the last. *)
Definition command_at (program : BashProgram) (start : nat) : option BashCommand :=
  find (fun command => match words command with
                       | (s, _) :: _ => (s =? start)%nat
                       | [] => false
                       end) (rev (commands program)).

Definition scope_arguments (program : BashProgram) (start : nat) : option (list ShellWord) :=
  match command_at program start with
  | Some command =>
      if complete command
      then Some (map (fun w => match w.2 with Some s => LiteralWord s | None => Undecodable end)
                   (drop 1 (words command)))
      else None
  | None => None
  end.

(** What visiting one node does to the analysis. *)
Definition visit (command : str) (program : BashProgram) (node : Node)
    (analysis : ShellCommandAnalysis) : ShellCommandAnalysis :=
  let op := opaque analysis || is_opaque_construct (kind node) in
  if is_scope_node (kind node) then
    match command_scope command node with
    | Some (scope, wrapper) =>
        let scope :=
          {| start_byte := start_byte scope; source := source scope; normalized := normalized scope;
             permission := permission scope; executable := executable scope;
             arguments := scope_arguments program (start_byte scope) |} in
        {| scopes := scopes analysis ++ [scope]; opaque := op || wrapper |}
    | None => {| scopes := scopes analysis; opaque := true |}
    end
  else {| scopes := scopes analysis; opaque := op |}.

(** The loop over the stack, whose head is its top; children are pushed so that the first
    is popped first.  Each step pops a node, so their number is enough [fuel]. *)
Fixpoint visit_all (command : str) (program : BashProgram) (fuel : nat) (stack : list Node)
    (analysis : ShellCommandAnalysis) : option ShellCommandAnalysis :=
  match stack with
  | [] => Some analysis
  | node :: stack' =>
      match fuel with
      | 0 => None
      | S fuel' =>
          visit_all command program fuel' (named_children node ++ stack')
            (visit command program node analysis)
      end
  end.

Fixpoint node_count (node : Node) : nat :=
  S (sum_list_with node_count (named_children node)).

(** [sort_by_key], which is stable, and [dedup_by] on the same key. *)
Fixpoint insert_scope (scope : ShellCommandScope) (l : list ShellCommandScope) :
    list ShellCommandScope :=
  match l with
  | [] => [scope]
  | other :: l' =>
      if (start_byte scope <? start_byte other)%nat then scope :: l
      else other :: insert_scope scope l'
  end.

Definition sort_scopes (l : list ShellCommandScope) : list ShellCommandScope :=
  foldl (fun sorted scope => insert_scope scope sorted) [] l.

Fixpoint dedup_start (previous : option nat) (l : list ShellCommandScope) : list ShellCommandScope :=
  match l with
  | [] => []
  | scope :: l' =>
      if bool_decide (previous = Some (start_byte scope)) then dedup_start previous l'
      else scope :: dedup_start (Some (start_byte scope)) l'
  end.

(** [analyze_with_program] from the tree: [has_error] is the root's, [unix] the platform. *)
Definition analyze_tree (unix : bool) (command : str) (root : Node) (has_error : bool)
    (program : BashProgram) : option ShellCommandAnalysis :=
  let start :=
    {| scopes := [];
       opaque := has_error || negb unix || negb (is_complete program)
                 || existsb has_payloads (commands program) |} in
  (fun analysis =>
     let kept := dedup_start None (sort_scopes (scopes analysis)) in
     {| scopes := kept; opaque := opaque analysis || bool_decide (length kept = 0) |})
  <$> visit_all command program (node_count root) [root] start.

Inductive ShellPolicyDecision : Type := Allowed | DeniedFor (error : AuthorizationError).

(** [prepare], from what parsing and analysis gave. *)
Definition prepare (policy : ShellPermissionPolicy) (analyzed : option ShellCommandAnalysis) :
    ShellCommandAnalysis * ShellPolicyDecision :=
  match analyzed with
  | Some analysis =>
      (analysis, match authorize_analysis policy analysis with
                 | Ok _ => Allowed
                 | Err error => DeniedFor error
                 end)
  | None =>
      ({| scopes := []; opaque := true |},
       if yolo policy && bool_decide (deny policy = []) then Allowed else DeniedFor Opaque)
  end.

(** ** Words *)

(** A text in single quotes, with each single quote outside them behind a backslash. *)
Definition shell_quote (s : str) : str :=
  SQUOTE :: flat_map (fun c => if (c =? SQUOTE)%N then [SQUOTE; ESCAPE; SQUOTE; SQUOTE] else [c]) s
  ++ [SQUOTE].

(** A text quoted for the shell decodes to itself, whatever it holds. *)
Theorem decode_shell_quote s : decode_static_word (shell_quote s) = Some s.
Proof.
  unfold decode_static_word, shell_quote. cbn [decode_from].
  assert (∀ acc, decode_from (flat_map (fun c =>
    if (c =? SQUOTE)%N then [SQUOTE; ESCAPE; SQUOTE; SQUOTE] else [c]) s ++ [SQUOTE])
    (Some SQUOTE) true acc = Some (acc ++ s)) as H; [|apply (H [])].
  induction s as [|c s IH]; intros acc; [by rewrite app_nil_r|].
  cbn [flat_map]. rewrite <- app_assoc. destruct (N.eqb_spec c SQUOTE) as [->|Hc].
  - change (decode_from _ _ _ acc) with (decode_from (flat_map (fun c =>
      if (c =? SQUOTE)%N then [SQUOTE; ESCAPE; SQUOTE; SQUOTE] else [c]) s ++ [SQUOTE])
      (Some SQUOTE) true (acc ++ [SQUOTE])).
    by rewrite IH, <- app_assoc.
  - cbn [app decode_from]. destruct (N.eqb_spec c SQUOTE); [done|].
    change (SQUOTE =? SQUOTE)%N with true. cbn iota. by rewrite IH, <- app_assoc.
Qed.










(** ** The analysis covers the tree *)



























(** ** The decision *)













Definition example_shell_policy : ShellPermissionPolicy :=
  {| default_decision := Deny; allow := [lit "git *"]; deny := [lit "git push *"]; yolo := false |}.


(** A line continuation between two words is not white space to the normalization, so a
    deny rule does not see through it. *)
Example continuation_evades_a_deny_rule :
  let command := lit "git \" ++ [NL] ++ lit "push" in
  let root := MkNode (lit "program") 0 10 None
    [MkNode (lit "command") 0 10 (Some (0, 3)) [MkNode (lit "word") 6 10 None []]] in
  let program :=
    {| is_complete := true;
       commands := [{| complete := true;
                       words := [(0, Some (lit "git")); (6, Some (lit "push"))];
                       has_payloads := false |}] |} in
  match analyze_tree true command root false program with
  | Some a => authorize_analysis example_shell_policy a
  | None => Err Opaque
  end = Ok ().
Proof. vm_compute. reflexivity. Qed.
