(* ===== verification/ShellOutput.v ===== *)
(** * Process output: [crates/mcp-shell/src/output.rs]

    The tail a stream retains, and the reader that decodes a stream as it arrives and
    sends it on in events.  What the stream and the timer do is a list of [ReadEvent]s;
    whether a send is accepted is a parameter. *)

From S2P Require Import Prelude Utf8 Terminal.

(** ** The retained tail *)

Definition STREAM_CAPTURE_BYTES : nat := N.to_nat 1048576.
Definition CHUNK_BYTES : nat := N.to_nat 16384.

Record Tail := { t_bytes : list N; renderer : RowRenderer; t_truncated : bool }.

Definition Tail_default : Tail :=
  {| t_bytes := []; renderer := Terminal.new; t_truncated := false |}.

Section tail.
(** The capture size, [STREAM_CAPTURE_BYTES]. *)
Context (capture : nat).

(** The loop of [pop_front]: [n] bytes are to be added. *)
Fixpoint evict (n : nat) (bytes : list N) (truncated : bool) : list N * bool :=
  match bytes with
  | [] => ([], truncated)
  | b :: bytes' =>
      if (capture <? length bytes + n)%nat then evict n bytes' true else (bytes, truncated)
  end.

Definition append (t : Tail) (bytes : list N) : Tail :=
  match bytes with
  | [] => t
  | _ =>
      if (capture <=? length bytes)%nat
      then {| t_bytes := drop (length bytes - capture) bytes; renderer := renderer t;
              t_truncated := true |}
      else
        let '(kept, truncated) := evict (length bytes) (t_bytes t) (t_truncated t) in
        {| t_bytes := kept ++ bytes; renderer := renderer t; t_truncated := truncated |}
  end.

Definition set_renderer (t : Tail) (r : RowRenderer) : Tail :=
  {| t_bytes := t_bytes t; renderer := r; t_truncated := t_truncated t |}.

(** [Tail::push]; [None] is the exhausted fuel of the renderer, which never occurs. *)
Definition Tail_push (t : Tail) (text : str) : option Tail :=
  match Terminal.push text (renderer t) [] with
  | Some (r, rendered) => Some (append (set_renderer t r) (str_bytes rendered))
  | None => None
  end.

Definition Tail_finish (t : Tail) : Tail :=
  let '(r, rendered) := Terminal.finish (renderer t) [] in
  append (set_renderer t r) (str_bytes rendered).

Definition preview (t : Tail) (limit : nat) : str * bool :=
  let all := t_bytes t in
  let truncated := (limit <? length all)%nat in
  (from_utf8_lossy (if truncated then drop (length all - limit) all else all), truncated).

(** [text]: the preview within [usize::MAX], which no buffer exceeds. *)
Definition Tail_text (t : Tail) : str := from_utf8_lossy (t_bytes t).

Fixpoint Tail_push_all (t : Tail) (texts : list str) : option Tail :=
  match texts with
  | [] => Some t
  | text :: texts' => match Tail_push t text with Some t' => Tail_push_all t' texts' | None => None end
  end.

End tail.

(** ** The reader *)

Inductive ShellStream : Type := Stdout | Stderr.

Record OutputEvent := { stream : ShellStream; text : str; raw_bytes : nat }.

(** What one wait gives: bytes (none at the end of the stream), the idle timer, or an
    error of the reader. *)
Inductive ReadEvent : Type := Bytes (b : list N) | Idle | Failed.

Record Reader := {
  pending_bytes : list N; pending_text : str; pending_raw_bytes : nat; sent : list OutputEvent;
}.

Definition Reader_start : Reader :=
  {| pending_bytes := []; pending_text := []; pending_raw_bytes := 0; sent := [] |}.

(** [decode_available]: the text it adds, and how many bytes it consumed. *)
Definition decode_available (bytes : list N) : str * nat :=
  match from_utf8 bytes with
  | Valid decoded => (decoded, length bytes)
  | Invalid valid valid_up_to None => (valid, valid_up_to)
  | Invalid valid valid_up_to (Some error_len) =>
      let end_ := valid_up_to + error_len in
      (from_utf8_lossy (take end_ bytes), end_)
  end.

(** The text up to the last character boundary within [n] bytes, and the rest. *)
Fixpoint split_chunk (n : nat) (s : str) : str * str :=
  match s with
  | [] => ([], [])
  | c :: s' =>
      if (len_utf8 c <=? n)%nat
      then let '(chunk, rest) := split_chunk (n - len_utf8 c) s' in (c :: chunk, rest)
      else ([], s)
  end.

Section reader.
Context (strm : ShellStream).
(** [CHUNK_BYTES]. *)
Context (chunk_bytes : nat).
(** Whether the receiver still takes the n-th event. *)
Context (accepted : nat → bool).

(** [sender.send]: [false] when the receiver is gone. *)
Definition send (event_text : str) (raw : nat) (rest : str) (r : Reader) : bool * Reader :=
  if accepted (length (sent r)) then
    (true, {| pending_bytes := pending_bytes r; pending_text := rest; pending_raw_bytes := 0;
              sent := sent r ++ [{| stream := strm; text := event_text; raw_bytes := raw |}] |})
  else (false, r).

(** [emit_full_chunks]; every chunk has a character, so those are enough [fuel]. *)
Fixpoint emit_full_chunks (fuel : nat) (r : Reader) : option (bool * Reader) :=
  if (chunk_bytes <=? str_len (pending_text r))%nat then
    match fuel with
    | 0 => None
    | S fuel' =>
        let '(chunk, rest) := split_chunk chunk_bytes (pending_text r) in
        match send chunk (pending_raw_bytes r) rest r with
        | (true, r) => emit_full_chunks fuel' r
        | (false, r) => Some (false, r)
        end
    end
  else Some (true, r).

Definition emit_remainder (r : Reader) : bool * Reader :=
  match pending_text r with
  | [] => (true, r)
  | event_text => send event_text (pending_raw_bytes r) [] r
  end.

(** What the loop does with the bytes of one read. *)
Definition ingest (b : list N) (r : Reader) : Reader :=
  let bytes := pending_bytes r ++ b in
  let '(decoded, consumed) := decode_available bytes in
  {| pending_bytes := drop consumed bytes; pending_text := pending_text r ++ decoded;
     pending_raw_bytes := pending_raw_bytes r + length b; sent := sent r |}.

(** The loop: whether it reached its end, and did not return because a send failed. *)
Fixpoint read_loop (events : list ReadEvent) (r : Reader) : option (bool * Reader) :=
  match events with
  | [] | Failed :: _ | Bytes [] :: _ => Some (true, r)
  | Idle :: events' =>
      match emit_remainder r with
      | (true, r) => read_loop events' r
      | (false, r) => Some (false, r)
      end
  | Bytes b :: events' =>
      let r := ingest b r in
      match emit_full_chunks (length (pending_text r)) r with
      | Some (true, r) => read_loop events' r
      | other => other
      end
  end.

Definition read_stream (events : list ReadEvent) : option Reader :=
  match read_loop events Reader_start with
  | None => None
  | Some (false, r) => Some r
  | Some (true, r) =>
      let r :=
        match pending_bytes r with
        | [] => r
        | left_over =>
            {| pending_bytes := left_over; pending_text := pending_text r ++ from_utf8_lossy left_over;
               pending_raw_bytes := pending_raw_bytes r; sent := sent r |}
        end in
      Some (emit_remainder r).2
  end.

End reader.

(** ** The tail keeps the newest bytes *)
Section tail_theorems.
Context (capture : nat).

(** [t] retains the newest bytes of [all], all of them unless it says so. *)
Definition retains (t : Tail) (all : list N) : Prop :=
  t_bytes t = drop (length all - capture) all ∧ (t_truncated t = false → t_bytes t = all).

Lemma evict_spec n bytes tr :
  n < capture →
  evict capture n bytes tr =
    (drop (length bytes + n - capture) bytes, tr || (capture <? length bytes + n)%nat).
Proof.
  intros Hn. revert tr. induction bytes as [|b bytes IH]; intros tr; cbn [evict].
  { rewrite drop_nil. f_equal. destruct (Nat.ltb_spec capture (length (@nil N) + n)); simpl in *;
      [lia|by rewrite orb_false_r]. }
  destruct (Nat.ltb_spec capture (length (b :: bytes) + n)) as [Hlt|Hge].
  - rewrite IH. simpl in *. replace (S (length bytes + n) - capture)
      with (S (length bytes + n - capture)) by lia.
    simpl. f_equal. by rewrite orb_true_r.
  - replace (length (b :: bytes) + n - capture) with 0 by lia. by rewrite orb_false_r.
Qed.

Lemma append_retains t all bytes :
  retains t all → retains (append capture t bytes) (all ++ bytes).
Proof.
  intros [Hb Ht]. unfold append. destruct bytes as [|b bytes']; [by rewrite app_nil_r|].
  remember (b :: bytes') as new eqn:Hnew. assert (length new ≠ 0) as Hne by by rewrite Hnew.
  clear Hnew b bytes'.
  unfold retains. rewrite length_app. cbv beta iota. destruct (Nat.leb_spec capture (length new)) as [Hle|Hlt].
  - cbn [t_bytes t_truncated]. split; [|done]. rewrite drop_app.
    replace (length all + length new - capture - length all) with (length new - capture) by lia.
    by rewrite (drop_ge all) by lia.
  - rewrite evict_spec by lia. cbn [t_bytes t_truncated].
    assert (length (t_bytes t) = Nat.min (length all) capture) as Hl.
    { rewrite Hb, length_drop. lia. }
    split.
    + rewrite drop_app, Hb, drop_drop. f_equal; [f_equal; rewrite length_drop; lia|].
      by replace (length all + length new - capture - length all) with 0 by lia.
    + intros [Htr Hlen]%orb_false_iff. apply Nat.ltb_ge in Hlen.
      replace (length (t_bytes t) + length new - capture) with 0 by lia.
      by rewrite Ht.
Qed.

(** The texts rendered one by one, each into a string of its own. *)
Fixpoint rendered (r : RowRenderer) (texts : list str) : option (RowRenderer * str) :=
  match texts with
  | [] => Some (r, [])
  | text :: texts' =>
      match Terminal.push text r [] with
      | Some (r, out) =>
          match rendered r texts' with Some (r, outs) => Some (r, out ++ outs) | None => None end
      | None => None
      end
  end.

Lemma Tail_push_all_ok texts t all :
  wf (renderer t) → retains t all →
  ∃ t' out, Tail_push_all capture t texts = Some t' ∧
    rendered (renderer t) texts = Some (renderer t', out) ∧ retains t' (all ++ str_bytes out).
Proof.
  revert t all. induction texts as [|text texts IH]; intros t all Hw Hr.
  { exists t, []. by rewrite app_nil_r. }
  cbn [Tail_push_all rendered]. unfold Tail_push.
  destruct (push_loop_total _ (partial (renderer t) ++ text) (set_partial [] (renderer t)) [] (le_n _))
    as [[r1 out1] E].
  change (Terminal.push text (renderer t) [] = Some (r1, out1)) in E. rewrite E.
  assert (renderer (append capture (set_renderer t r1) (str_bytes out1)) = r1) as Hr1.
  { unfold append. destruct (str_bytes out1); [done|]. case_match; [done|].
    by destruct (evict _ _ _ _). }
  destruct (IH (append capture (set_renderer t r1) (str_bytes out1)) (all ++ str_bytes out1))
    as (t' & out & -> & Hout & Hr').
  - rewrite Hr1. by eapply wf_push.
  - by apply append_retains.
  - rewrite Hr1 in Hout. rewrite Hout. exists t', (out1 ++ out).
    by rewrite str_bytes_app, app_assoc.
Qed.
End tail_theorems.

(** Whatever is pushed, the tail of a stream retains the newest bytes of what a terminal
    would show, within its capacity, and all of them unless it says that it is truncated:
    its text is then exactly that. *)
Theorem tail_keeps_newest texts :
  ∃ t r out,
    Tail_push_all STREAM_CAPTURE_BYTES Tail_default texts = Some t ∧
    rendered Terminal.new texts = Some (r, out) ∧
    let shown := out ++ (Terminal.finish r []).2 in
    let t := Tail_finish STREAM_CAPTURE_BYTES t in
    t_bytes t = drop (str_len shown - STREAM_CAPTURE_BYTES) (str_bytes shown) ∧
    length (t_bytes t) ≤ STREAM_CAPTURE_BYTES ∧
    (t_truncated t = false → Forall (λ c, is_scalar c = true) shown → Tail_text t = shown).
Proof.
  destruct (Tail_push_all_ok STREAM_CAPTURE_BYTES texts Tail_default []) as (t & out & Ht & Ho & Hr).
  { apply wf_new. }
  { unfold retains. by rewrite drop_nil. }
  exists t, (renderer t), out. split_and!; [done|done|]. cbv zeta. unfold Tail_finish.
  destruct (Terminal.finish (renderer t) []) as [r' last] eqn:Ef. cbn [snd].
  assert (retains STREAM_CAPTURE_BYTES
    (append STREAM_CAPTURE_BYTES (set_renderer t r') (str_bytes last)) (str_bytes (out ++ last)))
    as [Hb Hall].
  { rewrite str_bytes_app. by apply append_retains. }
  rewrite length_str_bytes in Hb. split_and!; [done| |].
  - rewrite Hb, length_drop, length_str_bytes. lia.
  - intros Htr Hs. unfold Tail_text. rewrite Hall by done.
    by rewrite <- (app_nil_r (str_bytes _)), from_utf8_lossy_str, app_nil_r.
Qed.

(** ** The reader decodes the stream, however it is cut *)
Section reader_theorems.
Context (strm : ShellStream) (chunk_bytes : nat) (accepted : nat → bool).

Lemma decode_available_ok bytes decoded consumed :
  decode_available bytes = (decoded, consumed) →
  (∀ more, from_utf8_lossy (bytes ++ more)
           = decoded ++ from_utf8_lossy (drop consumed bytes ++ more)) ∧
  (decoded = [] → bytes ≠ [] → drop consumed bytes ≠ []).
Proof.
  unfold decode_available. pose proof (from_utf8_spec bytes) as H.
  destruct (from_utf8 bytes) as [s|valid upto [n|]]; cbv zeta; intros [= <- <-]; simpl in H.
  - rewrite drop_all. split; [intros more; by rewrite H|]. intros ->.
    specialize (H []). rewrite app_nil_r in H. simpl in H.
    destruct bytes as [|b bytes]; [done|]. exfalso. rewrite from_utf8_lossy_cons in H.
    by destruct (utf8_step b bytes).
  - destruct H as (pre & bad & rest & -> & <- & <- & Hn & Hl & H).
    assert (take (length pre + length bad) (pre ++ bad ++ rest) = pre ++ bad) as ->.
    { by rewrite app_assoc, <- length_app, take_app_length. }
    assert (drop (length pre + length bad) (pre ++ bad ++ rest) = rest) as ->.
    { by rewrite app_assoc, <- length_app, drop_app_length. }
    rewrite Hl. split; [|by destruct valid]. intros more. by rewrite H, <- app_assoc.
  - destruct H as (pre & rest & -> & <- & Hne & H). by rewrite drop_app_length.
Qed.

(** The invariant: [all] was read, its decoding sent, pending or still to come. *)
Definition reading (r : Reader) (all : list N) : Prop :=
  (∀ more, from_utf8_lossy (all ++ more) =
     flat_map text (sent r) ++ pending_text r ++ from_utf8_lossy (pending_bytes r ++ more)) ∧
  sum_list_with raw_bytes (sent r) + pending_raw_bytes r = length all ∧
  (pending_text r = [] → pending_bytes r = [] → pending_raw_bytes r = 0) ∧
  Forall (λ e, stream e = strm ∧ text e ≠ []) (sent r).

Lemma reading_start : reading Reader_start [].
Proof. by repeat split. Qed.

Lemma send_reading event_text rest r all ok r' :
  reading r all → pending_text r = event_text ++ rest → event_text ≠ [] →
  send strm accepted event_text (pending_raw_bytes r) rest r = (ok, r') →
  (ok = true ∧ reading r' all ∧ pending_text r' = rest ∧ pending_bytes r' = pending_bytes r) ∨
  (ok = false ∧ r' = r).
Proof.
  intros (H1 & H2 & H3 & H4) Ht Hne. unfold send. case_match; intros [= <- <-]; [left|by right].
  split_and!; [done| |done..]. unfold reading. simpl.
  rewrite flat_map_app, sum_list_with_app. simpl. split_and!; [|lia|done|].
  - intros more. by rewrite H1, Ht, app_nil_r, !app_assoc.
  - apply Forall_app. split; [done|]. by repeat constructor.
Qed.

Lemma emit_remainder_reading r all ok r' :
  reading r all → emit_remainder strm accepted r = (ok, r') →
  (ok = true ∧ reading r' all ∧ pending_text r' = [] ∧ pending_bytes r' = pending_bytes r) ∨
  (ok = false ∧ r' = r).
Proof.
  intros H. unfold emit_remainder. destruct (pending_text r) as [|c s] eqn:E.
  - intros [= <- <-]. by left.
  - apply send_reading; [done|by rewrite app_nil_r|done].
Qed.

Lemma split_chunk_app n s chunk rest : split_chunk n s = (chunk, rest) → s = chunk ++ rest.
Proof.
  revert n chunk. induction s as [|c s IH]; intros n chunk; simpl; [by intros [= <- <-]|].
  case_match; [|by intros [= <- <-]].
  destruct (split_chunk (n - len_utf8 c) s) as [chunk' rest'] eqn:E. intros [= <- <-].
  simpl. f_equal. by eapply IH.
Qed.

Lemma split_chunk_nonempty n s chunk rest :
  4 ≤ n → s ≠ [] → split_chunk n s = (chunk, rest) → chunk ≠ [].
Proof.
  destruct s as [|c s]; [done|]. intros Hn _. simpl. pose proof (len_utf8_bounds c).
  destruct (Nat.leb_spec (len_utf8 c) n); [|lia].
  destruct (split_chunk (n - len_utf8 c) s). by intros [= <- _].
Qed.

Lemma emit_full_chunks_reading fuel r all :
  4 ≤ chunk_bytes → length (pending_text r) ≤ fuel → reading r all →
  ∃ ok r', emit_full_chunks strm chunk_bytes accepted fuel r = Some (ok, r') ∧ reading r' all ∧
    (ok = false → ∃ n, accepted n = false).
Proof.
  intros Hc. revert r. induction fuel as [|fuel IH]; intros r Hf Hr; cbn [emit_full_chunks];
    destruct (Nat.leb_spec chunk_bytes (str_len (pending_text r))) as [Hle|Hgt];
    try (by exists true, r).
  - destruct (pending_text r); [simpl in Hle; lia|simpl in Hf; lia].
  - destruct (split_chunk chunk_bytes (pending_text r)) as [chunk rest] eqn:Es.
    pose proof (split_chunk_app _ _ _ _ Es) as Ht.
    assert (pending_text r ≠ []) as Hne by (intros E; rewrite E in Hle; simpl in Hle; lia).
    apply split_chunk_nonempty in Es; [|done..].
    destruct (send strm accepted chunk (pending_raw_bytes r) rest r) as [ok r'] eqn:Ese.
    destruct (send_reading chunk rest r all ok r' Hr Ht Es Ese) as [(-> & Hr' & Hp & _)|[-> ->]].
    + apply IH; [|done]. rewrite Hp. apply (f_equal length) in Ht. rewrite length_app in Ht.
      destruct chunk; [done|]. simpl in Ht. lia.
    + exists false, r. split_and!; [done..|]. intros _. exists (length (sent r)).
      unfold send in Ese. by destruct (accepted _).
Qed.

Lemma ingest_reading b r all : b ≠ [] → reading r all → reading (ingest b r) (all ++ b).
Proof.
  intros Hb (H1 & H2 & H3 & H4). unfold ingest.
  destruct (decode_available (pending_bytes r ++ b)) as [decoded consumed] eqn:E.
  apply decode_available_ok in E as [Hd Hn]. unfold reading. simpl. split_and!; [| | |done].
  - intros more. rewrite <- app_assoc, H1, (app_assoc (pending_bytes r)), Hd.
    by rewrite <- !app_assoc.
  - rewrite length_app. lia.
  - intros Ht Hp. apply app_eq_nil in Ht as [_ ->]. exfalso. apply Hn; [done| |done].
    by destruct (pending_bytes r).
Qed.

(** The bytes of the stream, up to its end or failure. *)
Fixpoint bytes_read (events : list ReadEvent) : list N :=
  match events with
  | [] | Failed :: _ | Bytes [] :: _ => []
  | Idle :: events' => bytes_read events'
  | Bytes b :: events' => b ++ bytes_read events'
  end.

Lemma read_loop_reading events r all :
  4 ≤ chunk_bytes → reading r all →
  ∃ ok r' used, read_loop strm chunk_bytes accepted events r = Some (ok, r') ∧ reading r' used ∧
    used `prefix_of` all ++ bytes_read events ∧
    (ok = true → used = all ++ bytes_read events) ∧ (ok = false → ∃ n, accepted n = false).
Proof.
  intros Hc. revert r all. induction events as [|[[|b bs]| |] events IH]; intros r all Hr;
    cbn [read_loop bytes_read].
  1, 2, 5: exists true, r, all; rewrite app_nil_r; by split_and!.
  - destruct (emit_full_chunks_reading (length (pending_text (ingest (b :: bs) r)))
      (ingest (b :: bs) r) (all ++ b :: bs)) as (ok & r1 & -> & Hr1 & Hok); [done|done| |].
    { by apply ingest_reading. }
    destruct ok.
    + destruct (IH r1 (all ++ b :: bs) Hr1) as (ok & r' & used & -> & ?). exists ok, r', used.
      by rewrite <- app_assoc in *.
    + exists false, r1, (all ++ b :: bs). split_and!; [done..| |done|auto].
      rewrite app_assoc. by eexists.
  - destruct (emit_remainder strm accepted r) as [ok r1] eqn:E.
    destruct (emit_remainder_reading r all ok r1 Hr E) as [(-> & Hr1 & _)|[-> ->]]; [by apply IH|].
    exists false, r, all. split_and!; [done..|by eexists|done|]. intros _.
    unfold emit_remainder in E. destruct (pending_text r); [done|]. unfold send in E.
    destruct (accepted (length (sent r))) eqn:Ea; [done|]. eauto.
Qed.

(** C32: However the operating system cuts a stream into reads and whenever the idle timer
    fires, the events carry the lossy decoding of the stream and charge each of its bytes
    once, as long as they are accepted, and a prefix of it otherwise; none is empty. *)
Theorem read_stream_chunk_independent events :
  4 ≤ chunk_bytes →
  ∃ r, read_stream strm chunk_bytes accepted events = Some r ∧
    Forall (λ e, stream e = strm ∧ text e ≠ []) (sent r) ∧
    flat_map text (sent r) `prefix_of` from_utf8_lossy (bytes_read events) ∧
    ((∀ n, accepted n = true) →
     flat_map text (sent r) = from_utf8_lossy (bytes_read events) ∧
     sum_list_with raw_bytes (sent r) = length (bytes_read events)).
Proof.
  intros Hc.
  destruct (read_loop_reading events Reader_start [] Hc reading_start)
    as (ok & r & used & Hl & Hr & Hu & Hall & Hno).
  unfold read_stream. rewrite Hl. simpl in Hu, Hall.
  assert (∀ r, reading r used → flat_map text (sent r) `prefix_of` from_utf8_lossy (bytes_read events))
    as Hpre.
  { intros r1 [H1 _]. destruct Hu as [more ->]. rewrite H1. by eexists. }
  destruct ok.
  2: { exists r. split_and!; [done|apply Hr|by apply Hpre|]. intros Ha.
       destruct (Hno eq_refl) as [n Hn]. by rewrite Ha in Hn. }
  rewrite <- (Hall eq_refl) in *. clear Hu Hall Hno Hl.
  match goal with |- context [emit_remainder strm accepted ?r1] => set (r' := r1) end.
  assert (from_utf8_lossy used = flat_map text (sent r') ++ pending_text r' ∧
    sum_list_with raw_bytes (sent r') + pending_raw_bytes r' = length used ∧
    (pending_text r' = [] → pending_raw_bytes r' = 0) ∧
    Forall (λ e, stream e = strm ∧ text e ≠ []) (sent r')) as (H1 & H2 & H3 & H4).
  { destruct Hr as (H1 & H2 & H3 & H4). specialize (H1 []). rewrite !app_nil_r in H1.
    subst r'. destruct (pending_bytes r) as [|b bs] eqn:Eb; simpl.
    - rewrite app_nil_r in H1. by split_and!; auto.
    - split_and!; [done..| |done]. intros [_ E]%app_eq_nil. rewrite from_utf8_lossy_cons in E.
      by destruct (utf8_step b bs). }
  clearbody r'. eexists. split; [reflexivity|]. unfold emit_remainder.
  destruct (pending_text r') as [|c s] eqn:Et; simpl.
  { rewrite app_nil_r in H1. rewrite H1, H3 in *; [|done]. split_and!; [done..|]. intros _. split; [done|lia]. }
  unfold send. destruct (accepted (length (sent r'))) eqn:Ea; simpl.
  - rewrite flat_map_app, sum_list_with_app. simpl. rewrite app_nil_r, H1. split_and!; [|done|].
    + apply Forall_app. split; [done|]. by repeat constructor.
    + intros _. split; [done|lia].
  - split_and!; [done|rewrite H1; by eexists|]. intros Ha. by rewrite Ha in Ea.
Qed.

End reader_theorems.

Lemma read_stream_chunk_independent_witness :
  ∃ r, read_stream Stdout 4 (fun _ => true)
         [Bytes [97; 0xC3]%N; Idle; Bytes [0xA9; 0xFF; 98]%N; Bytes []] = Some r ∧
    flat_map text (sent r) = [97; 0xE9; 0xFFFD; 98]%N.
Proof.
  destruct (read_stream_chunk_independent Stdout 4 (fun _ => true)
    [Bytes [97; 0xC3]%N; Idle; Bytes [0xA9; 0xFF; 98]%N; Bytes []]) as (r & H & _ & _ & Hall).
  - lia.
  - exists r. split; [exact H|]. destruct Hall as [Ht _]; [reflexivity|]. exact Ht.
Defined.

(** An ill-formed sequence stops the decoding of a read: what follows it waits for the next
    one. *)
Example rest_of_a_read_waits : decode_available [0xFF; 97; 98]%N = ([0xFFFD]%N, 1).
Proof. reflexivity. Qed.

(** Output of exactly the capacity is all retained and still reported as truncated. *)
Example exact_capacity_reports_truncation :
  let t := append 3 Tail_default [97; 98; 99]%N in
  t_bytes t = [97; 98; 99]%N ∧ t_truncated t = true.
Proof. done. Qed.
