(* ===== verification/ObjectStore.v ===== *)
(** * Object store

    [snapshot-store/src/lib.rs]: objects are staged under temporary names, and [sync]
    flushes each before it takes its own name, so that whatever a crash leaves, an object
    that has a name is complete.  Git's encodings and its hash are the library's.

    The disk is explicit: which names it holds, which bytes it has flushed, and which
    calls are to fail.  Every call logs the disk it leaves, so that a property of the log
    holds at each moment an operation can be interrupted. *)

From stdpp Require Import gmap.
From S2P Require Import Prelude Utf8 Effects.

Abbreviation ObjectId := (list N) (only parsing).

(** [gix::objs::Kind]. *)
Inductive Kind := KTree | KBlob | KCommit | KTag.
#[export] Instance Kind_eq_dec : EqDecision Kind.
Proof. solve_decision. Defined.
#[export] Instance Kind_countable : Countable Kind.
Proof.
  refine (inj_countable'
    (λ k, match k with KTree => 0 | KBlob => 1 | KCommit => 2 | KTag => 3 end%N)
    (λ n, match n with 0%N => KTree | 1%N => KBlob | 2%N => KCommit | _ => KTag end) _).
  by intros [].
Defined.

(** What gix gives: the id of an object, or none for a known collision; the bytes of a
    loose object; and what a loose object holds. *)
Class GitLib := {
  compute_hash : Kind → list N → option ObjectId;
  loose_header : Kind → N → list N;
  deflate : list N → list N;
  decode_loose : list N → option (Kind * list N);
  decode_header : list N → option (N * Kind);
}.

(** Distinct objects have distinct ids, and a loose object holds what was written. *)
Class GitLaws (GL : GitLib) := {
  hash_inj k d k' d' oid :
    compute_hash k d = Some oid → compute_hash k' d' = Some oid → k = k' ∧ d = d';
  decode_deflate k d :
    decode_loose (deflate (loose_header k (N.of_nat (length d)) ++ d)) = Some (k, d);
  header_deflate k d :
    decode_header (deflate (loose_header k (N.of_nat (length d)) ++ d)) =
      Some (N.of_nat (length d), k);
}.

Inductive StoreError :=
| Io
| Missing (oid : ObjectId)
| Corrupt (oid : ObjectId)
| Collision
| InvalidInput (what : string)
| DisjointScopes.
#[export] Instance StoreError_eq_dec : EqDecision StoreError.
Proof. solve_decision. Defined.

Record StoreOptions := { private : bool; max_object_bytes : option N }.

(** A temporary is named by its process and a counter. *)
Abbreviation Temporary := (N * N)%type (only parsing).

Record File := { content : list N; flushed : bool }.

Record Disk := {
  named : gmap ObjectId File;             (* objects/<2 digits>/<38 digits> *)
  temporaries : gmap Temporary File;      (* objects/.tmp<process>-<counter> *)
  directories : gmap N bool;              (* the fan-out directories, and whether flushed *)
  durable : gset ObjectId;                (* the names their directory has flushed *)
  top : gmap string File;                 (* the files of the store directory *)
  unreadable : gset ObjectId;             (* objects whose file cannot be read *)
  faults : list bool;                     (* whether each of the next calls fails *)
}.

(** The process and the handle of one store: [Pending] is what it staged. *)
Record Store := {
  disk : Disk;
  process : N;
  next_temporary : N;
  options : StoreOptions;
  staged : gmap ObjectId Temporary;
  fan_outs : gset N;
}.

Definition Io_ (A : Type) : Type := Eff Store Disk StoreError A.

(** One call of the file system: it fails as the disk says, leaving it as it was. *)
Definition with_faults (f : list bool) (d : Disk) : Disk :=
  {| named := named d; temporaries := temporaries d; directories := directories d;
     durable := durable d; top := top d; unreadable := unreadable d; faults := f |}.
Definition with_named (n : gmap ObjectId File) (d : Disk) : Disk :=
  {| named := n; temporaries := temporaries d; directories := directories d;
     durable := durable d; top := top d; unreadable := unreadable d; faults := faults d |}.
Definition with_temporaries (t : gmap Temporary File) (d : Disk) : Disk :=
  {| named := named d; temporaries := t; directories := directories d;
     durable := durable d; top := top d; unreadable := unreadable d; faults := faults d |}.
Definition with_directories (g : gmap N bool) (d : Disk) : Disk :=
  {| named := named d; temporaries := temporaries d; directories := g;
     durable := durable d; top := top d; unreadable := unreadable d; faults := faults d |}.
Definition with_durable (g : gset ObjectId) (d : Disk) : Disk :=
  {| named := named d; temporaries := temporaries d; directories := directories d;
     durable := g; top := top d; unreadable := unreadable d; faults := faults d |}.
Definition with_top (g : gmap string File) (d : Disk) : Disk :=
  {| named := named d; temporaries := temporaries d; directories := directories d;
     durable := durable d; top := g; unreadable := unreadable d; faults := faults d |}.

Definition with_disk (d : Disk) (s : Store) : Store :=
  {| disk := d; process := process s; next_temporary := next_temporary s;
     options := options s; staged := staged s; fan_outs := fan_outs s |}.
Definition with_pending (st : gmap ObjectId Temporary) (fo : gset N) (s : Store) : Store :=
  {| disk := disk s; process := process s; next_temporary := next_temporary s;
     options := options s; staged := st; fan_outs := fo |}.
Definition with_next (n : N) (s : Store) : Store :=
  {| disk := disk s; process := process s; next_temporary := n;
     options := options s; staged := staged s; fan_outs := fan_outs s |}.

Definition call {A} (f : Disk → Result A StoreError * Disk) : Io_ A := fun s =>
  let d := disk (world s) in
  let '(r, d') :=
    match faults d with
    | true :: rest => (Err Io, with_faults rest d)
    | _ => f (with_faults (tail (faults d)) d)
    end in
  (r, {| world := with_disk d' (world s); log := log s ++ [d'] |}).

(** Reading and changing the handle is no call. *)
Definition handle {A} (f : Store → A * Store) : Io_ A := ask None f.

Definition first_byte (oid : ObjectId) : N := hd 0%N oid.

(** ** Files *)

Definition create_dir (byte : N) : Io_ unit :=
  call (fun d =>
    (Ok tt, match directories d !! byte with
            | Some _ => d
            | None => with_directories (<[byte := false]> (directories d)) d
            end)).

(** [File::open] and [sync_all]. *)
Definition sync_file (t : Temporary) : Io_ unit :=
  call (fun d =>
    match temporaries d !! t with
    | Some f =>
        (Ok tt, with_temporaries (<[t := {| content := content f; flushed := true |}]>
                                    (temporaries d)) d)
    | None => (Err Io, d)
    end).

(** [fs::rename] of a temporary to the name of an object. *)
Definition rename (t : Temporary) (oid : ObjectId) : Io_ unit :=
  call (fun d =>
    match temporaries d !! t, directories d !! first_byte oid with
    | Some f, Some _ =>
        (Ok tt, with_named (<[oid := f]> (named d))
                  (with_temporaries (delete t (temporaries d)) d))
    | _, _ => (Err Io, d)
    end).

(** A fan-out directory, or [objects] itself, which names the fan-out directories. *)
Definition sync_directory (directory : option N) : Io_ unit :=
  call (fun d =>
    match directory with
    | Some byte =>
        match directories d !! byte with
        | Some _ =>
            (Ok tt, with_durable
                      (durable d ∪ dom (filter (λ '(oid, _), first_byte oid = byte) (named d))) d)
        | None => (Err Io, d)
        end
    | None => (Ok tt, with_directories ((λ _, true) <$> directories d) d)
    end).

(** [remove]: a file that is not there is removed already. *)
Definition remove (t : Temporary) : Io_ unit :=
  call (fun d => (Ok tt, with_temporaries (delete t (temporaries d)) d)).

(** Every removal is tried, and the first failure reported. *)
Fixpoint discard_from (first_failure : option StoreError) (ts : list Temporary) : Io_ unit :=
  match ts with
  | [] => match first_failure with Some e => throw e | None => ret tt end
  | t :: ts' =>
      (do? r := attempt (remove t) in
       discard_from
         match first_failure, r with
         | Some e, _ => Some e
         | None, Err e => Some e
         | None, Ok _ => None
         end ts')%W
  end.
Definition discard (ts : list Temporary) : Io_ unit := discard_from None ts.

Definition SYNC_WORKERS : nat := 64.

Fixpoint try_for_each {T} (work : T → Io_ unit) (items : list T) : Io_ unit :=
  match items with
  | [] => ret tt
  | item :: items' => (do? _ := work item in try_for_each work items')%W
  end.

(** [slice::chunks]. *)
Fixpoint chunks_go {T} (fuel size : nat) (items : list T) : list (list T) :=
  match fuel, items with
  | S fuel, _ :: _ => take size items :: chunks_go fuel size (drop size items)
  | _, _ => []
  end.
Definition chunks {T} (size : nat) (items : list T) : list (list T) :=
  chunks_go (length items) size items.

Definition div_ceil (a b : nat) : nat := (a + b - 1) / b.

(** The workers, in the order they are joined: a worker that cannot be spawned does
    nothing, and the outcome is the first failure. *)
Fixpoint join_workers {T} (work : T → Io_ unit) (outcome : Result unit StoreError)
    (workers : list (list T)) : Io_ unit :=
  match workers with
  | [] => lift outcome
  | chunk :: workers' =>
      (do? r := attempt (do? _ := call (fun d => (Ok tt, d)) in try_for_each work chunk) in
       join_workers work match outcome with Ok _ => r | Err _ => outcome end workers')%W
  end.

Definition for_each_parallel {T} (items : list T) (work : T → Io_ unit) : Io_ unit :=
  if length items <=? 1 then try_for_each work items
  else join_workers work (Ok tt) (chunks (div_ceil (length items) SYNC_WORKERS) items).

Definition publish (names : gmap ObjectId Temporary) (directories : gset N) : Io_ unit :=
  (if bool_decide (directories = ∅) then ret tt
   else
     do? _ := try_for_each create_dir (elements directories) in
     do? _ := for_each_parallel (map_to_list names)
                (fun '(oid, temporary) =>
                   do? _ := sync_file temporary in rename temporary oid) in
     for_each_parallel (map Some (elements directories) ++ [None]) sync_directory)%W.

Definition sync : Io_ unit :=
  (do? pending := handle (fun s => ((staged s, fan_outs s), with_pending ∅ ∅ s)) in
   let '(names, directories) := pending in
   let directories := directories ∪ set_map first_byte (dom names) in
   do? published := attempt (publish names directories) in
   match published with
   | Ok _ => ret tt
   | Err error =>
       do? _ := attempt (discard (map snd (map_to_list names))) in
       do? _ := handle (fun s => (tt, with_pending (staged s) (fan_outs s ∪ directories) s)) in
       throw error
   end)%W.

Definition abandon : Io_ unit :=
  (do? names := handle (fun s => (staged s, with_pending ∅ (fan_outs s) s)) in
   discard (map snd (map_to_list names)))%W.

Definition contains (oid : ObjectId) : Io_ bool :=
  handle (fun s =>
    if bool_decide (is_Some (staged s !! oid)) then (true, s)
    else if bool_decide (is_Some (named (disk s) !! oid))
    then (true, with_pending (staged s) ({[first_byte oid]} ∪ fan_outs s) s)
    else (false, s)).

(** The counter is never at its end: [fuel] is one more than the temporaries there are. *)
Fixpoint create_temporary_go (fuel : nat) : Io_ Temporary :=
  match fuel with
  | O => throw Io
  | S fuel =>
      (do? temporary := handle (fun s =>
         ((process s, next_temporary s), with_next (next_temporary s + 1) s)) in
       do? created := call (fun d =>
         match temporaries d !! temporary with
         | Some _ => (Ok false, d)
         | None =>
             (Ok true, with_temporaries
                         (<[temporary := {| content := []; flushed := false |}]>
                            (temporaries d)) d)
         end) in
       if created : bool then ret temporary else create_temporary_go fuel)%W
  end.
Definition create_temporary : Io_ Temporary :=
  (do? fuel := handle (fun s => (S (size (temporaries (disk s))), s)) in
   create_temporary_go fuel)%W.

(** [write_all] of bytes to an open temporary. *)
Definition write_all (t : Temporary) (bytes : list N) : Io_ unit :=
  call (fun d =>
    match temporaries d !! t with
    | Some f =>
        (Ok tt, with_temporaries
                  (<[t := {| content := content f ++ bytes; flushed := false |}]>
                     (temporaries d)) d)
    | None => (Ok tt, d)
    end).

(** ** The files of the store directory *)

Definition HEAD_CONTENT : list N := str_bytes (lit "ref: refs/heads/snapshots") ++ [NL].
Definition CONFIG_CONTENT : list N :=
  str_bytes (lit "[core]") ++ [NL; 9%N] ++ str_bytes (lit "repositoryformatversion = 0") ++
  [NL; 9%N] ++ str_bytes (lit "bare = true") ++ [NL].

Definition write_top (name : string) (bytes : list N) : Io_ unit :=
  call (fun d => (Ok tt, with_top (<[name := {| content := bytes; flushed := false |}]> (top d)) d)).

(** A file that exists is left as it is. *)
Definition create_file (name : string) (bytes : list N) : Io_ unit :=
  (do? created := call (fun d =>
     match top d !! name with
     | Some _ => (Ok false, d)
     | None =>
         (Ok true, with_top (<[name := {| content := []; flushed := false |}]> (top d)) d)
     end) in
   if created : bool then write_top name bytes else ret tt)%W.

(** [ObjectStore::open]: [objects] and [refs] are created, then the two files git needs. *)
Definition open_store (opts : StoreOptions) : Io_ unit :=
  (do? _ := call (fun d => (Ok tt, d)) in
   do? _ := call (fun d => (Ok tt, d)) in
   do? _ := create_file "HEAD" HEAD_CONTENT in
   do? _ := create_file "config" CONFIG_CONTENT in
   handle (fun s =>
     (tt, {| disk := disk s; process := process s; next_temporary := next_temporary s;
             options := opts; staged := ∅; fan_outs := ∅ |})))%W.

Definition replace_file (name temporary : string) (bytes : list N) : Io_ unit :=
  (do? _ := write_top temporary [] in
   do? _ := write_top temporary bytes in
   do? _ := call (fun d =>
     (Ok tt, with_top (<[temporary := {| content := bytes; flushed := true |}]> (top d)) d)) in
   do? _ := call (fun d =>
     match top d !! temporary with
     | Some f => (Ok tt, with_top (<[name := f]> (delete temporary (top d))) d)
     | None => (Err Io, d)
     end) in
   call (fun d => (Ok tt, d)))%W.

Section store.
Context `{GL : GitLib}.

Definition stage (kind : Kind) (data : list N) : Io_ Temporary :=
  (do? temporary := create_temporary in
   do? written :=
     attempt (write_all temporary
                (deflate (loose_header kind (N.of_nat (length data)) ++ data))) in
   match written with
   | Ok _ => ret temporary
   | Err error => do? _ := attempt (remove temporary) in throw error
   end)%W.

Record Written := { w_oid : ObjectId; w_new : bool }.

Definition write_object (kind : Kind) (data : list N) : Io_ Written :=
  (do? oid := lift (ok_or (compute_hash kind data) Collision) in
   do? found := contains oid in
   if found : bool then ret {| w_oid := oid; w_new := false |}
   else
     do? temporary := stage kind data in
     do? duplicate := handle (fun s =>
       (staged s !! oid, with_pending (<[oid := temporary]> (staged s)) (fan_outs s) s)) in
     match duplicate with
     | None => ret {| w_oid := oid; w_new := true |}
     | Some duplicate => do? _ := remove duplicate in ret {| w_oid := oid; w_new := false |}
     end)%W.

Definition write_blob (data : list N) : Io_ Written := write_object KBlob data.

Definition blob_id (data : list N) : Result ObjectId StoreError :=
  ok_or (compute_hash KBlob data) Collision.

(** ** Reading *)

(** [loose::Store::try_find], which refuses an object beyond the limit. *)
Definition try_find (s : Store) (oid : ObjectId) : Result (option (Kind * list N)) unit :=
  match named (disk s) !! oid with
  | None => Ok None
  | Some f =>
      if bool_decide (oid ∈ unreadable (disk s)) then Err tt
      else
        match decode_loose (content f) with
        | Some (kind, data) =>
            if match max_object_bytes (options s) with
               | Some limit => (limit <? N.of_nat (length data))%N
               | None => false
               end
            then Err tt else Ok (Some (kind, data))
        | None => Err tt
        end
  end.

Definition read_object (s : Store) (oid : ObjectId) (kind : Kind) :
    Result (list N) StoreError :=
  match try_find s oid with
  | Err _ => Err (Corrupt oid)
  | Ok None => Err (Missing oid)
  | Ok (Some (found, data)) =>
      if negb (bool_decide (found = kind)) || negb (bool_decide (compute_hash found data = Some oid))
      then Err (Corrupt oid)
      else Ok data
  end.

Definition read_blob (s : Store) (oid : ObjectId) : Result (list N) StoreError :=
  read_object s oid KBlob.

Definition blob_size (s : Store) (oid : ObjectId) : Result N StoreError :=
  match named (disk s) !! oid with
  | None => Err (Missing oid)
  | Some f =>
      if bool_decide (oid ∈ unreadable (disk s)) then Err (Corrupt oid)
      else
        match decode_header (content f) with
        | Some (size, KBlob) => Ok size
        | _ => Err (Corrupt oid)
        end
  end.


(** ** What a crash leaves *)

(** The file is flushed and holds the object its name says. *)
Definition stores (f : File) (oid : ObjectId) : Prop :=
  ∃ kind data, decode_loose (content f) = Some (kind, data) ∧ compute_hash kind data = Some oid.
Definition complete (oid : ObjectId) (f : File) : Prop := flushed f = true ∧ stores f oid.
Definition disk_ok (d : Disk) : Prop := map_Forall complete (named d).

(** A crash creates no name and changes no flushed file, and keeps the names that are
    durable in a directory that is; what else it does to the rest is not known. *)
Definition crash (d d' : Disk) : Prop :=
  (∀ oid f', named d' !! oid = Some f' →
     ∃ f, named d !! oid = Some f ∧ (flushed f = true → f' = f)) ∧
  (∀ oid f, named d !! oid = Some f → flushed f = true → oid ∈ durable d →
     directories d !! first_byte oid = Some true → named d' !! oid = Some f).

Definition survives (d : Disk) (oid : ObjectId) : Prop :=
  ∃ f, named d !! oid = Some f ∧ complete oid f ∧ oid ∈ durable d ∧
    directories d !! first_byte oid = Some true.

Lemma crash_complete d d' : disk_ok d → crash d d' → disk_ok d'.
Proof.
  intros Hd [H1 _] oid f' Hf'. destruct (H1 _ _ Hf') as (f & Hf & Heq).
  destruct (Hd _ _ Hf) as [Hfl Hs]. by rewrite (Heq Hfl).
Qed.

Lemma crash_survives d d' oid :
  survives d oid → crash d d' → ∃ f, named d' !! oid = Some f ∧ complete oid f.
Proof.
  intros (f & Hf & Hc & Hdur & Hdir) [_ H2]. exists f. split; [|done].
  by apply (H2 _ _ Hf (proj1 Hc) Hdur Hdir).
Qed.

(** What the handle staged is in the files it names, and will decode. *)
Definition holds (d : Disk) (t : Temporary) (oid : ObjectId) : Prop :=
  ∃ f, temporaries d !! t = Some f ∧ stores f oid.
Definition pending_ok (d : Disk) (names : gmap ObjectId Temporary) : Prop :=
  ∀ oid t, names !! oid = Some t → holds d t oid.
Definition store_ok (w : Store) : Prop := disk_ok (disk w) ∧ pending_ok (disk w) (staged w).

(** What the next [sync] that succeeds makes durable. *)
Definition promised (w : Store) (oid : ObjectId) : Prop :=
  is_Some (staged w !! oid) ∨
  (is_Some (named (disk w) !! oid) ∧ first_byte oid ∈ fan_outs w).

Lemma with_disk_id w : with_disk (disk w) w = w.
Proof. by destruct w. Qed.

Lemma with_disk_disk d d' w : with_disk d (with_disk d' w) = with_disk d w.
Proof. done. Qed.

Lemma wp_call {A} P (f : Disk → Result A StoreError * Disk) w (Q : _ → _ → Prop) :
  (∀ fl, P (with_faults fl (disk w)) ∧
     Q (Err Io) (with_disk (with_faults fl (disk w)) w)) →
  (∀ fl, P (f (with_faults fl (disk w))).2 ∧
     Q (f (with_faults fl (disk w))).1 (with_disk (f (with_faults fl (disk w))).2 w)) →
  wp P (call f) w Q.
Proof.
  intros He Hf s <-. unfold call. destruct (faults (disk (world s))) as [|[] fl] eqn:E.
  - specialize (Hf []). simpl. destruct (f _) as [r d']. simpl in *. destruct Hf.
    split; [done|]. eexists. split; [done|]. by repeat constructor.
  - destruct (He fl). simpl. split; [done|]. eexists. split; [done|]. by repeat constructor.
  - specialize (Hf fl). simpl. destruct (f _) as [r d']. simpl in *. destruct Hf.
    split; [done|]. eexists. split; [done|]. by repeat constructor.
Qed.

Lemma wp_handle {A} P (f : Store → A * Store) w (Q : _ → _ → Prop) :
  Q (Ok (f w).1) (f w).2 → wp P (handle f) w Q.
Proof. intros H. by apply wp_ask. Qed.

Lemma stores_det f oid oid' : stores f oid → stores f oid' → oid = oid'.
Proof. intros (k & d & H1 & H2) (k' & d' & H1' & H2'). congruence. Qed.

(** ** Work on many items

    [Base] holds throughout; [Todo] is what an item needs, which the work on the others
    leaves alone, and [Done] what work that succeeds achieves. *)
Section for_each.
Context {T : Type} (P : Disk → Prop) (Base : Store → Prop) (Todo Done : T → Store → Prop).
Context (work : T → Io_ unit).
Hypothesis works : ∀ x w, Base w → Todo x w →
  wp P (work x) w (λ r w', Base w' ∧ (r = Ok tt → Done x w') ∧
    ∀ y, y ≠ x → (Todo y w → Todo y w') ∧ (Done y w → Done y w')).
Hypothesis base_logged : ∀ w, Base w → P (disk w).
Hypothesis stable : ∀ fl w,
  (Base w → Base (with_disk (with_faults fl (disk w)) w)) ∧
  ∀ y, (Todo y w → Todo y (with_disk (with_faults fl (disk w)) w)) ∧
       (Done y w → Done y (with_disk (with_faults fl (disk w)) w)).

Definition worked (items : list T) (w : Store) (r : Result unit StoreError) (w' : Store) : Prop :=
  Base w' ∧ (r = Ok tt → ∀ x, x ∈ items → Done x w') ∧
  ∀ y, y ∉ items → (Todo y w → Todo y w') ∧ (Done y w → Done y w').

Lemma wp_try_for_each items w :
  NoDup items → Base w → (∀ x, x ∈ items → Todo x w) →
  wp P (try_for_each work items) w (worked items w).
Proof.
  revert w. induction items as [|x items IH]; intros w Hnd Hb Ht; cbn [try_for_each].
  { apply wp_ret. split_and!; [done|by intros _ x ?%elem_of_nil|done]. }
  apply NoDup_cons in Hnd as [Hx Hnd]. apply wp_bind.
  eapply wp_mono; [apply works; [done|apply Ht; by left]|done|].
  intros [[]|e] w1 (Hb1 & Hd & Hoth); simpl.
  - eapply wp_mono; [apply IH; [done..|]|done|].
    + intros y Hy. apply Hoth; [by intros ->|]. apply Ht. by right.
    + intros r w2 (Hb2 & Hd2 & Hoth2). split_and!; [done| |].
      * intros -> y [->|Hy]%elem_of_cons; [|by apply Hd2]. apply Hoth2; auto.
      * intros y [Hne Hni]%not_elem_of_cons. destruct (Hoth y Hne), (Hoth2 y Hni). auto.
  - split_and!; [done|done|]. intros y [Hne Hni]%not_elem_of_cons. by apply Hoth.
Qed.

Lemma wp_join_workers outcome workers w :
  NoDup (concat workers) → Base w → (∀ x, x ∈ concat workers → Todo x w) →
  wp P (join_workers work outcome workers) w (λ r w',
    (r = Ok tt → outcome = Ok tt) ∧ worked (concat workers) w r w').
Proof.
  revert outcome w. induction workers as [|chunk workers IH]; intros outcome w Hnd Hb Ht;
    cbn [join_workers concat].
  { apply wp_lift. split; [done|]. split_and!; [done|by intros _ x ?%elem_of_nil|done]. }
  apply NoDup_app in Hnd as (Hndc & Hdisj & Hnd). cbn [concat] in Ht.
  apply wp_bind, wp_attempt.
  assert (wp P (and_then (call (λ d, (Ok tt, d))) (λ _, try_for_each work chunk)) w
            (worked chunk w)) as Hrun.
  { apply wp_bind, wp_call.
    - intros fl. destruct (stable fl w) as [Hsb Hst]. split; [apply (base_logged _ (Hsb Hb))|].
      split_and!; [by apply Hsb|done|]. intros y _. apply Hst.
    - intros fl. destruct (stable fl w) as [Hsb Hst]. split; [apply (base_logged _ (Hsb Hb))|].
      simpl. eapply wp_mono; [apply wp_try_for_each; [done|by apply Hsb|]|done|].
      + intros x Hx. apply Hst, Ht, elem_of_app. by left.
      + intros r w' (Hb' & Hd & Hoth). split_and!; [done..|].
        intros y Hy. destruct (Hoth y Hy), (Hst y). auto. }
  eapply wp_mono; [apply Hrun|done|]. intros r w1 (Hb1 & Hd1 & Hoth1). simpl.
  eapply wp_mono; [apply IH; [done..|]|done|].
  - intros x Hx. apply Hoth1; [intros Hc; by apply (Hdisj x)|]. apply Ht, elem_of_app. by right.
  - intros r2 w2 [Hr2 (Hb2 & Hd2 & Hoth2)]. split.
    { intros ->. specialize (Hr2 eq_refl). by destruct outcome as [[]|]. }
    split_and!; [done| |].
    + intros -> x [Hx|Hx]%elem_of_app; [|by apply Hd2].
      assert (r = Ok tt) as -> by (specialize (Hr2 eq_refl); by destruct outcome as [[]|]).
      apply Hoth2; [by apply Hdisj|]. by apply Hd1.
    + intros y [Hn1 Hn2]%not_elem_of_app. destruct (Hoth1 y Hn1), (Hoth2 y Hn2). auto.
Qed.

Lemma concat_chunks {X} size (items : list X) : 0 < size → concat (chunks size items) = items.
Proof.
  intros Hs. unfold chunks. remember (length items) as fuel eqn:E.
  assert (length items ≤ fuel) as Hle by lia. clear E. revert items Hle.
  induction fuel as [|fuel IH]; intros [|x items] Hle; simpl in *; [done|lia|done|].
  destruct size as [|size]; [lia|]. simpl. rewrite IH by (rewrite length_drop; lia).
  by rewrite take_drop.
Qed.

Lemma wp_for_each_parallel items w :
  NoDup items → Base w → (∀ x, x ∈ items → Todo x w) →
  wp P (for_each_parallel items work) w (worked items w).
Proof.
  intros Hnd Hb Ht. unfold for_each_parallel. case_if; [by apply wp_try_for_each|].
  assert (0 < div_ceil (length items) SYNC_WORKERS) as Hpos.
  { unfold div_ceil, SYNC_WORKERS. apply Nat.div_str_pos. bool_prop. lia. }
  eapply wp_mono; [apply wp_join_workers; rewrite ?concat_chunks by done; done|done|].
  intros r w' [_ H]. by rewrite concat_chunks in H.
Qed.
End for_each.



(** ** [sync] *)

Definition same_pending (w w' : Store) : Prop :=
  staged w' = staged w ∧ fan_outs w' = fan_outs w.

Lemma wp_create_dirs w bytes :
  NoDup bytes → disk_ok (disk w) →
  wp disk_ok (try_for_each create_dir bytes) w (λ r w',
    named (disk w') = named (disk w) ∧ temporaries (disk w') = temporaries (disk w) ∧
    same_pending w w' ∧
    (r = Ok tt → ∀ b, b ∈ bytes → is_Some (directories (disk w') !! b))).
Proof.
  intros Hnd Hok.
  set (Base := λ w', named (disk w') = named (disk w) ∧
    temporaries (disk w') = temporaries (disk w) ∧ same_pending w w').
  eapply wp_mono; [apply (wp_try_for_each disk_ok Base (λ _ _, True)
    (λ b w', is_Some (directories (disk w') !! b))); [|done|done|done]|done|].
  - intros x w1 (Hn & Ht & Hp) _. unfold create_dir. apply wp_call; intros fl; simpl.
    + split; [by unfold disk_ok; simpl; rewrite Hn|]. by split_and!.
    + unfold disk_ok. destruct (directories (disk w1) !! x) eqn:E; simpl; rewrite Hn.
      * split_and!; [done..| |done]. intros _. by eauto.
      * split_and!; [done..| |].
        -- intros _. rewrite lookup_insert_eq. by eauto.
        -- intros y Hy. split; [done|]. by rewrite lookup_insert_ne by done.
  - intros r w1 ((Hn & Ht & Hp) & Hd & _). by split_and!.
Qed.

(** An object that is staged and flushed takes its name. *)
Lemma wp_name_object oid t w :
  disk_ok (disk w) → holds (disk w) t oid → is_Some (directories (disk w) !! first_byte oid) →
  wp disk_ok (and_then (sync_file t) (λ _, rename t oid)) w (λ r w',
    disk_ok (disk w') ∧ same_pending w w' ∧ directories (disk w') = directories (disk w) ∧
    (∀ o, is_Some (named (disk w) !! o) → is_Some (named (disk w') !! o)) ∧
    (r = Ok tt → is_Some (named (disk w') !! oid)) ∧
    ∀ t' o, t' ≠ t → holds (disk w) t' o → holds (disk w') t' o).
Proof.
  intros Hok (f & Hf & Hs) [b Hb]. apply wp_bind. unfold sync_file. apply wp_call; intros fl; simpl.
  { by split_and!. }
  rewrite Hf. simpl. split; [done|]. unfold rename. apply wp_call; intros fl'; simpl.
  { split; [done|]. split_and!; try done. intros t' o Hne (f' & Hf' & Hs').
    exists f'. simpl. by rewrite lookup_insert_ne by done. }
  rewrite lookup_insert_eq, Hb. simpl. assert (disk_ok
    (with_named (<[oid:={| content := content f; flushed := true |}]> (named (disk w)))
       (with_temporaries (delete t (<[t:={| content := content f; flushed := true |}]>
          (temporaries (disk w)))) (with_faults fl' (disk w))))) as Hok'.
  { intros o f0. simpl. intros [[<- <-]|[Hne Hl]]%lookup_insert_Some; [|by apply Hok].
    split; [done|]. by destruct Hs as (k & d & H1 & H2); exists k, d. }
  split; [done|]. split_and!; try done.
  - intros o Ho. destruct (decide (o = oid)) as [->|Hne];
      [rewrite lookup_insert_eq; by eauto|by rewrite lookup_insert_ne by done].
  - intros _. rewrite lookup_insert_eq. by eauto.
  - intros t' o Hne (f' & Hf' & Hs'). exists f'. split; [|done]. simpl.
    by rewrite lookup_delete_ne, lookup_insert_ne by done.
Qed.

Lemma wp_name_objects names w :
  disk_ok (disk w) → pending_ok (disk w) names →
  (∀ oid, is_Some (names !! oid) → is_Some (directories (disk w) !! first_byte oid)) →
  wp disk_ok (for_each_parallel (map_to_list names) (λ '(oid, temporary),
      and_then (sync_file temporary) (λ _, rename temporary oid))) w (λ r w',
    disk_ok (disk w') ∧ same_pending w w' ∧ directories (disk w') = directories (disk w) ∧
    (∀ o, is_Some (named (disk w) !! o) → is_Some (named (disk w') !! o)) ∧
    (r = Ok tt → ∀ oid, is_Some (names !! oid) → is_Some (named (disk w') !! oid))).
Proof.
  intros Hok Hp Hdirs.
  set (Base := λ w', disk_ok (disk w') ∧ same_pending w w' ∧
    directories (disk w') = directories (disk w) ∧
    ∀ o, is_Some (named (disk w) !! o) → is_Some (named (disk w') !! o)).
  eapply wp_mono; [apply (wp_for_each_parallel disk_ok Base
    (λ '(oid, t) w', is_Some (names !! oid) ∧ holds (disk w') t oid)
    (λ '(oid, t) w', is_Some (named (disk w') !! oid)))|done|].
  - intros [oid t] w1 (Hok1 & Hpend & Hdir & Hn) [Hin Hh].
    eapply wp_mono; [apply wp_name_object; [done|done|rewrite Hdir; by apply Hdirs]|done|].
    intros r w2 (Hok2 & Hp2 & Hdir2 & Hn2 & Hdone & Hoth). split_and!; [|done|].
    + split_and!; [done| |congruence|auto].
      destruct Hpend, Hp2. split; congruence.
    + intros [oid' t'] Hne. split; [|auto]. intros [Hi Hh']. split; [done|].
      apply Hoth; [|done]. intros ->. apply Hne. f_equal.
      destruct Hh as (f & Hf & Hs), Hh' as (f' & Hf' & Hs').
      assert (f' = f) as -> by congruence. by eapply stores_det.
  - by intros w1 (? & _).
  - intros fl w1. split; [done|]. intros [oid t]. split; done.
  - apply NoDup_map_to_list.
  - split_and!; [done|by split|done|done].
  - intros [oid t] Hin%elem_of_map_to_list. split; [by eauto|by apply Hp].
  - intros r w1 ((Hok1 & Hp1 & Hd1 & Hn1) & Hdone & _). split_and!; try done.
    intros Hr oid [t Ht]. apply (Hdone Hr (oid, t)). by apply elem_of_map_to_list.
Qed.

Lemma wp_sync_directories (dirs : gset N) w :
  disk_ok (disk w) → (∀ b, b ∈ dirs → is_Some (directories (disk w) !! b)) →
  wp disk_ok (for_each_parallel (map Some (elements dirs) ++ [None]) sync_directory) w (λ r w',
    named (disk w') = named (disk w) ∧ same_pending w w' ∧
    (r = Ok tt → ∀ oid, first_byte oid ∈ dirs → is_Some (named (disk w) !! oid) →
       survives (disk w') oid)).
Proof.
  intros Hok Hdirs.
  set (Base := λ w', named (disk w') = named (disk w) ∧ same_pending w w' ∧
    dom (directories (disk w')) = dom (directories (disk w))).
  set (Done := λ (x : option N) (w' : Store),
    match x with
    | Some b => ∀ oid, first_byte oid = b → is_Some (named (disk w) !! oid) →
        oid ∈ durable (disk w')
    | None => ∀ b, b ∈ dom (directories (disk w')) → directories (disk w') !! b = Some true
    end).
  eapply wp_mono; [apply (wp_for_each_parallel disk_ok Base
    (λ x w', from_option (λ b, is_Some (directories (disk w') !! b)) True x) Done)|done|].
  - intros x w1 (Hn & Hp & Hd) Hx. unfold sync_directory.
    apply wp_call; intros fl; unfold disk_ok; simpl.
    { rewrite Hn. split; [done|]. split_and!; done. }
    destruct x as [b|]; simpl in *.
    + destruct Hx as [fb Hfb]. rewrite Hfb. unfold Base. simpl. rewrite Hn. split_and!; try done.
      * intros _ oid Hb [f Hf]. simpl. apply elem_of_union_r, elem_of_dom. exists f.
        by apply map_lookup_filter_Some.
      * intros [b'|] Hne; split; try done. simpl. intros H oid Hb Ho.
        apply elem_of_union_l. by apply H.
    + unfold Base. simpl. rewrite Hn, dom_fmap_L. split_and!; try done.
      * intros _ b Hb. rewrite lookup_fmap. apply elem_of_dom in Hb as [v Hv].
        by rewrite Hv.
      * intros [b'|] Hne; split; try done. simpl. by rewrite lookup_fmap, fmap_is_Some.
  - intros w1 (Hn & _). unfold disk_ok. by rewrite Hn.
  - intros fl w1. split; [done|]. intros [b|]; by split.
  - apply NoDup_app. split_and!.
    + apply NoDup_fmap_2; [intros ??; congruence|apply NoDup_elements].
    + intros x Hx ->%list_elem_of_singleton. apply list_elem_of_fmap in Hx as (? & ? & _). done.
    + apply NoDup_singleton.
  - by split_and!.
  - intros x [Hx| ->%list_elem_of_singleton]%elem_of_app; [|done].
    apply list_elem_of_fmap in Hx as (b & -> & Hb). by apply Hdirs, elem_of_elements.
  - intros r w1 ((Hn & Hp & Hd) & Hdone & _). split_and!; [done|done|].
    intros Hr oid Hin Ho. assert (oid ∈ durable (disk w1)) as Hdur.
    { apply (Hdone Hr (Some (first_byte oid))); [|done|done].
      apply elem_of_app. left. by apply list_elem_of_fmap_2, elem_of_elements. }
    destruct Ho as [f Hf]. exists f. rewrite Hn. split_and!; [done|by apply Hok|done|].
    apply (Hdone Hr None); [apply elem_of_app; right; by left|].
    rewrite Hd. by apply elem_of_dom, Hdirs.
Qed.


Lemma wp_publish names (dirs : gset N) w :
  disk_ok (disk w) → pending_ok (disk w) names → set_map first_byte (dom names) ⊆ dirs →
  wp disk_ok (publish names dirs) w (λ r w',
    disk_ok (disk w') ∧ same_pending w w' ∧
    (r = Ok tt → ∀ oid, is_Some (names !! oid) ∨
       (is_Some (named (disk w) !! oid) ∧ first_byte oid ∈ dirs) → survives (disk w') oid)).
Proof.
  intros Hok Hp Hsub. unfold publish. case_bool_decide as He.
  { apply wp_ret. split_and!; [done|done|]. intros _ oid [Hi|[_ Hi]]; subst dirs; [|set_solver].
    apply elem_of_dom in Hi. set_solver. }
  assert (∀ oid, is_Some (names !! oid) → first_byte oid ∈ dirs) as Hin.
  { intros oid Hi. apply Hsub, elem_of_map. exists oid. by rewrite elem_of_dom. }
  apply wp_bind. eapply wp_mono; [by apply wp_create_dirs; [apply NoDup_elements|]|done|].
  intros [[]|e] w1 (Hn1 & Ht1 & Hp1 & Hd1); simpl; [|by unfold disk_ok; rewrite Hn1].
  specialize (Hd1 eq_refl). apply wp_bind. eapply wp_mono; [apply wp_name_objects|done|].
  { unfold disk_ok. by rewrite Hn1. }
  { intros oid t Hi. destruct (Hp _ _ Hi) as (f & Hf & Hs). exists f. by rewrite Ht1. }
  { intros oid Hi. by apply Hd1, elem_of_elements, Hin. }
  intros r2 w2 (Hok2 & Hp2 & Hd2 & Hn2 & Hall). destruct Hp1 as [Hs1 Hf1], Hp2 as [Hs2 Hf2].
  destruct r2 as [[]|e]; [|by split_and!; [|split; congruence|]].
  specialize (Hall eq_refl). eapply wp_mono; [apply (wp_sync_directories dirs)|done|].
  { done. }
  { intros b Hb. rewrite Hd2. by apply Hd1, elem_of_elements. }
  intros r3 w3 (Hn3 & [Hs3 Hf3] & Hsurv). split_and!.
  - unfold disk_ok. by rewrite Hn3.
  - split; congruence.
  - intros Hr oid [Hi|[Hi Hb]]; apply (Hsurv Hr); auto. apply Hn2. by rewrite Hn1.
Qed.

Lemma wp_remove t w :
  disk_ok (disk w) → wp disk_ok (remove t) w (λ r w',
    named (disk w') = named (disk w) ∧ same_pending w w' ∧
    ∀ t', t' ≠ t → temporaries (disk w') !! t' = temporaries (disk w) !! t').
Proof.
  intros Hok. unfold remove. apply wp_call; intros fl; simpl; split; try done.
  split_and!; [done..|]. intros t' Hne. by rewrite lookup_delete_ne.
Qed.

Lemma wp_discard first ts w :
  disk_ok (disk w) → wp disk_ok (discard_from first ts) w (λ _ w',
    named (disk w') = named (disk w) ∧ same_pending w w').
Proof.
  revert first w. induction ts as [|t ts IH]; intros first w Hok; cbn [discard_from].
  { destruct first; [by apply wp_throw|by apply wp_ret]. }
  apply wp_bind, wp_attempt. eapply wp_mono; [by apply wp_remove|done|].
  intros r w1 (Hn & [Hs Hf] & _). simpl. eapply wp_mono; [apply IH|done|].
  - unfold disk_ok. by rewrite Hn.
  - intros _ w2 [Hn2 [Hs2 Hf2]]. repeat split; congruence.
Qed.

Lemma wp_sync w :
  store_ok w → wp disk_ok sync w (λ r w',
    store_ok w' ∧ staged w' = ∅ ∧
    match r with
    | Ok _ => ∀ oid, promised w oid → survives (disk w') oid
    | Err _ => fan_outs w ⊆ fan_outs w'
    end).
Proof.
  intros [Hok Hp]. unfold sync. apply wp_bind, wp_handle. simpl.
  apply wp_bind, wp_attempt. eapply wp_mono; [apply wp_publish; [done|done|]|done|].
  { set_solver. }
  intros [[]|e] w1 (Hok1 & [Hs1 Hf1] & Hsurv); simpl in *.
  - apply wp_ret. split_and!; [|done|].
    + split; [done|]. rewrite Hs1. intros oid t Ht. by rewrite lookup_empty in Ht.
    + intros oid Hpr. apply (Hsurv eq_refl). destruct Hpr as [Hi|[Hi Hb]]; [by left|].
      right. split; [done|]. set_solver.
  - apply wp_bind, wp_attempt. eapply wp_mono; [by apply wp_discard|done|].
    intros r w2 [Hn2 [Hs2 Hf2]]. simpl. apply wp_bind, wp_handle. simpl. apply wp_throw.
    split_and!.
    + split; [unfold disk_ok; simpl; by rewrite Hn2|]. simpl. rewrite Hs2, Hs1.
      intros oid t Ht. by rewrite lookup_empty in Ht.
    + simpl. congruence.
    + simpl. set_solver.
Qed.

(** ** Writing *)

Lemma promised_add_named w oid oid' :
  is_Some (named (disk w) !! oid) → promised w oid' ∨ oid' = oid →
  promised (with_pending (staged w) ({[first_byte oid]} ∪ fan_outs w) w) oid'.
Proof.
  intros Ho [[Hs|[Hn Hf]]| ->]; [by left|right|right]; simpl; (split; [done|set_solver]).
Qed.

Lemma wp_contains oid w :
  store_ok w → wp disk_ok (contains oid) w (λ r w',
    store_ok w' ∧ (∀ o, promised w o → promised w' o) ∧
    ∃ found, r = Ok found ∧ (found = true → promised w' oid) ∧
      (found = false → w' = w ∧ ¬ is_Some (staged w !! oid) ∧ ¬ is_Some (named (disk w) !! oid))).
Proof.
  intros Hok. unfold contains. apply wp_handle. case_bool_decide as Hs; simpl.
  { split_and!; [done|done|]. eexists. split_and!; [done| |done]. intros _. by left. }
  case_bool_decide as Hn; simpl.
  - split_and!; [done| |].
    + intros o Hpr. apply promised_add_named; auto.
    + eexists. split_and!; [done| |done]. intros _. apply promised_add_named; auto.
  - split_and!; [done|done|]. by eexists.
Qed.

Definition temporaries_kept (w w' : Store) : Prop :=
  ∀ t f, temporaries (disk w) !! t = Some f → temporaries (disk w') !! t = Some f.

#[local] Hint Extern 0 (temporaries_kept _ _) => (intros ? ? ?; assumption) : core.

Lemma wp_create_temporary_go fuel w :
  disk_ok (disk w) → wp disk_ok (create_temporary_go fuel) w (λ r w',
    named (disk w') = named (disk w) ∧ same_pending w w' ∧ temporaries_kept w w' ∧
    ∀ t, r = Ok t → temporaries (disk w) !! t = None ∧
      temporaries (disk w') !! t = Some {| content := []; flushed := false |}).
Proof.
  revert w. induction fuel as [|fuel IH]; intros w Hok; cbn [create_temporary_go].
  { apply wp_throw. by split_and!. }
  apply wp_bind, wp_handle. simpl. apply wp_bind, wp_call; intros fl; simpl.
  { by split_and!. }
  destruct (temporaries (disk w) !! (process w, next_temporary w)) as [f|] eqn:E; simpl.
  - split; [done|]. eapply wp_mono; [by apply IH|done|]. intros r w' (Hn & Hp & Hk & Ht).
    by split_and!.
  - split; [done|]. apply wp_ret. split_and!; [done..| |].
    + intros t f Hf. simpl. rewrite lookup_insert_ne; [done|]. intros <-. congruence.
    + intros t [= <-]. simpl. by rewrite lookup_insert_eq.
Qed.

Lemma wp_create_temporary w :
  disk_ok (disk w) → wp disk_ok create_temporary w (λ r w',
    named (disk w') = named (disk w) ∧ same_pending w w' ∧ temporaries_kept w w' ∧
    ∀ t, r = Ok t → temporaries (disk w) !! t = None ∧
      temporaries (disk w') !! t = Some {| content := []; flushed := false |}).
Proof.
  intros Hok. unfold create_temporary. apply wp_bind, wp_handle. cbn [fst snd].
  by apply wp_create_temporary_go.
Qed.

(** The names the process may still try. *)
Definition taken (w : Store) : gmap Temporary File :=
  filter (λ '(t, _), t.1 = process w ∧ (next_temporary w <= t.2)%N) (temporaries (disk w)).

(** The fuel of [create_temporary] finds a free name, unless a call fails. *)
Lemma create_temporary_total s :
  faults (disk (world s)) = [] → is_ok (create_temporary s).1 = true.
Proof.
  intros Hf. unfold create_temporary.
  set (s' := {| world := world s; log := log s ++ [] |}).
  change (is_ok (create_temporary_go (S (size (temporaries (disk (world s')))))
    s').1 = true).
  assert (size (taken (world s')) < S (size (temporaries (disk (world s'))))) as Hlt.
  { apply Nat.lt_succ_r, map_size_filter. }
  assert (faults (disk (world s')) = []) as Hf' by done. clearbody s'. clear s Hf.
  revert Hlt Hf'. generalize (S (size (temporaries (disk (world s'))))) as fuel.
  intros fuel. revert s'. induction fuel as [|fuel IH]; intros s Hlt Hf; [lia|].
  cbn [create_temporary_go]. unfold and_then, handle, ask, call. simpl. rewrite Hf. simpl.
  destruct (temporaries (disk (world s)) !! (process (world s), next_temporary (world s)))
    as [f|] eqn:E; simpl; [|done].
  apply IH; [|done]. unfold taken in *. simpl in *.
  set (k := (process (world s), next_temporary (world s))) in *.
  assert (filter (λ '(t, _), t.1 = process (world s) ∧ (next_temporary (world s) + 1 <= t.2)%N)
    (temporaries (disk (world s))) ⊆ delete k (filter (λ '(t, _), t.1 = process (world s) ∧
      (next_temporary (world s) <= t.2)%N) (temporaries (disk (world s))))) as Hsub.
  { apply map_subseteq_spec. intros t f' [Ht [Hp Hle]]%map_lookup_filter_Some.
    apply lookup_delete_Some. split; [intros <-; simpl in *; lia|].
    apply map_lookup_filter_Some. split; [done|]. split; [done|lia]. }
  apply map_subseteq_size in Hsub.
  assert (is_Some (filter (λ '(t, _), t.1 = process (world s) ∧
    (next_temporary (world s) <= t.2)%N) (temporaries (disk (world s))) !! k)) as Hk.
  { exists f. apply map_lookup_filter_Some. split; [done|]. split; [done|]. simpl. lia. }
  rewrite map_size_delete_Some in Hsub by done.
  assert (size (filter (λ '(t, _), t.1 = process (world s) ∧
    (next_temporary (world s) <= t.2)%N) (temporaries (disk (world s)))) ≠ 0).
  { intros E0%map_size_empty_inv. rewrite E0, lookup_empty in Hk. by destruct Hk. }
  lia.
Qed.

Context `{!GitLaws GL}.

Lemma wp_stage kind data w :
  disk_ok (disk w) → wp disk_ok (stage kind data) w (λ r w',
    named (disk w') = named (disk w) ∧ same_pending w w' ∧ temporaries_kept w w' ∧
    ∀ t oid, r = Ok t → compute_hash kind data = Some oid → holds (disk w') t oid).
Proof.
  intros Hok. unfold stage. apply wp_bind.
  eapply wp_mono; [by apply wp_create_temporary|done|].
  intros [t|e] w1 (Hn1 & [Hs1 Hf1] & Hk1 & Ht1); [|by split_and!].
  destruct (Ht1 t eq_refl) as [Hnone Hnew].
  assert (disk_ok (disk w1)) as Hok1 by (by unfold disk_ok; rewrite Hn1).
  apply wp_bind, wp_attempt. unfold write_all. apply wp_call; intros fl; simpl.
  { split; [done|]. apply wp_bind, wp_attempt.
    eapply wp_mono; [by apply wp_remove|done|]. intros r w2 (Hn2 & [Hs2 Hf2] & Hk2). simpl in *.
    apply wp_throw. split_and!; [congruence|by split; congruence| |done].
    intros t' f Ht'. rewrite Hk2; [by apply Hk1|]. intros ->. congruence. }
  rewrite Hnew. simpl. split; [done|]. apply wp_ret. split_and!; [done|done| |].
  - intros t' f Ht'. simpl. rewrite lookup_insert_ne; [by apply Hk1|]. intros ->. congruence.
  - intros t' o [= <-] Ho. eexists. simpl. rewrite lookup_insert_eq. split; [done|].
    exists kind, data. simpl. by rewrite decode_deflate.
Qed.

Lemma holds_kept w w' t oid :
  temporaries_kept w w' → holds (disk w) t oid → holds (disk w') t oid.
Proof. intros Hk (f & Hf & Hs). exists f. auto. Qed.

Lemma wp_write_object kind data w :
  store_ok w → wp disk_ok (write_object kind data) w (λ r w',
    store_ok w' ∧ (∀ o, promised w o → promised w' o) ∧
    ∀ x, r = Ok x → compute_hash kind data = Some (w_oid x) ∧ promised w' (w_oid x)).
Proof.
  intros Hok. unfold write_object. apply wp_bind, wp_lift.
  destruct (compute_hash kind data) as [oid|] eqn:Eh; simpl; [|by split_and!].
  apply wp_bind. eapply wp_mono; [by apply wp_contains|done|].
  intros r w1 (Hok1 & Hpr1 & found & -> & Ht & Hf). destruct found.
  { apply wp_ret. split_and!; [done|done|]. intros x [= <-]. simpl. auto. }
  destruct (Hf eq_refl) as (-> & Hns & Hnn). clear Ht Hf Hpr1 Hok1. destruct Hok as [Hd Hp].
  apply wp_bind. eapply wp_mono; [by apply wp_stage|done|].
  intros [t|e] w2 (Hn2 & [Hs2 Hf2] & Hk2 & Hh2); simpl.
  2:{ split_and!; [| |done].
      - split; [by unfold disk_ok; rewrite Hn2|]. rewrite Hs2. intros o t Ho.
        eapply holds_kept; [done|]. by apply Hp.
      - intros o. unfold promised. by rewrite Hn2, Hs2, Hf2. }
  apply wp_bind, wp_handle. simpl.
  assert (staged w2 !! oid = None) as Hnone by (rewrite Hs2; by apply eq_None_not_Some).
  rewrite Hnone. apply wp_ret. split_and!.
  - split; [by unfold disk_ok; simpl; rewrite Hn2|]. simpl. intros o t'.
    intros [[<- <-]|[Hne Ho]]%lookup_insert_Some; [by apply Hh2|].
    rewrite Hs2 in Ho. eapply holds_kept; [done|]. by apply Hp.
  - intros o [Hi|[Hi Hb]]; [left|right]; simpl; [|by rewrite Hn2, Hf2].
    rewrite Hs2. destruct (decide (o = oid)) as [->|Hne];
      [rewrite lookup_insert_eq; by eauto|by rewrite lookup_insert_ne by done].
  - intros x [= <-]. simpl. split; [done|]. left. simpl. rewrite lookup_insert_eq. by eauto.
Qed.


Lemma wp_abandon w :
  store_ok w → wp disk_ok abandon w (λ _ w', store_ok w').
Proof.
  intros [Hok Hp]. unfold abandon. apply wp_bind, wp_handle. cbn [fst snd].
  eapply wp_mono; [by apply wp_discard|done|]. intros r w1 [Hn [Hs Hf]]. simpl in *. split.
  - unfold disk_ok. by rewrite Hn.
  - rewrite Hs. intros oid t Ht. by rewrite lookup_empty in Ht.
Qed.

(** ** One handle at work *)

Inductive StoreOp :=
| Write (kind : Kind) (data : list N)
| Ask (oid : ObjectId)
| Sync
| Abandon.

Definition run_op (op : StoreOp) : Io_ unit :=
  match op with
  | Write kind data => (do? _ := attempt (write_object kind data) in ret tt)%W
  | Ask oid => (do? _ := contains oid in ret tt)%W
  | Sync => (do? _ := attempt sync in ret tt)%W
  | Abandon => (do? _ := attempt abandon in ret tt)%W
  end.

Fixpoint run_ops (ops : list StoreOp) : Io_ unit :=
  match ops with
  | [] => ret tt
  | op :: ops' => (do? _ := run_op op in run_ops ops')%W
  end.

Definition only_adds (op : StoreOp) : Prop :=
  match op with Write _ _ | Ask _ => True | _ => False end.

Lemma wp_run_op op w :
  store_ok w → wp disk_ok (run_op op) w (λ r w',
    r = Ok tt ∧ store_ok w' ∧ (only_adds op → ∀ o, promised w o → promised w' o)).
Proof.
  intros Hok. destruct op as [kind data|oid| |]; simpl; apply wp_bind.
  - apply wp_attempt. eapply wp_mono; [by apply wp_write_object|done|].
    intros r w' (H1 & H2 & _). apply wp_ret. auto.
  - eapply wp_mono; [by apply wp_contains|done|].
    intros r w' (H1 & H2 & found & -> & _). apply wp_ret. auto.
  - apply wp_attempt. eapply wp_mono; [by apply wp_sync|done|].
    intros r w' (H1 & _). by apply wp_ret.
  - apply wp_attempt. eapply wp_mono; [by apply wp_abandon|done|].
    intros r w' H1. by apply wp_ret.
Qed.

Lemma wp_run_ops ops w :
  store_ok w → wp disk_ok (run_ops ops) w (λ r w',
    store_ok w' ∧ (Forall only_adds ops → ∀ o, promised w o → promised w' o)).
Proof.
  revert w. induction ops as [|op ops IH]; intros w Hok; cbn [run_ops].
  { apply wp_ret. by split. }
  apply wp_bind. eapply wp_mono; [by apply wp_run_op|done|].
  intros r w1 (-> & Hok1 & Hpr). eapply wp_mono; [by apply IH|done|].
  intros r2 w2 [Hok2 Hpr2]. split; [done|]. intros [Hop Hops]%Forall_cons. auto.
Qed.

(** C6: Wherever a crash interrupts a handle's writes, syncs and withdrawals, every object
    that has a name afterwards is whole; and what a write returned is there, as it was
    written, from the next sync that succeeds on. *)
Theorem writes_survive_crashes ops kind data adds w :
  store_ok w → Forall only_adds adds →
  let s := (run_ops ops (start w)).2 in
  let '(written, s1) := write_object kind data s in
  let s2 := (run_ops adds s1).2 in
  let '(synced, s3) := sync s2 in
  (∀ d d', d ∈ log s3 → crash d d' → disk_ok d') ∧
  ∀ x, written = Ok x → synced = Ok tt → ∀ d', crash (disk (world s3)) d' →
    ∃ f, named d' !! w_oid x = Some f ∧ decode_loose (content f) = Some (kind, data).
Proof.
  intros Hok Hadds. cbv zeta.
  destruct (wp_run_ops ops w Hok (start w) eq_refl) as ((Hok1 & _) & n1 & E1 & F1).
  set (s := (run_ops ops (start w)).2) in *.
  destruct (wp_write_object kind data _ Hok1 s eq_refl) as ((Hok2 & _ & Hx) & n2 & E2 & F2).
  destruct (write_object kind data s) as [written s1]. simpl in *.
  destruct (wp_run_ops adds _ Hok2 s1 eq_refl) as ((Hok3 & Hpr) & n3 & E3 & F3).
  set (s2 := (run_ops adds s1).2) in *.
  destruct (wp_sync _ Hok3 s2 eq_refl) as ((Hok4 & _ & Hr) & n4 & E4 & F4).
  destruct (sync s2) as [synced s3]. simpl in *. split.
  - intros d d' Hd. apply crash_complete. revert d Hd. apply Forall_forall.
    rewrite E4, E3, E2, E1. by repeat (apply Forall_app; split).
  - intros x -> -> d' Hc. destruct (Hx x eq_refl) as [Hh Hp].
    destruct (crash_survives _ _ _ (Hr _ (Hpr Hadds _ Hp)) Hc) as (f & Hf & _ & k & d & Hdec & Hh').
    exists f. split; [done|]. by destruct (hash_inj _ _ _ _ _ Hh Hh') as [-> ->].
Qed.

End store.

(** ** Example *)

Module ExampleGit.

(** A library that keeps an object under its own bytes. *)
Definition kind_byte (k : Kind) : N :=
  match k with KTree => 0 | KBlob => 1 | KCommit => 2 | KTag => 3 end%N.
Definition byte_kind (n : N) : Kind :=
  match n with 0%N => KTree | 1%N => KBlob | 2%N => KCommit | _ => KTag end.

#[export] Instance example_git : GitLib := {
  compute_hash k d := Some (kind_byte k :: d);
  loose_header k n := [kind_byte k];
  deflate bytes := bytes;
  decode_loose bytes := match bytes with k :: d => Some (byte_kind k, d) | [] => None end;
  decode_header bytes :=
    match bytes with k :: d => Some (N.of_nat (length d), byte_kind k) | [] => None end;
}.

#[export] Instance example_git_laws : GitLaws example_git.
Proof.
  split.
  - intros [] d [] d' oid; simpl; intros; by simplify_eq.
  - by intros [] d.
  - by intros [] d.
Qed.

Definition empty_disk (fl : list bool) : Disk :=
  {| named := ∅; temporaries := ∅; directories := ∅; durable := ∅; top := ∅;
     unreadable := ∅; faults := fl |}.
Definition empty_store (fl : list bool) : Store :=
  {| disk := empty_disk fl; process := 7; next_temporary := 0;
     options := {| private := true; max_object_bytes := None |}; staged := ∅; fan_outs := ∅ |}.

Lemma empty_store_ok fl : store_ok (empty_store fl).
Proof. split; [apply map_Forall_empty|]. intros oid t H. done. Qed.

(** A write, another, and a sync: the object is there after any crash. *)
Lemma writes_survive_crashes_witness :
  let '(written, s1) := write_object KBlob [9%N] (start (empty_store [])) in
  let '(synced, s3) := sync (run_ops [Write KBlob [5%N]; Ask [1; 9]%N] s1).2 in
  written = Ok {| w_oid := [1; 9]%N; w_new := true |} ∧ synced = Ok tt ∧
  ∀ d', crash (disk (world s3)) d' →
    ∃ f, named d' !! [1; 9]%N = Some f ∧ decode_loose (content f) = Some (KBlob, [9%N]).
Proof.
  assert (Forall only_adds [Write KBlob [5%N]; Ask [1; 9]%N]) as Hadds by repeat constructor.
  pose proof (writes_survive_crashes [] KBlob [9%N] _ _ (empty_store_ok []) Hadds) as H.
  cbn [run_ops ret snd] in H.
  assert ((write_object KBlob [9%N] (start (empty_store []))).1 =
    Ok {| w_oid := [1; 9]%N; w_new := true |}) as E1 by (vm_compute; reflexivity).
  assert ((sync (run_ops [Write KBlob [5%N]; Ask [1; 9]%N]
    (write_object KBlob [9%N] (start (empty_store []))).2).2).1 = Ok tt) as E2
    by (vm_compute; reflexivity).
  destruct (write_object KBlob [9%N] (start (empty_store []))) as [written s1].
  cbn [fst snd run_ops] in *. destruct (sync _) as [synced s3]. cbn [fst] in *.
  split; [exact E1|]. split; [exact E2|]. exact (proj2 H _ E1 E2).
Defined.

End ExampleGit.
