(* ===== verification/SnapshotTree.v ===== *)
(** * Snapshot trees

    [snapshot-store/src/meta.rs] and [tree.rs]: a snapshot is a tree of the files it
    captured beside the metadata of the capture.  [build] stores the entries of a capture,
    [entries] reads them back, and [changes] walks two snapshots at once.

    Paths and names are the bytes of Rust strings.  Git's encoding of a tree, its order of
    entries and the encoding of metadata are the libraries'. *)

From stdpp Require Import gmap sorting.
From S2P Require Import Prelude Utf8 Effects ObjectStore.

(** ** Metadata *)

Definition ROOT_SCOPE : list N := [46%N].
Definition META_VERSION : N := 1.

Inductive SkipReason :=
| NestedRepository | Mount | Special | Oversized | Unreadable | Unstable | Unrepresentable.
#[export] Instance SkipReason_eq_dec : EqDecision SkipReason.
Proof. solve_decision. Defined.

Record SkippedPath := { sk_path : list N; sk_reason : SkipReason }.
Record Skipped := { counts : list (SkipReason * N); samples : list SkippedPath }.

Record Meta := {
  scope : list N;
  pruned : list SkippedPath;
  exclusions : list (list N);
  skipped : Skipped;
  file_count : N;
  total_bytes : N;
}.

#[export] Instance SkippedPath_eq_dec : EqDecision SkippedPath.
Proof. solve_decision. Defined.
#[export] Instance Skipped_eq_dec : EqDecision Skipped.
Proof. solve_decision. Defined.
#[export] Instance Meta_eq_dec : EqDecision Meta.
Proof. solve_decision. Defined.

(** Whether [path] is [scope] or beneath it. *)
Definition within (scope path : list N) : bool :=
  bool_decide (scope = ROOT_SCOPE) ||
  match strip_prefix scope path with
  | Some rest => bool_decide (rest = []) || starts_with [SLASH] rest
  | None => false
  end.

Definition DOT : list N := [46%N].
Definition DOTDOT : list N := [46%N; 46%N].

Definition valid_component (component : list N) : bool :=
  negb (bool_decide (component ∈ [[]; DOT; DOTDOT])) && negb (contains_char 0%N component).

Definition valid_path (path : list N) : bool :=
  negb (bool_decide (path = [])) && forallb valid_component (split_on SLASH path).

Definition valid_scope (scope : list N) : bool :=
  bool_decide (scope = ROOT_SCOPE) || valid_path scope.

Definition uncovered (m : Meta) : list (list N) := map sk_path (pruned m) ++ exclusions m.

(** ** Entries *)

Definition FILES : list N := str_bytes (lit "files").
Definition META : list N := str_bytes (lit "meta").
Definition MAX_TREE_DEPTH : nat := 1024.
#[global] Opaque MAX_TREE_DEPTH.

Inductive EntryKind := File | Executable | Symlink.
#[export] Instance EntryKind_eq_dec : EqDecision EntryKind.
Proof. solve_decision. Defined.

Record Content := { c_kind : EntryKind; c_oid : ObjectId }.
#[export] Instance Content_eq_dec : EqDecision Content.
Proof. solve_decision. Defined.

Record Entry := { path : list N; e_content : Content }.
#[export] Instance Entry_eq_dec : EqDecision Entry.
Proof. solve_decision. Defined.

Record Change := { ch_path : list N; source : option Content; target : option Content }.
#[export] Instance Change_eq_dec : EqDecision Change.
Proof. solve_decision. Defined.

Record Changes := { chs_scope : list N; changes_of : list Change }.

(** [gix::objs::tree::EntryKind] and [Entry]. *)
Inductive Mode := MTree | MBlob | MBlobExecutable | MLink | MCommit.
#[export] Instance Mode_eq_dec : EqDecision Mode.
Proof. solve_decision. Defined.

Record TreeEntry := { mode : Mode; filename : list N; t_oid : ObjectId }.
#[export] Instance TreeEntry_eq_dec : EqDecision TreeEntry.
Proof. solve_decision. Defined.

Definition tree_kind (k : EntryKind) : Mode :=
  match k with File => MBlob | Executable => MBlobExecutable | Symlink => MLink end.

Definition tree_entry (name : list N) (kind : Mode) (oid : ObjectId) : TreeEntry :=
  {| mode := kind; filename := name; t_oid := oid |}.

(** Git's order compares names as bytes, a tree's as if it ended in a slash. *)
Definition key (t : TreeEntry) : list N :=
  filename t ++ if bool_decide (mode t = MTree) then [SLASH] else [].

(** What gix and serde give. *)
Class TreeLib := {
  sort_entries : list TreeEntry → list TreeEntry;
  encode_tree : list TreeEntry → option (list N);
  decode_tree : list N → list (option TreeEntry);
  encode_meta : N → Meta → option (list N);
  decode_meta : list N → option (N * Meta);
}.

Class TreeLaws (TL : TreeLib) := {
  sort_perm ts : sort_entries ts ≡ₚ ts;
  sort_sorted ts : StronglySorted (λ a b, bytes_cmp (key a) (key b) ≠ Gt) (sort_entries ts);
  decode_encode_tree ts bytes : encode_tree ts = Some bytes → decode_tree bytes = map Some ts;
  decode_encode_meta v m bytes : encode_meta v m = Some bytes → decode_meta bytes = Some (v, m);
}.

Record Node := { name : list N; n_oid : ObjectId; n_kind : option EntryKind }.

Definition is_tree (n : Node) : bool := match n_kind n with None => true | Some _ => false end.
Definition node_content (n : Node) : option Content :=
  (fun k => {| c_kind := k; c_oid := n_oid n |}) <$> n_kind n.

Definition join_path (prefix name : list N) : list N :=
  if bool_decide (prefix = []) then name else prefix ++ SLASH :: name.

(** [str::rsplit_once]. *)
Definition rsplit_once_char (c : N) (s : list N) : option (list N * list N) :=
  (fun i => (take i s, drop (S i) s)) <$> rfind_str [c] s.

Section trees.
Context `{GL : GitLib} `{TL : TreeLib}.

(** ** Writing *)

Definition write_tree_object (tree : list TreeEntry) : Io_ ObjectId :=
  (do? bytes := lift (ok_or (encode_tree (sort_entries tree)) (InvalidInput "tree entry name")) in
   do? written := write_object KTree bytes in
   ret (w_oid written))%W.

Fixpoint take_while_list {A} (f : A → bool) (l : list A) : list A :=
  match l with
  | [] => []
  | x :: l' => if f x then x :: take_while_list f l' else []
  end.

(** Whether a file pushed before has the name of the directory. *)
Definition clashes (directory : list N) (tree : list TreeEntry) : bool :=
  existsb (fun earlier => bool_decide (filename earlier = directory))
    (take_while_list (fun earlier => starts_with directory (filename earlier)) (rev tree)).

(** The loop of [write_tree], which takes at least one entry a turn. *)
Fixpoint tree_loop (write : list Entry → nat → Io_ ObjectId) (offset fuel : nat)
    (entries : list Entry) (tree : list TreeEntry) : Io_ ObjectId :=
  match fuel, entries with
  | S fuel, entry :: entries' =>
      let rest := drop offset (path entry) in
      match split_once_char SLASH rest with
      | None =>
          tree_loop write offset fuel entries'
            (tree ++ [tree_entry rest (tree_kind (c_kind (e_content entry)))
                        (c_oid (e_content entry))])
      | Some (directory, _) =>
          if clashes directory tree
          then throw (InvalidInput "a path is both a file and a directory")
          else
            let prefix := take (offset + length directory + 1) (path entry) in
            let inside := take_while_list (fun entry => starts_with prefix (path entry)) entries in
            (do? oid := write inside (length prefix) in
             tree_loop write offset fuel (drop (length inside) entries)
               (tree ++ [tree_entry directory MTree oid]))%W
      end
  | _, _ => write_tree_object tree
  end.

(** [remaining] is the depth that is left: [MAX_TREE_DEPTH + 1 - depth]. *)
Fixpoint write_tree (remaining : nat) (entries : list Entry) (offset : nat) : Io_ ObjectId :=
  match remaining with
  | O => throw (InvalidInput "path depth")
  | S remaining => tree_loop (write_tree remaining) offset (length entries) entries []
  end.

Fixpoint check_entries (scope : list N) (before : option (list N)) (entries : list Entry) :
    Result unit StoreError :=
  match entries with
  | [] => Ok tt
  | entry :: entries' =>
      if negb (valid_path (path entry)) || negb (within scope (path entry))
      then Err (InvalidInput "entry path")
      else if match before with
              | Some p => match bytes_cmp p (path entry) with Lt => false | _ => true end
              | None => false
              end
      then Err (InvalidInput "entry order")
      else check_entries scope (Some (path entry)) entries'
  end.

Definition build (entries : list Entry) (meta : Meta) : Io_ ObjectId :=
  (if negb (valid_scope (scope meta)) then throw (InvalidInput "snapshot scope")
   else if negb (N.of_nat (length entries) =? file_count meta)%N
   then throw (InvalidInput "file count")
   else
     do? _ := lift (check_entries (scope meta) None entries) in
     do? files := write_tree (MAX_TREE_DEPTH + 1) entries 0 in
     do? bytes := lift (ok_or (encode_meta META_VERSION meta) (InvalidInput "metadata")) in
     do? written := write_object KBlob bytes in
     write_tree_object [tree_entry FILES MTree files; tree_entry META MBlob (w_oid written)])%W.

(** ** Reading *)

Definition node_kind (m : Mode) : option (option EntryKind) :=
  match m with
  | MTree => Some None
  | MBlob => Some (Some File)
  | MBlobExecutable => Some (Some Executable)
  | MLink => Some (Some Symlink)
  | MCommit => None
  end.

(** A name is UTF-8, has no slash and is a component. *)
Definition valid_name (n : list N) : bool :=
  is_utf8 n && negb (contains_char SLASH n) && valid_path n.

Definition read_node (oid : ObjectId) (entry : option TreeEntry) : Result Node StoreError :=
  match entry with
  | None => Err (Corrupt oid)
  | Some t =>
      if valid_name (filename t) then
        match node_kind (mode t) with
        | Some kind => Ok {| name := filename t; n_oid := t_oid t; n_kind := kind |}
        | None => Err (Corrupt oid)
        end
      else Err (Corrupt oid)
  end.

Fixpoint collect_ok {A B E} (f : A → Result B E) (l : list A) : Result (list B) E :=
  match l with
  | [] => Ok []
  | x :: l' => (let? y := f x in let? ys := collect_ok f l' in Ok (y :: ys))%W
  end.

Definition read_tree (s : Store) (oid : ObjectId) : Result (list Node) StoreError :=
  (let? data := read_object s oid KTree in collect_ok (read_node oid) (decode_tree data))%W.

Definition read_meta (s : Store) (oid : ObjectId) : Result Meta StoreError :=
  (let? bytes := read_blob s oid in
   match decode_meta bytes with
   | Some (version, m) => if (version =? META_VERSION)%N then Ok m else Err (Corrupt oid)
   | None => Err (Corrupt oid)
   end)%W.

Fixpoint parts_of (id : ObjectId) (entries : list (option TreeEntry))
    (files meta : option ObjectId) : Result (ObjectId * ObjectId) StoreError :=
  match entries with
  | [] =>
      match files, meta with Some f, Some m => Ok (f, m) | _, _ => Err (Corrupt id) end
  | None :: _ => Err (Corrupt id)
  | Some t :: entries' =>
      match mode t, files, meta with
      | MTree, None, _ =>
          if bool_decide (filename t = FILES) then parts_of id entries' (Some (t_oid t)) meta
          else Err (Corrupt id)
      | MBlob, _, None =>
          if bool_decide (filename t = META) then parts_of id entries' files (Some (t_oid t))
          else Err (Corrupt id)
      | _, _, _ => Err (Corrupt id)
      end
  end.

Definition snapshot_parts (s : Store) (id : ObjectId) : Result (ObjectId * ObjectId) StoreError :=
  (let? data := read_object s id KTree in parts_of id (decode_tree data) None None)%W.

Definition snapshot_meta (s : Store) (id : ObjectId) : Result Meta StoreError :=
  (let? (_, meta) := snapshot_parts s id in read_meta s meta)%W.

Fixpoint collect_loop
    (collect : ObjectId → list N → list Entry → Result (list Entry) StoreError)
    (tree : ObjectId) (prefix : list N) (bound : N) (nodes : list Node) (entries : list Entry) :
    Result (list Entry) StoreError :=
  match nodes with
  | [] => Ok entries
  | node :: nodes' =>
      let path := join_path prefix (name node) in
      match node_content node with
      | None =>
          (let? entries := collect (n_oid node) path entries in
           collect_loop collect tree prefix bound nodes' entries)%W
      | Some content =>
          if (bound <=? N.of_nat (length entries))%N then Err (Corrupt tree)
          else collect_loop collect tree prefix bound nodes'
                 (entries ++ [{| path := path; e_content := content |}])
      end
  end.

Fixpoint collect_entries (s : Store) (remaining : nat) (bound : N) (tree : ObjectId)
    (prefix : list N) (entries : list Entry) : Result (list Entry) StoreError :=
  match remaining with
  | O => Err (Corrupt tree)
  | S remaining =>
      (let? nodes := read_tree s tree in
       collect_loop (collect_entries s remaining bound) tree prefix bound nodes entries)%W
  end.

Definition entries (s : Store) (id : ObjectId) : Result (list Entry) StoreError :=
  (let? (files, meta) := snapshot_parts s id in
   let? m := read_meta s meta in
   let? entries := collect_entries s (MAX_TREE_DEPTH + 1) (file_count m) files [] [] in
   if negb (N.of_nat (length entries) =? file_count m)%N then Err (Corrupt id)
   else Ok entries)%W.

(** ** What differs *)

(** [std::iter::successors] over [rsplit_once]: a path and what it is beneath. *)
Fixpoint ancestors_go (fuel : nat) (path : list N) : list (list N) :=
  match fuel with
  | O => []
  | S fuel =>
      path :: match rsplit_once_char SLASH path with
              | Some (parent, _) => ancestors_go fuel parent
              | None => []
              end
  end.
Definition ancestors (path : list N) : list (list N) := ancestors_go (S (length path)) path.

Record Coverage := { cov_scope : list N; cov_uncovered : list (list N) }.

Definition blocked (c : Coverage) (path : list N) : bool :=
  existsb (fun p => bool_decide (p ∈ cov_uncovered c)) (ancestors path).
Definition covers (c : Coverage) (path : list N) : bool :=
  within (cov_scope c) path && negb (blocked c path).
Definition reaches (c : Coverage) (directory : list N) : bool :=
  (within (cov_scope c) directory || within directory (cov_scope c)) && negb (blocked c directory).

(** [Option<u8>] compares with none first. *)
Definition next_cmp (a b : option N) : comparison :=
  match a, b with
  | None, None => Eq
  | None, Some _ => Lt
  | Some _, None => Gt
  | Some x, Some y => (x ?= y)%N
  end.

Definition tree_order (l r : Node) : comparison :=
  let common := Nat.min (length (name l)) (length (name r)) in
  let next (n : Node) :=
    match name n !! common with
    | Some b => Some b
    | None => if is_tree n then Some SLASH else None
    end in
  match bytes_cmp (take common (name l)) (take common (name r)) with
  | Eq => next_cmp (next l) (next r)
  | c => c
  end.

(** What the loop of [Diff::trees] takes from the two lists at each turn. *)
Fixpoint paired (ls : list Node) : list Node → list (option Node * option Node) :=
  fix go (rs : list Node) : list (option Node * option Node) :=
    match ls, rs with
    | [], [] => []
    | l :: ls', [] => (Some l, None) :: paired ls' []
    | [], r :: rs' => (None, Some r) :: go rs'
    | l :: ls', r :: rs' =>
        match tree_order l r with
        | Lt => (Some l, None) :: paired ls' rs
        | Gt => (None, Some r) :: go rs'
        | Eq => (Some l, Some r) :: paired ls' rs'
        end
    end.

Record Diff := { d_coverage : Coverage; d_bound : N; d_corrupt : ObjectId }.

Definition nodes_of (s : Store) (oid : option ObjectId) : Result (list Node) StoreError :=
  match oid with Some oid => read_tree s oid | None => Ok [] end.

Fixpoint diff_loop
    (trees : list N → option ObjectId → option ObjectId → list Change →
             Result (list Change) StoreError)
    (d : Diff) (prefix : list N) (pairs : list (option Node * option Node))
    (changes : list Change) : Result (list Change) StoreError :=
  match pairs with
  | [] => Ok changes
  | (l, r) :: pairs' =>
      match (match l with Some n => Some n | None => r end) with
      | None => Ok changes
      | Some node =>
          let path := join_path prefix (name node) in
          if is_tree node then
            if reaches (d_coverage d) path then
              (let? changes := trees path (n_oid <$> l) (n_oid <$> r) changes in
               diff_loop trees d prefix pairs' changes)%W
            else diff_loop trees d prefix pairs' changes
          else
            let l := l ≫= node_content in
            let r := r ≫= node_content in
            if bool_decide (l = r) || negb (covers (d_coverage d) path)
            then diff_loop trees d prefix pairs' changes
            else if (d_bound d <=? N.of_nat (length changes))%N
            then Err (Corrupt (d_corrupt d))
            else diff_loop trees d prefix pairs'
                   (changes ++ [{| ch_path := path; source := l; target := r |}])
      end
  end.

Fixpoint diff_trees (s : Store) (d : Diff) (remaining : nat) (prefix : list N)
    (src tgt : option ObjectId) (changes : list Change) : Result (list Change) StoreError :=
  if bool_decide (src = tgt) then Ok changes
  else
    match remaining with
    | O => Err (Corrupt (d_corrupt d))
    | S remaining =>
        (let? sources := nodes_of s src in
         let? targets := nodes_of s tgt in
         diff_loop (diff_trees s d remaining) d prefix (paired sources targets) changes)%W
    end.

Definition changes (s : Store) (src tgt : ObjectId) : Result Changes StoreError :=
  (let? (src_files, src_meta) := snapshot_parts s src in
   let? (tgt_files, tgt_meta) := snapshot_parts s tgt in
   let? src_meta := read_meta s src_meta in
   let? tgt_meta := read_meta s tgt_meta in
   let? cscope :=
     if within (scope src_meta) (scope tgt_meta) then Ok (scope tgt_meta)
     else if within (scope tgt_meta) (scope src_meta) then Ok (scope src_meta)
     else Err DisjointScopes in
   let d := {| d_coverage :=
                 {| cov_scope := cscope;
                    cov_uncovered := uncovered src_meta ++ uncovered tgt_meta |};
               d_bound := u64_sat_add (file_count src_meta) (file_count tgt_meta);
               d_corrupt := src |} in
   let? cs := diff_trees s d (MAX_TREE_DEPTH + 1) [] (Some src_files) (Some tgt_files) [] in
   Ok {| chs_scope := cscope; changes_of := cs |})%W.

End trees.

(** ** Names and keys *)

Lemma contains_char_spec c s : contains_char c s = true ↔ c ∈ s.
Proof.
  unfold contains_char. rewrite existsb_exists. setoid_rewrite N.eqb_eq. split.
  - intros (x & Hx & ->). by apply list_elem_of_In.
  - intros H. exists c. by rewrite <- list_elem_of_In.
Qed.

Lemma split_once_go c acc s :
  (fix go (acc s : list N) :=
     match s with
     | [] => None
     | d :: s' => if (d =? c)%N then Some (reverse acc, s') else go (d :: acc) s'
     end) acc s = (λ '(a, b), (reverse acc ++ a, b)) <$> split_once_char c s.
Proof.
  unfold split_once_char. revert acc. induction s as [|d s IH]; intros acc; [done|]. simpl.
  destruct (d =? c)%N; simpl; [by rewrite app_nil_r|]. rewrite IH, (IH [d]).
  destruct (split_once_char c s) as [[a b]|] eqn:E; unfold split_once_char in E; rewrite E; [|done].
  simpl. by rewrite reverse_cons, <- app_assoc.
Qed.

Lemma split_once_char_cons c d s :
  split_once_char c (d :: s) =
    if (d =? c)%N then Some ([], s) else (λ '(a, b), (d :: a, b)) <$> split_once_char c s.
Proof.
  unfold split_once_char at 1. destruct (d =? c)%N; [done|]. rewrite split_once_go.
  destruct (split_once_char c s) as [[a b]|]; done.
Qed.

Lemma split_once_char_Some c s a b :
  split_once_char c s = Some (a, b) ↔ s = a ++ c :: b ∧ c ∉ a.
Proof.
  revert a b. induction s as [|d s IH]; intros a b.
  { split; [done|]. intros [H _]. by destruct a. }
  rewrite split_once_char_cons. destruct (N.eqb_spec d c) as [->|Hne].
  - split; [intros [= <- <-]; split; [done|apply not_elem_of_nil]|].
    intros [H Hc]. destruct a as [|x a]; simplify_eq/=; [done|]. by apply not_elem_of_cons in Hc as [].
  - rewrite fmap_Some. split.
    + intros ([a' b'] & [-> Hc]%IH & [= -> ->]). split; [done|]. apply not_elem_of_cons. by split.
    + intros [H Hc]. destruct a as [|x a]; simplify_eq/=. exists (a, b). split; [|done].
      apply IH. split; [done|]. by apply not_elem_of_cons in Hc as [].
Qed.

Lemma split_once_char_None c s : split_once_char c s = None ↔ c ∉ s.
Proof.
  induction s as [|d s IH]; [split; [intros _; apply not_elem_of_nil|done]|].
  rewrite split_once_char_cons, not_elem_of_cons. destruct (N.eqb_spec d c) as [->|Hne].
  - split; [done|]. by intros [].
  - rewrite fmap_None, IH. naive_solver.
Qed.

(** The key of the entry of the root that holds a path. *)
Definition key_of (p : list N) : list N :=
  match split_once_char SLASH p with Some (d, _) => d ++ [SLASH] | None => p end.

Lemma key_of_file n : SLASH ∉ n → key_of n = n.
Proof. intros H. unfold key_of. by rewrite (proj2 (split_once_char_None _ _)). Qed.

Lemma key_of_under d p : SLASH ∉ d → key_of (d ++ SLASH :: p) = d ++ [SLASH].
Proof. intros H. unfold key_of. by rewrite (proj2 (split_once_char_Some _ _ d p)). Qed.

(** A path is its key, or is beneath it. *)
Lemma key_of_cases p :
  (SLASH ∉ p ∧ key_of p = p) ∨ ∃ d r, SLASH ∉ d ∧ p = d ++ SLASH :: r ∧ key_of p = d ++ [SLASH].
Proof.
  destruct (split_once_char SLASH p) as [[d r]|] eqn:E.
  - apply split_once_char_Some in E as [-> Hd]. right. exists d, r. by rewrite key_of_under.
  - apply split_once_char_None in E. left. by rewrite key_of_file.
Qed.

(** Paths are in the order of their keys. *)
Lemma key_order p q : bytes_lt (key_of p) (key_of q) → bytes_lt p q.
Proof.
  intros H. destruct (bytes_cmp_lt_cases _ _ H) as [(r & Hr & Hq)|Hall].
  - destruct (key_of_cases p) as [[Hp Ekp]|(d & s & Hd & -> & Ekp)].
    + rewrite Ekp in Hq. destruct (key_of_cases q) as [[_ Ekq]|(d' & s' & _ & -> & Ekq)].
      * rewrite Hq in Ekq. unfold bytes_lt. rewrite <- Ekq. by apply bytes_cmp_prefix.
      * unfold bytes_lt. change (d' ++ SLASH :: s') with (d' ++ [SLASH] ++ s').
        rewrite app_assoc, <- Ekq, Hq, <- app_assoc. apply bytes_cmp_prefix. by destruct r.
    + exfalso. rewrite Ekp in Hq. destruct (key_of_cases q) as [[Hq' Ekq]|(d' & s' & Hd' & -> & Ekq)].
      * apply Hq'. rewrite <- Ekq, Hq. apply elem_of_app. left. apply elem_of_app. right. by left.
      * rewrite Ekq, <- app_assoc in Hq. apply Hd'.
        destruct r as [|x r _] using rev_ind; [done|]. rewrite !app_assoc in Hq.
        apply app_inj_tail in Hq as [-> _]. rewrite <- app_assoc. apply elem_of_app. right. by left.
  - destruct (key_of_cases p) as [[Hp Ekp]|(d & s & Hd & Ep & Ekp)],
      (key_of_cases q) as [[Hq' Ekq]|(d' & s' & Hd' & Eq' & Ekq)];
      rewrite Ekp, Ekq in Hall; unfold bytes_lt.
    + specialize (Hall [] []). by rewrite !app_nil_r in Hall.
    + specialize (Hall [] s'). rewrite app_nil_r, <- app_assoc in Hall. by rewrite Eq'.
    + specialize (Hall s []). rewrite app_nil_r, <- app_assoc in Hall. by rewrite Ep.
    + specialize (Hall s s'). rewrite <- !app_assoc in Hall. by rewrite Ep, Eq'.
Qed.

Lemma key_order_le p q : bytes_lt p q → key_of p = key_of q ∨ bytes_lt (key_of p) (key_of q).
Proof.
  intros H. destruct (bytes_total (key_of p) (key_of q)) as [?|[?|Hgt]]; [by right|by left|].
  apply key_order in Hgt. exfalso. apply (irreflexivity bytes_lt p). by etransitivity.
Qed.

(** ** What a stored tree holds *)

Lemma sorted_impl {A} (R R' : relation A) l :
  (∀ a b, R a b → R' a b) → StronglySorted R l → StronglySorted R' l.
Proof. intros H. induction 1; constructor; [done|]. eapply Forall_impl; eauto. Qed.

Definition path_lt (a b : Entry) : Prop := bytes_lt (path a) (path b).
Definition under (d : list N) (e : Entry) : Entry :=
  {| path := d ++ SLASH :: path e; e_content := e_content e |}.

(** The entries one entry of a tree stands for. *)
Definition item (rep : ObjectId → list Entry → Prop) (t : TreeEntry) (es : list Entry) : Prop :=
  valid_name (filename t) = true ∧
  if bool_decide (mode t = MTree)
  then ∃ sub, rep (t_oid t) sub ∧ es = map (under (filename t)) sub
  else ∃ k, mode t = tree_kind k ∧
    es = [{| path := filename t; e_content := {| c_kind := k; c_oid := t_oid t |} |}].

Section represents.
Context `{GL : GitLib} `{TL : TreeLib}.

(** The tree [oid] holds [es], in objects that satisfy [P], within the depth. *)
Fixpoint represents (P : ObjectId → Prop) (remaining : nat) (oid : ObjectId) (es : list Entry) :
    Prop :=
  match remaining with
  | O => False
  | S remaining =>
      ∃ bytes ts ess, encode_tree ts = Some bytes ∧ compute_hash KTree bytes = Some oid ∧ P oid ∧
        es = concat ess ∧ StronglySorted (λ a b, bytes_lt (key a) (key b)) ts ∧
        Forall2 (item (represents P remaining)) ts ess
  end.

Lemma item_mono (R R' : ObjectId → list Entry → Prop) t es :
  (∀ o es, R o es → R' o es) → item R t es → item R' t es.
Proof. intros H [Hn Hi]. split; [done|]. case_bool_decide; naive_solver. Qed.

Lemma represents_mono (P P' : ObjectId → Prop) remaining oid es :
  (∀ o, P o → P' o) → represents P remaining oid es → represents P' remaining oid es.
Proof.
  intros HP. revert oid es. induction remaining as [|n IH]; intros oid es; [done|].
  intros (bytes & ts & ess & H1 & H2 & H3 & H4 & H5 & H6). exists bytes, ts, ess.
  split_and!; auto. eapply Forall2_impl; [done|]. intros t es'. apply item_mono, IH.
Qed.

Lemma valid_name_slash n : valid_name n = true → SLASH ∉ n.
Proof.
  unfold valid_name. rewrite !andb_true_iff, negb_true_iff. intros [[_ H] _] Hin.
  apply contains_char_spec in Hin. congruence.
Qed.

Lemma item_key R t es : item R t es → Forall (λ e, key_of (path e) = key t) es.
Proof.
  intros [Hn%valid_name_slash Hi]. unfold key. case_bool_decide.
  - destruct Hi as (sub & _ & ->). apply Forall_map, Forall_true. intros e. by apply key_of_under.
  - destruct Hi as (k & _ & ->). repeat constructor. simpl. by rewrite app_nil_r, key_of_file.
Qed.

(** The keys of the trees that come after are greater. *)
Lemma items_keys R ts ess k :
  Forall2 (item R) ts ess → Forall (λ t, bytes_lt k (key t)) ts →
  Forall (λ e, bytes_lt k (key_of (path e))) (concat ess).
Proof.
  intros Hf. induction Hf as [|t es ts ess Hi Hf IH]; [constructor|].
  intros [Hk Hks]%Forall_cons. cbn [concat]. apply Forall_app. split; [|auto].
  eapply Forall_impl; [by eapply item_key|]. by intros e ->.
Qed.

Lemma under_sorted d es :
  StronglySorted path_lt es → StronglySorted path_lt (map (under d) es).
Proof.
  induction 1 as [|e es Hs IH Hf]; [constructor|]. cbn [map]. constructor; [done|].
  apply Forall_map. eapply Forall_impl; [done|]. intros e' He.
  unfold path_lt, bytes_lt. simpl. by rewrite bytes_cmp_app.
Qed.

Lemma represents_sorted P remaining oid es :
  represents P remaining oid es → StronglySorted path_lt es.
Proof.
  revert oid es. induction remaining as [|n IH]; intros oid es; [done|].
  intros (bytes & ts & ess & _ & _ & _ & -> & Hs & Hf). clear bytes.
  induction Hf as [|t es' ts ess Hi Hf IHf]; [constructor|]. cbn [concat].
  apply StronglySorted_inv in Hs as [Hs Hlt]. apply StronglySorted_app. split_and!; [| |by apply IHf].
  - intros e1 e2 H1 H2. apply key_order. apply item_key in Hi.
    rewrite Forall_forall in Hi. rewrite (Hi _ H1).
    pose proof (items_keys _ _ _ _ Hf Hlt) as Hk. rewrite Forall_forall in Hk. auto.
  - destruct Hi as [_ Hi]. case_bool_decide.
    + destruct Hi as (sub & Hsub & ->). by apply under_sorted, (IH (t_oid t)).
    + destruct Hi as (k & _ & ->). repeat constructor.
Qed.

(** ** Writing *)

Context `{!GitLaws GL} `{!TreeLaws TL}.

Lemma sort_entries_id ts :
  StronglySorted (λ a b, bytes_lt (key a) (key b)) ts → sort_entries ts = ts.
Proof.
  intros Hs. eapply (StronglySorted_unique_strong (λ a b, bytes_cmp (key a) (key b) ≠ Gt)).
  - intros t1 t2 H1 H2 Hle Hge. rewrite sort_perm in H1.
    destruct (bytes_total (key t1) (key t2)) as [Hlt|[Heq|Hlt]].
    + exfalso. by apply Hge, bytes_cmp_gt.
    + apply list_elem_of_lookup in H1 as [i Hi], H2 as [j Hj].
      destruct (decide (i = j)) as [->|Hne]; [congruence|]. exfalso.
      assert (∀ i j t1 t2, ts !! i = Some t1 → ts !! j = Some t2 → i < j →
        bytes_lt (key t1) (key t2)) as Hord.
      { clear -Hs. induction Hs as [|t ts Hs IH Hf]; [done|]. intros [|i] [|j] t1 t2 Hi Hj Hij;
          simplify_eq/=; [lia| |lia|]; [|eapply IH; eauto; lia].
        rewrite Forall_forall in Hf. by eapply Hf, list_elem_of_lookup_2. }
      destruct (Nat.lt_total i j) as [Hij|[?|Hij]]; [|done|].
      * specialize (Hord _ _ _ _ Hi Hj Hij). rewrite Heq in Hord. by apply (irreflexivity bytes_lt) in Hord.
      * specialize (Hord _ _ _ _ Hj Hi Hij). rewrite Heq in Hord. by apply (irreflexivity bytes_lt) in Hord.
    + exfalso. by apply Hle, bytes_cmp_gt.
  - apply sort_sorted.
  - eapply sorted_impl; [|done]. intros a b H. unfold bytes_lt in H. by rewrite H.
  - apply sort_perm.
Qed.

(** Later work keeps what is promised. *)
Definition adds (w w' : Store) : Prop := store_ok w' ∧ ∀ o, promised w o → promised w' o.

Lemma wp_write_tree_object remaining ts ess w :
  store_ok w → StronglySorted (λ a b, bytes_lt (key a) (key b)) ts →
  Forall2 (item (represents (promised w) remaining)) ts ess →
  wp disk_ok (write_tree_object ts) w (λ r w', adds w w' ∧
    ∀ oid, r = Ok oid → represents (promised w') (S remaining) oid (concat ess)).
Proof.
  intros Hok Hs Hf. unfold write_tree_object. rewrite sort_entries_id by done.
  apply wp_bind, wp_lift. destruct (encode_tree ts) as [bytes|] eqn:E; simpl; [|by split_and!].
  apply wp_bind. eapply wp_mono; [by apply wp_write_object|done|].
  intros [x|e] w' (Hok' & Hp & Hx); [|by split_and!]. destruct (Hx x eq_refl) as [Hh Hpx].
  apply wp_ret. split; [by split|]. intros oid [= <-].
  exists bytes, ts, ess. split_and!; try done. eapply Forall2_impl; [done|].
  intros t es. apply item_mono. intros o es'. by apply represents_mono.
Qed.
(** Entries as a capture gives them, relative to some directory. *)
Definition relative_path (p : list N) : Prop := valid_path p = true ∧ is_utf8 p = true.
Definition relative (es : list Entry) : Prop :=
  StronglySorted path_lt es ∧ Forall (λ e, relative_path (path e)) es.

Definition at_ (pre : list N) (e : Entry) : Entry :=
  {| path := pre ++ path e; e_content := e_content e |}.

Lemma valid_path_split d p :
  SLASH ∉ d → valid_path (d ++ SLASH :: p) = true → valid_path d = true ∧ valid_path p = true.
Proof.
  intros Hd. unfold valid_path. rewrite split_on_app by done. cbn [forallb].
  rewrite !andb_true_iff, !negb_true_iff, !bool_decide_eq_false, (split_on_clean SLASH d) by done.
  intros [_ [Hc Hp]]. cbn [forallb]. rewrite Hc. split_and!; try done.
  - intros ->. done.
  - intros ->. done.
Qed.

Lemma relative_path_split d p :
  SLASH ∉ d → relative_path (d ++ SLASH :: p) → relative_path d ∧ relative_path p.
Proof.
  intros Hd [Hv Hu]. apply valid_path_split in Hv as [Hv1 Hv2]; [|done].
  apply is_utf8_wf, wf_ascii_split in Hu as [Hu1 Hu2]; [|done].
  apply is_utf8_wf in Hu1, Hu2. done.
Qed.

Lemma relative_name n : relative_path n → SLASH ∉ n → valid_name n = true.
Proof.
  intros [Hv Hu] Hn. unfold valid_name. rewrite Hv, Hu. cbn [andb]. rewrite andb_true_r.
  apply negb_true_iff, not_true_iff_false. by rewrite contains_char_spec.
Qed.

Lemma relative_inv e es :
  relative (e :: es) → relative_path (path e) ∧ relative es ∧ Forall (path_lt e) es.
Proof.
  intros [Hs Hv]. apply StronglySorted_inv in Hs as [Hs Hf]. by apply Forall_cons in Hv as [Hv Hvs].
Qed.

Lemma starts_with_slash d p :
  SLASH ∉ d → starts_with (d ++ [SLASH]) p = true ↔ ∃ r, p = d ++ SLASH :: r.
Proof.
  intros Hd. rewrite starts_with_true. split; intros [r ->]; exists r; by rewrite <- app_assoc.
Qed.

(** Entries of a directory are together, and what follows has a greater key. *)
Lemma inside_spec pre d es :
  SLASH ∉ d → relative es → Forall (λ e, ¬ bytes_lt (key_of (path e)) (d ++ [SLASH])) es →
  ∃ subs rest, es = map (under d) subs ++ rest ∧ relative subs ∧
    Forall (λ e, bytes_lt (d ++ [SLASH]) (key_of (path e))) rest ∧
    take_while_list (λ e, starts_with (pre ++ d ++ [SLASH]) (path e)) (map (at_ pre) es) =
      map (at_ (pre ++ d ++ [SLASH])) subs.
Proof.
  intros Hd Hrel Hge. induction es as [|e es IH].
  { exists [], []. by split_and!; [|split; constructor| |]. }
  apply relative_inv in Hrel as (Hv & Hrel & Hlt). apply Forall_cons in Hge as [Hge Hges].
  cbn [map take_while_list].
  assert (starts_with (pre ++ d ++ [SLASH]) (path (at_ pre e)) = starts_with (d ++ [SLASH]) (path e))
    as ->.
  { apply eq_iff_eq_true. simpl. rewrite !starts_with_true. split; intros [r Hr]; exists r.
    - rewrite <- app_assoc in Hr. by apply app_inv_head in Hr.
    - by rewrite <- app_assoc, <- Hr. }
  destruct (starts_with (d ++ [SLASH]) (path e)) eqn:E.
  - apply starts_with_slash in E as [r Hr]; [|done].
    destruct (IH Hrel Hges) as (subs & rest & -> & [Hss Hsv] & Hrest & ->).
    assert (e = under d {| path := r; e_content := e_content e |}) as He.
    { destruct e; unfold under; simpl in *. by rewrite Hr. }
    exists ({| path := r; e_content := e_content e |} :: subs), rest. cbn [map app]. split_and!.
    + by rewrite <- He.
    + apply Forall_app in Hlt as [Hlt _]. split.
      * constructor; [done|]. rewrite Forall_map in Hlt. eapply Forall_impl; [exact Hlt|].
        intros e' He'. change (bytes_lt (path e) (d ++ SLASH :: path e')) in He'.
        rewrite Hr in He'. unfold bytes_lt in He'. rewrite bytes_cmp_app in He'. exact He'.
      * constructor; [|done]. rewrite Hr in Hv. by apply relative_path_split in Hv as [].
    + done.
    + f_equal. unfold at_. simpl. by rewrite Hr, <- !app_assoc.
  - exists [], (e :: es). split_and!; [done|by split; constructor| |done].
    assert (bytes_lt (d ++ [SLASH]) (key_of (path e))) as Hk.
    { destruct (bytes_total (d ++ [SLASH]) (key_of (path e))) as [?|[Heq|?]]; [done| |done].
      exfalso. destruct (key_of_cases (path e)) as [[Hn Ek]|(d' & r & Hd' & Ep & Ek)].
      - apply Hn. rewrite <- Ek, <- Heq. apply elem_of_app. right. by left.
      - rewrite Ek in Heq. apply app_inj_tail in Heq as [<- _].
        rewrite Ep in E. rewrite (proj2 (starts_with_slash d _ Hd)) in E; [done|by eexists]. }
    constructor; [done|]. eapply Forall_impl; [exact Hlt|]. intros e' He'.
    destruct (key_order_le _ _ He') as [<-|Hlt']; [done|by etransitivity].
Qed.

Lemma file_key_lt e e' :
  SLASH ∉ path e → path_lt e e' → bytes_lt (path e) (key_of (path e')).
Proof.
  intros Hn Hlt. destruct (key_order_le _ _ Hlt) as [Heq|Hk].
  - rewrite key_of_file in Heq by done. exfalso.
    destruct (key_of_cases (path e')) as [[Hn' Ek]|(d & r & Hd & Ep & Ek)].
    + rewrite Ek in Heq. unfold path_lt in Hlt. rewrite Heq in Hlt.
      by apply (irreflexivity bytes_lt) in Hlt.
    + rewrite Ek in Heq. apply Hn. rewrite Heq. apply elem_of_app. right. by left.
  - by rewrite key_of_file in Hk.
Qed.

Lemma keys_snoc (ts : list TreeEntry) t :
  StronglySorted (λ a b, bytes_lt (key a) (key b)) ts → Forall (λ a, bytes_lt (key a) (key t)) ts →
  StronglySorted (λ a b, bytes_lt (key a) (key b)) (ts ++ [t]).
Proof.
  intros Hs Hf. apply StronglySorted_app. split_and!; [|done|repeat constructor].
  intros a b Ha ->%list_elem_of_singleton. rewrite Forall_forall in Hf. auto.
Qed.

Lemma items_promised w w' remaining ts ess :
  adds w w' → Forall2 (item (represents (promised w) remaining)) ts ess →
  Forall2 (item (represents (promised w') remaining)) ts ess.
Proof.
  intros [_ Hp] Hf. eapply Forall2_impl; [exact Hf|]. intros t es. apply item_mono.
  intros o es'. by apply represents_mono.
Qed.

Lemma adds_trans w1 w2 w3 : adds w1 w2 → adds w2 w3 → adds w1 w3.
Proof. intros [_ H1] [Hok H2]. split; auto. Qed.

(** What a written tree of relative entries comes to. *)
Definition writes (write : list Entry → nat → Io_ ObjectId) (remaining : nat) : Prop :=
  ∀ es pre w, store_ok w → relative es →
  wp disk_ok (write (map (at_ pre) es) (length pre)) w (λ r w', adds w w' ∧
    ∀ oid, r = Ok oid → represents (promised w') remaining oid es).

(** The entries of the tree so far stand before the paths that are left. *)
Definition before (ts : list TreeEntry) (es : list Entry) : Prop :=
  ∀ t e, t ∈ ts → e ∈ es → bytes_lt (key t) (key_of (path e)).

Lemma wp_tree_loop write remaining pre fuel es ts ess w :
  writes write remaining → length es ≤ fuel → store_ok w → relative es →
  StronglySorted (λ a b, bytes_lt (key a) (key b)) ts → before ts es →
  Forall2 (item (represents (promised w) remaining)) ts ess →
  wp disk_ok (tree_loop write (length pre) fuel (map (at_ pre) es) ts) w (λ r w', adds w w' ∧
    ∀ oid, r = Ok oid → represents (promised w') (S remaining) oid (concat ess ++ es)).
Proof.
  intros Hw. revert es ts ess w. induction fuel as [|fuel IH]; intros es ts ess w Hle Hok Hrel Hs Hb Hf.
  { destruct es; [|simpl in Hle; lia]. cbn [map tree_loop]. rewrite app_nil_r.
    by apply wp_write_tree_object. }
  destruct es as [|e es].
  { cbn [map tree_loop]. rewrite app_nil_r. by apply wp_write_tree_object. }
  cbn [map tree_loop]. cbn [at_ path e_content]. rewrite drop_app_length.
  destruct (relative_inv _ _ Hrel) as (Hv & Hrel' & Hlt).
  destruct (split_once_char SLASH (path e)) as [[d r]|] eqn:E.
  - apply split_once_char_Some in E as [Ep Hd]. case_if; [apply wp_throw; by split_and!|].
    assert (take (length pre + length d + 1) (pre ++ path e) = pre ++ d ++ [SLASH]) as ->.
    { rewrite Ep. replace (pre ++ d ++ SLASH :: r) with ((pre ++ d ++ [SLASH]) ++ r)
        by (by rewrite <- !app_assoc).
      rewrite take_app_length'; [done|]. rewrite !length_app. simpl. lia. }
    assert (Forall (λ e, ¬ bytes_lt (key_of (path e)) (d ++ [SLASH])) (e :: es)) as Hge.
    { rewrite <- (key_of_under d r), <- Ep by done. constructor.
      - apply (irreflexivity bytes_lt).
      - eapply Forall_impl; [exact Hlt|]. intros e' He' Hk. apply key_order in Hk.
        apply (irreflexivity bytes_lt (path e)). by etransitivity. }
    destruct (inside_spec pre d (e :: es) Hd Hrel Hge) as (subs & rest & Hes & Hsubs & Hrest & Hin).
    change (at_ pre e :: map (at_ pre) es) with (map (at_ pre) (e :: es)). rewrite Hin. rewrite Hes in Hle, Hb, Hrel |- *.
    assert (map (at_ pre) (map (under d) subs ++ rest) =
      map (at_ (pre ++ d ++ [SLASH])) subs ++ map (at_ pre) rest) as ->.
    { rewrite map_app. f_equal. rewrite map_map. apply map_ext. intros e'. unfold at_, under. simpl.
      by rewrite <- !app_assoc. }
    rewrite drop_app_length. apply wp_bind. eapply wp_mono; [by apply Hw|done|].
    intros [oid|er] w1 [Hadd Hrep]; [|by split].
    specialize (Hrep oid eq_refl). set (t := tree_entry d MTree oid).
    assert (key t = d ++ [SLASH]) as Hkt by done.
    assert (relative rest) as Hrelr.
    { destruct Hrel as [H1 H2]. apply StronglySorted_app_1_r in H1. by apply Forall_app in H2 as [_ H2]. }
    assert (subs ≠ []) as Hne.
    { intros ->. cbn [map app] in Hes. subst rest. apply Forall_cons in Hrest as [Hk _].
      rewrite Ep, key_of_under in Hk by done. by apply (irreflexivity bytes_lt) in Hk. }
    rewrite app_assoc.
    replace (concat ess ++ map (under d) subs) with (concat (ess ++ [map (under d) subs]))
      by (by rewrite concat_app; simpl; rewrite app_nil_r).
    eapply wp_mono; [apply (IH rest (ts ++ [t]) (ess ++ [map (under d) subs]) w1)|done|].
    + rewrite length_app, length_map in Hle. destruct subs; simpl in *; [done|lia].
    + apply Hadd.
    + done.
    + apply keys_snoc; [done|]. apply Forall_forall. intros a Ha. rewrite Hkt.
      destruct subs as [|s0 subs]; [done|]. rewrite <- (key_of_under d (path s0)) by done.
      change (d ++ SLASH :: path s0) with (path (under d s0)). apply Hb; [done|]. by left.
    + intros a e' [Ha| ->%list_elem_of_singleton]%elem_of_app He'.
      * apply Hb; [done|]. apply elem_of_app. by right.
      * rewrite Forall_forall in Hrest. rewrite Hkt. auto.
    + apply Forall2_app; [by eapply items_promised|]. constructor; [|constructor]. split.
      * apply relative_name; [|done]. rewrite Ep in Hv. by apply relative_path_split in Hv as [].
      * cbn [t tree_entry mode]. rewrite bool_decide_eq_true_2 by done. by exists subs.
    + intros r' w2 [Hadd2 Hrep2]. split; [by eapply adds_trans|done].
  - apply split_once_char_None in E.
    set (t := tree_entry (path e) (tree_kind (c_kind (e_content e))) (c_oid (e_content e))).
    assert (mode t ≠ MTree) as Hmode by (cbn; by destruct (c_kind (e_content e))).
    assert (key t = path e) as Hkt.
    { unfold key. rewrite bool_decide_eq_false_2 by done. by rewrite app_nil_r. }
    replace (concat ess ++ e :: es) with (concat (ess ++ [[e]]) ++ es)
      by (rewrite concat_app, <- app_assoc; done).
    apply IH; [simpl in Hle; lia|done|done| | |].
    + apply keys_snoc; [done|]. apply Forall_forall. intros a Ha. rewrite Hkt.
      rewrite <- (key_of_file (path e)) by done. apply Hb; [done|by left].
    + intros a e' [Ha| ->%list_elem_of_singleton]%elem_of_app He'.
      * apply Hb; [done|by right].
      * rewrite Hkt. apply file_key_lt; [done|]. rewrite Forall_forall in Hlt. auto.
    + apply Forall2_app; [done|]. constructor; [|constructor]. split; [by apply relative_name|].
      rewrite bool_decide_eq_false_2 by done. exists (c_kind (e_content e)). split; [done|].
      by destruct e as [? []].
Qed.

Lemma at_nil es : map (at_ []) es = es.
Proof. rewrite <- (map_id es) at 2. apply map_ext. by intros []. Qed.

Lemma wp_write_tree remaining : writes (write_tree remaining) remaining.
Proof.
  induction remaining as [|n IH]; intros es pre w Hok Hrel; cbn [write_tree].
  { apply wp_throw. by split_and!. }
  rewrite length_map. apply (wp_tree_loop _ n pre (length es) es [] [] w); try done.
  - constructor.
  - intros t e H. by apply elem_of_nil in H.
Qed.

(** ** [build] *)

(** The snapshot [id] holds [es] and [m], in objects that satisfy [P]. *)
Definition snapshot (P : ObjectId → Prop) (id : ObjectId) (es : list Entry) (m : Meta) : Prop :=
  ∃ bytes files meta mbytes,
    encode_tree [tree_entry FILES MTree files; tree_entry META MBlob meta] = Some bytes ∧
    compute_hash KTree bytes = Some id ∧ P id ∧
    encode_meta META_VERSION m = Some mbytes ∧ compute_hash KBlob mbytes = Some meta ∧ P meta ∧
    represents P (MAX_TREE_DEPTH + 1) files es.

Lemma check_entries_ok scope before es :
  check_entries scope before es = Ok tt →
  Forall (λ e, valid_path (path e) = true ∧ within scope (path e) = true) es ∧
  StronglySorted path_lt es ∧
  from_option (λ b, Forall (λ e, bytes_lt b (path e)) es) True before.
Proof.
  revert before. induction es as [|e es IH]; intros before; cbn [check_entries].
  { intros _. split_and!; [constructor|constructor|]. destruct before; simpl; [constructor|done]. }
  destruct (valid_path (path e)) eqn:Ev; [|done]. destruct (within scope (path e)) eqn:Ew; [|done].
  cbn [negb orb]. destruct (match before with Some p => _ | None => _ end) eqn:Eb; [done|].
  intros H. destruct (IH _ H) as (Hv & Hs & Hlt). simpl in Hlt. split_and!; [by constructor|by constructor|].
  destruct before as [b|]; [|done]. simpl.
  assert (bytes_lt b (path e)) as Hbe.
  { unfold bytes_lt. by destruct (bytes_cmp b (path e)). }
  constructor; [done|]. eapply Forall_impl; [exact Hlt|]. intros e' He'. by etransitivity.
Qed.

Lemma wp_build es m w :
  store_ok w → Forall (λ e, is_utf8 (path e) = true) es →
  wp disk_ok (build es m) w (λ r w', adds w w' ∧ ∀ id, r = Ok id →
    snapshot (promised w') id es m ∧ file_count m = N.of_nat (length es) ∧
    Forall (λ e, valid_path (path e) = true ∧ within (scope m) (path e) = true) es).
Proof.
  intros Hok Hu. unfold build. case_if; [apply wp_throw; by split_and!|].
  destruct (N.eqb_spec (N.of_nat (length es)) (file_count m)) as [Hcount|]; cbn [negb];
    [|apply wp_throw; by split_and!].
  apply wp_bind, wp_lift. destruct (check_entries (scope m) None es) as [[]|er] eqn:Ec;
    [|by split_and!].
  apply check_entries_ok in Ec as (Hv & Hs & _).
  assert (relative es) as Hrel.
  { split; [done|]. rewrite !Forall_forall in *. intros e He. split; [by apply Hv|by apply Hu]. }
  pose proof (wp_write_tree (MAX_TREE_DEPTH + 1) es [] w Hok Hrel) as Hw. rewrite at_nil in Hw.
  apply wp_bind. eapply wp_mono; [exact Hw|done|].
  intros [files|er] w1 [Hadd1 Hrep]; [|by split]. specialize (Hrep _ eq_refl).
  apply wp_bind, wp_lift. destruct (encode_meta META_VERSION m) as [mbytes|] eqn:Em; simpl;
    [|by split]. apply wp_bind. eapply wp_mono; [apply wp_write_object, Hadd1|done|].
  intros [x|er] w2 (Hok2 & Hp2 & Hx); [|split; [eapply adds_trans; [done|by split]|done]].
  destruct (Hx x eq_refl) as [Hh Hpx].
  assert (adds w w2) as Hadd2 by (eapply adds_trans; [done|by split]).
  unfold write_tree_object. rewrite sort_entries_id.
  2:{ constructor; [repeat constructor|]. repeat constructor. }
  apply wp_bind, wp_lift. destruct (encode_tree _) as [bytes|] eqn:Et; simpl; [|by split].
  apply wp_bind. eapply wp_mono; [by apply wp_write_object|done|].
  intros [y|er] w3 (Hok3 & Hp3 & Hy); [|split; [eapply adds_trans; [done|by split]|done]].
  destruct (Hy y eq_refl) as [Hh3 Hpy]. apply wp_ret.
  split; [eapply adds_trans; [done|by split]|]. intros id [= <-]. split_and!; [|done|done].
  exists bytes, files, (w_oid x), mbytes. do 6 (split; [by auto|]).
  eapply represents_mono; [|exact Hrep]. auto.
Qed.
End represents.
