(* ===== verification/SnapshotDiff.v ===== *)
(** * Reading snapshots back

    The theorems of [SnapshotTree]: what [build] stored and [sync] named, [entries] reads
    back after any crash, and [changes] compares exactly. *)

From stdpp Require Import gmap sorting.
From S2P Require Import Prelude Utf8 Effects ObjectStore SnapshotTree.

(** ** What a path is beneath *)

Lemma rsplit_once_char_cons c x s :
  rsplit_once_char c (x :: s) =
    match rsplit_once_char c s with
    | Some (a, b) => Some (x :: a, b)
    | None => if bool_decide (x = c) then Some ([], s) else None
    end.
Proof.
  unfold rsplit_once_char. cbn [rfind_str]. destruct (rfind_str [c] s) as [i|]; [done|]. simpl.
  destruct (starts_with [c] (x :: s)) eqn:E.
  - apply starts_with_one in E as [= ->]. rewrite bool_decide_eq_true_2 by done. simpl. by rewrite drop_0.
  - rewrite bool_decide_eq_false_2; [done|]. intros ->.
    by rewrite (proj2 (starts_with_one c (c :: s))) in E.
Qed.

Lemma rsplit_once_char_spec c s :
  match rsplit_once_char c s with
  | Some (a, b) => s = a ++ c :: b ∧ c ∉ b
  | None => c ∉ s
  end.
Proof.
  induction s as [|x s IH]; [apply not_elem_of_nil|]. rewrite rsplit_once_char_cons.
  destruct (rsplit_once_char c s) as [[a b]|].
  - destruct IH as [-> Hb]. done.
  - case_bool_decide as Hx; [by subst|]. apply not_elem_of_cons. naive_solver.
Qed.

Lemma ancestors_go_spec fuel p q :
  length p < fuel → q ∈ ancestors_go fuel p ↔ q = p ∨ ∃ r, p = q ++ SLASH :: r.
Proof.
  revert p. induction fuel as [|fuel IH]; intros p Hf; [lia|]. cbn [ancestors_go].
  rewrite elem_of_cons. pose proof (rsplit_once_char_spec SLASH p) as Hr.
  destruct (rsplit_once_char SLASH p) as [[a b]|].
  - destruct Hr as [-> Hb]. rewrite length_app in Hf. simpl in Hf. rewrite IH by lia. split.
    + intros [->|[->|[r ->]]]; [by left|right; by exists b|].
      right. exists (r ++ SLASH :: b). by rewrite <- app_assoc.
    + intros [->|[r Hr]]; [by left|]. right.
      destruct (app_eq_inv _ _ _ _ Hr) as [(k & Hk1 & Hk2)|(k & Hk1 & Hk2)].
      * destruct k as [|x k]; [left; by rewrite app_nil_r in Hk1|].
        simplify_eq/=. right. by eexists.
      * destruct k as [|x k]; [left; by rewrite app_nil_r in Hk1|].
        simplify_eq/=. exfalso. apply Hb. apply elem_of_app. right. by left.
  - rewrite elem_of_nil. split; [intros [->|[]]; by left|]. intros [->|[r ->]]; [by left|].
    exfalso. apply Hr, elem_of_app. right. by left.
Qed.

Lemma ancestors_spec p q : q ∈ ancestors p ↔ q = p ∨ ∃ r, p = q ++ SLASH :: r.
Proof. apply ancestors_go_spec. lia. Qed.

Lemma within_spec scope p :
  within scope p = true ↔ scope = ROOT_SCOPE ∨ scope ∈ ancestors p.
Proof.
  unfold within. rewrite orb_true_iff, bool_decide_eq_true, ancestors_spec.
  destruct (strip_prefix scope p) as [rest|] eqn:E.
  - apply strip_prefix_Some in E as ->. rewrite orb_true_iff, bool_decide_eq_true, starts_with_one.
    split.
    + intros [?|[->|Hh]]; [by left|right; left; by rewrite app_nil_r|].
      destruct rest as [|x rest]; simplify_eq/=. right. right. by eexists.
    + intros [?|[Hs|[r Hr]]]; [by left|right; left|right; right].
      * rewrite <- (app_nil_r scope) in Hs at 1. by apply app_inv_head in Hs.
      * apply app_inv_head in Hr as ->. done.
  - split; [intros [?|?]; [by left|done]|]. intros [?|[->|[r ->]]]; [by left| |].
    + rewrite (proj2 (strip_prefix_Some p p [])) in E by (by rewrite app_nil_r). done.
    + by rewrite (proj2 (strip_prefix_Some scope (scope ++ SLASH :: r) (SLASH :: r))) in E.
Qed.

Lemma ancestors_beneath q p r : q ∈ ancestors p → q ∈ ancestors (p ++ SLASH :: r).
Proof.
  rewrite !ancestors_spec. intros [->|[r' ->]]; right; [by eexists|].
  exists (r' ++ SLASH :: r). by rewrite <- app_assoc.
Qed.

(** Two ancestors of a path are comparable. *)
Lemma ancestors_total a b p : a ∈ ancestors p → b ∈ ancestors p → a ∈ ancestors b ∨ b ∈ ancestors a.
Proof.
  rewrite !ancestors_spec. intros [->|[r Hr]] [->|[r' Hr']]; try naive_solver.
  rewrite Hr in Hr'.
  destruct (app_eq_inv _ _ _ _ Hr') as [(k & Hk1 & Hk2)|(k & Hk1 & Hk2)];
    (destruct k as [|x k]; simplify_eq/=; [left; left; by rewrite app_nil_r|]).
  - right. right. by eexists.
  - left. right. by eexists.
Qed.

(** A directory that holds a path that is covered is reached. *)
Lemma covers_reaches c d p : covers c (d ++ SLASH :: p) = true → reaches c d = true.
Proof.
  unfold covers, reaches. rewrite !andb_true_iff, !negb_true_iff. intros [Hw Hb]. split.
  - apply within_spec in Hw as [Hr|Ha]; apply orb_true_iff.
    + left. apply within_spec. by left.
    + assert (d ∈ ancestors (d ++ SLASH :: p)) as Hd
        by (apply ancestors_spec; right; by eexists).
      destruct (ancestors_total _ _ _ Ha Hd); [left|right]; apply within_spec; by right.
  - apply not_true_iff_false. intros Hbd. apply not_true_iff_false in Hb. apply Hb.
    unfold blocked in *. apply existsb_exists in Hbd as (q & Hq & Hu).
    apply existsb_exists. exists q. split; [|done]. rewrite <- list_elem_of_In in *.
    by apply ancestors_beneath.
Qed.

(** ** Merging in git's order *)

#[local] Arguments N.compare : simpl never.

Definition suffix (tree : bool) : list N := if tree then [SLASH] else [].

Lemma tree_order_go a b ta tb :
  SLASH ∉ a → SLASH ∉ b →
  let common := Nat.min (length a) (length b) in
  let next (n : list N) (t : bool) :=
    match n !! common with Some x => Some x | None => if t then Some SLASH else None end in
  match bytes_cmp (take common a) (take common b) with
  | Eq => next_cmp (next a ta) (next b tb)
  | c => c
  end = bytes_cmp (a ++ suffix ta) (b ++ suffix tb).
Proof.
  revert b. induction a as [|x a IH]; intros [|y b] Ha Hb; cbv zeta; cbn [length Nat.min take].
  - by destruct ta, tb.
  - apply not_elem_of_cons in Hb as [Hy _]. simpl. destruct ta; simpl; [|done].
    destruct (N.compare_spec SLASH y); [congruence|done|done].
  - apply not_elem_of_cons in Ha as [Hx _]. simpl. destruct tb; simpl; [|done].
    destruct (N.compare_spec x SLASH); [congruence|done|done].
  - apply not_elem_of_cons in Ha as [Hx Ha], Hb as [Hy Hb]. simpl.
    destruct (x ?= y)%N; [|done|done]. by apply IH.
Qed.

Lemma tree_order_keys l r :
  SLASH ∉ name l → SLASH ∉ name r →
  tree_order l r =
    bytes_cmp (name l ++ suffix (is_tree l)) (name r ++ suffix (is_tree r)).
Proof. intros Hl Hr. unfold tree_order. by apply tree_order_go. Qed.

Section reading.
Context `{GL : GitLib} `{TL : TreeLib} `{!GitLaws GL} `{!TreeLaws TL}.

(** The store gives whatever object has the id. *)
Definition readable (s : Store) (oid : ObjectId) : Prop :=
  ∀ k data, compute_hash k data = Some oid → read_object s oid k = Ok data.

(** No file of the store is beyond reading, and none beyond the limit. *)
Definition all_readable (s : Store) : Prop :=
  unreadable (disk s) = ∅ ∧
  ∀ oid f kind data limit, named (disk s) !! oid = Some f →
    decode_loose (content f) = Some (kind, data) → max_object_bytes (options s) = Some limit →
    (N.of_nat (length data) <= limit)%N.

Lemma complete_readable s oid f :
  all_readable s → named (disk s) !! oid = Some f → complete oid f → readable s oid.
Proof.
  intros [Hu Hl] Hf (_ & k & data & Hd & Hh) k' data' Hh'.
  destruct (hash_inj _ _ _ _ _ Hh Hh') as [<- <-].
  unfold read_object, try_find. rewrite Hf, Hu, bool_decide_eq_false_2 by set_solver. rewrite Hd.
  assert (match max_object_bytes (options s) with
          | Some limit => (limit <? N.of_nat (length data))%N | None => false end = false) as ->.
  { destruct (max_object_bytes (options s)) as [limit|] eqn:E; [|done].
    apply N.ltb_ge. by eapply Hl. }
  by rewrite !bool_decide_eq_true_2 by done.
Qed.

(** ** Trees *)

Definition node_of (t : TreeEntry) : Node :=
  {| name := filename t; n_oid := t_oid t;
     n_kind := match node_kind (mode t) with Some k => k | None => None end |}.

Lemma read_nodes R oid ts ess :
  Forall2 (item R) ts ess → collect_ok (read_node oid) (map Some ts) = Ok (map node_of ts).
Proof.
  intros Hf. induction Hf as [|t es ts ess [Hn Hi] Hf IH]; [done|]. cbn [map collect_ok].
  unfold read_node at 1. rewrite Hn.
  assert (∃ k, node_kind (mode t) = Some k) as [k Hk].
  { case_bool_decide as Hm; [rewrite Hm; by eexists|]. destruct Hi as (k & -> & _).
    destruct k; by eexists. }
  rewrite Hk. simpl. rewrite IH. simpl. unfold node_of at 2. by rewrite Hk.
Qed.

Lemma represents_read s remaining oid es :
  represents (readable s) (S remaining) oid es →
  ∃ ts ess, read_tree s oid = Ok (map node_of ts) ∧ es = concat ess ∧
    StronglySorted (λ a b, bytes_lt (key a) (key b)) ts ∧
    Forall2 (item (represents (readable s) remaining)) ts ess.
Proof.
  intros (bytes & ts & ess & He & Hh & Hr & -> & Hs & Hf). exists ts, ess. split_and!; try done.
  unfold read_tree. rewrite (Hr _ _ Hh). simpl. rewrite (decode_encode_tree _ _ He).
  by eapply read_nodes.
Qed.

Lemma item_is_tree R t es :
  item R t es → is_tree (node_of t) = bool_decide (mode t = MTree).
Proof.
  intros [_ Hi]. unfold is_tree, node_of. simpl. case_bool_decide as Hm; [by rewrite Hm|].
  destruct Hi as (k & -> & _). by destruct k.
Qed.

Lemma item_cases R t es :
  item R t es →
  SLASH ∉ filename t ∧ filename t ≠ [] ∧
  ((node_content (node_of t) = None ∧ is_tree (node_of t) = true ∧
      key t = filename t ++ [SLASH] ∧
      ∃ sub, R (t_oid t) sub ∧ es = map (under (filename t)) sub) ∨
   (∃ c, node_content (node_of t) = Some c ∧ is_tree (node_of t) = false ∧
      key t = filename t ∧ es = [{| path := filename t; e_content := c |}])).
Proof.
  intros Hi. pose proof (item_is_tree _ _ _ Hi) as Ht. destruct Hi as [Hn Hi].
  split; [by apply valid_name_slash|]. split.
  { intros E. rewrite E in Hn. by vm_compute in Hn. }
  unfold key. case_bool_decide as Hm.
  - left. split_and!; [|done|done|done]. unfold node_content, node_of. simpl. by rewrite Hm.
  - right. destruct Hi as (k & Hk & ->). exists {| c_kind := k; c_oid := t_oid t |}.
    rewrite app_nil_r. split_and!; try done. unfold node_content, node_of. simpl. rewrite Hk.
    by destruct k.
Qed.

Lemma join_path_under prefix d p :
  d ≠ [] → join_path (join_path prefix d) p = join_path prefix (d ++ SLASH :: p).
Proof.
  intros Hd. unfold join_path. destruct prefix as [|c prefix].
  - rewrite (bool_decide_eq_true_2 ([] = [])), (bool_decide_eq_false_2 (d = [])) by done. done.
  - rewrite (bool_decide_eq_false_2 (c :: prefix = [])) by done.
    rewrite bool_decide_eq_false_2 by done. by rewrite <- app_assoc.
Qed.

Definition in_prefix (prefix : list N) (e : Entry) : Entry :=
  {| path := join_path prefix (path e); e_content := e_content e |}.

Lemma collect_represents s remaining bound oid prefix acc es :
  represents (readable s) remaining oid es →
  (N.of_nat (length acc + length es) <= bound)%N →
  collect_entries s remaining bound oid prefix acc = Ok (acc ++ map (in_prefix prefix) es).
Proof.
  revert oid prefix acc es. induction remaining as [|n IH]; intros oid prefix acc es; [done|].
  intros Hr Hb. destruct (represents_read _ _ _ _ Hr) as (ts & ess & Hread & -> & _ & Hf).
  cbn [collect_entries]. rewrite Hread. simpl. clear Hr Hread. revert acc Hb.
  induction Hf as [|t es ts ess Hi Hf IHf]; intros acc Hb; [by rewrite app_nil_r|].
  cbn [map collect_loop concat]. cbn [concat] in Hb. rewrite length_app in Hb.
  destruct (item_cases _ _ _ Hi) as (Hn & Hne & [(-> & _ & _ & sub & Hsub & ->)|(c & -> & _ & _ & ->)]).
  - rewrite length_map in Hb. simpl. rewrite (IH _ _ _ sub) by (done || lia). simpl.
    rewrite IHf by (rewrite length_app, length_map; lia).
    rewrite map_app, app_assoc, map_map. do 3 f_equal. apply map_ext. intros e.
    unfold in_prefix, under. simpl. by rewrite join_path_under.
  - simpl in Hb. rewrite (proj2 (N.leb_gt _ _)) by lia. rewrite IHf by (rewrite length_app; simpl; lia).
    by rewrite <- app_assoc.
Qed.

Lemma in_prefix_nil es : map (in_prefix []) es = es.
Proof. rewrite <- (map_id es) at 2. apply map_ext. by intros []. Qed.

Lemma snapshot_parts_ok s id es m :
  snapshot (readable s) id es m → ∃ files meta,
    snapshot_parts s id = Ok (files, meta) ∧ read_meta s meta = Ok m ∧
    represents (readable s) (MAX_TREE_DEPTH + 1) files es.
Proof.
  intros (bytes & files & meta & mbytes & He & Hh & Hr & Hm & Hhm & Hrm & Hrep).
  exists files, meta. split_and!; [| |done].
  - unfold snapshot_parts. rewrite (Hr _ _ Hh). simpl. rewrite (decode_encode_tree _ _ He).
    reflexivity.
  - unfold read_meta, read_blob. rewrite (Hrm _ _ Hhm). simpl.
    by rewrite (decode_encode_meta _ _ _ Hm).
Qed.

Lemma entries_ok s id es m :
  snapshot (readable s) id es m → file_count m = N.of_nat (length es) →
  entries s id = Ok es ∧ snapshot_meta s id = Ok m.
Proof.
  intros Hs Hc. destruct (snapshot_parts_ok _ _ _ _ Hs) as (files & meta & Hp & Hm & Hrep).
  unfold entries, snapshot_meta. rewrite Hp. simpl. rewrite Hm. simpl. split; [|done].
  rewrite (collect_represents _ _ _ _ _ [] es) by (done || (simpl; lia)). simpl.
  by rewrite in_prefix_nil, Hc, N.eqb_refl.
Qed.

Lemma snapshot_mono (P P' : ObjectId → Prop) id es m :
  (∀ o, P o → P' o) → snapshot P id es m → snapshot P' id es m.
Proof.
  intros HP (bytes & files & meta & mbytes & H1 & H2 & H3 & H4 & H5 & H6 & H7).
  exists bytes, files, meta, mbytes. do 6 (split; [by auto|]). by eapply represents_mono.
Qed.

(** After a sync, and whatever crash follows, what was promised is there to read. *)
Lemma sync_readable w s :
  store_ok w → world s = w →
  let '(synced, s') := sync s in
  synced = Ok tt → ∀ d', crash (disk (world s')) d' → all_readable (with_disk d' (world s')) →
  ∀ o, promised w o → readable (with_disk d' (world s')) o.
Proof.
  intros Hok Es. destruct (wp_sync w Hok s Es) as ((_ & _ & Hsync) & _).
  destruct (sync s) as [synced s']. simpl in *. intros -> d' Hc Hread o Ho.
  destruct (crash_survives _ _ _ (Hsync o Ho) Hc) as (f & Hf & Hcf). by eapply complete_readable.
Qed.

(** C7: What [build] stored and a sync named, [entries] reads back after any crash, with its
    metadata: the paths of the capture in their order and what each held. *)
Theorem build_entries_round_trip es m w :
  store_ok w → Forall (λ e, is_utf8 (path e) = true) es →
  let '(built, s1) := build es m (start w) in
  let '(synced, s2) := sync s1 in
  ∀ id, built = Ok id → synced = Ok tt →
  ∀ d', crash (disk (world s2)) d' → all_readable (with_disk d' (world s2)) →
    entries (with_disk d' (world s2)) id = Ok es ∧
    snapshot_meta (with_disk d' (world s2)) id = Ok m.
Proof.
  intros Hok Hu. destruct (wp_build es m w Hok Hu (start w) eq_refl) as ((Hadd & Hb) & _).
  destruct (build es m (start w)) as [built s1]. simpl in *.
  pose proof (sync_readable _ s1 (proj1 Hadd) eq_refl) as Hsync.
  destruct (sync s1) as [synced s2]. intros id -> Hs d' Hc Hread.
  destruct (Hb id eq_refl) as (Hsnap & Hcount & _). apply entries_ok; [|done].
  eapply snapshot_mono; [|exact Hsnap]. by apply Hsync.
Qed.

(** ** What differs *)

Definition find_entry (es : list Entry) (p : list N) : option Content :=
  e_content <$> List.find (λ e, bool_decide (path e = p)) es.

Lemma find_entry_app es1 es2 p :
  find_entry (es1 ++ es2) p =
    match find_entry es1 p with Some c => Some c | None => find_entry es2 p end.
Proof.
  unfold find_entry. induction es1 as [|e es1 IH]; simpl; [done|]. by case_bool_decide.
Qed.

Lemma find_entry_None es p : Forall (λ e, path e ≠ p) es → find_entry es p = None.
Proof.
  unfold find_entry. induction 1 as [|e es He Hs IH]; simpl; [done|]. by rewrite bool_decide_eq_false_2.
Qed.

Lemma find_entry_elem es p c : find_entry es p = Some c → ∃ e, e ∈ es ∧ path e = p.
Proof.
  unfold find_entry. intros (e & He & _)%fmap_Some. apply find_some in He as [Hin Hp].
  exists e. rewrite list_elem_of_In. split; [done|]. by apply bool_decide_eq_true in Hp.
Qed.

(** An entry is found among those of its key. *)
Lemma find_entry_key k es rest p :
  Forall (λ e, key_of (path e) = k) es → Forall (λ e, bytes_lt k (key_of (path e))) rest →
  find_entry (es ++ rest) p =
    if bool_decide (key_of p = k) then find_entry es p else find_entry rest p.
Proof.
  intros Hes Hrest. rewrite find_entry_app. case_bool_decide as Hk.
  - destruct (find_entry es p); [done|]. apply find_entry_None. eapply Forall_impl; [exact Hrest|].
    intros e He Hp. simpl in He. rewrite Hp, Hk in He. by apply (irreflexivity bytes_lt) in He.
  - rewrite find_entry_None; [done|]. eapply Forall_impl; [exact Hes|].
    intros e He Hp. simpl in He. congruence.
Qed.

Lemma find_entry_under d es p :
  find_entry (map (under d) es) (d ++ SLASH :: p) = find_entry es p.
Proof.
  unfold find_entry. induction es as [|e es IH]; [done|]. cbn [map List.find under path].
  destruct (decide (path e = p)) as [Hp|Hne].
  - by rewrite !bool_decide_eq_true_2 by congruence.
  - rewrite !bool_decide_eq_false_2; [done|done|]. intros H. apply app_inv_head in H. congruence.
Qed.

Lemma find_entry_under_inv d es p c :
  find_entry (map (under d) es) p = Some c → ∃ q, p = d ++ SLASH :: q.
Proof.
  intros (e & He & <-)%find_entry_elem.
  apply list_elem_of_fmap in He as (e' & -> & _). by eexists.
Qed.

(** The changes between two lists of entries: one for each covered path that differs, in
    the order of paths. *)
Definition describes (cov : Coverage) (prefix : list N) (es1 es2 : list Entry)
    (cs : list Change) : Prop :=
  StronglySorted (λ a b, bytes_lt (ch_path a) (ch_path b)) cs ∧
  ∀ c, c ∈ cs ↔ ∃ p, ch_path c = join_path prefix p ∧ covers cov (ch_path c) = true ∧
    source c = find_entry es1 p ∧ target c = find_entry es2 p ∧ source c ≠ target c.

Lemma join_path_lt prefix p q : bytes_lt (join_path prefix p) (join_path prefix q) ↔ bytes_lt p q.
Proof.
  unfold join_path. case_bool_decide; [done|]. unfold bytes_lt. by rewrite bytes_cmp_app.
Qed.

Lemma describes_same cov prefix es : describes cov prefix es es [].
Proof.
  split; [constructor|]. intros c. split; [by intros ?%elem_of_nil|].
  intros (p & _ & _ & H1 & H2 & Hne). congruence.
Qed.

Lemma describes_app cov prefix k e1 e2 r1 r2 cs0 cs1 :
  Forall (λ e, key_of (path e) = k) e1 → Forall (λ e, key_of (path e) = k) e2 →
  Forall (λ e, bytes_lt k (key_of (path e))) r1 → Forall (λ e, bytes_lt k (key_of (path e))) r2 →
  describes cov prefix e1 e2 cs0 → describes cov prefix r1 r2 cs1 →
  describes cov prefix (e1 ++ r1) (e2 ++ r2) (cs0 ++ cs1).
Proof.
  intros He1 He2 Hr1 Hr2 [Hs0 H0] [Hs1 H1].
  assert (∀ p es, Forall (λ e, key_of (path e) = k) es → key_of p ≠ k → find_entry es p = None) as Hno.
  { intros p es Hes Hk. apply find_entry_None. eapply Forall_impl; [exact Hes|].
    intros e He Hp. simpl in He. congruence. }
  assert (∀ p es, Forall (λ e, bytes_lt k (key_of (path e))) es → ¬ bytes_lt k (key_of p) →
    find_entry es p = None) as Hno'.
  { intros p es Hes Hk. apply find_entry_None. eapply Forall_impl; [exact Hes|].
    intros e He Hp. simpl in He. by rewrite Hp in He. }
  split.
  - apply StronglySorted_app. split_and!; [|done|done]. intros a b Ha Hb.
    apply H0 in Ha as (p & Hap & _ & Ha1 & Ha2 & Hane).
    apply H1 in Hb as (q & Hbq & _ & Hb1 & Hb2 & Hbne). rewrite Hap, Hbq.
    apply join_path_lt, key_order.
    destruct (decide (key_of p = k)) as [->|Hk].
    + destruct (decide (bytes_lt k (key_of q))) as [?|Hk]; [done|].
      exfalso. rewrite (Hno' q r1), (Hno' q r2) in * by done. congruence.
    + exfalso. rewrite (Hno p e1), (Hno p e2) in * by done. congruence.
  - intros c. rewrite elem_of_app, H0, H1. split.
    + intros [(p & Hp & Hc & Hsrc & Htgt & Hne)|(p & Hp & Hc & Hsrc & Htgt & Hne)]; exists p;
        (split; [done|]; split; [done|]); rewrite !(find_entry_key k) by done; case_bool_decide as Hk;
        try done; exfalso.
      * rewrite (Hno p e1), (Hno p e2) in * by done. congruence.
      * assert (¬ bytes_lt k (key_of p)) as Hk' by (rewrite Hk; apply (irreflexivity bytes_lt)).
        rewrite (Hno' p r1), (Hno' p r2) in * by done. congruence.
    + intros (p & Hp & Hc & Hsrc & Htgt & Hne). rewrite !(find_entry_key k) in * by done.
      case_bool_decide; [left|right]; by exists p.
Qed.

Lemma describes_under cov prefix d es1 es2 cs :
  d ≠ [] → describes cov (join_path prefix d) es1 es2 cs →
  describes cov prefix (map (under d) es1) (map (under d) es2) cs.
Proof.
  intros Hd [Hs H]. split; [done|]. intros c. rewrite H. split.
  - intros (p & Hp & Hc & Hsrc & Htgt & Hne). exists (d ++ SLASH :: p).
    rewrite <- join_path_under, !find_entry_under by done. done.
  - intros (p & Hp & Hc & Hsrc & Htgt & Hne).
    assert (∃ q, p = d ++ SLASH :: q) as [q ->].
    { destruct (find_entry (map (under d) es1) p) eqn:E1; [by eapply find_entry_under_inv|].
      destruct (find_entry (map (under d) es2) p) eqn:E2; [by eapply find_entry_under_inv|].
      congruence. }
    rewrite !find_entry_under in *. exists q. by rewrite join_path_under.
Qed.

(** Nothing beneath a directory that is not reached is covered. *)
Lemma describes_unreached cov prefix d es1 es2 :
  d ≠ [] → reaches cov (join_path prefix d) = false →
  describes cov prefix (map (under d) es1) (map (under d) es2) [].
Proof.
  intros Hd Hr. apply describes_under; [done|]. split; [constructor|]. intros c.
  split; [by intros ?%elem_of_nil|]. intros (p & Hp & Hc & _). exfalso.
  rewrite Hp in Hc. assert (join_path prefix d ≠ []) as Hne by (destruct prefix; done).
  unfold join_path at 1 in Hc. rewrite bool_decide_eq_false_2 in Hc by done.
  apply covers_reaches in Hc. congruence.
Qed.

Definition leaf (n : list N) (c : option Content) : list Entry :=
  match c with Some c => [{| path := n; e_content := c |}] | None => [] end.

Lemma find_entry_leaf n c p : find_entry (leaf n c) p = if bool_decide (p = n) then c else None.
Proof.
  unfold find_entry, leaf. destruct c; simpl; [|by case_bool_decide].
  destruct (decide (n = p)) as [->|Hne]; [by rewrite !bool_decide_eq_true_2|].
  by rewrite !bool_decide_eq_false_2.
Qed.

Lemma describes_leaf cov prefix n c1 c2 :
  describes cov prefix (leaf n c1) (leaf n c2)
    (if bool_decide (c1 = c2) || negb (covers cov (join_path prefix n)) then []
     else [{| ch_path := join_path prefix n; source := c1; target := c2 |}]).
Proof.
  split; [case_match; repeat constructor|]. intros c. split.
  - case_match eqn:E; [by intros ?%elem_of_nil|]. intros ->%list_elem_of_singleton.
    apply orb_false_iff in E as [Hne%bool_decide_eq_false Hc%negb_false_iff].
    exists n. rewrite !find_entry_leaf, bool_decide_eq_true_2 by done. done.
  - intros (p & Hp & Hc & Hsrc & Htgt & Hne). rewrite !find_entry_leaf in *.
    case_bool_decide as Hn; [|congruence]. subst p. rewrite Hp in Hc. rewrite Hc.
    rewrite bool_decide_eq_false_2 by congruence. simpl. apply list_elem_of_singleton.
    destruct c; simpl in *. congruence.
Qed.

(** *** The walk *)

Definition rep_opt (s : Store) (remaining : nat) (o : option ObjectId) (es : list Entry) : Prop :=
  match o with Some oid => represents (readable s) remaining oid es | None => es = [] end.

Lemma represents_det s remaining oid es es' :
  represents (readable s) remaining oid es → represents (readable s) remaining oid es' → es = es'.
Proof.
  revert oid es es'. induction remaining as [|n IH]; intros oid es es'; [done|].
  intros (b & ts & ess & He & Hh & _ & -> & _ & Hf) (b' & ts' & ess' & He' & Hh' & _ & -> & _ & Hf').
  destruct (hash_inj _ _ _ _ _ Hh Hh') as [_ <-].
  apply decode_encode_tree in He, He'. rewrite He in He'.
  assert (ts' = ts) as ->.
  { clear -He'. revert ts' He'. induction ts as [|t ts IH]; intros [|t' ts'] H; try done.
    simpl in H. injection H as -> H. f_equal. by apply IH. }
  f_equal. clear -Hf Hf' IH. revert ess' Hf'.
  induction Hf as [|t es ts ess [_ Hi] Hf IHf]; intros ess' Hf'; inversion Hf' as [|? es' ? ess'' [_ Hi'] Hf'']; subst;
    [done|]. f_equal; [|by apply IHf]. case_bool_decide.
  - destruct Hi as (sub & Hs & ->), Hi' as (sub' & Hs' & ->). f_equal. by eapply IH.
  - destruct Hi as (k & Hk & ->), Hi' as (k' & Hk' & ->). do 3 f_equal. rewrite Hk in Hk'.
    by destruct k, k'.
Qed.

Section walk.
Context (s : Store) (d : Diff) (n : nat).

(** What a call of [diff_trees] promises. *)
Definition walks (remaining : nat) : Prop :=
  ∀ prefix src tgt es1 es2 acc, rep_opt s remaining src es1 → rep_opt s remaining tgt es2 →
  (N.of_nat (length acc + length es1 + length es2) <= d_bound d)%N →
  ∃ cs, diff_trees s d remaining prefix src tgt acc = Ok (acc ++ cs) ∧
    length cs ≤ length es1 + length es2 ∧ describes (d_coverage d) prefix es1 es2 cs.

(** One side of a pair, and the entries it stands for. *)
Definition part (o : option Node) (k : list N) (es : list Entry) : Prop :=
  match o with
  | Some nd => ∃ t, nd = node_of t ∧ item (represents (readable s) n) t es ∧ key t = k
  | None => es = []
  end.

Lemma part_tree o d' es :
  part o (d' ++ [SLASH]) es → SLASH ∉ d' →
  ∃ sub, rep_opt s n (n_oid <$> o) sub ∧ es = map (under d') sub ∧
    ∀ nd, o = Some nd → name nd = d' ∧ is_tree nd = true ∧ d' ≠ [].
Proof.
  intros Hp Hd. destruct o as [nd|]; [|simpl in Hp; subst; by exists []].
  destruct Hp as (t & -> & Hi & Hk).
  destruct (item_cases _ _ _ Hi) as (Hn & Hne & [(_ & Ht & Hkt & sub & Hs & ->)|(c & _ & _ & Hkt & _)]).
  - rewrite Hkt in Hk. apply app_inj_tail in Hk as [<- _]. exists sub. split_and!; [done|done|].
    by intros nd [= <-].
  - exfalso. rewrite Hkt in Hk. apply Hn. rewrite Hk. apply elem_of_app. right. by left.
Qed.

Lemma part_file o k es :
  part o k es → SLASH ∉ k →
  es = leaf k (o ≫= node_content) ∧ ∀ nd, o = Some nd → name nd = k ∧ is_tree nd = false.
Proof.
  intros Hp Hk. destruct o as [nd|]; [|done]. destruct Hp as (t & -> & Hi & Hkt).
  destruct (item_cases _ _ _ Hi) as (Hn & Hne & [(_ & Ht & Hkt' & _)|(c & Hc & Ht & Hkt' & ->)]).
  - exfalso. apply Hk. rewrite <- Hkt, Hkt'. apply elem_of_app. right. by left.
  - simpl. rewrite Hc. rewrite <- Hkt, Hkt'. split; [done|]. by intros nd [= <-].
Qed.

Hypothesis recurses : walks n.

Lemma diff_step l r k e1 e2 pairs acc prefix :
  part l k e1 → part r k e2 → is_Some l ∨ is_Some r →
  (N.of_nat (length acc + length e1 + length e2) <= d_bound d)%N →
  ∃ cs, diff_loop (diff_trees s d n) d prefix ((l, r) :: pairs) acc =
      diff_loop (diff_trees s d n) d prefix pairs (acc ++ cs) ∧
    length cs ≤ length e1 + length e2 ∧ describes (d_coverage d) prefix e1 e2 cs.
Proof.
  intros Hl Hr Hsome Hb. cbn [diff_loop].
  assert (∃ nd, match l with Some x => Some x | None => r end = Some nd ∧ (l = Some nd ∨ r = Some nd))
    as (nd & -> & Hnd).
  { destruct l as [nd|]; [by exists nd; auto|]. destruct r as [nd|]; [by exists nd; auto|].
    by destruct Hsome as [[]|[]]. }
  assert ((∃ d', k = d' ++ [SLASH] ∧ SLASH ∉ d') ∨ SLASH ∉ k) as [(d' & -> & Hd)|Hk].
  { assert (∃ t es, item (represents (readable s) n) t es ∧ key t = k) as (t & es & Hi & <-).
    { destruct Hnd as [-> | ->]; simpl in *; naive_solver. }
    destruct (item_cases _ _ _ Hi) as (Hn & _ & [(_ & _ & -> & _)|(_ & _ & _ & -> & _)]); naive_solver. }
  - destruct (part_tree _ _ _ Hl Hd) as (sub1 & Hs1 & -> & Hn1).
    destruct (part_tree _ _ _ Hr Hd) as (sub2 & Hs2 & -> & Hn2).
    assert (name nd = d' ∧ is_tree nd = true ∧ d' ≠ []) as (-> & -> & Hne)
      by (destruct Hnd as [-> | ->]; auto).
    rewrite !length_map in Hb |- *.
    destruct (reaches (d_coverage d) (join_path prefix d')) eqn:Er.
    + destruct (recurses (join_path prefix d') _ _ _ _ acc Hs1 Hs2 Hb) as (cs & -> & Hlen & Hdesc).
      exists cs. split_and!; [done|done|]. by apply describes_under.
    + exists []. rewrite app_nil_r. split_and!; [done|simpl; lia|]. by apply describes_unreached.
  - destruct (part_file _ _ _ Hl Hk) as [-> Hn1], (part_file _ _ _ Hr Hk) as [-> Hn2].
    assert (name nd = k ∧ is_tree nd = false) as [-> ->] by (destruct Hnd as [-> | ->]; auto).
    pose proof (describes_leaf (d_coverage d) prefix k (l ≫= node_content) (r ≫= node_content)) as Hdesc.
    destruct (bool_decide _ || negb _) eqn:E.
    + exists []. rewrite app_nil_r. split_and!; [done|simpl; lia|done].
    + eexists. split_and!; [|shelve|exact Hdesc].
      apply orb_false_iff in E as [Hne%bool_decide_eq_false _].
      rewrite (proj2 (N.leb_gt _ _)); [done|]. revert Hb Hne. clear.
      destruct (l ≫= node_content), (r ≫= node_content); simpl; intros; try congruence; lia.
      Unshelve. apply orb_false_iff in E as [Hne%bool_decide_eq_false _]. revert Hne. clear.
      destruct (l ≫= node_content), (r ≫= node_content); simpl; intros; try congruence; lia.
Qed.

Definition keys_sorted (ts : list TreeEntry) : Prop :=
  StronglySorted (λ a b, bytes_lt (key a) (key b)) ts.

Lemma tree_order_items R t1 es1 t2 es2 :
  item R t1 es1 → item R t2 es2 →
  tree_order (node_of t1) (node_of t2) = bytes_cmp (key t1) (key t2).
Proof.
  intros H1 H2. destruct (item_cases _ _ _ H1) as (Hn1 & _ & C1).
  destruct (item_cases _ _ _ H2) as (Hn2 & _ & C2). rewrite tree_order_keys by done.
  assert (name (node_of t1) ++ suffix (is_tree (node_of t1)) = key t1) as ->
    by (destruct C1 as [(_ & -> & -> & _)|(c & _ & -> & -> & _)]; [done|apply app_nil_r]).
  assert (name (node_of t2) ++ suffix (is_tree (node_of t2)) = key t2) as ->
    by (destruct C2 as [(_ & -> & -> & _)|(c & _ & -> & -> & _)]; [done|apply app_nil_r]).
  done.
Qed.

Lemma diff_loop_describes fuel prefix ts1 ess1 ts2 ess2 acc :
  length ts1 + length ts2 ≤ fuel → keys_sorted ts1 → keys_sorted ts2 →
  Forall2 (item (represents (readable s) n)) ts1 ess1 →
  Forall2 (item (represents (readable s) n)) ts2 ess2 →
  (N.of_nat (length acc + length (concat ess1) + length (concat ess2)) <= d_bound d)%N →
  ∃ cs, diff_loop (diff_trees s d n) d prefix
      (paired (map node_of ts1) (map node_of ts2)) acc = Ok (acc ++ cs) ∧
    length cs ≤ length (concat ess1) + length (concat ess2) ∧
    describes (d_coverage d) prefix (concat ess1) (concat ess2) cs.
Proof.
  revert ts1 ess1 ts2 ess2 acc. induction fuel as [|fuel IH];
    intros ts1 ess1 ts2 ess2 acc Hfuel Hs1 Hs2 Hf1 Hf2 Hb.
  { destruct ts1, ts2; try (simpl in Hfuel; lia).
    apply Forall2_nil_inv_l in Hf1 as ->, Hf2 as ->. exists []. rewrite app_nil_r.
    split_and!; [done|done|apply describes_same]. }
  (* One pair, of the parts [e1] and [e2] with key [k], then what is left. *)
  assert (∀ l r k e1 e2 ts1' ess1' ts2' ess2',
    part l k e1 → part r k e2 → is_Some l ∨ is_Some r →
    concat ess1 = e1 ++ concat ess1' → concat ess2 = e2 ++ concat ess2' →
    length ts1' + length ts2' ≤ fuel → keys_sorted ts1' → keys_sorted ts2' →
    Forall (λ t, bytes_lt k (key t)) ts1' → Forall (λ t, bytes_lt k (key t)) ts2' →
    Forall2 (item (represents (readable s) n)) ts1' ess1' →
    Forall2 (item (represents (readable s) n)) ts2' ess2' →
    ∃ cs, diff_loop (diff_trees s d n) d prefix
        ((l, r) :: paired (map node_of ts1') (map node_of ts2')) acc = Ok (acc ++ cs) ∧
      length cs ≤ length (concat ess1) + length (concat ess2) ∧
      describes (d_coverage d) prefix (concat ess1) (concat ess2) cs) as Hstep.
  { intros l r k e1 e2 ts1' ess1' ts2' ess2' Hl Hr Hsome E1 E2 Hfu Hs1' Hs2' Hk1 Hk2 Hf1' Hf2'.
    rewrite E1, E2, !length_app in *.
    destruct (diff_step l r k e1 e2 (paired (map node_of ts1') (map node_of ts2')) acc prefix)
      as (cs0 & -> & Hlen0 & Hd0); [done..|lia|].
    destruct (IH ts1' ess1' ts2' ess2' (acc ++ cs0)) as (cs1 & -> & Hlen1 & Hd1);
      [done..|rewrite length_app; lia|].
    exists (cs0 ++ cs1). rewrite app_assoc, length_app. split_and!; [done|lia|].
    apply (describes_app _ _ k); try done.
    - destruct l as [nd|]; [|by rewrite Hl]. destruct Hl as (t & _ & Hi & <-). by eapply item_key.
    - destruct r as [nd|]; [|by rewrite Hr]. destruct Hr as (t & _ & Hi & <-). by eapply item_key.
    - by eapply items_keys.
    - by eapply items_keys. }
  destruct Hf1 as [|t1 e1 ts1 ess1 Hi1 Hf1], Hf2 as [|t2 e2 ts2 ess2 Hi2 Hf2].
  - exists []. rewrite app_nil_r. split_and!; [done|done|apply describes_same].
  - apply StronglySorted_inv in Hs2 as [Hs2 Hk2]. cbn [map].
    change (paired [] (node_of t2 :: map node_of ts2))
      with ((None, Some (node_of t2)) :: paired (map node_of []) (map node_of ts2)).
    apply (Hstep _ _ (key t2) [] e2 [] [] ts2 ess2); try done; [by exists t2|by right|simpl in *; lia].
  - apply StronglySorted_inv in Hs1 as [Hs1 Hk1]. cbn [map].
    change (paired (node_of t1 :: map node_of ts1) [])
      with ((Some (node_of t1), None) :: paired (map node_of ts1) (map node_of [])).
    apply (Hstep _ _ (key t1) e1 [] ts1 ess1 [] []); try done; [by exists t1|by left|simpl in *; lia].
  - pose proof (tree_order_items _ _ _ _ _ Hi1 Hi2) as Ho. cbn [map].
    change (paired (node_of t1 :: map node_of ts1) (node_of t2 :: map node_of ts2)) with
      (match tree_order (node_of t1) (node_of t2) with
       | Lt => (Some (node_of t1), None) :: paired (map node_of ts1) (map node_of (t2 :: ts2))
       | Gt => (None, Some (node_of t2)) :: paired (map node_of (t1 :: ts1)) (map node_of ts2)
       | Eq => (Some (node_of t1), Some (node_of t2)) :: paired (map node_of ts1) (map node_of ts2)
       end).
    rewrite Ho. pose proof Hs1 as Hs1'. pose proof Hs2 as Hs2'.
    apply StronglySorted_inv in Hs1' as [Hs1' Hk1], Hs2' as [Hs2' Hk2].
    assert (∀ a b ts, bytes_lt a b → Forall (λ t, bytes_lt b (key t)) ts →
      Forall (λ t, bytes_lt a (key t)) ts) as Htrans.
    { intros a b ts Hab Hf. eapply Forall_impl; [exact Hf|]. intros t Ht. by etransitivity. }
    destruct (bytes_cmp (key t1) (key t2)) eqn:E.
    + apply bytes_cmp_eq in E.
      apply (Hstep _ _ (key t1) e1 e2 ts1 ess1 ts2 ess2); try done;
        [by exists t1|by exists t2|by left|simpl in *; lia|by rewrite E].
    + apply (Hstep _ _ (key t1) e1 [] ts1 ess1 (t2 :: ts2) (e2 :: ess2)); try done;
        [by exists t1|by left|simpl in *; lia| |by constructor].
      constructor; [done|]. by eapply Htrans.
    + apply bytes_cmp_gt in E.
      apply (Hstep _ _ (key t2) [] e2 (t1 :: ts1) (e1 :: ess1) ts2 ess2); try done;
        [by exists t2|by right|simpl in *; lia| |by constructor].
      constructor; [done|]. by eapply Htrans.
Qed.
End walk.

Lemma diff_trees_walks s d remaining : walks s d remaining.
Proof.
  induction remaining as [|n IH]; intros prefix src tgt es1 es2 acc H1 H2 Hb.
  - cbn [diff_trees]. destruct src, tgt; try done. simpl in H1, H2. subst.
    rewrite bool_decide_eq_true_2 by done. exists []. rewrite app_nil_r.
    split_and!; [done|done|apply describes_same].
  - cbn [diff_trees]. case_bool_decide as Heq.
    { exists []. rewrite app_nil_r. split_and!; [done|simpl; lia|]. subst tgt.
      assert (es1 = es2) as -> by (destruct src; [by eapply represents_det|simpl in *; congruence]).
      apply describes_same. }
    assert (∀ o es, rep_opt s (S n) o es → ∃ ts ess, nodes_of s o = Ok (map node_of ts) ∧
      es = concat ess ∧ keys_sorted ts ∧ Forall2 (item (represents (readable s) n)) ts ess) as Hnodes.
    { intros [oid|] es; simpl; [apply represents_read|]. intros ->. exists [], [].
      split_and!; by try constructor. }
    destruct (Hnodes _ _ H1) as (ts1 & ess1 & -> & -> & Hs1 & Hf1).
    destruct (Hnodes _ _ H2) as (ts2 & ess2 & -> & -> & Hs2 & Hf2). simpl.
    by apply (diff_loop_describes s d n IH (length ts1 + length ts2)).
Qed.

(** The scope the comparison is limited to: the deeper of the two, when one is in the other. *)
Definition deeper (a b : list N) : option (list N) :=
  if within a b then Some b else if within b a then Some a else None.

Lemma changes_ok s id1 id2 es1 es2 m1 m2 :
  snapshot (readable s) id1 es1 m1 → snapshot (readable s) id2 es2 m2 →
  file_count m1 = N.of_nat (length es1) → file_count m2 = N.of_nat (length es2) →
  (file_count m1 + file_count m2 <= U64_MAX)%N →
  match deeper (scope m1) (scope m2) with
  | Some sc => ∃ cs, changes s id1 id2 = Ok {| chs_scope := sc; changes_of := cs |} ∧
      describes {| cov_scope := sc; cov_uncovered := uncovered m1 ++ uncovered m2 |} [] es1 es2 cs
  | None => changes s id1 id2 = Err DisjointScopes
  end.
Proof.
  intros H1 H2 Hc1 Hc2 Hmax.
  destruct (snapshot_parts_ok _ _ _ _ H1) as (f1 & o1 & Hp1 & Hm1 & Hr1).
  destruct (snapshot_parts_ok _ _ _ _ H2) as (f2 & o2 & Hp2 & Hm2 & Hr2).
  unfold changes, deeper. rewrite Hp1. simpl. rewrite Hp2. simpl. rewrite Hm1. simpl. rewrite Hm2.
  simpl. assert (∀ sc, ∃ cs, diff_trees s {| d_coverage := {| cov_scope := sc;
      cov_uncovered := uncovered m1 ++ uncovered m2 |};
      d_bound := u64_sat_add (file_count m1) (file_count m2); d_corrupt := id1 |}
      (MAX_TREE_DEPTH + 1) [] (Some f1) (Some f2) [] = Ok cs ∧
    describes {| cov_scope := sc; cov_uncovered := uncovered m1 ++ uncovered m2 |} [] es1 es2 cs)
    as Hwalk.
  { intros sc. set (d := {| d_coverage := _ |}).
    destruct (diff_trees_walks s d (MAX_TREE_DEPTH + 1) [] (Some f1) (Some f2) es1 es2 [] Hr1 Hr2)
      as (cs & Hcs & _ & Hd).
    - simpl. rewrite Hc1, Hc2. unfold u64_sat_add, U64_MAX in *. rewrite Hc1, Hc2 in Hmax. lia.
    - exists cs. split; [exact Hcs|exact Hd]. }
  destruct (within (scope m1) (scope m2)); simpl.
  { destruct (Hwalk (scope m2)) as (cs & -> & Hd). by exists cs. }
  destruct (within (scope m2) (scope m1)); simpl; [|done].
  destruct (Hwalk (scope m1)) as (cs & -> & Hd). by exists cs.
Qed.

(** C8: The changes between two stored snapshots are one for each path that both cover and
    that they hold differently, with what each holds, in the order of paths; snapshots
    whose scopes are disjoint are refused, and nothing else is. *)
Theorem changes_describe es1 m1 es2 m2 w :
  store_ok w → Forall (λ e, is_utf8 (path e) = true) es1 →
  Forall (λ e, is_utf8 (path e) = true) es2 →
  (file_count m1 + file_count m2 <= U64_MAX)%N →
  let '(built1, s1) := build es1 m1 (start w) in
  let '(built2, s2) := build es2 m2 s1 in
  let '(synced, s3) := sync s2 in
  ∀ id1 id2, built1 = Ok id1 → built2 = Ok id2 → synced = Ok tt →
  ∀ d', crash (disk (world s3)) d' → all_readable (with_disk d' (world s3)) →
    match deeper (scope m1) (scope m2) with
    | Some sc => ∃ cs,
        changes (with_disk d' (world s3)) id1 id2 = Ok {| chs_scope := sc; changes_of := cs |} ∧
        describes {| cov_scope := sc; cov_uncovered := uncovered m1 ++ uncovered m2 |} [] es1 es2 cs
    | None => changes (with_disk d' (world s3)) id1 id2 = Err DisjointScopes
    end.
Proof.
  intros Hok Hu1 Hu2 Hmax. destruct (wp_build es1 m1 w Hok Hu1 (start w) eq_refl) as ((Hadd1 & Hb1) & _).
  destruct (build es1 m1 (start w)) as [built1 s1]. simpl in *.
  destruct (wp_build es2 m2 _ (proj1 Hadd1) Hu2 s1 eq_refl) as ((Hadd2 & Hb2) & _).
  destruct (build es2 m2 s1) as [built2 s2]. simpl in *.
  pose proof (sync_readable _ s2 (proj1 Hadd2) eq_refl) as Hsync.
  destruct (sync s2) as [synced s3]. intros id1 id2 -> -> Hs d' Hc Hread.
  destruct (Hb1 id1 eq_refl) as (Hsnap1 & Hcount1 & _), (Hb2 id2 eq_refl) as (Hsnap2 & Hcount2 & _).
  apply changes_ok; [..|exact Hcount1|exact Hcount2|exact Hmax].
  - eapply snapshot_mono; [|exact Hsnap1]. intros o Ho. apply Hsync; [done..|]. by apply Hadd2.
  - eapply snapshot_mono; [|exact Hsnap2]. intros o Ho. by apply Hsync.
Qed.
End reading.

(** ** Example *)

Module ExampleTrees.
Export ExampleGit.

Definition mode_byte (m : Mode) : N :=
  match m with MTree => 0 | MBlob => 1 | MBlobExecutable => 2 | MLink => 3 | MCommit => 4 end%N.
Definition byte_mode (n : N) : Mode :=
  match n with 0%N => MTree | 1%N => MBlob | 2%N => MBlobExecutable | 3%N => MLink
  | _ => MCommit end.

Definition put (l : list N) : list N := N.of_nat (length l) :: l.
Definition put_entry (t : TreeEntry) : list N :=
  mode_byte (mode t) :: put (filename t) ++ put (t_oid t).

Fixpoint get_entries (fuel : nat) (bytes : list N) : list (option TreeEntry) :=
  match fuel, bytes with
  | S fuel, m :: n :: rest =>
      match drop (N.to_nat n) rest with
      | k :: rest' =>
          Some {| mode := byte_mode m; filename := take (N.to_nat n) rest;
                  t_oid := take (N.to_nat k) rest' |}
            :: get_entries fuel (drop (N.to_nat k) rest')
      | [] => [None]
      end
  | _, _ => []
  end.

Lemma get_put ts fuel :
  length (concat (map put_entry ts)) ≤ fuel →
  get_entries fuel (concat (map put_entry ts)) = map Some ts.
Proof.
  revert fuel. induction ts as [|t ts IH]; intros fuel Hf; [by destruct fuel|].
  cbn [map concat] in *. destruct fuel as [|fuel]; [simpl in Hf; lia|].
  unfold put_entry at 1 in Hf. unfold put_entry at 1, put. cbn [app get_entries].
  rewrite Nat2N.id, <- !app_assoc, drop_app_length. cbn [app].
  rewrite Nat2N.id, !take_app_length, drop_app_length, IH.
  - by destruct t as [[] ? ?].
  - revert Hf. unfold put. simpl. rewrite !length_app. simpl. rewrite ?length_app. simpl. lia.
Qed.

#[export] Instance SkipReason_countable : Countable SkipReason.
Proof.
  refine (inj_countable'
    (λ r, match r with NestedRepository => 0 | Mount => 1 | Special => 2 | Oversized => 3
          | Unreadable => 4 | Unstable => 5 | Unrepresentable => 6 end%N)
    (λ n, match n with 0%N => NestedRepository | 1%N => Mount | 2%N => Special | 3%N => Oversized
          | 4%N => Unreadable | 5%N => Unstable | _ => Unrepresentable end) _).
  by intros [].
Defined.

#[export] Instance SkippedPath_countable : Countable SkippedPath.
Proof.
  refine (inj_countable' (λ p, (sk_path p, sk_reason p))
    (λ '(p, r), {| sk_path := p; sk_reason := r |}) _).
  by intros [].
Defined.

Definition put_meta (v : N) (m : Meta) : list N :=
  v :: file_count m :: total_bytes m :: Npos (encode (scope m))
    :: Npos (encode (pruned m, counts (skipped m), samples (skipped m)))
    :: map (fun e => Npos (encode e)) (exclusions m).

Definition get_pos {A} `{Countable A} (n : N) : option A :=
  match n with Npos p => decode p | 0%N => None end.

Definition get_meta (bytes : list N) : option (N * Meta) :=
  match bytes with
  | v :: f :: t :: s :: r :: es =>
      s ← get_pos s;
      '(p, c, l) ← get_pos (A := list SkippedPath * list (SkipReason * N) * list SkippedPath) r;
      es ← mapM get_pos es;
      Some (v, {| scope := s; pruned := p; exclusions := es;
                  skipped := {| counts := c; samples := l |}; file_count := f; total_bytes := t |})
  | _ => None
  end.

Lemma get_put_meta v m : get_meta (put_meta v m) = Some (v, m).
Proof.
  destruct m as [s p e [c l] f t]. unfold put_meta, get_meta. cbn [scope pruned exclusions skipped
    counts samples file_count total_bytes get_pos]. rewrite !decode_encode. cbn [mbind option_bind].
  assert (mapM get_pos (map (fun e => Npos (encode e)) e) = Some e) as ->; [|done].
  induction e as [|x e IH]; [done|]. simpl. rewrite decode_encode. simpl in *. by rewrite IH.
Qed.

Definition key_le (a b : TreeEntry) : Prop := bytes_cmp (key a) (key b) ≠ Gt.
#[export] Instance key_le_dec a b : Decision (key_le a b).
Proof. unfold key_le. apply _. Defined.
#[export] Instance key_le_total : Total key_le.
Proof.
  intros a b. unfold key_le. rewrite (bytes_cmp_antisym (key a) (key b)).
  destruct (bytes_cmp (key a) (key b)); simpl; auto.
Qed.
#[export] Instance key_le_trans : Transitive key_le.
Proof.
  intros a b c. unfold key_le. rewrite !bytes_cmp_gt. intros H1 H2 H3.
  destruct (bytes_total (key a) (key b)) as [H|[H|H]]; [|by rewrite <- H in H2|done].
  apply H2. by eapply bytes_cmp_trans.
Qed.

(** A library whose trees are their entries, each part after its length. *)
#[export] Instance example_trees : TreeLib := {
  sort_entries := merge_sort key_le;
  encode_tree ts := Some (concat (map put_entry ts));
  decode_tree bytes := get_entries (length bytes) bytes;
  encode_meta v m := Some (put_meta v m);
  decode_meta := get_meta;
}.

#[export] Instance example_trees_laws : TreeLaws example_trees.
Proof.
  split.
  - intros ts. apply merge_sort_Permutation.
  - intros ts. apply (StronglySorted_merge_sort key_le).
  - intros ts bytes [= <-]. by apply get_put.
  - intros v m bytes [= <-]. apply get_put_meta.
Qed.

Definition entry (p : string) (k : EntryKind) (data : list N) : Entry :=
  {| path := str_bytes (lit p);
     e_content := {| c_kind := k; c_oid := kind_byte KBlob :: data |} |}.

Definition meta (excluded : list string) (count : N) : Meta :=
  {| scope := ROOT_SCOPE; pruned := []; exclusions := map (str_bytes ∘ lit) excluded;
     skipped := {| counts := []; samples := [] |}; file_count := count; total_bytes := 0 |}.

Definition first_capture : list Entry :=
  [entry "a" File [1]; entry "dir.x" File [1]; entry "dir/x" File [1]; entry "dir/y" File [1]]%N.
Definition second_capture : list Entry :=
  [entry "a/b" File [2]; entry "dir/x" Executable [1]; entry "dir/y" File [3]]%N.

Definition both : State Store Disk * (ObjectId * ObjectId) :=
  let '(b1, s1) := build first_capture (meta [] 4) (start (empty_store [])) in
  let '(b2, s2) := build second_capture (meta ["dir/y"] 3) s1 in
  let '(_, s3) := sync s2 in
  (s3, match b1, b2 with Ok i1, Ok i2 => (i1, i2) | _, _ => ([], []) end).

(** A file that became a directory, one that is gone, one whose mode changed; what the
    second capture excludes is not among the changes. *)
Example changes_of_two_captures :
  (let '(s, (id1, id2)) := both in
   (fun r => map (fun c => (ch_path c, bool_decide (source c = None), bool_decide (target c = None)))
               (changes_of r)) <$>
   match changes (world s) id1 id2 with Ok r => Some r | Err _ => None end) =
  Some [(str_bytes (lit "a"), false, true); (str_bytes (lit "a/b"), true, false);
        (str_bytes (lit "dir.x"), false, true); (str_bytes (lit "dir/x"), false, false)].
Proof. vm_compute. reflexivity. Qed.

Lemma crash_refl d : crash d d.
Proof. split; eauto. Qed.

Lemma unlimited_readable w :
  unreadable (disk w) = ∅ → max_object_bytes (options w) = None → all_readable w.
Proof. intros Hu Hm. split; [done|]. intros oid f k data limit _ _ H. congruence. Qed.

Definition empty : Store := empty_store [].
Definition utf8_paths (es : list Entry) : bool := forallb (fun e => is_utf8 (path e)) es.
Lemma utf8_paths_ok es : utf8_paths es = true → Forall (λ e, is_utf8 (path e) = true) es.
Proof. intros H. apply Forall_forall. intros e He. apply list_elem_of_In in He.
  by apply (proj1 (forallb_forall _ es) H). Qed.

Lemma build_entries_round_trip_witness :
  let '(built, s1) := build first_capture (meta [] 4) (start empty) in
  let '(synced, s2) := sync s1 in
  ∃ id, built = Ok id ∧ synced = Ok tt ∧ entries (world s2) id = Ok first_capture.
Proof.
  pose proof (build_entries_round_trip first_capture (meta [] 4) empty (empty_store_ok [])
    (utf8_paths_ok first_capture ltac:(vm_compute; reflexivity))) as H.
  assert (is_ok (build first_capture (meta [] 4) (start empty)).1 = true) as E1
    by (vm_compute; reflexivity).
  assert ((sync (build first_capture (meta [] 4) (start empty)).2).1 = Ok tt) as E2
    by (vm_compute; reflexivity).
  assert (unreadable (disk (world (sync (build first_capture (meta [] 4) (start empty)).2).2)) = ∅)
    as E3 by (vm_compute; reflexivity).
  assert (max_object_bytes (options (world (sync (build first_capture (meta [] 4)
    (start empty)).2).2)) = None) as E4 by (vm_compute; reflexivity).
  destruct (build first_capture (meta [] 4) (start empty)) as [built s1]. cbn [fst snd] in *.
  destruct (sync s1) as [synced s2]. cbn [fst snd] in *.
  destruct built as [id|]; [|done]. exists id. split; [done|]. split; [done|].
  pose proof (H id eq_refl E2 _ (crash_refl _)) as H'. rewrite with_disk_id in H'.
  exact (proj1 (H' (unlimited_readable _ E3 E4))).
Defined.

Lemma changes_describe_witness :
  let '(built1, s1) := build first_capture (meta [] 4) (start empty) in
  let '(built2, s2) := build second_capture (meta ["dir/y"] 3) s1 in
  let '(synced, s3) := sync s2 in
  ∃ id1 id2 cs, built1 = Ok id1 ∧ built2 = Ok id2 ∧ synced = Ok tt ∧
    changes (world s3) id1 id2 = Ok {| chs_scope := ROOT_SCOPE; changes_of := cs |} ∧
    describes {| cov_scope := ROOT_SCOPE; cov_uncovered := [str_bytes (lit "dir/y")] |} []
      first_capture second_capture cs.
Proof.
  pose proof (changes_describe first_capture (meta [] 4) second_capture (meta ["dir/y"] 3) empty
    (empty_store_ok []) (utf8_paths_ok first_capture ltac:(vm_compute; reflexivity))
    (utf8_paths_ok second_capture ltac:(vm_compute; reflexivity)) ltac:(vm_compute; discriminate)) as H.
  set (r1 := build first_capture (meta [] 4) (start empty)) in *.
  assert (is_ok r1.1 = true) as E1 by (vm_compute; reflexivity).
  assert (is_ok (build second_capture (meta ["dir/y"] 3) r1.2).1 = true) as E2
    by (vm_compute; reflexivity).
  assert ((sync (build second_capture (meta ["dir/y"] 3) r1.2).2).1 = Ok tt) as E3
    by (vm_compute; reflexivity).
  assert (unreadable (disk (world (sync (build second_capture (meta ["dir/y"] 3) r1.2).2).2)) = ∅)
    as E4 by (vm_compute; reflexivity).
  assert (max_object_bytes (options (world (sync (build second_capture (meta ["dir/y"] 3)
    r1.2).2).2)) = None) as E5 by (vm_compute; reflexivity).
  clearbody r1. destruct r1 as [built1 s1]. cbn [fst snd] in *.
  destruct (build second_capture (meta ["dir/y"] 3) s1) as [built2 s2]. cbn [fst snd] in *.
  destruct (sync s2) as [synced s3]. cbn [fst snd] in *.
  destruct built1 as [id1|]; [|done]. destruct built2 as [id2|]; [|done].
  pose proof (H id1 id2 eq_refl eq_refl E3 _ (crash_refl _)) as H'. rewrite with_disk_id in H'.
  destruct (H' (unlimited_readable _ E4 E5)) as (cs & Hcs & Hd).
  exists id1, id2, cs. split; [done|]. split; [done|]. split; [done|]. split; [exact Hcs|exact Hd].
Defined.

End ExampleTrees.
