(* ===== verification/Collect.v ===== *)
(** * Collection

    [snapshot-store/src/collect.rs]: what the roots reach and what the caller names is
    live, and everything else is garbage, as is what writes left staged.  The objects of
    the stat cache are an argument. *)

From stdpp Require Import gmap sorting pretty.
From S2P Require Import Prelude Utf8 Effects ObjectStore SnapshotTree SnapshotDiff.

Record Usage := { u_objects : N; u_bytes : N }.
Record GarbagePlan := { g_objects : list (ObjectId * N); g_temporaries : list (Temporary * N) }.

Definition plan_usage (plan : GarbagePlan) : Usage :=
  {| u_objects := N.of_nat (length (g_objects plan));
     u_bytes := foldr N.add 0%N (map snd (g_objects plan) ++ map snd (g_temporaries plan)) |}.

Definition plan_is_empty (plan : GarbagePlan) : bool :=
  bool_decide (g_objects plan = []) && bool_decide (g_temporaries plan = []).

(** The name a temporary has, by which paths are compared. *)
Definition temporary_name (t : Temporary) : list N :=
  str_bytes (lit (".tmp" +:+ pretty t.1 +:+ "-" +:+ pretty t.2)).

(** The order of tuples: by id or path, then by size. *)
Definition object_le (a b : ObjectId * N) : Prop :=
  bytes_lt a.1 b.1 ∨ a.1 = b.1 ∧ (a.2 <= b.2)%N.
#[export] Instance object_le_dec a b : Decision (object_le a b).
Proof. unfold object_le. apply _. Defined.
Definition temporary_le (a b : Temporary * N) : Prop :=
  bytes_lt (temporary_name a.1) (temporary_name b.1) ∨
  temporary_name a.1 = temporary_name b.1 ∧ (a.2 <= b.2)%N.
#[export] Instance temporary_le_dec a b : Decision (temporary_le a b).
Proof. unfold temporary_le. apply _. Defined.

Section collect.
Context `{GL : GitLib} `{TL : TreeLib}.

(** ** Marking *)

Fixpoint mark_nodes (nodes : list Node) (pending : list ObjectId) (live : gset ObjectId) :
    list ObjectId * gset ObjectId :=
  match nodes with
  | [] => (pending, live)
  | node :: nodes' =>
      if is_tree node then mark_nodes nodes' (n_oid node :: pending) live
      else mark_nodes nodes' pending ({[n_oid node]} ∪ live)
  end.

(** The top of the stack is the head of the list; none is out of fuel. *)
Fixpoint mark_tree (s : Store) (fuel : nat) (pending : list ObjectId) (live : gset ObjectId) :
    option (Result (gset ObjectId) StoreError) :=
  match pending with
  | [] => Some (Ok live)
  | tree :: pending =>
      match fuel with
      | O => None
      | S fuel =>
          if bool_decide (tree ∈ live) then mark_tree s fuel pending live
          else
            let live := {[tree]} ∪ live in
            match read_tree s tree with
            | Err (Missing _) => mark_tree s fuel pending live
            | Err e => Some (Err e)
            | Ok nodes =>
                let '(pending, live) := mark_nodes nodes pending live in
                mark_tree s fuel pending live
            end
      end
  end.

(** A tree is read once, and every other turn takes a child of one: the trees there are
    and their children are fuel enough. *)
Definition tree_children (s : Store) (oid : ObjectId) : nat :=
  match read_tree s oid with Ok nodes => length (List.filter is_tree nodes) | Err _ => 0 end.
Definition mark_fuel (s : Store) : nat :=
  S (sum_list_with (tree_children s) (elements (dom (named (disk s))))).

Definition mark_snapshot (s : Store) (id : ObjectId) (live : gset ObjectId) :
    option (Result (gset ObjectId) StoreError) :=
  if bool_decide (id ∈ live) then Some (Ok live)
  else
    let live := {[id]} ∪ live in
    match snapshot_parts s id with
    | Err (Missing _) => Some (Ok live)
    | Err e => Some (Err e)
    | Ok (files, meta) => mark_tree s (mark_fuel s) [files] ({[meta]} ∪ live)
    end.

Fixpoint mark_roots (s : Store) (roots : list ObjectId) (live : gset ObjectId) :
    option (Result (gset ObjectId) StoreError) :=
  match roots with
  | [] => Some (Ok live)
  | root :: roots' =>
      r ← mark_snapshot s root live;
      match r with Ok live => mark_roots s roots' live | Err e => Some (Err e) end
  end.

(** ** Sweeping *)

Definition file_size (f : option ObjectStore.File) : N :=
  match f with Some f => N.of_nat (length (content f)) | None => 0 end.

(** One fan-out directory: each object that is not live, with its size. *)
Fixpoint sweep_objects (live : gset ObjectId) (oids : list ObjectId)
    (plan : list (ObjectId * N)) : Io_ (list (ObjectId * N)) :=
  match oids with
  | [] => ret plan
  | oid :: oids' =>
      (if bool_decide (oid ∈ live) then sweep_objects live oids' plan
       else
         do? size := call (fun d => (Ok (file_size (named d !! oid)), d)) in
         sweep_objects live oids' (plan ++ [(oid, size)]))%W
  end.

Definition objects_in (d : Disk) (byte : N) : list ObjectId :=
  elements (dom (filter (λ '(oid, _), first_byte oid = byte) (named d))).

Fixpoint sweep_directories (live : gset ObjectId) (bytes : list N) (plan : list (ObjectId * N)) :
    Io_ (list (ObjectId * N)) :=
  match bytes with
  | [] => ret plan
  | byte :: bytes' =>
      (do? oids := call (fun d => (Ok (objects_in d byte), d)) in
       do? plan := sweep_objects live oids plan in
       sweep_directories live bytes' plan)%W
  end.

Fixpoint sweep_temporaries (ts : list Temporary) (plan : list (Temporary * N)) :
    Io_ (list (Temporary * N)) :=
  match ts with
  | [] => ret plan
  | t :: ts' =>
      (do? size := call (fun d => (Ok (file_size (temporaries d !! t)), d)) in
       sweep_temporaries ts' (plan ++ [(t, size)]))%W
  end.

Definition garbage_keeping (previous roots objects : list ObjectId) : Io_ GarbagePlan :=
  (do? s := handle (fun s => (s, s)) in
   do? live :=
     lift match mark_roots s roots (list_to_set (previous ++ objects)) with
          | Some r => r
          | None => Err Io
          end in
   do? (bytes, ts) := call (fun d =>
     (Ok (elements (dom (directories d)), elements (dom (temporaries d))), d)) in
   do? temporaries := sweep_temporaries ts [] in
   do? objects := sweep_directories live bytes [] in
   ret {| g_objects := merge_sort object_le objects;
          g_temporaries := merge_sort temporary_le temporaries |})%W.

Definition garbage (previous roots : list ObjectId) : Io_ GarbagePlan :=
  garbage_keeping previous roots [].

(** [remove] of the file of an object. *)
Definition remove_object (oid : ObjectId) : Io_ unit :=
  call (fun d => (Ok tt, with_named (delete oid (named d)) (with_durable (durable d ∖ {[oid]}) d))).

Fixpoint collect_objects (objects : list (ObjectId * N)) (freed : Usage) : Io_ Usage :=
  match objects with
  | [] => ret freed
  | (oid, bytes) :: objects' =>
      (do? _ := remove_object oid in
       collect_objects objects'
         {| u_objects := u_objects freed + 1; u_bytes := u_bytes freed + bytes |})%W
  end.

Fixpoint collect_temporaries (ts : list (Temporary * N)) (freed : Usage) : Io_ Usage :=
  match ts with
  | [] => ret freed
  | (t, bytes) :: ts' =>
      (do? _ := remove t in
       collect_temporaries ts'
         {| u_objects := u_objects freed; u_bytes := u_bytes freed + bytes |})%W
  end.

Definition collect (plan : GarbagePlan) : Io_ Usage :=
  (do? freed := collect_objects (g_objects plan) {| u_objects := 0; u_bytes := 0 |} in
   do? removal := attempt (collect_temporaries (g_temporaries plan) freed) in
   do? _ := handle (fun s =>
     (tt, with_pending
            (filter (λ '(_, t), t ∉ map fst (g_temporaries plan)) (staged s)) (fan_outs s) s)) in
   lift removal)%W.

Definition usage (s : Store) : Usage :=
  {| u_objects := N.of_nat (size (named (disk s)));
     u_bytes :=
       file_size (top (disk s) !! "stat-index"%string) +
       file_size (top (disk s) !! "stat-index.lock"%string) +
       foldr N.add 0%N (map (fun '(_, f) => file_size (Some f)) (map_to_list (named (disk s)))) +
       foldr N.add 0%N (map (fun '(_, f) => file_size (Some f)) (map_to_list (temporaries (disk s)))) |}.

(** ** What is reached *)

Inductive reachable (s : Store) (roots : list ObjectId) : ObjectId → Prop :=
| reach_root id : id ∈ roots → reachable s roots id
| reach_child tree nodes node :
    reachable s roots tree → read_tree s tree = Ok nodes → node ∈ nodes →
    reachable s roots (n_oid node).

Definition not_a_tree (s : Store) (oid : ObjectId) : Prop := ∀ nodes, read_tree s oid ≠ Ok nodes.

(** What a tree names as a file is not a tree. *)
Definition typed (s : Store) : Prop :=
  ∀ tree nodes node, read_tree s tree = Ok nodes → node ∈ nodes → is_tree node = false →
  not_a_tree s (n_oid node).

(** Every child of a live tree is live, or waits. *)
Definition closed (s : Store) (live : gset ObjectId) (pending : list ObjectId) : Prop :=
  ∀ tree nodes node, tree ∈ live → read_tree s tree = Ok nodes → node ∈ nodes →
  n_oid node ∈ live ∨ n_oid node ∈ pending.

Lemma mark_nodes_spec nodes pending live :
  let '(pending', live') := mark_nodes nodes pending live in
  length pending' = length (List.filter is_tree nodes) + length pending ∧
  (∀ o, o ∈ pending' ↔ o ∈ pending ∨ ∃ node, node ∈ nodes ∧ is_tree node = true ∧ n_oid node = o) ∧
  (∀ o, o ∈ live' ↔ o ∈ live ∨ ∃ node, node ∈ nodes ∧ is_tree node = false ∧ n_oid node = o).
Proof.
  revert pending live. induction nodes as [|node nodes IH]; intros pending live; cbn [mark_nodes].
  { split_and!; [done| |]; intros o; (split; [by left|]); intros [?|(? & H & _)]; [done| |done|];
      by apply elem_of_nil in H. }
  cbn [List.filter]. destruct (is_tree node) eqn:E.
  - specialize (IH (n_oid node :: pending) live). destruct (mark_nodes _ _ _) as [pending' live'].
    destruct IH as (Hl & Hp & Hv). split_and!; [simpl in *; lia| |].
    + intros o. rewrite Hp. setoid_rewrite elem_of_cons. naive_solver.
    + intros o. rewrite Hv. setoid_rewrite elem_of_cons. naive_solver congruence.
  - specialize (IH pending ({[n_oid node]} ∪ live)). destruct (mark_nodes _ _ _) as [pending' live'].
    destruct IH as (Hl & Hp & Hv). split_and!; [simpl in *; lia| |].
    + intros o. rewrite Hp. setoid_rewrite elem_of_cons. naive_solver congruence.
    + intros o. rewrite Hv, elem_of_union, elem_of_singleton. setoid_rewrite elem_of_cons. naive_solver.
Qed.

Section marking.
Context (s : Store).

(** *** Termination *)

Definition unmarked (live : gset ObjectId) : nat :=
  sum_list_with (tree_children s)
    (filter (λ o, o ∉ live) (elements (dom (named (disk s))))).

Lemma sum_filter_step (f : ObjectId → nat) (l : list ObjectId) (tree : ObjectId) (live live' : gset ObjectId) :
  NoDup l → tree ∈ l → tree ∉ live → live ⊆ live' → tree ∈ live' →
  f tree + sum_list_with f (filter (λ o, o ∉ live') l) ≤ sum_list_with f (filter (λ o, o ∉ live) l).
Proof.
  intros Hnd Hin Hn Hsub Ht. induction l as [|o l IH]; [by apply elem_of_nil in Hin|].
  apply NoDup_cons in Hnd as [Ho Hnd]. rewrite !filter_cons.
  assert (sum_list_with f (filter (λ o, o ∉ live') l) ≤ sum_list_with f (filter (λ o, o ∉ live) l))
    as Hmono.
  { clear -Hsub. induction l as [|o l IH]; [done|]. rewrite !filter_cons.
    repeat case_decide; simpl; try lia. exfalso. set_solver. }
  apply elem_of_cons in Hin as [<-|Hin].
  - rewrite decide_False by (intros H; by apply H). rewrite decide_True by done. simpl. lia.
  - specialize (IH Hnd Hin). repeat case_decide; simpl; try lia. exfalso. set_solver.
Qed.

Lemma read_tree_named tree nodes : read_tree s tree = Ok nodes → tree ∈ dom (named (disk s)).
Proof.
  unfold read_tree, read_object, try_find. intros H. apply elem_of_dom.
  destruct (named (disk s) !! tree); [by eexists|done].
Qed.

Lemma mark_tree_terminates fuel pending live :
  length pending + unmarked live ≤ fuel → mark_tree s fuel pending live ≠ None.
Proof.
  revert pending live. induction fuel as [|fuel IH]; intros [|tree pending] live Hf; cbn [mark_tree];
    try done; [simpl in Hf; lia|]. simpl in Hf.
  case_bool_decide as Hin; [apply IH; lia|].
  assert (∀ live', {[tree]} ∪ live ⊆ live' → tree ∈ dom (named (disk s)) →
    tree_children s tree + unmarked live' ≤ unmarked live) as Hstep.
  { intros live' Hsub Hd. apply sum_filter_step; [apply NoDup_elements|by apply elem_of_elements|done|
      set_solver|set_solver]. }
  destruct (read_tree s tree) as [nodes|[| | | | |]] eqn:Er; try done.
  - pose proof (mark_nodes_spec nodes pending ({[tree]} ∪ live)) as Hspec.
    destruct (mark_nodes _ _ _) as [pending' live1]. destruct Hspec as (Hlen & _ & Hv).
    apply IH. specialize (Hstep live1). unfold tree_children at 1 in Hstep. rewrite Er in Hstep.
    specialize (Hstep ltac:(intros o Ho; apply Hv; by left) (read_tree_named _ _ Er)). lia.
  - apply IH. destruct (decide (tree ∈ dom (named (disk s)))) as [Hd|Hd].
    + specialize (Hstep ({[tree]} ∪ live) ltac:(done) Hd). lia.
    + assert (unmarked ({[tree]} ∪ live) ≤ unmarked live); [|lia]. unfold unmarked.
      generalize (elements (dom (named (disk s)))) as l. intros l.
      induction l as [|o l IHl]; [done|]. rewrite !filter_cons.
      repeat case_decide; simpl; try lia. exfalso. set_solver.
Qed.

Lemma mark_snapshot_terminates id live : mark_snapshot s id live ≠ None.
Proof.
  unfold mark_snapshot. case_bool_decide; [done|].
  destruct (snapshot_parts s id) as [[files meta]|[| | | | |]]; try done.
  apply mark_tree_terminates. unfold mark_fuel, unmarked. simpl. apply le_n_S.
  generalize (elements (dom (named (disk s)))) as l. intros l.
  induction l as [|o l IHl]; [done|]. rewrite filter_cons. case_decide; simpl; lia.
Qed.

(** C33: Marking ends for every store and every roots, whatever its trees name, cycles
    included: the children of the trees there are bound its turns. *)
Theorem mark_roots_terminates roots live : mark_roots s roots live ≠ None.
Proof.
  revert live. induction roots as [|root roots IH]; intros live; cbn [mark_roots]; [done|].
  destruct (mark_snapshot s root live) as [[live1|]|] eqn:Em; simpl; [apply IH|done|].
  by apply mark_snapshot_terminates in Em.
Qed.

(** *** Correctness *)

Context (Htyped : typed s).

Lemma mark_tree_closed fuel pending live live' :
  closed s live pending → mark_tree s fuel pending live = Some (Ok live') →
  closed s live' [] ∧ live ⊆ live' ∧ ∀ o, o ∈ pending → o ∈ live'.
Proof.
  revert pending live. induction fuel as [|fuel IH]; intros [|tree pending] live Hc; cbn [mark_tree];
    try done; try (intros [= <-]; split_and!; [done|done|by intros o ?%elem_of_nil]).
  case_bool_decide as Hin.
  { intros H. destruct (IH pending live) as (H1 & H2 & H3); [|done|].
    - intros t nodes node Ht Hr Hn. destruct (Hc _ _ _ Ht Hr Hn) as [?|[->|?]%elem_of_cons]; auto.
    - split_and!; [done|done|]. intros o [->|Ho]%elem_of_cons; auto. }
  destruct (read_tree s tree) as [nodes|[| | | | |]] eqn:Er; try done.
  - pose proof (mark_nodes_spec nodes pending ({[tree]} ∪ live)) as Hspec.
    destruct (mark_nodes _ _ _) as [pending' live1]. destruct Hspec as (_ & Hp & Hv). intros H.
    destruct (IH pending' live1) as (H1 & H2 & H3); [|done|].
    + intros t nodes' node Ht Hr Hn. apply Hv in Ht as [[->%elem_of_singleton|Ht]%elem_of_union|(nd & Hnd & Hleaf & <-)].
      * assert (nodes' = nodes) as -> by congruence. destruct (is_tree node) eqn:Et;
          [right; apply Hp; right; by exists node|left; apply Hv; right; by exists node].
      * destruct (Hc _ _ _ Ht Hr Hn) as [?|[Heq|?]%elem_of_cons].
        -- left. apply Hv. left. set_solver.
        -- left. apply Hv. left. rewrite Heq. set_solver.
        -- right. apply Hp. by left.
      * by destruct (Htyped _ _ _ Er Hnd Hleaf nodes').
    + split_and!; [done| |].
      * intros o Ho. apply H2, Hv. left. set_solver.
      * intros o [->|Ho]%elem_of_cons; [apply H2, Hv; left; set_solver|]. apply H3, Hp. by left.
  - intros H. destruct (IH pending ({[tree]} ∪ live)) as (H1 & H2 & H3); [|done|].
    + intros t nodes node Ht Hr Hn. apply elem_of_union in Ht as [->%elem_of_singleton|Ht]; [congruence|].
      destruct (Hc _ _ _ Ht Hr Hn) as [?|[->|?]%elem_of_cons]; [left; set_solver|left; set_solver|by right].
    + split_and!; [done|set_solver|]. intros o [->|Ho]%elem_of_cons; [set_solver|auto].
Qed.

(** Only what [S] holds of is marked, if it holds of the children of what it holds of. *)
Lemma mark_tree_sound (S : ObjectId → Prop) fuel pending live live' :
  (∀ tree nodes node, S tree → read_tree s tree = Ok nodes → node ∈ nodes → S (n_oid node)) →
  (∀ o, o ∈ pending → S o) → (∀ o, o ∈ live → S o) →
  mark_tree s fuel pending live = Some (Ok live') → ∀ o, o ∈ live' → S o.
Proof.
  intros HS. revert pending live. induction fuel as [|fuel IH]; intros [|tree pending] live Hp Hl;
    cbn [mark_tree]; try done; try (by intros [= <-]).
  case_bool_decide; [apply IH; [|done]; intros o Ho; apply Hp; by right|].
  destruct (read_tree s tree) as [nodes|[| | | | |]] eqn:Er; try done.
  - pose proof (mark_nodes_spec nodes pending ({[tree]} ∪ live)) as Hspec.
    destruct (mark_nodes _ _ _) as [pending' live1]. destruct Hspec as (_ & Hp' & Hv').
    apply IH.
    + intros o [Ho|(nd & Hnd & _ & <-)]%Hp'; [apply Hp; by right|].
      eapply HS; [|done|done]. apply Hp. by left.
    + intros o [[->%elem_of_singleton|Ho]%elem_of_union|(nd & Hnd & _ & <-)]%Hv'; [apply Hp; by left|auto|].
      eapply HS; [|done|done]. apply Hp. by left.
  - apply IH; [intros o Ho; apply Hp; by right|].
    intros o [->%elem_of_singleton|Ho]%elem_of_union; [apply Hp; by left|auto].
Qed.

(** *** Snapshots *)

Lemma parts_nodes_go id es f m files meta :
  parts_of id es f m = Ok (files, meta) →
  (∀ x, f = Some x → x = files) ∧ (∀ x, m = Some x → x = meta) ∧
  ∃ nodes, collect_ok (read_node id) es = Ok nodes ∧
    (∀ nd, nd ∈ nodes → (is_tree nd = true ∧ n_oid nd = files) ∨ (is_tree nd = false ∧ n_oid nd = meta)) ∧
    (m = None → ∃ nd, nd ∈ nodes ∧ is_tree nd = false ∧ n_oid nd = meta) ∧
    (f = None → ∃ nd, nd ∈ nodes ∧ is_tree nd = true ∧ n_oid nd = files).
Proof.
  revert f m. induction es as [|e es IH]; intros f m; cbn [parts_of].
  { destruct f, m; try done. intros [= -> ->]. split_and!; [by intros ? [=]|by intros ? [=]|].
    exists []. split_and!; [done|by intros nd ?%elem_of_nil|done|done]. }
  destruct e as [t|]; [|done].
  destruct (mode t) eqn:Em; try done; [destruct f; [done|]|destruct m; [done|]];
    case_bool_decide as Hn; try done; intros H; destruct (IH _ _ H) as (Hf & Hm & nodes & Hc & Hall & Hl & Ht);
    cbn [collect_ok]; unfold read_node at 1; rewrite Hn, Em;
    [assert (valid_name FILES = true) as -> by (vm_compute; reflexivity)
    |assert (valid_name META = true) as -> by (vm_compute; reflexivity)]; simpl; rewrite Hc; simpl.
  - specialize (Hf _ eq_refl). split_and!; [done|done|]. eexists. split_and!; [done| | |].
    + intros nd [->|Hnd]%elem_of_cons; [by left|auto].
    + intros Hm'. destruct (Hl Hm') as (nd & ? & ?). exists nd. split; [by right|done].
    + intros _. eexists. split; [by left|done].
  - specialize (Hm _ eq_refl). split_and!; [done|done|]. eexists. split_and!; [done| | |].
    + intros nd [->|Hnd]%elem_of_cons; [by right|auto].
    + intros _. eexists. split; [by left|done].
    + intros Hf'. destruct (Ht Hf') as (nd & ? & ?). exists nd. split; [by right|done].
Qed.

Lemma parts_nodes id files meta :
  snapshot_parts s id = Ok (files, meta) →
  ∃ nodes, read_tree s id = Ok nodes ∧
    (∀ nd, nd ∈ nodes → (is_tree nd = true ∧ n_oid nd = files) ∨ (is_tree nd = false ∧ n_oid nd = meta)) ∧
    (∃ nd, nd ∈ nodes ∧ is_tree nd = false ∧ n_oid nd = meta) ∧
    ∃ nd, nd ∈ nodes ∧ is_tree nd = true ∧ n_oid nd = files.
Proof.
  unfold snapshot_parts, read_tree. destruct (read_object s id KTree) as [data|]; simpl; [|done].
  intros (_ & _ & nodes & Hc & Hall & Hl & Ht)%parts_nodes_go. exists nodes. auto.
Qed.

Lemma parts_missing id o :
  snapshot_parts s id = Err (Missing o) → not_a_tree s id.
Proof.
  unfold snapshot_parts, not_a_tree, read_tree.
  destruct (read_object s id KTree) as [data|e]; simpl; [|by intros [= ->]].
  assert (∀ es f m, parts_of id es f m ≠ Err (Missing o)) as Hno; [|by intros ?%Hno].
  intros es. induction es as [|[t|] es IH]; intros f m; cbn [parts_of]; [by destruct f, m| |done].
  destruct (mode t), f, m; try done; case_bool_decide; try done; apply IH.
Qed.

Lemma mark_snapshot_closed id live live' :
  closed s live [] → mark_snapshot s id live = Some (Ok live') →
  closed s live' [] ∧ live ⊆ live' ∧ id ∈ live'.
Proof.
  intros Hc. unfold mark_snapshot. case_bool_decide; [by intros [= <-]|].
  destruct (snapshot_parts s id) as [[files meta]|[| | | | |]] eqn:Ep; try done.
  - destruct (parts_nodes _ _ _ Ep) as (nodes & Hr & Hall & (nd & Hnd & Hleaf & Hmeta) & _).
    assert (closed s ({[meta]} ∪ ({[id]} ∪ live)) [files]) as Hc1.
    { intros t nodes' node Ht Hr' Hn'.
      apply elem_of_union in Ht as [->%elem_of_singleton|[->%elem_of_singleton|Ht]%elem_of_union].
      - exfalso. rewrite <- Hmeta in Hr'. by apply (Htyped _ _ _ Hr Hnd Hleaf nodes').
      - assert (nodes' = nodes) as -> by congruence.
        destruct (Hall _ Hn') as [[_ ->]|[_ ->]]; [right; by left|left; set_solver].
      - destruct (Hc _ _ _ Ht Hr' Hn') as [?|Hx]; [left; set_solver|by apply elem_of_nil in Hx]. }
    intros Hmt. destruct (mark_tree_closed _ _ _ _ Hc1 Hmt) as (H1 & H2 & _).
    split_and!; [done|set_solver|set_solver].
  - intros [= <-]. split_and!; [|set_solver|set_solver].
    intros t nodes node Ht Hr Hn. apply elem_of_union in Ht as [->%elem_of_singleton|Ht].
    + by apply (parts_missing _ _ Ep) in Hr.
    + destruct (Hc _ _ _ Ht Hr Hn) as [?|Hx]; [left; set_solver|by apply elem_of_nil in Hx].
Qed.

Lemma mark_snapshot_sound (S : ObjectId → Prop) id live live' :
  (∀ tree nodes node, S tree → read_tree s tree = Ok nodes → node ∈ nodes → S (n_oid node)) →
  S id → (∀ o, o ∈ live → S o) → mark_snapshot s id live = Some (Ok live') → ∀ o, o ∈ live' → S o.
Proof.
  intros HS Hid Hl. unfold mark_snapshot. case_bool_decide; [by intros [= <-]|].
  destruct (snapshot_parts s id) as [[files meta]|[| | | | |]] eqn:Ep; try done.
  - destruct (parts_nodes _ _ _ Ep) as (nodes & Hr & _ & (nd1 & Hn1 & _ & <-) & (nd2 & Hn2 & _ & <-)).
    apply mark_tree_sound; [done| |].
    + intros o ->%list_elem_of_singleton. by eapply HS.
    + intros o. rewrite !elem_of_union, !elem_of_singleton. intros [->|[->|?]]; eauto.
  - intros [= <-] o. rewrite elem_of_union, elem_of_singleton. intros [->|?]; auto.
Qed.

Lemma mark_roots_spec (S : ObjectId → Prop) roots live live' :
  (∀ tree nodes node, S tree → read_tree s tree = Ok nodes → node ∈ nodes → S (n_oid node)) →
  (∀ id, id ∈ roots → S id) → (∀ o, o ∈ live → S o) →
  closed s live [] → mark_roots s roots live = Some (Ok live') →
  closed s live' [] ∧ live ⊆ live' ∧ (∀ id, id ∈ roots → id ∈ live') ∧ ∀ o, o ∈ live' → S o.
Proof.
  intros HS. revert live. induction roots as [|root roots IH]; intros live Hroots Hl Hc; cbn [mark_roots].
  { intros [= <-]. split_and!; [done|done|by intros ? ?%elem_of_nil|done]. }
  destruct (mark_snapshot s root live) as [[live1|]|] eqn:Em; simpl; try done. intros H.
  destruct (mark_snapshot_closed _ _ _ Hc Em) as (Hc1 & Hsub1 & Hin1).
  assert (∀ o, o ∈ live1 → S o) as Hl1.
  { eapply mark_snapshot_sound; [done| |done|done]. apply Hroots. by left. }
  destruct (IH live1) as (Hc2 & Hsub2 & Hin2 & Hs2); [intros id Hid; apply Hroots; by right|done..|].
  split_and!; [done|set_solver| |done]. intros id [->|Hid]%elem_of_cons; auto.
Qed.

End marking.

(** ** Sweeping *)

Definition any (d : Disk) : Prop := True.

(** Nothing that reading objects depends on has changed. *)
Definition disk_keeps (d d' : Disk) : Prop :=
  named d' = named d ∧ unreadable d' = unreadable d ∧ directories d' = directories d.
Definition keeps (w w' : Store) : Prop := disk_keeps (disk w) (disk w') ∧ options w' = options w.

#[export] Instance disk_keeps_preorder : PreOrder disk_keeps.
Proof.
  split; [intros d; by split_and!|]. intros d1 d2 d3 (?&?&?) (?&?&?). split_and!; congruence.
Qed.
Lemma keeps_trans w1 w2 w3 : keeps w1 w2 → keeps w2 w3 → keeps w1 w3.
Proof. intros [H1 ?] [H2 ?]. split; [by etrans|congruence]. Qed.
Lemma keeps_from d w w' : disk_keeps d (disk w) → keeps w w' → disk_keeps d (disk w').
Proof. intros ? [? _]. by etrans. Qed.

(** A call that only looks. *)
Lemma wp_look {A} (f : Disk → A) d0 w (Q : Result A StoreError → Store → Prop) :
  disk_keeps d0 (disk w) → (∀ w', keeps w w' → Q (Err Io) w') →
  (∀ fl w', keeps w w' → Q (Ok (f (with_faults fl (disk w)))) w') →
  wp (disk_keeps d0) (call (λ d, (Ok (f d), d))) w Q.
Proof. intros Hd H1 H2. apply wp_call; intros fl; simpl; (split; [exact Hd|]); [by apply H1|by apply H2]. Qed.

Lemma wp_sweep_objects d0 live oids plan w :
  disk_keeps d0 (disk w) → wp (disk_keeps d0) (sweep_objects live oids plan) w (λ r w', keeps w w' ∧
    ∀ p, r = Ok p → ∀ o, o ∈ map fst p ↔ o ∈ map fst plan ∨ (o ∈ oids ∧ o ∉ live)).
Proof.
  revert plan w. induction oids as [|oid oids IH]; intros plan w Hd; cbn [sweep_objects].
  { apply wp_ret. split; [done|]. intros p [= ->] o. split; [by left|].
    intros [?|[Ho _]]; [done|by apply elem_of_nil in Ho]. }
  case_bool_decide as Hlive.
  - eapply wp_mono; [by apply IH|done|]. intros r w' [Hk Hp]. split; [done|]. intros p Hr o.
    rewrite (Hp p Hr), elem_of_cons. naive_solver.
  - apply wp_bind, wp_look; [done|by intros w' Hk; split|]. intros fl w1 Hk1.
    eapply wp_mono; [by apply IH; eapply keeps_from|done|]. intros r w' [Hk Hp]. split; [by eapply keeps_trans|].
    intros p Hr o. rewrite (Hp p Hr), map_app, elem_of_app, elem_of_cons. cbn [map fst].
    rewrite list_elem_of_singleton. naive_solver.
Qed.

Lemma wp_sweep_directories d0 live bytes plan w :
  disk_keeps d0 (disk w) → wp (disk_keeps d0) (sweep_directories live bytes plan) w (λ r w', keeps w w' ∧
    ∀ p, r = Ok p → ∀ o, o ∈ map fst p ↔ o ∈ map fst plan ∨
      (first_byte o ∈ bytes ∧ is_Some (named (disk w) !! o) ∧ o ∉ live)).
Proof.
  revert plan w. induction bytes as [|byte bytes IH]; intros plan w Hd; cbn [sweep_directories].
  { apply wp_ret. split; [done|]. intros p [= ->] o. split; [by left|].
    intros [?|[Ho _]]; [done|by apply elem_of_nil in Ho]. }
  apply wp_bind, wp_look; [done|by intros w' Hk; split|]. intros fl w1 Hk1.
  apply wp_bind. eapply wp_mono; [by apply wp_sweep_objects; eapply keeps_from|done|].
  intros [plan'|e] w2 [Hk2 Hp2]; [|split; [by eapply keeps_trans|done]].
  assert (keeps w w2) as Hk12 by (by eapply keeps_trans).
  eapply wp_mono; [by apply IH; eapply keeps_from|done|]. intros r w3 [Hk3 Hp3].
  split; [by eapply keeps_trans|]. intros p Hr o. rewrite (Hp3 p Hr), (Hp2 _ eq_refl).
  destruct Hk12 as [(-> & _) _]. unfold objects_in. rewrite elem_of_elements, elem_of_dom, elem_of_cons.
  simpl. assert (is_Some (filter (λ '(oid, _), first_byte oid = byte) (named (disk w)) !! o) ↔
    is_Some (named (disk w) !! o) ∧ first_byte o = byte) as ->.
  { split.
    - intros [f [Hf Hb]%map_lookup_filter_Some]. by split; [eexists|].
    - intros [[f Hf] Hb]. exists f. by apply map_lookup_filter_Some. }
  naive_solver.
Qed.

Lemma wp_sweep_temporaries d0 ts plan w :
  disk_keeps d0 (disk w) → wp (disk_keeps d0) (sweep_temporaries ts plan) w (λ _ w', keeps w w').
Proof.
  revert plan w. induction ts as [|t ts IH]; intros plan w Hd; cbn [sweep_temporaries];
    [by apply wp_ret|].
  apply wp_bind, wp_look; [done..|]. intros fl w1 Hk1. eapply wp_mono; [by apply IH; eapply keeps_from|done|].
  intros r w' Hk. by eapply keeps_trans.
Qed.

Lemma wp_garbage_keeping previous roots objects w :
  wp (disk_keeps (disk w)) (garbage_keeping previous roots objects) w (λ r w', keeps w w' ∧
    ∀ plan, r = Ok plan → ∃ live,
      mark_roots w roots (list_to_set (previous ++ objects)) = Some (Ok live) ∧
      ∀ o, o ∈ map fst (g_objects plan) ↔
        is_Some (named (disk w) !! o) ∧ o ∉ live ∧ is_Some (directories (disk w) !! first_byte o)).
Proof.
  unfold garbage_keeping. apply wp_bind, wp_handle. cbn [fst snd]. apply wp_bind, wp_lift.
  destruct (mark_roots w roots _) as [[live|e]|]; [|by split..].
  apply wp_bind. apply (wp_look (λ d, (elements (dom (directories d)), elements (dom (temporaries d)))));
    [done|by intros w' Hk; split|]. intros fl w1 Hk1.
  apply wp_bind. eapply wp_mono; [apply wp_sweep_temporaries, Hk1|done|].
  intros [ts|e] w2 Hk2; [|split; [by eapply keeps_trans|done]].
  apply wp_bind. eapply wp_mono; [apply wp_sweep_directories; by eapply keeps_from, Hk2; eapply Hk1|done|].
  assert (keeps w w2) as Hk12 by (by eapply keeps_trans).
  intros [os|e] w3 [Hk3 Hp3]; [|split; [by eapply keeps_trans|done]].
  apply wp_ret. split; [by eapply keeps_trans|]. intros plan [= <-]. exists live. split; [done|].
  intros o. cbn [g_objects]. rewrite (merge_sort_Permutation object_le os), (Hp3 _ eq_refl).
  rewrite elem_of_elements, elem_of_dom. destruct Hk12 as [(-> & _) _]. cbn [map with_faults directories].
  split; [intros [Ho|?]; [by apply elem_of_nil in Ho|naive_solver]|naive_solver].
Qed.

(** What deleting the objects of a plan leaves, at every moment of it. *)
Definition disk_without (os : list ObjectId) (d d' : Disk) : Prop :=
  (∀ o, o ∉ os → named d' !! o = named d !! o) ∧
  (∀ o, is_Some (named d' !! o) → is_Some (named d !! o)) ∧
  unreadable d' = unreadable d.
Definition only_without (os : list ObjectId) (w w' : Store) : Prop :=
  disk_without os (disk w) (disk w') ∧ options w' = options w.

#[export] Instance disk_without_preorder os : PreOrder (disk_without os).
Proof.
  split; [intros d; by split_and!|]. intros d1 d2 d3 (H1 & H2 & H3) (H4 & H5 & H6).
  split_and!; [intros o Ho; by rewrite H4, H1|auto|congruence].
Qed.

Lemma keeps_without os w w' : keeps w w' → only_without os w w'.
Proof. intros [(Hn & Hu & _) Ho]. split; [|done]. split_and!; [by rewrite Hn|by rewrite Hn|done]. Qed.

Lemma wp_collect_objects P objects freed w :
  (∀ d, disk_without (map fst objects) (disk w) d → P d) →
  wp P (collect_objects objects freed) w (λ r w', only_without (map fst objects) w w' ∧
    (is_ok r = true → ∀ o, o ∈ map fst objects → named (disk w') !! o = None)).
Proof.
  revert freed w. induction objects as [|[oid bytes] objects IH]; intros freed w HP; cbn [collect_objects].
  { apply wp_ret. split; [by split|]. by intros _ o ?%elem_of_nil. }
  assert (∀ fl, disk_without (oid :: map fst objects) (disk w)
    (with_named (delete oid (named (disk w))) (with_durable (durable (disk w) ∖ {[oid]})
      (with_faults fl (disk w))))) as Hone.
  { intros fl. split_and!; simpl; [|by intros o [f [_ ?]%lookup_delete_Some]|done].
    intros o [Hne _]%not_elem_of_cons. by rewrite lookup_delete_ne. }
  apply wp_bind, wp_call; intros fl; simpl; (split; [apply HP|]).
  { by split_and!. }
  { split; [split; [by split_and!|done]|done]. }
  { apply Hone. }
  assert (∀ d, disk_without (map fst objects) (with_named (delete oid (named (disk w)))
      (with_durable (durable (disk w) ∖ {[oid]}) (with_faults fl (disk w)))) d →
    disk_without (oid :: map fst objects) (disk w) d) as Hmore.
  { intros d (H1 & H2 & H3). etrans; [apply (Hone fl)|]. split_and!; [|done|done].
    intros o [_ Ho]%not_elem_of_cons. by apply H1. }
  eapply wp_mono; [apply IH; intros d Hd; apply HP, Hmore, Hd|intros e He; exact He|].
  intros r w' [[Hd Ho] Hgone]. split; [split; [by apply Hmore|done]|].
  intros Hr o Hin. destruct (decide (o ∈ map fst objects)) as [?|Hnin]; [auto|].
  apply elem_of_cons in Hin as [->|?]; [|done]. destruct Hd as (Hn & _).
  rewrite Hn by done. simpl. by rewrite lookup_delete_eq.
Qed.

Lemma wp_collect_temporaries (P : Disk → Prop) os ts freed w :
  (∀ d, disk_without os (disk w) d → P d) →
  wp P (collect_temporaries ts freed) w (λ _ w', keeps w w').
Proof.
  revert freed w. induction ts as [|[t bytes] ts IH]; intros freed w HP; cbn [collect_temporaries];
    [by apply wp_ret|].
  apply wp_bind, wp_call; intros fl; simpl; (split; [apply HP; by split_and!|]); [done|].
  eapply wp_mono; [apply IH; intros d Hd; apply HP; by etrans; [|exact Hd]|intros e He; exact He|].
  intros r w' Hk. by eapply keeps_trans.
Qed.

Lemma wp_collect P plan w :
  (∀ d, disk_without (map fst (g_objects plan)) (disk w) d → P d) →
  wp P (collect plan) w (λ r w', only_without (map fst (g_objects plan)) w w' ∧
    (is_ok r = true → ∀ o, o ∈ map fst (g_objects plan) → named (disk w') !! o = None)).
Proof.
  intros HP. unfold collect. apply wp_bind.
  eapply wp_mono; [by apply wp_collect_objects|intros e He; exact He|].
  intros [freed|e] w1 ((Hw & Ho) & Hgone); [|by split]. apply wp_bind, wp_attempt.
  eapply wp_mono; [apply (wp_collect_temporaries P (map fst (g_objects plan)))|intros e He; exact He|].
  { intros d Hd. apply HP. by etrans. }
  intros r w2 Hk. pose proof (keeps_without (map fst (g_objects plan)) w1 w2 Hk) as [Hw2 Ho2].
  cbn beta iota. apply wp_bind, wp_handle. cbn [fst snd]. apply wp_lift. split.
  - split; simpl; [by etrans|congruence].
  - intros _ o Hoo. simpl. destruct Hk as [[Hn2 _] _]. rewrite Hn2. by apply Hgone.
Qed.

(** ** What a collection keeps *)

(** Objects that are kept read as they did. *)
Lemma read_object_kept os w w' o k :
  only_without os w w' → o ∉ os → read_object w' o k = read_object w o k.
Proof.
  intros [(Hn & _ & Hu) Ho] Hin. unfold read_object, try_find. by rewrite Hn, Hu, Ho by done.
Qed.

Section kept.
Context (w w' : Store) (roots : list ObjectId).
Context (Hread : ∀ o k, reachable w roots o → read_object w' o k = read_object w o k).

Lemma read_tree_kept tree : reachable w roots tree → read_tree w' tree = read_tree w tree.
Proof. intros Ho. unfold read_tree. by rewrite Hread. Qed.

Lemma snapshot_parts_kept id : id ∈ roots → snapshot_parts w' id = snapshot_parts w id.
Proof. intros Ho. unfold snapshot_parts. by rewrite Hread by by apply reach_root. Qed.

Lemma read_meta_kept oid : reachable w roots oid → read_meta w' oid = read_meta w oid.
Proof. intros Ho. unfold read_meta, read_blob. by rewrite Hread. Qed.

Lemma collect_loop_kept collect collect' tree prefix bound nodes es :
  (∀ nd p es, nd ∈ nodes → collect' (n_oid nd) p es = collect (n_oid nd) p es) →
  collect_loop collect' tree prefix bound nodes es = collect_loop collect tree prefix bound nodes es.
Proof.
  revert es. induction nodes as [|nd nodes IH]; intros es Hc; cbn [collect_loop]; [done|].
  assert (∀ es, collect_loop collect' tree prefix bound nodes es =
    collect_loop collect tree prefix bound nodes es) as IH'.
  { intros es'. apply IH. intros nd' p es'' Hnd. apply Hc. by right. }
  destruct (node_content nd); [by rewrite IH'|]. rewrite Hc by by left.
  by destruct (collect (n_oid nd) _ es) as [es'|]; simpl.
Qed.

Lemma collect_entries_kept remaining bound tree prefix es :
  reachable w roots tree →
  collect_entries w' remaining bound tree prefix es = collect_entries w remaining bound tree prefix es.
Proof.
  revert tree prefix es. induction remaining as [|n IH]; intros tree prefix es Ht; [done|].
  cbn [collect_entries]. rewrite read_tree_kept by done.
  destruct (read_tree w tree) as [nodes|] eqn:Er; [|done]. simpl. apply collect_loop_kept.
  intros nd p es' Hnd. apply IH. by eapply reach_child.
Qed.

Lemma entries_kept id : id ∈ roots → entries w' id = entries w id.
Proof.
  intros Hid. unfold entries. rewrite snapshot_parts_kept by done.
  destruct (snapshot_parts w id) as [[files meta]|] eqn:Ep; simpl; [|done].
  destruct (parts_nodes _ _ _ _ Ep) as (nodes & Hr & _ & (nd1 & Hn1 & _ & <-) & nd2 & Hn2 & _ & <-).
  assert (∀ nd, nd ∈ nodes → reachable w roots (n_oid nd)) as Hc.
  { intros nd Hnd. eapply reach_child; [by apply reach_root|done|done]. }
  rewrite read_meta_kept by auto. destruct (read_meta w _) as [m|]; simpl; [|done].
  by rewrite collect_entries_kept by auto.
Qed.
End kept.

(** What is marked is what is named or reached. *)
Lemma marked_live w previous roots live :
  typed w → (∀ o, o ∈ previous → not_a_tree w o) →
  mark_roots w roots (list_to_set previous) = Some (Ok live) →
  (∀ o, o ∈ previous ∨ reachable w roots o → o ∈ live) ∧
  (∀ o, o ∈ live → o ∈ previous ∨ reachable w roots o).
Proof.
  intros Ht Hnot Hmark.
  destruct (mark_roots_spec w Ht (λ o, o ∈ previous ∨ reachable w roots o) roots
    (list_to_set previous) live) as (Hc & Hsub & Hroots & Hsound); [..|exact Hmark|split; [|done]].
  - intros tree nodes node [Htree|Htree] Hr Hn; [by apply Hnot in Hr|]. right. by eapply reach_child.
  - intros id Hid. right. by apply reach_root.
  - intros o Ho. left. by apply elem_of_list_to_set in Ho.
  - intros tree nodes node Htree Hr Hn. apply elem_of_list_to_set in Htree. by apply Hnot in Hr.
  - intros o [Ho|Ho]; [by apply Hsub, elem_of_list_to_set|].
    induction Ho as [id Hid|tree nodes node _ IH Hr Hn]; [auto|].
    destruct (Hc _ _ _ IH Hr Hn) as [?|Hx]; [done|by apply elem_of_nil in Hx].
Qed.

(** Deleting what is not live leaves what is kept as it was. *)
Lemma without_garbage previous roots objects w live os w' :
  typed w → (∀ o, o ∈ previous ++ objects → not_a_tree w o) →
  mark_roots w roots (list_to_set (previous ++ objects)) = Some (Ok live) →
  (∀ o, o ∈ live → o ∉ os) → only_without os w w' →
  (∀ o, o ∈ previous ++ objects ∨ reachable w roots o → named (disk w') !! o = named (disk w) !! o) ∧
  (∀ id, id ∈ roots → entries w' id = entries w id).
Proof.
  intros Ht Hnot Hmark Hkept Hw. destruct (marked_live _ _ _ _ Ht Hnot Hmark) as [Hlive _]. split.
  - intros o Ho. apply Hw, Hkept. auto.
  - intros id Hid. apply (entries_kept w _ roots); [|done]. intros o k Ho.
    apply (read_object_kept _ _ _ _ _ Hw), Hkept. auto.
Qed.

(** C10: A collection deletes nothing that a root reaches or the caller or the stat cache
    names, so every snapshot that is a root reads as it did, even when a deletion fails
    half way; and one that succeeds leaves nothing else of the directories it has seen. *)
Theorem collect_keeps_reachable previous roots objects w :
  typed w → (∀ o, o ∈ previous ++ objects → not_a_tree w o) →
  let '(planned, s1) := garbage_keeping previous roots objects (start w) in
  ∀ plan, planned = Ok plan →
  let '(collected, s2) := collect plan s1 in
  (∀ o, o ∈ previous ++ objects ∨ reachable w roots o →
     named (disk (world s2)) !! o = named (disk w) !! o) ∧
  (∀ id, id ∈ roots → entries (world s2) id = entries w id) ∧
  (is_ok collected = true → ∀ o, is_Some (named (disk (world s2)) !! o) →
     is_Some (directories (disk w) !! first_byte o) →
     o ∈ previous ++ objects ∨ reachable w roots o).
Proof.
  intros Ht Hnot. destruct (wp_garbage_keeping previous roots objects w (start w) eq_refl) as ((Hk & Hp) & _).
  destruct (garbage_keeping previous roots objects (start w)) as [planned s1]. simpl in *.
  intros plan ->. destruct (Hp plan eq_refl) as (live & Hmark & Hplan). clear Hp.
  destruct (wp_collect any plan (world s1) ltac:(done) s1 eq_refl) as ((Hw & Hgone) & _).
  destruct (collect plan s1) as [collected s2]. simpl in *.
  destruct (marked_live _ _ _ _ Ht Hnot Hmark) as [_ Hsound].
  assert (only_without (map fst (g_objects plan)) w (world s2)) as Hw'.
  { destruct (keeps_without (map fst (g_objects plan)) _ _ Hk) as [Hd1 Ho1].
    destruct Hw as [Hd2 Ho2]. split; [by etrans|congruence]. }
  destruct (without_garbage previous roots objects w live _ _ Ht Hnot Hmark ltac:(naive_solver) Hw') as [H1 H2].
  split_and!; [done|done|].
  intros Hr o Hf Hdir. apply Hsound. destruct (decide (o ∈ live)) as [?|Hnl]; [done|]. exfalso.
  assert (o ∈ map fst (g_objects plan)) as Hin.
  { apply Hplan. split_and!; [|done|done]. by apply Hw'. }
  rewrite (Hgone Hr _ Hin) in Hf. by destruct Hf.
Qed.
End collect.

(** ** Example *)

Module ExampleCollect.
Import ExampleTrees.

(** Whether a store is [typed], by its objects. *)
Definition typed_bool (s : Store) : bool :=
  forallb (λ tree,
    match read_tree s tree with
    | Ok nodes => forallb (λ n, is_tree n || negb (is_ok (read_tree s (n_oid n)))) nodes
    | Err _ => true
    end) (elements (dom (named (disk s)))).

Lemma typed_bool_typed s : typed_bool s = true → typed s.
Proof.
  intros H tree nodes node Hr Hn Hl nodes' Hr'. unfold typed_bool in H.
  rewrite forallb_forall in H. specialize (H tree). rewrite Hr in H.
  specialize (H ltac:(by apply list_elem_of_In, elem_of_elements, (read_tree_named _ _ nodes))).
  rewrite forallb_forall in H. specialize (H node). rewrite Hl, Hr' in H.
  by discriminate (H (proj1 (list_elem_of_In _ _) Hn)).
Qed.

(** Two captures and a blob that neither names; the second capture is no root. *)
Definition with_orphan : Store :=
  let '(b1, s1) := build first_capture (meta [] 4) (start empty) in
  let '(_, s2) := build second_capture (meta [] 3) s1 in
  let '(_, s3) := write_object KBlob [7%N] s2 in
  world (sync s3).2.

Definition first_id : ObjectId :=
  match (build first_capture (meta [] 4) (start empty)).1 with Ok id => id | Err _ => [] end.

Definition plan_bytes (plan : GarbagePlan) : N := u_bytes (plan_usage plan).

(** Of the captures' seven trees and two blobs of metadata, and the orphan, the three trees
    and the metadata of the first capture stay. *)
Example collect_sweeps :
  (let '(planned, s1) := garbage_keeping [] [first_id] [] (start with_orphan) in
   match planned with
   | Ok plan =>
       let '(collected, s2) := collect plan s1 in
       (size (named (disk with_orphan)), length (g_objects plan), is_ok collected,
        size (named (disk (world s2))), bool_decide (is_Some (named (disk (world s2)) !! [1; 7]%N)))
   | Err _ => (0, 0, false, 0, false)
   end) = (10, 6, true, 4, false).
Proof. vm_compute. reflexivity. Qed.

Lemma collect_keeps_reachable_witness :
  let '(planned, s1) := garbage_keeping [[1; 7]%N] [first_id] [] (start with_orphan) in
  ∃ plan, planned = Ok plan ∧ length (g_objects plan) = 5 ∧
    let '(collected, s2) := collect plan s1 in
    collected = Ok {| u_objects := 5; u_bytes := plan_bytes plan |} ∧
    entries (world s2) first_id = entries with_orphan first_id ∧
    is_ok (entries with_orphan first_id) = true ∧
    named (disk (world s2)) !! [1; 7]%N = named (disk with_orphan) !! [1; 7]%N.
Proof.
  assert (typed with_orphan) as Ht by (apply typed_bool_typed; vm_compute; reflexivity).
  assert (∀ o, o ∈ [[1; 7]%N] ++ [] → not_a_tree with_orphan o) as Hnot.
  { intros o ->%list_elem_of_singleton nodes. vm_compute. discriminate. }
  assert (is_ok (entries with_orphan first_id) = true) as Er by (vm_compute; reflexivity).
  pose proof (collect_keeps_reachable [[1; 7]%N] [first_id] [] with_orphan Ht Hnot) as H.
  clear Ht Hnot.
  assert (match garbage_keeping [[1; 7]%N] [first_id] [] (start with_orphan) with
    | (Ok plan, s1) => length (g_objects plan) = 5 ∧
        (collect plan s1).1 = Ok {| u_objects := 5; u_bytes := plan_bytes plan |}
    | _ => False end) as E by (vm_compute; split; reflexivity).
  revert Er H E. generalize with_orphan first_id. intros w id Er H E.
  destruct (garbage_keeping [[1; 7]%N] [id] [] (start w)) as [[plan|e] s1]; [|done].
  destruct E as [El Ec].
  specialize (H plan eq_refl). exists plan. split; [done|]. split; [done|].
  destruct (collect plan s1) as [collected s2]. destruct H as (Hn & He & _).
  split; [exact Ec|]. split; [apply He; by left|]. split; [exact Er|].
  apply Hn. left. by left.
Defined.

End ExampleCollect.
