(* ===== verification/Records.v ===== *)
(** * Change records

    [workspace-snapshot/src/format.rs] and what it takes of [workcell-host-contract]: the
    records of what calls changed, the journals of reverts, what makes each valid, and the
    names and texts the store gives them.

    Paths and names are the bytes of Rust strings, holders their characters; a client's
    metadata is opaque. *)

From stdpp Require Import gmap sorting.
From S2P Require Import Prelude Utf8 ObjectStore SnapshotTree.

(** ** Sorting by bytes *)

Definition bytes_le (a b : list N) : Prop := bytes_cmp a b ≠ Gt.
#[export] Instance bytes_le_dec a b : Decision (bytes_le a b).
Proof. unfold bytes_le. apply _. Defined.
#[export] Instance bytes_le_total : Total bytes_le.
Proof.
  intros a b. unfold bytes_le. rewrite (bytes_cmp_antisym a b).
  destruct (bytes_cmp a b); simpl; auto.
Qed.
#[export] Instance bytes_le_trans : Transitive bytes_le.
Proof.
  intros a b c. unfold bytes_le. rewrite !bytes_cmp_gt. intros H1 H2 H3.
  destruct (bytes_total a b) as [H|[H|H]]; [|by rewrite <- H in H2|done].
  apply H2. by eapply bytes_cmp_trans.
Qed.

Definition key_le {A} (key : A → list N) (a b : A) : Prop := bytes_le (key a) (key b).
#[export] Instance key_le_dec {A} (key : A → list N) a b : Decision (key_le key a b).
Proof. unfold key_le. apply _. Defined.
#[export] Instance key_le_total {A} (key : A → list N) : Total (key_le key).
Proof. intros a b. apply bytes_le_total. Qed.
#[export] Instance key_le_trans {A} (key : A → list N) : Transitive (key_le key).
Proof. intros a b c. apply bytes_le_trans. Qed.

(** [sort_unstable_by] on keys that differ. *)
Definition sort_by {A} (key : A → list N) (l : list A) : list A := merge_sort (key_le key) l.

(** The entries of a [BTreeMap] whose keys are strings. *)
Definition btree {A} (m : gmap (list N) A) : list (list N * A) := sort_by fst (map_to_list m).

(** ** Contract *)

Definition MAX_WORKSPACE_PATH_BYTES : nat := 4096.
Definition MAX_RECORD_HOLDER_BYTES : nat := 128.
Definition MAX_RECORD_SCOPE_PATHS : nat := 512.
Definition MAX_SNAPSHOT_FILES : N := 50000.
Definition MAX_SNAPSHOT_FILE_BYTES : N := 104857600.
Definition MAX_SNAPSHOT_TOTAL_BYTES : N := 536870912.
#[global] Opaque MAX_WORKSPACE_PATH_BYTES MAX_RECORD_SCOPE_PATHS.

Definition BACKSLASH : N := 92%N.

Definition validate_text (value : list N) (limit : nat) (allow_empty allow_nul : bool) :
    Result unit string :=
  if negb allow_empty && bool_decide (value = []) then Err "must not be empty"
  else if limit <? length value then Err "exceeds the byte limit"
  else if negb allow_nul && contains_char 0%N value then Err "must not contain NUL"
  else Ok tt.

Definition validate_opaque_string (value : str) (limit : nat) : Result unit string :=
  if bool_decide (value = []) then Err "must not be empty"
  else if limit <? str_len value then Err "exceeds the byte limit"
  else if negb (str_eqb (trim value) value) || existsb is_control value
  then Err "must be a trimmed printable value"
  else Ok tt.

Definition WorkspacePath_new (value : list N) : Result (list N) string :=
  (let? _ := validate_text value MAX_WORKSPACE_PATH_BYTES false false in
   if starts_with [SLASH] value || contains_char BACKSLASH value
   then Err "must use relative POSIX syntax"
   else Ok value)%W.

Definition RecordHolder_new (value : str) : Result str string :=
  (let? _ := validate_opaque_string value MAX_RECORD_HOLDER_BYTES in Ok value)%W.

Inductive UnrecordedReason :=
| UOversized | UUnstable | UUnreadable | UBlocked | USpecial | UInterleaved.
#[export] Instance UnrecordedReason_eq_dec : EqDecision UnrecordedReason.
Proof. solve_decision. Defined.

Inductive SnapshotLimit :=
| LFiles | LTotalBytes | LCaptureEntries | LCapturePathBytes | LDepth | LIgnoreRules
| LMetadataBytes | LPreparedBytes | LStorageBytes | LJournals | LOpenRecords | LRecords.
#[export] Instance SnapshotLimit_eq_dec : EqDecision SnapshotLimit.
Proof. solve_decision. Defined.

Inductive SnapshotError :=
| InvalidConfiguration | UnhealthyStorage | InvalidRequest | NotFound | IntegrityFailure
| UnsupportedFile | UnsupportedPlatform
| LimitExceeded (limit : SnapshotLimit) (maximum : option N)
| QuotaExceeded (limit : SnapshotLimit) (maximum : option N)
| Busy | TimedOut | Conflict | Cancelled | OperationFailed.
#[export] Instance SnapshotError_eq_dec : EqDecision SnapshotError.
Proof. solve_decision. Defined.

Definition limit_error (limit : SnapshotLimit) (maximum : N) : SnapshotError :=
  LimitExceeded limit (Some maximum).
Definition quota_error (limit : SnapshotLimit) (maximum : N) : SnapshotError :=
  QuotaExceeded limit (Some maximum).

Definition store_error (e : StoreError) : SnapshotError :=
  match e with
  | Missing _ | Corrupt _ | Collision => IntegrityFailure
  | DisjointScopes => InvalidRequest
  | Io | InvalidInput _ => OperationFailed
  end.

Record RecordLimits := { max_files : N; max_file_bytes : N; max_total_bytes : N }.
Inductive RecordScope := Paths (paths : list (list N)) | Workspace (directory : list N).

Abbreviation Client := (list N) (only parsing).

Record RecordRequest := {
  rq_scope : RecordScope; rq_holder : str; rq_client : Client; rq_limits : RecordLimits;
}.

(** A root-relative path of plain components. *)
Definition valid_path (path : list N) : bool :=
  is_ok (WorkspacePath_new path) &&
  forallb (fun component => negb (bool_decide (component ∈ [[]; DOT; DOTDOT])))
    (split_on SLASH path).

Definition workspace_path (path : list N) : Result (list N) SnapshotError :=
  match WorkspacePath_new path with Ok p => Ok p | Err _ => Err IntegrityFailure end.

(** ** What the store keeps *)

Definition PathState := option Content.

Definition FIRST_SEQ : N := 1.
Definition TICKET_PREFIX : list N := lit "rec_".
Definition REVERT_ID_PREFIX : list N := lit "revert_".
Definition RANDOM_ID_BYTES : nat := 32.
Definition SEQ_DIGITS : nat := 20.
Definition METADATA_SUFFIX : list N := lit ".json".

Record StoredState := { next_seq : N; st_bytes : N; st_records : N }.

(** Device, inode, size, mode, and both timestamps. *)
Definition Stamp : Type := N * N * N * N * (Z * Z) * (Z * Z).

Record Blind := { b_path : list N; b_reason : UnrecordedReason; b_stamp : option Stamp }.

Record StoredOpenRecord := {
  o_ticket : list N; o_request : RecordRequest; o_widened : bool; opened_seq : N;
  opened_at_unix_ms : N; o_before : list N; o_blind : list Blind;
}.

Record StoredChange := { sc_path : list N; before : PathState; after : PathState }.
#[export] Instance StoredChange_eq_dec : EqDecision StoredChange.
Proof. solve_decision. Defined.

Record StoredUnrecorded := { su_path : list N; su_reason : UnrecordedReason }.
#[export] Instance StoredUnrecorded_eq_dec : EqDecision StoredUnrecorded.
Proof. solve_decision. Defined.

Record StoredRecord := {
  seq : N; r_ticket : list N; holders : gset str; r_client : Client;
  r_changes : list StoredChange; unrecorded : list StoredUnrecorded;
}.

Inductive RevertDirection := Revert | Unrevert.
#[export] Instance RevertDirection_eq_dec : EqDecision RevertDirection.
Proof. solve_decision. Defined.

Inductive RevertState := Publishing | Completed | Partial | Indeterminate.
#[export] Instance RevertState_eq_dec : EqDecision RevertState.
Proof. solve_decision. Defined.

Record StoredJournal := {
  revert_id : list N; j_holder : str; order : N; direction : RevertDirection; j_seqs : list N;
  j_state : RevertState; total_files : nat; applied_files : nat; total_directories : nat;
  created_directories : nat; reconciliation_required : bool; stopped_at : option (list N);
}.

Record StoredEvicted := { ev_holder : str; ev_seq : N; ev_client : Client }.

(** ** Names and texts *)

Definition is_lower_hex (b : N) : bool :=
  is_ascii_digit b || ((97 <=? b) && (b <=? 102))%N.

Definition valid_random_id (id prefix : list N) : bool :=
  match strip_prefix prefix id with
  | Some random => (length random =? RANDOM_ID_BYTES) && forallb is_lower_hex random
  | None => false
  end.

Definition hex_digit (n : N) : N := if (n <? 10)%N then 48 + n else 87 + n.
Definition hex_value (b : N) : N := if (b <? 97)%N then b - 48 else b - 87.

(** The text of an id, and [parse_oid], which takes only that. *)
Fixpoint hex_of (oid : ObjectId) : list N :=
  match oid with
  | [] => []
  | b :: rest => hex_digit (b / 16) :: hex_digit (b mod 16) :: hex_of rest
  end.

Fixpoint from_hex (text : list N) : ObjectId :=
  match text with
  | h :: l :: rest => (hex_value h * 16 + hex_value l)%N :: from_hex rest
  | _ => []
  end.

Definition LEN_IN_HEX : nat := 40.

Definition parse_oid (hex : list N) : option ObjectId :=
  if (length hex =? LEN_IN_HEX) && forallb is_lower_hex hex then Some (from_hex hex) else None.

Definition FILE_MODE : list N := lit "100644".
Definition EXECUTABLE_MODE : list N := lit "100755".
Definition SYMLINK_MODE : list N := lit "120000".

Definition stored_mode (kind : EntryKind) : list N :=
  match kind with
  | SnapshotTree.File => FILE_MODE
  | Executable => EXECUTABLE_MODE
  | Symlink => SYMLINK_MODE
  end.

(** [StoredContent]: git's form of an entry. *)
Definition content_text (c : Content) : list N :=
  stored_mode (c_kind c) ++ SPACE :: hex_of (c_oid c).

Definition mode_kind (mode : list N) : option EntryKind :=
  if bool_decide (mode = FILE_MODE) then Some SnapshotTree.File
  else if bool_decide (mode = EXECUTABLE_MODE) then Some Executable
  else if bool_decide (mode = SYMLINK_MODE) then Some Symlink
  else None.

Definition parse_content (text : list N) : option Content :=
  '(mode, oid) ← split_once_char SPACE text;
  kind ← mode_kind mode;
  oid ← parse_oid oid;
  Some {| c_kind := kind; c_oid := oid |}.

(** [{seq:0SEQ_DIGITS$}]: a [u64] never has more digits. *)
Fixpoint pad_digits (width : nat) (n : N) : list N :=
  match width with
  | O => []
  | S width => pad_digits width (n / 10) ++ [48 + n mod 10]%N
  end.

Definition record_name (s : N) : list N := pad_digits SEQ_DIGITS s ++ METADATA_SUFFIX.

Definition parse_record_name (name : list N) : Result N SnapshotError :=
  ok_or
    (digits ← strip_suffix METADATA_SUFFIX name;
     if (length digits =? SEQ_DIGITS) && forallb is_ascii_digit digits
     then parse_unsigned U64_MAX digits else None)
    UnhealthyStorage.

(** ** Validity, checked on every read *)

Definition valid_holder (holder : str) : bool := is_ok (RecordHolder_new holder).

(** Each element beside its successor. *)
Fixpoint windows2 {A} (f : A → A → bool) (l : list A) : bool :=
  match l with
  | x :: (y :: _) as l' => f x y && windows2 f l'
  | _ => true
  end.

Definition bytes_ltb (a b : list N) : bool := bool_decide (bytes_lt a b).

Definition valid_state (s : StoredState) : bool := (FIRST_SEQ <=? next_seq s)%N.

Definition valid_open (o : StoredOpenRecord) : bool :=
  valid_random_id (o_ticket o) TICKET_PREFIX && bool_decide (is_Some (parse_oid (o_before o))) &&
  forallb (fun b => valid_path (b_path b)) (o_blind o).

Definition valid_record (r : StoredRecord) : bool :=
  (FIRST_SEQ <=? seq r)%N && valid_random_id (r_ticket r) TICKET_PREFIX &&
  forallb valid_holder (elements (holders r)) &&
  forallb (fun c => valid_path (sc_path c) && negb (bool_decide (before c = after c)))
    (r_changes r) &&
  windows2 (fun a b => bytes_ltb (sc_path a) (sc_path b)) (r_changes r) &&
  forallb (fun u => valid_path (su_path u)) (unrecorded r).

(** A header is read without the changes. *)
Definition valid_header (r : StoredRecord) : bool :=
  (FIRST_SEQ <=? seq r)%N && forallb valid_holder (elements (holders r)).

Definition valid_journal (j : StoredJournal) : bool :=
  valid_random_id (revert_id j) REVERT_ID_PREFIX && valid_holder (j_holder j) &&
  negb (bool_decide (j_seqs j = [])) && windows2 N.ltb (j_seqs j) &&
  (applied_files j <=? total_files j) && (created_directories j <=? total_directories j) &&
  match stopped_at j with None => true | Some path => valid_path path end.

Definition valid_evicted (e : StoredEvicted) : bool :=
  valid_holder (ev_holder e) && (FIRST_SEQ <=? ev_seq e)%N.

Definition StoredState_new : StoredState := {| next_seq := FIRST_SEQ; st_bytes := 0; st_records := 0 |}.

Definition before_id (o : StoredOpenRecord) : Result ObjectId SnapshotError :=
  ok_or (parse_oid (o_before o)) UnhealthyStorage.

(** [random] is the random part of the ticket. *)
Definition StoredOpenRecord_new (random : list N) (request : RecordRequest) (widened : bool)
    (opened opened_at : N) (tree : ObjectId) (blind : list Blind) : StoredOpenRecord :=
  {| o_ticket := TICKET_PREFIX ++ random; o_request := request; o_widened := widened;
     opened_seq := opened; opened_at_unix_ms := opened_at; o_before := hex_of tree;
     o_blind := blind |}.

Definition StoredRecord_new (s : N) (open : StoredOpenRecord) (changes : list StoredChange)
    (unrec : list StoredUnrecorded) : StoredRecord :=
  {| seq := s; r_ticket := o_ticket open; holders := {[ rq_holder (o_request open) ]};
     r_client := rq_client (o_request open); r_changes := changes; unrecorded := unrec |}.

Definition StoredJournal_new (id : list N) (holder : str) (ord : N) (dir : RevertDirection)
    (seqs : list N) (files directories : nat) : StoredJournal :=
  {| revert_id := id; j_holder := holder; order := ord; direction := dir; j_seqs := seqs;
     j_state := Publishing; total_files := files; applied_files := 0;
     total_directories := directories; created_directories := 0;
     reconciliation_required := false; stopped_at := None |}.

(** Every object a record names, each once. *)
Fixpoint first_seen (seen : gset ObjectId) (oids : list ObjectId) : list ObjectId :=
  match oids with
  | [] => []
  | oid :: oids' =>
      if bool_decide (oid ∈ seen) then first_seen seen oids'
      else oid :: first_seen ({[oid]} ∪ seen) oids'
  end.

Definition record_objects (r : StoredRecord) : list ObjectId :=
  first_seen ∅
    (map c_oid (omap id (concat (map (fun c => [before c; after c]) (r_changes r))))).

Definition count (n : nat) : N := N.min (N.of_nat n) 0xFFFFFFFF.

(** ** Lemmas *)

Lemma windows2_spec {A} (f : A → A → bool) l :
  windows2 f l = true ↔ Sorted (λ a b, f a b = true) l.
Proof.
  induction l as [|x l IH]; [split; [constructor|done]|].
  destruct l as [|y l]; [split; [repeat constructor|done]|].
  change (f x y && windows2 f (y :: l) = true ↔ Sorted (λ a b, f a b = true) (x :: y :: l)).
  rewrite andb_true_iff, IH. split.
  - intros [? ?]. constructor; [done|by constructor].
  - intros [? H]%Sorted_inv. by inversion H.
Qed.

Lemma elem_of_first_seen seen oids o : o ∈ first_seen seen oids ↔ o ∈ oids ∧ o ∉ seen.
Proof.
  revert seen. induction oids as [|x oids IH]; intros seen; cbn [first_seen].
  { split; [by intros ?%elem_of_nil|by intros [?%elem_of_nil _]]. }
  case_bool_decide as Hx; rewrite ?elem_of_cons, IH, ?not_elem_of_union, ?not_elem_of_singleton.
  - split; [naive_solver|]. intros [[->|?] ?]; naive_solver.
  - destruct (decide (o = x)) as [->|]; naive_solver.
Qed.

Lemma elem_of_concat {A} (x : A) ls : x ∈ concat ls ↔ ∃ l, x ∈ l ∧ l ∈ ls.
Proof.
  rewrite list_elem_of_In, in_concat. setoid_rewrite list_elem_of_In. naive_solver.
Qed.

Lemma elem_of_record_objects r o :
  o ∈ record_objects r ↔
  ∃ c ct, c ∈ r_changes r ∧ (before c = Some ct ∨ after c = Some ct) ∧ c_oid ct = o.
Proof.
  unfold record_objects. rewrite elem_of_first_seen, list_elem_of_fmap. split.
  - intros [(ct & -> & Hct) _]. apply list_elem_of_omap in Hct as (x & Hx & [= ->]).
    apply elem_of_concat in Hx as (l & Hx & Hl). apply list_elem_of_fmap in Hl as (c & -> & Hc).
    exists c, ct. split; [done|]. split; [|done]. apply elem_of_cons in Hx as [?|Hx%list_elem_of_singleton]; auto.
  - intros (c & ct & Hc & Hct & <-). split; [|set_solver]. exists ct. split; [done|].
    apply list_elem_of_omap. exists (Some ct). split; [|done]. apply elem_of_concat.
    exists [before c; after c]. split; [|apply list_elem_of_fmap; by exists c].
    destruct Hct as [<-|<-]; [by left|right; by left].
Qed.

Lemma div_mod_cases k n :
  (0 < k)%N → ∃ q r, (n / k = q ∧ n mod k = r ∧ n = k * q + r ∧ r < k)%N.
Proof.
  intros Hk. exists (n / k)%N, (n mod k)%N. split_and!; [done|done| |apply N.mod_lt; lia].
  apply N.Div0.div_mod.
Qed.

Ltac split_div k n :=
  let q := fresh "q" in let r := fresh "r" in
  let Hq := fresh "Hq" in let Hr := fresh "Hr" in let Hn := fresh "Hn" in let Hlt := fresh "Hlt" in
  destruct (div_mod_cases k n) as (q & r & Hq & Hr & Hn & Hlt); [lia|]; rewrite ?Hq, ?Hr in *.

(** *** Hexadecimal texts *)

Lemma hex_digit_ok n : (n < 16)%N → is_lower_hex (hex_digit n) = true ∧ hex_value (hex_digit n) = n.
Proof.
  intros Hn. unfold is_lower_hex, hex_digit, hex_value, is_ascii_digit.
  destruct (N.ltb_spec n 10) as [H|H]; [destruct (N.ltb_spec (48 + n) 97); [|lia]
    |destruct (N.ltb_spec (87 + n) 97); [lia|]]; (split; [|lia]);
    rewrite ?orb_true_iff, ?andb_true_iff, !N.leb_le; lia.
Qed.

Lemma hex_value_ok b : is_lower_hex b = true → (hex_value b < 16)%N ∧ hex_digit (hex_value b) = b.
Proof.
  unfold is_lower_hex, hex_value, hex_digit, is_ascii_digit.
  rewrite orb_true_iff, !andb_true_iff, !N.leb_le. intros H.
  destruct (N.ltb_spec b 97).
  - destruct (N.ltb_spec (b - 48) 10); lia.
  - destruct (N.ltb_spec (b - 87) 10); lia.
Qed.

Definition is_byte (b : N) : Prop := (b < 256)%N.

Lemma hex_of_ok oid :
  Forall is_byte oid →
  length (hex_of oid) = 2 * length oid ∧ forallb is_lower_hex (hex_of oid) = true ∧
  from_hex (hex_of oid) = oid.
Proof.
  induction 1 as [|b oid Hb _ (Hl & Hh & Hf)]; [done|]. unfold is_byte in Hb. cbn [hex_of].
  split_div 16%N b. assert (q < 16)%N as H1 by lia.
  split_and!; [simpl; lia|cbn [forallb]; by rewrite (proj1 (hex_digit_ok _ H1)), (proj1 (hex_digit_ok _ Hlt))|].
  cbn [from_hex]. rewrite (proj2 (hex_digit_ok _ H1)), (proj2 (hex_digit_ok _ Hlt)), Hf. f_equal.
  lia.
Qed.

Lemma from_hex_ok text n :
  length text = 2 * n → forallb is_lower_hex text = true →
  length (from_hex text) = n ∧ Forall is_byte (from_hex text) ∧ hex_of (from_hex text) = text.
Proof.
  revert text. induction n as [|n IH]; intros [|h [|l text]]; try (simpl; lia); [done|].
  intros Hlen. cbn [forallb]. rewrite !andb_true_iff. intros (Hh & Hl & Ht).
  destruct (IH text) as (IH1 & IH2 & IH3); [simpl in Hlen; lia|done|].
  apply hex_value_ok in Hh as [Hh Eh], Hl as [Hl El]. cbn [from_hex].
  split_and!; [simpl; lia|constructor; [unfold is_byte; lia|done]|]. cbn [hex_of]. rewrite IH3.
  rewrite N.div_add_l, N.div_small, N.add_0_r, Eh by lia.
  by rewrite N.add_comm, N.Div0.mod_add, N.mod_small, El by lia.
Qed.

(** An id as gix has them. *)
Definition sha1 (oid : ObjectId) : Prop := length oid = 20 ∧ Forall is_byte oid.

Lemma parse_oid_ok text oid : parse_oid text = Some oid ↔ sha1 oid ∧ text = hex_of oid.
Proof.
  unfold parse_oid, sha1. split.
  - case_if; [|done]. intros [= <-]. bool_prop.
    destruct (from_hex_ok text 20) as (? & ? & ?); [unfold LEN_IN_HEX in *; lia|done|done].
  - intros [[Hl Hb] ->]. destruct (hex_of_ok _ Hb) as (H1 & H2 & H3). rewrite H1, H2, H3, Hl. done.
Qed.

Lemma mode_kind_ok mode kind : mode_kind mode = Some kind ↔ mode = stored_mode kind.
Proof.
  unfold mode_kind. split.
  - repeat case_bool_decide; intros [= <-]; done.
  - intros ->. by destruct kind.
Qed.

Lemma stored_mode_no_space kind : SPACE ∉ stored_mode kind.
Proof. apply (bool_decide_unpack _). by destruct kind. Qed.

(** The text of an entry says which: a text parses to an entry exactly when it is the
    entry's own text, so no two texts, and no two entries, are confused. *)
Theorem content_text_round_trip text c :
  parse_content text = Some c ↔ sha1 (c_oid c) ∧ text = content_text c.
Proof.
  unfold parse_content, content_text. split.
  - destruct (split_once_char SPACE text) as [[m o]|] eqn:Es; [|done]. simpl.
    apply split_once_char_Some in Es as [-> _].
    destruct (mode_kind m) as [k|] eqn:Em; [|done]. simpl. apply mode_kind_ok in Em as ->.
    destruct (parse_oid o) as [oid|] eqn:Eo; [|done]. simpl. apply parse_oid_ok in Eo as [Ho ->].
    by intros [= <-].
  - intros [Ho ->]. rewrite (proj2 (split_once_char_Some SPACE _ _ _)
      (conj eq_refl (stored_mode_no_space _))). simpl.
    rewrite (proj2 (mode_kind_ok _ _) eq_refl). simpl.
    rewrite (proj2 (parse_oid_ok _ _) (conj Ho eq_refl)). simpl. by destruct c.
Qed.

(** *** Names of records *)

Lemma parse_digits_app max acc a b :
  parse_digits 10 max acc (a ++ b) = (acc ← parse_digits 10 max acc a; parse_digits 10 max acc b).
Proof.
  revert acc. induction a as [|c a IH]; intros acc; [done|]. cbn [app parse_digits].
  case_if; [|done]. cbv zeta. case_if; [apply IH|done].
Qed.

Lemma pad_digits_digits w n : Forall (λ c, (48 <= c < 58)%N) (pad_digits w n).
Proof.
  revert n. induction w as [|w IH]; intros n; [constructor|]. cbn [pad_digits].
  apply Forall_app. split; [apply IH|]. split_div 10%N n.
  constructor; [cbn beta; lia|constructor].
Qed.

Lemma pad_digits_length w n : length (pad_digits w n) = w.
Proof.
  revert n. induction w as [|w IH]; intros n; [done|]. cbn [pad_digits].
  rewrite length_app, IH. simpl. lia.
Qed.

Lemma is_ascii_digit_ok c : is_ascii_digit c = true ↔ (48 <= c < 58)%N.
Proof. unfold is_ascii_digit. rewrite andb_true_iff, !N.leb_le. lia. Qed.

Lemma parse_digit max acc c :
  (48 <= c < 58)%N →
  parse_digits 10 max acc [c] =
    if (acc * 10 + (c - 48) <=? max)%N then Some (acc * 10 + (c - 48))%N else None.
Proof.
  intros Hc. cbn [parse_digits]. rewrite (proj2 (is_ascii_digit_ok c) Hc).
  destruct (N.ltb_spec (c - 48) 10); [done|lia].
Qed.

Lemma parse_pad_digits max w n :
  (n <= max)%N → (n < 10 ^ N.of_nat w)%N → parse_digits 10 max 0 (pad_digits w n) = Some n.
Proof.
  intros Hmax. revert n Hmax. induction w as [|w IH]; intros n Hmax Hn.
  { simpl in *. f_equal. lia. }
  cbn [pad_digits]. split_div 10%N n.
  rewrite parse_digits_app, IH; cbn [mbind option_bind].
  - rewrite parse_digit by lia. replace (q * 10 + (48 + r - 48))%N with n by lia.
    by rewrite (proj2 (N.leb_le _ _)).
  - lia.
  - rewrite Nat2N.inj_succ, N.pow_succ_r' in Hn. lia.
Qed.

Lemma pad_parse_digits max digits n :
  forallb is_ascii_digit digits = true → parse_digits 10 max 0 digits = Some n →
  (n <= max ∨ n = 0)%N ∧ digits = pad_digits (length digits) n.
Proof.
  revert n. induction digits as [|c digits IH] using rev_ind; intros n Hd Hp.
  { simpl in Hp. by simplify_eq; auto. }
  rewrite forallb_app in Hd. cbn [forallb] in Hd. bool_prop.
  match goal with H : is_ascii_digit c = true |- _ => apply is_ascii_digit_ok in H as Hc end.
  rewrite parse_digits_app in Hp.
  destruct (parse_digits 10 max 0 digits) as [m|] eqn:E; [|done]. cbn [mbind option_bind] in Hp.
  rewrite parse_digit in Hp by done. destruct (N.leb_spec (m * 10 + (c - 48)) max); [|done].
  injection Hp as <-. destruct (IH m) as [_ IHd]; [done..|]. split; [by left|].
  rewrite length_app. replace (length digits + length [c]) with (S (length digits)) by (simpl; lia).
  cbn [pad_digits]. rewrite N.div_add_l, N.div_small, N.add_0_r by lia.
  replace ((m * 10 + (c - 48)) mod 10)%N with (c - 48)%N
    by (rewrite N.add_comm, N.Div0.mod_add, N.mod_small; lia).
  rewrite <- IHd. do 2 f_equal. lia.
Qed.

Lemma bytes_cmp_snoc x y c d :
  length x = length y →
  bytes_cmp (x ++ [c]) (y ++ [d]) = match bytes_cmp x y with Eq => (c ?= d)%N | o => o end.
Proof.
  revert y. induction x as [|a x IH]; intros [|b y] H; try done.
  - simpl. by destruct (c ?= d)%N.
  - simpl in *. destruct (a ?= b)%N; [|done..]. apply IH. lia.
Qed.

Lemma compare_div_mod a b :
  (a ?= b)%N = match (a / 10 ?= b / 10)%N with
               | Eq => (48 + a mod 10 ?= 48 + b mod 10)%N | o => o end.
Proof.
  split_div 10%N a. split_div 10%N b.
  destruct (N.compare_spec q q0); [destruct (N.compare_spec (48 + r) (48 + r0))|..];
    destruct (N.compare_spec a b); try done; lia.
Qed.

Lemma pad_digits_cmp w a b :
  (a < 10 ^ N.of_nat w)%N → (b < 10 ^ N.of_nat w)%N →
  bytes_cmp (pad_digits w a) (pad_digits w b) = (a ?= b)%N.
Proof.
  revert a b. induction w as [|w IH]; intros a b Ha Hb.
  { simpl in *. replace a with b by lia. by rewrite N.compare_refl. }
  cbn [pad_digits]. rewrite bytes_cmp_snoc by (by rewrite !pad_digits_length).
  rewrite Nat2N.inj_succ, N.pow_succ_r' in Ha, Hb.
  rewrite IH by (apply N.Div0.div_lt_upper_bound; lia). by rewrite (compare_div_mod a b).
Qed.

Lemma u64_digits n : (n <= U64_MAX)%N → (n < 10 ^ N.of_nat SEQ_DIGITS)%N.
Proof. intros Hn. eapply N.le_lt_trans; [exact Hn|]. vm_compute. reflexivity. Qed.

Lemma parse_record_name_spec name s :
  parse_record_name name = Ok s ↔ (s <= U64_MAX)%N ∧ name = record_name s.
Proof.
  unfold parse_record_name, record_name. split.
  + destruct (strip_suffix METADATA_SUFFIX name) as [digits|] eqn:Es; [|done]. simpl.
    apply strip_suffix_Some in Es as ->. case_if; [|done]. bool_prop.
    destruct digits as [|c digits]; [done|]. unfold parse_unsigned.
    destruct (N.eqb_spec c 43) as [->|_]; [done|].
    destruct (parse_digits 10 U64_MAX 0 (c :: digits)) as [n|] eqn:Ep; [|done]. simpl.
    intros [= ->]. destruct (pad_parse_digits _ _ _ ltac:(eassumption) Ep) as [Hn Ed].
    match goal with H : length (c :: digits) = _ |- _ => rewrite H in Ed end.
    split; [destruct Hn as [?| ->]; [done|unfold U64_MAX; lia]|]. by rewrite app_comm_cons, Ed.
  + intros [Hs ->]. rewrite (proj2 (strip_suffix_Some _ _ _) eq_refl). cbn [mbind option_bind].
    pose proof (pad_digits_digits SEQ_DIGITS s) as Hd.
    assert (forallb is_ascii_digit (pad_digits SEQ_DIGITS s) = true) as ->.
    { apply forallb_forall. intros c Hc. apply is_ascii_digit_ok. rewrite Forall_forall in Hd.
      by apply Hd, list_elem_of_In. }
    rewrite pad_digits_length. cbn [andb Nat.eqb SEQ_DIGITS].
    pose proof (parse_pad_digits U64_MAX SEQ_DIGITS s Hs (u64_digits _ Hs)) as Hp.
    unfold parse_unsigned. destruct (pad_digits SEQ_DIGITS s) as [|c l] eqn:E.
    { apply (f_equal length) in E. by rewrite pad_digits_length in E. }
    apply Forall_cons in Hd as [Hc _]. destruct (N.eqb_spec c 43); [lia|]. by rewrite Hp.
Qed.

Lemma record_name_cmp a b :
  (a <= U64_MAX)%N → (b <= U64_MAX)%N → bytes_cmp (record_name a) (record_name b) = (a ?= b)%N.
Proof.
  intros Ha Hb. unfold record_name.
  rewrite <- (pad_digits_cmp SEQ_DIGITS a b) by (by apply u64_digits).
  assert (length (pad_digits SEQ_DIGITS a) = length (pad_digits SEQ_DIGITS b)) as Hl
    by (by rewrite !pad_digits_length).
  revert Hl. generalize (pad_digits SEQ_DIGITS a) (pad_digits SEQ_DIGITS b). intros x.
  induction x as [|c x IH]; intros [|d y]; try done.
  cbn [app length bytes_cmp]. intros Hl. destruct (c ?= d)%N; [|done..]. apply IH. lia.
Qed.

(** A file is a record's exactly when it has the name the record's number gives it, and
    the names of two records are in the order of their numbers, so the sorted listing of
    the directory lists every record once and in order. *)
Theorem record_names_in_order :
  (∀ name s, parse_record_name name = Ok s ↔ (s <= U64_MAX)%N ∧ name = record_name s) ∧
  ∀ a b, (a <= U64_MAX)%N → (b <= U64_MAX)%N →
    bytes_cmp (record_name a) (record_name b) = (a ?= b)%N.
Proof. split; [exact parse_record_name_spec|exact record_name_cmp]. Qed.
