(* ===== verification/Recording.v ===== *)
(** * Recording and composing changes

    [workspace-snapshot/src/recording.rs] without its captures, and [compose] of
    [revert.rs].  A call's changes are rebased onto the records that were committed while it
    ran, so that what one path went through stays a chain, and a revert composes the chain
    of each path into one change.  [edges] is the history records hold of one path. *)

From stdpp Require Import gmap sorting.
From S2P Require Import Prelude Utf8 ObjectStore SnapshotTree Records.

(** ** Requests *)

Definition validate (request : RecordRequest) : Result unit SnapshotError :=
  let limits := rq_limits request in
  let in_range (low high n : N) := ((low <=? n) && (n <=? high))%N in
  let limits_valid :=
    in_range 1%N MAX_SNAPSHOT_FILES (max_files limits) &&
    in_range 1%N MAX_SNAPSHOT_FILE_BYTES (max_file_bytes limits) &&
    in_range 1%N MAX_SNAPSHOT_TOTAL_BYTES (max_total_bytes limits) in
  let scope_valid :=
    match rq_scope request with
    | Paths paths =>
        (1 <=? length paths) && (length paths <=? MAX_RECORD_SCOPE_PATHS) &&
        forallb valid_path paths
    | Workspace directory => bool_decide (directory = ROOT_SCOPE) || valid_path directory
    end in
  if limits_valid && scope_valid then Ok tt else Err InvalidRequest.

(** ** Histories of paths *)

Abbreviation Edge := (PathState * PathState)%type (only parsing).

(** [entry(path).or_default().push(..)] for each change of each record. *)
Definition add_edge (m : gmap (list N) (list Edge)) (c : StoredChange) :
    gmap (list N) (list Edge) :=
  <[sc_path c := default [] (m !! sc_path c) ++ [(before c, after c)]]> m.

Definition edges_of (records : list StoredRecord) : gmap (list N) (list Edge) :=
  foldl (fun m r => foldl add_edge m (r_changes r)) ∅ records.

Definition blind_of (records : list StoredRecord) : gset (list N) :=
  list_to_set (concat (map (fun r => map su_path (unrecorded r)) records)).

(** [windows(2)]: each change starts where the one before it ended. *)
Definition linked (chain : list Edge) : bool :=
  windows2 (fun a b => bool_decide (a.2 = b.1)) chain.

(** A chain is never empty, so its first and last edges are there. *)
Definition chained (chain : list Edge) (before after : PathState) : Result (option PathState) unit :=
  if negb (linked chain) then Err tt
  else
    match head chain, last chain with
    | Some (first, _), Some (_, last) =>
        let on_chain :=
          bool_decide (first = before) ||
          existsb (fun '(_, state) => bool_decide (state = before)) chain in
        match on_chain, bool_decide (after = last) with
        | false, _ => Err tt
        | true, true => Ok None
        | true, false => Ok (Some last)
        end
    | _, _ => Err tt
    end.

(** Where a change starts once the window is accounted for. *)
Definition rebased (edges : gmap (list N) (list Edge)) (blind : gset (list N)) (change : Change) :
    Result (option PathState) unit :=
  if bool_decide (ch_path change ∈ blind) then Err tt
  else
    match edges !! ch_path change with
    | None => Ok (Some (source change))
    | Some chain => chained chain (source change) (target change)
    end.

Fixpoint rebase_from (edges : gmap (list N) (list Edge)) (blind : gset (list N))
    (changes : list Change) : list StoredChange * list StoredUnrecorded :=
  match changes with
  | [] => ([], [])
  | change :: changes' =>
      let '(kept, interleaved) := rebase_from edges blind changes' in
      match rebased edges blind change with
      | Ok (Some before) =>
          ({| sc_path := ch_path change; before := before; after := target change |} :: kept,
           interleaved)
      | Ok None => (kept, interleaved)
      | Err _ =>
          (kept, {| su_path := ch_path change; su_reason := UInterleaved |} :: interleaved)
      end
  end.

Definition rebase (changes : list Change) (window : list StoredRecord) :
    list StoredChange * list StoredUnrecorded :=
  rebase_from (edges_of window) (blind_of window) changes.

(** ** Paths that could not be stored *)

Definition blind_by_path (bs : list Blind) : gmap (list N) Blind :=
  foldl (fun m b => <[b_path b := b]> m) ∅ bs.

Definition blind_before (later : gmap (list N) Blind) (bs : list Blind) :
    gmap (list N) UnrecordedReason :=
  foldl (fun m b =>
    match later !! b_path b with
    | Some l =>
        if bool_decide (is_Some (b_stamp l)) && bool_decide (b_stamp l = b_stamp b) then m
        else <[b_path l := b_reason l]> m
    | None => <[b_path b := b_reason b]> m
    end) ∅ bs.

Definition blind_after (before_paths : gset (list N)) (m : gmap (list N) UnrecordedReason)
    (bs : list Blind) : gmap (list N) UnrecordedReason :=
  foldl (fun m b =>
    if bool_decide (b_path b ∈ before_paths) then m else <[b_path b := b_reason b]> m) m bs.

Definition blind_changes (before after : list Blind) : list StoredUnrecorded :=
  map (fun '(path, reason) => {| su_path := path; su_reason := reason |})
    (btree (blind_after (list_to_set (map b_path before))
              (blind_before (blind_by_path after) before) after)).

(** [dedup_by]: the first of equal neighbours stays. *)
Fixpoint dedup_paths (l : list StoredUnrecorded) : list StoredUnrecorded :=
  match l with
  | [] => []
  | u :: l' =>
      match dedup_paths l' with
      | v :: rest => if bool_decide (su_path u = su_path v) then u :: rest else u :: v :: rest
      | [] => [u]
      end
  end.

(** What [finish] commits: the changes its diff found rebased onto the window, if there are
    any.  The sort is not stable: of two reasons for one path either may stay. *)
Definition finish_record (next : N) (open : StoredOpenRecord) (changes : list Change)
    (captured_blind : list Blind) (window : list StoredRecord) : option StoredRecord :=
  let '(kept, interleaved) := rebase changes window in
  let unrec :=
    dedup_paths (sort_by su_path (interleaved ++ blind_changes (o_blind open) captured_blind)) in
  if bool_decide (kept = []) && bool_decide (unrec = []) then None
  else Some (StoredRecord_new next open kept unrec).

(** ** Composing *)

Record Composed := { cp_path : list N; cp_source : PathState; cp_target : PathState }.

Inductive RevertConflictKind := ChangedSince | Interleaved | Unrecorded.
#[export] Instance RevertConflictKind_eq_dec : EqDecision RevertConflictKind.
Proof. solve_decision. Defined.

Record PathConflict := {
  cf_path : list N; cf_kind : RevertConflictKind; cf_reason : option UnrecordedReason;
}.

(** [entry(path).or_insert(reason)]: the first reason stays. *)
Definition add_unrecorded (m : gmap (list N) UnrecordedReason) (u : StoredUnrecorded) :
    gmap (list N) UnrecordedReason :=
  match m !! su_path u with Some _ => m | None => <[su_path u := su_reason u]> m end.

Definition unrecorded_of (records : list StoredRecord) : gmap (list N) UnrecordedReason :=
  foldl (fun m r => foldl add_unrecorded m (unrecorded r)) ∅ records.

(** One turn of the loop over the chains: what it pushes. *)
Definition compose_one (dir : RevertDirection) (unrec : gmap (list N) UnrecordedReason)
    '((path, chain) : list N * list Edge) : option Composed * option PathConflict :=
  if bool_decide (is_Some (unrec !! path)) then (None, None)
  else if negb (linked chain) then
    (None, Some {| cf_path := path; cf_kind := Interleaved; cf_reason := None |})
  else
    match head chain, last chain with
    | Some (before, _), Some (_, after) =>
        if bool_decide (before = after) then (None, None)
        else
          let '(source, target) :=
            match dir with Revert => (after, before) | Unrevert => (before, after) end in
          (Some {| cp_path := path; cp_source := source; cp_target := target |}, None)
    | _, _ => (None, None)
    end.

Definition compose_chains (dir : RevertDirection) (unrec : gmap (list N) UnrecordedReason)
    (chains : list (list N * list Edge)) : list Composed * list PathConflict :=
  (omap (fun x => (compose_one dir unrec x).1) chains,
   omap (fun x => (compose_one dir unrec x).2) chains).

Definition compose (records : list StoredRecord) (dir : RevertDirection) :
    list Composed * list PathConflict :=
  let unrec := unrecorded_of records in
  let '(composed, interleaved) := compose_chains dir unrec (btree (edges_of records)) in
  (composed,
   sort_by cf_path
     (map (fun '(path, reason) =>
        {| cf_path := path; cf_kind := Unrecorded; cf_reason := Some reason |}) (btree unrec) ++
      interleaved)).

(** ** What records say of one path *)

Definition record_edges (p : list N) (r : StoredRecord) : list Edge :=
  map (fun c => (before c, after c)) (filter (λ c, sc_path c = p) (r_changes r)).
Definition edges (p : list N) (records : list StoredRecord) : list Edge :=
  concat (map (record_edges p) records).

(** The first reason a record gives for not holding a path. *)
Definition record_reason (p : list N) (r : StoredRecord) : option UnrecordedReason :=
  su_reason <$> head (filter (λ u, su_path u = p) (unrecorded r)).
Fixpoint reason (p : list N) (records : list StoredRecord) : option UnrecordedReason :=
  match records with
  | [] => None
  | r :: records' =>
      match record_reason p r with Some x => Some x | None => reason p records' end
  end.

Definition option_of {A} (l : list A) : option (list A) :=
  match l with [] => None | _ => Some l end.

Lemma fold_add_edge m cs p :
  m !! p ≠ Some [] →
  foldl add_edge m cs !! p =
    option_of (default [] (m !! p) ++
      map (fun c => (before c, after c)) (filter (λ c, sc_path c = p) cs)).
Proof.
  revert m. induction cs as [|c cs IH]; intros m Hm.
  { simpl. rewrite app_nil_r. by destruct (m !! p) as [[|e l]|]. }
  cbn [foldl]. rewrite IH; unfold add_edge; rewrite ?filter_cons;
    destruct (decide (sc_path c = p)) as [<-|Hp].
  - rewrite lookup_insert_eq. simpl. by rewrite <- app_assoc.
  - by rewrite lookup_insert_ne by done.
  - rewrite lookup_insert_eq. intros [= E]. by destruct (default [] (m !! sc_path c)).
  - by rewrite lookup_insert_ne by done.
Qed.

Lemma lookup_edges_of p records : edges_of records !! p = option_of (edges p records).
Proof.
  unfold edges_of, edges.
  assert (∀ rs m, m !! p ≠ Some [] → foldl (fun m r => foldl add_edge m (r_changes r)) m rs !! p =
    option_of (default [] (m !! p) ++ concat (map (record_edges p) rs))) as H.
  { induction rs as [|r rs IH]; intros m Hm.
    - simpl. rewrite app_nil_r. by destruct (m !! p) as [[|]|].
    - cbn [foldl map concat]. rewrite IH; rewrite fold_add_edge by done; fold (record_edges p r).
      + rewrite app_assoc. by destruct (_ ++ record_edges p r).
      + by destruct (_ ++ record_edges p r). }
  rewrite H by (by rewrite lookup_empty). by rewrite lookup_empty.
Qed.

Lemma elem_of_blind_of p records : p ∈ blind_of records ↔ is_Some (reason p records).
Proof.
  unfold blind_of. rewrite elem_of_list_to_set. induction records as [|r rs IH]; cbn [map concat reason].
  { rewrite elem_of_nil. split; [done|by intros [? ?]]. }
  rewrite elem_of_app, IH. unfold record_reason.
  assert (p ∈ map su_path (unrecorded r) ↔ is_Some (head (filter (λ u, su_path u = p) (unrecorded r))))
    as ->.
  { induction (unrecorded r) as [|u us IHu]; [split; [by intros ?%elem_of_nil|by intros [? ?]]|].
    cbn [map]. rewrite elem_of_cons, filter_cons. case_decide as Hu; [split; [by eexists|by left]|].
    rewrite IHu. naive_solver. }
  destruct (head _) as [u|]; simpl; split; [by eexists|by left; eexists|by intros [[? ?]|]|by right].
Qed.

Lemma lookup_unrecorded_of p records : unrecorded_of records !! p = reason p records.
Proof.
  unfold unrecorded_of.
  assert (∀ us m, foldl add_unrecorded m us !! p =
    match m !! p with Some x => Some x
    | None => su_reason <$> head (filter (λ u, su_path u = p) us) end) as Hu.
  { induction us as [|u us IH]; intros m; [by simpl; destruct (m !! p)|].
    cbn [foldl]. rewrite IH, filter_cons. unfold add_unrecorded.
    destruct (m !! su_path u) as [x|] eqn:E; case_decide as Hp.
    - subst p. by rewrite E.
    - done.
    - subst p. by rewrite E, lookup_insert_eq.
    - by rewrite lookup_insert_ne. }
  assert (∀ rs m, foldl (fun m r => foldl add_unrecorded m (unrecorded r)) m rs !! p =
    match m !! p with Some x => Some x | None => reason p rs end) as H.
  { induction rs as [|r rs IH]; intros m; [by simpl; destruct (m !! p)|].
    cbn [foldl reason]. rewrite IH, Hu. unfold record_reason. by destruct (m !! p). }
  rewrite H. by rewrite lookup_empty.
Qed.

(** *** Chains *)

Lemma edges_app p a b : edges p (a ++ b) = edges p a ++ edges p b.
Proof. unfold edges. by rewrite map_app, concat_app. Qed.

Lemma reason_app p a b :
  reason p (a ++ b) = match reason p a with Some x => Some x | None => reason p b end.
Proof.
  induction a as [|r a IH]; [done|]. cbn [app reason]. rewrite IH. by destruct (record_reason p r).
Qed.

Lemma linked_snoc chain e :
  linked (chain ++ [e]) =
    linked chain && match last chain with Some l => bool_decide (l.2 = e.1) | None => true end.
Proof.
  unfold linked. induction chain as [|x chain IH]; [done|].
  destruct chain as [|y chain]; [simpl; by rewrite andb_true_r|].
  change ((x :: y :: chain) ++ [e]) with (x :: (y :: chain) ++ [e]).
  cbn [app windows2] in *. rewrite IH. by rewrite andb_assoc.
Qed.

Definition ends_at (chain : list Edge) (s : PathState) : Prop := ∃ b, last chain = Some (b, s).

(** What a chain passes. *)
Definition states (chain : list Edge) : list PathState :=
  match chain with [] => [] | (b, _) :: _ => b :: map snd chain end.

Lemma chained_spec chain b a :
  chain ≠ [] →
  match chained chain b a with
  | Err _ => linked chain = false ∨ b ∉ states chain
  | Ok None => linked chain = true ∧ b ∈ states chain ∧ ends_at chain a
  | Ok (Some s) => linked chain = true ∧ b ∈ states chain ∧ ends_at chain s ∧ s ≠ a
  end.
Proof.
  intros Hne. unfold chained. destruct (linked chain) eqn:El; cbn [negb]; [|by left].
  destruct chain as [|[f t] chain]; [done|]. cbn [head].
  destruct (last ((f, t) :: chain)) as [[lb la]|] eqn:Elast; [|by apply last_None in Elast].
  assert (bool_decide (f = b) || existsb (λ '(_, st), bool_decide (st = b)) ((f, t) :: chain) =
    bool_decide (b ∈ states ((f, t) :: chain))) as ->.
  { apply eq_iff_eq_true. rewrite orb_true_iff, !bool_decide_eq_true, existsb_exists.
    cbn [states]. rewrite elem_of_cons, list_elem_of_fmap. setoid_rewrite list_elem_of_In.
    split.
    - intros [<-|([x y] & Hx & Hy)]; [by left|right]. apply bool_decide_eq_true in Hy as ->. by exists (x, b).
    - intros [->|([x y] & -> & Hx)]; [by left|right]. exists (x, y). by rewrite bool_decide_eq_true_2. }
  case_bool_decide as Hon; [|by right]. case_bool_decide as Ha.
  - split_and!; [done..|]. exists lb. by rewrite Ha.
  - split_and!; [done..|by exists lb|by intros ->].
Qed.

(** *** Rebasing *)

Definition edge_list (r : Result (option PathState) unit) (t : PathState) : list Edge :=
  match r with Ok (Some b) => [(b, t)] | _ => [] end.

Lemma rebase_paths e b cs p :
  p ∉ map ch_path cs →
  filter (λ c, sc_path c = p) (rebase_from e b cs).1 = [] ∧
  p ∉ map su_path (rebase_from e b cs).2.
Proof.
  induction cs as [|c cs IH]; [by intros _; split; [|apply not_elem_of_nil]|].
  cbn [map rebase_from]. intros [Hp Hps]%not_elem_of_cons. destruct (IH Hps) as [IH1 IH2].
  destruct (rebase_from e b cs) as [kept inter]. cbn [fst snd] in *.
  destruct (rebased e b c) as [[x|]|]; cbn [fst snd]; [|done|].
  - split; [|done]. by rewrite filter_cons_False.
  - split; [done|]. cbn [map]. by apply not_elem_of_cons.
Qed.

Lemma rebase_one e b cs c :
  NoDup (map ch_path cs) → c ∈ cs →
  map (λ c, (before c, after c)) (filter (λ k, sc_path k = ch_path c) (rebase_from e b cs).1) =
    edge_list (rebased e b c) (target c) ∧
  (ch_path c ∈ map su_path (rebase_from e b cs).2 ↔ rebased e b c = Err tt).
Proof.
  induction cs as [|c' cs IH]; [by intros _ ?%elem_of_nil|].
  cbn [map rebase_from]. intros [Hn Hnd]%NoDup_cons Hc.
  destruct (rebase_from e b cs) as [kept inter] eqn:E. apply elem_of_cons in Hc as [->|Hc].
  - destruct (rebase_paths e b cs (ch_path c') Hn) as [H1 H2]. rewrite E in H1, H2. cbn [fst snd] in *.
    destruct (rebased e b c') as [[x|]|[]]; cbn [fst snd edge_list map].
    + rewrite filter_cons_True by done. by rewrite H1.
    + by rewrite H1.
    + rewrite H1. split; [done|]. split; [done|]. intros _. by left.
  - assert (ch_path c' ≠ ch_path c) as Hne.
    { intros Heq. apply Hn. rewrite Heq. by apply list_elem_of_fmap_2. }
    specialize (IH Hnd Hc) as [IH1 IH2]. cbn [fst snd] in *.
    destruct (rebased e b c') as [[x|]|]; cbn [fst snd]; [|done|].
    + by rewrite filter_cons_False.
    + split; [done|]. cbn [map]. rewrite elem_of_cons. naive_solver.
Qed.

(** *** The committed record *)

Lemma sort_by_perm {A} (key : A → list N) l : sort_by key l ≡ₚ l.
Proof. apply merge_sort_Permutation. Qed.

Lemma dedup_paths_paths l p : p ∈ map su_path (dedup_paths l) ↔ p ∈ map su_path l.
Proof.
  induction l as [|u l IH]; [done|]. cbn [dedup_paths map]. rewrite elem_of_cons, <- IH.
  destruct (dedup_paths l) as [|v rest]; cbn [map]; [by rewrite elem_of_cons|].
  case_bool_decide as Huv; cbn [map]; [|by rewrite elem_of_cons].
  rewrite !elem_of_cons, Huv. naive_solver.
Qed.

Lemma dedup_paths_sub l u : u ∈ dedup_paths l → u ∈ l.
Proof.
  revert u. induction l as [|x l IH]; intros u; [done|]. cbn [dedup_paths]. intros Hu.
  rewrite elem_of_cons. destruct (dedup_paths l) as [|v rest].
  { apply list_elem_of_singleton in Hu. by left. }
  case_bool_decide; apply elem_of_cons in Hu as [->|Hu]; try (by left); right; apply IH; [by right|done].
Qed.

Lemma unrec_paths interleaved blind p :
  p ∈ map su_path (dedup_paths (sort_by su_path (interleaved ++ blind))) ↔
  p ∈ map su_path interleaved ∨ p ∈ map su_path blind.
Proof.
  rewrite dedup_paths_paths, sort_by_perm, map_app, elem_of_app. done.
Qed.

Lemma record_reason_spec p r : is_Some (record_reason p r) ↔ p ∈ map su_path (unrecorded r).
Proof.
  unfold record_reason. induction (unrecorded r) as [|u us IH].
  { split; [by intros [? ?]|by intros ?%elem_of_nil]. }
  cbn [map]. rewrite elem_of_cons, filter_cons, <- IH. case_decide as Hu; [|naive_solver].
  split; [by left|by eexists].
Qed.

(** What a committed record, or none, adds to a log. *)
Lemma finish_record_adds next open cs captured window p :
  let r := option_list (finish_record next open cs captured window) in
  edges p r = map (fun c => (before c, after c))
    (filter (λ c, sc_path c = p) (rebase cs window).1) ∧
  (is_Some (reason p r) ↔ p ∈ map su_path (rebase cs window).2 ∨
     p ∈ map su_path (blind_changes (o_blind open) captured)).
Proof.
  cbv zeta. unfold finish_record. destruct (rebase cs window) as [kept inter]. cbn [fst snd].
  rewrite <- unrec_paths. set (unrec := dedup_paths _).
  destruct (bool_decide (kept = []) && bool_decide (unrec = [])) eqn:E; cbn [option_list reason].
  - apply andb_true_iff in E as [E1%bool_decide_eq_true E2%bool_decide_eq_true].
    rewrite E1, E2. split; [done|].
    split; [by intros [? ?]|by intros ?%elem_of_nil].
  - change (option_list (Some ?r)) with [r]. unfold edges. cbn [map concat reason].
    rewrite app_nil_r. split; [done|]. rewrite <- (record_reason_spec p (StoredRecord_new next open kept unrec)).
    by destruct (record_reason p _).
Qed.

Lemma lookup_of_edges p window :
  edges_of window !! p = match edges p window with [] => None | l => Some l end.
Proof. rewrite lookup_edges_of. by destruct (edges p window). Qed.

(** The reason a committed record gives is one of those found. *)
Lemma finish_record_reason next open cs captured window p x :
  reason p (option_list (finish_record next open cs captured window)) = Some x →
  {| su_path := p; su_reason := x |} ∈ (rebase cs window).2 ++ blind_changes (o_blind open) captured.
Proof.
  unfold finish_record. destruct (rebase cs window) as [kept inter]. cbn [snd].
  set (unrec := dedup_paths _). destruct (_ && _); [done|]. cbn [option_list reason].
  change (option_list (Some ?r)) with [r]. cbn [reason].
  unfold record_reason. cbn [StoredRecord_new unrecorded].
  destruct (head (filter _ unrec)) as [u|] eqn:Eh; [|done]. cbn. intros [= <-].
  apply head_Some_elem_of, list_elem_of_filter in Eh as [<- Hu]. apply dedup_paths_sub in Hu.
  rewrite sort_by_perm in Hu. by destruct u.
Qed.

Lemma rebase_interleaved e b cs u :
  u ∈ (rebase_from e b cs).2 ↔
  ∃ ch, ch ∈ cs ∧ rebased e b ch = Err tt ∧ u = {| su_path := ch_path ch; su_reason := UInterleaved |}.
Proof.
  induction cs as [|c cs IH]; cbn [rebase_from].
  { split; [by intros ?%elem_of_nil|by intros (? & ?%elem_of_nil & _)]. }
  assert ((∃ ch, ch ∈ c :: cs ∧ rebased e b ch = Err tt ∧
      u = {| su_path := ch_path ch; su_reason := UInterleaved |}) ↔
    (rebased e b c = Err tt ∧ u = {| su_path := ch_path c; su_reason := UInterleaved |}) ∨
    u ∈ (rebase_from e b cs).2) as ->.
  { rewrite IH. split.
    - intros (ch & [->|Hch]%elem_of_cons & H); [by left|right; by exists ch].
    - intros [H|(ch & Hch & H)]; [exists c; split; [by left|done]|exists ch; split; [by right|done]]. }
  destruct (rebase_from e b cs) as [kept inter]. cbn [snd].
  destruct (rebased e b c) as [[v|]|[]] eqn:Er; cbn [snd]; rewrite ?elem_of_cons; naive_solver.
Qed.

(** The window accounts for what the call saw before: nothing was committed of the path, or a
    history without a break that passed it. *)
Definition accounts (h : list Edge) (ch : Change) : Prop :=
  h = [] ∨ linked h = true ∧ source ch ∈ states h.

(** Where the path's history goes on to, from [h] to [h']: it ends where the call left the path,
    by one edge more, from where the window left it, unless it was there already. *)
Definition continues (h : list Edge) (ch : Change) (h' : list Edge) : Prop :=
  (h = [] ∧ h' = [(source ch, target ch)]) ∨
  (ends_at h (target ch) ∧ h' = h) ∨
  (∃ s, ends_at h s ∧ s ≠ target ch ∧ h' = h ++ [(s, target ch)]).

(** A capture could not store the path, for that reason: the later one, unless the earlier saw
    it with the same known stamp; or only the earlier. *)
Definition missed (before after : list Blind) (p : list N) (x : UnrecordedReason) : Prop :=
  (∃ l, l ∈ after ∧ b_path l = p ∧ b_reason l = x ∧
     ¬ ∃ b, b ∈ before ∧ b_path b = p ∧ is_Some (b_stamp l) ∧ b_stamp l = b_stamp b) ∨
  (p ∉ map b_path after ∧ ∃ b, b ∈ before ∧ b_path b = p ∧ b_reason b = x).

Lemma elem_of_btree {A} (m : gmap (list N) A) k v : (k, v) ∈ btree m ↔ m !! k = Some v.
Proof. unfold btree. rewrite sort_by_perm. apply elem_of_map_to_list. Qed.

Lemma foldl_same {A B} (f g : B → A → B) l b :
  (∀ b a, f b a = g b a) → foldl f b l = foldl g b l.
Proof. intros H. revert b. induction l as [|a l IH]; intros b; [done|]. cbn [foldl]. by rewrite H, IH. Qed.

Lemma NoDup_key_inj {A B} (key : A → B) l x y :
  NoDup (map key l) → x ∈ l → y ∈ l → key x = key y → x = y.
Proof.
  intros Hnd [i Hi]%list_elem_of_lookup [k Hk]%list_elem_of_lookup E.
  assert (i = k) as ->; [|congruence].
  apply (NoDup_lookup (map key l) i k (key x) Hnd); rewrite list_lookup_fmap; [by rewrite Hi|by rewrite Hk, E].
Qed.

(** Inserting what each of a list contributes, under keys that differ. *)
Lemma foldl_contributes {A R} (key : A → list N) (f : A → option R) (bs : list A) (m : gmap (list N) R) p x :
  NoDup (map key bs) →
  foldl (λ m b, match f b with Some x => <[key b := x]> m | None => m end) m bs !! p = Some x ↔
  (∃ b, b ∈ bs ∧ key b = p ∧ f b = Some x) ∨ ((∀ b, b ∈ bs → key b = p → f b = None) ∧ m !! p = Some x).
Proof.
  revert m. induction bs as [|b bs IH]; intros m Hnd; cbn [foldl].
  { split; [intros H; right; split; [by intros ? ?%elem_of_nil|done]|].
    intros [(? & H & _)|[_ ?]]; [by apply elem_of_nil in H|done]. }
  cbn [map] in Hnd. apply NoDup_cons in Hnd as [Hb Hnd]. rewrite (IH _ Hnd).
  setoid_rewrite elem_of_cons.
  assert (∀ y, y ∈ bs → key y ≠ key b) as Hne by (intros y Hy E; apply Hb; rewrite <- E; by apply list_elem_of_fmap_2).
  destruct (f b) as [z|] eqn:Ef; [destruct (decide (key b = p)) as [<-|Hp]|].
  - rewrite lookup_insert_eq. split.
    + intros [(y & Hy & E & _)|[_ [= ->]]]; [by apply Hne in Hy|]. left. exists b. auto.
    + intros [(y & [->|Hy] & E & Hf)|[Hall _]].
      * right. split; [intros y Hy E'; by apply Hne in Hy|congruence].
      * by apply Hne in Hy.
      * by rewrite Hall in Ef by auto.
  - rewrite lookup_insert_ne by done. naive_solver.
  - naive_solver.
Qed.

Lemma blind_by_path_path bs p l : blind_by_path bs !! p = Some l → b_path l = p.
Proof.
  unfold blind_by_path. assert (∀ m : gmap (list N) Blind, (∀ p l, m !! p = Some l → b_path l = p) →
    foldl (λ m b, <[b_path b:=b]> m) m bs !! p = Some l → b_path l = p) as H; [|by apply H].
  induction bs as [|b bs IH]; intros m Hm; [apply Hm|]. cbn [foldl]. apply IH.
  intros q l' [[<- <-]|[_ ?]]%lookup_insert_Some; auto.
Qed.

Lemma blind_by_path_lookup bs p l :
  NoDup (map b_path bs) → blind_by_path bs !! p = Some l ↔ l ∈ bs ∧ b_path l = p.
Proof.
  intros Hnd. unfold blind_by_path.
  rewrite (foldl_contributes b_path Some bs ∅ p l Hnd), lookup_empty. naive_solver.
Qed.

Lemma blind_by_path_none bs p : blind_by_path bs !! p = None → NoDup (map b_path bs) → p ∉ map b_path bs.
Proof.
  intros Hn Hnd (l & E & Hl)%list_elem_of_fmap. assert (blind_by_path bs !! p = Some l); [|congruence].
  by apply blind_by_path_lookup.
Qed.

(** What a path the earlier capture missed contributes. *)
Definition before_reason (after : list Blind) (b : Blind) : option UnrecordedReason :=
  match blind_by_path after !! b_path b with
  | Some l => if bool_decide (is_Some (b_stamp l)) && bool_decide (b_stamp l = b_stamp b) then None
              else Some (b_reason l)
  | None => Some (b_reason b)
  end.

Lemma blind_before_lookup b a p x :
  NoDup (map b_path b) →
  blind_before (blind_by_path a) b !! p = Some x ↔ ∃ y, y ∈ b ∧ b_path y = p ∧ before_reason a y = Some x.
Proof.
  intros Hnd. unfold blind_before. rewrite (foldl_same _
    (λ m b, match before_reason a b with Some x => <[b_path b := x]> m | None => m end)).
  - rewrite (foldl_contributes b_path (before_reason a) b ∅ p x Hnd), lookup_empty. naive_solver.
  - intros m y. unfold before_reason. destruct (blind_by_path a !! b_path y) as [l|] eqn:El; [|done].
    apply blind_by_path_path in El. rewrite El. by destruct (_ && _).
Qed.

(** The paths the captures missed, with their reasons. *)
Lemma blind_changes_spec b a u :
  NoDup (map b_path b) → NoDup (map b_path a) →
  u ∈ blind_changes b a ↔ missed b a (su_path u) (su_reason u).
Proof.
  intros Hb Ha. unfold blind_changes. rewrite list_elem_of_fmap. destruct u as [p x]. cbn [su_path su_reason].
  transitivity (blind_after (list_to_set (map b_path b)) (blind_before (blind_by_path a) b) a !! p = Some x).
  { rewrite <- elem_of_btree. split; [by intros ([q y] & [= -> ->] & ?)|by exists (p, x)]. }
  unfold blind_after. rewrite (foldl_same _ (λ m y, match
      (if bool_decide (b_path y ∈ map b_path b) then None else Some (b_reason y))
      with Some x => <[b_path y := x]> m | None => m end)); 
    [|intros; rewrite (bool_decide_ext _ _ (elem_of_list_to_set _ _)); by case_bool_decide].
  rewrite (foldl_contributes b_path _ a _ p x Ha), (blind_before_lookup b a p x Hb). unfold missed, before_reason.
  split.
  - intros [(l & Hl & Hp & Hx)|[_ (y & Hy & Hp & Hx)]].
    + case_bool_decide as Hin; [done|]. left. exists l. split_and!; [done..|congruence|].
      intros (y & Hy & E & _). apply Hin. rewrite Hp, <- E. by apply list_elem_of_fmap_2.
    + destruct (blind_by_path a !! b_path y) as [l|] eqn:El.
      * apply blind_by_path_lookup in El as [Hl El]; [|done].
        destruct (bool_decide (is_Some (b_stamp l)) && _) eqn:Ec; [done|]. left. exists l.
        split_and!; [done|congruence|congruence|]. intros (y' & Hy' & E & H1 & H2).
        assert (y' = y) as -> by (apply (NoDup_key_inj b_path b); [done..|congruence]).
        by rewrite !bool_decide_eq_true_2 in Ec.
      * right. apply blind_by_path_none in El; [|done]. split; [by rewrite <- Hp|]. exists y.
        split_and!; [done..|congruence].
  - intros [(l & Hl & Hp & Hx & Hno)|[Hn (y & Hy & Hp & Hx)]].
    + destruct (decide (p ∈ map b_path b)) as [Hin|Hin].
      * right. apply list_elem_of_fmap in Hin as (y & Ey & Hy). split.
        { intros z Hz E. rewrite bool_decide_eq_true_2; [done|]. rewrite E, Ey. by apply list_elem_of_fmap_2. }
        exists y. split_and!; [done..|].
        rewrite (proj2 (blind_by_path_lookup a (b_path y) l Ha)) by (split; congruence).
        destruct (bool_decide (is_Some (b_stamp l)) && _) eqn:Ec; [|congruence].
        apply andb_true_iff in Ec as [H1%bool_decide_eq_true H2%bool_decide_eq_true]. destruct Hno. by exists y.
      * left. exists l. split_and!; [done..|]. rewrite bool_decide_eq_false_2; [congruence|by rewrite Hp].
    + right. split.
      { intros z Hz E. exfalso. apply Hn. rewrite <- E. by apply list_elem_of_fmap_2. }
      exists y. split_and!; [done..|]. destruct (blind_by_path a !! b_path y) as [l|] eqn:El; [|congruence].
      apply blind_by_path_lookup in El as [Hl El]; [|done]. exfalso. apply Hn. rewrite <- Hp, <- El.
      by apply list_elem_of_fmap_2.
Qed.

Lemma rebased_spec window ch :
  match rebased (edges_of window) (blind_of window) ch with
  | Err _ => is_Some (reason (ch_path ch) window) ∨ ¬ accounts (edges (ch_path ch) window) ch
  | r => reason (ch_path ch) window = None ∧ accounts (edges (ch_path ch) window) ch ∧
      continues (edges (ch_path ch) window) ch (edges (ch_path ch) window ++ edge_list r (target ch))
  end.
Proof.
  unfold rebased, accounts, continues. case_bool_decide as Hb; [left; by apply elem_of_blind_of|].
  rewrite elem_of_blind_of, <- eq_None_not_Some in Hb. rewrite lookup_of_edges.
  destruct (edges (ch_path ch) window) as [|e es] eqn:Ee; [split_and!; [done|by left|by left]|].
  pose proof (chained_spec (e :: es) (source ch) (target ch) ltac:(done)) as Hc.
  destruct (chained (e :: es) (source ch) (target ch)) as [[s|]|[]]; cbn [edge_list].
  - destruct Hc as (? & ? & ? & ?). split_and!; [done|by right|right; right; by exists s].
  - destruct Hc as (? & ? & ?). split_and!; [done|by right|right; left]. by rewrite app_nil_r.
  - right. intros [?|[H1 H2]]; [done|]. destruct Hc as [?|?]; [congruence|done].
Qed.

Lemma continues_ends h ch h' :
  h = [] ∨ linked h = true → continues h ch h' → linked h' = true ∧ ends_at h' (target ch).
Proof.
  intros Hl [[-> ->]|[[He ->]|(s & [b He] & _ & ->)]].
  - split; [done|by eexists].
  - split; [|done]. destruct Hl as [->|?]; [|done]. by destruct He.
  - rewrite linked_snoc, He. split; [|exists s; by rewrite last_snoc]. simpl. rewrite bool_decide_eq_true_2 by done.
    destruct Hl as [->| ->]; done.
Qed.

(** C11: A committed record continues the log.  The history of a path the call changed goes on
    to where the call left it, without a break, if the window recorded the path and accounts for
    what the call saw before; otherwise it stays as it was and the path is unrecorded.  The
    histories of other paths, and what was unrecorded before, stay.  Of the rest exactly the
    paths whose change could not be continued and the paths that a capture missed, in a way that
    may hide a change, become unrecorded, for one of those reasons. *)
Theorem finish_continues_histories next open changes captured window :
  NoDup (map ch_path changes) → NoDup (map b_path (o_blind open)) → NoDup (map b_path captured) →
  let log := window ++ option_list (finish_record next open changes captured window) in
  (∀ ch, ch ∈ changes → let h := edges (ch_path ch) window in let h' := edges (ch_path ch) log in
     (reason (ch_path ch) window = None ∧ accounts h ch →
        continues h ch h' ∧ linked h' = true ∧ ends_at h' (target ch)) ∧
     (is_Some (reason (ch_path ch) window) ∨ ¬ accounts h ch →
        h' = h ∧ is_Some (reason (ch_path ch) log))) ∧
  (∀ p, p ∉ map ch_path changes → edges p log = edges p window) ∧
  (∀ p x, reason p window = Some x → reason p log = Some x) ∧
  (∀ p, reason p window = None → is_Some (reason p log) ↔
     (∃ x, missed (o_blind open) captured p x) ∨
     ∃ ch, ch ∈ changes ∧ ch_path ch = p ∧ ¬ accounts (edges p window) ch) ∧
  (∀ p x, reason p window = None → reason p log = Some x →
     missed (o_blind open) captured p x ∨
     x = UInterleaved ∧ ∃ ch, ch ∈ changes ∧ ch_path ch = p ∧ ¬ accounts (edges p window) ch).
Proof.
  intros Hnd Hb Ha. cbv zeta. set (r := option_list _).
  assert (∀ p, edges p r = map (fun c => (before c, after c)) (filter (λ c, sc_path c = p) (rebase changes window).1) ∧
    (is_Some (reason p r) ↔ p ∈ map su_path (rebase changes window).2 ∨
     p ∈ map su_path (blind_changes (o_blind open) captured))) as Hr by (intros p; apply finish_record_adds).
  assert (∀ p x, reason p r = Some x → {| su_path := p; su_reason := x |} ∈
    (rebase changes window).2 ++ blind_changes (o_blind open) captured) as Hx by (intros p x; apply finish_record_reason).
  clearbody r. unfold rebase in *.
  assert (∀ p x, reason p window = None → {| su_path := p; su_reason := x |} ∈
    (rebase_from (edges_of window) (blind_of window) changes).2 ↔
    x = UInterleaved ∧ ∃ ch, ch ∈ changes ∧ ch_path ch = p ∧ ¬ accounts (edges p window) ch) as Hi.
  { intros p x Hw. rewrite rebase_interleaved. split.
    - intros (ch & Hch & He & [= -> ->]). split; [done|]. exists ch. split_and!; [done..|].
      pose proof (rebased_spec window ch) as H. rewrite He in H. destruct H as [[y H]|H]; [congruence|done].
    - intros (-> & ch & Hch & <- & Hn). exists ch. split_and!; [done| |done].
      pose proof (rebased_spec window ch) as H. by destruct (rebased _ _ ch) as [[]|[]]; [destruct H as (_ & ? & _)..|]. }
  split; [|split; [|split; [|split]]].
  - intros ch Hch. destruct (Hr (ch_path ch)) as [He Hu]. rewrite reason_app, edges_app.
    destruct (rebase_one (edges_of window) (blind_of window) changes ch Hnd Hch) as [H1 H2].
    rewrite He, H1. rewrite H2 in Hu. clear He H1 H2. pose proof (rebased_spec window ch) as Hs. split.
    + intros [Hw Hac]. destruct (rebased _ _ ch) as [v|[]] eqn:Er.
      * assert (continues (edges (ch_path ch) window) ch (edges (ch_path ch) window ++ edge_list (Ok v) (target ch))) as Hc
          by (by destruct v; destruct Hs as (_ & _ & ?)).
        split; [done|]. apply (continues_ends _ _ _) in Hc; [done|]. by destruct Hac as [?|[? _]]; [left|right].
      * destruct Hs as [[x Hs]|Hs]; [congruence|done].
    + intros Hno. destruct (rebased _ _ ch) as [v|[]].
      * exfalso. assert (reason (ch_path ch) window = None ∧ accounts (edges (ch_path ch) window) ch) as [Hw Hac]
          by (by destruct v; destruct Hs as (? & ? & _)). destruct Hno as [[x ?]|?]; [congruence|done].
      * split; [apply app_nil_r|]. destruct (reason (ch_path ch) window); [by eexists|]. apply Hu. by left.
  - intros p Hp. rewrite edges_app, (proj1 (Hr p)).
    rewrite (proj1 (rebase_paths _ _ _ _ Hp)). apply app_nil_r.
  - intros p x Hw. by rewrite reason_app, Hw.
  - intros p Hw. rewrite reason_app, Hw, (proj2 (Hr p)). rewrite !list_elem_of_fmap. split.
    + intros [([q x] & -> & Hin)|([q x] & -> & Hin)]; cbn [su_path] in *.
      * apply Hi in Hin as [_ ?]; [by right|done].
      * left. exists x. by apply (blind_changes_spec _ _ {| su_path := q; su_reason := x |}) in Hin.
    + intros [[x Hm]|Hm].
      * right. exists {| su_path := p; su_reason := x |}. split; [done|]. by apply blind_changes_spec.
      * left. exists {| su_path := p; su_reason := UInterleaved |}. split; [done|]. by apply Hi.
  - intros p x Hw. rewrite reason_app, Hw. intros [Hin|Hin]%Hx%elem_of_app.
    + right. by apply Hi.
    + left. by apply (blind_changes_spec _ _ {| su_path := p; su_reason := x |}) in Hin.
Qed.

(** *** Validity *)

Lemma bytes_le_ne a b : bytes_le a b → a ≠ b → bytes_lt a b.
Proof.
  intros Hle Hne. destruct (bytes_total a b) as [?|[?|H]]; [done..|].
  by apply bytes_cmp_gt in H.
Qed.

(** Sorted by keys that differ is strictly sorted. *)
Lemma sort_by_sorted {A} (key : A → list N) l :
  NoDup (map key l) → StronglySorted (λ a b, bytes_lt (key a) (key b)) (sort_by key l).
Proof.
  intros Hnd. pose proof (StronglySorted_merge_sort (key_le key) l) as Hs.
  assert (NoDup (map key (sort_by key l))) as Hnd'
    by (by rewrite (fmap_Permutation key _ _ (sort_by_perm key l))).
  fold (sort_by key l) in Hs. revert Hs Hnd'. generalize (sort_by key l). intros l' Hs Hnd'.
  induction Hs as [|x l' Hs IH Hx]; [constructor|]. cbn [map] in Hnd'.
  apply NoDup_cons in Hnd' as [Hn Hnd']. constructor; [auto|].
  apply Forall_forall. intros y Hy. rewrite Forall_forall in Hx. apply bytes_le_ne; [by apply Hx|].
  intros Heq. apply Hn. rewrite Heq. by apply list_elem_of_fmap_2.
Qed.

Lemma btree_sorted {A} (m : gmap (list N) A) :
  StronglySorted (λ a b, bytes_lt a.1 b.1) (btree m).
Proof. apply sort_by_sorted, NoDup_fst_map_to_list. Qed.

Lemma StronglySorted_NoDup_key {A} (key : A → list N) l :
  StronglySorted (λ a b, bytes_lt (key a) (key b)) l → NoDup (map key l).
Proof.
  induction 1 as [|x l Hs IH Hx]; [constructor|]. cbn [map]. constructor; [|done].
  intros (y & Hy & Hin)%list_elem_of_fmap. rewrite Forall_forall in Hx. specialize (Hx _ Hin).
  rewrite Hy in Hx. by apply (irreflexivity bytes_lt) in Hx.
Qed.

Lemma NoDup_fst_btree {A} (m : gmap (list N) A) : NoDup (map fst (btree m)).
Proof. apply StronglySorted_NoDup_key, btree_sorted. Qed.

Lemma fold_insert_paths {B A} (f : gmap (list N) A → B → gmap (list N) A) (key : B → list N) bs m p :
  (∀ m b q, is_Some (f m b !! q) → is_Some (m !! q) ∨ q = key b) →
  is_Some (foldl f m bs !! p) → is_Some (m !! p) ∨ p ∈ map key bs.
Proof.
  intros Hf. revert m. induction bs as [|b bs IH]; intros m; [by left|]. cbn [foldl map].
  rewrite elem_of_cons. intros [Hm|?]%IH; [|by right; right].
  destruct (Hf _ _ _ Hm); [by left|by right; left].
Qed.

Lemma blind_changes_paths b a p :
  p ∈ map su_path (blind_changes b a) → p ∈ map b_path b ∨ p ∈ map b_path a.
Proof.
  unfold blind_changes. rewrite map_map, list_elem_of_fmap.
  intros ([q r] & -> & Hq%elem_of_btree). cbn [su_path].
  assert (is_Some (blind_after (list_to_set (map b_path b))
    (blind_before (blind_by_path a) b) a !! q)) as H by eauto.
  apply (fold_insert_paths _ b_path) in H as [H|H]; [|by right|].
  - left. unfold blind_before in H. apply (fold_insert_paths _ b_path) in H as [H|H]; [|done|].
    { by rewrite lookup_empty in H; destruct H. }
    intros m x s. destruct (blind_by_path a !! b_path x) as [l|] eqn:El.
    + apply blind_by_path_path in El. case_if; [by left|]. rewrite El.
      intros [v [[Heq _]|[_ ?]]%lookup_insert_Some]; [by right|left; by eexists].
    + intros [v [[Heq _]|[_ ?]]%lookup_insert_Some]; [by right|left; by eexists].
  - intros m x s. case_bool_decide; [by left|].
    intros [v [[Heq _]|[_ ?]]%lookup_insert_Some]; [by right|left; by eexists].
Qed.

Definition change_ok (c : Change) : Prop :=
  valid_path (ch_path c) = true ∧ source c ≠ target c.
Definition stored_ok (c : StoredChange) : Prop :=
  valid_path (sc_path c) = true ∧ before c ≠ after c.

Lemma rebase_from_ok e b cs :
  (∀ p, e !! p ≠ Some []) →
  StronglySorted (λ a b, bytes_lt (ch_path a) (ch_path b)) cs → Forall change_ok cs →
  let '(kept, inter) := rebase_from e b cs in
  StronglySorted (λ a b, bytes_lt (sc_path a) (sc_path b)) kept ∧ Forall stored_ok kept ∧
  Forall (λ u, valid_path (su_path u) = true) inter ∧
  ∀ p, Forall (λ c, bytes_lt p (ch_path c)) cs → Forall (λ c, bytes_lt p (sc_path c)) kept.
Proof.
  intros He. induction 1 as [|c cs Hs IH Hlt]; intros Hok; cbn [rebase_from].
  { split_and!; constructor. }
  apply Forall_cons in Hok as [[Hv Hne] Hok]. specialize (IH Hok).
  destruct (rebase_from e b cs) as [kept inter]. destruct IH as (IH1 & IH2 & IH3 & IH4).
  destruct (rebased e b c) as [[x|]|] eqn:Er.
  - split_and!; [by constructor; [|apply IH4]| |done|].
    + constructor; [|done]. split; [done|]. cbn [before after]. unfold rebased in Er.
      case_bool_decide; [done|]. destruct (e !! ch_path c) as [chain|]; [|by simplify_eq].
      unfold chained in Er. repeat (case_match; simplify_eq); try done.
      bool_prop. congruence.
    + intros p [Hp Hps]%Forall_cons. constructor; [done|auto].
  - split_and!; [done..|]. intros p [_ Hps]%Forall_cons. auto.
  - split_and!; [done|done|by constructor|]. intros p [_ Hps]%Forall_cons. auto.
Qed.

(** What [finish] commits is a record the store reads back: its number is the next, its
    changes are in the order of their paths, once each, and each changes something, if the
    open record was valid, and the diff as the object store promises it. *)
Theorem finish_record_valid next open changes captured window r :
  (FIRST_SEQ <= next)%N → valid_open open = true → valid_holder (rq_holder (o_request open)) = true →
  forallb (fun b => valid_path (b_path b)) captured = true →
  StronglySorted (λ a b, bytes_lt (ch_path a) (ch_path b)) changes → Forall change_ok changes →
  finish_record next open changes captured window = Some r →
  valid_record r = true ∧ seq r = next ∧ r_ticket r = o_ticket open.
Proof.
  intros Hn Ho Hh Hb Hs Hok. unfold finish_record, rebase.
  assert (∀ p, edges_of window !! p ≠ Some []) as He
    by (intros p; rewrite lookup_edges_of; by destruct (edges p window)).
  pose proof (rebase_from_ok _ (blind_of window) _ He Hs Hok) as H.
  destruct (rebase_from _ _ _) as [kept inter]. destruct H as (Hs' & Hk & Hi & _).
  case_if; [done|]. intros [= <-]. split; [|done]. unfold valid_open in Ho. bool_prop.
  unfold valid_record. cbn [StoredRecord_new seq r_ticket holders r_changes unrecorded].
  rewrite !andb_true_iff. split_and!; [by apply N.leb_le|done| | | |].
  - by rewrite elements_singleton; cbn [forallb]; rewrite Hh.
  - apply forallb_forall. intros c Hc. apply list_elem_of_In in Hc. rewrite Forall_forall in Hk.
    destruct (Hk c Hc) as [-> Hne]. by rewrite bool_decide_eq_false_2.
  - apply windows2_spec. apply StronglySorted_Sorted in Hs'. clear -Hs'.
    induction Hs' as [|a l Hl IH Ha]; constructor; [done|]. destruct Ha; constructor.
    by apply bool_decide_eq_true.
  - apply forallb_forall. intros u Hu. apply list_elem_of_In, dedup_paths_sub in Hu.
    rewrite sort_by_perm in Hu. apply elem_of_app in Hu as [Hu|Hu].
    { rewrite Forall_forall in Hi. auto. }
    assert (su_path u ∈ map su_path (blind_changes (o_blind open) captured)) as Hp
      by (by apply list_elem_of_fmap_2).
    apply blind_changes_paths in Hp.
    assert (forallb (λ b, valid_path (b_path b)) (o_blind open ++ captured) = true) as Hall
      by (rewrite forallb_app; by apply andb_true_iff).
    rewrite <- elem_of_app, <- map_app in Hp. apply list_elem_of_fmap in Hp as (x & -> & Hx).
    apply (proj1 (forallb_forall _ _) Hall). by apply list_elem_of_In.
Qed.

(** *** Composition *)

Definition starts_at (chain : list Edge) (s : PathState) : Prop := ∃ a, head chain = Some (s, a).

Lemma compose_one_spec dir unrec path chain :
  chain ≠ [] →
  match compose_one dir unrec (path, chain) with
  | (Some c, None) => cp_path c = path ∧ unrec !! path = None ∧ linked chain = true ∧
      ∃ b a, starts_at chain b ∧ ends_at chain a ∧ b ≠ a ∧
        (cp_source c, cp_target c) = match dir with Revert => (a, b) | Unrevert => (b, a) end
  | (None, Some c) => c = {| cf_path := path; cf_kind := Interleaved; cf_reason := None |} ∧
      unrec !! path = None ∧ linked chain = false
  | (None, None) => is_Some (unrec !! path) ∨
      linked chain = true ∧ ∃ b, starts_at chain b ∧ ends_at chain b
  | _ => False
  end.
Proof.
  intros Hne. unfold compose_one. case_bool_decide as Hu; [by left|].
  apply eq_None_not_Some in Hu. destruct (linked chain) eqn:El; cbn [negb]; [|done].
  destruct chain as [|[b t] chain]; [done|]. cbn [head].
  destruct (last ((b, t) :: chain)) as [[lb a]|] eqn:Elast; [|by apply last_None in Elast].
  assert (starts_at ((b, t) :: chain) b) as Hst by (by eexists).
  assert (ends_at ((b, t) :: chain) a) as Hen by (by eexists).
  case_bool_decide as Hba; [subst; right; by eauto|].
  destruct dir; simpl; split_and!; eauto 10.
Qed.

(** Pushing at most one item a turn keeps the order of the keys. *)
Lemma omap_sorted {A B} (f : A → option B) (key : A → list N) (key' : B → list N) l :
  (∀ a b, f a = Some b → key' b = key a) →
  StronglySorted (λ a b, bytes_lt (key a) (key b)) l →
  StronglySorted (λ a b, bytes_lt (key' a) (key' b)) (omap f l).
Proof.
  intros Hf. induction 1 as [|x l Hs IH Hx]; [constructor|]. cbn [omap list_omap].
  destruct (f x) as [y|] eqn:E; [|done]. constructor; [done|]. apply Forall_forall.
  intros z Hz. apply list_elem_of_omap in Hz as (w & Hw & Hz). rewrite (Hf _ _ E), (Hf _ _ Hz).
  rewrite Forall_forall in Hx. auto.
Qed.

Lemma elem_of_chains p chain records :
  (p, chain) ∈ btree (edges_of records) ↔ chain = edges p records ∧ chain ≠ [].
Proof.
  rewrite elem_of_btree, lookup_of_edges. destruct (edges p records); split; naive_solver.
Qed.

(** The changes are, in the order of their paths, the paths with a linked history that ends
    elsewhere than it starts, from one end to the other; the conflicts are, in the order of
    their paths, the paths a record could not store, with the first reason, and those whose
    history is broken. *)
Lemma compose_describes records dir :
  let '(composed, conflicts) := compose records dir in
  StronglySorted (λ a b, bytes_lt (cp_path a) (cp_path b)) composed ∧
  StronglySorted (λ a b, bytes_lt (cf_path a) (cf_path b)) conflicts ∧
  (∀ p s t, {| cp_path := p; cp_source := s; cp_target := t |} ∈ composed ↔
     reason p records = None ∧ linked (edges p records) = true ∧ ∃ b a,
       starts_at (edges p records) b ∧ ends_at (edges p records) a ∧ b ≠ a ∧
       (s, t) = match dir with Revert => (a, b) | Unrevert => (b, a) end) ∧
  (∀ p k x, {| cf_path := p; cf_kind := k; cf_reason := x |} ∈ conflicts ↔
     (k = Unrecorded ∧ x ≠ None ∧ x = reason p records) ∨
     (k = Interleaved ∧ x = None ∧ reason p records = None ∧ linked (edges p records) = false)).
Proof.
  unfold compose, compose_chains. set (unrec := unrecorded_of records).
  assert (∀ p, unrec !! p = reason p records) as Hunrec by (intros p; apply lookup_unrecorded_of).
  set (chains := btree (edges_of records)). split_and!.
  - apply (omap_sorted _ fst); [|apply btree_sorted]. intros [p chain] c.
    unfold compose_one. repeat case_match; naive_solver.
  - apply sort_by_sorted. rewrite map_app. apply NoDup_app. split_and!.
    + rewrite map_map. erewrite map_ext; [apply NoDup_fst_btree|]. by intros [].
    + intros p Hp Hq. apply list_elem_of_fmap in Hp as (c & -> & Hc).
      apply list_elem_of_fmap in Hc as ([q x] & -> & Hx%elem_of_btree). cbn [cf_path] in Hq.
      apply list_elem_of_fmap in Hq as (c & Hqc & Hc). apply list_elem_of_omap in Hc as ([p' chain] & Hin & Hc).
      apply elem_of_chains in Hin as [_ Hne]. pose proof (compose_one_spec dir unrec p' chain Hne) as H.
      destruct (compose_one dir unrec (p', chain)) as [[?|] [?|]]; simplify_eq; try done.
      destruct H as (-> & H & _). simpl in *.
      injection Hc as <-. simpl in *. congruence.
    + apply (StronglySorted_NoDup_key cf_path), (omap_sorted _ fst); [|apply btree_sorted]. intros [p chain] c.
      unfold compose_one. repeat case_match; naive_solver.
  - intros p s t. rewrite list_elem_of_omap. split.
    + intros ([p' chain] & Hin & Hc). apply elem_of_chains in Hin as [-> Hne].
      pose proof (compose_one_spec dir unrec p' _ Hne) as H.
      destruct (compose_one dir unrec _) as [[?|] [?|]]; simpl in *; simplify_eq; try done.
      destruct H as (Hp & Hu & Hl & H). simpl in *. subst p'. rewrite <- Hunrec. eauto.
    + intros (Hr & Hl & b & a & Hb & Ha & Hne & Hst). exists (p, edges p records).
      assert (edges p records ≠ []) as Hcn by (intros E; destruct Hb as [? Hb]; by rewrite E in Hb).
      split; [by apply elem_of_chains|]. pose proof (compose_one_spec dir unrec p _ Hcn) as H.
      rewrite <- Hunrec in Hr.
      destruct (compose_one dir unrec _) as [[c|] [?|]]; simpl; try done.
      * destruct H as (Hp & _ & _ & b' & a' & Hb' & Ha' & _ & Hst').
        destruct Hb as [? Hb], Hb' as [? Hb'], Ha as [? Ha], Ha' as [? Ha'].
        destruct c; simpl in *. f_equal. rewrite Hb in Hb'. rewrite Ha in Ha'. simplify_eq.
        destruct dir; by simplify_eq.
      * naive_solver congruence.
      * exfalso. destruct H as [[? H]|(_ & b' & [? Hb'] & [? Ha'])]; [congruence|].
        destruct Hb as [? Hb], Ha as [? Ha]. congruence.
  - intros p k x. rewrite sort_by_perm, elem_of_app, list_elem_of_fmap, list_elem_of_omap. split.
    + intros [([q y] & Heq & Hq%elem_of_btree)|([p' chain] & Hin & Hc)].
      * simplify_eq. left. by rewrite <- Hunrec, Hq.
      * apply elem_of_chains in Hin as [-> Hne]. pose proof (compose_one_spec dir unrec p' _ Hne) as H.
        destruct (compose_one dir unrec _) as [[?|] [?|]]; simpl in *; simplify_eq; try done.
        destruct H as (Heq & Hu & Hl). simplify_eq. right. by rewrite <- Hunrec.
    + intros [(-> & Hx & Hr)|(-> & -> & Hr & Hl)].
      * left. destruct x as [y|]; [|done]. exists (p, y). split; [done|]. apply elem_of_btree.
        by rewrite Hunrec.
      * right. exists (p, edges p records). assert (edges p records ≠ []) as Hcn by (by intros E; rewrite E in Hl).
        split; [by apply elem_of_chains|]. pose proof (compose_one_spec dir unrec p _ Hcn) as H.
        rewrite <- Hunrec in Hr.
        destruct (compose_one dir unrec _) as [[c|] [?|]]; simpl; try done.
        -- destruct H as (_ & _ & H & _). congruence.
        -- by destruct H as (-> & _).
        -- destruct H as [[? H]|[H _]]; congruence.
Qed.

(** *** Histories of a workspace *)

(** What each path of a workspace holds. *)
Definition Held : Type := list N → PathState.

(** [r] holds everything that happened between [w] and [w']. *)
Definition recorded (r : StoredRecord) (w w' : Held) : Prop :=
  NoDup (map sc_path (r_changes r)) ∧ unrecorded r = [] ∧
  (∀ c, c ∈ r_changes r → w (sc_path c) = before c ∧ w' (sc_path c) = after c) ∧
  ∀ p, p ∉ map sc_path (r_changes r) → w' p = w p.

Fixpoint history (w : Held) (records : list StoredRecord) (w' : Held) : Prop :=
  match records with
  | [] => ∀ p, w' p = w p
  | r :: records' => ∃ w1, recorded r w w1 ∧ history w1 records' w'
  end.

(** Publishing composed changes. *)
Definition publish_all (composed : list Composed) (w : Held) : Held := fun p =>
  match List.find (fun c => bool_decide (cp_path c = p)) composed with
  | Some c => cp_target c
  | None => w p
  end.

Lemma changes_edges w w' p cs :
  NoDup (map sc_path cs) → (∀ c, c ∈ cs → w (sc_path c) = before c ∧ w' (sc_path c) = after c) →
  map (fun c => (before c, after c)) (filter (λ c, sc_path c = p) cs) =
    if bool_decide (p ∈ map sc_path cs) then [(w p, w' p)] else [].
Proof.
  induction cs as [|c cs IH]; [done|]. cbn [map]. intros [Hn Hnd]%NoDup_cons Hin.
  specialize (IH Hnd (λ k Hk, Hin k (list_elem_of_further _ _ _ Hk))).
  rewrite filter_cons. destruct (decide (sc_path c = p)) as [Hp|Hp].
  - subst p. rewrite (bool_decide_eq_true_2 (_ ∈ _ :: _)) by by left. cbn [map].
    rewrite IH, bool_decide_eq_false_2 by done. by destruct (Hin c ltac:(by left)) as [-> ->].
  - rewrite IH, (bool_decide_ext (p ∈ _ :: _) (p ∈ map sc_path cs)); [done|].
    rewrite elem_of_cons. naive_solver.
Qed.

Lemma recorded_edges r w w' p :
  recorded r w w' → record_edges p r = [] ∧ w' p = w p ∨ record_edges p r = [(w p, w' p)].
Proof.
  intros (Hnd & _ & Hin & Hout). unfold record_edges. rewrite (changes_edges w w') by done.
  case_bool_decide; [by right|left; auto].
Qed.

Lemma history_chain w records w' p :
  history w records w' →
  reason p records = None ∧ linked (edges p records) = true ∧
  match edges p records with
  | [] => w' p = w p
  | _ => starts_at (edges p records) (w p) ∧ ends_at (edges p records) (w' p)
  end.
Proof.
  revert w. induction records as [|r records IH]; intros w; [intros H; split_and!; [done|done|apply H]|].
  intros (w1 & Hr & Hh). destruct (IH w1 Hh) as (Hu & Hl & He). cbn [reason].
  assert (record_reason p r = None) as ->.
  { destruct Hr as (_ & Hu' & _). unfold record_reason. by rewrite Hu'. }
  split; [done|]. change (edges p (r :: records)) with (record_edges p r ++ edges p records).
  destruct (recorded_edges _ _ _ p Hr) as [[-> Heq]| ->]; cbn [app].
  { split; [done|]. by rewrite <- Heq. }
  destruct (edges p records) as [|[b a] es].
  - split; [done|]. split; [by eexists|]. rewrite He. by eexists.
  - destruct He as [[t Ht] [b' Hb]]. cbn [head] in Ht. simplify_eq. split_and!.
    + change (bool_decide (w1 p = w1 p) && linked ((w1 p, t) :: es) = true).
      by rewrite bool_decide_eq_true_2.
    + by eexists.
    + exists b'. by rewrite last_cons, Hb.
Qed.

(** The change of a path whose history is known from end to end. *)
Lemma history_change p b a dir records s t :
  (reason p records = None ∧ linked (edges p records) = true ∧
   match edges p records with
   | [] => a = b
   | _ => starts_at (edges p records) b ∧ ends_at (edges p records) a
   end) →
  (reason p records = None ∧ linked (edges p records) = true ∧ (∃ b a,
     starts_at (edges p records) b ∧ ends_at (edges p records) a ∧ b ≠ a ∧
     (s, t) = match dir with Revert => (a, b) | Unrevert => (b, a) end)) ↔
  b ≠ a ∧ (s, t) = match dir with Revert => (a, b) | Unrevert => (b, a) end.
Proof.
  intros (Hr & Hl & H). split.
  - intros (_ & _ & b' & a' & [x Hb'] & [y Ha'] & Hne & Hst).
    destruct (edges p records) as [|e es]; [done|]. destruct H as [[z Hb] [u Ha]].
    rewrite Hb in Hb'. rewrite Ha in Ha'. by simplify_eq.
  - intros [Hne Hst]. split_and!; [done|done|]. exists b, a.
    destruct (edges p records) as [|e es]; [by destruct Hne|]. by destruct H.
Qed.

Lemma publish_all_ok composed w w' p :
  (∀ p s t, {| cp_path := p; cp_source := s; cp_target := t |} ∈ composed ↔
     w p ≠ w' p ∧ s = w p ∧ t = w' p) →
  publish_all composed w p = w' p.
Proof.
  intros Hc. unfold publish_all. destruct (List.find _ composed) as [[q s t]|] eqn:E.
  - apply List.find_some in E as [Hin Hq]. apply bool_decide_eq_true in Hq. cbn [cp_path] in Hq. subst q.
    apply list_elem_of_In, Hc in Hin as (_ & _ & ->). done.
  - destruct (decide (w p = w' p)) as [|Hne]; [done|]. exfalso.
    pose proof (proj2 (Hc p (w p) (w' p)) ltac:(by split_and!)) as Hin. apply list_elem_of_In in Hin.
    by apply (List.find_none _ _ E), bool_decide_eq_false in Hin.
Qed.

(** C12: Composing whole histories undoes and redoes them: when records hold everything that
    happened to a workspace, the composition has no conflicts, each of its changes replaces
    what its path holds, reverting brings every path back to what it held before, and
    unreverting that brings every path forward again. *)
Theorem compose_undoes_history w records w' :
  history w records w' →
  let '(reverts, conflicts) := compose records Revert in
  let '(unreverts, conflicts') := compose records Unrevert in
  conflicts = [] ∧ conflicts' = [] ∧
  (∀ c, c ∈ reverts → w' (cp_path c) = cp_source c) ∧
  (∀ c, c ∈ unreverts → w (cp_path c) = cp_source c) ∧
  (∀ p, publish_all reverts w' p = w p) ∧
  (∀ p, publish_all unreverts (publish_all reverts w') p = w' p).
Proof.
  intros Hh. pose proof (λ p, history_chain w records w' p Hh) as Hp. clear Hh.
  pose proof (compose_describes records Revert) as HR.
  pose proof (compose_describes records Unrevert) as HU.
  destruct (compose records Revert) as [reverts conflicts].
  destruct (compose records Unrevert) as [unreverts conflicts'].
  destruct HR as (_ & _ & HR & HRc). destruct HU as (_ & _ & HU & HUc).
  assert (∀ cs, (∀ p k x, {| cf_path := p; cf_kind := k; cf_reason := x |} ∈ cs ↔
     (k = Unrecorded ∧ x ≠ None ∧ x = reason p records) ∨
     (k = Interleaved ∧ x = None ∧ reason p records = None ∧ linked (edges p records) = false)) →
     cs = []) as Hnone.
  { intros cs H. destruct cs as [|[p k x] cs]; [done|]. exfalso.
    destruct (proj1 (H p k x) ltac:(by left)) as [(_ & Hx & Hr)|(_ & _ & _ & Hl)];
      destruct (Hp p) as (Hr' & Hl' & _); congruence. }
  assert (∀ p s t, {| cp_path := p; cp_source := s; cp_target := t |} ∈ reverts ↔
    w p ≠ w' p ∧ s = w' p ∧ t = w p) as HR'.
  { intros p s t. etransitivity; [apply HR|].
    etransitivity; [exact (history_change p (w p) (w' p) Revert records s t (Hp p))|].
    simpl. split; [by intros [? [= -> ->]]|by intros (? & -> & ->)]. }
  assert (∀ p s t, {| cp_path := p; cp_source := s; cp_target := t |} ∈ unreverts ↔
    w p ≠ w' p ∧ s = w p ∧ t = w' p) as HU'.
  { intros p s t. etransitivity; [apply HU|].
    etransitivity; [exact (history_change p (w p) (w' p) Unrevert records s t (Hp p))|].
    simpl. split; [by intros [? [= -> ->]]|by intros (? & -> & ->)]. }
  assert (∀ p, publish_all reverts w' p = w p) as Hpub.
  { intros p. apply publish_all_ok. intros p' s t. rewrite HR'. naive_solver. }
  split_and!; [by apply Hnone|by apply Hnone| | | |].
  - intros [p s t] Hc%HR'. destruct Hc as (_ & -> & _). done.
  - intros [p s t] Hc%HU'. by destruct Hc as (_ & -> & _).
  - exact Hpub.
  - intros p. apply publish_all_ok. intros p' s t. by rewrite HU', Hpub.
Qed.

(** ** Examples *)

Module ExampleRecords.

Definition a_file : list N := lit "a.txt".
Definition b_file : list N := lit "dir/b.txt".
Definition held_as (n : N) : PathState := Some {| c_kind := SnapshotTree.File; c_oid := [n] |}.

Definition request : RecordRequest :=
  {| rq_scope := Workspace ROOT_SCOPE; rq_holder := lit "task"; rq_client := [];
     rq_limits := {| max_files := 10; max_file_bytes := 100; max_total_bytes := 1000 |} |}.

(** A record that opened when the next number was 1. *)
Definition open : StoredOpenRecord :=
  StoredOpenRecord_new (replicate 32 48%N) request false 1 0 (replicate 20 0%N) [].

(** The window: [a.txt] went from 1 to 2. *)
Definition earlier : list StoredRecord :=
  [StoredRecord_new 1 open [{| sc_path := a_file; before := held_as 1; after := held_as 2 |}] []].

(** The call saw [a.txt] go from 1 to 3, and [dir/b.txt] appear. *)
Definition changes : list Change :=
  [{| ch_path := a_file; source := held_as 1; target := held_as 3 |};
   {| ch_path := b_file; source := None; target := held_as 4 |}].

Example finish_rebases :
  finish_record 2 open changes [] earlier =
    Some (StoredRecord_new 2 open
      [{| sc_path := a_file; before := held_as 2; after := held_as 3 |};
       {| sc_path := b_file; before := None; after := held_as 4 |}] []).
Proof. vm_compute. reflexivity. Qed.

Lemma finish_continues_histories_witness :
  NoDup (map ch_path changes) ∧
  let log := earlier ++ option_list (finish_record 2 open changes [] earlier) in
  linked (edges a_file log) = true ∧ ends_at (edges a_file log) (held_as 3) ∧ length log = 2.
Proof.
  assert (NoDup (map ch_path changes)) as Hnd by (apply (bool_decide_unpack _); vm_compute; exact I).
  split; [exact Hnd|]. cbv zeta.
  pose proof (finish_continues_histories 2 open changes [] earlier Hnd (NoDup_nil_2) (NoDup_nil_2)) as [H _].
  specialize (H {| ch_path := a_file; source := held_as 1; target := held_as 3 |} ltac:(by left)).
  cbv zeta in H. destruct H as [H _]. cbn [ch_path target] in H. destruct H as (_ & H1 & H2).
  - split; [vm_compute; reflexivity|]. right. split; [vm_compute; reflexivity|].
    apply (bool_decide_unpack _). vm_compute. exact I.
  - split; [exact H1|]. split; [exact H2|]. vm_compute. reflexivity.
Defined.

Lemma finish_record_valid_witness :
  ∃ r, finish_record 2 open changes [] earlier = Some r ∧ valid_record r = true ∧ seq r = 2%N.
Proof.
  destruct (finish_record 2 open changes [] earlier) as [r|] eqn:E; [|vm_compute in E; discriminate].
  exists r. split; [reflexivity|].
  destruct (finish_record_valid 2 open changes [] earlier r) as (H1 & H2 & _).
  - vm_compute. discriminate.
  - vm_compute. reflexivity.
  - vm_compute. reflexivity.
  - reflexivity.
  - repeat constructor.
  - repeat constructor; try (vm_compute; reflexivity); discriminate.
  - exact E.
  - split; [exact H1|exact H2].
Defined.

Definition log : list StoredRecord :=
  earlier ++ option_list (finish_record 2 open changes [] earlier).

(** Before, between and after the two records. *)
Definition at_0 : Held := fun p => if bool_decide (p = a_file) then held_as 1 else None.
Definition at_1 : Held := fun p => if bool_decide (p = a_file) then held_as 2 else None.
Definition at_2 : Held := fun p =>
  if bool_decide (p = a_file) then held_as 3
  else if bool_decide (p = b_file) then held_as 4 else None.

Lemma history_log : history at_0 log at_2.
Proof.
  unfold log. rewrite finish_rebases. unfold earlier. cbn [option_list app history]. exists at_1. split.
  { split_and!; [apply (bool_decide_unpack _); vm_compute; exact I|done| |].
    - by intros c ->%list_elem_of_singleton.
    - intros p Hp. unfold at_0, at_1. rewrite !bool_decide_eq_false_2; [done|..];
        intros ->; apply Hp; by left. }
  exists at_2. split; [|done]. split_and!; [apply (bool_decide_unpack _); vm_compute; exact I|done| |].
  - intros c [->|[->|H]%elem_of_cons]%elem_of_cons; [done|done|by apply elem_of_nil in H].
  - intros p Hp. unfold at_1, at_2. rewrite !bool_decide_eq_false_2; [done|..];
      intros ->; apply Hp; first [by left|right; by left].
Qed.

Lemma compose_undoes_history_witness :
  let '(reverts, conflicts) := compose log Revert in
  conflicts = [] ∧ length reverts = 2 ∧ (∀ p, publish_all reverts at_2 p = at_0 p).
Proof.
  pose proof (compose_undoes_history at_0 log at_2 history_log) as H.
  assert (length (compose log Revert).1 = 2) as E by (vm_compute; reflexivity).
  destruct (compose log Revert) as [reverts conflicts], (compose log Unrevert) as [u c].
  destruct H as (H1 & _ & _ & _ & H2 & _). split; [exact H1|]. split; [exact E|exact H2].
Defined.

End ExampleRecords.
