(* ===== verification/Worktree.v ===== *)
(** * Access to the workspace's tree

    [mcp-files/src/snapshot_tree.rs] without its walk, and [PublicationTemporary] of
    [binary.rs]: entries are observed without following links, and published only while they
    are what is expected.

    The tree has names and inodes, so that two names can share one.  Its clock is the time
    of the last change: an inode that has not changed since some time is as it was then
    ([evolves]).  Every call of the system may fail, and logs the tree it leaves. *)

From stdpp Require Import gmap.
From S2P Require Import Prelude Utf8 Effects SnapshotTree Records.

Inductive NodeKind :=
| KFile (bytes : list N)
| KSymlink (link : list N)
| KDirectory
| KOther.
#[export] Instance NodeKind_eq_dec : EqDecision NodeKind.
Proof. solve_decision. Defined.

Record Inode := { i_kind : NodeKind; i_mode : N; i_modified : N; i_changed : N }.

Record Tree := {
  names : gmap (list N) N;
  inodes : gmap N Inode;
  next_inode : N;
  clock : N;
  next_uuid : N;
  tree_faults : list bool;
}.

(** The file type and permission bits of [st_mode]. *)
Definition type_bits (k : NodeKind) : N :=
  match k with KFile _ => 0x8000 | KSymlink _ => 0xA000 | KDirectory => 0x4000 | KOther => 0x1000 end.
Definition size_of (k : NodeKind) : N :=
  match k with KFile bytes => N.of_nat (length bytes) | KSymlink l => N.of_nat (length l) | _ => 0 end.

Record TreeStamp := { ts_identity : N; ts_size : N; ts_mode : N; ts_modified : N; ts_changed : N }.
#[export] Instance TreeStamp_eq_dec : EqDecision TreeStamp.
Proof. solve_decision. Defined.

Definition stamp_of (ino : N) (n : Inode) : TreeStamp :=
  {| ts_identity := ino; ts_size := size_of (i_kind n); ts_mode := type_bits (i_kind n) + i_mode n;
     ts_modified := i_modified n; ts_changed := i_changed n |}.

(** The kinds of [io::Error] the callers tell apart. *)
Inductive IoKind := InvalidData | PermissionDenied | OtherIo.
#[export] Instance IoKind_eq_dec : EqDecision IoKind.
Proof. solve_decision. Defined.

Inductive TreeError :=
| TreeProtected | TreeBlocked | TreeChanged | TreeFailed (kind : IoKind) | TreeUnsettled.
#[export] Instance TreeError_eq_dec : EqDecision TreeError.
Proof. solve_decision. Defined.

Inductive Observed :=
| ObsAbsent
| ObsFile (ino : N) (n : Inode)
| ObsSymlink (target : list N) (stamp : TreeStamp)
| ObsDirectory
| ObsOther.

Inductive Expected := ExpAbsent | ExpPresent (stamp : TreeStamp).

(** A reader: what it yields, and whether it then ends or fails. *)
Record Source := { yields : list N; breaks : option IoKind }.
Inductive TreeContent := TFile (source : Source) (mode : N) | TSymlink (target : list N) | TAbsent.

Definition TreeIo (A : Type) : Type := Eff Tree Tree TreeError A.

Definition with_tree_faults (f : list bool) (t : Tree) : Tree :=
  {| names := names t; inodes := inodes t; next_inode := next_inode t; clock := clock t;
     next_uuid := next_uuid t; tree_faults := f |}.
Definition with_names (ns : gmap (list N) N) (t : Tree) : Tree :=
  {| names := ns; inodes := inodes t; next_inode := next_inode t; clock := clock t;
     next_uuid := next_uuid t; tree_faults := tree_faults t |}.

(** Any change of an inode moves its change time. *)
Definition set_inode (ino : N) (k : NodeKind) (mode modified : N) (t : Tree) : Tree :=
  {| names := names t;
     inodes := <[ino := {| i_kind := k; i_mode := mode; i_modified := modified; i_changed := clock t |}]>
                 (inodes t);
     next_inode := next_inode t; clock := clock t + 1; next_uuid := next_uuid t;
     tree_faults := tree_faults t |}.
Definition touch (ino : N) (t : Tree) : Tree :=
  match inodes t !! ino with
  | Some n => set_inode ino (i_kind n) (i_mode n) (i_modified n) t
  | None => t
  end.
(** A new inode and a name for it. *)
Definition create (p : list N) (k : NodeKind) (mode : N) (t : Tree) : Tree :=
  let ino := next_inode t in
  {| names := <[p := ino]> (names t);
     inodes := <[ino := {| i_kind := k; i_mode := mode; i_modified := clock t; i_changed := clock t |}]>
                 (inodes t);
     next_inode := ino + 1; clock := clock t + 1; next_uuid := next_uuid t;
     tree_faults := tree_faults t |}.

Definition node_at (t : Tree) (p : list N) : option (N * Inode) :=
  ino ← names t !! p; n ← inodes t !! ino; Some (ino, n).

(** What fails, and what it fails with. *)
Definition sys {A} (failure : TreeError) (f : Tree → Result A TreeError * Tree) : TreeIo A := fun s =>
  let t := world s in
  let '(r, t') :=
    match tree_faults t with
    | true :: rest => (Err failure, with_tree_faults rest t)
    | _ => f (with_tree_faults (tail (tree_faults t)) t)
    end in
  (r, {| world := t'; log := log s ++ [t'] |}).

Definition PERMISSION_BITS : N := 0x1FF.
Definition STAGED_MODE : N := 0x180.
Definition DIRECTORY_MODE : N := 0x1FF.

(** ** Calls of the system *)

Definition healthy (t : Tree) : Prop := Forall (λ b, b = false) (tree_faults t).

Lemma wp_sys {A} P failure (f : Tree → Result A TreeError * Tree) t Q :
  (∀ fl, ¬ healthy t → Q (Err failure) (with_tree_faults fl t) ∧ P (with_tree_faults fl t)) →
  (∀ fl, (healthy t → Forall (λ b, b = false) fl) →
     Q (f (with_tree_faults fl t)).1 (f (with_tree_faults fl t)).2 ∧ P (f (with_tree_faults fl t)).2) →
  wp P (sys failure f) t Q.
Proof.
  intros Hfail Hok s <-. unfold sys. destruct (tree_faults (world s)) as [|[] fl] eqn:E.
  - destruct (Hok [] (λ _, ltac:(constructor))) as [HQ HP]. simpl. destruct (f _) as [r t'].
    split; [done|]. exists [t']. by repeat constructor.
  - destruct (Hfail fl) as [HQ HP]; [unfold healthy; rewrite E; by inversion 1|]. simpl. split; [done|].
    eexists [_]. by repeat constructor.
  - destruct (Hok fl) as [HQ HP]; [unfold healthy; rewrite E; by inversion 1|]. simpl.
    destruct (f _) as [r t']. split; [done|]. exists [t']. by repeat constructor.
Qed.

(** [observes t m v]: [m] leaves the tree as it is, and unless the system fails ends as [v] says. *)
Definition observes {A} (t : Tree) (m : TreeIo A) (v : Result A TreeError) (may : TreeError → Prop) : Prop :=
  ∀ P : Tree → Prop, (∀ fl, P (with_tree_faults fl t)) →
  wp P m t (λ r t', ∃ fl, t' = with_tree_faults fl t ∧ (healthy t → Forall (λ b, b = false) fl) ∧
    (r = v ∨ ¬ healthy t ∧ ∃ e, r = Err e ∧ may e)).

Lemma with_tree_faults_id t : with_tree_faults (tree_faults t) t = t.
Proof. by destruct t. Qed.

Lemma observes_sys {A} t failure (g : Tree → Result A TreeError) (may : TreeError → Prop) :
  (∀ fl, g (with_tree_faults fl t) = g t) → may failure →
  observes t (sys failure (λ t, (g t, t))) (g t) may.
Proof.
  intros Hg Hmay P HP. apply wp_sys; intros fl Hfl; simpl.
  - split; [|done]. exists fl. naive_solver.
  - split; [|done]. exists fl. rewrite Hg. naive_solver.
Qed.

Lemma observes_lift {A} t (v : Result A TreeError) may : observes t (lift v) v may.
Proof.
  intros P HP. apply wp_lift. exists (tree_faults t). rewrite with_tree_faults_id. auto.
Qed.

Lemma observes_bind {A B} t (m : TreeIo A) (f : A → TreeIo B) v w may :
  observes t m v may →
  (∀ fl a, v = Ok a → observes (with_tree_faults fl t) (f a) w may) →
  (∀ e, v = Err e → w = Err e) →
  observes t (and_then m f) w may.
Proof.
  intros Hm Hf He P HP. apply wp_bind. eapply wp_mono; [by apply Hm|done|].
  intros r t' (fl & -> & Hfl & Hr). destruct r as [a|e].
  - destruct Hr as [Hv|(_ & e & ? & _)]; [|done]. symmetry in Hv.
    eapply wp_mono; [apply (Hf fl a); [done|]; intros fl'; apply HP|done|].
    intros r t'' (fl' & -> & Hfl' & Hr). exists fl'. split_and!; [done|intros Hh; by apply Hfl', Hfl|].
    destruct Hr as [->|(Hn & Hr)]; [by left|]. right. split; [|done]. intros Hh. by apply Hn, Hfl.
  - exists fl. split_and!; [done..|]. destruct Hr as [Hv|(Hn & e' & [= <-] & Hmay)].
    + left. symmetry. by apply He.
    + right. eauto.
Qed.

Lemma observes_mono {A} t (m : TreeIo A) v (may may' : TreeError → Prop) :
  observes t m v may → (∀ e, may e → may' e) → observes t m v may'.
Proof.
  intros Hm H P HP. eapply wp_mono; [by apply Hm|done|]. intros r t' (fl & ? & ? & Hr).
  exists fl. naive_solver.
Qed.

Section access.
(** The policy, the text of a new identifier, and the umask. *)
Context (protects_relative : list N → bool) (uuid : N → list N) (umask : N).

(** [openat] of a child as a plain directory. *)
Definition child_directory (t : Tree) (parent name : list N) : Result (option (list N)) TreeError :=
  match node_at t (join_path parent name) with
  | None => Ok None
  | Some (_, n) =>
      match i_kind n with
      | KDirectory => Ok (Some (join_path parent name))
      | _ => Err TreeBlocked
      end
  end.

Definition open_directory (parent name : list N) : TreeIo (option (list N)) :=
  sys TreeBlocked (fun t => (child_directory t parent name, t)).

Definition plain_component (c : list N) : bool := negb (bool_decide (c ∈ [[]; DOT; DOTDOT])).

Fixpoint tree_parent_from (directory : list N) (components : list (list N)) :
    TreeIo (option (list N * list N)) :=
  match components with
  | [] => throw TreeBlocked
  | component :: rest =>
      if negb (plain_component component) then throw TreeBlocked
      else
        match rest with
        | [] => ret (Some (directory, component))
        | _ :: _ =>
            (do? child := open_directory directory component in
             match child with
             | Some child => tree_parent_from child rest
             | None => ret None
             end)%W
        end
  end.

Definition tree_parent (path : list N) : TreeIo (option (list N * list N)) :=
  (if protects_relative path then throw TreeProtected
   else
     do? _ := sys TreeBlocked (fun t => (Ok tt, t)) in
     tree_parent_from [] (split_on SLASH path))%W.

Definition observed_at (t : Tree) (p : list N) : Observed :=
  match node_at t p with
  | None => ObsAbsent
  | Some (ino, n) =>
      match i_kind n with
      | KFile _ => ObsFile ino n
      | KSymlink target => ObsSymlink target (stamp_of ino n)
      | KDirectory => ObsDirectory
      | KOther => ObsOther
      end
  end.
(** The metadata of the entry itself, then of the file opened again or the target of the link. *)
Definition observe_child (parent name : list N) : TreeIo Observed :=
  (do? node := sys (TreeFailed OtherIo) (fun t => (Ok (observed_at t (join_path parent name)), t)) in
   match node with
   | ObsFile _ _ => sys (TreeFailed PermissionDenied) (fun t => (Ok node, t))
   | ObsSymlink _ _ => sys (TreeFailed OtherIo) (fun t => (Ok node, t))
   | _ => ret node
   end)%W.

Definition observe_tree_entry (path : list N) : TreeIo Observed :=
  (do? parent := tree_parent path in
   match parent with
   | None => ret ObsAbsent
   | Some (parent, name) => observe_child parent name
   end)%W.

Definition stamp_at (t : Tree) (p : list N) : option TreeStamp :=
  (fun '(ino, n) => stamp_of ino n) <$> node_at t p.
Definition expected_holds (t : Tree) (p : list N) (expected : Expected) : bool :=
  match expected with
  | ExpAbsent => bool_decide (stamp_at t p = None)
  | ExpPresent stamp => bool_decide (stamp_at t p = Some stamp)
  end.

(** The metadata is read from the inode opened first. *)
Definition verify_expected (parent name : list N) (expected : Expected) : TreeIo unit :=
  (do? matches := sys TreeChanged (fun t => (Ok (expected_holds t (join_path parent name) expected), t)) in
   do? _ := sys (TreeFailed OtherIo) (fun t => (Ok tt, t)) in
   if matches : bool then ret tt else throw TreeChanged)%W.

Definition staged_name (n : N) : list N := lit ".workcell-restore-" ++ uuid n ++ lit ".tmp".

Definition new_uuid : TreeIo N :=
  ask None (fun t =>
    (next_uuid t,
     {| names := names t; inodes := inodes t; next_inode := next_inode t; clock := clock t;
        next_uuid := next_uuid t + 1; tree_faults := tree_faults t |})).

(** [openat] of a new file, a write of all of it, its mode, and a sync. *)
Definition open_new (p : list N) (k : NodeKind) (mode : N) : TreeIo unit :=
  sys (TreeFailed OtherIo) (fun t =>
    match names t !! p with
    | Some _ => (Err (TreeFailed OtherIo), t)
    | None => (Ok tt, create p k mode t)
    end).

Definition change_inode (p : list N) (f : Inode → N → NodeKind * N * N) : TreeIo unit :=
  sys (TreeFailed OtherIo) (fun t =>
    match node_at t p with
    | Some (ino, n) => let '(k, mode, modified) := f n (clock t) in (Ok tt, set_inode ino k mode modified t)
    | None => (Ok tt, t)
    end).

Definition stage_file (p : list N) (source : Source) (mode : N) : TreeIo unit :=
  (do? _ := open_new p (KFile []) (N.ldiff STAGED_MODE umask) in
   do? _ := change_inode p (fun n now => (KFile (yields source), i_mode n, now)) in
   do? _ := match breaks source with Some invalid => throw (TreeFailed invalid) | None => ret tt end in
   do? _ := change_inode p (fun n _ => (i_kind n, N.land mode PERMISSION_BITS, i_modified n)) in
   sys (TreeFailed OtherIo) (fun t => (Ok tt, t)))%W.

Definition unlink_tree (p : list N) (t : Tree) : Tree :=
  match names t !! p with
  | Some ino => touch ino (with_names (delete p (names t)) t)
  | None => t
  end.

(** [PublicationTemporary]: removed, or removed when dropped whatever comes of it. *)
Definition remove_temporary (p : list N) : TreeIo unit :=
  sys TreeUnsettled (fun t => (Ok tt, unlink_tree p t)).
Definition drop_temporary {A} (p : list N) (m : TreeIo A) : TreeIo A :=
  (do? r := attempt m in
   do? _ := attempt (remove_temporary p) in
   lift r)%W.

(** The call that makes a publication visible. *)
Definition link_new (staged p : list N) : TreeIo unit :=
  sys (TreeFailed OtherIo) (fun t =>
    match names t !! staged, names t !! p with
    | Some ino, None => (Ok tt, touch ino (with_names (<[p := ino]> (names t)) t))
    | None, _ | _, Some _ => (Err TreeChanged, t)
    end).

Definition is_directory (t : Tree) (p : list N) : bool :=
  match node_at t p with Some (_, n) => bool_decide (i_kind n = KDirectory) | None => false end.

Definition rename_over (staged p : list N) : TreeIo unit :=
  sys (TreeFailed OtherIo) (fun t =>
    match names t !! staged with
    | None => (Err TreeChanged, t)
    | Some ino =>
        if is_directory t p then (Err TreeChanged, t)
        else
          let t' := unlink_tree p t in
          (Ok tt, touch ino (with_names (<[p := ino]> (delete staged (names t'))) t'))
    end).

Definition unlink (p : list N) : TreeIo unit :=
  sys (TreeFailed OtherIo) (fun t =>
    match names t !! p with
    | None => (Err TreeChanged, t)
    | Some _ => if is_directory t p then (Err TreeChanged, t) else (Ok tt, unlink_tree p t)
    end).

Definition settle (staged : list N) : TreeIo unit :=
  (do? _ := remove_temporary staged in sys TreeUnsettled (fun t => (Ok tt, t)))%W.

(** [publish_tree_entry] once it has its temporary. *)
Definition publish_staged (parent name staged : list N) (expected : Expected)
    (content : TreeContent) : TreeIo unit :=
  (let target := join_path parent name in
   do? _ := match content with
            | TFile source mode => stage_file staged source mode
            | TSymlink link => open_new staged (KSymlink link) PERMISSION_BITS
            | TAbsent => ret tt
            end in
   do? _ := verify_expected parent name expected in
   match content, expected with
   | TAbsent, ExpAbsent => ret tt
   | TAbsent, ExpPresent _ => do? _ := unlink target in settle staged
   | _, ExpAbsent => do? _ := link_new staged target in settle staged
   | _, ExpPresent _ => do? _ := rename_over staged target in settle staged
   end)%W.

Definition publish_tree_entry (path : list N) (expected : Expected) (content : TreeContent) :
    TreeIo unit :=
  (do? found := tree_parent path in
   match found with
   | None => throw TreeBlocked
   | Some (parent, name) =>
       do? n := new_uuid in
       let staged := join_path parent (staged_name n) in
       drop_temporary staged (publish_staged parent name staged expected content)
   end)%W.

Definition create_tree_directory (path : list N) : TreeIo unit :=
  (do? found := tree_parent path in
   match found with
   | None => throw TreeBlocked
   | Some (parent, name) =>
       let p := join_path parent name in
       do? created := sys (TreeFailed OtherIo) (fun t =>
         match names t !! p with
         | Some _ => (Ok false, t)
         | None => (Ok true, create p KDirectory (N.ldiff DIRECTORY_MODE umask) t)
         end) in
       if created : bool then sys TreeUnsettled (fun t => (Ok tt, t))
       else
         do? child := open_directory parent name in
         match child with Some _ => ret tt | None => throw TreeBlocked end
   end)%W.

(** ** What a call leaves as it was *)

Definition tree_ok (t : Tree) : Prop :=
  (∀ p ino, names t !! p = Some ino → is_Some (inodes t !! ino)) ∧
  ∀ ino n, inodes t !! ino = Some n → (ino < next_inode t)%N ∧ (i_changed n < clock t)%N.

(** An inode that has not changed since [t0] is as it was then. *)
Definition evolves (t0 t : Tree) : Prop :=
  (clock t0 <= clock t)%N ∧ (next_inode t0 <= next_inode t ∧ next_uuid t0 <= next_uuid t)%N ∧
  ∀ ino n, inodes t !! ino = Some n → (i_changed n < clock t0)%N → inodes t0 !! ino = Some n.

(** Names outside [P] are as they were, and inodes keep their content. *)
Definition extends (P : list N → Prop) (t0 t : Tree) : Prop :=
  (∀ q, ¬ P q → names t !! q = names t0 !! q) ∧
  (∀ ino n, inodes t0 !! ino = Some n →
     ∃ n', inodes t !! ino = Some n' ∧ i_kind n' = i_kind n ∧ i_mode n' = i_mode n) ∧
  evolves t0 t.

(** What a name shows: the kind with its content, and the mode. *)
Definition shown (t : Tree) (p : list N) : option (NodeKind * N) :=
  (fun '(_, n) => (i_kind n, i_mode n)) <$> node_at t p.

Definition content_shown (c : TreeContent) : option (NodeKind * N) :=
  match c with
  | TFile source mode => Some (KFile (yields source), N.land mode PERMISSION_BITS)
  | TSymlink link => Some (KSymlink link, PERMISSION_BITS)
  | TAbsent => None
  end.

(** The name of some temporary. *)
Definition scratch (p : list N) : Prop := ∃ parent n, p = join_path parent (staged_name n).

Lemma evolves_refl t : evolves t t.
Proof. split_and!; [lia..|done]. Qed.

Lemma evolves_trans t1 t2 t3 : evolves t1 t2 → evolves t2 t3 → evolves t1 t3.
Proof.
  intros (Hc1 & Hn1 & H1) (Hc2 & Hn2 & H2). split_and!; [lia..|].
  intros ino n Hi Hc. apply H1, Hc. apply H2; [done|lia].
Qed.

Lemma extends_refl P t : extends P t t.
Proof. split_and!; [done| |apply evolves_refl]. intros ino n Hn. by exists n. Qed.

Lemma extends_trans P t1 t2 t3 : extends P t1 t2 → extends P t2 t3 → extends P t1 t3.
Proof.
  intros (H1 & H2 & H3) (H4 & H5 & H6). split_and!.
  - intros q Hq. by rewrite H4, H1.
  - intros ino n Hn. destruct (H2 _ _ Hn) as (n' & Hn' & Hk & Hm).
    destruct (H5 _ _ Hn') as (n'' & Hn'' & Hk' & Hm'). exists n''. split_and!; congruence.
  - by eapply evolves_trans.
Qed.

Lemma extends_mono (P Q : list N → Prop) t1 t2 :
  (∀ q, P q → Q q) → extends P t1 t2 → extends Q t1 t2.
Proof. intros HPQ (H1 & H2 & H3). split_and!; [|done|done]. intros q Hq. apply H1. auto. Qed.

Lemma extends_shown P t0 t q :
  tree_ok t0 → extends P t0 t → ¬ P q → shown t q = shown t0 q.
Proof.
  intros [Hok _] (H1 & H2 & _) Hq. unfold shown, node_at. rewrite H1 by done.
  destruct (names t0 !! q) as [ino|] eqn:E; [|done]. destruct (Hok _ _ E) as [n Hn].
  destruct (H2 _ _ Hn) as (n' & Hn' & Hk & Hm). simpl. rewrite Hn, Hn'. simpl. by rewrite Hk, Hm.
Qed.

(** *** The changes of a tree *)

Definition inv (P : list N → Prop) (t0 t : Tree) : Prop := tree_ok t ∧ extends P t0 t.

Lemma inv_refl P t : tree_ok t → inv P t t.
Proof. intros H. split; [done|apply extends_refl]. Qed.

Lemma inv_mono (P Q : list N → Prop) t0 t : (∀ q, P q → Q q) → inv P t0 t → inv Q t0 t.
Proof. intros H [? ?]. split; [done|by eapply extends_mono]. Qed.

Lemma inv_set_inode P t0 t ino k m d n :
  inv P t0 t → inodes t !! ino = Some n →
  ((next_inode t0 <= ino)%N ∨ k = i_kind n ∧ m = i_mode n) → tree_ok t0 →
  inv P t0 (set_inode ino k m d t).
Proof.
  intros [[Hok1 Hok2] (H1 & H2 & H3 & H4 & H5)] Hn Hkeep [_ Hok0]. split; [split|unfold extends, evolves; split_and!]; simpl.
  - intros p i Hp. rewrite lookup_insert_is_Some'. right. by eapply Hok1.
  - intros i x [[<- <-]|[_ Hx]]%lookup_insert_Some; simpl.
    + apply Hok2 in Hn as [? _]. split; [done|lia].
    + apply Hok2 in Hx as [? ?]. split; [done|lia].
  - done.
  - intros i x Hx. destruct (H2 _ _ Hx) as (x' & Hx' & Hk & Hm). destruct (decide (i = ino)) as [->|Hne].
    + rewrite lookup_insert_eq. eexists. split; [done|]. simpl. rewrite Hn in Hx'. simplify_eq.
      destruct Hkeep as [Hge|[-> ->]]; [|done]. apply Hok0 in Hx as [? _]. lia.
    + rewrite lookup_insert_ne by done. by exists x'.
  - simpl. lia.
  - simpl. lia.
  - simpl. lia.
  - intros i x [[<- <-]|[_ Hx]]%lookup_insert_Some; simpl; [lia|]. by apply H5.
Qed.

Lemma inv_touch P t0 t ino : inv P t0 t → tree_ok t0 → inv P t0 (touch ino t).
Proof.
  intros Hi Hok. unfold touch. destruct (inodes t !! ino) as [n|] eqn:E; [|done].
  eapply inv_set_inode; eauto.
Qed.

Lemma inv_create P t0 t p k m : inv P t0 t → P p → inv P t0 (create p k m t).
Proof.
  intros [[Hok1 Hok2] (H1 & H2 & H3 & H4 & H5)] HP. split; [split|unfold extends, evolves; split_and!]; simpl.
  - intros q i. intros [[<- <-]|[_ Hq]]%lookup_insert_Some; [by rewrite lookup_insert_eq|].
    rewrite lookup_insert_is_Some'. right. by eapply Hok1.
  - intros i x [[<- <-]|[_ Hx]]%lookup_insert_Some; simpl; [lia|]. apply Hok2 in Hx. lia.
  - intros q Hq. rewrite lookup_insert_ne; [by apply H1|]. by intros <-.
  - intros i x Hx. destruct (H2 _ _ Hx) as (x' & Hx' & Hk & Hm). exists x'.
    rewrite lookup_insert_ne; [done|]. intros <-. apply Hok2 in Hx' as [? _]. lia.
  - simpl. lia.
  - simpl. lia.
  - simpl. lia.
  - intros i x [[<- <-]|[_ Hx]]%lookup_insert_Some; simpl; [lia|]. by apply H5.
Qed.

Lemma inv_with_names P t0 t ns :
  inv P t0 t → (∀ q ino, ns !! q = Some ino → is_Some (inodes t !! ino)) →
  (∀ q, ¬ P q → ns !! q = names t !! q) → inv P t0 (with_names ns t).
Proof.
  intros [[Hok1 Hok2] (H1 & H2 & H3)] Hns Hq. split; [split; [done|done]|]. split_and!; [|done|done].
  intros q HP. simpl. by rewrite Hq, H1.
Qed.

Lemma inv_unlink P t0 t p : inv P t0 t → P p → tree_ok t0 → inv P t0 (unlink_tree p t).
Proof.
  intros Hi HP Hok. unfold unlink_tree. destruct (names t !! p) as [ino|] eqn:E; [|done].
  apply inv_touch; [|done]. apply inv_with_names; [done| |].
  - intros q i [_ Hq]%lookup_delete_Some. by eapply Hi.
  - intros q Hq. apply lookup_delete_ne. by intros ->.
Qed.

Lemma touch_names ino t : names (touch ino t) = names t.
Proof. unfold touch. by destruct (inodes t !! ino). Qed.

Lemma touch_node ino t i n :
  inodes t !! i = Some n →
  ∃ n', inodes (touch ino t) !! i = Some n' ∧ i_kind n' = i_kind n ∧ i_mode n' = i_mode n.
Proof.
  intros Hn. unfold touch. destruct (inodes t !! ino) as [x|] eqn:E; [|by exists n].
  simpl. destruct (decide (i = ino)) as [->|Hne].
  - rewrite lookup_insert_eq. rewrite Hn in E. simplify_eq. by eexists.
  - rewrite lookup_insert_ne by done. by exists n.
Qed.

Lemma touch_shown ino t q : shown (touch ino t) q = shown t q.
Proof.
  unfold shown, node_at. rewrite touch_names. destruct (names t !! q) as [i|]; [|done]. simpl.
  destruct (inodes t !! i) as [n|] eqn:En.
  - destruct (touch_node ino _ _ _ En) as (n' & -> & Hk & Hm). simpl. by rewrite Hk, Hm.
  - unfold touch. destruct (inodes t !! ino) as [x|] eqn:Ex; simpl; [|by rewrite En].
    rewrite lookup_insert_ne; [by rewrite En|]. intros ->. congruence.
Qed.

Lemma unlink_shown p t q : q ≠ p → shown (unlink_tree p t) q = shown t q.
Proof.
  intros Hne. unfold unlink_tree. destruct (names t !! p) as [ino|]; [|done].
  rewrite touch_shown. unfold shown, node_at. simpl. by rewrite lookup_delete_ne.
Qed.

Lemma unlink_gone p t : shown (unlink_tree p t) p = None.
Proof.
  unfold unlink_tree. destruct (names t !! p) as [ino|] eqn:E.
  - rewrite touch_shown. unfold shown, node_at. simpl. by rewrite lookup_delete_eq.
  - unfold shown, node_at. by rewrite E.
Qed.

(** Where a path is: its parent and name, if no directory on the way is absent. *)
Fixpoint parent_from (t : Tree) (directory : list N) (components : list (list N)) :
    Result (option (list N * list N)) TreeError :=
  match components with
  | [] => Err TreeBlocked
  | component :: rest =>
      if negb (plain_component component) then Err TreeBlocked
      else
        match rest with
        | [] => Ok (Some (directory, component))
        | _ :: _ =>
            match child_directory t directory component with
            | Ok (Some child) => parent_from t child rest
            | Ok None => Ok None
            | Err e => Err e
            end
        end
  end.

Definition parent_of (t : Tree) (path : list N) : Result (option (list N * list N)) TreeError :=
  if protects_relative path then Err TreeProtected else parent_from t [] (split_on SLASH path).

Lemma open_directory_observes t parent name :
  observes t (open_directory parent name) (child_directory t parent name) (eq TreeBlocked).
Proof. by apply (observes_sys t TreeBlocked (λ t, child_directory t parent name)). Qed.

Lemma parent_from_faults fl t components directory :
  parent_from (with_tree_faults fl t) directory components = parent_from t directory components.
Proof.
  revert directory. induction components as [|c cs IH]; intros d; [done|]. simpl.
  case_match; [done|]. destruct cs as [|c' cs]; [done|].
  replace (child_directory (with_tree_faults fl t) d c) with (child_directory t d c) by done.
  destruct (child_directory t d c) as [[child|]|]; [|done..]. apply IH.
Qed.

Lemma tree_parent_from_observes t components directory :
  observes t (tree_parent_from directory components) (parent_from t directory components)
    (eq TreeBlocked).
Proof.
  revert t directory. induction components as [|c rest IH]; intros t d; simpl.
  { apply observes_lift. }
  case_match eqn:Hc; [apply observes_lift|]. destruct rest as [|c' rest]; [apply observes_lift|].
  eapply observes_bind; [apply open_directory_observes| |].
  - intros fl [child|] ->; [|apply observes_lift].
    rewrite <- (parent_from_faults fl). apply IH.
  - by intros e ->.
Qed.

Lemma tree_parent_observes t path :
  observes t (tree_parent path) (parent_of t path) (eq TreeBlocked).
Proof.
  unfold tree_parent, parent_of. destruct (protects_relative path); [apply observes_lift|].
  apply (observes_bind _ _ _ (Ok tt)); [by apply (observes_sys _ _ (λ _, Ok tt))| |done].
  intros fl [] _. rewrite <- (parent_from_faults fl). apply tree_parent_from_observes.
Qed.

Lemma join_path_app d a b :
  a ≠ [] → join_path d (a ++ SLASH :: b) = join_path (join_path d a) b.
Proof.
  intros Ha. unfold join_path. case_bool_decide as Hd; [by rewrite bool_decide_false|].
  rewrite bool_decide_false by (by destruct d). by rewrite <- app_assoc.
Qed.

Lemma parent_from_path t components directory d n :
  parent_from t directory components = Ok (Some (d, n)) →
  join_path d n = join_path directory (join [SLASH] components) ∧ n ∈ components ∧
  plain_component n = true.
Proof.
  revert directory. induction components as [|c cs IH]; intros dir; [done|]. simpl.
  destruct (plain_component c) eqn:Hc; [|done]. simpl. destruct cs as [|c' cs].
  { intros [= -> ->]. simpl. split_and!; [done|by left|done]. }
  unfold child_directory. destruct (node_at t _) as [[ino x]|]; [|done].
  destruct (i_kind x); [done..| |done]. intros (-> & Hn & Hp)%IH. split_and!; [|by right|done].
  change (c ++ [SLASH] ++ ?x) with (c ++ SLASH :: x).
  rewrite <- join_path_app; [done|]. by intros ->.
Qed.

Lemma parent_of_path t path d n :
  parent_of t path = Ok (Some (d, n)) → join_path d n = path ∧ plain_component n = true ∧ SLASH ∉ n.
Proof.
  unfold parent_of. destruct (protects_relative path); [done|].
  intros (Hj & Hn & Hp)%parent_from_path. rewrite Hj, join_split_on. split_and!; [done..|].
  pose proof (split_on_Forall SLASH path) as H. rewrite Forall_forall in H. by apply H.
Qed.

Lemma parent_of_error t path e :
  parent_of t path = Err e → e = TreeBlocked ∨ e = TreeProtected.
Proof.
  unfold parent_of. destruct (protects_relative path); [intros [= <-]; by right|].
  generalize (split_on SLASH path) as cs. generalize (@nil N) as dir.
  intros dir cs. revert dir. induction cs as [|c cs IH]; intros dir; simpl; [intros [= <-]; by left|].
  case_match; [intros [= <-]; by left|]. destruct cs as [|c' cs]; [done|].
  unfold child_directory. destruct (node_at t _) as [[? x]|]; [|done].
  destruct (i_kind x); [intros [= <-]; by left..| |intros [= <-]; by left]. apply IH.
Qed.

(** *** Staging *)

(** A temporary that was not there names an inode that was not there. *)
Definition new_temporary (p : list N) (t t' : Tree) : Prop :=
  names t !! p = None → ∀ ino, names t' !! p = Some ino → (next_inode t <= ino)%N.

(** Nothing but [staged] and the inodes it names has changed. *)
Definition staging (staged : list N) (t t' : Tree) : Prop :=
  tree_ok t' ∧ (∀ q, q ≠ staged → names t' !! q = names t !! q) ∧ inodes t ⊆ inodes t' ∧
  evolves t t' ∧ new_temporary staged t t'.

Lemma staging_refl p t : tree_ok t → staging p t t.
Proof. intros H. split_and!; [done..|apply evolves_refl|]. intros Hn ino. by rewrite Hn. Qed.

Lemma staging_inv p t t' : staging p t t' → inv (λ q, q = p) t t'.
Proof.
  intros (Hok & Hn & Hi & He & _). split; [done|]. split_and!; [done| |done].
  intros ino n H. exists n. split; [|done]. by eapply lookup_weaken.
Qed.

Lemma staging_node p t t' q : tree_ok t → staging p t t' → q ≠ p → node_at t' q = node_at t q.
Proof.
  intros [Hok _] (_ & Hn & Hi & _) Hq. unfold node_at. rewrite Hn by done.
  destruct (names t !! q) as [ino|] eqn:E; [|done]. destruct (Hok _ _ E) as [n Hx]. simpl.
  rewrite Hx. simpl. by rewrite (lookup_weaken _ _ _ _ Hx Hi).
Qed.

Lemma staging_create p t t' k m :
  staging p t t' → tree_ok t → staging p t (create p k m t').
Proof.
  intros Hs Hok. pose proof (staging_inv _ _ _ Hs) as Hv. destruct Hs as (Hok' & Hn & Hi & He & Ht).
  destruct (inv_create _ t t' p k m Hv eq_refl) as [Hok1 (Hn1 & _ & He1)].
  split_and!; [done| | |done|].
  - intros q Hq. by apply Hn1.
  - simpl. apply insert_subseteq_r; [|done]. apply eq_None_not_Some. intros [n Hx].
    apply (lookup_weaken _ _ _ _ Hx) in Hi. apply Hok' in Hi. lia.
  - intros Hfree i. simpl. rewrite lookup_insert_eq. intros [= <-]. by destruct He as (_ & [? _] & _).
Qed.

Lemma staging_set_inode p t t' ino k m d n :
  staging p t t' → tree_ok t → inodes t' !! ino = Some n → (next_inode t <= ino)%N →
  staging p t (set_inode ino k m d t').
Proof.
  intros Hs Hok Hx Hge. pose proof (staging_inv _ _ _ Hs) as Hv. destruct Hs as (Hok' & Hn & Hi & He & Ht).
  destruct (inv_set_inode _ t t' ino k m d n Hv Hx (or_introl Hge) Hok) as [Hok1 (Hn1 & _ & He1)].
  split_and!; [done..| |done|done].
  simpl. apply insert_subseteq_r; [|done]. apply eq_None_not_Some. intros [x Hy].
  apply Hok in Hy. lia.
Qed.

Lemma staging_faults p t t' fl : staging p t t' → staging p t (with_tree_faults fl t').
Proof. done. Qed.

(** Where the staged content is: the first free inode. *)
Definition staged_as (p : list N) (shows : option (NodeKind * N)) (t t' : Tree) : Prop :=
  names t' !! p = Some (next_inode t) ∧ shown t' p = shows.

Lemma staged_as_kind p k m t t' :
  staged_as p (Some (k, m)) t t' →
  ∃ n, inodes t' !! next_inode t = Some n ∧ i_kind n = k ∧ i_mode n = m.
Proof.
  intros [Hn Hs]. unfold shown, node_at in Hs. rewrite Hn in Hs. simpl in Hs.
  destruct (inodes t' !! next_inode t) as [n|]; [|done]. simpl in Hs. simplify_eq. by exists n.
Qed.

(** What every call of a publication keeps to before its change is visible. *)
Definition quietly (P : Tree → Prop) (p : list N) (t : Tree) : Prop :=
  ∀ t', staging p t t' → P t'.

Lemma wp_open_new P p k m t t0 :
  tree_ok t0 → staging p t0 t → quietly P p t0 → next_inode t = next_inode t0 →
  wp P (open_new p k m) t (λ r t', staging p t0 t' ∧ (healthy t → healthy t') ∧
    match r with
    | Ok _ => names t !! p = None ∧ staged_as p (Some (k, m)) t0 t'
    | Err e => (∃ i, e = TreeFailed i) ∧ (names t !! p = None → ¬ healthy t)
    end).
Proof.
  intros Hok Hs HP Hi. unfold open_new. apply wp_sys; intros fl Hfl.
  - split; [|by apply HP]. split_and!; [done|done|by eexists|done].
  - simpl. destruct (names t !! p) as [i|] eqn:E; simpl.
    + split; [|by apply HP]. split_and!; [done|done|by eexists|done].
    + assert (staging p t0 (create p k m (with_tree_faults fl t))) as Hs'
        by (by apply staging_create).
      split; [|by apply HP]. split_and!; [done|done|done|].
      split; simpl; [rewrite lookup_insert_eq; by rewrite <- Hi|].
      unfold shown, node_at. simpl. rewrite lookup_insert_eq. simpl. by rewrite lookup_insert_eq.
Qed.

Lemma wp_change_inode P p f t t0 k m :
  tree_ok t0 → staging p t0 t → quietly P p t0 → staged_as p (Some (k, m)) t0 t →
  (∀ n now, i_kind n = k → i_mode n = m → (f n now).1 = (f {| i_kind := k; i_mode := m; i_modified := 0; i_changed := 0 |} 0%N).1) →
  wp P (change_inode p f) t (λ r t', staging p t0 t' ∧ (healthy t → healthy t') ∧
    match r with
    | Ok _ => staged_as p (Some (f {| i_kind := k; i_mode := m; i_modified := 0; i_changed := 0 |} 0%N).1) t0 t'
    | Err e => (∃ i, e = TreeFailed i) ∧ ¬ healthy t
    end).
Proof.
  intros Hok Hs HP Hst Hf. unfold change_inode. apply wp_sys; intros fl Hfl.
  - split; [|by apply HP]. split_and!; [done|done|by eexists|done].
  - destruct (staged_as_kind _ _ _ _ _ Hst) as (n & Hn & Hk & Hm).
    unfold node_at. simpl. rewrite (proj1 Hst). simpl. rewrite Hn. simpl.
    pose proof (Hf n (clock t) Hk Hm) as E. destruct (f n (clock t)) as [[k' m'] d'].
    assert (staging p t0 (set_inode (next_inode t0) k' m' d' (with_tree_faults fl t))) as Hs'
      by (eapply staging_set_inode; [done|done|done|lia]).
    simpl. split; [|by apply HP]. split_and!; [done|done|]. split; [exact (proj1 Hst)|].
    unfold shown, node_at. simpl. rewrite (proj1 Hst). simpl. rewrite lookup_insert_eq. simpl.
    by rewrite <- E.
Qed.

Lemma wp_pause {A} P failure (a : A) p t t0 :
  staging p t0 t → quietly P p t0 →
  wp P (sys failure (λ t, (Ok a, t))) t (λ r t', ∃ fl, t' = with_tree_faults fl t ∧
    (healthy t → healthy t') ∧ match r with Ok b => b = a | Err e => e = failure ∧ ¬ healthy t end).
Proof.
  intros Hs HP. apply wp_sys; intros fl Hfl; simpl; (split; [|by apply HP]); exists fl; naive_solver.
Qed.

(** What staging comes to. *)
Definition staged_content (P : Tree → Prop) (p : list N) (content : TreeContent) (t : Tree)
    (r : Result unit TreeError) (t' : Tree) : Prop :=
  staging p t t' ∧ (healthy t → healthy t') ∧
  match r with
  | Ok _ =>
      match content_shown content with
      | Some sh => names t !! p = None ∧ staged_as p (Some sh) t t'
      | None => names t' = names t
      end
  | Err e => (∃ i, e = TreeFailed i) ∧
      (names t !! p = None → ¬ healthy t ∨
       ∃ source mode, content = TFile source mode ∧ is_Some (breaks source))
  end.

Lemma wp_stage_file P p source mode t :
  tree_ok t → quietly P p t →
  wp P (stage_file p source mode) t (staged_content P p (TFile source mode) t).
Proof.
  intros Hok HP. unfold stage_file, staged_content. apply wp_bind.
  eapply wp_mono; [by apply wp_open_new; [|apply staging_refl| |]|done|].
  intros r t1 (Hs1 & Hh1 & Hr). destruct r as [[]|e]; [destruct Hr as [Hfree Hst]|naive_solver].
  apply wp_bind. eapply wp_mono; [by eapply wp_change_inode; [| | |exact Hst|intros; cbn [fst i_kind i_mode]; congruence]|done|].
  intros r t2 (Hs2 & Hh2 & Hr). destruct r as [[]|e]; [clear Hst; rename Hr into Hst|naive_solver].
  cbn [fst i_kind i_mode] in Hst. apply wp_bind. destruct (breaks source) as [i|] eqn:Hb.
  { apply wp_throw. naive_solver. }
  apply wp_ret. apply wp_bind.
  eapply wp_mono; [by eapply wp_change_inode; [| | |exact Hst|intros; cbn [fst i_kind i_mode]; congruence]|done|].
  intros r t3 (Hs3 & Hh3 & Hr). destruct r as [[]|e]; [clear Hst; rename Hr into Hst|naive_solver].
  eapply wp_mono; [by apply (wp_pause _ _ tt p t3 t)|done|].
  intros r t4 (fl & -> & Hh & Hr). split; [done|]. split; [by auto|].
  destruct r as [[]|e]; [done|]. destruct Hr as [-> Hn]. split; [by eexists|]. intros _. left. naive_solver.
Qed.

Lemma wp_stage_content P p content t :
  tree_ok t → quietly P p t →
  wp P match content with
       | TFile source mode => stage_file p source mode
       | TSymlink link => open_new p (KSymlink link) PERMISSION_BITS
       | TAbsent => ret tt
       end t (staged_content P p content t).
Proof.
  intros Hok HP. destruct content as [source mode|link|]; [by apply wp_stage_file| |].
  - eapply wp_mono; [by apply wp_open_new; [|apply staging_refl| |]|done|].
    intros r t1 (Hs1 & Hh1 & Hr). split_and!; [done..|]. destruct r as [[]|e]; naive_solver.
  - apply wp_ret. split_and!; [by apply staging_refl|done..].
Qed.

Lemma expected_staging p t t' q expected :
  tree_ok t → staging p t t' → q ≠ p → expected_holds t' q expected = expected_holds t q expected.
Proof. intros Hok Hs Hq. unfold expected_holds, stamp_at. by erewrite staging_node. Qed.

Lemma wp_verify_expected P parent name expected p t t0 :
  tree_ok t0 → staging p t0 t → quietly P p t0 → join_path parent name ≠ p →
  wp P (verify_expected parent name expected) t (λ r t', ∃ fl, t' = with_tree_faults fl t ∧
    (healthy t → healthy t') ∧
    match r with
    | Ok _ => expected_holds t0 (join_path parent name) expected = true
    | Err TreeChanged | Err (TreeFailed _) =>
        ¬ healthy t ∨ expected_holds t0 (join_path parent name) expected = false
    | Err _ => False
    end).
Proof.
  intros Hok Hs HP Hne. unfold verify_expected. apply wp_bind. apply wp_sys; intros fl Hfl.
  { split; [|by apply HP]. exists fl. split_and!; [done..|by left]. }
  split; [|by apply HP]. simpl. apply wp_bind.
  eapply wp_mono; [by apply (wp_pause _ _ tt p _ t0)|done|].
  intros r t' (fl' & -> & Hh & Hr). destruct r as [[]|e].
  - change (expected_holds (with_tree_faults fl t) ?q ?e) with (expected_holds t q e).
    rewrite (expected_staging p t0) by done.
    destruct (expected_holds t0 _ _) eqn:E; [apply wp_ret|apply wp_throw]; exists fl'; naive_solver.
  - destruct Hr as [-> Hn]. exists fl'. split_and!; [done|naive_solver|]. left. naive_solver.
Qed.

(** *** Publication *)

(** No inode changes, not even its times, but for the one the target named. *)
Definition undisturbed (target : list N) (t t' : Tree) : Prop :=
  ∀ ino n, inodes t !! ino = Some n → names t !! target ≠ Some ino → inodes t' !! ino = Some n.

Definition kept (p target : list N) (t t' : Tree) : Prop :=
  inv (λ q, q = target ∨ q = p) t t' ∧ new_temporary p t t' ∧
  (names t !! p = None → undisturbed target t t').

(** At every moment a publication shows what was there or, if that was what was expected, what
    it publishes, and leaves all else as it was but for its temporary. *)
Definition changing (p target : list N) (expected : Expected) (content : TreeContent)
    (t t' : Tree) : Prop :=
  kept p target t t' ∧
  (shown t' target = shown t target ∨
   shown t' target = content_shown content ∧ expected_holds t target expected = true).

Definition loudly (P : Tree → Prop) (p target : list N) (expected : Expected)
    (content : TreeContent) (t : Tree) : Prop :=
  ∀ t', changing p target expected content t t' → P t'.

Lemma staging_kept p target t t' : staging p t t' → kept p target t t'.
Proof.
  intros Hs. split; [eapply inv_mono; [|by apply staging_inv]; auto|].
  destruct Hs as (_ & _ & Hi & _ & Ht). split; [done|]. intros _ ino n Hn _. by eapply lookup_weaken.
Qed.

Lemma staging_shown p t t' q :
  tree_ok t → staging p t t' → q ≠ p → shown t' q = shown t q.
Proof. intros Hok Hs Hq. unfold shown. by erewrite staging_node. Qed.

Lemma staging_changing p target expected content t t' :
  tree_ok t → staging p t t' → target ≠ p → changing p target expected content t t'.
Proof. intros Hok Hs Hne. split; [by apply staging_kept|]. left. by eapply staging_shown. Qed.

Lemma loudly_quietly P p target expected content t :
  tree_ok t → loudly P p target expected content t → target ≠ p → quietly P p t.
Proof. intros Hok HP Hne t' Hs. apply HP. by apply staging_changing. Qed.

(** The change is in place. *)
Definition changed (p target : list N) (content : TreeContent) (t t' : Tree) : Prop :=
  kept p target t t' ∧ shown t' target = content_shown content.

Lemma changed_changing p target expected content t t' :
  changed p target content t t' → expected_holds t target expected = true →
  changing p target expected content t t'.
Proof. intros [Hk Hs] He. split; [done|]. by right. Qed.

Lemma touch_other ino t i : i ≠ ino → inodes (touch ino t) !! i = inodes t !! i.
Proof.
  intros Hne. unfold touch. destruct (inodes t !! ino); [|done]. simpl. by rewrite lookup_insert_ne.
Qed.

Lemma unlink_names p t : names (unlink_tree p t) = delete p (names t).
Proof.
  unfold unlink_tree. destruct (names t !! p) eqn:E; [by rewrite touch_names|]. by rewrite delete_id.
Qed.

Lemma unlink_inodes p t i : names t !! p ≠ Some i → inodes (unlink_tree p t) !! i = inodes t !! i.
Proof.
  intros Hne. unfold unlink_tree. destruct (names t !! p) as [ino|]; [|done].
  rewrite touch_other; [done|]. by intros ->.
Qed.

Lemma kept_unlink p target t t' :
  tree_ok t → kept p target t t' → kept p target t (unlink_tree p t').
Proof.
  intros Hok (Hi & Ht & Hu). split; [apply inv_unlink; [done|by right|done]|].
  split; [intros _ ino; by rewrite unlink_names, lookup_delete_eq|].
  intros Hn ino n Hx Hne. rewrite unlink_inodes; [by apply Hu|].
  intros E%Ht; [|done]. apply Hok in Hx. lia.
Qed.

(** The target's inode is let go. *)
Lemma kept_let_go p target t t' :
  tree_ok t → kept p target t t' → names t' !! target = names t !! target → target ≠ p →
  kept p target t (unlink_tree target t').
Proof.
  intros Hok (Hi & Ht & Hu) E Hne. split; [apply inv_unlink; [done|by left|done]|].
  split; [intros Hn ino; rewrite unlink_names, lookup_delete_ne by done; by apply Ht|].
  intros Hn ino n Hx Hx'. rewrite unlink_inodes; [by apply Hu|]. by rewrite E.
Qed.

(** The target is given an inode that was not there. *)
Lemma kept_named p target t t' ns ino :
  tree_ok t → kept p target t t' → (next_inode t <= ino)%N → is_Some (inodes t' !! ino) →
  (∀ q i, ns !! q = Some i → i = ino ∨ names t' !! q = Some i) →
  (∀ q, q ≠ target → q ≠ p → ns !! q = names t' !! q) →
  kept p target t (touch ino (with_names ns t')).
Proof.
  intros Hok (Hi & Ht & Hu) Hge Hx Hold Hns. split; [|split].
  - apply inv_touch; [|done]. apply inv_with_names; [done| |].
    + intros q i [->|Hq]%Hold; [done|]. by eapply Hi.
    + intros q Hq. apply Hns; naive_solver.
  - intros Hn i. rewrite touch_names. simpl. intros [->|Hp]%Hold; [done|]. by apply Ht.
  - intros Hn i n Hi0 Hne. rewrite touch_other; [by apply Hu|]. intros ->. apply Hok in Hi0. lia.
Qed.

Lemma changed_unlink p target content t t' :
  tree_ok t → changed p target content t t' → target ≠ p →
  changed p target content t (unlink_tree p t').
Proof. intros Hok [Hk Hs] Hne. split; [by apply kept_unlink|by rewrite unlink_shown]. Qed.

Lemma expected_absent t target :
  tree_ok t → expected_holds t target ExpAbsent = true → names t !! target = None.
Proof.
  intros [Hok _] H%bool_decide_eq_true_1. unfold stamp_at, node_at in H.
  destruct (names t !! target) as [ino|] eqn:E; [|done]. destruct (Hok _ _ E) as [n Hn].
  simpl in H. by rewrite Hn in H.
Qed.

Lemma expected_present t target stamp :
  expected_holds t target (ExpPresent stamp) = true →
  ∃ ino n, names t !! target = Some ino ∧ inodes t !! ino = Some n.
Proof.
  intros H%bool_decide_eq_true_1. unfold stamp_at, node_at in H.
  destruct (names t !! target) as [ino|]; [|done]. simpl in H.
  destruct (inodes t !! ino) as [n|] eqn:E; [|done]. by exists ino, n.
Qed.

Lemma expected_absent_shown t target :
  expected_holds t target ExpAbsent = true → shown t target = None.
Proof.
  intros H%bool_decide_eq_true_1. unfold stamp_at in H. unfold shown.
  by destruct (node_at t target) as [[??]|].
Qed.

Lemma node_at_names t p ino : tree_ok t → names t !! p = Some ino →
  ∃ n, inodes t !! ino = Some n ∧ node_at t p = Some (ino, n).
Proof.
  intros [Hok _] E. destruct (Hok _ _ E) as [n Hn]. exists n. unfold node_at.
  rewrite E. simpl. by rewrite Hn.
Qed.

Lemma shown_with_name ino q ns t :
  ns !! q = Some ino → shown (touch ino (with_names ns t)) q =
    (λ n, (i_kind n, i_mode n)) <$> inodes t !! ino.
Proof.
  intros E. rewrite touch_shown. unfold shown, node_at. simpl. rewrite E. simpl.
  by destruct (inodes t !! ino).
Qed.

Lemma staged_shown p content sh t t' :
  staged_as p (Some sh) t t' → content_shown content = Some sh →
  (λ n, (i_kind n, i_mode n)) <$> inodes t' !! next_inode t = content_shown content.
Proof.
  intros Hst ->. destruct sh as [k m]. destruct (staged_as_kind _ _ _ _ _ Hst) as (n & -> & <- & <-).
  done.
Qed.

(** The call that makes the change visible. *)
Definition visible (p target : list N) (content : TreeContent) (t : Tree) (r : Result unit TreeError)
    (t1 t' : Tree) : Prop :=
  (healthy t1 → healthy t') ∧
  match r with
  | Ok _ => changed p target content t t'
  | Err e => (e = TreeChanged ∨ ∃ i, e = TreeFailed i) ∧ staging p t t' ∧
      (¬ healthy t1 ∨ is_directory t target = true)
  end.

Lemma touch_faults ino t : tree_faults (touch ino t) = tree_faults t.
Proof. unfold touch. by destruct (inodes t !! ino). Qed.

Lemma unlink_faults p t : tree_faults (unlink_tree p t) = tree_faults t.
Proof. unfold unlink_tree. destruct (names t !! p); [by rewrite touch_faults|done]. Qed.

Lemma is_directory_staging p t t' q :
  tree_ok t → staging p t t' → q ≠ p → is_directory t' q = is_directory t q.
Proof. intros Hok Hs Hq. unfold is_directory. by erewrite staging_node. Qed.

Lemma wp_link_new P p target content sh t t1 :
  tree_ok t → staging p t t1 → loudly P p target ExpAbsent content t → target ≠ p →
  content_shown content = Some sh → staged_as p (Some sh) t t1 →
  expected_holds t target ExpAbsent = true →
  wp P (link_new p target) t1 (λ r t', visible p target content t r t1 t').
Proof.
  intros Hok Hs HP Hne Hc Hst He. pose proof (loudly_quietly _ _ _ _ _ _ Hok HP Hne) as HQ.
  unfold link_new. apply wp_sys; intros fl Hfl.
  { split; [|by apply HQ]. split; [done|]. split; [right; by eexists|]. split; [done|by left]. }
  simpl. rewrite (proj1 Hst). pose proof Hs as (Hok1 & Hn & _).
  rewrite Hn, (expected_absent t target) by done. simpl.
  assert (changed p target content t
    (touch (next_inode t) (with_names (<[target:=next_inode t]> (names t1)) (with_tree_faults fl t1)))) as Hch.
  { split.
    - apply kept_named; [done|by apply staging_kept|done|by eapply Hok1, Hst| |]; simpl.
      + intros q i [[<- <-]|[_ Hq]]%lookup_insert_Some; [by left|by right].
      + intros q Hq _. by apply lookup_insert_ne.
    - rewrite shown_with_name by (by rewrite lookup_insert_eq). simpl. by eapply staged_shown. }
  split; [|by apply HP, changed_changing]. split; [|done].
  intros Hh. unfold healthy. rewrite touch_faults. by apply Hfl.
Qed.

Lemma wp_rename_over P p target content sh t t1 stamp :
  tree_ok t → staging p t t1 → loudly P p target (ExpPresent stamp) content t → target ≠ p →
  content_shown content = Some sh → staged_as p (Some sh) t t1 →
  expected_holds t target (ExpPresent stamp) = true →
  wp P (rename_over p target) t1 (λ r t', visible p target content t r t1 t').
Proof.
  intros Hok Hs HP Hne Hc Hst He. pose proof (loudly_quietly _ _ _ _ _ _ Hok HP Hne) as HQ.
  unfold rename_over. apply wp_sys; intros fl Hfl.
  { split; [|by apply HQ]. split; [done|]. split; [right; by eexists|]. split; [done|by left]. }
  simpl. rewrite (proj1 Hst).
  change (is_directory (with_tree_faults fl t1) target) with (is_directory t1 target).
  rewrite (is_directory_staging p t) by done. destruct (is_directory t target) eqn:Hd.
  { split; [|by apply HQ]. split; [done|]. split; [by left|]. split; [done|by right]. }
  destruct (expected_present _ _ _ He) as (ino & n & Hino & Hn).
  set (t2 := unlink_tree target (with_tree_faults fl t1)).
  pose proof Hs as (Hok1 & Hnames & _).
  assert (kept p target t t2) as Hk2.
  { apply kept_let_go; [done|by apply staging_kept, staging_faults|by apply Hnames|done]. }
  assert (names t2 = delete target (names t1)) as Hn2
    by apply (unlink_names target (with_tree_faults fl t1)).
  assert (∃ x, inodes t2 !! next_inode t = Some x ∧ (i_kind x, i_mode x) = sh) as (x & Hx & Hsh).
  { destruct sh as [k m]. destruct (staged_as_kind _ _ _ _ _ Hst) as (x & Hx & <- & <-).
    subst t2. unfold unlink_tree. simpl. rewrite Hnames, Hino by done.
    destruct (touch_node ino (with_names (delete target (names t1)) (with_tree_faults fl t1)) _ x Hx)
      as (x' & ? & Hk & Hm). exists x'. split; [done|]. by rewrite Hk, Hm. }
  assert (changed p target content t
    (touch (next_inode t) (with_names (<[target:=next_inode t]> (delete p (names t2))) t2))) as Hch.
  { split.
    - apply kept_named; [done..|by rewrite Hx| |].
      + intros q i [[<- <-]|[_ [_ Hq]%lookup_delete_Some]]%lookup_insert_Some; [by left|by right].
      + intros q Hq Hp. by rewrite lookup_insert_ne, lookup_delete_ne.
    - rewrite shown_with_name by (by rewrite lookup_insert_eq). rewrite Hx. simpl. congruence. }
  split; [|by apply HP, changed_changing]. split; [|done].
  intros Hh. unfold healthy. simpl. rewrite touch_faults. simpl.
  subst t2. rewrite unlink_faults. by apply Hfl.
Qed.

Lemma wp_unlink P p target t t1 stamp :
  tree_ok t → staging p t t1 → loudly P p target (ExpPresent stamp) TAbsent t → target ≠ p →
  expected_holds t target (ExpPresent stamp) = true →
  wp P (unlink target) t1 (λ r t', visible p target TAbsent t r t1 t').
Proof.
  intros Hok Hs HP Hne He. pose proof (loudly_quietly _ _ _ _ _ _ Hok HP Hne) as HQ.
  unfold unlink. apply wp_sys; intros fl Hfl.
  { split; [|by apply HQ]. split; [done|]. split; [right; by eexists|]. split; [done|by left]. }
  pose proof Hs as (Hok1 & Hnames & _).
  destruct (expected_present _ _ _ He) as (ino & n & Hino & Hn). simpl. rewrite Hnames, Hino by done.
  change (is_directory (with_tree_faults fl t1) target) with (is_directory t1 target).
  rewrite (is_directory_staging p t) by done. destruct (is_directory t target) eqn:Hd.
  { split; [|by apply HQ]. split; [done|]. split; [by left|]. split; [done|by right]. }
  assert (changed p target TAbsent t (unlink_tree target (with_tree_faults fl t1))) as Hch.
  { split; [|apply unlink_gone].
    apply kept_let_go; [done|by apply staging_kept, staging_faults|by apply Hnames|done]. }
  split; [|by apply HP, changed_changing]. split; [|done].
  intros Hh. unfold healthy. simpl. rewrite unlink_faults. by apply Hfl.
Qed.

Lemma wp_remove_temporary P p target expected content t t1 :
  tree_ok t → changed p target content t t1 → expected_holds t target expected = true →
  loudly P p target expected content t → target ≠ p →
  wp P (remove_temporary p) t1 (λ r t', changed p target content t t' ∧
    (healthy t1 → healthy t' ∧ r = Ok tt) ∧ (r = Ok tt ∨ r = Err TreeUnsettled)).
Proof.
  intros Hok Hch He HP Hne. unfold remove_temporary. apply wp_sys; intros fl Hfl; simpl.
  - split; [|by apply HP, changed_changing]. split_and!; [done|naive_solver|by right].
  - assert (changed p target content t (unlink_tree p (with_tree_faults fl t1))) as Hch'
      by (by apply changed_unlink).
    split; [|by apply HP, changed_changing]. split_and!; [done| |by left].
    intros Hh. split; [|done]. unfold healthy. rewrite unlink_faults. by apply Hfl.
Qed.

Lemma wp_settle P p target expected content t t1 :
  tree_ok t → changed p target content t t1 → expected_holds t target expected = true →
  loudly P p target expected content t → target ≠ p →
  wp P (settle p) t1 (λ r t', changed p target content t t' ∧
    (healthy t1 → healthy t' ∧ r = Ok tt) ∧ (r = Ok tt ∨ r = Err TreeUnsettled)).
Proof.
  intros Hok Hch He HP Hne. unfold settle. apply wp_bind.
  eapply wp_mono; [by eapply wp_remove_temporary|done|].
  intros [[]|e] t2 (Hch2 & Hh & Hr); [|naive_solver].
  apply wp_sys; intros fl Hfl; simpl; (split; [|by apply HP, changed_changing]);
    split_and!; naive_solver.
Qed.

(** What a publication comes to while its temporary may still be there. *)
Definition published (p target : list N) (expected : Expected) (content : TreeContent) (t : Tree)
    (r : Result unit TreeError) (t' : Tree) : Prop :=
  kept p target t t' ∧ (healthy t → healthy t') ∧
  match r with
  | Ok _ | Err TreeUnsettled =>
      shown t' target = content_shown content ∧ expected_holds t target expected = true
  | Err _ => shown t' target = shown t target
  end ∧
  (healthy t → names t !! p = None → expected_holds t target expected = true →
   is_directory t target = false →
   match content with TFile source _ => breaks source = None | _ => True end → r = Ok tt).

Lemma published_unchanged p target expected content t e t' :
  tree_ok t → staging p t t' → target ≠ p → (healthy t → healthy t') →
  (e = TreeChanged ∨ ∃ i, e = TreeFailed i) →
  (healthy t → names t !! p = None → expected_holds t target expected = true →
   is_directory t target = false →
   match content with TFile source _ => breaks source = None | _ => True end → False) →
  published p target expected content t (Err e) t'.
Proof.
  intros Hok Hs Hne Hh He Hcan. split; [by apply staging_kept|]. split; [done|]. split; [|naive_solver].
  rewrite (staging_shown p t t') by done. by destruct He as [->|[i ->]].
Qed.

Lemma wp_made P p target expected content t t1 (m : TreeIo unit) :
  tree_ok t → loudly P p target expected content t → target ≠ p → (healthy t → healthy t1) →
  expected_holds t target expected = true →
  wp P m t1 (λ r t', visible p target content t r t1 t') →
  wp P (and_then m (λ _, settle p)) t1 (published p target expected content t).
Proof.
  intros Hok HP Hne Hh He Hm. apply wp_bind. eapply wp_mono; [exact Hm|done|].
  intros [[]|e] t2 [Hh2 Hv].
  - eapply wp_mono; [by eapply wp_settle|done|]. intros r t3 ([Hi Hs] & Hok3 & Hr).
    split; [done|]. split; [naive_solver|]. split; [|naive_solver].
    by destruct Hr as [->| ->].
  - destruct Hv as (Hv & Hs & Hwhy). apply published_unchanged; [done..|auto|done|].
    intros Hht _ _ Hd _. destruct Hwhy as [Hn|Hn]; [by apply Hn, Hh|congruence].
Qed.

Lemma wp_publish_staged P parent name p expected content t :
  let target := join_path parent name in
  tree_ok t → loudly P p target expected content t → target ≠ p →
  wp P (publish_staged parent name p expected content) t (published p target expected content t).
Proof.
  intros target Hok HP Hne. pose proof (loudly_quietly _ _ _ _ _ _ Hok HP Hne) as HQ.
  unfold publish_staged. fold target. apply wp_bind. eapply wp_mono; [by apply wp_stage_content|done|].
  intros [[]|e] t1 (Hs1 & Hh1 & Hr); [|destruct Hr as [[i ->] Hwhy]].
  2:{ apply published_unchanged; [done..|right; by eexists|].
      intros Hh Hn _ _ Hsrc. destruct (Hwhy Hn) as [?|(s & m & -> & Hb)]; [done|].
      rewrite Hsrc in Hb. by destruct Hb. }
  apply wp_bind. eapply wp_mono; [by eapply (wp_verify_expected _ _ _ _ p t1 t)|done|].
  intros [[]|e] t2 (fl & -> & Hh2 & Hv); fold target in Hv.
  2:{ apply published_unchanged; [done..|auto| |].
      - destruct e; naive_solver.
      - intros Hh _ He _ _. destruct e; try done; destruct Hv as [Hv|Hv]; solve [by apply Hv, Hh1|congruence]. }
  assert (healthy t → healthy (with_tree_faults fl t1)) as Hh by auto.
  assert (staging p t (with_tree_faults fl t1)) as Hs2 by done.
  destruct (content_shown content) as [sh|] eqn:Hc.
  - destruct Hr as [_ Hst].
    assert (staged_as p (Some sh) t (with_tree_faults fl t1)) as Hst2 by done.
    destruct content as [source mode|link|]; [| |done]; (destruct expected as [|stamp];
      [by eapply wp_made, wp_link_new|by eapply wp_made, wp_rename_over]).
  - destruct content as [source mode|link|]; [done..|]. destruct expected as [|stamp].
    + apply wp_ret. split; [by apply staging_kept|]. split; [done|]. split; [|done].
      cbn beta iota. split; [|done]. rewrite (staging_shown p t) by done.
      by apply expected_absent_shown.
    + by eapply wp_made, wp_unlink.
Qed.

(** A dropped temporary is removed if it can be. *)
Lemma wp_drop_temporary P (m : TreeIo unit) p target expected content t :
  tree_ok t → loudly P p target expected content t → target ≠ p →
  wp P m t (published p target expected content t) →
  wp P (drop_temporary p m) t (λ r t', published p target expected content t r t' ∧
    (healthy t → names t' !! p = None)).
Proof.
  intros Hok HP Hne Hm. unfold drop_temporary. apply wp_bind, wp_attempt.
  eapply wp_mono; [exact Hm|done|]. intros r t1 (Hi & Hh & Hr & Hlive). apply wp_bind, wp_attempt.
  assert (shown t1 target = shown t target ∨
    shown t1 target = content_shown content ∧ expected_holds t target expected = true) as Hsh.
  { destruct r as [|[]]; naive_solver. }
  unfold remove_temporary. apply wp_sys; intros fl Hfl; simpl.
  - split; [|by apply HP; split]. apply wp_lift. split; [|naive_solver]. split; [done|]. naive_solver.
  - assert (kept p target t (unlink_tree p (with_tree_faults fl t1))) as Hi' by (by apply kept_unlink).
    assert (shown (unlink_tree p (with_tree_faults fl t1)) target = shown t1 target) as Hs'
      by (by rewrite unlink_shown).
    split; [|apply HP; split; [done|by rewrite Hs']]. apply wp_lift. split; [split; [done|]|].
    + split; [|by rewrite Hs']. intros Ht. unfold healthy. rewrite unlink_faults. by apply Hfl, Hh.
    + intros _. unfold unlink_tree. simpl. destruct (names t1 !! p) as [ino|] eqn:E; [|done].
      rewrite touch_names. simpl. by rewrite lookup_delete_eq.
Qed.

(** *** The whole of a publication *)

Definition others (path : list N) (q : list N) : Prop := q = path ∨ scratch q.

(** No temporary there is has an identifier that is still to come. *)
Definition fresh (t : Tree) : Prop :=
  ∀ parent n, (next_uuid t <= n)%N → names t !! join_path parent (staged_name n) = None.

Record publication (path : list N) (expected : Expected) (content : TreeContent) (t : Tree)
    (r : Result unit TreeError) (t' : Tree) : Prop := {
  pub_inv : inv (others path) t t';
  pub_healthy : healthy t → healthy t';
  pub_shown :
    match r with
    | Ok _ | Err TreeUnsettled =>
        shown t' path = content_shown content ∧ expected_holds t path expected = true
    | Err _ => shown t' path = shown t path
    end;
  pub_undisturbed : fresh t → undisturbed path t t';
  pub_names : healthy t → fresh t → (∀ q, q ≠ path → names t' !! q = names t !! q) ∧ fresh t';
  pub_live : healthy t → fresh t →
    (∃ d n, parent_of t path = Ok (Some (d, n))) → expected_holds t path expected = true →
    is_directory t path = false →
    match content with TFile source _ => breaks source = None | _ => True end → r = Ok tt;
}.

Lemma publication_refused path expected content t e fl :
  tree_ok t → ¬ scratch path → e ≠ TreeUnsettled → (healthy t → Forall (λ b, b = false) fl) →
  (healthy t → (∃ d n, parent_of t path = Ok (Some (d, n))) → False) →
  publication path expected content t (Err e) (with_tree_faults fl t).
Proof.
  intros Hok Hsc He Hfl Hwhy. split; [by apply (inv_refl _ t)|done| |by intros _ ino n|done|naive_solver].
  by destruct e.
Qed.

Lemma extends_uuid Q t fl :
  extends Q t {| names := names t; inodes := inodes t; next_inode := next_inode t; clock := clock t;
    next_uuid := next_uuid t + 1; tree_faults := fl |}.
Proof.
  split_and!; simpl; [done| |]; [by eauto|]. split_and!; simpl; [lia..|done].
Qed.

Lemma wp_publish_tree_entry P path expected content t :
  tree_ok t → ¬ scratch path →
  (∀ t', inv (others path) t t' →
     (shown t' path = shown t path ∨
      shown t' path = content_shown content ∧ expected_holds t path expected = true) → P t') →
  wp P (publish_tree_entry path expected content) t (publication path expected content t).
Proof.
  intros Hok Hsc HP. unfold publish_tree_entry. apply wp_bind.
  assert (∀ fl, P (with_tree_faults fl t)) as HP0.
  { intros fl. apply HP; [by apply (inv_refl _ t)|by left]. }
  eapply wp_mono; [by apply tree_parent_observes|done|]. intros r t1 (fl & -> & Hfl & Hr).
  destruct r as [[[d n]|]|e].
  2:{ apply wp_throw. destruct Hr as [Hr|(_ & ? & ? & _)]; [|done].
      apply publication_refused; [done..|]. intros _ (? & ? & E). congruence. }
  2:{ assert (e ≠ TreeUnsettled) as Hne.
      { destruct Hr as [Hr|(_ & ? & [= <-] & <-)]; [|done].
        symmetry in Hr. by destruct (parent_of_error _ _ _ Hr) as [->| ->]. }
      apply publication_refused; [done..|]. intros Hh (? & ? & E).
      destruct Hr as [Hr|(Hn & _)]; [congruence|done]. }
  destruct Hr as [Hr|(_ & ? & ? & _)]; [|done]. symmetry in Hr.
  destruct (parent_of_path _ _ _ _ Hr) as (Hpath & _ & _).
  apply wp_bind. apply wp_ask; [done|]. simpl.
  set (t1 := {| names := names t; inodes := inodes t; next_inode := next_inode t; clock := clock t;
    next_uuid := next_uuid t + 1; tree_faults := fl |}).
  set (p := join_path d (staged_name (next_uuid t))).
  assert (path ≠ p) as Hne by (intros ->; apply Hsc; by eexists _, _).
  assert (∀ t', kept p path t1 t' → inv (others path) t t') as Hio.
  { intros t' [[? He] _]. split; [done|]. eapply extends_trans; [apply (extends_uuid _ t fl)|].
    eapply extends_mono; [|exact He]. intros q [->| ->]; [by left|right; by eexists _, _]. }
  eapply wp_mono.
  - apply (wp_drop_temporary P _ p path expected content t1); [done| |done|].
    + intros t' [Hi Hs]. apply HP; [by apply Hio|done].
    + rewrite <- Hpath. apply wp_publish_staged; [done| |by rewrite Hpath]. rewrite Hpath.
      intros t' [Hi Hs]. apply HP; [by apply Hio|done].
  - done.
  - intros r t' [(Hi & Hh & Hs & Hlive) Hgone].
    assert (healthy t → healthy t1) as Hht by done.
    split; [by apply Hio|by auto|exact Hs| | |].
    + intros Hf. apply Hi. apply Hf. lia.
    + intros Ht Hf. assert (∀ q, q ≠ path → names t' !! q = names t !! q) as Hnames.
      { intros q Hq. destruct (decide (q = p)) as [->|Hqp].
        - rewrite (Hgone (Hht Ht)). symmetry. apply Hf. lia.
        - destruct Hi as [[_ [Hx _]] _]. apply Hx. naive_solver. }
      split; [done|]. intros d' m Hm. rewrite Hnames; [apply Hf|].
      * destruct Hi as [(_ & _ & _ & _ & Hn & _) _]. simpl in Hn. lia.
      * intros E. apply Hsc. rewrite <- E. by eexists _, _.
    + intros Ht Hf _ He Hd Hsrc. apply Hlive; [auto| |done..]. apply Hf. lia.
Qed.

(** *** Observation *)

Definition observed (t : Tree) (path : list N) : Result Observed TreeError :=
  match parent_of t path with
  | Ok (Some (_, _)) => Ok (observed_at t path)
  | Ok None => Ok ObsAbsent
  | Err e => Err e
  end.

Definition may_fail (e : TreeError) : Prop := e = TreeBlocked ∨ ∃ kind, e = TreeFailed kind.

Lemma observe_child_observes t parent name :
  observes t (observe_child parent name) (Ok (observed_at t (join_path parent name))) may_fail.
Proof.
  apply (observes_bind _ _ _ (Ok (observed_at t (join_path parent name)))); [|intros fl a [= <-]|done].
  - apply (observes_sys _ _ (λ t, Ok (observed_at t _))); [done|]. right. by eexists.
  - destruct (observed_at t _) as [|ino n|target st| |]; try apply observes_lift;
      apply (observes_sys _ _ (λ _, Ok _)); [done| |done|]; right; by eexists.
Qed.

Lemma observe_tree_entry_observes t path :
  observes t (observe_tree_entry path) (observed t path) may_fail.
Proof.
  unfold observe_tree_entry, observed. eapply observes_bind.
  - eapply observes_mono; [apply tree_parent_observes|]. intros e <-. by left.
  - intros fl [[d n]|] E; rewrite E; [|apply observes_lift].
    destruct (parent_of_path _ _ _ _ E) as (<- & _ & _).
    apply (observe_child_observes (with_tree_faults fl t)).
  - by intros e ->.
Qed.

(** *** Directories *)

Record directory_made (path : list N) (t : Tree) (r : Result unit TreeError) (t' : Tree) : Prop := {
  made_inv : inv (λ q, q = path) t t';
  made_kept : inodes t ⊆ inodes t';
  made_healthy : healthy t → healthy t';
  made_names : names t !! path ≠ None ∨ r ≠ Ok tt ∧ r ≠ Err TreeUnsettled →
    ∃ fl, t' = with_tree_faults fl t;
  made_shown : r = Ok tt ∨ r = Err TreeUnsettled → is_directory t' path = true;
  made_fresh : ¬ scratch path → fresh t → fresh t';
  made_live : healthy t → (∃ d n, parent_of t path = Ok (Some (d, n))) →
    names t !! path = None ∨ is_directory t path = true → r = Ok tt;
}.

Lemma wp_create_tree_directory P path t :
  tree_ok t →
  (∀ t', inv (λ q, q = path) t t' →
     (∃ fl, t' = with_tree_faults fl t) ∨ is_directory t' path = true → P t') →
  wp P (create_tree_directory path) t (directory_made path t).
Proof.
  intros Hok HP. unfold create_tree_directory. apply wp_bind.
  assert (∀ fl, P (with_tree_faults fl t)) as HP0.
  { intros fl. apply HP; [by apply (inv_refl _ t)|]. left. by exists fl. }
  eapply wp_mono; [by apply tree_parent_observes|done|]. intros r t1 (fl & -> & Hfl & Hr).
  destruct r as [[[d n]|]|e].
  2:{ apply wp_throw. destruct Hr as [Hr|(_ & ? & ? & _)]; [|done].
      split; [by apply (inv_refl _ t)|reflexivity|done|intros _; by eexists|by intros [|]|done|].
      intros _ (? & ? & E). congruence. }
  2:{ assert (e = TreeBlocked ∨ e = TreeProtected) as He.
      { destruct Hr as [Hr|(_ & ? & [= <-] & <-)]; [|by left]. by eapply parent_of_error. }
      split; [by apply (inv_refl _ t)|reflexivity|done|intros _; by eexists|naive_solver|done|].
      intros Hh (? & ? & E). destruct Hr as [Hr|(Hn & _)]; [congruence|done]. }
  destruct Hr as [Hr|(_ & ? & ? & _)]; [|done]. symmetry in Hr.
  destruct (parent_of_path _ _ _ _ Hr) as (Hpath & _ & _). rewrite Hpath. clear HP0.
  set (t1 := with_tree_faults fl t) in *.
  apply wp_bind. apply wp_sys; intros fl1 Hfl1.
  { split; [|apply HP; [by apply (inv_refl _ t)|left; by exists fl1]].
    split; [by apply (inv_refl _ t)|reflexivity|naive_solver|intros _; by exists fl1|by intros [|]|done|naive_solver]. }
  simpl. destruct (names t !! path) as [ino|] eqn:E; simpl.
  - split; [|apply HP; [by apply (inv_refl _ t)|left; by exists fl1]]. apply wp_bind.
    eapply wp_mono; [apply open_directory_observes|done|].
    { intros fl2. apply HP; [by apply (inv_refl _ t)|left; by exists fl2]. }
    intros r t2 (fl2 & -> & Hfl2 & Hr2).
    assert (child_directory (with_tree_faults fl1 t1) d n = Ok (Some path) ↔ is_directory t path = true) as Hcd.
    { unfold child_directory, is_directory, node_at. rewrite Hpath. simpl. rewrite E. simpl.
      destruct (inodes t !! ino) as [x|]; simpl; [|done].
      case_bool_decide as Hk; [by rewrite Hk|]. destruct (i_kind x); naive_solver. }
    assert (healthy t → healthy (with_tree_faults fl2 (with_tree_faults fl1 t1))) as Hh
      by naive_solver.
    assert (∀ e, r = Err e → e = TreeBlocked) as He.
    { intros e ->. destruct Hr2 as [Hr2|(_ & ? & [= <-] & <-)]; [|done]. symmetry in Hr2.
      unfold child_directory in Hr2. destruct (node_at _ _) as [[? x]|]; [|done].
      destruct (i_kind x); naive_solver. }
    assert (r = Ok (Some path) ∨ (¬ healthy t ∨ is_directory t path = false) ∧
      ∀ c, r ≠ Ok (Some c)) as Hcases.
    { destruct Hr2 as [->|(Hn & e & -> & _)]; [|right; split; [left; naive_solver|done]].
      destruct (is_directory t path) eqn:Hd; [left; by apply Hcd|]. right. split; [by right|].
      intros c Hc. assert (c = path) as ->; [|naive_solver]. unfold child_directory in Hc.
      destruct (node_at _ _) as [[? x]|]; [|done]. rewrite Hpath in Hc. destruct (i_kind x); naive_solver. }
    assert (r ≠ Ok (Some path) → healthy t → (∃ d n, parent_of t path = Ok (Some (d, n))) →
      names t !! path = None ∨ is_directory t path = true → @Err unit _ TreeBlocked = Ok tt) as Hlive.
    { intros Hr' Ht _ [?|Hd]; [congruence|]. destruct Hcases as [?|[[?|?] _]]; [done|done|congruence]. }
    destruct r as [[c|]|e]; [apply wp_ret|apply wp_throw; specialize (Hlive ltac:(done))|specialize (Hlive ltac:(done))].
    + destruct Hcases as [[= ->]|[_ Hno]]; [|by destruct (Hno c)].
      destruct Hr2 as [Hr2|(_ & ? & ? & _)]; [|done]. symmetry in Hr2.
      split; [by apply (inv_refl _ t)|reflexivity|done|intros _; by eexists| |done|done].
      intros _. by apply Hcd.
    + split; [by apply (inv_refl _ t)|reflexivity|done|intros _; by eexists|by intros [|]|done|]. exact Hlive.
    + rewrite (He e) by done.
      split; [by apply (inv_refl _ t)|reflexivity|done|intros _; by eexists|by intros [|]|done|]. exact Hlive.
  - set (t2 := create _ _ _ _).
    assert (inv (λ q, q = path) t t2) as Hi2 by (by apply inv_create; [apply (inv_refl _ t)|]).
    assert (inodes t ⊆ inodes t2) as Hk2.
    { simpl. apply insert_subseteq. apply eq_None_not_Some. intros [x Hx]. apply Hok in Hx. lia. }
    assert (is_directory t2 path = true) as Hd.
    { unfold is_directory, node_at. simpl. rewrite lookup_insert_eq. simpl. rewrite lookup_insert_eq.
      done. }
    split; [|apply HP; [done|by right]].
    assert (healthy t → healthy t2) as Hh2 by (intros Ht; by apply Hfl1, Hfl).
    assert (¬ scratch path → fresh t → fresh t2) as Hfresh.
    { intros Hsc Hf d' m Hm. simpl. rewrite lookup_insert_ne; [by apply Hf|].
      intros Heq. apply Hsc. rewrite Heq. by eexists _, _. }
    apply wp_sys; intros fl2 Hfl2; simpl; (split; [|apply HP; [done|by right]]);
      (split; [done|exact Hk2|naive_solver|naive_solver|done|done|]); naive_solver.
Qed.

End access.

(** C9: A publication changes its entry at once or not at all, and nothing else.  Whatever call
    of the system fails, the entry shows at every moment what it showed or, only if it was what
    was expected, what is published; every other name but a temporary's, and every inode there
    was, is left as it was, so no other link to a replaced file changes.  It reports success
    only when the entry was what was expected and is now what is published, and an error only
    when the entry is as it was, except [Unsettled], which says that it is published.  Without
    failures no temporary is left, and an entry that is what is expected is published. *)
Theorem publication_atomic protects uuid umask path expected content t :
  tree_ok t → ¬ scratch uuid path →
  wp (λ t', inv (others uuid path) t t' ∧
            (shown t' path = shown t path ∨
             shown t' path = content_shown content ∧ expected_holds t path expected = true))
    (publish_tree_entry protects uuid umask path expected content) t
    (λ r t',
      match r with
      | Ok _ | Err TreeUnsettled =>
          shown t' path = content_shown content ∧ expected_holds t path expected = true
      | Err _ => shown t' path = shown t path
      end ∧
      (healthy t → fresh uuid t →
       (∀ q, q ≠ path → names t' !! q = names t !! q) ∧
       ((∃ d n, parent_of protects t path = Ok (Some (d, n))) →
        expected_holds t path expected = true → is_directory t path = false →
        match content with TFile source _ => breaks source = None | _ => True end → r = Ok tt))).
Proof.
  intros Hok Hsc. eapply wp_mono; [|intros e He; exact He|]; [by apply wp_publish_tree_entry|].
  intros r t' [_ _ Hs _ Hn Hl]. split; [exact Hs|]. intros Hh Hf. split; [by apply Hn|by apply Hl].
Qed.

Lemma scratch_last uuid p : scratch uuid p → last p = Some 112%N.
Proof.
  intros (parent & n & ->). unfold staged_name.
  set (pre := lit ".workcell-restore-" ++ uuid n ++ lit ".tm").
  replace (lit ".workcell-restore-" ++ uuid n ++ lit ".tmp") with (pre ++ [112%N])
    by (subst pre; by rewrite <- !app_assoc).
  unfold join_path. case_bool_decide; [by rewrite last_snoc|].
  replace (parent ++ SLASH :: pre ++ [112%N]) with ((parent ++ SLASH :: pre) ++ [112%N])
    by (by rewrite <- app_assoc). by rewrite last_snoc.
Qed.

Module ExampleTree.

Definition file_a : list N := lit "d/a".
Definition link_b : list N := lit "b".
Definition node_of (k : NodeKind) (m : N) : Inode :=
  {| i_kind := k; i_mode := m; i_modified := 1; i_changed := 1 |}.

(** A directory with a file, which has another link. *)
Definition tree : Tree :=
  {| names := {[ lit "d" := 1%N; file_a := 2%N; link_b := 2%N ]};
     inodes := {[ 1%N := node_of KDirectory 0x1ED; 2%N := node_of (KFile (lit "one")) 0x1A4 ]};
     next_inode := 3; clock := 2; next_uuid := 0; tree_faults := [] |}.

Definition uuids (n : N) : list N := [48 + n]%N.
Definition replacement : TreeContent := TFile {| yields := lit "two"; breaks := None |} 0x1A4.
Definition as_planned : Expected := ExpPresent (stamp_of 2 (node_of (KFile (lit "one")) 0x1A4)).

Lemma tree_is_ok : tree_ok tree.
Proof.
  split.
  - intros p ino H. unfold tree in *. simpl in *.
    repeat (apply lookup_insert_Some in H as [[_ <-]|[_ H]]; [vm_compute; by eexists|]).
    apply lookup_singleton_Some in H as [_ <-]. vm_compute. by eexists.
  - intros ino n H. unfold tree in *. simpl in *.
    apply lookup_insert_Some in H as [[<- <-]|[_ H]]; [simpl; lia|].
    apply lookup_singleton_Some in H as [<- <-]. simpl. lia.
Qed.

Lemma file_a_not_scratch : ¬ scratch uuids file_a.
Proof. intros H%scratch_last. by vm_compute in H. Qed.

Lemma publication_atomic_witness :
  let '(r, s) := publish_tree_entry (λ _, false) uuids 0x12 file_a as_planned replacement
                   (start tree) in
  r = Ok tt ∧ shown (world s) file_a = Some (KFile (lit "two"), 0x1A4%N) ∧
  shown (world s) link_b = Some (KFile (lit "one"), 0x1A4%N) ∧
  shown (world s) file_a = content_shown replacement.
Proof.
  pose proof (publication_atomic (λ _, false) uuids 0x12 file_a as_planned replacement tree
    tree_is_ok file_a_not_scratch (start tree) eq_refl) as [[H _] _].
  assert (let '(r, s) := publish_tree_entry (λ _, false) uuids 0x12 file_a as_planned replacement
                   (start tree) in
    r = Ok tt ∧ shown (world s) file_a = Some (KFile (lit "two"), 0x1A4%N) ∧
    shown (world s) link_b = Some (KFile (lit "one"), 0x1A4%N)) as Hc
    by (vm_compute; split_and!; reflexivity).
  destruct (publish_tree_entry _ _ _ _ _ _ (start tree)) as [r s].
  destruct Hc as (-> & Ha & Hb). split_and!; [done..|apply H].
Defined.

End ExampleTree.
