(* ===== verification/ChangeStore.v ===== *)
(** * The change store

    [workspace-snapshot/src/store.rs] and the typed access of [format.rs]: the private files
    of a store — its state, open records, records, journals of reverts and marks of
    evictions — each written whole beside its name and then renamed, read back only when
    valid.

    The world of the store's operations ([Host]) has the workspace's tree, the store's files
    and its objects; every call of the system may fail, and logs the world it leaves, which is
    what a crash at that moment leaves. *)

From stdpp Require Import gmap sorting.
From S2P Require Import Prelude Utf8 Effects ObjectStore SnapshotTree Records Worktree.

(** ** Files *)

Inductive Dir := STATE | OPEN | RECORDS | REVERTS | EVICTED.
#[export] Instance Dir_eq_dec : EqDecision Dir.
Proof. solve_decision. Defined.
#[export] Instance Dir_countable : Countable Dir.
Proof.
  refine (inj_countable' (λ d, match d with STATE => 0 | OPEN => 1 | RECORDS => 2 | REVERTS => 3
                               | EVICTED => 4 end)%N
           (λ n, match n with 0 => STATE | 1 => OPEN | 2 => RECORDS | 3 => REVERTS
                 | _ => EVICTED end)%N _).
  by intros [].
Defined.

(** A store file: its name's directory and its name. *)
Abbreviation StorePath := (Dir * list N)%type (only parsing).

(** What a file decodes to, by its version, if to anything. *)
Inductive FileValue :=
| VState (s : StoredState)
| VOpen (o : StoredOpenRecord)
| VRecord (r : StoredRecord)
| VJournal (j : StoredJournal)
| VEvicted (e : StoredEvicted)
| VGarbage.

Record StoreFile := { sf_bytes : N; sf_value : FileValue }.

Record Files := {
  file_map : gmap (Dir * list N) StoreFile;
  temps : gmap (Dir * N) N;
  next_temp : N;
  file_faults : list bool;
}.

Record Host := {
  tree : Tree;
  files : Files;
  objects : Store;
  cancels : list bool;
  clock_ms : N;
  next_random : N;
}.

Definition Io (A : Type) : Type := Eff Host Host SnapshotError A.

Definition with_tree (t : Tree) (h : Host) : Host :=
  {| tree := t; files := files h; objects := objects h; cancels := cancels h;
     clock_ms := clock_ms h; next_random := next_random h |}.
Definition with_files (f : Files) (h : Host) : Host :=
  {| tree := tree h; files := f; objects := objects h; cancels := cancels h;
     clock_ms := clock_ms h; next_random := next_random h |}.
Definition with_objects (o : Store) (h : Host) : Host :=
  {| tree := tree h; files := files h; objects := o; cancels := cancels h;
     clock_ms := clock_ms h; next_random := next_random h |}.
Definition with_cancels (c : list bool) (h : Host) : Host :=
  {| tree := tree h; files := files h; objects := objects h; cancels := c;
     clock_ms := clock_ms h; next_random := next_random h |}.
Definition with_random (n : N) (h : Host) : Host :=
  {| tree := tree h; files := files h; objects := objects h; cancels := cancels h;
     clock_ms := clock_ms h; next_random := n |}.

Definition with_file_faults (l : list bool) (f : Files) : Files :=
  {| file_map := file_map f; temps := temps f; next_temp := next_temp f; file_faults := l |}.
Definition with_map (m : gmap (Dir * list N) StoreFile) (f : Files) : Files :=
  {| file_map := m; temps := temps f; next_temp := next_temp f; file_faults := file_faults f |}.
Definition with_temps (m : gmap (Dir * N) N) (f : Files) : Files :=
  {| file_map := file_map f; temps := m; next_temp := next_temp f; file_faults := file_faults f |}.

(** One call on the store's files, which may fail instead. *)
Definition fcall {A} (failure : SnapshotError) (f : Files → Result A SnapshotError * Files) : Io A :=
  fun s =>
    let h := world s in
    let '(r, fs) :=
      match file_faults (files h) with
      | true :: rest => (Err failure, with_file_faults rest (files h))
      | _ => f (with_file_faults (tail (file_faults (files h))) (files h))
      end in
    let h' := with_files fs h in
    (r, {| world := h'; log := log s ++ [h'] |}).

(** Operations of the tree and of the objects, with their errors as values. *)
Definition in_tree {A} (m : TreeIo A) : Io (Result A TreeError) := fun s =>
  let h := world s in
  let '(r, s') := m (start (tree h)) in
  (Ok r, {| world := with_tree (world s') h; log := log s ++ map (fun t => with_tree t h) (log s') |}).
Definition in_objects {A} (m : Io_ A) : Io (Result A StoreError) := fun s =>
  let h := world s in
  let '(r, s') := m (start (objects h)) in
  let h' := with_objects (world s') h in
  (Ok r, {| world := h';
            log := log s ++ map (fun d => with_objects (with_disk d (objects h)) h) (log s') ++ [h'] |}).
Definition host {A} (f : Host → A * Host) : Io A := ask None f.

(** [None] is a token nobody cancels; the caller's is asked. *)
Inductive Token := Uncancelled | Callers.
Definition is_cancelled (token : Token) : Io bool :=
  match token with
  | Uncancelled => ret false
  | Callers =>
      host (fun h => match cancels h with
                     | b :: rest => (b, with_cancels rest h)
                     | [] => (false, h)
                     end)
  end.
Definition check_cancelled (token : Token) : Io unit :=
  (do? c := is_cancelled token in if c : bool then throw Cancelled else ret tt)%W.

(** [Ok(None)] for what is not found. *)
Definition found {A} (m : Io A) : Io (option A) :=
  (do? r := attempt m in
   match r with
   | Ok a => ret (Some a)
   | Err NotFound => ret None
   | Err e => throw e
   end)%W.

(** [map(…).collect::<Result<Vec<_>, _>>()] *)
Fixpoint map_io {A B} (f : A → Io B) (l : list A) : Io (list B) :=
  match l with
  | [] => ret []
  | a :: l' => (do? b := f a in do? bs := map_io f l' in ret (b :: bs))%W
  end.
Fixpoint each_io {A} (f : A → Io unit) (l : list A) : Io unit :=
  match l with
  | [] => ret tt
  | a :: l' => (do? _ := f a in each_io f l')%W
  end.

(** ** Stepping through operations *)

Lemma wp_fcall {A} P failure (f : Files → Result A SnapshotError * Files) h Q :
  (∀ fl, (Forall (λ b, b = false) (file_faults (files h)) → False) →
     let h' := with_files (with_file_faults fl (files h)) h in Q (Err failure) h' ∧ P h') →
  (∀ fl, (Forall (λ b, b = false) (file_faults (files h)) → Forall (λ b, b = false) fl) →
     let h' := with_files (f (with_file_faults fl (files h))).2 h in
     Q (f (with_file_faults fl (files h))).1 h' ∧ P h') →
  wp P (fcall failure f) h Q.
Proof.
  intros Hfail Hok s <-. unfold fcall. destruct (file_faults (files (world s))) as [|[] fl] eqn:E.
  - destruct (Hok [] (λ _, ltac:(constructor))) as [HQ HP]. simpl. destruct (f _) as [r fs].
    split; [done|]. eexists [_]. by repeat constructor.
  - destruct (Hfail fl) as [HQ HP]; [by inversion 1|]. simpl. split; [done|].
    eexists [_]. by repeat constructor.
  - destruct (Hok fl) as [HQ HP]; [by inversion 1|]. simpl.
    destruct (f _) as [r fs]. split; [done|]. eexists [_]. by repeat constructor.
Qed.

Lemma wp_in_tree {A} P (m : TreeIo A) h Q :
  wp (λ t, P (with_tree t h)) m (tree h) (λ r t', Q (Ok r) (with_tree t' h)) →
  wp P (in_tree m) h Q.
Proof.
  intros Hm s <-. unfold in_tree. destruct (Hm (start (tree (world s))) eq_refl) as (HQ & new & E & HP).
  destruct (m _) as [r s']. simpl in *. split; [done|]. eexists. split; [done|].
  rewrite E. by apply Forall_map.
Qed.

Lemma wp_in_objects {A} P (m : Io_ A) h Q :
  wp (λ d, P (with_objects (with_disk d (objects h)) h)) m (objects h)
    (λ r o, Q (Ok r) (with_objects o h) ∧ P (with_objects o h)) →
  wp P (in_objects m) h Q.
Proof.
  intros Hm s <-. unfold in_objects. destruct (Hm (start (objects (world s))) eq_refl) as ((HQ & HP) & new & E & Hnew).
  destruct (m _) as [r s']. simpl in *. split; [done|]. eexists. split; [done|].
  rewrite E. apply Forall_app. split; [by apply Forall_map|by constructor].
Qed.

Lemma wp_host {A} P (f : Host → A * Host) h (Q : _ → _ → Prop) :
  Q (Ok (f h).1) (f h).2 → wp P (host f) h Q.
Proof. intros H. by apply wp_ask. Qed.

(** [within R m]: whatever fails, [R] relates where [m] starts to every moment of it. *)
Definition within {A} (R : Host → Host → Prop) (m : Io A) : Prop :=
  ∀ (P : Host → Prop) h, (∀ h', R h h' → P h') → wp P m h (λ _ h', R h h').

Section within.
Context (R : Host → Host → Prop) `{!PreOrder R}.

Lemma within_ret {A} (a : A) : within R (ret a).
Proof. intros P h HP. by apply wp_ret. Qed.
Lemma within_throw {A} e : within (A:=A) R (throw e).
Proof. intros P h HP. by apply wp_throw. Qed.
Lemma within_lift {A} (r : Result A SnapshotError) : within R (lift r).
Proof. intros P h HP. by apply wp_lift. Qed.

Lemma within_bind {A B} (m : Io A) (f : A → Io B) :
  within R m → (∀ a, within R (f a)) → within R (and_then m f).
Proof.
  intros Hm Hf P h HP. apply wp_bind. eapply wp_mono; [by apply Hm|done|].
  intros [a|e] h1 H1; [|done].
  eapply wp_mono; [apply (Hf a P h1); intros h2 H2; apply HP; by etrans|done|].
  intros r h2 H2. by etrans.
Qed.

Lemma within_attempt {A} (m : Io A) : within R m → within R (attempt m).
Proof. intros Hm P h HP. apply wp_attempt. eapply wp_mono; [by apply Hm|done|done]. Qed.

Lemma within_map_io {A B} (f : A → Io B) l : (∀ a, within R (f a)) → within R (map_io f l).
Proof.
  intros Hf. induction l as [|a l IH]; simpl; [apply within_ret|].
  apply within_bind; [done|]. intros b. apply within_bind; [done|]. intros bs. apply within_ret.
Qed.

Lemma within_each_io {A} (f : A → Io unit) l : (∀ a, within R (f a)) → within R (each_io f l).
Proof.
  intros Hf. induction l as [|a l IH]; simpl; [apply within_ret|].
  apply within_bind; [done|]. by intros [].
Qed.

End within.

(** Nothing but faults used up in the tree; the objects stay. *)
Definition same_tree (t t' : Tree) : Prop := ∃ fl, t' = with_tree_faults fl t.
#[export] Instance same_tree_preorder : PreOrder same_tree.
Proof.
  split; [intros t; exists (tree_faults t); by destruct t|].
  intros t1 t2 t3 [f1 ->] [f2 ->]. by exists f2.
Qed.

Definition aside (h h' : Host) : Prop := same_tree (tree h) (tree h') ∧ objects h' = objects h.
#[export] Instance aside_preorder : PreOrder aside.
Proof.
  split; [by split|]. intros h1 h2 h3 [? ?] [? ?]. split; [by etrans|congruence].
Qed.

(** The files stay as well. *)
Definition reading (h h' : Host) : Prop :=
  aside h h' ∧ with_file_faults [] (files h') = with_file_faults [] (files h).
#[export] Instance reading_preorder : PreOrder reading.
Proof.
  split; [by split|]. intros h1 h2 h3 [? ?] [? ?]. split; [by etrans|congruence].
Qed.

Lemma reading_aside {A} (m : Io A) : within reading m → within aside m.
Proof.
  intros Hm P h HP. eapply wp_mono; [apply (Hm P h); intros h' [? _]; by apply HP|done|].
  by intros r h' [? _].
Qed.

Lemma within_fcall_reading {A} failure (f : Files → Result A SnapshotError * Files) :
  (∀ fs, with_file_faults [] (f fs).2 = with_file_faults [] fs) → within reading (fcall failure f).
Proof.
  intros Hf P h HP. apply wp_fcall; intros fl _; simpl.
  - assert (reading h (with_files (with_file_faults fl (files h)) h)) as Hr by done. auto.
  - assert (reading h (with_files (f (with_file_faults fl (files h))).2 h)) as Hr; [|auto].
    split; [done|]. simpl. by rewrite Hf.
Qed.

Lemma within_fcall_aside {A} failure (f : Files → Result A SnapshotError * Files) :
  within aside (fcall failure f).
Proof.
  intros P h HP. apply wp_fcall; intros fl _; simpl.
  - assert (aside h (with_files (with_file_faults fl (files h)) h)) as Hr by done. auto.
  - assert (aside h (with_files (f (with_file_faults fl (files h))).2 h)) as Hr by done. auto.
Qed.

Lemma within_host {A} (R : Host → Host → Prop) (f : Host → A * Host) :
  (∀ h, R h (f h).2) → within R (host f).
Proof. intros Hf P h HP. by apply wp_host. Qed.

Lemma within_observes {A} (m : TreeIo A) v may :
  (∀ t, observes t m (v t) may) → within reading (in_tree m).
Proof.
  intros Hm P h HP. apply wp_in_tree. eapply wp_mono; [apply Hm|intros e He; exact He|].
  - intros fl. apply HP. split; [split; [by exists fl|done]|done].
  - intros r t' (fl & -> & _). split; [split; [by exists fl|done]|done].
Qed.

Definition MAX_METADATA_BYTES : N := 33554432.
Definition MAX_STORE_RECORDS : N := 10000.
Definition MAX_OPEN_RECORDS : N := 1024.
Definition MAX_REVERT_JOURNALS : N := 256.
Definition PRIVATE_ENTRY_SLACK : N := 64.
Definition MAX_PRIVATE_ENTRIES : N :=
  MAX_STORE_RECORDS + MAX_OPEN_RECORDS + MAX_REVERT_JOURNALS + PRIVATE_ENTRY_SLACK.

(** ** What is stored *)

(** [serde_json::to_vec], of which only the length matters here: [decode] takes back what
    [encode] gave. *)
Class JsonLib := {
  state_json : StoredState → N;
  open_json : StoredOpenRecord → N;
  record_json : StoredRecord → N;
  journal_json : StoredJournal → N;
  evicted_json : StoredEvicted → N;
}.

(** The trait [Stored]. *)
Class Stored (A : Type) := {
  inject : A → FileValue;
  project : FileValue → option A;
  valid : A → bool;
  json : A → N;
}.

Section stored.
Context `{JL : JsonLib}.

#[export] Instance stored_state : Stored StoredState :=
  {| inject := VState; project := fun v => match v with VState s => Some s | _ => None end;
     valid := valid_state; json := state_json |}.
#[export] Instance stored_open : Stored StoredOpenRecord :=
  {| inject := VOpen; project := fun v => match v with VOpen o => Some o | _ => None end;
     valid := valid_open; json := open_json |}.
#[export] Instance stored_record : Stored StoredRecord :=
  {| inject := VRecord; project := fun v => match v with VRecord r => Some r | _ => None end;
     valid := valid_record; json := record_json |}.
#[export] Instance stored_journal : Stored StoredJournal :=
  {| inject := VJournal; project := fun v => match v with VJournal j => Some j | _ => None end;
     valid := valid_journal; json := journal_json |}.
#[export] Instance stored_evicted : Stored StoredEvicted :=
  {| inject := VEvicted; project := fun v => match v with VEvicted e => Some e | _ => None end;
     valid := valid_evicted; json := evicted_json |}.

Definition decode {A} `{Stored A} (f : StoreFile) : Result A SnapshotError :=
  match project (sf_value f) with
  | Some a => if valid a then Ok a else Err UnhealthyStorage
  | None => Err UnhealthyStorage
  end.

Definition encode {A} `{Stored A} (a : A) : Result StoreFile SnapshotError :=
  if (MAX_METADATA_BYTES <? json a)%N then Err (limit_error LMetadataBytes MAX_METADATA_BYTES)
  else Ok {| sf_bytes := json a; sf_value := inject a |}.

(** ** Calls *)

(** A store file's content; a missing one is not found. *)
Definition read (p : StorePath) : Io StoreFile :=
  fcall OperationFailed (fun fs =>
    (match file_map fs !! p with
     | None => Err NotFound
     | Some f => if (MAX_METADATA_BYTES <? sf_bytes f)%N then Err UnhealthyStorage else Ok f
     end, fs)).

Definition read_as {A} `{Stored A} (p : StorePath) : Io A := (do? f := read p in lift (decode f))%W.

Definition size (p : StorePath) : Io N :=
  fcall OperationFailed (fun fs =>
    (Ok match file_map fs !! p with None => 0%N | Some f => sf_bytes f end, fs)).

(** Sorted names of one directory, abandoned temporaries excluded. *)
Definition names_in (d : Dir) (m : gmap (Dir * list N) StoreFile) : list (list N) :=
  sort_by id (omap (fun '((d', n), _) => if decide (d' = d) then Some n else None) (map_to_list m)).
Definition temps_in (d : Dir) (m : gmap (Dir * N) N) : list N :=
  omap (fun '((d', _), b) => if decide (d' = d) then Some b else None) (map_to_list m).
Definition flooded (d : Dir) (fs : Files) : bool :=
  (MAX_PRIVATE_ENTRIES <?
     N.of_nat (length (names_in d (file_map fs)) + length (temps_in d (temps fs))))%N.

Definition names (d : Dir) : Io (list (list N)) :=
  fcall UnhealthyStorage (fun fs =>
    (if flooded d fs then Err UnhealthyStorage else Ok (names_in d (file_map fs)), fs)).

(** [Temporary]: created beside its destination, written and synced, renamed, and removed when
    dropped. *)
Definition create_temp (d : Dir) : Io N :=
  fcall OperationFailed (fun fs =>
    let n := next_temp fs in
    (Ok n, {| file_map := file_map fs; temps := <[(d, n) := 0%N]> (temps fs);
              next_temp := n + 1; file_faults := file_faults fs |})).
Definition write_temp (d : Dir) (n bytes : N) : Io unit :=
  fcall OperationFailed (fun fs => (Ok tt, with_temps (<[(d, n) := bytes]> (temps fs)) fs)).
Definition rename_temp (d : Dir) (n : N) (p : StorePath) (f : StoreFile) : Io unit :=
  fcall OperationFailed (fun fs =>
    (Ok tt, with_temps (delete (d, n) (temps fs)) (with_map (<[p := f]> (file_map fs)) fs))).
Definition drop_temp (d : Dir) (n : N) : Io unit :=
  fcall OperationFailed (fun fs => (Ok tt, with_temps (delete (d, n) (temps fs)) fs)).

Definition sync (d : Dir) : Io unit := fcall OperationFailed (fun fs => (Ok tt, fs)).

Definition write_atomic (p : StorePath) (f : StoreFile) : Io unit :=
  (let d := fst p in
   do? n := create_temp d in
   do? r := attempt (do? _ := write_temp d n (sf_bytes f) in
                     do? _ := rename_temp d n p f in
                     sync d) in
   do? _ := attempt (drop_temp d n) in
   lift r)%W.

Definition write_as {A} `{Stored A} (p : StorePath) (a : A) : Io unit :=
  (do? f := lift (encode a) in write_atomic p f)%W.

(** Removes one file and reports whether it was there. *)
Definition remove (p : StorePath) : Io bool :=
  fcall OperationFailed (fun fs =>
    match file_map fs !! p with
    | Some _ => (Ok true, with_map (delete p (file_map fs)) fs)
    | None => (Ok false, fs)
    end).

(** ** Typed access *)

Definition state_path : StorePath := (STATE, []).
Definition state : Io StoredState := read_as state_path.
Definition write_state (s : StoredState) : Io unit := write_as state_path s.

Definition open_path (ticket : list N) : Result StorePath SnapshotError :=
  if valid_random_id ticket TICKET_PREFIX then Ok (OPEN, ticket ++ METADATA_SUFFIX) else Err NotFound.
Definition open_record (ticket : list N) : Io StoredOpenRecord :=
  (do? p := lift (open_path ticket) in
   do? o := read_as p in
   if bool_decide (o_ticket o = ticket) then ret o else throw UnhealthyStorage)%W.

(** A listed file that cannot be read fails the listing. *)
Definition listed_open (name : list N) : Io StoredOpenRecord :=
  match strip_suffix METADATA_SUFFIX name with
  | None => throw UnhealthyStorage
  | Some ticket =>
      (do? r := attempt (open_record ticket) in
       match r with Err NotFound => throw UnhealthyStorage | r => lift r end)%W
  end.
Definition open_records : Io (list StoredOpenRecord) :=
  (do? ns := names OPEN in map_io listed_open ns)%W.

Definition record_path (s : N) : StorePath := (RECORDS, record_name s).
Definition seqs : Io (list N) := (do? ns := names RECORDS in lift (collect_ok parse_record_name ns))%W.

Definition record (s : N) : Io (option StoredRecord) :=
  (do? r := found (read_as (record_path s)) in
   match r with
   | None => ret None
   | Some r => if bool_decide (seq r = s) then ret (Some r) else throw UnhealthyStorage
   end)%W.

Definition listed_record (s : N) : Io StoredRecord :=
  (do? r := record s in match r with Some r => ret r | None => throw UnhealthyStorage end)%W.
Definition records : Io (list StoredRecord) := (do? ss := seqs in map_io listed_record ss)%W.

(** A header is the record without its changes, of which it counts the number. *)
Definition decode_header (f : StoreFile) : Result StoredRecord SnapshotError :=
  match sf_value f with
  | VRecord r => if valid_header r then Ok r else Err UnhealthyStorage
  | _ => Err UnhealthyStorage
  end.
Definition header (s : N) : Io (option StoredRecord) :=
  (do? f := found (read (record_path s)) in
   match f with
   | None => ret None
   | Some f =>
       do? r := lift (decode_header f) in
       if bool_decide (seq r = s) then ret (Some r) else throw UnhealthyStorage
   end)%W.
Definition headers : Io (list StoredRecord) :=
  (do? ss := seqs in do? hs := map_io header ss in ret (omap id hs))%W.

Definition write_record (r : StoredRecord) : Io unit := write_as (record_path (seq r)) r.

Definition journal_path (id : list N) : Result StorePath SnapshotError :=
  if valid_random_id id REVERT_ID_PREFIX then Ok (REVERTS, id ++ METADATA_SUFFIX) else Err NotFound.

Definition listed_journal (name : list N) : Io (option StoredJournal) :=
  match strip_suffix METADATA_SUFFIX name with
  | None => throw UnhealthyStorage
  | Some id =>
      (do? p := lift (journal_path id) in
       do? f := found (read p) in
       match f with
       | None => ret None
       | Some f =>
           do? j := lift (decode f) in
           if bool_decide (revert_id j = id) then ret (Some j) else throw UnhealthyStorage
       end)%W
  end.

(** By holder, then in the order of the holder's stack. *)
Definition journal_le (a b : StoredJournal) : Prop :=
  match bytes_cmp (j_holder a) (j_holder b) with
  | Lt => True
  | Eq => (order a <= order b)%N
  | Gt => False
  end.
#[export] Instance journal_le_dec a b : Decision (journal_le a b).
Proof. unfold journal_le. destruct (bytes_cmp _ _); apply _. Defined.

Definition journals : Io (list StoredJournal) :=
  (do? ns := names REVERTS in
   do? js := map_io listed_journal ns in
   ret (merge_sort journal_le (omap id js)))%W.

Definition write_journal (j : StoredJournal) : Io unit :=
  (do? p := lift (journal_path (revert_id j)) in write_as p j)%W.

(** [digest] is the hexadecimal SHA-256 of the holder. *)
Context (digest : str → list N).

Definition evicted_path (holder : str) : StorePath := (EVICTED, digest holder ++ METADATA_SUFFIX).
Definition evicted (holder : str) : Io (option StoredEvicted) :=
  (do? e := found (read_as (evicted_path holder)) in
   match e with
   | None => ret None
   | Some e => if bool_decide (ev_holder e = holder) then ret (Some e) else throw UnhealthyStorage
   end)%W.
Definition mark_evicted (holder : str) (s : N) (client : Client) : Io unit :=
  (do? e := evicted holder in
   if match e with Some e => (s <=? ev_seq e)%N | None => false end then ret tt
   else write_as (evicted_path holder) {| ev_holder := holder; ev_seq := s; ev_client := client |})%W.

(** ** What the store's operations leave alone *)

Lemma within_read p : within reading (read p).
Proof. by apply within_fcall_reading. Qed.
Lemma within_size p : within reading (size p).
Proof. by apply within_fcall_reading. Qed.
Lemma within_names d : within reading (names d).
Proof. by apply within_fcall_reading. Qed.
Lemma within_sync d : within reading (sync d).
Proof. by apply within_fcall_reading. Qed.
Lemma within_create_temp d : within aside (create_temp d).
Proof. apply within_fcall_aside. Qed.
Lemma within_write_temp d n b : within aside (write_temp d n b).
Proof. apply within_fcall_aside. Qed.
Lemma within_rename_temp d n p f : within aside (rename_temp d n p f).
Proof. apply within_fcall_aside. Qed.
Lemma within_drop_temp d n : within aside (drop_temp d n).
Proof. apply within_fcall_aside. Qed.
Lemma within_remove p : within aside (remove p).
Proof. apply within_fcall_aside. Qed.
Lemma within_is_cancelled token : within reading (is_cancelled token).
Proof.
  destruct token; [apply within_ret, _|]. apply within_host. intros h. by destruct (cancels h).
Qed.

End stored.

Create HintDb within.
#[export] Hint Resolve within_read within_size within_names within_sync within_create_temp
  within_write_temp within_rename_temp within_drop_temp within_remove within_is_cancelled : within.

(** Goals [within R m] by the shape of [m]. *)
Ltac within_step :=
  match goal with
  | |- within _ (ret _) => apply within_ret, _
  | |- within _ (throw _) => apply within_throw, _
  | |- within _ (lift _) => apply within_lift, _
  | |- within _ (and_then _ _) => apply within_bind; [apply _| |intros ?]
  | |- within _ (attempt _) => apply within_attempt
  | |- within _ (map_io _ _) => apply within_map_io; [apply _|intros ?]
  | |- within _ (each_io _ _) => apply within_each_io; [apply _|intros ?]
  | |- within _ (match ?x with _ => _ end) => destruct x
  | |- within _ (let '_ := ?x in _) => destruct x
  | |- within aside _ => first [solve [eauto with within]|apply reading_aside; solve [eauto with within]]
  | |- within reading _ => solve [eauto with within]
  end.
Ltac within_go := repeat within_step.

Section typed.
Context `{JL : JsonLib} (digest : str → list N).

Lemma within_check_cancelled token : within reading (check_cancelled token).
Proof. unfold check_cancelled. within_go. Qed.
Lemma within_read_as {A} `{Stored A} p : within (A:=A) reading (read_as p).
Proof. unfold read_as. within_go. Qed.
Lemma within_found {A} (m : Io A) : within reading m → within reading (found m).
Proof. intros Hm. unfold found. within_go. Qed.
#[local] Hint Resolve within_check_cancelled within_read_as within_found : within.

Lemma within_state : within reading state.
Proof. unfold state. within_go. Qed.
Lemma within_open_record t : within reading (open_record t).
Proof. unfold open_record. within_go. Qed.
#[local] Hint Resolve within_open_record : within.
Lemma within_open_records : within reading open_records.
Proof. unfold open_records, listed_open. within_go. Qed.
Lemma within_seqs : within reading seqs.
Proof. unfold seqs. within_go. Qed.
Lemma within_record s : within reading (record s).
Proof. unfold record. within_go. Qed.
#[local] Hint Resolve within_seqs within_record : within.
Lemma within_listed_record s : within reading (listed_record s).
Proof. unfold listed_record. within_go. Qed.
#[local] Hint Resolve within_listed_record : within.
Lemma within_records : within reading records.
Proof. unfold records. within_go. Qed.
Lemma within_header s : within reading (header s).
Proof. unfold header. within_go. Qed.
#[local] Hint Resolve within_header : within.
Lemma within_headers : within reading headers.
Proof. unfold headers. within_go. Qed.
Lemma within_journals : within reading journals.
Proof. unfold journals, listed_journal. within_go. Qed.
Lemma within_evicted holder : within reading (evicted digest holder).
Proof. unfold evicted. within_go. Qed.
#[local] Hint Resolve within_evicted : within.
Lemma within_write_atomic p f : within aside (write_atomic p f).
Proof. unfold write_atomic. within_go. Qed.
#[local] Hint Resolve within_write_atomic : within.
Lemma within_write_as {A} `{Stored A} p (a : A) : within aside (write_as p a).
Proof. unfold write_as. within_go. Qed.
#[local] Hint Resolve within_write_as : within.
Lemma within_write_state s : within aside (write_state s).
Proof. unfold write_state. within_go. Qed.
Lemma within_write_record r : within aside (write_record r).
Proof. unfold write_record. within_go. Qed.
Lemma within_write_journal j : within aside (write_journal j).
Proof. unfold write_journal. within_go. Qed.
Lemma within_mark_evicted holder s c : within aside (mark_evicted digest holder s c).
Proof. unfold mark_evicted. within_go. Qed.

End typed.

#[export] Hint Resolve within_check_cancelled within_read_as within_found within_state
  within_open_record within_open_records within_seqs within_record within_listed_record
  within_records within_header within_headers within_journals within_evicted within_write_atomic
  within_write_as within_write_state within_write_record within_write_journal
  within_mark_evicted : within.

(** ** What a write and a removal do *)

Definition fhealthy (fs : Files) : Prop := Forall (λ b, b = false) (file_faults fs).
Definition fresh_temps (fs : Files) : Prop := ∀ d n, (next_temp fs <= n)%N → temps fs !! (d, n) = None.

(** Without failures no temporary is left. *)
Definition tidy (fs fs' : Files) : Prop :=
  (fhealthy fs → fhealthy fs') ∧ (fresh_temps fs → fresh_temps fs') ∧
  (fhealthy fs → fresh_temps fs → temps fs' = temps fs).

#[export] Instance tidy_preorder : PreOrder tidy.
Proof.
  split; [by split|]. intros f1 f2 f3 (H1 & H2 & H3) (H4 & H5 & H6).
  split; [auto|split; [auto|]]. intros Hh Hf. rewrite H6; auto.
Qed.

Lemma with_files_id h : with_files (files h) h = h.
Proof. by destruct h. Qed.

(** While a temporary is there: other files and temporaries are as they were. *)
Record writing (p : StorePath) (f : StoreFile) (n : N) (fs fs' : Files) : Prop := {
  wr_map : file_map fs' = file_map fs ∨ file_map fs' = <[p := f]> (file_map fs);
  wr_temps : ∀ k, k ≠ (fst p, n) → temps fs' !! k = temps fs !! k;
  wr_next : (n < next_temp fs')%N ∧ (next_temp fs <= next_temp fs')%N;
  wr_healthy : fhealthy fs → fhealthy fs';
}.

Lemma writing_tidy p f n fs fs' :
  n = next_temp fs → writing p f n fs fs' → temps fs' !! (fst p, n) = None ∨ ¬ fhealthy fs →
  tidy fs fs'.
Proof.
  intros Hn [_ Ht [Hlt Hle] Hh] Hgone. split; [done|split].
  - intros Hf d m Hm. rewrite Ht; [apply Hf; lia|]. intros [= _ ->]. lia.
  - intros Hhe Hf. apply map_eq. intros k. destruct (decide (k = (fst p, n))) as [->|Hne]; [|auto].
    destruct Hgone as [->|?]; [|done]. symmetry. apply Hf. lia.
Qed.

Section writes.
Context `{JL : JsonLib}.

(** Each moment of a write of [f] to [p], its result apart. *)
Definition shows_write (P : Host → Prop) (p : StorePath) (f : StoreFile) (h : Host) : Prop :=
  ∀ fs', file_map fs' = file_map (files h) ∨ file_map fs' = <[p := f]> (file_map (files h)) →
    P (with_files fs' h).

Record written (p : StorePath) (f : StoreFile) (h : Host) (r : Result unit SnapshotError)
    (h' : Host) : Prop := {
  wn_host : h' = with_files (files h') h;
  wn_tidy : tidy (files h) (files h');
  wn_map :
    match r with
    | Ok _ => file_map (files h') = <[p := f]> (file_map (files h))
    | Err e => e = OperationFailed ∧
        (file_map (files h') = file_map (files h) ∨
         file_map (files h') = <[p := f]> (file_map (files h)))
    end;
  wn_live : fhealthy (files h) → r = Ok tt;
}.

Lemma wp_temp_call {A} P p f n h fs (g : Files → A * Files) (Q : Result A SnapshotError → Host → Prop) :
  shows_write P p f h → writing p f n (files h) fs →
  (∀ fl, writing p f n (files h) (with_file_faults fl fs) →
     writing p f n (files h) (g (with_file_faults fl fs)).2) →
  (∀ fs', writing p f n (files h) fs' → ¬ fhealthy (files h) → file_map fs' = file_map fs →
     Q (Err OperationFailed) (with_files fs' h)) →
  (∀ fl, let fs' := (g (with_file_faults fl fs)).2 in writing p f n (files h) fs' →
     Q (Ok (g (with_file_faults fl fs)).1) (with_files fs' h)) →
  wp P (fcall OperationFailed (λ fs, (Ok (g fs).1, (g fs).2))) (with_files fs h) Q.
Proof.
  intros HP Hw Hg Herr Hok. apply wp_fcall; simpl; intros fl Hfl.
  - assert (writing p f n (files h) (with_file_faults fl fs)) as Hw'.
    { destruct Hw as [H1 H2 H3 H4]. split; [done..|]. intros Hh. by destruct Hfl; apply H4. }
    split; [|apply HP, Hw']. apply Herr; [done| |done]. intros Hh. apply Hfl. by apply Hw.
  - assert (writing p f n (files h) (with_file_faults fl fs)) as Hw'.
    { destruct Hw as [H1 H2 H3 H4]. split; [done..|]. intros Hh. apply Hfl. by apply H4. }
    split; [|apply HP, Hg, Hw']. apply Hok, Hg, Hw'.
Qed.

Lemma wp_write_atomic P p f h :
  shows_write P p f h → wp P (write_atomic p f) h (written p f h).
Proof.
  intros HP. unfold write_atomic. apply wp_bind. unfold create_temp.
  set (n := next_temp (files h)). apply wp_fcall; simpl; intros fl Hfl.
  { split; [|apply HP; by left]. split; simpl; [done|unfold tidy; naive_solver|by auto|done]. }
  set (fs1 := {| temps := _ |}).
  assert (writing p f n (files h) fs1) as Hw1.
  { split; simpl; [by left| |lia|done]. intros k Hk. by rewrite lookup_insert_ne. }
  split; [|apply HP, Hw1]. fold n. apply wp_bind, wp_attempt.
  set (Body := λ (r : Result unit SnapshotError) h', ∃ fs', h' = with_files fs' h ∧
    writing p f n (files h) fs' ∧ (fhealthy (files h) → r = Ok tt) ∧
    match r with
    | Ok _ => file_map fs' = <[p := f]> (file_map (files h))
    | Err e => e = OperationFailed
    end).
  assert (∀ fs', writing p f n (files h) fs' → ¬ fhealthy (files h) →
    Body (Err OperationFailed) (with_files fs' h)) as Herr.
  { intros fs' Hw' Hn. exists fs'. by split_and!. }
  eapply (wp_mono P _ _ _ Body); [|done|].
  - apply wp_bind. apply (wp_temp_call P p f n h fs1 (λ fs, (tt, with_temps (<[(fst p, n) := sf_bytes f]> (temps fs)) fs)));
      [done|done| |by auto|].
    { intros fl2 [H1 H2 H3 H4]. split; simpl; [done| |done|done].
      intros k Hk. rewrite lookup_insert_ne by done. by apply H2. }
    intros fl2 fs2 Hw2. apply wp_bind.
    apply (wp_temp_call P p f n h fs2 (λ fs, (tt, with_temps (delete (fst p, n) (temps fs))
      (with_map (<[p := f]> (file_map fs)) fs)))); [done|done| |by auto|].
    { intros fl3 [H1 H2 H3 H4]. split; simpl; [|..].
      - right. by destruct Hw1 as [_ _ _ _].
      - intros k Hk. rewrite lookup_delete_ne by done. by apply H2.
      - done.
      - done. }
    intros fl3 fs3 Hw3. apply (wp_temp_call P p f n h fs3 (λ fs, (tt, fs))); [done|done|done|by auto|].
    intros fl4 fs4 Hw4. exists fs4. split_and!; [done..|]. by simpl.
  - intros r h' (fs2 & -> & Hw2 & Hlive & Hr). apply wp_bind, wp_attempt.
    apply (wp_temp_call P p f n h fs2 (λ fs, (tt, with_temps (delete (fst p, n) (temps fs)) fs)));
      [done|done| | |].
    { intros fl3 [H1 H2 H3 H4]. split; simpl; [done| |done|done].
      intros k Hk. rewrite lookup_delete_ne by done. by apply H2. }
    + intros fs3 Hw3 Hn Hm. apply wp_lift. split; simpl; [done| | |done].
      * eapply writing_tidy; [done|exact Hw3|by right].
      * destruct r as [[]|e]; [by rewrite Hm|]. split; [done|]. apply Hw3.
    + intros fl3 fs3 Hw3. apply wp_lift. split; simpl; [done| | |done].
      * eapply writing_tidy; [done|exact Hw3|]. left. simpl. by rewrite lookup_delete_eq.
      * destruct r as [[]|e]; [done|]. split; [done|]. apply Hw3.
Qed.

Definition file_of {A} `{Stored A} (a : A) : StoreFile := {| sf_bytes := json a; sf_value := inject a |}.
Definition small {A} `{Stored A} (a : A) : bool := (json a <=? MAX_METADATA_BYTES)%N.

Lemma wp_write_as {A} `{Stored A} P p (a : A) h Q :
  shows_write P p (file_of a) h →
  (small a = true → ∀ r h', written p (file_of a) h r h' → Q r h') →
  (small a = false → Q (Err (limit_error LMetadataBytes MAX_METADATA_BYTES)) h) →
  wp P (write_as p a) h Q.
Proof.
  intros HP Hw Hbig. unfold write_as, encode, small in *.
  destruct (N.ltb_spec MAX_METADATA_BYTES (json a)) as [Hlt|Hle].
  - apply wp_bind, wp_lift. apply Hbig. by apply N.leb_gt.
  - apply wp_bind, wp_lift. eapply wp_mono; [by apply wp_write_atomic|done|].
    apply Hw. by apply N.leb_le.
Qed.

(** A removal, of what was there if it says so. *)
Record removed (p : StorePath) (h : Host) (r : Result bool SnapshotError) (h' : Host) : Prop := {
  rm_host : h' = with_files (files h') h;
  rm_tidy : tidy (files h) (files h');
  rm_map :
    match r with
    | Ok b => file_map (files h') = delete p (file_map (files h)) ∧
              b = bool_decide (is_Some (file_map (files h) !! p))
    | Err e => e = OperationFailed ∧ file_map (files h') = file_map (files h)
    end;
  rm_live : fhealthy (files h) → is_ok r = true;
}.

Lemma wp_remove_file P p h :
  (∀ fs', file_map fs' = file_map (files h) ∨ file_map fs' = delete p (file_map (files h)) →
     P (with_files fs' h)) →
  wp P (remove p) h (removed p h).
Proof.
  intros HP. unfold remove. apply wp_fcall; simpl; intros fl Hfl.
  - split; [|apply HP; by left]. split; simpl; [done|unfold tidy; naive_solver|done|].
    intros Hh. by destruct Hfl.
  - destruct (file_map (files h) !! p) as [f|] eqn:E; simpl.
    + split; [|apply HP; by right]. split; simpl; [done|unfold tidy; naive_solver| |done].
      split; [done|]. by rewrite E.
    + split; [|apply HP; by left]. split; simpl; [done|unfold tidy; naive_solver| |done].
      split; [by rewrite delete_id|]. by rewrite E.
Qed.

End writes.
