(* ===== verification/StoreReads.v ===== *)
(** * Reading the store

    What the reads of [ChangeStore] come to: without failures a function of the store's files,
    and otherwise a failure; the world stays as it is. *)

From stdpp Require Import gmap sorting.
From S2P Require Import Prelude Utf8 Effects ObjectStore SnapshotTree Records Worktree ChangeStore.

(** ** Looking without changing *)

(** Nothing fails any more, and nobody cancels. *)
Definition well (h : Host) : Prop :=
  healthy (tree h) ∧ fhealthy (files h) ∧ Forall (λ b, b = false) (cancels h).

(** [looks h m Q v]: [m] leaves the world as it is, its result satisfies [Q], and it is [v]
    when nothing fails. *)
Definition looks {A} (h : Host) (m : Io A) (Q : Result A SnapshotError → Prop)
    (v : Result A SnapshotError) : Prop :=
  ∀ P : Host → Prop, (∀ h', reading h h' → P h') →
  wp P m h (λ r h', reading h h' ∧ Q r ∧ (well h → well h' ∧ r = v)).

Lemma looks_lift {A} h (r : Result A SnapshotError) (Q : _ → Prop) : Q r → looks h (lift r) Q r.
Proof. intros HQ P HP. apply wp_lift. by split_and!. Qed.
Lemma looks_ret {A} h (a : A) (Q : Result A SnapshotError → Prop) : Q (Ok a) → looks h (ret a) Q (Ok a).
Proof. apply looks_lift. Qed.
Lemma looks_throw {A} h e (Q : Result A SnapshotError → Prop) : Q (Err e) → looks h (throw e) Q (Err e).
Proof. apply (looks_lift h (Err e)). Qed.

Lemma looks_bind {A B} h (m : Io A) (f : A → Io B) Q v (R : Result B SnapshotError → Prop) w :
  looks h m Q v →
  (∀ h' a, reading h h' → Q (Ok a) → ∃ w', looks h' (f a) R w' ∧ (v = Ok a → w' = w)) →
  (∀ e, Q (Err e) → R (Err e) ∧ (v = Err e → w = Err e)) →
  looks h (and_then m f) R w.
Proof.
  intros Hm Hf He P HP. apply wp_bind. eapply wp_mono; [by apply Hm|done|].
  intros [a|e] h1 (Hr1 & HQ & Hw); simpl.
  - destruct (Hf h1 a Hr1 HQ) as (w' & Hfa & Hv).
    eapply wp_mono; [apply (Hfa P); intros h2 Hr2; apply HP; by etrans|done|].
    intros r h2 (Hr2 & HR & Hw2). split_and!; [by etrans|done|]. intros Hwell.
    destruct (Hw Hwell) as [Hwell1 Ev]. destruct (Hw2 Hwell1) as [Hwell2 ->].
    split; [done|]. symmetry in Ev. by apply Hv.
  - destruct (He e HQ) as [HR Hv]. split_and!; [done|done|]. intros Hwell.
    destruct (Hw Hwell) as [? Ev]. split; [done|]. symmetry in Ev. symmetry. by apply Hv.
Qed.

Lemma looks_mono {A} h (m : Io A) (Q Q' : Result A SnapshotError → Prop) v v' :
  looks h m Q v → (∀ r, Q r → Q' r) → v = v' → looks h m Q' v'.
Proof.
  intros Hm HQ <- P HP. eapply wp_mono; [by apply Hm|done|]. intros r h' (? & ? & ?). auto.
Qed.

Lemma looks_attempt {A} h (m : Io A) Q v (R : Result (Result A SnapshotError) SnapshotError → Prop) :
  looks h m Q v → (∀ r, Q r → R (Ok r)) → looks h (attempt m) R (Ok v).
Proof.
  intros Hm HR P HP. apply wp_attempt. eapply wp_mono; [by apply Hm|done|].
  intros r h' (? & ? & Hw). split_and!; [done|auto|]. intros Hwell.
  destruct (Hw Hwell) as [? ->]. done.
Qed.

Lemma looks_is_cancelled h token : looks h (is_cancelled token) is_ok (Ok false).
Proof.
  destruct token; [by apply looks_ret|]. intros P HP. apply wp_host.
  destruct (cancels h) as [|b rest] eqn:E; simpl; [by split_and!|].
  split_and!; [done|done|]. intros (Ht & Hf & Hc). rewrite E in Hc. apply Forall_cons in Hc as [-> Hc].
  done.
Qed.

(** An error that is a failure, not an answer. *)
Definition a_failure {A} (r : Result A SnapshotError) : Prop :=
  match r with Ok _ => True | Err e => e = Cancelled ∨ e = OperationFailed end.

Lemma looks_check_cancelled h token : looks h (check_cancelled token) a_failure (Ok tt).
Proof.
  unfold check_cancelled. eapply looks_bind; [apply looks_is_cancelled| |].
  - intros h' [] _ _; eexists; (split; [|intros [=]; done]).
    + apply looks_throw. by left.
    + by apply looks_ret.
  - intros e. done.
Qed.

(** What observing the tree comes to: the answer, or a failure with one of its errors. *)
Definition observed_as {A} (v : Result A TreeError) (may : TreeError → Prop)
    (r : Result (Result A TreeError) SnapshotError) : Prop :=
  r = Ok v ∨ ∃ e, r = Ok (Err e) ∧ may e.

Lemma looks_observes {A} h (m : TreeIo A) v may :
  observes (tree h) m v may → looks h (in_tree m) (observed_as v may) (Ok v).
Proof.
  intros Hm P HP. apply wp_in_tree.
  eapply wp_mono; [apply Hm|intros e He; exact He|].
  - intros fl. apply HP. split; [split; [by exists fl|done]|done].
  - intros r t' (fl & -> & Hfl & Hr). split_and!.
    + split; [split; [by exists fl|done]|done].
    + destruct Hr as [->|(_ & e & -> & ?)]; [by left|right; by exists e].
    + intros (Ht & Hf & Hc). destruct Hr as [->|[Hn _]]; [|done].
      split; [|done]. split_and!; [by apply Hfl|done|done].
Qed.

(** ** Files *)

Section reads.
Context `{JL : JsonLib} (digest : str → list N).

(** A call that only reads. *)
Lemma looks_fcall {A} h failure (g : Files → Result A SnapshotError) :
  (∀ fl fs, g (with_file_faults fl fs) = g fs) →
  looks h (fcall failure (λ fs, (g fs, fs))) (λ r, r = g (files h) ∨ r = Err failure) (g (files h)).
Proof.
  intros Hg P HP. apply wp_fcall; intros fl Hfl; simpl.
  - assert (reading h (with_files (with_file_faults fl (files h)) h)) as Hr by done.
    split; [|by apply HP]. split_and!; [apply Hr..|by right|]. intros (_ & Hf & _). by destruct Hfl.
  - assert (reading h (with_files (with_file_faults fl (files h)) h)) as Hr by done.
    split; [|by apply HP]. split_and!; [apply Hr..|left; apply Hg|]. intros (Ht & Hf & Hc).
    split; [|apply Hg]. split_and!; [done|by apply Hfl|done].
Qed.

(** What reading files comes to. *)
Definition read_at (fs : Files) (p : Dir * list N) : Result StoreFile SnapshotError :=
  match file_map fs !! p with
  | None => Err NotFound
  | Some f => if (MAX_METADATA_BYTES <? sf_bytes f)%N then Err UnhealthyStorage else Ok f
  end.
Definition read_as_at {A} `{Stored A} (fs : Files) (p : Dir * list N) : Result A SnapshotError :=
  (let? f := read_at fs p in decode f)%W.
Definition found_at {A} (r : Result A SnapshotError) : Result (option A) SnapshotError :=
  match r with Ok a => Ok (Some a) | Err NotFound => Ok None | Err e => Err e end.

(** An answer, or the failure of a call. *)
Definition answer {A} (v r : Result A SnapshotError) : Prop := r = v ∨ r = Err OperationFailed.

Lemma looks_answer {A B} h (m : Io A) (f : A → Io B) v (g : A → Result B SnapshotError) :
  looks h m (answer v) v → (∀ h' a, reading h h' → looks h' (f a) (answer (g a)) (g a)) →
  looks h (and_then m f) (answer (result_bind v g)) (result_bind v g).
Proof.
  intros Hm Hf. eapply looks_bind; [exact Hm| |].
  - intros h' a Hr [Ev|?]; [|done]. exists (g a). split; [|by intros [=]; subst].
    subst v. by apply Hf.
  - intros e [Ev|Ee]; [subst v|injection Ee as ->].
    + split; [by left|done].
    + split; [by right|]. by intros ->.
Qed.

Lemma looks_found {A} h (m : Io A) v :
  looks h m (answer v) v → looks h (found m) (answer (found_at v)) (found_at v).
Proof.
  intros Hm. unfold found.
  eapply looks_bind; [apply (looks_attempt h m (answer v) v (λ r, ∃ r', r = Ok r' ∧ answer v r')); by eauto| |].
  - intros h' r Hr (r' & [= <-] & Ha). exists (found_at r). split; [|by intros [= <-]].
    destruct Ha as [->| ->]; [|by apply looks_throw; right].
    destruct v as [a|e]; simpl; [by apply looks_ret; left|].
    destruct e; simpl; by first [apply looks_ret; left|apply looks_throw; left].
  - by intros e (r' & ? & _).
Qed.

Lemma read_at_faults fl fs p : read_at (with_file_faults fl fs) p = read_at fs p.
Proof. done. Qed.

Lemma looks_read h p : looks h (read p) (answer (read_at (files h) p)) (read_at (files h) p).
Proof. by apply (looks_fcall h OperationFailed (λ fs, read_at fs p)). Qed.

Lemma reading_files h h' (T : Type) (f : Files → T) :
  (∀ fl fs, f (with_file_faults fl fs) = f fs) → reading h h' → f (files h') = f (files h).
Proof. intros Hf [_ E]. by rewrite <- (Hf [] (files h')), E, Hf. Qed.

Lemma looks_read_as {A} `{Stored A} h p :
  looks h (read_as (A:=A) p) (answer (read_as_at (files h) p)) (read_as_at (files h) p).
Proof.
  unfold read_as, read_as_at. apply looks_answer; [apply looks_read|].
  intros h' f _. apply looks_lift. by left.
Qed.

(** *** Records *)

Definition record_at (fs : Files) (s : N) : Result (option StoredRecord) SnapshotError :=
  (let? r := found_at (read_as_at fs (record_path s)) in
   match r with
   | None => Ok None
   | Some r => if bool_decide (seq r = s) then Ok (Some r) else Err UnhealthyStorage
   end)%W.

Lemma looks_record h s : looks h (record s) (answer (record_at (files h) s)) (record_at (files h) s).
Proof.
  unfold record, record_at. apply looks_answer; [apply looks_found, looks_read_as|].
  intros h' [r|] _; [|apply looks_ret; by left].
  case_bool_decide; [apply looks_ret|apply looks_throw]; by left.
Qed.

Lemma record_at_valid fs s r :
  record_at fs s = Ok (Some r) → valid_record r = true ∧ seq r = s.
Proof.
  unfold record_at, read_as_at. destruct (read_at fs _) as [f|e]; simpl.
  - unfold decode. destruct (sf_value f); simpl; try done. destruct (valid_record _) eqn:Ev; simpl; [|done].
    case_bool_decide; [|done]. by intros [= <-].
  - by destruct e.
Qed.

(** A list of reads. *)
Lemma collect_ok_ext {A B E} (f g : A → Result B E) l :
  (∀ a, f a = g a) → collect_ok f l = collect_ok g l.
Proof. intros Hf. induction l as [|a l IH]; simpl; [done|]. by rewrite Hf, IH. Qed.

Lemma looks_map_io {A B} h (f : A → Io B) (g : Files → A → Result B SnapshotError) l :
  (∀ fl fs a, g (with_file_faults fl fs) a = g fs a) →
  (∀ h' a, looks h' (f a) (answer (g (files h') a)) (g (files h') a)) →
  looks h (map_io f l) (answer (collect_ok (g (files h)) l)) (collect_ok (g (files h)) l).
Proof.
  intros Hfl Hf. revert h. induction l as [|a l IH]; intros h; simpl; [apply looks_ret; by left|].
  apply (looks_answer h (f a) _ _ (λ b, let? bs := collect_ok (g (files h)) l in Ok (b :: bs))%W); [apply Hf|].
  intros h1 b Hr1.
  assert (collect_ok (g (files h1)) l = collect_ok (g (files h)) l) as E.
  { apply collect_ok_ext. intros x. by apply (reading_files h h1 _ (λ fs, g fs x)). }
  pose proof (IH h1) as H1. rewrite E in H1.
  apply (looks_answer h1 (map_io f l) _ _ (λ bs, Ok (b :: bs))); [done|].
  intros; apply looks_ret; by left.
Qed.

(** *** Lists of records *)

Definition listed_record_at (fs : Files) (s : N) : Result StoredRecord SnapshotError :=
  (let? r := record_at fs s in
   match r with Some r => Ok r | None => Err UnhealthyStorage end)%W.

Lemma looks_listed_record h s :
  looks h (listed_record s) (answer (listed_record_at (files h) s)) (listed_record_at (files h) s).
Proof.
  unfold listed_record, listed_record_at. apply looks_answer; [apply looks_record|].
  intros h' [r|] _; [apply looks_ret|apply looks_throw]; by left.
Qed.

(** *** Journals *)

Definition names_at (d : Dir) (fs : Files) : Result (list (list N)) SnapshotError :=
  if flooded d fs then Err UnhealthyStorage else Ok (names_in d (file_map fs)).

Lemma looks_names h d :
  looks h (names d) (λ r, r = names_at d (files h) ∨ r = Err UnhealthyStorage) (names_at d (files h)).
Proof. by apply (looks_fcall h UnhealthyStorage (names_at d)). Qed.

Definition listed_journal_at (fs : Files) (name : list N) : Result (option StoredJournal) SnapshotError :=
  match strip_suffix METADATA_SUFFIX name with
  | None => Err UnhealthyStorage
  | Some rid =>
      (let? p := journal_path rid in
       let? f := found_at (read_at fs p) in
       match f with
       | None => Ok None
       | Some f =>
           let? j := decode f in
           if bool_decide (revert_id j = rid) then Ok (Some j) else Err UnhealthyStorage
       end)%W
  end.

Lemma looks_listed_journal h name :
  looks h (listed_journal name) (answer (listed_journal_at (files h) name))
    (listed_journal_at (files h) name).
Proof.
  unfold listed_journal, listed_journal_at. destruct (strip_suffix _ _) as [rid|];
    [|apply looks_throw; by left].
  apply looks_answer; [apply looks_lift; by left|]. intros h1 p Hr1.
  rewrite <- (reading_files h h1 _ (λ fs, read_at fs p)) by done.
  apply looks_answer; [apply looks_found, looks_read|]. intros h2 [f|] Hr2; [|apply looks_ret; by left].
  apply looks_answer; [apply looks_lift; by left|]. intros h3 j _.
  case_bool_decide; [apply looks_ret|apply looks_throw]; by left.
Qed.

Definition journals_at (fs : Files) : Result (list StoredJournal) SnapshotError :=
  (let? ns := names_at REVERTS fs in
   let? js := collect_ok (listed_journal_at fs) ns in
   Ok (merge_sort journal_le (omap id js)))%W.

(** The answer, or a failure. *)
Definition answered {A} (v r : Result A SnapshotError) : Prop := ∀ a, r = Ok a → v = Ok a.

Lemma looks_journals h :
  looks h journals (answered (journals_at (files h))) (journals_at (files h)).
Proof.
  unfold journals, journals_at. eapply looks_bind; [apply looks_names| |].
  - intros h1 ns Hr1 [E|?]; [|done]. symmetry in E. eexists. split; [|rewrite E; intros _; reflexivity].
    rewrite E. simpl.
    eapply looks_mono; [apply (looks_answer h1 _ _ (collect_ok (listed_journal_at (files h)) ns)
      (λ js, Ok (merge_sort journal_le (omap id js))))| |done].
    + assert (collect_ok (listed_journal_at (files h1)) ns = collect_ok (listed_journal_at (files h)) ns) as <-.
      { apply collect_ok_ext. intros x. by apply (reading_files h h1 _ (λ fs, listed_journal_at fs x)). }
      apply looks_map_io; [done|]. intros. apply looks_listed_journal.
    + intros h2 js _. apply looks_ret. by left.
    + intros r [->| ->]; [|done]. by intros a.
  - intros e _. split; [done|]. by intros ->.
Qed.

Lemma collect_ok_Forall {A B Er} (f : A → Result B Er) (P : A → B → Prop) l l' :
  (∀ a b, f a = Ok b → P a b) → collect_ok f l = Ok l' → Forall2 P l l'.
Proof.
  intros Hf. revert l'. induction l as [|a l IH]; intros l'; simpl; [intros [= <-]; constructor|].
  destruct (f a) as [b|] eqn:Ef; [|done]. simpl. destruct (collect_ok f l) as [bs|]; [|done].
  intros [= <-]. constructor; auto.
Qed.
End reads.
