(* ===== verification/Reverts.v ===== *)
(** * Reverts

    [workspace-snapshot/src/revert.rs] on the store's files and the workspace's tree: a plan
    composes the selected records and compares each path with what is there, its execution
    publishes the plan between two writes of a journal, and a journal a crash left publishing
    is reconciled from its records and the tree. *)

From stdpp Require Import gmap sorting.
From S2P Require Import Prelude Utf8 Effects ObjectStore SnapshotTree Records Recording.
From S2P Require Import Worktree ChangeStore.

Definition MAX_REVERT_PREVIEW_PATHS : nat := 500.
Definition MAX_ID_BYTES : nat := 128.
Definition OWNER_EXECUTABLE : N := 0x40.
Definition READ_BITS : N := 0x124.
Definition EXECUTE_BITS : N := 0x49.
Definition NEW_FILE_MODE : N := 0x1B6.
Definition NEW_EXECUTABLE_MODE : N := 0x1FF.
Definition STABLE_READ_ATTEMPTS : nat := 3.

Record WorkspaceAccess := {
  protects : list N → bool;
  w_exclusions : list (list N);
  w_umask : N;
}.

Record PlannedChange := {
  pc_path : list N; pc_expected : Expected; pc_source : PathState; pc_target : PathState;
  replaced_mode : option N;
}.

Inductive RevertChangeKind := CCreate | CReplace | CDelete.
Record RevertCounts := {
  n_create : N; n_replace : N; n_delete : N; n_unchanged : N; n_conflicts : N; n_created : N;
}.
Record RevertPreview := {
  pv_id : list N; pv_holder : str; pv_direction : RevertDirection; pv_records : N;
  pv_counts : RevertCounts; pv_planned : list (list N * RevertChangeKind);
  pv_conflicts : list PathConflict; pv_created : list (list N);
}.
Record RevertPlan := {
  pl_id : list N; pl_holder : str; pl_direction : RevertDirection; pl_seqs : list N;
  pl_stack : list (list N); pl_changes : list PlannedChange; pl_created : list (list N);
  pl_conflicts : nat; pl_preview : RevertPreview;
}.

Inductive Live :=
| LAbsent
| LEntry (content : Content) (stamp : TreeStamp) (mode : option N)
| LOther.

Inductive Directory := Present | Missing_ | Blocked_.

Record Planner := {
  directories : gmap (list N) Directory;
  created : gset (list N);
  planned_changes : list PlannedChange;
  counts : RevertCounts;
  planned : list (list N * RevertChangeKind);
  conflicts : list PathConflict;
}.

Inductive Publication := PComplete | PRefused (e : SnapshotError) | PUncertain.

Inductive Stability := Stable (content : list N) (n : Inode) | Oversized_ | Unstable_.

Record PendingRevert := {
  pr_id : list N; pr_direction : RevertDirection; pr_state : RevertState; pr_records : N;
  pr_applied : N; pr_total : N; pr_reconciliation : bool; pr_stopped_at : option (list N);
}.
Record RevertStatus := { rs_holder : str; rs_pending : list PendingRevert }.

(** ** Small parts *)

Definition tree_error (e : TreeError) : SnapshotError :=
  match e with
  | TreeProtected | TreeBlocked => UnsupportedFile
  | TreeChanged => Conflict
  | TreeFailed _ | TreeUnsettled => OperationFailed
  end.

Definition refusal (e : TreeError) : Publication :=
  match e with
  | TreeChanged | TreeBlocked => PRefused Conflict
  | TreeProtected => PRefused UnsupportedFile
  | TreeFailed InvalidData => PRefused IntegrityFailure
  | TreeUnsettled => PUncertain
  | e => PRefused (tree_error e)
  end.

Definition permission_bits (n : Inode) : N := N.land (i_mode n) PERMISSION_BITS.
Definition file_kind (n : Inode) : EntryKind :=
  if (N.land (permission_bits n) OWNER_EXECUTABLE =? 0)%N then SnapshotTree.File else Executable.

Definition restored_mode (replaced : option N) (executable : bool) (umask : N) : N :=
  match replaced with
  | Some mode =>
      if bool_decide (negb (N.land mode OWNER_EXECUTABLE =? 0)%N = executable) then mode
      else if executable
      then N.lor (N.lor mode OWNER_EXECUTABLE) (N.shiftr (N.land mode READ_BITS) 2)
      else N.ldiff mode EXECUTE_BITS
  | None => N.ldiff (if executable then NEW_EXECUTABLE_MODE else NEW_FILE_MODE) umask
  end.

(** Equal kind, which for a file is whether it is executable, and equal content. *)
Definition live_matches (live : Live) (content : PathState) : bool :=
  match live, content with
  | LAbsent, None => true
  | LEntry c _ _, Some content => bool_decide (c = content)
  | _, _ => false
  end.

Definition stack_of (js : list StoredJournal) (holder : str) : list StoredJournal :=
  filter (fun j => j_holder j = holder) js.

(** Ascending, each once. *)
Definition sorted_set (s : gset N) : list N := merge_sort N.le (elements s).
Definition reverted_seqs (stack : list StoredJournal) : gset N :=
  list_to_set (concat (map j_seqs (filter (fun j => direction j = Revert) stack))).

Definition identifier (value : list N) : Result (list N) SnapshotError :=
  match validate_opaque_string value MAX_ID_BYTES with
  | Ok _ => Ok value
  | Err _ => Err IntegrityFailure
  end.
Definition holder_of (value : str) : Result str SnapshotError :=
  match RecordHolder_new value with Ok h => Ok h | Err _ => Err UnhealthyStorage end.

Definition set_state (st : RevertState) (j : StoredJournal) : StoredJournal :=
  {| revert_id := revert_id j; j_holder := j_holder j; order := order j; direction := direction j;
     j_seqs := j_seqs j; j_state := st; total_files := total_files j;
     applied_files := applied_files j; total_directories := total_directories j;
     created_directories := created_directories j;
     reconciliation_required := reconciliation_required j; stopped_at := stopped_at j |}.
Definition set_applied (n : nat) (j : StoredJournal) : StoredJournal :=
  {| revert_id := revert_id j; j_holder := j_holder j; order := order j; direction := direction j;
     j_seqs := j_seqs j; j_state := j_state j; total_files := total_files j;
     applied_files := n; total_directories := total_directories j;
     created_directories := created_directories j;
     reconciliation_required := reconciliation_required j; stopped_at := stopped_at j |}.
Definition set_created (n : nat) (j : StoredJournal) : StoredJournal :=
  {| revert_id := revert_id j; j_holder := j_holder j; order := order j; direction := direction j;
     j_seqs := j_seqs j; j_state := j_state j; total_files := total_files j;
     applied_files := applied_files j; total_directories := total_directories j;
     created_directories := n;
     reconciliation_required := reconciliation_required j; stopped_at := stopped_at j |}.
Definition set_indeterminate (j : StoredJournal) : StoredJournal :=
  {| revert_id := revert_id j; j_holder := j_holder j; order := order j; direction := direction j;
     j_seqs := j_seqs j; j_state := Indeterminate; total_files := total_files j;
     applied_files := applied_files j; total_directories := total_directories j;
     created_directories := created_directories j;
     reconciliation_required := true; stopped_at := stopped_at j |}.
Definition stopped (path : list N) (j : StoredJournal) : StoredJournal :=
  {| revert_id := revert_id j; j_holder := j_holder j; order := order j; direction := direction j;
     j_seqs := j_seqs j; j_state := j_state j; total_files := total_files j;
     applied_files := applied_files j; total_directories := total_directories j;
     created_directories := created_directories j;
     reconciliation_required := reconciliation_required j; stopped_at := Some path |}.

(** The paths above a path, outermost first: its prefixes before each slash. *)
Fixpoint slash_prefixes (done path : list N) : list (list N) :=
  match path with
  | [] => []
  | c :: rest =>
      (if (c =? SLASH)%N then [reverse done] else []) ++ slash_prefixes (c :: done) rest
  end.

Definition sat_inc (n : N) : N := N.min (n + 1) 0xFFFFFFFF.

Section reverts.
Context `{GL : GitLib} `{JL : JsonLib}.
(** The text of a new identifier, and the workspace, without which nothing is observed or
    published. *)
Context (uuid : N → list N) (workspace : option WorkspaceAccess).

Definition the_workspace : Io WorkspaceAccess :=
  match workspace with Some w => ret w | None => throw InvalidRequest end.

Definition revert_id_of : Io (list N) :=
  (do? n := host (fun h => (next_random h, with_random (next_random h + 1) h)) in
   ret (REVERT_ID_PREFIX ++ uuid n))%W.

(** ** Observing *)

Definition file_metadata (ino : N) : TreeIo Inode :=
  sys (TreeFailed OtherIo) (fun t =>
    (match inodes t !! ino with Some n => Ok n | None => Err (TreeFailed OtherIo) end, t)).
(** [take(maximum + 1)] from the start of the file. *)
Definition file_content (ino maximum : N) : TreeIo (list N) :=
  sys (TreeFailed OtherIo) (fun t =>
    (Ok match inodes t !! ino with
        | Some {| i_kind := KFile bytes |} => take (N.to_nat (maximum + 1)) bytes
        | _ => []
        end, t)).

(** What a failed call on an open file comes to. *)
Definition on_file {A} (m : TreeIo A) : Io A :=
  (do? r := in_tree m in match r with Ok a => ret a | Err _ => throw OperationFailed end)%W.

Fixpoint read_stable_go (attempts : nat) (ino maximum : N) (token : Token) : Io Stability :=
  match attempts with
  | O => ret Unstable_
  | S attempts =>
      (do? _ := check_cancelled token in
       do? before := on_file (file_metadata ino) in
       if (maximum <? size_of (i_kind before))%N then ret Oversized_
       else
         do? content := on_file (file_content ino maximum) in
         do? after := on_file (file_metadata ino) in
         if bool_decide (stamp_of ino before = stamp_of ino after)
            && (N.of_nat (length content) =? size_of (i_kind after))%N
         then ret (Stable content after)
         else read_stable_go attempts ino maximum token)%W
  end.
Definition read_stable (ino maximum : N) (token : Token) : Io Stability :=
  read_stable_go STABLE_READ_ATTEMPTS ino maximum token.

Definition observe (w : WorkspaceAccess) (path : list N) (token : Token) : Io Live :=
  (do? r := in_tree (observe_tree_entry (protects w) path) in
   match r with
   | Ok ObsAbsent => ret LAbsent
   | Ok (ObsFile ino _) =>
       do? st := read_stable ino MAX_SNAPSHOT_FILE_BYTES token in
       ret match st with
           | Stable content n =>
               match blob_id content with
               | Ok oid => LEntry {| c_kind := file_kind n; c_oid := oid |} (stamp_of ino n)
                             (Some (permission_bits n))
               | Err _ => LOther
               end
           | Oversized_ | Unstable_ => LOther
           end
   | Ok (ObsSymlink target stamp) =>
       ret match blob_id target with
           | Ok oid => LEntry {| c_kind := Symlink; c_oid := oid |} stamp None
           | Err _ => LOther
           end
   | Ok ObsDirectory | Ok ObsOther | Err TreeBlocked | Err TreeProtected => ret LOther
   | Err e => throw (tree_error e)
   end)%W.

Definition observe_directory (w : WorkspaceAccess) (path : list N) : Io Directory :=
  (do? p := lift (workspace_path path) in
   do? r := in_tree (observe_tree_entry (protects w) p) in
   match r with
   | Ok ObsDirectory => ret Present
   | Ok ObsAbsent => ret Missing_
   | Ok _ | Err TreeBlocked | Err TreeProtected => ret Blocked_
   | Err e => throw (tree_error e)
   end)%W.

(** ** Planning *)

Definition note_directory (path : list N) (d : Directory) (pl : Planner) : Planner :=
  {| directories := <[path := d]> (directories pl);
     created := match d with Missing_ => {[path]} ∪ created pl | _ => created pl end;
     planned_changes := planned_changes pl; counts := counts pl; planned := planned pl;
     conflicts := conflicts pl |}.

(** Whether every ancestor is a plain directory or can be created, noting those to create. *)
Fixpoint parents_ready (w : WorkspaceAccess) (missing : bool) (ancestors : list (list N))
    (pl : Planner) : Io (bool * Planner) :=
  match ancestors with
  | [] => ret (true, pl)
  | ancestor :: rest =>
      (do? d := match directories pl !! ancestor with
                | Some d => ret d
                | None => if missing then ret Missing_ else observe_directory w ancestor
                end in
       let pl := note_directory ancestor d pl in
       match d with
       | Present => parents_ready w missing rest pl
       | Missing_ => parents_ready w true rest pl
       | Blocked_ => ret (false, pl)
       end)%W
  end.

Definition changed_since (change : Composed) (pl : Planner) : Planner :=
  {| directories := directories pl; created := created pl; planned_changes := planned_changes pl;
     counts := counts pl; planned := planned pl;
     conflicts := conflicts pl ++
       [{| cf_path := cp_path change; cf_kind := ChangedSince; cf_reason := None |}] |}.

Definition count_unchanged (pl : Planner) : Planner :=
  {| directories := directories pl; created := created pl; planned_changes := planned_changes pl;
     counts := {| n_create := n_create (counts pl); n_replace := n_replace (counts pl);
                  n_delete := n_delete (counts pl); n_unchanged := sat_inc (n_unchanged (counts pl));
                  n_conflicts := n_conflicts (counts pl); n_created := n_created (counts pl) |};
     planned := planned pl; conflicts := conflicts pl |}.

Definition change_kind (change : Composed) : RevertChangeKind :=
  match cp_source change, cp_target change with
  | None, _ => CCreate
  | Some _, Some _ => CReplace
  | Some _, None => CDelete
  end.
Definition count_change (kind : RevertChangeKind) (c : RevertCounts) : RevertCounts :=
  {| n_create := (match kind with CCreate => sat_inc | _ => id end) (n_create c);
     n_replace := (match kind with CReplace => sat_inc | _ => id end) (n_replace c);
     n_delete := (match kind with CDelete => sat_inc | _ => id end) (n_delete c);
     n_unchanged := n_unchanged c; n_conflicts := n_conflicts c; n_created := n_created c |}.

Definition plan_change (change : Composed) (expected : Expected) (mode : option N) (pl : Planner) :
    Planner :=
  let kind := change_kind change in
  {| directories := directories pl; created := created pl;
     planned_changes := planned_changes pl ++
       [{| pc_path := cp_path change; pc_expected := expected; pc_source := cp_source change;
           pc_target := cp_target change; replaced_mode := mode |}];
     counts := count_change kind (counts pl);
     planned := if length (planned pl) <? MAX_REVERT_PREVIEW_PATHS
                then planned pl ++ [(cp_path change, kind)] else planned pl;
     conflicts := conflicts pl |}.

Definition visit (w : WorkspaceAccess) (token : Token) (change : Composed) (pl : Planner) :
    Io Planner :=
  (do? _ := check_cancelled token in
   do? path := lift (workspace_path (cp_path change)) in
   do? live := observe w path token in
   if live_matches live (cp_target change) then ret (count_unchanged pl)
   else
     match live, live_matches live (cp_source change) with
     | LAbsent, true | LEntry _ _ _, true =>
         let '(expected, mode) :=
           match live with
           | LEntry _ stamp mode => (ExpPresent stamp, mode)
           | _ => (ExpAbsent, None)
           end in
         do? r := match cp_target change with
                  | Some _ => parents_ready w false (slash_prefixes [] (cp_path change)) pl
                  | None => ret (true, pl)
                  end in
         let '(ready, pl) := r in
         if ready : bool then ret (plan_change change expected mode pl)
         else ret (changed_since change pl)
     | _, _ => ret (changed_since change pl)
     end)%W.

Fixpoint visit_all (w : WorkspaceAccess) (token : Token) (composed : list Composed) (pl : Planner) :
    Io Planner :=
  match composed with
  | [] => ret pl
  | change :: rest => (do? pl := visit w token change pl in visit_all w token rest pl)%W
  end.

Definition no_counts : RevertCounts :=
  {| n_create := 0; n_replace := 0; n_delete := 0; n_unchanged := 0; n_conflicts := 0;
     n_created := 0 |}.

(** What [plan] makes of the planner once every path is visited. *)
Definition plan_result (rid : list N) (holder : str) (dir : RevertDirection) (ss : list N)
    (stack : list (list N)) (pl : Planner) : Result RevertPlan SnapshotError :=
  (let conflicts := sort_by cf_path (conflicts pl) in
   let? directories := collect_ok workspace_path (sort_by id (elements (created pl))) in
   let? pid := identifier rid in
   let? pholder := holder_of holder in
   let? shown_conflicts := collect_ok (fun c =>
     match workspace_path (cf_path c) with
     | Ok p => Ok {| cf_path := p; cf_kind := cf_kind c; cf_reason := cf_reason c |}
     | Err e => Err e
     end) (take MAX_REVERT_PREVIEW_PATHS conflicts) in
   let cs := counts pl in
   Ok {| pl_id := rid; pl_holder := holder; pl_direction := dir; pl_seqs := ss; pl_stack := stack;
         pl_changes := planned_changes pl; pl_created := directories;
         pl_conflicts := length conflicts;
         pl_preview :=
           {| pv_id := pid; pv_holder := pholder; pv_direction := dir;
              pv_records := count (length ss);
              pv_counts := {| n_create := n_create cs; n_replace := n_replace cs;
                              n_delete := n_delete cs; n_unchanged := n_unchanged cs;
                              n_conflicts := count (length conflicts);
                              n_created := count (length (elements (created pl))) |};
              pv_planned := planned pl; pv_conflicts := shown_conflicts;
              pv_created := take MAX_REVERT_PREVIEW_PATHS directories |} |})%W.

Definition new_planner (conflicts0 : list PathConflict) : Planner :=
  {| directories := ∅; created := ∅; planned_changes := []; counts := no_counts; planned := [];
     conflicts := conflicts0 |}.

Definition plan (rid : list N) (holder : str) (dir : RevertDirection) (ss : list N)
    (stack : list (list N)) (recs : list StoredRecord) (token : Token) : Io RevertPlan :=
  (let '(composed, conflicts0) := compose recs dir in
   do? w := the_workspace in
   do? pl := visit_all w token composed (new_planner conflicts0) in
   lift (plan_result rid holder dir ss stack pl))%W.

(** The records [seqs] names, each held by [holder]; and those a pending revert names, which
    nothing deletes while it is pending. *)
Definition held_record (holder : str) (s : N) : Io StoredRecord :=
  (do? r := record s in
   match r with
   | Some r => if bool_decide (holder ∈ holders r) then ret r else throw NotFound
   | None => throw NotFound
   end)%W.
Definition held (holder : str) (ss : list N) : Io (list StoredRecord) := map_io (held_record holder) ss.
Definition named (ss : list N) : Io (list StoredRecord) := map_io listed_record ss.

(** ** Journals *)

Definition clear_journal (holder : str) (j : StoredJournal) : Io bool :=
  if bool_decide (j_holder j = holder)
  then (do? p := lift (journal_path (revert_id j)) in remove p)%W
  else ret false.

Definition clear_stack (holder : str) : Io unit :=
  (do? js := journals in
   do? removed := map_io (clear_journal holder) js in
   if existsb id removed then sync REVERTS else ret tt)%W.

(** An unrevert that completed undid its holder's whole stack, which is then gone. *)
Definition settled (j : StoredJournal) : Io unit :=
  if bool_decide (direction j = Unrevert) && bool_decide (j_state j = Completed)
  then clear_stack (j_holder j) else ret tt.

(** Recomputes an interrupted revert from its records and the live workspace. *)
Definition reconciled (j : StoredJournal) (replanned : Result RevertPlan SnapshotError) :
    StoredJournal :=
  match replanned with
  | Ok pl =>
      if pl_conflicts pl =? 0
      then set_state (if bool_decide (length (pl_changes pl) = 0) then Completed else Partial)
             (set_applied (total_files j - length (pl_changes pl)) j)
      else set_indeterminate j
  | Err _ => set_indeterminate j
  end.
Definition reconcile (j : StoredJournal) : Io StoredJournal :=
  (do? r := attempt
     (do? recs := named (j_seqs j) in
      plan (revert_id j) (j_holder j) (direction j) (j_seqs j) [] recs Uncancelled) in
   ret (reconciled j r))%W.

Definition settle_one (j : StoredJournal) : Io unit :=
  if bool_decide (j_state j = Publishing)
  then (do? j := reconcile j in do? _ := write_journal j in settled j)%W
  else ret tt.
Definition settle : Io unit :=
  match workspace with
  | None => ret tt
  | Some _ => (do? js := journals in each_io settle_one js)%W
  end.

Definition pending (j : StoredJournal) : Result PendingRevert SnapshotError :=
  (let? pid := identifier (revert_id j) in
   let? at_ := match stopped_at j with
               | None => Ok None
               | Some p => let? p := workspace_path p in Ok (Some p)
               end in
   Ok {| pr_id := pid; pr_direction := direction j; pr_state := j_state j;
         pr_records := count (length (j_seqs j)); pr_applied := count (applied_files j);
         pr_total := count (total_files j); pr_reconciliation := reconciliation_required j;
         pr_stopped_at := at_ |})%W.

Definition status (holder : str) : Io RevertStatus :=
  (do? js := journals in
   do? h := lift (holder_of holder) in
   do? ps := lift (collect_ok pending (stack_of js holder)) in
   ret {| rs_holder := h; rs_pending := ps |})%W.

(** Every seq a pending revert names, whichever holder made it. *)
Definition reverted : Io (gset N) :=
  (do? js := journals in ret (list_to_set (concat (map j_seqs js))))%W.

(** ** Preparing *)

Definition full (js : list StoredJournal) : bool := (MAX_REVERT_JOURNALS <=? N.of_nat (length js))%N.
Definition names_some (ss : list N) (js : list StoredJournal) : bool :=
  existsb (fun j => existsb (fun s => bool_decide (s ∈ ss)) (j_seqs j)) js.

Definition prepare_revert (holder : str) (selected : list N) (token : Token) : Io RevertPlan :=
  (let ss := sorted_set (list_to_set selected) in
   if bool_decide (ss = []) then throw InvalidRequest
   else
     do? _ := settle in
     do? js := journals in
     if full js then throw (quota_error LJournals MAX_REVERT_JOURNALS)
     else if names_some ss js then throw Conflict
     else
       do? recs := held holder ss in
       do? rid := revert_id_of in
       plan rid holder Revert ss [] recs token)%W.

Definition prepare_unrevert (holder : str) (token : Token) : Io RevertPlan :=
  (do? _ := settle in
   do? js := journals in
   if full js then throw (quota_error LJournals MAX_REVERT_JOURNALS)
   else
     let stack := stack_of js holder in
     if bool_decide (length stack = 0) then throw NotFound
     else
       let ss := sorted_set (reverted_seqs stack) in
       do? recs := named ss in
       do? rid := revert_id_of in
       plan rid holder Unrevert ss (map revert_id stack) recs token)%W.

(** ** Publishing *)

Fixpoint publish_directories (w : WorkspaceAccess) (token : Token) (directories : list (list N))
    (j : StoredJournal) : Io (Publication * StoredJournal) :=
  match directories with
  | [] => ret (PComplete, j)
  | directory :: rest =>
      (do? c := is_cancelled token in
       if c : bool then ret (PRefused Cancelled, j)
       else
         do? r := in_tree (create_tree_directory (protects w) (w_umask w) directory) in
         match r with
         | Ok _ => publish_directories w token rest (set_created (S (created_directories j)) j)
         | Err e => ret (refusal e, stopped directory j)
         end)%W
  end.

(** What to publish a change over when this revert already replaced another name of its file. *)
Definition relinked (w : WorkspaceAccess) (change : PlannedChange) (replaced : list TreeStamp)
    (token : Token) : Io (Result (option Expected) Publication) :=
  match pc_expected change with
  | ExpAbsent => ret (Ok None)
  | ExpPresent planned =>
      if negb (bool_decide (planned ∈ replaced)) then ret (Ok None)
      else
        (do? live := attempt (observe w (pc_path change) token) in
         ret match live with
             | Err e => Err (PRefused e)
             | Ok (LEntry content stamp _) =>
                 if bool_decide (pc_source change = Some content) then Ok (Some (ExpPresent stamp))
                 else Err (PRefused Conflict)
             | Ok _ => Err (PRefused Conflict)
             end)%W
  end.

Definition read_object (oid : ObjectId) : Io (Result (list N) StoreError) :=
  host (fun h => (read_blob (objects h) oid, h)).

Definition publish_change (w : WorkspaceAccess) (change : PlannedChange) (expected : Expected) :
    Io (Result unit Publication) :=
  (let publish content :=
     do? r := in_tree (publish_tree_entry (protects w) uuid (w_umask w) (pc_path change) expected
                         content) in
     ret match r with Ok _ => Ok tt | Err e => Err (refusal e) end in
   match pc_target change with
   | None => publish TAbsent
   | Some target =>
       do? bytes := read_object (c_oid target) in
       match bytes with
       | Err e => ret (Err (PRefused (store_error e)))
       | Ok bytes =>
           publish match c_kind target with
                   | Symlink => TSymlink bytes
                   | kind => TFile {| yields := bytes; breaks := None |}
                       (restored_mode (replaced_mode change) (bool_decide (kind = Executable))
                          (w_umask w))
                   end
       end
   end)%W.

Fixpoint publish_changes (w : WorkspaceAccess) (token : Token) (changes : list PlannedChange)
    (replaced : list TreeStamp) (j : StoredJournal) : Io (Publication * StoredJournal) :=
  match changes with
  | [] => ret (PComplete, j)
  | change :: rest =>
      (do? c := is_cancelled token in
       if c : bool then ret (PRefused Cancelled, j)
       else
         do? reread := relinked w change replaced token in
         match reread with
         | Err publication => ret (publication, stopped (pc_path change) j)
         | Ok reread =>
             do? r := publish_change w change (default (pc_expected change) reread) in
             match r with
             | Err publication => ret (publication, stopped (pc_path change) j)
             | Ok _ =>
                 publish_changes w token rest
                   (replaced ++
                    match pc_expected change with ExpPresent stamp => [stamp] | ExpAbsent => [] end)
                   (set_applied (S (applied_files j)) j)
             end
         end)%W
  end.

Definition publish (w : WorkspaceAccess) (pl : RevertPlan) (token : Token) (j : StoredJournal) :
    Io (Publication * StoredJournal) :=
  (do? r := publish_directories w token (pl_created pl) j in
   match r with
   | (PComplete, j) => publish_changes w token (pl_changes pl) [] j
   | r => ret r
   end)%W.

(** What execution checks of a plan. *)
Definition unchanged_since (pl : RevertPlan) (js stack : list StoredJournal) : Io bool :=
  match pl_direction pl with
  | Revert =>
      (do? _ := held (pl_holder pl) (pl_seqs pl) in
       ret (negb (names_some (pl_seqs pl) js)))%W
  | Unrevert => ret (bool_decide (map revert_id stack = pl_stack pl))
  end.

Definition first_journal (pl : RevertPlan) (stack : list StoredJournal) : StoredJournal :=
  let j :=
    StoredJournal_new (pl_id pl) (pl_holder pl)
      match last stack with None => 0 | Some j => u64_sat_add (order j) 1 end (pl_direction pl)
      (pl_seqs pl) (length (pl_changes pl)) (length (pl_created pl)) in
  if bool_decide (length (pl_changes pl) = 0) && bool_decide (length (pl_created pl) = 0)
  then set_state Completed j else j.

Definition execute_revert (pl : RevertPlan) (token : Token) : Io RevertStatus :=
  (do? w := the_workspace in
   do? _ := settle in
   do? js := journals in
   let stack := stack_of js (pl_holder pl) in
   do? unchanged := unchanged_since pl js stack in
   if negb unchanged || (0 <? pl_conflicts pl) then throw Conflict
   else if full js then throw (quota_error LJournals MAX_REVERT_JOURNALS)
   else
     let j := first_journal pl stack in
     do? _ := write_journal j in
     do? j := if bool_decide (j_state j = Publishing) then
                do? r := publish w pl token j in
                match r with
                | (PComplete, j) =>
                    let j := set_state Completed j in do? _ := write_journal j in ret j
                | (PRefused e, j) =>
                    if (applied_files j =? 0) && (created_directories j =? 0) then
                      do? p := lift (journal_path (revert_id j)) in
                      do? _ := remove p in
                      do? _ := sync REVERTS in
                      throw e
                    else
                      let j := set_state Partial j in do? _ := write_journal j in ret j
                | (PUncertain, j) =>
                    let j := set_indeterminate j in do? _ := write_journal j in ret j
                end
              else ret j in
     do? _ := settled j in
     status (pl_holder pl))%W.

(** ** Acknowledging *)

Definition remove_record (s : N) : Io bool := remove (record_path s).

Definition forget_records (deleted : N) : Io unit :=
  if (0 <? deleted)%N then
    (do? _ := sync RECORDS in
     do? st := state in
     write_state {| next_seq := next_seq st; st_bytes := st_bytes st;
                    st_records := st_records st - deleted |})%W
  else ret tt.

Definition acknowledge (holder : str) : Io RevertStatus :=
  (do? _ := settle in
   do? js := journals in
   let stack := stack_of js holder in
   do? removed := map_io remove_record (sorted_set (reverted_seqs stack)) in
   do? _ := forget_records (N.of_nat (length (filter (λ b, b = true) removed))) in
   do? _ := clear_stack holder in
   status holder)%W.

(** ** What each step leaves alone *)

Lemma within_on_file {A} (m : TreeIo A) (v : Tree → Result A TreeError) may :
  (∀ t, observes t m (v t) may) → within reading (on_file m).
Proof.
  intros Hm. unfold on_file. apply within_bind; [apply _|by eapply within_observes|].
  intros r. within_go.
Qed.

Lemma within_file_metadata ino : within reading (on_file (file_metadata ino)).
Proof.
  apply (within_on_file _ (λ t, match inodes t !! ino with Some n => Ok n
    | None => Err (TreeFailed OtherIo) end) (λ _, True)).
  intros t. unfold file_metadata.
  by apply (observes_sys t _ (λ t, match inodes t !! ino with Some n => Ok n
    | None => Err (TreeFailed OtherIo) end)).
Qed.

Definition content_of (t : Tree) (ino maximum : N) : list N :=
  match inodes t !! ino with
  | Some {| i_kind := KFile bytes |} => take (N.to_nat (maximum + 1)) bytes
  | _ => []
  end.

Lemma within_file_content ino maximum : within reading (on_file (file_content ino maximum)).
Proof.
  apply (within_on_file _ (λ t, Ok (content_of t ino maximum)) (λ _, True)).
  intros t. by apply (observes_sys t _ (λ t, Ok (content_of t ino maximum))).
Qed.

Lemma within_observe_entry w path : within reading (in_tree (observe_tree_entry (protects w) path)).
Proof. eapply within_observes. intros t. apply observe_tree_entry_observes. Qed.

#[local] Hint Resolve within_file_metadata within_file_content within_observe_entry : within.

Lemma within_read_stable ino maximum token : within reading (read_stable ino maximum token).
Proof.
  unfold read_stable. generalize STABLE_READ_ATTEMPTS as n. induction n as [|n IH]; simpl; within_go.
Qed.
#[local] Hint Resolve within_read_stable : within.

Lemma within_observe w path token : within reading (observe w path token).
Proof. unfold observe. within_go. Qed.
Lemma within_observe_directory w path : within reading (observe_directory w path).
Proof. unfold observe_directory. within_go. Qed.
#[local] Hint Resolve within_observe within_observe_directory : within.

Lemma within_parents_ready w missing l pl : within reading (parents_ready w missing l pl).
Proof.
  revert missing pl. induction l as [|a l IH]; intros missing pl; simpl; within_go.
Qed.
#[local] Hint Resolve within_parents_ready : within.

Lemma within_visit w token c pl : within reading (visit w token c pl).
Proof. unfold visit. within_go. Qed.
#[local] Hint Resolve within_visit : within.

Lemma within_visit_all w token l pl : within reading (visit_all w token l pl).
Proof. revert pl. induction l as [|c l IH]; intros pl; simpl; within_go. Qed.
#[local] Hint Resolve within_visit_all : within.

Lemma within_the_workspace : within reading the_workspace.
Proof. unfold the_workspace. within_go. Qed.
#[local] Hint Resolve within_the_workspace : within.

Lemma within_plan rid holder dir ss stack recs token :
  within reading (plan rid holder dir ss stack recs token).
Proof. unfold plan. within_go. Qed.
Lemma within_held holder ss : within reading (held holder ss).
Proof. unfold held, held_record. within_go. Qed.
Lemma within_named ss : within reading (named ss).
Proof. unfold named. within_go. Qed.
#[local] Hint Resolve within_plan within_held within_named : within.

Lemma within_status holder : within reading (status holder).
Proof. unfold status. within_go. Qed.
Lemma within_clear_stack holder : within aside (clear_stack holder).
Proof. unfold clear_stack, clear_journal. within_go. Qed.
#[local] Hint Resolve within_status within_clear_stack : within.
Lemma within_settled j : within aside (settled j).
Proof. unfold settled. within_go. Qed.
#[local] Hint Resolve within_settled : within.
Lemma within_settle : within aside settle.
Proof. unfold settle, settle_one, reconcile. within_go. Qed.

End reverts.
