(* ===== verification/RevertPlans.v ===== *)
(** * What a revert plans

    Without failures a plan is a function of the tree ([plan_of]), which sorts the composed
    paths into those that already hold what the revert would write, those that hold what the
    records left, and conflicts.  Whatever fails, a change that is planned was there to plan. *)

From stdpp Require Import gmap sorting.
From S2P Require Import Prelude Utf8 Effects ObjectStore SnapshotTree Records Recording.
From S2P Require Import Worktree ChangeStore StoreReads Reverts.

(** ** Paths and what is above them *)

Lemma elem_of_slash_prefixes done path a :
  a ∈ slash_prefixes done path ↔ ∃ x y, path = x ++ SLASH :: y ∧ a = reverse done ++ x.
Proof.
  revert done. induction path as [|c path IH]; intros done; simpl.
  { split; [by intros ?%elem_of_nil|]. by intros ([|??] & ? & ? & _). }
  rewrite elem_of_app, IH. split.
  - intros [Ha|(x & y & -> & ->)].
    + destruct (N.eqb_spec c SLASH) as [->|]; [|by apply elem_of_nil in Ha].
      apply list_elem_of_singleton in Ha as ->. exists [], path. by rewrite app_nil_r.
    + exists (c :: x), y. split; [done|]. by rewrite reverse_cons, <- app_assoc.
  - intros ([|c' x] & y & [= -> ->] & ->).
    + left. rewrite N.eqb_refl, app_nil_r. by left.
    + right. exists x, y. split; [done|]. by rewrite reverse_cons, <- app_assoc.
Qed.

(** [a] is above [p]. *)
Definition above (a p : list N) : Prop := ∃ y, p = a ++ SLASH :: y.

Lemma slash_prefixes_above p a : a ∈ slash_prefixes [] p ↔ above a p.
Proof.
  rewrite elem_of_slash_prefixes. split.
  - intros (x & y & -> & ->). by exists y.
  - intros [y ->]. by exists a, y.
Qed.

Lemma split_on_app_any c a b : split_on c (a ++ c :: b) = split_on c a ++ split_on c b.
Proof.
  induction a as [|d a IH]; simpl; [by rewrite N.eqb_refl|].
  destruct (d =? c)%N; [by rewrite IH|]. rewrite IH.
  pose proof (split_on_nonempty c a). by destruct (split_on c a).
Qed.

Lemma valid_path_above a p : valid_path p = true → above a p → valid_path a = true.
Proof.
  unfold valid_path, WorkspacePath_new, validate_text. intros H [y ->].
  apply andb_true_iff in H as [Hnew Hcomp]. rewrite split_on_app_any, forallb_app in Hcomp.
  apply andb_true_iff in Hcomp as [Hca _]. apply andb_true_iff. split; [|done].
  destruct (decide (a = [])) as [->|Hne]; [done|].
  rewrite (bool_decide_false (a = [])) by done.
  rewrite bool_decide_false in Hnew by (by destruct a). simpl in *.
  destruct (Nat.ltb_spec MAX_WORKSPACE_PATH_BYTES (length (a ++ SLASH :: y))) as [|Hlen]; [done|].
  rewrite length_app in Hlen. destruct (Nat.ltb_spec MAX_WORKSPACE_PATH_BYTES (length a)); [lia|].
  destruct (contains_char 0%N (a ++ SLASH :: y)) eqn:E0; [done|].
  assert (∀ c, contains_char c (a ++ SLASH :: y) = false → contains_char c a = false) as Hsub.
  { intros c Hc. apply not_true_iff_false. intros Ht. apply not_true_iff_false in Hc. apply Hc.
    rewrite contains_char_spec in *. apply elem_of_app. by left. }
  rewrite (Hsub _ E0). cbn [negb andb is_ok result_bind] in *.
  destruct (starts_with [SLASH] (a ++ SLASH :: y)) eqn:Es; [done|].
  destruct (contains_char BACKSLASH (a ++ SLASH :: y)) eqn:Eb; [done|].
  rewrite (Hsub _ Eb). replace (starts_with [SLASH] a) with false; [done|].
  symmetry. apply not_true_iff_false. intros Hs%starts_with_one. apply not_true_iff_false in Es.
  apply Es, starts_with_one. by destruct a.
Qed.

Lemma valid_path_workspace p : valid_path p = true → workspace_path p = Ok p.
Proof.
  unfold valid_path, workspace_path, WorkspacePath_new. intros [H _]%andb_true_iff.
  destruct (validate_text _ _ _ _); simpl in *; [|done].
  by destruct (starts_with _ _ || contains_char _ _).
Qed.

Section plans.
Context `{GL : GitLib} `{JL : JsonLib}.
Context (uuid : N → list N) (workspace : option WorkspaceAccess).

(** ** What is there *)

Definition entry_of (kind : EntryKind) (bytes : list N) (stamp : TreeStamp) (mode : option N) : Live :=
  match blob_id bytes with
  | Ok oid => LEntry {| c_kind := kind; c_oid := oid |} stamp mode
  | Err _ => LOther
  end.

Definition live_at (w : WorkspaceAccess) (t : Tree) (path : list N) : Live :=
  match observed (protects w) t path with
  | Ok ObsAbsent => LAbsent
  | Ok (ObsFile ino n) =>
      if (MAX_SNAPSHOT_FILE_BYTES <? size_of (i_kind n))%N then LOther
      else match i_kind n with
           | KFile bytes => entry_of (file_kind n) bytes (stamp_of ino n) (Some (permission_bits n))
           | _ => LOther
           end
  | Ok (ObsSymlink target stamp) => entry_of Symlink target stamp None
  | _ => LOther
  end.

Lemma looks_on_file {A} h (m : TreeIo A) v may (a : A) :
  observes (tree h) m v may → v = Ok a →
  looks h (on_file m) (λ r, r = Ok a ∨ a_failure r ∧ ¬ is_ok r) (Ok a).
Proof.
  intros Hm ->. unfold on_file. eapply looks_bind; [by apply looks_observes| |].
  - intros h' r Hr [[= ->]|(e & [= ->] & _)].
    + exists (Ok a). split; [apply looks_ret; by left|done].
    + exists (Err OperationFailed). split; [|by intros [=]].
      apply looks_throw. right. split; [by right|by intros []].
  - intros e [?|(? & ? & _)]; done.
Qed.

Lemma observed_file t protects path ino n :
  observed protects t path = Ok (ObsFile ino n) →
  inodes t !! ino = Some n ∧ Worktree.names t !! path = Some ino ∧ ∃ bytes, i_kind n = KFile bytes.
Proof.
  unfold observed. destruct (parent_of protects t path) as [[[d m]|]|]; [|done..].
  unfold observed_at, node_at. destruct (Worktree.names t !! path) as [i|] eqn:En; [|done]. simpl.
  destruct (inodes t !! i) as [x|] eqn:Ex; [|done]. simpl.
  destruct (i_kind x) eqn:Ek; [|done..]. intros [= -> ->]. split_and!; [done..|by eexists].
Qed.

(** What reading a file comes to. *)
Definition stability_of (n : Inode) : Stability :=
  if (MAX_SNAPSHOT_FILE_BYTES <? size_of (i_kind n))%N then Oversized_
  else match i_kind n with KFile bytes => Stable bytes n | _ => Unstable_ end.

Lemma looks_read_stable h ino n bytes token :
  inodes (tree h) !! ino = Some n → i_kind n = KFile bytes →
  looks h (read_stable ino MAX_SNAPSHOT_FILE_BYTES token)
    (λ r, r = Ok (stability_of n) ∨ a_failure r ∧ ¬ is_ok r) (Ok (stability_of n)).
Proof.
  intros Hn Hk. unfold read_stable. set (attempts := STABLE_READ_ATTEMPTS).
  assert (∃ k, attempts = S k) as [k ->] by (by eexists). simpl.
  assert (∀ h', reading h h' → inodes (tree h') !! ino = Some n) as Hsame.
  { intros h' [[[fl ->] _] _]. done. }
  assert (∀ h', reading h h' →
    looks h' (on_file (file_metadata ino)) (λ r, r = Ok n ∨ a_failure r ∧ ¬ is_ok r) (Ok n)) as Hmeta.
  { intros h' Hr. eapply (looks_on_file h' _ (match inodes (tree h') !! ino with Some n => Ok n
      | None => Err (TreeFailed OtherIo) end) (λ _, True)); [|by rewrite Hsame].
    by apply (observes_sys _ _ (λ t, match inodes t !! ino with Some n => Ok n
      | None => Err (TreeFailed OtherIo) end)). }
  assert (∀ h', reading h h' →
    looks h' (on_file (file_content ino MAX_SNAPSHOT_FILE_BYTES))
      (λ r, r = Ok (take (N.to_nat (MAX_SNAPSHOT_FILE_BYTES + 1)) bytes) ∨ a_failure r ∧ ¬ is_ok r)
      (Ok (take (N.to_nat (MAX_SNAPSHOT_FILE_BYTES + 1)) bytes))) as Hcont.
  { intros h' Hr. eapply (looks_on_file h' _ (Ok (content_of (tree h') ino MAX_SNAPSHOT_FILE_BYTES))
      (λ _, True)).
    - by apply (observes_sys _ _ (λ t, Ok (content_of t ino MAX_SNAPSHOT_FILE_BYTES))).
    - unfold content_of. rewrite Hsame by done. destruct n as [nk nm nd nc]. simpl in Hk. by rewrite Hk. }
  eapply looks_bind; [apply looks_check_cancelled| |].
  2:{ intros e He. split; [|done]. right. split; [done|by intros []]. }
  intros h1 [] Hr1 _. eexists. split; [|done].
  eapply looks_bind; [by apply Hmeta| |].
  2:{ intros e [?|[? ?]]; [done|]. split; [by right|done]. }
  intros h2 a Hr2 [[= ->]|[_ Hno]]; [|by destruct Hno]. eexists. split; [|done].
  unfold stability_of. destruct (N.ltb_spec MAX_SNAPSHOT_FILE_BYTES (size_of (i_kind n))) as [Hlt|Hle].
  { apply looks_ret. by left. }
  eapply looks_bind; [apply Hcont; by etrans| |].
  2:{ intros e [?|[? ?]]; [done|]. split; [by right|done]. }
  intros h3 a Hr3 [[= ->]|[_ Hno]]; [|by destruct Hno]. eexists. split; [|done].
  eapply looks_bind; [apply Hmeta; etrans; [done|]; by etrans| |].
  2:{ intros e [?|[? ?]]; [done|]. split; [by right|done]. }
  intros h4 a Hr4 [[= ->]|[_ Hno]]; [|by destruct Hno]. eexists. split; [|done].
  rewrite bool_decide_true by done. rewrite Hk in Hle |- *. unfold size_of in Hle |- *.
  rewrite take_ge by lia. rewrite N.eqb_refl. apply looks_ret. by left.
Qed.

(** An observation answers truly, or takes what it cannot reach for something else. *)
Definition seen_as (l : Live) (r : Result Live SnapshotError) : Prop :=
  match r with Ok l' => l' = l ∨ l' = LOther | Err e => e = Cancelled ∨ e = OperationFailed end.

Lemma looks_observe h w path token :
  looks h (observe w path token) (seen_as (live_at w (tree h) path)) (Ok (live_at w (tree h) path)).
Proof.
  unfold observe. eapply looks_bind; [apply looks_observes, observe_tree_entry_observes| |].
  2:{ intros e [?|(? & ? & _)]; done. }
  intros h1 r Hr1 [[= ->]|(e & [= ->] & Hmay)].
  - unfold live_at. destruct (observed (protects w) (tree h) path) as [[|ino n|target stamp| |]|e] eqn:E.
    + eexists. split; [|done]. apply looks_ret. by left.
    + destruct (observed_file _ _ _ _ _ E) as (Hn & _ & bytes & Hk). eexists. split; [|done].
      eapply looks_bind; [eapply (looks_read_stable h1 ino n bytes token); [|done]| |].
      * by destruct Hr1 as [[[fl ->] _] _].
      * intros h2 st _ [[= ->]|[_ Hno]]; [|by destruct Hno]. eexists. split; [|done].
        unfold stability_of. rewrite Hk. destruct (_ <? _)%N; [apply looks_ret; by left|].
        unfold entry_of. destruct (blob_id bytes); apply looks_ret; by left.
      * intros e [?|[He Hno]]; [done|]. done.
    + eexists. split; [|done]. unfold entry_of. destruct (blob_id target); apply looks_ret; by left.
    + eexists. split; [|done]. apply looks_ret. by left.
    + eexists. split; [|done]. apply looks_ret. by left.
    + unfold observed in E. destruct (parent_of (protects w) (tree h) path) as [[[??]|]|e'] eqn:Ep; try done.
      injection E as ->. destruct (parent_of_error _ _ _ _ Ep) as [->| ->];
        (eexists; split; [|done]); apply looks_ret; by left.
  - destruct Hmay as [->|[k ->]].
    + eexists. split; [apply looks_ret; by right|]. intros [= E]. unfold live_at. by rewrite E.
    + eexists. split; [apply looks_throw; by right|]. intros [= E]. exfalso. unfold observed in E.
      destruct (parent_of (protects w) (tree h) path) as [[[??]|]|e'] eqn:Ep; try done.
      injection E as ->. by destruct (parent_of_error _ _ _ _ Ep).
Qed.

(** ** Planning *)

Definition dir_at (w : WorkspaceAccess) (t : Tree) (path : list N) : Directory :=
  match observed (protects w) t path with
  | Ok ObsDirectory => Present
  | Ok ObsAbsent => Missing_
  | _ => Blocked_
  end.

Fixpoint parents_of (w : WorkspaceAccess) (t : Tree) (missing : bool) (ancestors : list (list N))
    (pl : Planner) : bool * Planner :=
  match ancestors with
  | [] => (true, pl)
  | ancestor :: rest =>
      let d := match directories pl !! ancestor with
               | Some d => d
               | None => if missing then Missing_ else dir_at w t ancestor
               end in
      let pl := note_directory ancestor d pl in
      match d with
      | Present => parents_of w t missing rest pl
      | Missing_ => parents_of w t true rest pl
      | Blocked_ => (false, pl)
      end
  end.

Definition expected_of (live : Live) : Expected * option N :=
  match live with LEntry _ stamp mode => (ExpPresent stamp, mode) | _ => (ExpAbsent, None) end.

Definition visit_of (w : WorkspaceAccess) (t : Tree) (change : Composed) (pl : Planner) : Planner :=
  let live := live_at w t (cp_path change) in
  if live_matches live (cp_target change) then count_unchanged pl
  else if live_matches live (cp_source change) then
    let '(expected, mode) := expected_of live in
    let '(ready, pl) :=
      match cp_target change with
      | Some _ => parents_of w t false (slash_prefixes [] (cp_path change)) pl
      | None => (true, pl)
      end in
    if ready : bool then plan_change change expected mode pl else changed_since change pl
  else changed_since change pl.

Definition visits_of (w : WorkspaceAccess) (t : Tree) (composed : list Composed) (pl : Planner) :
    Planner := foldl (λ pl c, visit_of w t c pl) pl composed.

(** The plan without failures. *)
Definition plan_of (w : WorkspaceAccess) (t : Tree) (rid : list N) (holder : str)
    (dir : RevertDirection) (ss : list N) (stack : list (list N)) (recs : list StoredRecord) :
    Result RevertPlan SnapshotError :=
  let '(composed, conflicts0) := compose recs dir in
  plan_result rid holder dir ss stack (visits_of w t composed (new_planner conflicts0)).

(** The same but for what is known of directories. *)
Definition same_changes (ancestors : list (list N)) (pl pl' : Planner) : Prop :=
  planned_changes pl' = planned_changes pl ∧ conflicts pl' = conflicts pl ∧
  created pl' ⊆ created pl ∪ list_to_set ancestors.

Lemma looks_observe_directory h w path :
  workspace_path path = Ok path →
  looks h (observe_directory w path) (λ _, True) (Ok (dir_at w (tree h) path)).
Proof.
  intros Hp. unfold observe_directory. rewrite Hp.
  eapply looks_bind; [by apply (looks_lift _ _ (λ r, r = Ok path))| |done].
  intros h1 a Hr1 [= ->]. eexists. split; [|done].
  eapply looks_bind; [apply looks_observes, observe_tree_entry_observes| |].
  2:{ intros e [?|(? & ? & _)]; done. }
  assert (observed (protects w) (tree h1) path = observed (protects w) (tree h) path) as Ho.
  { destruct Hr1 as [[[fl ->] _] _]. unfold observed, parent_of.
    destruct (protects w path); [done|]. by rewrite parent_from_faults. }
  unfold dir_at. rewrite <- Ho. intros h2 r _ _.
  exists match r with
         | Ok ObsDirectory => Ok Present
         | Ok ObsAbsent => Ok Missing_
         | Ok _ | Err TreeBlocked | Err TreeProtected => Ok Blocked_
         | Err e => Err (tree_error e)
         end.
  split; [destruct r as [[]|[]]; by first [apply looks_ret|apply looks_throw]|].
  intros [= <-]. destruct (observed _ _ path) as [[]|e] eqn:E; try done.
  unfold observed in E. destruct (parent_of (protects w) (tree h1) path) as [[[??]|]|e'] eqn:Ep; try done.
  injection E as ->. by destruct (parent_of_error _ _ _ _ Ep) as [->| ->].
Qed.

Lemma looks_same_tree {A} h h' (m : Io A) Q (v : Tree → Result A SnapshotError) :
  reading h h' → (∀ fl, v (with_tree_faults fl (tree h)) = v (tree h)) →
  looks h' m Q (v (tree h')) → looks h' m Q (v (tree h)).
Proof. intros [[[fl E] _] _] Hv Hm. rewrite E, Hv in Hm. done. Qed.

Lemma observed_faults protects fl t path :
  observed protects (with_tree_faults fl t) path = observed protects t path.
Proof.
  unfold observed, parent_of. destruct (protects path); [done|]. by rewrite parent_from_faults.
Qed.

Lemma live_at_faults w fl t path : live_at w (with_tree_faults fl t) path = live_at w t path.
Proof. unfold live_at. by rewrite observed_faults. Qed.
Lemma dir_at_faults w fl t path : dir_at w (with_tree_faults fl t) path = dir_at w t path.
Proof. unfold dir_at. by rewrite observed_faults. Qed.
Lemma parents_of_faults w fl t missing l pl :
  parents_of w (with_tree_faults fl t) missing l pl = parents_of w t missing l pl.
Proof.
  revert missing pl. induction l as [|a l IH]; intros missing pl; [done|]. cbn [parents_of].
  rewrite dir_at_faults. destruct (match directories pl !! a with Some d => d
    | None => if missing then Missing_ else dir_at w t a end); auto.
Qed.
Lemma visit_of_faults w fl t c pl : visit_of w (with_tree_faults fl t) c pl = visit_of w t c pl.
Proof. unfold visit_of. rewrite live_at_faults. by destruct (cp_target c); rewrite ?parents_of_faults. Qed.
Lemma visits_of_faults w fl t cs pl : visits_of w (with_tree_faults fl t) cs pl = visits_of w t cs pl.
Proof.
  unfold visits_of. revert pl. induction cs as [|c cs IH]; intros pl; [done|]. simpl.
  by rewrite visit_of_faults, IH.
Qed.

Lemma looks_parents_ready h w missing l pl :
  Forall (λ a, workspace_path a = Ok a) l →
  looks h (parents_ready w missing l pl)
    (λ r, match r with Ok (_, pl') => same_changes l pl pl' | Err _ => True end)
    (Ok (parents_of w (tree h) missing l pl)).
Proof.
  revert h missing pl. induction l as [|a l IH]; intros h missing pl Hl; simpl.
  { apply looks_ret. split_and!; [done..|set_solver]. }
  apply Forall_cons in Hl as [Ha Hl].
  set (d := match directories pl !! a with Some d => d | None => _ end).
  eapply (looks_bind _ _ _ (λ _, True) (Ok d)); [|intros h1 d1 Hr1 _|done].
  { subst d. destruct (directories pl !! a) as [d|]; [by apply looks_ret|].
    destruct missing; [by apply looks_ret|by apply looks_observe_directory]. }
  assert (∀ pl', same_changes l (note_directory a d1 pl) pl' →
    same_changes (a :: l) pl pl') as Hsame.
  { intros pl' (H1 & H2 & H3). split_and!; [done..|]. simpl in *. destruct d1; set_solver. }
  exists (Ok match d1 with
             | Present => parents_of w (tree h1) missing l (note_directory a d1 pl)
             | Missing_ => parents_of w (tree h1) true l (note_directory a d1 pl)
             | Blocked_ => (false, note_directory a d1 pl)
             end). split.
  - destruct d1.
    + eapply looks_mono; [by apply IH| |done]. intros [[b pl']|]; [|done]. by apply Hsame.
    + eapply looks_mono; [by apply IH| |done]. intros [[b pl']|]; [|done]. by apply Hsame.
    + apply looks_ret. apply Hsame. split_and!; [done..|set_solver].
  - intros [= <-]. destruct Hr1 as [[[fl ->] _] _]. by rewrite !parents_of_faults.
Qed.

(** A change is planned only for a path that holds what the records left, not what the
    revert would write. *)
Record planned_for (w : WorkspaceAccess) (t : Tree) (c : Composed) (ch : PlannedChange) : Prop := {
  pf_path : pc_path ch = cp_path c;
  pf_source : pc_source ch = cp_source c;
  pf_target : pc_target ch = cp_target c;
  pf_source_there : live_matches (live_at w t (cp_path c)) (cp_source c) = true;
  pf_target_not : live_matches (live_at w t (cp_path c)) (cp_target c) = false;
  pf_expected : (pc_expected ch, replaced_mode ch) = expected_of (live_at w t (cp_path c));
}.

(** The conflict of a path that neither holds what the records left nor can be written. *)
Definition since_of (c : Composed) : PathConflict :=
  {| cf_path := cp_path c; cf_kind := ChangedSince; cf_reason := None |}.

(** No composed path is passed over: what the revert would write is there, or it is planned, or
    it is a conflict. *)
Definition visited (w : WorkspaceAccess) (t : Tree) (c : Composed) (changes : list PlannedChange)
    (cfs : list PathConflict) : Prop :=
  live_matches (live_at w t (cp_path c)) (cp_target c) = true ∨
  (∃ ch, ch ∈ changes ∧ planned_for w t c ch) ∨ since_of c ∈ cfs.

Lemma visited_mono w t c l l' k k' : l ⊆ l' → k ⊆ k' → visited w t c l k → visited w t c l' k'.
Proof. intros H1 H2 [?|[(ch & ? & ?)|?]]; [by left|right; left; eauto|right; right; auto]. Qed.

(** What a plan has after some of the composed paths, over the conflicts it began with: each is
    planned or a conflict at most once, and not both. *)
Record planning (w : WorkspaceAccess) (t : Tree) (cfs : list PathConflict) (cs : list Composed)
    (pl : Planner) : Prop := {
  pg_changes : ∀ ch, ch ∈ planned_changes pl → ∃ c, c ∈ cs ∧ planned_for w t c ch;
  pg_paths : sublist (map pc_path (planned_changes pl)) (map cp_path cs);
  pg_created : ∀ d, d ∈ created pl → ∃ c, c ∈ cs ∧ is_Some (cp_target c) ∧ above d (cp_path c);
  pg_all : ∀ c, c ∈ cs → visited w t c (planned_changes pl) (conflicts pl);
  pg_since : ∃ since, conflicts pl = cfs ++ map since_of since ∧ since ⊆ cs ∧
    map pc_path (planned_changes pl) ++ map cp_path since ⊆+ map cp_path cs;
}.

(** The directories one more path may add to those to create. *)
Definition may_create (c : Composed) : gset (list N) :=
  match cp_target c with Some _ => list_to_set (slash_prefixes [] (cp_path c)) | None => ∅ end.

Lemma planning_created cs c (d : list N) :
  (∃ x, x ∈ cs ∧ is_Some (cp_target x) ∧ above d (cp_path x)) ∨ d ∈ may_create c →
  ∃ x, x ∈ cs ++ [c] ∧ is_Some (cp_target x) ∧ above d (cp_path x).
Proof.
  intros [(x & ? & ? & ?)|Hd].
  - exists x. split; [|done]. apply elem_of_app. by left.
  - exists c. split; [apply elem_of_app; right; by left|]. unfold may_create in Hd.
    destruct (cp_target c); [|set_solver]. split; [by eexists|].
    apply slash_prefixes_above. by apply elem_of_list_to_set in Hd.
Qed.

Lemma planning_unchanged w t cfs cs c pl pl' :
  planning w t cfs cs pl → planned_changes pl' = planned_changes pl → conflicts pl' = conflicts pl →
  created pl' ⊆ created pl ∪ may_create c → visited w t c (planned_changes pl) (conflicts pl) →
  planning w t cfs (cs ++ [c]) pl'.
Proof.
  intros [H1 H2 H3 H4 (since & H5 & H6 & H7)] E Ecf Hc Hv. split; rewrite ?E, ?Ecf.
  - intros ch Hch. destruct (H1 ch Hch) as (x & ? & ?). exists x.
    split; [|done]. apply elem_of_app. by left.
  - rewrite map_app. by apply sublist_inserts_r.
  - intros d Hd. apply planning_created. apply Hc, elem_of_union in Hd as [Hd|Hd]; [left; auto|by right].
  - intros x [Hx|Hx%list_elem_of_singleton]%elem_of_app; [auto|by subst].
  - exists since. split_and!; [done|set_solver|]. rewrite map_app. by apply submseteq_inserts_r.
Qed.

Lemma planning_change w t cfs cs c pl pl' ch :
  planning w t cfs cs pl → planned_changes pl' = planned_changes pl ++ [ch] →
  conflicts pl' = conflicts pl → planned_for w t c ch → created pl' ⊆ created pl ∪ may_create c →
  planning w t cfs (cs ++ [c]) pl'.
Proof.
  intros [H1 H2 H3 H4 (since & H5 & H6 & H7)] E Ecf Hf Hc. split; rewrite ?E, ?Ecf.
  - intros x [Hx|Hx]%elem_of_app.
    + destruct (H1 x Hx) as (y & ? & ?). exists y. split; [|done]. apply elem_of_app. by left.
    + apply list_elem_of_singleton in Hx as ->. exists c. split; [|done]. apply elem_of_app.
      right. by left.
  - rewrite !map_app. apply sublist_app; [done|]. simpl. rewrite (pf_path _ _ _ _ Hf).
    by apply sublist_skip.
  - intros d Hd. apply planning_created. apply Hc, elem_of_union in Hd as [Hd|Hd]; [left; auto|by right].
  - intros x [Hx|Hx%list_elem_of_singleton]%elem_of_app.
    + eapply visited_mono; [|done|auto]. set_solver.
    + subst. right. left. exists ch. split; [set_solver|done].
  - exists since. split_and!; [done|set_solver|]. rewrite !map_app. cbn [map]. rewrite (pf_path _ _ _ _ Hf).
    rewrite <- (assoc_L (++)), (Permutation_app_comm [cp_path c]), (assoc_L (++)). by apply submseteq_app.
Qed.

Lemma planning_since w t cfs cs c pl pl0 :
  planning w t cfs cs pl → planned_changes pl0 = planned_changes pl → conflicts pl0 = conflicts pl →
  created pl0 ⊆ created pl ∪ may_create c → planning w t cfs (cs ++ [c]) (changed_since c pl0).
Proof.
  intros [H1 H2 H3 H4 (since & H5 & H6 & H7)] E Ecf Hc. split; simpl; rewrite ?E, ?Ecf.
  - intros ch Hch. destruct (H1 ch Hch) as (x & ? & ?). exists x.
    split; [|done]. apply elem_of_app. by left.
  - rewrite map_app. by apply sublist_inserts_r.
  - intros d Hd. apply planning_created. apply Hc, elem_of_union in Hd as [Hd|Hd]; [left; auto|by right].
  - intros x [Hx|Hx%list_elem_of_singleton]%elem_of_app.
    + eapply visited_mono; [done| |auto]. set_solver.
    + subst. right. right. apply elem_of_app. right. by left.
  - exists (since ++ [c]). split_and!; [by rewrite H5, map_app, app_assoc|set_solver|].
    rewrite !map_app, (assoc_L (++)). by apply submseteq_app.
Qed.

Lemma looks_visit h w token c pl cfs cs :
  valid_path (cp_path c) = true → planning w (tree h) cfs cs pl →
  looks h (visit w token c pl)
    (λ r, match r with Ok pl' => planning w (tree h) cfs (cs ++ [c]) pl' | Err _ => True end)
    (Ok (visit_of w (tree h) c pl)).
Proof.
  intros Hvalid Hpl. pose proof (valid_path_workspace _ Hvalid) as Hpath. unfold visit.
  eapply looks_bind; [apply looks_check_cancelled| |by intros e _].
  intros h1 [] Hr1 _. eexists. split; [|done].
  rewrite Hpath. eapply looks_bind; [by apply (looks_lift _ _ (λ r, r = Ok (cp_path c)))| |done].
  intros h2 p Hr2 [= ->]. eexists. split; [|done].
  assert (same_tree (tree h) (tree h2)) as [fl Et].
  { destruct Hr1 as [[? _] _], Hr2 as [[? _] _]. by etrans. }
  eapply looks_bind; [apply looks_observe| |].
  2:{ intros e He. split; [done|]. intros [=]. }
  rewrite Et, live_at_faults. intros h3 l Hr3 Hseen.
  set (live := live_at w (tree h) (cp_path c)) in *.
  assert (∀ pl0, planned_changes pl0 = planned_changes pl → conflicts pl0 = conflicts pl →
    created pl0 ⊆ created pl ∪ may_create c →
    planning w (tree h) cfs (cs ++ [c]) (changed_since c pl0)) as Hchanged0.
  { intros pl0 E0 E1 Hc0. by apply (planning_since _ _ _ _ _ pl). }
  assert (planning w (tree h) cfs (cs ++ [c]) (changed_since c pl)) as Hchanged by (apply Hchanged0; [done..|set_solver]).
  simpl in Hseen. destruct Hseen as [->| ->].
  2:{ exists (Ok (changed_since c pl)). split; [by apply looks_ret|].
      intros [= E]. unfold visit_of. fold live. rewrite E. done. }
  unfold visit_of. fold live.
  destruct (live_matches live (cp_target c)) eqn:Ht.
  { eexists. split; [|done]. apply looks_ret. apply (planning_unchanged _ _ _ _ _ pl); [done..|set_solver|by left]. }
  destruct (live_matches live (cp_source c)) eqn:Hs.
  2:{ exists (Ok (changed_since c pl)). split; [|done].
      destruct live; rewrite ?Hs; by apply looks_ret. }
  assert (∀ expected mode, expected_of live = (expected, mode) →
    ∃ w', looks h3 (do? r := match cp_target c with
                       | Some _ => parents_ready w false (slash_prefixes [] (cp_path c)) pl
                       | None => ret (true, pl)
                       end in
                    let '(ready, pl) := r in
                    if ready : bool then ret (plan_change c expected mode pl)
                    else ret (changed_since c pl))%W
      (λ r, match r with Ok pl' => planning w (tree h) cfs (cs ++ [c]) pl' | Err _ => True end) w' ∧
      w' = Ok (let '(ready, pl) :=
        match cp_target c with
        | Some _ => parents_of w (tree h) false (slash_prefixes [] (cp_path c)) pl
        | None => (true, pl)
        end in
        if ready : bool then plan_change c expected mode pl else changed_since c pl)) as Hgo.
  { intros expected mode Hexp.
    assert (∀ pl0, planned_changes pl0 = planned_changes pl → conflicts pl0 = conflicts pl →
      created pl0 ⊆ created pl ∪ may_create c →
      planning w (tree h) cfs (cs ++ [c]) (plan_change c expected mode pl0)) as Hplan.
    { intros pl0 E0 E1 Hc0. eapply (planning_change _ _ _ _ _ pl); [done|simpl; by rewrite E0|done| |done].
      by split. }
    unfold may_create in Hplan, Hchanged0.
    destruct (cp_target c) as [target|].
    - eexists. split; [|done]. eapply looks_bind; [apply looks_parents_ready| |done].
      { apply Forall_forall. intros a Ha%slash_prefixes_above.
        apply valid_path_workspace. by eapply valid_path_above. }
      intros h4 [ready pl0] Hr4 (E1 & E2 & E3). destruct ready; (eexists; split; [by apply looks_ret; auto|]);
        (intros [= E]; destruct Hr3 as [[[fl3 E3'] _] _]; rewrite E3', Et, !parents_of_faults in E;
         by rewrite E).
    - eexists. split; [|done]. eapply looks_bind; [by apply (looks_ret _ _ (λ r, r = Ok (true, pl)))| |done].
      intros h4 r _ [= ->]. eexists. split; [|done]. apply looks_ret. apply Hplan; [done..|set_solver]. }
  destruct live as [|content stamp mode|] eqn:El; [| |done].
  - rewrite Hs. destruct (Hgo ExpAbsent None eq_refl) as (w' & Hl & ->). eexists. split; [exact Hl|done].
  - rewrite Hs. destruct (Hgo (ExpPresent stamp) mode eq_refl) as (w' & Hl & ->).
    eexists. split; [exact Hl|done].
Qed.

Lemma planned_for_faults w fl t c ch :
  planned_for w (with_tree_faults fl t) c ch ↔ planned_for w t c ch.
Proof.
  split; (intros [A1 A2 A3 H1 H2 H3]; rewrite ?live_at_faults in H1, H2, H3; split;
    by rewrite ?live_at_faults).
Qed.

Lemma visited_faults w fl t c l k : visited w (with_tree_faults fl t) c l k ↔ visited w t c l k.
Proof.
  pose proof (planned_for_faults w fl t) as Hp. unfold visited. rewrite live_at_faults. split;
    (intros [?|[(ch & ? & Hf)|?]]; [by left|right; left; exists ch; split; [done|by apply Hp]|by right; right]).
Qed.

Lemma planning_faults w fl t cfs cs pl :
  planning w (with_tree_faults fl t) cfs cs pl ↔ planning w t cfs cs pl.
Proof.
  pose proof (planned_for_faults w fl t) as Hp.
  pose proof (visited_faults w fl t) as Hv.
  split; (intros [H1 H2 H3 H4 H5]; split; [|done|done| |done]);
    solve [intros ch Hch; destruct (H1 ch Hch) as (x & ? & ?); exists x; split; [done|by apply Hp]
          |intros c Hc; by apply Hv, H4].
Qed.

Lemma looks_visit_all h w token rest pl cfs cs :
  Forall (λ c, valid_path (cp_path c) = true) rest → planning w (tree h) cfs cs pl →
  looks h (visit_all w token rest pl)
    (λ r, match r with Ok pl' => planning w (tree h) cfs (cs ++ rest) pl' | Err _ => True end)
    (Ok (visits_of w (tree h) rest pl)).
Proof.
  revert h pl cs. induction rest as [|c rest IH]; intros h pl cs Hvalid Hpl; simpl.
  { rewrite app_nil_r. by apply looks_ret. }
  apply Forall_cons in Hvalid as [Hc Hvalid].
  eapply looks_bind; [by apply looks_visit|intros h1 pl1 Hr1 Hpl1|done].
  destruct Hr1 as [[[fl E] _] _].
  assert (planning w (tree h1) cfs (cs ++ [c]) pl1) as Hpl1'.
  { rewrite E. by apply planning_faults. }
  eexists. split.
  - eapply looks_mono; [by apply IH| |done]. rewrite E. intros [pl'|]; [|done].
    rewrite <- app_assoc. by rewrite planning_faults.
  - intros [= <-]. by rewrite E, visits_of_faults.
Qed.

(** What a path went through in the records, from one end to the other, when they tell: the change
    that undoes it, or does it again. *)
Definition net_change (recs : list StoredRecord) (dir : RevertDirection) (c : Composed) : Prop :=
  let h := edges (cp_path c) recs in
  reason (cp_path c) recs = None ∧ linked h = true ∧
  ∃ b a, starts_at h b ∧ ends_at h a ∧ b ≠ a ∧
    (cp_source c, cp_target c) = match dir with Revert => (a, b) | Unrevert => (b, a) end.

Lemma composed_net recs dir c : c ∈ (compose recs dir).1 ↔ net_change recs dir c.
Proof.
  pose proof (compose_describes recs dir) as H. destruct (compose recs dir) as [cs cf].
  destruct H as (_ & _ & H & _), c as [p s t]. exact (H p s t).
Qed.

(** The conflicts of a plan, one for a path, in order: each path a record could not store, with
    its first reason; each whose history is broken; and of the others only such as were not
    planned.  Every path the records compose shows what the revert would write, is planned, or
    is one of them. *)
Record conflicts_of (w : WorkspaceAccess) (t : Tree) (recs : list StoredRecord) (dir : RevertDirection)
    (changes : list PlannedChange) (cfs : list PathConflict) : Prop := {
  co_sorted : StronglySorted (λ a b, bytes_lt (cf_path a) (cf_path b)) cfs;
  co_unrecorded : ∀ p x, {| cf_path := p; cf_kind := Unrecorded; cf_reason := x |} ∈ cfs ↔
    x ≠ None ∧ x = reason p recs;
  co_interleaved : ∀ p x, {| cf_path := p; cf_kind := Interleaved; cf_reason := x |} ∈ cfs ↔
    x = None ∧ reason p recs = None ∧ linked (edges p recs) = false;
  co_since : ∀ p x, {| cf_path := p; cf_kind := ChangedSince; cf_reason := x |} ∈ cfs →
    x = None ∧ p ∉ map pc_path changes ∧ ∃ c, net_change recs dir c ∧ cp_path c = p;
  co_all : ∀ c, net_change recs dir c → visited w t c changes cfs;
  co_only : ∀ ch, ch ∈ changes → ∃ c, net_change recs dir c ∧ planned_for w t c ch;
}.

(** A plan, of a tree and of records. *)
Record plan_for (w : WorkspaceAccess) (t : Tree) (rid : list N) (holder : str)
    (dir : RevertDirection) (ss : list N) (stack : list (list N)) (recs : list StoredRecord)
    (p : RevertPlan) : Prop := {
  pn_id : pl_id p = rid;
  pn_holder : pl_holder p = holder ∧ valid_holder holder = true;
  pn_direction : pl_direction p = dir;
  pn_seqs : pl_seqs p = ss;
  pn_stack : pl_stack p = stack;
  pn_changes : ∀ ch, ch ∈ pl_changes p →
    ∃ c, c ∈ (compose recs dir).1 ∧ planned_for w t c ch;
  pn_paths : sublist (map pc_path (pl_changes p)) (map cp_path (compose recs dir).1);
  pn_created : ∀ d, d ∈ pl_created p →
    ∃ c, c ∈ (compose recs dir).1 ∧ is_Some (cp_target c) ∧ above d (cp_path c);
  pn_conflicts : ∃ cfs, conflicts_of w t recs dir (pl_changes p) cfs ∧ pl_conflicts p = length cfs ∧
    pv_conflicts (pl_preview p) = take MAX_REVERT_PREVIEW_PATHS cfs;
  pn_all : pl_conflicts p = 0 → ∀ c, c ∈ (compose recs dir).1 →
    live_matches (live_at w t (cp_path c)) (cp_target c) = true ∨
    ∃ ch, ch ∈ pl_changes p ∧ planned_for w t c ch;
}.

Lemma plan_for_faults w fl t rid holder dir ss stack recs p :
  plan_for w (with_tree_faults fl t) rid holder dir ss stack recs p →
  plan_for w t rid holder dir ss stack recs p.
Proof.
  intros [? ? ? ? ? H1 ? ? H3 H2]. split; [done..| |done|done| |].
  2: { destruct H3 as (cfs & [S1 S2 S3 S4 S5 S6] & ?). exists cfs. split; [|done]. split; [done..| |].
    - intros c Hc. by apply (visited_faults w fl t), S5.
    - intros ch Hch. destruct (S6 ch Hch) as (c & ? & ?). exists c. split; [done|by apply (planned_for_faults w fl t)]. }
  - intros ch Hch. destruct (H1 ch Hch) as (c & ? & Hf). exists c.
    split; [done|by apply (planned_for_faults w fl t)].
  - intros E c Hc. destruct (H2 E c Hc) as [Hl|(ch & ? & Hf)].
    + left. by rewrite live_at_faults in Hl.
    + right. exists ch. split; [done|by apply (planned_for_faults w fl t)].
Qed.

Lemma collect_ok_id {A E} (f : A → Result A E) l l' :
  (∀ x y, f x = Ok y → y = x) → collect_ok f l = Ok l' → l' = l.
Proof.
  intros Hf. revert l'. induction l as [|x l IH]; intros l'; simpl; [by intros [= <-]|].
  destruct (f x) as [y|] eqn:E1; [|done]. simpl. destruct (collect_ok f l) as [ys|]; [|done].
  intros [= <-]. by rewrite (Hf _ _ E1), (IH ys).
Qed.

Lemma workspace_path_id x y : workspace_path x = Ok y → y = x.
Proof.
  unfold workspace_path, WorkspacePath_new. destruct (validate_text _ _ _ _); simpl; [|done].
  destruct (_ || _); [done|]. by intros [= <-].
Qed.

(** What the plan keeps of the planner. *)
Lemma plan_result_parts rid holder dir ss stack pl p :
  plan_result rid holder dir ss stack pl = Ok p →
  (pl_id p = rid ∧ pl_holder p = holder ∧ valid_holder holder = true) ∧
  (pl_direction p = dir ∧ pl_seqs p = ss ∧ pl_stack p = stack) ∧
  pl_changes p = planned_changes pl ∧ pl_conflicts p = length (conflicts pl) ∧
  pl_created p = sort_by id (elements (created pl)) ∧
  pv_conflicts (pl_preview p) = take MAX_REVERT_PREVIEW_PATHS (sort_by cf_path (conflicts pl)).
Proof.
  unfold plan_result.
  destruct (collect_ok workspace_path _) as [dirs|] eqn:Ed; [|done]. cbn [result_bind].
  destruct (identifier rid) as [pid|]; [|done]. cbn [result_bind]. unfold holder_of.
  destruct (RecordHolder_new holder) as [hn|] eqn:Eh; [|done]. cbn [result_bind].
  destruct (collect_ok _ (take _ _)) as [cs|] eqn:Ec; [|done]. cbn [result_bind]. intros [= <-].
  apply collect_ok_id in Ed; [|intros x y; apply workspace_path_id]. subst dirs.
  apply collect_ok_id in Ec.
  2: { intros x y. destruct (workspace_path _) as [q|] eqn:Eq; [|done]. intros [= <-].
    apply workspace_path_id in Eq as ->. by destruct x. }
  split_and!; simpl; try done; [unfold valid_holder; by rewrite Eh|].
  unfold sort_by. by rewrite merge_sort_Permutation.
Qed.

(** The conflicts a planner ends with are those its records have and those it found. *)
Lemma planned_conflicts w t recs dir pl :
  planning w t (compose recs dir).2 (compose recs dir).1 pl →
  conflicts_of w t recs dir (planned_changes pl) (sort_by cf_path (conflicts pl)).
Proof.
  intros [H1 _ _ H4 (since & H5 & H6 & H7)]. pose proof (compose_describes recs dir) as Hc.
  destruct (compose recs dir) as [cs cf] eqn:Ec. cbn [fst snd] in *. destruct Hc as (Hs1 & Hs2 & Hcs & Hcf).
  assert (NoDup (map pc_path (planned_changes pl) ++ map cp_path since)) as Hnd.
  { apply submseteq_Permutation in H7 as [k Hk]. pose proof (StronglySorted_NoDup_key cp_path cs Hs1) as H.
    rewrite Hk in H. by apply NoDup_app in H as [? _]. }
  apply NoDup_app in Hnd as (_ & Hdisj & Hnd).
  assert (∀ p k x, {| cf_path := p; cf_kind := k; cf_reason := x |} ∈ conflicts pl ↔
    {| cf_path := p; cf_kind := k; cf_reason := x |} ∈ cf ∨
    k = ChangedSince ∧ x = None ∧ p ∈ map cp_path since) as Hin.
  { intros p k x. rewrite H5, elem_of_app, !list_elem_of_fmap. split; (intros [?|H]; [by left|right]).
    - destruct H as (c & [= -> -> ->] & Hc). split_and!; [done..|by exists c].
    - destruct H as (-> & -> & c & -> & Hc). by exists c. }
  split.
  - apply sort_by_sorted. rewrite H5, map_app, map_map. apply NoDup_app. split_and!.
    + by apply StronglySorted_NoDup_key.
    + intros p ([q k x] & -> & Hq)%list_elem_of_fmap (c & E & Hc)%list_elem_of_fmap. cbn [cf_path] in E.
      apply H6 in Hc. destruct c as [p' s' t']. cbn [cp_path] in E. subst q. apply Hcs in Hc as (Hr & Hl & _).
      cbn in Hq. apply Hcf in Hq as [(_ & Hx & ->)|(_ & _ & _ & Hf)]; [by rewrite Hr in Hx|by rewrite Hl in Hf].
    + done.
  - intros p x. rewrite sort_by_perm, Hin, Hcf. naive_solver.
  - intros p x. rewrite sort_by_perm, Hin, Hcf. naive_solver.
  - intros p x. rewrite sort_by_perm, Hin, Hcf. intros [[[? _]|[? _]]|(_ & -> & Hp)]; [done..|].
    split_and!; [done|by intros ?%Hdisj|]. apply list_elem_of_fmap in Hp as (c & -> & Hc).
    exists c. split; [|done]. apply composed_net. rewrite Ec. by apply H6.
  - intros c Hc%composed_net. rewrite Ec in Hc.
    eapply visited_mono; [done| |by apply H4]. intros x. by rewrite sort_by_perm.
  - intros ch Hch. destruct (H1 ch Hch) as (c & Hc & ?). exists c. split; [|done]. apply composed_net. by rewrite Ec.
Qed.

Lemma plan_result_ok w t rid holder dir ss stack recs pl p :
  planning w t (compose recs dir).2 (compose recs dir).1 pl → plan_result rid holder dir ss stack pl = Ok p →
  plan_for w t rid holder dir ss stack recs p.
Proof.
  intros Hpl (Hid & Hdir & Hch & Hcf & Hcr & Hpv)%plan_result_parts.
  pose proof (planned_conflicts _ _ _ _ _ Hpl) as Hco. pose proof Hpl as [H1 H2 H3 H4 _].
  assert (length (sort_by cf_path (conflicts pl)) = length (conflicts pl)) as El.
  { apply Permutation_length, sort_by_perm. }
  split; try apply Hid; try apply Hdir; rewrite ?Hch; [done..| | |].
  - intros d Hd. apply H3. rewrite Hcr in Hd. unfold sort_by in Hd.
    by rewrite merge_sort_Permutation, elem_of_elements in Hd.
  - exists (sort_by cf_path (conflicts pl)). split_and!; [done| |done]. by rewrite Hcf, El.
  - rewrite Hcf. intros E c Hc. destruct (H4 c Hc) as [?|[?|Hcf']]; [by left|by right|].
    destruct (conflicts pl); [by apply elem_of_nil in Hcf'|done].
Qed.

Lemma looks_plan h w rid holder dir ss stack recs token :
  workspace = Some w → Forall (λ c, valid_path (cp_path c) = true) (compose recs dir).1 →
  looks h (plan workspace rid holder dir ss stack recs token)
    (λ r, ∀ p, r = Ok p → plan_for w (tree h) rid holder dir ss stack recs p)
    (plan_of w (tree h) rid holder dir ss stack recs).
Proof.
  intros Hw Hvalid. unfold plan, plan_of.
  pose proof (λ pl, plan_result_ok w (tree h) rid holder dir ss stack recs pl) as Hres.
  destruct (compose recs dir) as [composed conflicts0]. simpl in *.
  unfold the_workspace. rewrite Hw.
  eapply looks_bind; [by apply (looks_ret _ _ (λ r, r = Ok w))| |done].
  intros h1 w1 Hr1 [= ->]. eexists. split; [|done].
  destruct Hr1 as [[[fl E] _] _].
  eapply looks_bind; [apply (looks_visit_all _ _ _ _ _ conflicts0 []); [done|]| |done].
  { split; simpl; [by intros ch ?%elem_of_nil|done|set_solver|by intros c ?%elem_of_nil|].
    exists []. split_and!; [by rewrite app_nil_r|done|done]. }
  intros h2 pl Hr2 Hpl. eexists. split.
  - apply looks_lift. intros p Hp. apply (Hres pl); [|done].
    by rewrite E, planning_faults in Hpl.
  - intros [= <-]. by rewrite E, visits_of_faults.
Qed.

End plans.
