(* ===== verification/RevertPublish.v ===== *)
(** * What a revert publishes

    The publication of a plan ([publish] of [revert.rs]) from the atomicity of each of its
    entries ([Worktree.publish_tree_entry]): at every moment some first changes of the plan
    show what the revert writes and the others what they showed, and the journal counts them. *)

From stdpp Require Import gmap sorting.
From S2P Require Import Prelude Utf8 Effects ObjectStore SnapshotTree Records Recording.
From S2P Require Import Worktree ChangeStore StoreReads Reverts RevertPlans.

(** ** Moving within some paths *)

(** The files and objects stay, and of the tree only names in [S] and new inodes change. *)
Definition moves (S : list N → Prop) (h h' : Host) : Prop :=
  objects h' = objects h ∧ with_file_faults [] (files h') = with_file_faults [] (files h) ∧
  (tree_ok (tree h) → inv S (tree h) (tree h')).

#[export] Instance moves_preorder S : PreOrder (moves S).
Proof.
  split.
  - intros h. split_and!; [done..|]. apply inv_refl.
  - intros h1 h2 h3 (Ho1 & Hf1 & Hi1) (Ho2 & Hf2 & Hi2). split_and!; [congruence..|].
    intros Hok. destruct (Hi1 Hok) as [Hok2 He1]. destruct (Hi2 Hok2) as [Hok3 He2].
    split; [done|]. by eapply extends_trans.
Qed.

Lemma moves_mono (S S' : list N → Prop) h h' : (∀ q, S q → S' q) → moves S h h' → moves S' h h'.
Proof. intros HS (Ho & Hf & Hi). split_and!; [done..|]. intros Hok. eapply inv_mono; [exact HS|auto]. Qed.

Lemma moves_shown S h h' q :
  tree_ok (tree h) → moves S h h' → ¬ S q → shown (tree h') q = shown (tree h) q.
Proof. intros Hok (_ & _ & Hi) Hq. destruct (Hi Hok) as [_ He]. by eapply extends_shown. Qed.

Lemma moves_ok S h h' : tree_ok (tree h) → moves S h h' → tree_ok (tree h').
Proof. intros Hok (_ & _ & Hi). by apply Hi. Qed.

Lemma moves_evolves S h h' : tree_ok (tree h) → moves S h h' → evolves (tree h) (tree h').
Proof. intros Hok (_ & _ & Hi). by apply Hi. Qed.

Lemma reading_moves S h h' : reading h h' → moves S h h'.
Proof.
  intros [[[fl E] Ho] Hf]. split_and!; [done..|]. rewrite E. intros Hok. by apply (inv_refl S (tree h)).
Qed.

Lemma reading_objects h h' : reading h h' → objects h' = objects h.
Proof. by intros [[_ ?] _]. Qed.

Lemma shown_faults fl t q : shown (with_tree_faults fl t) q = shown t q.
Proof. done. Qed.

Lemma moves_tree S h t' : (tree_ok (tree h) → inv S (tree h) t') → moves S h (with_tree t' h).
Proof. intros Hi. split; [done|]. by split. Qed.

Section publishing.
Context `{GL : GitLib} `{JL : JsonLib}.
Context (uuid : N → list N) (w : WorkspaceAccess).

(** ** One change *)

Definition restored (ch : PlannedChange) (target : Content) (bytes : list N) : TreeContent :=
  match c_kind target with
  | Symlink => TSymlink bytes
  | kind => TFile {| yields := bytes; breaks := None |}
              (restored_mode (replaced_mode ch) (bool_decide (kind = Executable)) (w_umask w))
  end.

(** What the change writes, if its object can be read. *)
Definition wanted (o : Store) (ch : PlannedChange) : option TreeContent :=
  match pc_target ch with
  | None => Some TAbsent
  | Some target =>
      match read_blob o (c_oid target) with
      | Ok bytes => Some (restored ch target bytes)
      | Err _ => None
      end
  end.

(** What is shown is the state a record names: a file with that content and executable bit, a
    link with that target, or nothing. *)
Definition kind_of_mode (mode : N) : EntryKind :=
  if (N.land (N.land mode PERMISSION_BITS) OWNER_EXECUTABLE =? 0)%N then SnapshotTree.File
  else Executable.
Definition is_state (sh : option (NodeKind * N)) (st : PathState) : Prop :=
  match sh, st with
  | None, None => True
  | Some (KFile bytes, mode), Some c => blob_id bytes = Ok (c_oid c) ∧ c_kind c = kind_of_mode mode
  | Some (KSymlink link, _), Some c => blob_id link = Ok (c_oid c) ∧ c_kind c = Symlink
  | _, _ => False
  end.
Definition holds (t : Tree) (path : list N) (st : PathState) : Prop := is_state (shown t path) st.

(** Whatever is there when the change is published, if it is what the plan expects it holds
    what the plan saw. *)
Definition foreseen (t : Tree) (ch : PlannedChange) : Prop :=
  match pc_expected ch with
  | ExpAbsent => pc_source ch = None
  | ExpPresent stamp => ∀ t' ino n, evolves t t' → inodes t' !! ino = Some n →
      stamp_of ino n = stamp → is_state (Some (i_kind n, i_mode n)) (pc_source ch)
  end.

Lemma foreseen_evolves t t' ch : foreseen t ch → evolves t t' → foreseen t' ch.
Proof.
  unfold foreseen. destruct (pc_expected ch); [done|]. intros Hf He t2 ino n He2.
  apply Hf. by eapply evolves_trans.
Qed.

(** While this is expected only what the plan saw is replaced. *)
Definition secure (t : Tree) (ch : PlannedChange) (expected : Expected) : Prop :=
  expected_holds t (pc_path ch) expected = true → holds t (pc_path ch) (pc_source ch).

Lemma foreseen_secure t ch : foreseen t ch → secure t ch (pc_expected ch).
Proof.
  unfold foreseen, secure, holds. destruct (pc_expected ch) as [|stamp].
  - intros E He. by rewrite (expected_absent_shown _ _ He), E.
  - intros Hf He%bool_decide_eq_true_1. unfold stamp_at in He. unfold shown.
    unfold node_at in *. destruct (Worktree.names t !! pc_path ch) as [ino|]; [|done]. simpl in *.
    destruct (inodes t !! ino) as [n|] eqn:En; [|done]. simpl in *. injection He as He.
    by apply (Hf t ino n); [apply evolves_refl|..].
Qed.

Definition shows_wanted (o : Store) (t : Tree) (ch : PlannedChange) : Prop :=
  ∃ c, wanted o ch = Some c ∧ shown t (pc_path ch) = content_shown c.
Definition shows_old (t0 t : Tree) (ch : PlannedChange) : Prop :=
  shown t (pc_path ch) = shown t0 (pc_path ch).
(** What the plan saw is replaced by what it writes. *)
Definition replaced_by (o : Store) (t0 t : Tree) (ch : PlannedChange) : Prop :=
  shows_wanted o t ch ∧ holds t0 (pc_path ch) (pc_source ch).

Lemma refusal_uncertain e : refusal e = PUncertain ↔ e = TreeUnsettled.
Proof. destruct e as [| | |[]|]; naive_solver. Qed.
Lemma refusal_incomplete e : refusal e ≠ PComplete.
Proof. destruct e as [| | |[]|]; naive_solver. Qed.

(** What publishing one change comes to. *)
Definition change_made (ch : PlannedChange) (expected : Expected) (h : Host)
    (r : Result (Result unit Publication) SnapshotError) (h' : Host) : Prop :=
  moves (others uuid (pc_path ch)) h h' ∧
  match r with
  | Ok (Ok _) | Ok (Err PUncertain) =>
      replaced_by (objects h) (tree h) (tree h') ch
  | Ok (Err (PRefused _)) => shows_old (tree h) (tree h') ch
  | _ => False
  end.

(** The moments of a change: what its path shows is old or wanted. *)
Definition either (ch : PlannedChange) (h h' : Host) : Prop :=
  moves (others uuid (pc_path ch)) h h' ∧
  (shows_old (tree h) (tree h') ch ∨ replaced_by (objects h) (tree h) (tree h') ch).

Lemma wp_publish_content P ch expected c h :
  tree_ok (tree h) → ¬ scratch uuid (pc_path ch) → secure (tree h) ch expected →
  (∀ h', either ch h h' → P h') →
  wanted (objects h) ch = Some c →
  wp P (do? r := in_tree (publish_tree_entry (protects w) uuid (w_umask w) (pc_path ch) expected c) in
        ret match r with Ok _ => Ok tt | Err e => Err (refusal e) end)%W h
    (change_made ch expected h).
Proof.
  intros Hok Hsc Hsec HP Hc. apply wp_bind, wp_in_tree.
  eapply wp_mono; [apply wp_publish_tree_entry; [done..|]|intros e He; exact He|].
  - intros t' Hi Hs. apply HP. split; [by apply moves_tree|].
    destruct Hs as [Hs|[Hs He]]; [by left|right]. split; [by exists c|by apply Hsec].
  - intros r t' [Hi Hh Hs _ _ _]. apply wp_ret. split; [by apply moves_tree|].
    destruct r as [[]|e].
    + destruct Hs as [Hs He]. split; [by exists c|by apply Hsec].
    + destruct (refusal e) eqn:Er; [by destruct (refusal_incomplete e)| |].
      * by destruct e.
      * apply refusal_uncertain in Er as ->. destruct Hs as [Hs He]. split; [by exists c|by apply Hsec].
Qed.

Lemma wp_publish_change P ch expected h :
  tree_ok (tree h) → ¬ scratch uuid (pc_path ch) → secure (tree h) ch expected →
  (∀ h', either ch h h' → P h') →
  wp P (publish_change uuid w ch expected) h (change_made ch expected h).
Proof.
  intros Hok Hsc Hsec HP. unfold publish_change. destruct (pc_target ch) as [target|] eqn:Et.
  - apply wp_bind. unfold Reverts.read_object. apply wp_host. simpl.
    destruct (read_blob (objects h) (c_oid target)) as [bytes|e] eqn:Eb.
    + assert (with_objects (objects h) h = h) as Eh by (by destruct h).
      apply wp_publish_content; [done..|]. unfold wanted. rewrite Et, Eb. done.
    + apply wp_ret. by split.
  - apply wp_publish_content; [done..|]. unfold wanted. by rewrite Et.
Qed.

(** ** The changes of a plan *)

(** The first [k] show what the plan writes, the others what they showed. *)
Definition applied (o : Store) (t0 : Tree) (changes : list PlannedChange) (k : nat) (t : Tree) : Prop :=
  k ≤ length changes ∧ Forall (replaced_by o t0 t) (take k changes) ∧
  Forall (shows_old t0 t) (drop k changes).

Definition paths_of (changes : list PlannedChange) (q : list N) : Prop :=
  q ∈ map pc_path changes ∨ scratch uuid q.

Lemma applied_none o t0 t changes :
  Forall (shows_old t0 t) changes → applied o t0 changes 0 t.
Proof. intros H. split_and!; [lia|done|by rewrite drop_0]. Qed.

(** From a tree that shows the same. *)
Lemma applied_from o t0 t1 t changes k :
  Forall (shows_old t0 t1) changes → applied o t1 changes k t → applied o t0 changes k t.
Proof.
  intros Hold (Hk & Ht & Hd). rewrite Forall_forall in Hold.
  rewrite <- (take_drop k changes) in Hold. split_and!; [done|..].
  - rewrite Forall_forall in Ht |- *. intros x Hx. destruct (Ht x Hx) as [? Hh]. split; [done|].
    unfold holds in *. rewrite <- (Hold x); [done|]. apply elem_of_app. by left.
  - rewrite Forall_forall in Hd |- *. intros x Hx. unfold shows_old in *. rewrite Hd by done.
    apply Hold, elem_of_app. by right.
Qed.

(** After its first change, the rest of a list of changes. *)
Lemma applied_cons o t0 t1 t ch rest k :
  replaced_by o t0 t ch → Forall (shows_old t0 t1) rest → applied o t1 rest k t →
  applied o t0 (ch :: rest) (S k) t.
Proof.
  intros Hw Hold Ha. destruct (applied_from _ _ _ _ _ _ Hold Ha) as (Hk & Ht & Hd).
  split_and!; simpl; [lia|by constructor|done].
Qed.

Lemma shows_same o t t' ch :
  shown t' (pc_path ch) = shown t (pc_path ch) → shows_wanted o t ch → shows_wanted o t' ch.
Proof. intros E (c & Hc & Hs). exists c. by rewrite E. Qed.

Lemma holds_same t t' p st : shown t' p = shown t p → holds t p st → holds t' p st.
Proof. unfold holds. by intros ->. Qed.

(** A journal while its changes are published. *)
Definition counted (files dirs : nat) (at_ : option (list N)) (j : StoredJournal) : StoredJournal :=
  {| revert_id := revert_id j; j_holder := j_holder j; order := order j; direction := direction j;
     j_seqs := j_seqs j; j_state := j_state j; total_files := total_files j;
     applied_files := files; total_directories := total_directories j;
     created_directories := dirs;
     reconciliation_required := reconciliation_required j; stopped_at := at_ |}.

(** What a publication says of [n] things when [k] were done. *)
Definition reached (pub : Publication) (n k done : nat) : Prop :=
  match pub with
  | PComplete => k = n ∧ done = n
  | PRefused _ => done = k ∧ k < n
  | PUncertain => done = S k ∧ k < n
  end.

Record changes_made (changes : list PlannedChange) (j : StoredJournal) (h : Host)
    (r : Result (Publication * StoredJournal) SnapshotError) (h' : Host) : Prop := {
  cm_moves : moves (paths_of changes) h h';
  cm_applied : ∃ pub k done at_,
    r = Ok (pub, counted (applied_files j + k) (created_directories j) at_ j) ∧
    reached pub (length changes) k done ∧ applied (objects h) (tree h) changes done (tree h') ∧
    (pub = PComplete → at_ = stopped_at j) ∧
    (at_ = stopped_at j ∨ ∃ p, at_ = Some p ∧ p ∈ map pc_path changes);
}.

Lemma within_relinked ch replaced token : within reading (relinked w ch replaced token).
Proof.
  unfold relinked. destruct (pc_expected ch); [apply within_ret, _|].
  destruct (negb _); [apply within_ret, _|]. apply within_bind; [apply _| |].
  - apply within_attempt, within_observe.
  - intros live. apply within_ret, _.
Qed.

(** What can be observed is shown. *)
Lemma live_at_holds t path content stamp mode :
  live_at w t path = LEntry content stamp mode →
  holds t path (Some content) ∧ stamp_at t path = Some stamp.
Proof.
  unfold live_at, observed. destruct (parent_of _ _ _) as [[[d m]|]|]; [|done..].
  unfold observed_at, holds, shown, stamp_at. destruct (node_at t path) as [[ino n]|]; [|done]. simpl.
  unfold entry_of. destruct (i_kind n) as [bytes|link| |] eqn:Ek; [..|done|done].
  - rewrite Ek. destruct (_ <? _)%N; [done|]. destruct (blob_id bytes) as [oid|] eqn:Eb; [|done].
    intros [= <- <- _]. done.
  - destruct (blob_id link) as [oid|] eqn:Eb; [|done]. intros [= <- <- _]. done.
Qed.

Lemma wp_relinked P ch replaced token h :
  foreseen (tree h) ch → (∀ h', reading h h' → P h') →
  wp P (relinked w ch replaced token) h (λ r h', reading h h' ∧
    ((∃ e, r = Ok (Err (PRefused e))) ∨
     ∃ e, r = Ok (Ok e) ∧ secure (tree h') ch (default (pc_expected ch) e))).
Proof.
  intros Hf HP. pose proof (foreseen_secure _ _ Hf) as Hs. unfold relinked.
  destruct (pc_expected ch) as [|stamp] eqn:Ee; [apply wp_ret; split; [done|right; by eexists]|].
  destruct (negb _); [apply wp_ret; split; [done|right; by eexists]|].
  apply wp_bind, wp_attempt.
  eapply wp_mono; [apply looks_observe; exact HP|intros e He; exact He|].
  intros r h' (Hr & Hseen & _). apply wp_ret. split; [done|].
  destruct r as [l|e]; [|by left; eexists]. destruct Hseen as [El| ->]; [|by left; eexists].
  destruct l as [|content st mode|]; [by left; eexists| |by left; eexists].
  case_bool_decide as Ec; [right|by left; eexists]. eexists. split; [done|]. intros _.
  symmetry in El. apply live_at_holds in El as [Hh _]. rewrite Ec.
  by destruct Hr as [[[fl ->] _] _].
Qed.

Lemma either_paths ch rest h h' : either ch h h' → moves (paths_of (ch :: rest)) h h'.
Proof.
  intros [Hm _]. eapply moves_mono; [|done]. intros q [->|?]; [left; by left|by right].
Qed.

(** While a change is published the others show what they showed. *)
Lemma either_applied o ch rest t0 h h' :
  tree_ok (tree h) → NoDup (map pc_path (ch :: rest)) → Forall (λ c, ¬ scratch uuid (pc_path c)) rest →
  Forall (shows_old t0 (tree h)) (ch :: rest) → objects h = o → either ch h h' →
  Forall (shows_old t0 (tree h')) rest ∧
  ((shows_old t0 (tree h') ch ∧ applied o t0 (ch :: rest) 0 (tree h')) ∨
   (replaced_by o t0 (tree h') ch ∧ applied o t0 (ch :: rest) 1 (tree h'))).
Proof.
  intros Hok [Hnin Hnd]%NoDup_cons Hsc [Hold Holds]%Forall_cons Eo [Hm Hs]. rewrite Eo in Hs.
  assert (Forall (shows_old t0 (tree h')) rest) as Hrest.
  { rewrite Forall_forall in Hsc. rewrite Forall_forall in Holds |- *. intros x Hx.
    unfold shows_old. rewrite <- (Holds x Hx). apply (moves_shown _ h h' _ Hok Hm).
    intros [E|E]; [|by eapply Hsc]. apply Hnin. simpl. rewrite <- E. by apply list_elem_of_fmap_2. }
  split; [done|]. destruct Hs as [Hs|Hs].
  - left. assert (shows_old t0 (tree h') ch) by (unfold shows_old in *; congruence).
    split; [done|]. apply applied_none. by constructor.
  - right. assert (replaced_by o t0 (tree h') ch) as Hr.
    { destruct Hs as [? Hh]. split; [done|]. unfold holds in *. by rewrite <- Hold. }
    split; [done|]. split_and!; simpl; [lia|by constructor|by rewrite drop_0].
Qed.

Lemma wp_publish_changes P changes token replaced j h :
  tree_ok (tree h) → NoDup (map pc_path changes) →
  Forall (λ c, ¬ scratch uuid (pc_path c)) changes → Forall (foreseen (tree h)) changes →
  (∀ h' k, moves (paths_of changes) h h' → applied (objects h) (tree h) changes k (tree h') → P h') →
  wp P (publish_changes uuid w token changes replaced j) h (changes_made changes j h).
Proof.
  revert replaced j h P. induction changes as [|ch rest IH]; intros replaced j h P Hok Hnd Hsc Hfs HP.
  { simpl. apply wp_ret. split; [reflexivity|]. exists PComplete, 0, 0, (stopped_at j). split_and!; [|done| |done|by left].
    - rewrite Nat.add_0_r. by destruct j.
    - by apply applied_none. }
  apply Forall_cons in Hfs as [Hf1 Hfr]. pose proof Hsc as [Hsc1 Hscr]%Forall_cons. pose proof Hnd as [Hnin Hndr]%NoDup_cons.
  assert (∀ t h1, same_tree t (tree h1) → Forall (shows_old t (tree h1)) (ch :: rest)) as Hsame.
  { intros t h1 [fl E]. apply Forall_forall. intros x _. unfold shows_old. by rewrite E. }
  assert (∀ h1, reading h h1 → P h1) as HPr.
  { intros h1 Hr. apply (HP h1 0); [by apply reading_moves|]. apply applied_none, Hsame. apply Hr. }
  assert (∀ e at_ h1, reading h h1 → (at_ = stopped_at j ∨ at_ = Some (pc_path ch)) →
    changes_made (ch :: rest) j h (Ok (PRefused e, counted (applied_files j) (created_directories j) at_ j)) h1)
    as Hrefused.
  { intros e at_ h1 Hr Hat. split; [by apply reading_moves|].
    exists (PRefused e), 0, 0, at_. rewrite Nat.add_0_r. split_and!; [done|simpl; lia| |done|].
    - apply applied_none, Hsame. apply Hr.
    - destruct Hat as [->| ->]; [by left|right]. eexists. split; [done|]. by left. }
  assert (j = counted (applied_files j) (created_directories j) (stopped_at j) j) as Ej by (by destruct j).
  cbn [publish_changes]. apply wp_bind.
  eapply wp_mono; [by apply (looks_is_cancelled h token)|intros e He; exact He|].
  intros [c|e] h1 (Hr1 & Hok1 & _); [|done]. destruct c.
  { apply wp_ret. pose proof (Hrefused Cancelled (stopped_at j) h1 Hr1 (or_introl eq_refl)) as H1.
    by rewrite <- Ej in H1. }
  apply wp_bind. eapply wp_mono; [apply wp_relinked; [|intros h2 Hr2; apply HPr; by etrans]|intros e He; exact He|].
  { eapply foreseen_evolves; [done|].
    eapply moves_evolves; [done|by apply (reading_moves (λ _, True))]. }
  intros r h2 [Hr2 Hcase]. assert (reading h h2) as Hr by (by etrans). clear h1 Hr1 Hok1 Hr2.
  destruct Hcase as [[e ->]|(reread & -> & Hsec)].
  { apply wp_ret. apply Hrefused; [done|by right]. }
  assert (tree_ok (tree h2)) as Hok2 by (eapply moves_ok; [done|by apply (reading_moves (λ _, True))]).
  assert (objects h2 = objects h) as Eo by (by apply reading_objects).
  pose proof (λ h3, either_applied (objects h) ch rest (tree h) h2 h3 Hok2 Hnd Hscr
    (Hsame _ _ (proj1 (proj1 Hr))) Eo) as Heither.
  assert (∀ h3, either ch h2 h3 → moves (paths_of (ch :: rest)) h h3) as Hmv.
  { intros h3 He. etrans; [by apply reading_moves|]. by apply either_paths. }
  apply wp_bind. eapply wp_mono; [apply wp_publish_change; [done..|]|intros e He; exact He|].
  { intros h3 He. destruct (Heither h3 He) as [_ [[_ Ha]|[_ Ha]]]; (eapply HP; [by apply Hmv|done]). }
  intros r h3 [Hm Hcr].
  destruct r as [[[]|pub]|e]; [..|done].
  - assert (either ch h2 h3) as He by (split; [done|by right]).
    assert (replaced_by (objects h) (tree h) (tree h3) ch) as Hw.
    { destruct Hcr as [? Hh]. rewrite Eo in *. split; [done|]. by destruct Hr as [[[fl E] _] _]; rewrite E in Hh. }
    destruct (Heither h3 He) as [Hrest _].
    assert (objects h3 = objects h) as Eo3 by (destruct Hm as [? _]; congruence).
    assert (∀ h4 k, moves (paths_of rest) h3 h4 → applied (objects h3) (tree h3) rest k (tree h4) →
      moves (paths_of (ch :: rest)) h h4 ∧ applied (objects h) (tree h) (ch :: rest) (S k) (tree h4)) as Hnext.
    { intros h4 k Hm4 Ha4. split.
      - etrans; [by apply Hmv|]. eapply moves_mono; [|done]. intros q [?|?]; [left; by right|by right].
      - eapply applied_cons; [|exact Hrest|by rewrite <- Eo3].
        destruct Hw as [Hw Hh]. split; [|done]. eapply shows_same; [|exact Hw].
        eapply moves_shown; [|done|]; [by eapply moves_ok|by intros [?|?]]. }
    assert (Forall (foreseen (tree h3)) rest) as Hfr3.
    { eapply Forall_impl; [exact Hfr|]. intros x Hx. eapply foreseen_evolves; [done|].
      eapply moves_evolves; [done|by apply Hmv]. }
    eapply wp_mono; [apply IH; [by eapply moves_ok|done..|]|intros e He'; exact He'|].
    { intros h4 k Hm4 Ha4. by destruct (Hnext h4 k Hm4 Ha4); eapply HP. }
    intros r h4 [Hm4 (pub & k & done & at_ & -> & Hreach & Ha4 & Hcom & Hat)].
    destruct (Hnext h4 _ Hm4 Ha4) as [Hm5 Ha5]. split; [done|].
    exists pub, (S k), (S done), at_. split_and!; [|destruct pub; simpl in *; lia|done|done|].
    + simpl. by rewrite Nat.add_succ_r.
    + destruct Hat as [->|(p & -> & Hp)]; [by left|right]. exists p. split; [done|]. by right.
  - apply wp_ret. destruct pub as [|e|]; [done|..].
    + assert (either ch h2 h3) as He by (split; [done|by left]). split; [by apply Hmv|].
      exists (PRefused e), 0, 0, (Some (pc_path ch)). rewrite Nat.add_0_r. split_and!; [done|simpl; lia| |done|].
      * destruct (Heither h3 He) as [Hrest _]. apply applied_none. constructor; [|done].
        unfold shows_old in *. rewrite Hcr. by destruct Hr as [[[fl ->] _] _].
      * right. eexists. split; [done|]. by left.
    + assert (either ch h2 h3) as He by (split; [done|by right]). split; [by apply Hmv|]. exists PUncertain, 0, 1, (Some (pc_path ch)). rewrite Nat.add_0_r.
      split_and!; [done|simpl; lia| |done|].
      * destruct (Heither h3 He) as [Hrest _].
        split_and!; simpl; [lia|constructor; [|done]|by rewrite drop_0].
        destruct Hcr as [? Hh]. rewrite Eo in *. split; [done|].
        by destruct Hr as [[[fl E] _] _]; rewrite E in Hh.
      * right. eexists. split; [done|]. by left.
Qed.

(** ** The directories of a plan *)

Lemma is_directory_shown t p : is_directory t p = true ↔ ∃ m, shown t p = Some (KDirectory, m).
Proof.
  unfold is_directory, shown. destruct (node_at t p) as [[ino n]|]; simpl; [|naive_solver].
  rewrite bool_decide_eq_true. split; [intros ->; by eexists|by intros [m [= -> _]]].
Qed.

Lemma is_directory_named t p : is_directory t p = true → Worktree.names t !! p ≠ None.
Proof.
  unfold is_directory, node_at. destruct (Worktree.names t !! p); [done|]. done.
Qed.

Lemma is_directory_moves S h h' p :
  tree_ok (tree h) → moves S h h' → ¬ S p → is_directory (tree h) p = true →
  is_directory (tree h') p = true.
Proof.
  intros Hok Hm HS. rewrite !is_directory_shown. intros [m Hs]. exists m.
  by rewrite (moves_shown S h h').
Qed.

Record directories_made (dirs : list (list N)) (j : StoredJournal) (h : Host)
    (r : Result (Publication * StoredJournal) SnapshotError) (h' : Host) : Prop := {
  dm_moves : moves (λ q, q ∈ dirs) h h';
  dm_made : ∃ pub k at_,
    r = Ok (pub, counted (applied_files j) (created_directories j + k) at_ j) ∧
    (at_ = stopped_at j ∨ ∃ p, at_ = Some p ∧ p ∈ dirs) ∧
    match pub with
    | PComplete => k = length dirs ∧ Forall (λ d, is_directory (tree h') d = true) dirs ∧ at_ = stopped_at j
    | PRefused _ => k < length dirs ∧ moves (λ q, q ∈ take k dirs) h h'
    | PUncertain => k < length dirs
    end;
}.

Lemma wp_publish_directories P dirs token j h :
  tree_ok (tree h) → (∀ h', moves (λ q, q ∈ dirs) h h' → P h') →
  wp P (publish_directories w token dirs j) h (directories_made dirs j h).
Proof.
  revert j h P. induction dirs as [|d dirs IH]; intros j h P Hok HP.
  { simpl. apply wp_ret. split; [reflexivity|]. exists PComplete, 0, (stopped_at j).
    rewrite Nat.add_0_r. split_and!; [by destruct j|by left|done|done|done]. }
  assert (∀ e at_ h1, moves (λ _, False) h h1 → (at_ = stopped_at j ∨ at_ = Some d) →
    directories_made (d :: dirs) j h
      (Ok (PRefused e, counted (applied_files j) (created_directories j) at_ j)) h1) as Hrefused.
  { intros e at_ h1 Hr Hat. split; [by eapply moves_mono; [|exact Hr]|].
    exists (PRefused e), 0, at_. rewrite Nat.add_0_r. split_and!; [done| |simpl; lia|].
    - destruct Hat as [->| ->]; [by left|right]. eexists. split; [done|]. by left.
    - by eapply moves_mono; [|exact Hr]. }
  cbn [publish_directories]. apply wp_bind.
  eapply wp_mono; [apply (looks_is_cancelled h token)|intros e He; exact He|].
  { intros h1 Hr. apply HP. by apply reading_moves. }
  intros [c|e] h1 (Hr1 & Hok1 & _); [|done]. destruct c.
  { apply wp_ret. pose proof (Hrefused Cancelled (stopped_at j) h1 (reading_moves _ _ _ Hr1) (or_introl eq_refl)) as H1.
    by replace (counted _ _ _ _) with j in H1 by (by destruct j). }
  assert (tree_ok (tree h1)) as Hokt by (eapply moves_ok; [exact Hok|by apply (reading_moves (λ _, True))]).
  assert (∀ t', inv (λ q, q = d) (tree h1) t' → moves (λ q, q = d) h (with_tree t' h1)) as Hmv.
  { intros t' Hi. etrans; [by apply reading_moves|]. by apply moves_tree. }
  assert (∀ h', moves (λ q, q = d) h h' → moves (λ q, q ∈ d :: dirs) h h') as Hmv1.
  { intros h' Hm. eapply moves_mono; [|exact Hm]. intros q ->. by left. }
  apply wp_bind, wp_in_tree.
  eapply wp_mono; [apply (wp_create_tree_directory (protects w) uuid); [done|]|intros e He; exact He|].
  { intros t' Hi _. by apply HP, Hmv1, Hmv. }
  intros r t' [Hi _ Hh Hnames Hshown _ _]. pose proof (Hmv t' Hi) as Hm.
  destruct r as [[]|e].
  - eapply wp_mono; [apply IH; [by apply Hi|]|intros e' He'; exact He'|].
    { intros h3 Hm3. apply HP. etrans; [by apply Hmv1|]. eapply moves_mono; [|exact Hm3].
      intros q Hq. by right. }
    intros r h3 [Hm3 (pub & k & at_ & -> & Hat & Hcase)]. split.
    { etrans; [by apply Hmv1|]. eapply moves_mono; [|exact Hm3]. intros q Hq. by right. }
    exists pub, (S k), at_. split_and!.
    + simpl. by rewrite Nat.add_succ_r.
    + destruct Hat as [->|(p & -> & Hp)]; [by left|right]. exists p. split; [done|]. by right.
    + destruct pub as [|e|].
      * destruct Hcase as (-> & Hdirs & ->). split_and!; [done| |done]. constructor; [|done].
        destruct (decide (d ∈ dirs)) as [Hin|Hnin].
        { rewrite Forall_forall in Hdirs. by apply Hdirs. }
        eapply (is_directory_moves (λ q, q ∈ dirs)); [|exact Hm3|done|]; [apply Hi|].
        simpl. apply Hshown. by left.
      * destruct Hcase as [Hk Hmk]. split; [simpl; lia|]. simpl.
        etrans; [eapply moves_mono; [|exact Hm]; intros q ->; by left|].
        eapply moves_mono; [|exact Hmk]. intros q Hq. by right.
      * simpl. lia.
  - apply wp_ret. destruct (refusal e) as [|e'|] eqn:Er; [by destruct (refusal_incomplete e)| |].
    + apply Hrefused; [|by right]. assert (e ≠ TreeUnsettled) as Hne by (intros ->; done).
      destruct Hnames as [fl ->]; [right; split; congruence|].
      etrans; [by apply reading_moves|]. apply reading_moves. split; [split; [by exists fl|done]|done].
    + split; [by apply Hmv1|]. exists PUncertain, 0, (Some d). rewrite Nat.add_0_r.
      split_and!; [done| |simpl; lia]. right. eexists. split; [done|]. by left.
Qed.

(** ** The whole of a plan *)

(** The paths of a plan are apart: one change per path, no directory to create among them, and
    none has the name of a temporary. *)
Record apart (pl : RevertPlan) : Prop := {
  ap_once : NoDup (map pc_path (pl_changes pl));
  ap_created : Forall (λ c, pc_path c ∉ pl_created pl) (pl_changes pl);
  ap_scratch : Forall (λ c, ¬ scratch uuid (pc_path c)) (pl_changes pl);
  ap_directories : Forall (λ d, ¬ scratch uuid d) (pl_created pl);
}.

(** The paths a plan may touch, of which only the first [n] directories are made. *)
Definition touched (pl : RevertPlan) (n : nat) (q : list N) : Prop :=
  q ∈ take n (pl_created pl) ∨ paths_of (pl_changes pl) q.
Definition touches (pl : RevertPlan) (q : list N) : Prop :=
  q ∈ pl_created pl ∨ paths_of (pl_changes pl) q.

(** A moment of the execution of a plan, with the first [k] changes in place. *)
Definition moment (pl : RevertPlan) (h : Host) (k : nat) (h' : Host) : Prop :=
  moves (touches pl) h h' ∧ applied (objects h) (tree h) (pl_changes pl) k (tree h').

Record plan_published (pl : RevertPlan) (j : StoredJournal) (h : Host)
    (pub : Publication) (k c : nat) (at_ : option (list N)) (done : nat) (h' : Host) : Prop := {
  pp_moment : moment pl h done h';
  pp_stopped : at_ = stopped_at j ∨ ∃ p, at_ = Some p ∧ (p ∈ pl_created pl ∨ p ∈ map pc_path (pl_changes pl));
  pp_bounds : k ≤ length (pl_changes pl) ∧ c ≤ length (pl_created pl);
  pp_done :
    match pub with
    | PComplete => done = length (pl_changes pl) ∧ k = done ∧ c = length (pl_created pl) ∧
        at_ = stopped_at j ∧ Forall (λ d, is_directory (tree h') d = true) (pl_created pl)
    | PRefused _ => done = k ∧ moves (touched pl c) h h' ∧
        k + c < length (pl_changes pl) + length (pl_created pl)
    | PUncertain => (done = k ∨ done = S k) ∧
        k + c < length (pl_changes pl) + length (pl_created pl)
    end;
}.

Lemma touched_touches pl n q : touched pl n q → touches pl q.
Proof.
  intros [Hq|?]; [left|by right]. rewrite <- (take_drop n (pl_created pl)).
  apply elem_of_app. by left.
Qed.

Lemma created_old pl h h' :
  apart pl → tree_ok (tree h) → moves (λ q, q ∈ pl_created pl) h h' →
  Forall (shows_old (tree h) (tree h')) (pl_changes pl).
Proof.
  intros [_ Hc _ _] Hok Hm. eapply Forall_impl; [exact Hc|]. intros x Hx.
  by eapply moves_shown.
Qed.

Lemma wp_publish_plan P pl token j h :
  apart pl → tree_ok (tree h) → Forall (foreseen (tree h)) (pl_changes pl) → (∀ k h', moment pl h k h' → P h') →
  wp P (publish uuid w pl token j) h (λ r h', ∃ pub k c at_ done,
    r = Ok (pub, counted (applied_files j + k) (created_directories j + c) at_ j) ∧
    plan_published pl j h pub k c at_ done h').
Proof.
  intros Hap Hok Hfs HP. unfold publish. apply wp_bind.
  assert (∀ h', moves (λ q, q ∈ pl_created pl) h h' → moment pl h 0 h') as Hdirs.
  { intros h' Hm. split; [eapply moves_mono; [|exact Hm]; intros q Hq; by left|].
    by apply applied_none, created_old. }
  eapply wp_mono; [apply wp_publish_directories; [done|]|intros e He; exact He|].
  { intros h' Hm. eapply HP. by apply Hdirs. }
  intros r h1 [Hm (pub & c & at_ & -> & Hat & Hcase)]. pose proof (Hdirs h1 Hm) as Hmom.
  destruct pub as [|e|].
  - destruct Hcase as (-> & Hd & ->). assert (tree_ok (tree h1)) as Hok1 by (by eapply moves_ok).
    assert (Forall (shows_old (tree h) (tree h1)) (pl_changes pl)) as Hold by (by apply created_old).
    assert (objects h1 = objects h) as Eo by apply Hm.
    assert (∀ k h2, moves (paths_of (pl_changes pl)) h1 h2 →
      applied (objects h1) (tree h1) (pl_changes pl) k (tree h2) → moment pl h k h2) as Hnext.
    { intros k h2 Hm2 Ha. split.
      - etrans; [apply Hmom|]. eapply moves_mono; [|exact Hm2]. intros q Hq. by right.
      - rewrite Eo in Ha. by eapply applied_from. }
    eapply wp_mono; [apply wp_publish_changes; [done|apply Hap|apply Hap| |]|intros e He; exact He|].
    { eapply Forall_impl; [exact Hfs|]. intros x Hx. eapply foreseen_evolves; [done|].
      by eapply moves_evolves. }
    { intros h2 k Hm2 Ha. eapply HP. by apply (Hnext k). }
    intros r h2 [Hm2 (pub & k & done & at_ & -> & Hreach & Ha & Hcom & Hat2)].
    exists pub, k, (length (pl_created pl)), at_, done. split; [done|].
    assert (k ≤ length (pl_changes pl)) as Hk by (destruct pub; simpl in *; lia).
    split; [by apply Hnext| |done|].
    + destruct Hat2 as [->|(p & -> & Hp)]; [by left|right; eauto].
    + destruct pub as [|e|]; simpl in *; [|destruct Hreach as [-> Hlt]..].
      * destruct Hreach as [-> ->]. split_and!; [done..|by apply Hcom|].
        rewrite Forall_forall in Hd |- *. intros d Hin.
        eapply is_directory_moves; [exact Hok1|exact Hm2| |by apply Hd].
        intros [(x & -> & Hx)%list_elem_of_fmap|Hsc].
        -- pose proof (ap_created _ Hap) as Hc. rewrite Forall_forall in Hc. by apply (Hc x).
        -- pose proof (ap_directories _ Hap) as Hc. rewrite Forall_forall in Hc. by apply (Hc d).
      * split_and!; [done| |lia]. etrans; [eapply moves_mono; [|exact Hm]|eapply moves_mono; [|exact Hm2]].
        -- intros q Hq. left. by rewrite take_ge.
        -- intros q Hq. by right.
      * split; [by right|lia].
  - destruct Hcase as [Hlt Hmk]. apply wp_ret. exists (PRefused e), 0, c, at_, 0.
    split; [by rewrite Nat.add_0_r|]. split; [done| |lia|].
    + destruct Hat as [->|(p & -> & Hp)]; [by left|right; eauto].
    + split_and!; [done| |simpl; lia]. eapply moves_mono; [|exact Hmk]. intros q Hq. by left.
  - apply wp_ret. exists PUncertain, 0, c, at_, 0.
    split; [by rewrite Nat.add_0_r|]. split; [done| |lia|].
    + destruct Hat as [->|(p & -> & Hp)]; [by left|right; eauto].
    + split; [by left|lia].
Qed.

End publishing.

(** ** The execution of a plan *)

Section executing.
Context `{GL : GitLib} `{JL : JsonLib}.
Context (uuid : N → list N) (w : WorkspaceAccess) (pl : RevertPlan).

(** The journal of a revert, as a crash at some moment leaves it. *)
Definition journal_on (h : Host) (rid : list N) : option StoredJournal :=
  f ← file_map (files h) !! (REVERTS, rid ++ METADATA_SUFFIX);
  match sf_value f with VJournal j => Some j | _ => None end.

(** The journal says of which records the plan is, and once it says how the publication went,
    that is how it went. *)
Definition accounts (k : nat) (j : StoredJournal) : Prop :=
  revert_id j = pl_id pl ∧ j_holder j = pl_holder pl ∧ direction j = pl_direction pl ∧
  j_seqs j = pl_seqs pl ∧ total_files j = length (pl_changes pl) ∧
  match j_state j with
  | Publishing => True
  | Completed => k = length (pl_changes pl)
  | Partial => applied_files j = k
  | Indeterminate => reconciliation_required j = true ∧ (k = applied_files j ∨ k = S (applied_files j))
  end.

(** The tree with the first [k] changes of the plan. *)
Definition with_first (k : nat) (h h' : Host) : Prop :=
  objects h' = objects h ∧ inv (touches uuid pl) (tree h) (tree h') ∧
  applied w (objects h) (tree h) (pl_changes pl) k (tree h').

(** No path but a temporary's shows anything else. *)
Definition untouched (h h' : Host) : Prop :=
  ∀ q, ¬ scratch uuid q → shown (tree h') q = shown (tree h) q.

Definition accounted (k : nat) (h h' : Host) : Prop :=
  untouched h h' ∨ (∃ j, journal_on h' (pl_id pl) = Some j ∧ accounts k j) ∨
  (pl_direction pl = Unrevert ∧ k = length (pl_changes pl)).

Definition safe (h h' : Host) : Prop := ∃ k, with_first k h h' ∧ accounted k h h'.

(** Before publication, and after. *)
Lemma with_first_aside k h h1 h2 h3 :
  tree_ok (tree h) → aside h h1 → moment uuid w pl h1 k h2 → aside h2 h3 → with_first k h h3.
Proof.
  intros Hok [[fl1 E1] Eo1] [(Eo2 & _ & Hi) Ha] [[fl3 E3] Eo3].
  rewrite E1 in Hi, Ha. rewrite Eo1 in Ha. split; [congruence|]. rewrite E3. split; [by apply Hi|].
  exact Ha.
Qed.

Lemma moment_none h : tree_ok (tree h) → moment uuid w pl h 0 h.
Proof. intros Hok. split; [reflexivity|]. apply applied_none. by apply Forall_forall. Qed.

Lemma safe_aside h h' : tree_ok (tree h) → aside h h' → safe h h'.
Proof.
  intros Hok Ha. exists 0. split.
  - apply (with_first_aside 0 h h h h'); [done|done|by apply moment_none|done].
  - left. destruct Ha as [[fl E] _]. intros q _. by rewrite E.
Qed.

Lemma journal_on_written j h r h' :
  written (REVERTS, revert_id j ++ METADATA_SUFFIX) (file_of j) h r h' →
  journal_on h' (revert_id j) = Some j ∨ journal_on h' (revert_id j) = journal_on h (revert_id j).
Proof.
  intros [_ _ Hm _]. unfold journal_on. destruct r as [[]|e].
  - left. rewrite Hm, lookup_insert_eq. done.
  - destruct Hm as [_ [->| ->]]; [by right|left]. by rewrite lookup_insert_eq.
Qed.

Lemma shows_write_journal (P : Host → Prop) j h :
  (∀ h', aside h h' → journal_on h' (revert_id j) = Some j ∨
     journal_on h' (revert_id j) = journal_on h (revert_id j) → P h') →
  shows_write P (REVERTS, revert_id j ++ METADATA_SUFFIX) (file_of j) h.
Proof.
  intros HP fs' Hfs. apply HP; [done|]. unfold journal_on. simpl.
  destruct Hfs as [->| ->]; [by right|left]. by rewrite lookup_insert_eq.
Qed.

(** Writing the journal, whatever fails, leaves it or what was there. *)
Lemma wp_write_journal P j h :
  (∀ h', aside h h' → journal_on h' (revert_id j) = Some j ∨
     journal_on h' (revert_id j) = journal_on h (revert_id j) → P h') →
  wp P (write_journal j) h (λ r h', aside h h' ∧
    (journal_on h' (revert_id j) = Some j ∨
     ¬ is_ok r ∧ journal_on h' (revert_id j) = journal_on h (revert_id j))).
Proof.
  intros HP. unfold write_journal, journal_path. apply wp_bind, wp_lift.
  destruct (valid_random_id _ _); [|split; [done|right; by split; [intros []|]]].
  apply wp_write_as.
  - by apply shows_write_journal.
  - intros _ r h' Hw. pose proof Hw as [E _ Hm _]. split; [by rewrite E|].
    destruct r as [[]|e]; [left|].
    + unfold journal_on. rewrite Hm, lookup_insert_eq. done.
    + destruct (journal_on_written _ _ _ _ Hw) as [?|?]; [by left|right]. by split; [intros []|].
  - intros _. split; [done|]. right. by split; [intros []|].
Qed.

Lemma journal_on_reading h h' rid :
  with_file_faults [] (files h') = with_file_faults [] (files h) → journal_on h' rid = journal_on h rid.
Proof.
  intros E. unfold journal_on. by replace (file_map (files h')) with (file_map (files h))
    by (by injection E).
Qed.

(** Once published, the journal is written again with how it went. *)
Lemma wp_conclude P h h1 h2 k j1 j2 :
  tree_ok (tree h) → aside h h1 → moment uuid w pl h1 k h2 →
  journal_on h2 (pl_id pl) = Some j1 → accounts k j1 → accounts k j2 →
  (∀ h', safe h h' → P h') →
  wp P (write_journal j2) h2 (λ r h', aside h2 h' ∧
    ∃ j, journal_on h' (pl_id pl) = Some j ∧ accounts k j ∧ (is_ok r → j = j2)).
Proof.
  intros Hok Ha Hm Hj H1 H2 HP. assert (revert_id j2 = pl_id pl) as E by apply H2.
  eapply wp_mono; [apply wp_write_journal|intros e He; exact He|].
  - intros h' Ha' Hon. apply HP. exists k. split; [by eapply with_first_aside|].
    right. left. rewrite E in Hon. destruct Hon as [Hon|Hon]; [by eexists|]. exists j1. by rewrite Hon.
  - intros r h' [Ha' Hon]. rewrite E in Hon. split; [done|].
    destruct Hon as [Hon|[Hn Hon]]; [by exists j2|]. exists j1. by rewrite Hon.
Qed.

(** How the execution of a plan ends. *)
Definition concluded (h : Host) (r : Result RevertStatus SnapshotError) (h' : Host) : Prop :=
  ∃ k, with_first k h h' ∧
    match r with
    | Ok _ => (∃ j, journal_on h' (pl_id pl) = Some j ∧ accounts k j ∧ j_state j ≠ Publishing) ∨
              (pl_direction pl = Unrevert ∧ k = length (pl_changes pl))
    | Err _ => accounted k h h'
    end.

Lemma concluded_error h e h' : safe h h' → concluded h (Err e) h'.
Proof. intros (k & ? & ?). by exists k. Qed.

(** What is left once the journal is written. *)
Lemma wp_after P h h1 h2 h3 k j :
  tree_ok (tree h) → aside h h1 → moment uuid w pl h1 k h2 → aside h2 h3 →
  journal_on h3 (pl_id pl) = Some j → accounts k j → j_state j ≠ Publishing →
  (∀ h', safe h h' → P h') →
  wp P (do? _ := settled j in status (pl_holder pl))%W h3 (concluded h).
Proof.
  intros Hok Ha Hm Ha3 Hj Hacc Hst HP.
  assert (∀ h4, aside h3 h4 → with_first k h h4) as Hwf.
  { intros h4 Ha4. eapply with_first_aside; [done..|]. by etrans. }
  assert (∀ h4 (R : Host → Prop), aside h3 h4 → (∀ h5, reading h4 h5 → R h5) →
    (∀ h5, aside h3 h5 → R h5 → P h5) →
    wp P (status (pl_holder pl)) h4 (λ r h5, aside h3 h5 ∧ R h5)) as Hstatus.
  { intros h4 R Ha4 HR HPR. eapply wp_mono; [apply within_status|intros e He; exact He|].
    - intros h5 Hr. apply HPR; [|by apply HR]. etrans; [done|apply Hr].
    - intros r h5 Hr. split; [|by apply HR]. etrans; [done|apply Hr]. }
  apply wp_bind. unfold settled.
  destruct (decide (direction j = Unrevert ∧ j_state j = Completed)) as [[Ed Es]|Hno].
  - rewrite !bool_decide_true by done.
    assert (pl_direction pl = Unrevert ∧ k = length (pl_changes pl)) as Hun.
    { destruct Hacc as (_ & _ & <- & _ & _ & Hst'). rewrite Es in Hst'. done. }
    eapply wp_mono; [apply within_clear_stack|intros e He; exact He|].
    { intros h4 Ha4. apply HP. exists k. split; [by apply Hwf|]. by right; right. }
    intros [[]|e] h4 Ha4; [|by exists k; split; [by apply Hwf|]; right; right].
    eapply wp_mono; [apply (Hstatus h4 (λ _, True)); try done|intros e He; exact He|].
    + intros h5 Ha5 _. apply HP. exists k. split; [by apply Hwf|]. by right; right.
    + intros r h5 [Ha5 _]. exists k. split; [by apply Hwf|]. destruct r; [by right|by right; right].
  - replace (bool_decide (direction j = Unrevert) && bool_decide (j_state j = Completed)) with false.
    2:{ symmetry. apply andb_false_iff. rewrite !bool_decide_eq_false. apply not_and_l in Hno. done. }
    apply wp_ret.
    assert (∀ h5, journal_on h5 (pl_id pl) = Some j → accounted k h h5) as Hacc5.
    { intros h5 E. right. left. by exists j. }
    eapply wp_mono; [apply (Hstatus h3 (λ h5, journal_on h5 (pl_id pl) = Some j)); [done|..]|intros e He; exact He|].
    + intros h5 [_ Hf]. by rewrite (journal_on_reading h3 h5).
    + intros h5 Ha5 E. apply HP. exists k. split; [by apply Hwf|auto].
    + intros r h5 [Ha5 E]. exists k. split; [by apply Hwf|]. destruct r; [left; by exists j|auto].
Qed.

(** The middle of an execution: the plan is published, and its journal written again or, when
    nothing was published, removed. *)
Definition conclude (j : StoredJournal) (r : Publication * StoredJournal) : Io StoredJournal :=
  (match r with
   | (PComplete, j) => let j := set_state Completed j in do? _ := write_journal j in ret j
   | (PRefused e, j) =>
       if (applied_files j =? 0) && (created_directories j =? 0) then
         do? p := lift (journal_path (revert_id j)) in
         do? _ := remove p in
         do? _ := sync REVERTS in
         throw e
       else
         let j := set_state Partial j in do? _ := write_journal j in ret j
   | (PUncertain, j) =>
       let j := set_indeterminate j in do? _ := write_journal j in ret j
   end)%W.

Definition begun (j : StoredJournal) : Prop :=
  accounts 0 j ∧ j_state j = Publishing ∧ applied_files j = 0 ∧ created_directories j = 0.

Lemma untouched_refused h1 h2 k c :
  tree_ok (tree h1) → moves (touched uuid pl c) h1 h2 → c = 0 → k = 0 →
  applied w (objects h1) (tree h1) (pl_changes pl) k (tree h2) → untouched h1 h2.
Proof.
  intros Hok Hm -> -> (_ & _ & Hold) q Hq. rewrite drop_0 in Hold.
  destruct (decide (q ∈ map pc_path (pl_changes pl))) as [Hin|Hnin].
  - apply list_elem_of_fmap in Hin as (x & -> & Hx). rewrite Forall_forall in Hold. by apply Hold.
  - eapply moves_shown; [done|exact Hm|]. intros [Hq'|[?|?]]; [|done..]. simpl in Hq'.
    by apply elem_of_nil in Hq'.
Qed.

Lemma wp_middle P h h1 j token :
  apart uuid pl → tree_ok (tree h) → Forall (foreseen (tree h)) (pl_changes pl) →
  aside h h1 → begun j → journal_on h1 (pl_id pl) = Some j →
  (∀ h', safe h h' → P h') →
  wp P (do? r := publish uuid w pl token j in conclude j r)%W h1 (λ r h3,
    match r with
    | Ok j' => ∃ k h2, moment uuid w pl h1 k h2 ∧ aside h2 h3 ∧
        journal_on h3 (pl_id pl) = Some j' ∧ accounts k j' ∧ j_state j' ≠ Publishing
    | Err _ => safe h h3
    end).
Proof.
  intros Hap Hok Hfs Ha (Hacc & Hst & H0 & Hc0) Hj HP.
  assert (tree_ok (tree h1)) as Hok1 by (destruct Ha as [[fl ->] _]; done).
  assert (Forall (foreseen (tree h1)) (pl_changes pl)) as Hfs1.
  { eapply Forall_impl; [exact Hfs|]. intros x Hx. eapply foreseen_evolves; [done|].
    destruct Ha as [[fl ->] _]. exact (evolves_refl (tree h)). }
  assert (∀ k h2, moment uuid w pl h1 k h2 → journal_on h2 (pl_id pl) = Some j) as Hjm.
  { intros k h2 [(_ & E & _) _]. by rewrite (journal_on_reading h1 h2). }
  assert (∀ k, accounts k j) as Hacck.
  { intros k. unfold accounts in *. rewrite Hst in *. done. }
  assert (∀ k h2 h3, moment uuid w pl h1 k h2 → aside h2 h3 → accounted k h h3 → safe h h3) as Hsafe.
  { intros k h2 h3 Hm Ha3 Hacc3. exists k. split; [by eapply with_first_aside|done]. }
  apply wp_bind. eapply wp_mono; [apply wp_publish_plan; [done..|]|intros e He; exact He|].
  { intros k h2 Hm. apply HP. apply (Hsafe k h2 h2); [done..|]. right. left. exists j. eauto. }
  intros r h2 (pub & k & c & at_ & done_ & -> & [Hm Hat Hb Hdone]).
  pose proof (Hjm _ _ Hm) as Hj2.
  assert (∀ j', accounts done_ j' → j_state j' ≠ Publishing →
    wp P (do? _ := write_journal j' in ret j')%W h2 (λ r h3,
      match r with
      | Ok j' => ∃ k h2, moment uuid w pl h1 k h2 ∧ aside h2 h3 ∧
          journal_on h3 (pl_id pl) = Some j' ∧ accounts k j' ∧ j_state j' ≠ Publishing
      | Err _ => safe h h3
      end)) as Hwrite.
  { intros j' Hacc' Hst'. apply wp_bind.
    eapply wp_mono; [by eapply (wp_conclude P h h1 h2 done_ j j')|intros e He; exact He|].
    intros [[]|e] h3 (Ha3 & j3 & Hj3 & Hacc3 & Hjj).
    - apply wp_ret. rewrite Hjj in Hj3 by done. exists done_, h2. by rewrite Hjj in Hacc3.
    - apply (Hsafe done_ h2 h3); [done..|]. right. left. by exists j3. }
  rewrite H0, Hc0. simpl. unfold conclude.
  assert (∀ k st (b : bool) n, accounts k j →
    match st with
    | Completed => k = length (pl_changes pl)
    | Partial => n = k
    | Indeterminate => b = true ∧ (k = n ∨ k = S n)
    | Publishing => True
    end →
    accounts k {| revert_id := revert_id j; j_holder := j_holder j; order := order j; direction := direction j;
     j_seqs := j_seqs j; j_state := st; total_files := total_files j;
     applied_files := n; total_directories := total_directories j;
     created_directories := c; reconciliation_required := b; stopped_at := at_ |}) as Hnew.
  { intros k' st b n (A1 & A2 & A3 & A4 & A5 & _) Hs. unfold accounts. simpl.
    destruct st; split_and!; first [done|apply Hs]. }
  destruct pub as [|e|].
  - destruct Hdone as (-> & -> & -> & -> & _). apply Hwrite; [|done]. by apply Hnew.
  - destruct Hdone as (-> & Hmt & Hlt).
    destruct (Nat.eqb_spec k 0) as [Hk|Hk]; simpl; [destruct (Nat.eqb_spec c 0) as [Hc|Hc]|].
    + assert (untouched h1 h2) as Hun by (by apply (untouched_refused h1 h2 k c); try done; apply Hm).
      assert (∀ h3, aside h2 h3 → safe h h3) as Hs3.
      { intros h3 Ha3. apply (Hsafe k h2 h3); [done..|]. left. intros q Hq.
        destruct Ha as [[fl E] _], Ha3 as [[fl3 E3] _]. rewrite E3. simpl.
        change (shown (with_tree_faults fl3 (tree h2)) q) with (shown (tree h2) q).
        rewrite Hun by done. by rewrite E. }
      apply wp_bind, wp_lift. destruct (journal_path (revert_id j)) as [p|e']; [|by apply Hs3].
      apply wp_bind. eapply wp_mono; [apply within_remove|intros e' He'; exact He'|].
      { intros h3 Ha3. by apply HP, Hs3. }
      intros [b|e'] h3 Ha3; [|by apply Hs3].
      apply wp_bind. eapply wp_mono; [apply within_sync|intros e' He'; exact He'|].
      { intros h4 [Ha4 _]. apply HP, Hs3. by etrans. }
      intros [[]|e'] h4 [Ha4 _]; [apply wp_throw|]; apply Hs3; by etrans.
    + apply Hwrite; [|done]. by apply Hnew.
    + apply Hwrite; [|done]. by apply Hnew.
  - destruct Hdone as [Hd _]. apply Hwrite; [|done]. by apply Hnew.
Qed.

Lemma first_journal_accounts stack :
  accounts 0 (first_journal pl stack) ∧
  (j_state (first_journal pl stack) = Publishing → begun (first_journal pl stack)).
Proof.
  unfold first_journal. destruct (bool_decide_reflect (length (pl_changes pl) = 0)) as [E|E];
    destruct (bool_decide_reflect (length (pl_created pl) = 0)) as [E'|E']; simpl;
    (split; [|by unfold begun]); unfold accounts; simpl; by rewrite ?E.
Qed.

Lemma wp_execute_revert token P h :
  apart uuid pl → tree_ok (tree h) → Forall (foreseen (tree h)) (pl_changes pl) →
  (∀ h', safe h h' → P h') →
  wp P (execute_revert uuid (Some w) pl token) h (concluded h).
Proof.
  intros Hap Hok Hfs HP. pose proof (safe_aside h) as Haside.
  assert (∀ h', aside h h' → P h') as HPa by auto.
  assert (∀ e h', aside h h' → concluded h (Err e) h') as Herr by (intros; apply concluded_error; auto).
  unfold execute_revert. apply wp_bind. unfold the_workspace. apply wp_ret.
  apply wp_bind. eapply wp_mono; [apply within_settle; exact HPa|done|].
  intros [[]|e] h1 H1; [|by apply Herr].
  apply wp_bind. eapply wp_mono; [apply within_journals; intros h' [Hr _]; apply HPa; by etrans|done|].
  intros [js|e] h2 [H2 _]; [|apply Herr; by etrans]. assert (aside h h2) as Ha2 by (by etrans). clear h1 H1 H2.
  set (stack := stack_of js (pl_holder pl)).
  apply wp_bind. assert (within reading (unchanged_since pl js stack)) as Hwu.
  { unfold unchanged_since. destruct (pl_direction pl); [|apply within_ret, _].
    apply within_bind; [apply _|apply within_held|]. intros ?. apply within_ret, _. }
  eapply wp_mono; [apply Hwu; intros h' [Hr _]; apply HPa; by etrans|done|].
  intros [unchanged|e] h3 [H3 _]; [|apply Herr; by etrans].
  assert (aside h h3) as Ha3 by (by etrans). clear h2 Ha2 H3 Hwu.
  destruct (negb unchanged || (0 <? pl_conflicts pl)); [by apply wp_throw, Herr|].
  destruct (full js); [by apply wp_throw, Herr|].
  set (j := first_journal pl stack). destruct (first_journal_accounts stack) as [Hacc Hbegun]. fold j in Hacc, Hbegun.
  assert (revert_id j = pl_id pl) as Eid by apply Hacc.
  apply wp_bind. eapply wp_mono; [apply wp_write_journal|intros e He; exact He|].
  { intros h' Ha' _. apply HPa. by etrans. }
  intros [[]|e] h4 [H4 Hj]; [|apply Herr; by etrans].
  destruct Hj as [Hj|[Hn _]]; [|by destruct Hn].
  assert (aside h h4) as Ha4 by (by etrans). rewrite Eid in Hj.
  apply wp_bind. destruct (bool_decide_reflect (j_state j = Publishing)) as [Est|Est].
  - eapply wp_mono; [apply (wp_middle P h h4 j token); auto|intros e He; exact He|].
    intros [j'|e] h5 Hr; [|by apply concluded_error].
    destruct Hr as (k & h6 & Hm & Ha6 & Hj' & Hacc' & Hst'). by apply (wp_after P h h4 h6 h5 k j').
  - apply wp_ret. apply (wp_after P h h4 h4 h4 0 j); try done.
    apply moment_none. by destruct Ha4 as [[fl ->] _].
Qed.
End executing.

(** ** From a plan to what it replaces *)

Section plans.
Context `{GL : GitLib} `{JL : JsonLib}.
Context (uuid : N → list N) (w : WorkspaceAccess).

Lemma live_at_present t path content stamp mode :
  live_at w t path = LEntry content stamp mode →
  ∃ ino n, node_at t path = Some (ino, n) ∧ stamp_of ino n = stamp ∧
    is_state (Some (i_kind n, i_mode n)) (Some content).
Proof.
  intros E. destruct (live_at_holds w t path content stamp mode E) as [Hh Hs].
  unfold holds, shown in Hh. unfold stamp_at in Hs. destruct (node_at t path) as [[ino n]|]; [|done].
  simpl in *. injection Hs as Hs. by exists ino, n.
Qed.

(** What was planned is foreseen in whatever the tree becomes. *)
Lemma planned_foreseen t0 t c ch :
  tree_ok t0 → planned_for w t0 c ch → evolves t0 t → foreseen t ch.
Proof.
  intros Hok [_ Es _ Hs _ He] Hev. unfold foreseen. rewrite Es.
  destruct (live_at w t0 (cp_path c)) as [|content stamp mode|] eqn:El; simpl in He.
  - injection He as -> _. simpl in Hs. by destruct (cp_source c).
  - injection He as -> _. intros t' ino n Hev' Hn Hst.
    destruct (live_at_present _ _ _ _ _ El) as (ino0 & n0 & Hnode & Hst0 & Hstate).
    simpl in Hs. destruct (cp_source c) as [content'|]; [|done].
    apply bool_decide_eq_true_1 in Hs as ->.
    unfold node_at in Hnode. destruct (Worktree.names t0 !! cp_path c) as [i|]; [|done]. simpl in Hnode.
    destruct (inodes t0 !! i) as [x|] eqn:Ex; [|done]. simpl in Hnode. injection Hnode as -> ->.
    rewrite <- Hst0 in Hst. unfold stamp_of in Hst. injection Hst as -> _ _ _ Hch.
    assert (evolves t0 t') as Hev2 by (by eapply evolves_trans).
    assert (inodes t0 !! ino0 = Some n) as Hn0.
    { apply Hev2; [done|]. rewrite Hch. by apply Hok in Ex as [_ ?]. }
    rewrite Ex in Hn0. by injection Hn0 as ->.
  - done.
Qed.

Lemma land_land a b c : N.land (N.land a b) c = N.land a (N.land b c).
Proof. symmetry. apply N.land_assoc. Qed.

(** Execution keeps whether a file is executable, and gives it to a new file unless the umask
    takes it from its owner. *)
Lemma restored_mode_kind replaced executable umask :
  (N.land umask OWNER_EXECUTABLE = 0)%N →
  kind_of_mode (restored_mode replaced executable umask) =
    if executable then Executable else SnapshotTree.File.
Proof.
  intros Hu. unfold kind_of_mode. rewrite land_land.
  change (N.land PERMISSION_BITS OWNER_EXECUTABLE) with OWNER_EXECUTABLE.
  assert (∀ m, (N.land m OWNER_EXECUTABLE =? 0)%N = negb (N.testbit m 6)) as Hbit.
  { intros m. destruct (N.eqb_spec (N.land m OWNER_EXECUTABLE) 0) as [E|E].
    - assert (N.testbit (N.land m OWNER_EXECUTABLE) 6 = false) as Ht by (by rewrite E).
      rewrite N.land_spec in Ht. change (N.testbit OWNER_EXECUTABLE 6) with true in Ht.
      rewrite andb_true_r in Ht. by rewrite Ht.
    - destruct (N.testbit m 6) eqn:Et; [done|]. exfalso. apply E. apply N.bits_inj. intros i.
      rewrite N.land_spec, N.bits_0. destruct (decide (i = 6%N)) as [->|Hne]; [by rewrite Et|].
      change OWNER_EXECUTABLE with (2 ^ 6)%N. rewrite N.pow2_bits_false by done. by rewrite andb_false_r. }
  rewrite Hbit. unfold restored_mode. assert (N.testbit umask 6 = false) as Hu6.
  { apply not_true_iff_false. intros Ht. pose proof (Hbit umask) as H. rewrite Hu, Ht in H. done. }
  destruct replaced as [mode|].
  - case_bool_decide as E.
    + rewrite Hbit, negb_involutive in E. rewrite E. by destruct executable.
    + destruct executable.
      * rewrite !N.lor_spec. change (N.testbit OWNER_EXECUTABLE 6) with true.
        by rewrite orb_true_r.
      * rewrite N.ldiff_spec. change (N.testbit EXECUTE_BITS 6) with true. by rewrite andb_false_r.
  - rewrite N.ldiff_spec, Hu6. by destruct executable.
Qed.

Lemma wanted_holds o t ch :
  (N.land (w_umask w) OWNER_EXECUTABLE = 0)%N → shows_wanted w o t ch → holds t (pc_path ch) (pc_target ch).
Proof.
  intros Hu (c & Hw & Hs). unfold holds. rewrite Hs. unfold wanted in Hw.
  destruct (pc_target ch) as [[kind oid]|]; [|by injection Hw as <-]. simpl in Hw.
  destruct (read_blob o oid) as [bytes|] eqn:Eb; [|done]. injection Hw as <-.
  assert (blob_id bytes = Ok oid) as Hid.
  { unfold read_blob, ObjectStore.read_object in Eb. destruct (try_find o oid) as [[[found data]|]|]; [|done..].
    destruct (bool_decide_reflect (found = KBlob)) as [->|]; [|done]. simpl in Eb.
    destruct (bool_decide_reflect (compute_hash KBlob data = Some oid)) as [Eh|]; [|done].
    injection Eb as ->. unfold blob_id. by rewrite Eh. }
  assert (∀ b : bool, kind_of_mode (N.land (restored_mode (replaced_mode ch) b (w_umask w)) PERMISSION_BITS)
    = if b then Executable else SnapshotTree.File) as Hk.
  { intros b. rewrite <- (restored_mode_kind (replaced_mode ch) b (w_umask w) Hu).
    unfold kind_of_mode. by rewrite !land_land. }
  unfold restored. simpl. destruct kind; simpl; rewrite ?Hk; split; done.
Qed.
End plans.

(** ** The property *)

Section property.
Context `{GL : GitLib} `{JL : JsonLib}.
Context (uuid : N → list N) (w : WorkspaceAccess) (pl : RevertPlan).

(** The tree with exactly the first [k] changes of the plan: those paths held what the plan saw
    and hold what it writes, the others show what they showed; and nothing else has changed but
    the names of temporaries and of directories the plan creates. *)
Definition placed (k : nat) (h h' : Host) : Prop :=
  objects h' = objects h ∧ inv (touches uuid pl) (tree h) (tree h') ∧ k ≤ length (pl_changes pl) ∧
  Forall (λ ch, holds (tree h) (pc_path ch) (pc_source ch) ∧ holds (tree h') (pc_path ch) (pc_target ch))
    (take k (pl_changes pl)) ∧
  Forall (λ ch, shown (tree h') (pc_path ch) = shown (tree h) (pc_path ch)) (drop k (pl_changes pl)).

Lemma with_first_placed k h h' :
  (N.land (w_umask w) OWNER_EXECUTABLE = 0)%N → with_first uuid w pl k h h' → placed k h h'.
Proof.
  intros Hu (Ho & Hi & Hk & Ht & Hd). split_and!; [done..| |done].
  eapply Forall_impl; [exact Ht|]. intros x [Hw Hh]. split; [done|]. by eapply wanted_holds.
Qed.

Lemma plan_for_foreseen t0 rid holder dir ss stack recs t :
  plan_for w t0 rid holder dir ss stack recs pl → tree_ok t0 → evolves t0 t →
  Forall (foreseen t) (pl_changes pl).
Proof.
  intros Hp Hok Hev. apply Forall_forall. intros ch Hch.
  destruct (pn_changes _ _ _ _ _ _ _ _ _ Hp ch Hch) as (c & _ & Hf). by eapply planned_foreseen.
Qed.

End property.

(** C2: The execution of a plan, whatever happens to the workspace between its preparation and
    then and whatever call fails or at what moment the process dies, has some first [k] changes
    of the plan in place and no other: each of them replaced exactly what the plan saw at that
    path, and the content and executable bit there are now what the records say; every other
    path shows what it showed.  And it is always accounted for: at every moment nothing is
    changed, or a journal with the plan's records is on disk, which once it says how the
    execution went says truly how many changes are in place, or an unrevert is complete. *)
Theorem execute_revert_safe `{GL : GitLib} `{JL : JsonLib} uuid w pl token t0 rid holder dir ss stack
    recs h :
  plan_for w t0 rid holder dir ss stack recs pl → tree_ok t0 → evolves t0 (tree h) →
  tree_ok (tree h) → apart uuid pl → (N.land (w_umask w) OWNER_EXECUTABLE = 0)%N →
  wp (λ m, ∃ k, placed uuid pl k h m ∧ accounted uuid pl k h m)
    (execute_revert uuid (Some w) pl token) h
    (λ r h', ∃ k, placed uuid pl k h h' ∧
      match r with
      | Ok _ =>
          (∃ j, journal_on h' (pl_id pl) = Some j ∧ accounts pl k j ∧ j_state j ≠ Publishing) ∨
          (pl_direction pl = Unrevert ∧ k = length (pl_changes pl))
      | Err _ => accounted uuid pl k h h'
      end).
Proof.
  intros Hp Hok0 Hev Hok Hap Hu. eapply wp_mono.
  - apply (wp_execute_revert uuid w pl token (safe uuid w pl h)); [done|done| |done].
    by eapply plan_for_foreseen.
  - intros m (k & Hm & Ha). exists k. split; [by eapply with_first_placed|done].
  - intros r h' (k & Hm & Hr). exists k. split; [by eapply with_first_placed|done].
Qed.

Module ExampleRevert.
Export ExampleGit.

#[export] Instance example_json : JsonLib :=
  {| state_json := λ _, 10%N; open_json := λ _, 10%N; record_json := λ _, 10%N;
     journal_json := λ _, 10%N; evicted_json := λ _, 10%N |}.

Definition oid_of (s : list N) : ObjectId := 1%N :: s.
Definition as_file (s : list N) : PathState :=
  Some {| c_kind := SnapshotTree.File; c_oid := oid_of s |}.
Definition access : WorkspaceAccess :=
  {| protects := λ _, false; w_exclusions := []; w_umask := 0x12 |}.

(** What a task did: [d/a] went from "one" to "two", [d/n] appeared, and [x/y] went away. *)
Definition record : StoredRecord :=
  {| seq := 1; r_ticket := TICKET_PREFIX ++ replicate 32 48%N; holders := {[ lit "task" ]}; r_client := [];
     r_changes := [{| sc_path := lit "d/a"; before := as_file (lit "one"); after := as_file (lit "two") |};
                   {| sc_path := lit "d/n"; before := None; after := as_file (lit "new") |};
                   {| sc_path := lit "x/y"; before := as_file (lit "old"); after := None |}];
     unrecorded := [] |}.

Definition node_of (k : NodeKind) (m : N) : Inode :=
  {| i_kind := k; i_mode := m; i_modified := 1; i_changed := 1 |}.
Definition tree0 (fl : list bool) : Tree :=
  {| Worktree.names := {[ lit "d" := 1%N; lit "d/a" := 2%N; lit "d/n" := 3%N; lit "b" := 2%N ]};
     inodes := {[ 1%N := node_of KDirectory 0x1ED; 2%N := node_of (KFile (lit "two")) 0x1A4;
                  3%N := node_of (KFile (lit "new")) 0x1A4 ]};
     next_inode := 4; clock := 2; next_uuid := 0; tree_faults := fl |}.
Definition uuids (n : N) : list N := [48 + n]%N.

Definition stored (data : list N) (s : Store) : Store :=
  world (ObjectStore.sync (write_blob data (start s)).2).2.
Definition store : Store := stored (lit "one") (stored (lit "old") (empty_store [])).

Definition host0 (fl : list bool) : Host :=
  {| tree := tree0 fl;
     files := {| file_map := {[ record_path 1 := {| sf_bytes := 10; sf_value := VRecord record |} ]};
                 temps := ∅; next_temp := 0; file_faults := [] |};
     objects := store; cancels := []; clock_ms := 0; next_random := 0 |}.

Definition rid : list N := REVERT_ID_PREFIX ++ replicate 32 48%N.
Definition planned_ : Result RevertPlan SnapshotError :=
  (plan (Some access) rid (lit "task") Revert [1%N] [] [record] Uncancelled (start (host0 []))).1.

Lemma tree0_ok fl : tree_ok (tree0 fl).
Proof.
  split.
  - intros p ino H. unfold tree0 in *. simpl in *.
    repeat (apply lookup_insert_Some in H as [[_ <-]|[_ H]]; [vm_compute; by eexists|]).
    apply lookup_singleton_Some in H as [_ <-]. vm_compute. by eexists.
  - intros ino n H. unfold tree0 in *. simpl in *.
    repeat (apply lookup_insert_Some in H as [[<- <-]|[_ H]]; [simpl; lia|]).
    apply lookup_singleton_Some in H as [<- <-]. simpl. lia.
Qed.

Lemma planned_for_tree0 pl :
  planned_ = Ok pl → plan_for access (tree0 []) rid (lit "task") Revert [1%N] [] [record] pl.
Proof.
  intros E. assert (Forall (λ c, valid_path (cp_path c) = true) (compose [record] Revert).1) as Hv.
  { apply (bool_decide_unpack _). vm_compute. exact I. }
  destruct (looks_plan (Some access) (host0 []) access rid (lit "task") Revert [1%N] [] [record]
    Uncancelled eq_refl Hv (λ _, True) (λ _ _, I) (start (host0 [])) eq_refl) as [(_ & H & _) _].
  by apply H.
Qed.

(** Paths apart, by computation: no name of a temporary ends as these paths do. *)
Definition apart_check (pl : RevertPlan) : bool :=
  bool_decide (NoDup (map pc_path (pl_changes pl))) &&
  forallb (λ c, bool_decide (pc_path c ∉ pl_created pl) && negb (bool_decide (last (pc_path c) = Some 112%N)))
    (pl_changes pl) &&
  forallb (λ d, negb (bool_decide (last d = Some 112%N))) (pl_created pl).

Lemma apart_checked pl : apart_check pl = true → apart uuids pl.
Proof.
  unfold apart_check. rewrite !andb_true_iff, bool_decide_eq_true, !forallb_forall.
  intros [[Hn Hc] Hd]. split; [done|..]; apply Forall_forall; intros x Hx;
    rewrite list_elem_of_In in Hx; [apply Hc in Hx|apply Hc in Hx|apply Hd in Hx].
  - apply andb_true_iff in Hx as [Hx _]. by apply bool_decide_eq_true in Hx.
  - apply andb_true_iff in Hx as [_ Hx]. intros Hs%scratch_last. by rewrite bool_decide_true in Hx.
  - intros Hs%scratch_last. by rewrite bool_decide_true in Hx.
Qed.

(** The whole of it: [d/a] is as it was before, though not under its other name; [d/n] is gone
    and [x/y] is back, its directory created. *)
Lemma execute_revert_safe_witness :
  ∃ pl, planned_ = Ok pl ∧
  let '(r, s) := execute_revert uuids (Some access) pl Uncancelled (start (host0 [])) in
  is_ok r = true ∧ shown (tree (world s)) (lit "b") = Some (KFile (lit "two"), 0x1A4%N) ∧
  holds (tree (world s)) (lit "x/y") (as_file (lit "old")) ∧
  ∃ k, placed uuids pl k (host0 []) (world s).
Proof.
  assert (match planned_ with Ok p => apart_check p | Err _ => false end = true) as Hcheck
    by (vm_compute; reflexivity).
  assert (match planned_ with
    | Ok p => let '(r, s) := execute_revert uuids (Some access) p Uncancelled (start (host0 [])) in
        is_ok r = true ∧ shown (tree (world s)) (lit "b") = Some (KFile (lit "two"), 0x1A4%N) ∧
        shown (tree (world s)) (lit "x/y") = Some (KFile (lit "old"), 0x1A4%N)
    | Err _ => False end) as Hrun by (vm_compute; split_and!; reflexivity).
  pose proof planned_for_tree0 as Hfor. destruct planned_ as [pl|e]; [|contradiction].
  exists pl. split; [reflexivity|].
  pose proof (execute_revert_safe uuids access pl Uncancelled (tree0 []) rid (lit "task") Revert [1%N]
    [] [record] (host0 []) (Hfor pl eq_refl) (tree0_ok []) (evolves_refl _) (tree0_ok [])
    (apart_checked pl Hcheck) eq_refl (start (host0 [])) eq_refl) as [(k & Hk & _) _].
  destruct (execute_revert uuids (Some access) pl Uncancelled (start (host0 []))) as [r s].
  destruct Hrun as (Hr & Hb & Hy). split; [exact Hr|]. split; [exact Hb|]. split; [|by exists k].
  unfold holds. rewrite Hy. split; reflexivity.
Defined.
End ExampleRevert.
