(* ===== verification/RevertSettle.v ===== *)
(** * What a revert is prepared from and settles to

    Plans are prepared from records the holder holds ([prepare_revert]), and a journal a crash
    left publishing is settled by what the tree shows ([reconcile]). *)

From stdpp Require Import gmap sorting.
From S2P Require Import Prelude Utf8 Effects ObjectStore SnapshotTree Records Recording.
From S2P Require Import Worktree ChangeStore StoreReads Reverts RevertPlans RevertPublish.

(** ** Paths of valid records *)

Lemma valid_record_paths r c : valid_record r = true → c ∈ r_changes r → valid_path (sc_path c) = true.
Proof.
  unfold valid_record. rewrite !andb_true_iff, !forallb_forall. intros [[[_ H] _] _] Hc.
  apply list_elem_of_In, H in Hc. by apply andb_true_iff in Hc as [? _].
Qed.

Lemma composed_recorded records dir c :
  c ∈ (compose records dir).1 → ∃ r x, r ∈ records ∧ x ∈ r_changes r ∧ sc_path x = cp_path c.
Proof.
  intros Hc. pose proof (compose_describes records dir) as H. destruct (compose records dir) as [cs cf].
  destruct H as (_ & _ & H & _). destruct c as [p s t]. apply H in Hc as (_ & _ & b & a & [x Hs] & _).
  simpl. assert (edges p records ≠ []) as Hne by (by destruct (edges p records)). clear Hs H.
  unfold edges in Hne. induction records as [|r rs IH]; [done|]. simpl in Hne.
  destruct (record_edges p r) as [|e es] eqn:Er.
  - destruct IH as (r' & x' & ? & ? & ?); [done|]. exists r', x'. split; [by right|done].
  - unfold record_edges in Er. destruct (filter _ (r_changes r)) as [|y ys] eqn:Ef; [done|].
    assert (y ∈ filter (λ c, sc_path c = p) (r_changes r)) as Hy by (rewrite Ef; by left).
    apply list_elem_of_filter in Hy as [??]. exists r, y. split; [by left|done].
Qed.

Lemma composed_valid records dir :
  Forall (λ r, valid_record r = true) records →
  Forall (λ c, valid_path (cp_path c) = true) (compose records dir).1.
Proof.
  intros Hr. rewrite Forall_forall in Hr. apply Forall_forall. intros c Hc.
  destruct (composed_recorded _ _ _ Hc) as (r & x & Hin & Hx & <-). by eapply valid_record_paths, Hx; auto.
Qed.

Lemma composed_once records dir : NoDup (map cp_path (compose records dir).1).
Proof.
  pose proof (compose_describes records dir) as H. destruct (compose records dir) as [cs cf].
  destruct H as (H & _). by apply StronglySorted_NoDup_key.
Qed.

Section settling.
Context `{GL : GitLib} `{JL : JsonLib}.
Context (uuid : N → list N) (w : WorkspaceAccess).

(** ** The records a revert names *)

Definition records_of (fs : Files) (ss : list N) (recs : list StoredRecord) : Prop :=
  Forall2 (λ s r, record_at fs s = Ok (Some r)) ss recs.

Lemma records_of_valid fs ss recs :
  records_of fs ss recs → Forall (λ r, valid_record r = true) recs ∧ map seq recs = ss.
Proof.
  induction 1 as [|s r ss recs Hr _ [IH1 IH2]]; [done|].
  destruct (record_at_valid _ _ _ Hr) as [Hv Hs]. split; [by constructor|]. simpl. by rewrite Hs, IH2.
Qed.

Lemma listed_records_of fs ss recs :
  collect_ok (listed_record_at fs) ss = Ok recs → records_of fs ss recs.
Proof.
  apply collect_ok_Forall. intros s r. unfold listed_record_at.
  destruct (record_at fs s) as [[r'|]|]; try done. by intros [= <-].
Qed.

Lemma looks_named h ss :
  looks h (named ss) (answer (collect_ok (listed_record_at (files h)) ss))
    (collect_ok (listed_record_at (files h)) ss).
Proof. apply looks_map_io; [done|]. intros. apply looks_listed_record. Qed.

(** The records a holder has, or not. *)
Definition held_record_at (holder : str) (fs : Files) (s : N) : Result StoredRecord SnapshotError :=
  (let? r := record_at fs s in
   match r with
   | Some r => if bool_decide (holder ∈ holders r) then Ok r else Err NotFound
   | None => Err NotFound
   end)%W.

Lemma looks_held h holder ss :
  looks h (held holder ss) (answer (collect_ok (held_record_at holder (files h)) ss))
    (collect_ok (held_record_at holder (files h)) ss).
Proof.
  apply (looks_map_io h (held_record holder) (held_record_at holder)); [done|].
  intros h' s. unfold held_record, held_record_at. apply looks_answer; [apply looks_record|].
  intros h2 [r|] _; [case_bool_decide; [apply looks_ret|apply looks_throw]|apply looks_throw]; by left.
Qed.

Lemma held_records_of holder fs ss recs :
  collect_ok (held_record_at holder fs) ss = Ok recs →
  records_of fs ss recs ∧ Forall (λ r, holder ∈ holders r) recs.
Proof.
  intros H. assert (Forall2 (λ s r, record_at fs s = Ok (Some r) ∧ holder ∈ holders r) ss recs) as Hf.
  { eapply collect_ok_Forall; [|exact H]. intros s r. unfold held_record_at.
    destruct (record_at fs s) as [[r'|]|]; try done. simpl. case_bool_decide; [|done]. by intros [= <-]. }
  split; [eapply Forall2_impl; [exact Hf|naive_solver]|].
  clear H. induction Hf as [|s r ss recs [_ ?] _ IH]; by constructor.
Qed.

(** ** Reconciling *)

(** A plan on the tree as it is now, of a journal's records. *)
Definition replan_of (h : Host) (j : StoredJournal) : Result RevertPlan SnapshotError :=
  (let? recs := collect_ok (listed_record_at (files h)) (j_seqs j) in
   plan_of w (tree h) (revert_id j) (j_holder j) (direction j) (j_seqs j) [] recs)%W.

Lemma looks_replan h j :
  looks h (do? recs := named (j_seqs j) in
           plan (Some w) (revert_id j) (j_holder j) (direction j) (j_seqs j) [] recs Uncancelled)%W
    (λ r, ∀ p, r = Ok p → ∃ recs, records_of (files h) (j_seqs j) recs ∧
       plan_for w (tree h) (revert_id j) (j_holder j) (direction j) (j_seqs j) [] recs p)
    (replan_of h j).
Proof.
  eapply looks_bind; [apply looks_named| |].
  2:{ intros e _. split; [done|]. unfold replan_of. by intros ->. }
  intros h1 recs Hr1 [Ea|?]; [|done]. symmetry in Ea.
  assert (records_of (files h) (j_seqs j) recs) as Hrecs by by apply listed_records_of.
  destruct (records_of_valid _ _ _ Hrecs) as [Hv _].
  eexists. split; [|unfold replan_of; intros ->; simpl; reflexivity].
  destruct Hr1 as [[[fl E] _] _].
  assert (plan_of w (tree h1) (revert_id j) (j_holder j) (direction j) (j_seqs j) [] recs =
    plan_of w (tree h) (revert_id j) (j_holder j) (direction j) (j_seqs j) [] recs) as <-.
  { unfold plan_of. destruct (compose recs _). by rewrite E, visits_of_faults. }
  eapply looks_mono; [by apply looks_plan, composed_valid| |done].
  simpl. intros r Hp p ->. exists recs. split; [done|]. specialize (Hp p eq_refl). rewrite E in Hp.
  by eapply plan_for_faults.
Qed.

(** The same journal but for its state and what it counts of files. *)
Definition same_revert (j j' : StoredJournal) : Prop :=
  revert_id j' = revert_id j ∧ j_holder j' = j_holder j ∧ order j' = order j ∧
  direction j' = direction j ∧ j_seqs j' = j_seqs j ∧ total_files j' = total_files j ∧
  total_directories j' = total_directories j ∧ created_directories j' = created_directories j ∧
  stopped_at j' = stopped_at j.

(** What is left of a revert: of the paths its records compose, those that do not show what it
    writes; each shows what the records left there.  And its records say what every path of
    theirs went through: none could not be stored, and no history is broken. *)
Record left_to_do (t : Tree) (recs : list StoredRecord) (dir : RevertDirection)
    (rest : list PlannedChange) : Prop := {
  ld_recorded : ∀ p, reason p recs = None ∧ linked (edges p recs) = true;
  ld_all : ∀ c, net_change recs dir c →
    live_matches (live_at w t (cp_path c)) (cp_target c) = true ∨ ∃ ch, ch ∈ rest ∧ planned_for w t c ch;
  ld_only : ∀ ch, ch ∈ rest → ∃ c, net_change recs dir c ∧ planned_for w t c ch;
  ld_once : NoDup (map pc_path rest);
}.

Lemma plan_left_to_do t rid holder dir ss stack recs p :
  plan_for w t rid holder dir ss stack recs p → pl_conflicts p = 0 →
  left_to_do t recs dir (pl_changes p).
Proof.
  intros Hp Hc. split.
  - destruct (pn_conflicts _ _ _ _ _ _ _ _ _ Hp) as (cfs & [_ Hu Hi _ _ _] & El & _). rewrite Hc in El.
    destruct cfs; [|done]. intros p0. assert (reason p0 recs = None) as Hr.
    { destruct (reason p0 recs) as [x|] eqn:Er; [|done]. exfalso. apply (not_elem_of_nil _ (proj2 (Hu p0 (Some x)) (conj (Some_ne_None x) (eq_sym Er)))). }
    split; [done|]. destruct (linked (edges p0 recs)) eqn:Ek; [done|].
    exfalso. by apply (not_elem_of_nil _ (proj2 (Hi p0 None) (conj eq_refl (conj Hr Ek)))).
  - intros c Hn%composed_net. by eapply pn_all.
  - intros ch Hch. destruct (pn_changes _ _ _ _ _ _ _ _ _ Hp ch Hch) as (c & ? & ?). exists c. split; [by apply composed_net|done].
  - eapply sublist_NoDup; [apply composed_once|apply Hp].
Qed.

(** What a reconciled journal says is so. *)
Definition truthful (h : Host) (j j' : StoredJournal) : Prop :=
  match j_state j' with
  | Completed | Partial => ∃ recs rest, records_of (files h) (j_seqs j) recs ∧
      left_to_do (tree h) recs (direction j) rest ∧
      applied_files j' = total_files j - length rest ∧ (j_state j' = Completed ↔ rest = [])
  | Indeterminate => reconciliation_required j' = true ∧ applied_files j' = applied_files j
  | Publishing => False
  end.

Lemma reconciled_truthful h j r :
  (∀ p, r = Ok p → ∃ recs, records_of (files h) (j_seqs j) recs ∧
     plan_for w (tree h) (revert_id j) (j_holder j) (direction j) (j_seqs j) [] recs p) →
  same_revert j (reconciled j r) ∧ truthful h j (reconciled j r).
Proof.
  intros Hp. unfold reconciled, truthful. destruct r as [p|e]; [|done].
  destruct (Nat.eqb_spec (pl_conflicts p) 0) as [Ec|Ec]; [|done].
  split; [done|]. destruct (Hp p eq_refl) as (recs & Hrecs & Hpl).
  pose proof (plan_left_to_do _ _ _ _ _ _ _ _ Hpl Ec) as Hl. simpl.
  case_bool_decide as E; exists recs, (pl_changes p); split_and!; try done.
  - split; [intros _; by apply nil_length_inv|done].
  - split; [done|]. intros Enil. by rewrite Enil in E.
Qed.

End settling.

(** C13: Reconciling an interrupted revert never fails, changes nothing, and says the truth of
    the workspace: it completes the revert only if its records say what each of their paths went
    through (none of which they could not store, and no history broken) and every path they
    compose shows what the revert writes; otherwise it counts exactly the paths that do not, if
    each of them still holds what the records left there; if any shows something else, or cannot
    be seen, or is one its records do not account for, it asks for reconciliation.  Without
    failures it asks for that only when a path is in conflict or a record cannot be read. *)
Theorem reconcile_truthful `{GL : GitLib} `{JL : JsonLib} w j h :
  wp (reading h) (reconcile (Some w) j) h (λ r h', reading h h' ∧
    ∃ j', r = Ok j' ∧ same_revert j j' ∧ truthful w h j j' ∧
      (well h → ∀ p, replan_of w h j = Ok p → pl_conflicts p = 0 → j_state j' ≠ Indeterminate)).
Proof.
  unfold reconcile. apply wp_bind, wp_attempt.
  eapply wp_mono; [by apply (looks_replan w h j)|intros e He; exact He|].
  intros r h' (Hr & Hp & Hw). apply wp_ret. split; [done|]. exists (reconciled j r).
  destruct (reconciled_truthful w h j r Hp) as [Hs Ht]. split_and!; [done..|].
  intros Hwell p Hplan Hc. destruct (Hw Hwell) as [_ ->]. rewrite Hplan. simpl.
  rewrite Hc. simpl. by case_bool_decide.
Qed.

(** C14: A plan to revert is made of records the holder has, of the given numbers, each once and
    in order, none of which a pending revert names, and it accounts for each of their paths: its
    conflicts, one for a path and shown in order, are exactly the paths a record could not store,
    with the first reason, those whose history is broken, and some of the others, not planned;
    every other path they compose already is as the revert would leave it, or is planned from
    what it holds, which is what the records left.  Nothing else is planned.  Whatever fails,
    preparing changes neither the workspace nor the objects. *)
Theorem prepare_revert_plans `{GL : GitLib} `{JL : JsonLib} uuid w holder selected token h :
  wp (aside h) (prepare_revert uuid (Some w) holder selected token) h (λ r h', aside h h' ∧
    ∀ pl, r = Ok pl →
      let ss := sorted_set (list_to_set selected) in
      ∃ recs js, ss ≠ [] ∧ records_of (files h') ss recs ∧ Forall (λ r, holder ∈ holders r) recs ∧
        journals_at (files h') = Ok js ∧ names_some ss js = false ∧
        (N.of_nat (length js) < MAX_REVERT_JOURNALS)%N ∧
        plan_for w (tree h) (pl_id pl) holder Revert ss [] recs pl).
Proof.
  unfold prepare_revert. set (ss := sorted_set (list_to_set selected)).
  assert (∀ (e : SnapshotError) h', aside h h' → aside h h' ∧ ∀ pl : RevertPlan, Err e = Ok pl →
    ∃ recs js, ss ≠ [] ∧ records_of (files h') ss recs ∧ Forall (λ r, holder ∈ holders r) recs ∧
        journals_at (files h') = Ok js ∧ names_some ss js = false ∧
        (N.of_nat (length js) < MAX_REVERT_JOURNALS)%N ∧
        plan_for w (tree h) (pl_id pl) holder Revert ss [] recs pl) as Herr by (by split).
  case_bool_decide as Ess; [apply wp_throw, Herr; reflexivity|].
  apply wp_bind. eapply wp_mono; [by apply within_settle|done|].
  intros [[]|e] h1 H1; [|by apply Herr].
  apply wp_bind. eapply wp_mono; [apply (looks_journals h1 (aside h)); intros h' [H' _]; by etrans|intros e He; exact He|].
  intros [js|e] h2 (Hr2 & Hjs & _); [|apply Herr; etrans; [done|apply Hr2]].
  assert (journals_at (files h2) = Ok js) as Hjs2.
  { rewrite (reading_files h1 h2 _ journals_at) by done. by apply Hjs. }
  assert (aside h h2) as H2 by (etrans; [done|apply Hr2]). clear h1 H1 Hr2 Hjs.
  unfold full. destruct (N.leb_spec MAX_REVERT_JOURNALS (N.of_nat (length js))) as [|Hfull]; [by apply wp_throw, Herr|].
  destruct (names_some ss js) eqn:Hnames; [by apply wp_throw, Herr|].
  apply wp_bind. eapply wp_mono; [apply (looks_held h2 holder ss (aside h)); intros h' [H' _]; by etrans|intros e He; exact He|].
  intros [recs|e] h3 (Hr3 & Hrecs & _); [|apply Herr; etrans; [done|apply Hr3]].
  assert (aside h h3) as H3 by (etrans; [done|apply Hr3]).
  destruct Hrecs as [Hrecs|?]; [|done]. symmetry in Hrecs. apply held_records_of in Hrecs as [Hrecs Hheld].
  apply wp_bind. unfold revert_id_of. apply wp_bind, wp_host. simpl. apply wp_ret.
  set (h4 := with_random (next_random h3 + 1) h3).
  assert (reading h2 h4) as Hr4 by (split; [split; [apply Hr3|apply Hr3]|apply Hr3]).
  assert (aside h h4) as H4 by (etrans; [exact H2|apply Hr4]).
  destruct (records_of_valid _ _ _ Hrecs) as [Hv _].
  eapply wp_mono; [eapply (looks_plan _ _ w); [done|by apply composed_valid|]|intros e He; exact He|].
  { intros h' [H' _]. by etrans. }
  intros r h5 (Hr5 & Hp & _). split; [etrans; [done|apply Hr5]|]. intros pl ->.
  exists recs, js. assert (reading h2 h5) as Hr25 by (by etrans).
  specialize (Hp pl eq_refl). assert (same_tree (tree h) (tree h4)) as [fl E] by apply H4.
  rewrite E in Hp. apply plan_for_faults in Hp. pose proof (pn_id _ _ _ _ _ _ _ _ _ Hp) as Eid.
  split_and!; [done| |done| |done|done|by rewrite Eid].
  - unfold records_of in *. eapply Forall2_impl; [exact Hrecs|]. intros s r Hs.
    by rewrite (reading_files h2 h5 _ (λ fs, record_at fs s)).
  - by rewrite (reading_files h2 h5 _ journals_at).
Qed.
