(* ===== verification/RevertLive.v ===== *)
(** * Reverts that nothing interferes with

    Without failures, a plan without conflicts is carried out: every directory it needs can be
    made, every entry it expects is still there, though it may be another name of one that
    was already replaced. *)

From stdpp Require Import gmap sorting.
From S2P Require Import Prelude Utf8 Effects ObjectStore SnapshotTree Records Recording.
From S2P Require Import Worktree ChangeStore StoreReads Reverts RevertPlans RevertPublish RevertSettle.

(** ** Paths that can be reached *)

(** Every name is in a directory. *)
Definition rooted (t : Tree) : Prop :=
  ∀ p ino, Worktree.names t !! p = Some ino → ∀ a, above a p → is_directory t a = true.

Definition plain (p : list N) : Prop := Forall (λ c, plain_component c = true) (split_on SLASH p).

Lemma valid_path_plain p : valid_path p = true → plain p.
Proof.
  unfold valid_path, plain. rewrite andb_true_iff, forallb_forall. intros [_ H].
  apply Forall_forall. intros c Hc%list_elem_of_In%H. exact Hc.
Qed.

Lemma parent_from_reaches t cs dir :
  cs ≠ [] → Forall (λ c, plain_component c = true) cs →
  (∀ x y, x ≠ [] → y ≠ [] → cs = x ++ y → is_directory t (join_path dir (join [SLASH] x)) = true) →
  ∃ d n, parent_from t dir cs = Ok (Some (d, n)).
Proof.
  revert dir. induction cs as [|c cs IH]; intros dir Hne Hp Hd; [done|].
  apply Forall_cons in Hp as [Hc Hp]. cbn [parent_from]. rewrite Hc. cbn [negb].
  destruct cs as [|c' cs]; [by eexists _, _|].
  assert (is_directory t (join_path dir c) = true) as Hdir by by apply (Hd [c] (c' :: cs)).
  assert (child_directory t dir c = Ok (Some (join_path dir c))) as ->.
  { unfold child_directory, is_directory in *. destruct (node_at t _) as [[ino x]|]; [|done].
    apply bool_decide_eq_true_1 in Hdir. by rewrite Hdir. }
  apply IH; [done|done|]. intros x y Hx Hy E. destruct x as [|x0 x]; [done|].
  assert (c ≠ []) as Hcne by (by intros ->).
  rewrite <- (join_path_app dir c) by done.
  apply (Hd (c :: x0 :: x) y); [done..|]. by rewrite E.
Qed.

Lemma join_app_above x y : x ≠ [] → y ≠ [] → above (join [SLASH] x) (join [SLASH] (x ++ y)).
Proof.
  intros Hx Hy. induction x as [|a x IH]; [done|]. destruct x as [|b x].
  - destruct y as [|c y]; [done|]. exists (join [SLASH] (c :: y)). done.
  - destruct IH as [z Hz]; [done|]. exists z.
    change (join [SLASH] ((a :: b :: x) ++ y)) with (a ++ [SLASH] ++ join [SLASH] ((b :: x) ++ y)).
    rewrite Hz. change (join [SLASH] (a :: b :: x)) with (a ++ [SLASH] ++ join [SLASH] (b :: x)).
    by rewrite <- !app_assoc.
Qed.

Lemma parent_of_reaches protects t p :
  protects p = false → plain p → (∀ a, above a p → is_directory t a = true) →
  ∃ d n, parent_of protects t p = Ok (Some (d, n)).
Proof.
  intros Hpr Hp Hd. unfold parent_of. rewrite Hpr. apply parent_from_reaches; [apply split_on_nonempty|done|].
  intros x y Hx Hy E. unfold join_path. rewrite bool_decide_true by done. apply Hd.
  rewrite <- (join_split_on SLASH p), E. by apply join_app_above.
Qed.

(** ** What a plan needs *)

Lemma slash_prefixes_sorted done_ path : StronglySorted above (slash_prefixes done_ path).
Proof.
  revert done_. induction path as [|c path IH]; intros d; simpl; [constructor|].
  destruct (c =? SLASH)%N eqn:E; simpl; [|apply IH]. constructor; [apply IH|].
  apply Forall_forall. intros a (x & y & _ & ->)%elem_of_slash_prefixes.
  apply N.eqb_eq in E as ->. exists x. by rewrite reverse_cons, <- app_assoc.
Qed.

Lemma above_trans a b p : above a b → above b p → above a p.
Proof. intros [x ->] [y ->]. exists (x ++ SLASH :: y). by rewrite <- app_assoc. Qed.

Section live.
Context `{GL : GitLib} `{JL : JsonLib}.
Context (uuid : N → list N) (w : WorkspaceAccess) (t : Tree).
Hypothesis Hok : tree_ok t.
Hypothesis Hrooted : rooted t.
(** What is in a protected directory is protected. *)
Hypothesis Hprotects : ∀ a p, above a p → protects w p = false → protects w a = false.

(** A directory is there, or is one to create. *)
Definition available (made : list N → Prop) (a : list N) : Prop := is_directory t a = true ∨ made a.

Lemma named_node p ino : Worktree.names t !! p = Some ino → ∃ n, node_at t p = Some (ino, n).
Proof. intros E. destruct (node_at_names t p ino Hok E) as (n & _ & ?). by exists n. Qed.

Lemma observed_absent_name p :
  valid_path p = true → observed (protects w) t p = Ok ObsAbsent → Worktree.names t !! p = None.
Proof.
  intros Hv Ho. destruct (Worktree.names t !! p) as [ino|] eqn:E; [|done]. exfalso.
  assert (protects w p = false) as Hpr.
  { unfold observed, parent_of in Ho. by destruct (protects w p). }
  destruct (parent_of_reaches (protects w) t p Hpr (valid_path_plain p Hv)) as (d & n & Hp).
  { intros a Ha. by eapply Hrooted. }
  unfold observed in Ho. rewrite Hp in Ho. unfold observed_at in Ho.
  destruct (named_node _ _ E) as [x Hx]. rewrite Hx in Ho. by destruct (i_kind x).
Qed.

Lemma dir_at_present p : dir_at w t p = Present → is_directory t p = true.
Proof.
  unfold dir_at, observed, observed_at, is_directory.
  destruct (parent_of _ _ _) as [[[d n]|]|]; [|done..].
  destruct (node_at t p) as [[ino x]|]; [|done]. by destruct (i_kind x).
Qed.

Lemma dir_at_missing p : valid_path p = true → dir_at w t p = Missing_ → Worktree.names t !! p = None.
Proof.
  intros Hv. unfold dir_at. destruct (observed _ _ _) as [[]|] eqn:E; try done. intros _.
  by apply observed_absent_name.
Qed.

(** What is below something absent is absent. *)
Lemma below_absent a p : above a p → Worktree.names t !! a = None → Worktree.names t !! p = None.
Proof.
  intros Ha Hn. destruct (Worktree.names t !! p) as [ino|] eqn:E; [|done].
  pose proof (Hrooted _ _ E a Ha) as Hd. by apply is_directory_named in Hd.
Qed.

(** What the planner knows of directories. *)
Record knows (pl : Planner) : Prop := {
  kn_present : ∀ a, directories pl !! a = Some Present → is_directory t a = true;
  kn_missing : ∀ a, directories pl !! a = Some Missing_ → a ∈ created pl;
  kn_created : ∀ a, a ∈ created pl → Worktree.names t !! a = None;
}.

Lemma parents_of_knows missing l pl :
  knows pl → StronglySorted above l → Forall (λ a, valid_path a = true) l →
  (missing = true → Forall (λ a, Worktree.names t !! a = None) l) →
  let '(ready, pl') := parents_of w t missing l pl in
  knows pl' ∧ created pl ⊆ created pl' ∧
  (ready = true → Forall (available (λ a, a ∈ created pl')) l).
Proof.
  revert missing pl. induction l as [|a l IH]; intros missing pl Hk Hs Hv Hm; [done|].
  apply Forall_cons in Hv as [Hva Hvl]. apply StronglySorted_inv in Hs as [Hs Ha].
  cbn [parents_of]. set (d := match directories pl !! a with Some d => d | None => _ end).
  assert (match d with
    | Present => is_directory t a = true
    | Missing_ => Worktree.names t !! a = None
    | Blocked_ => True end) as Hd.
  { subst d. destruct (directories pl !! a) as [d|] eqn:E.
    - destruct d; [by apply (kn_present _ Hk)|by apply (kn_created _ Hk), (kn_missing _ Hk)|done].
    - destruct missing; [by specialize (Hm eq_refl); apply Forall_cons in Hm as [? _]|].
      destruct (dir_at w t a) eqn:Ed; [by apply dir_at_present|by apply dir_at_missing|done]. }
  assert (knows (note_directory a d pl)) as Hk'.
  { split; simpl.
    - intros b [[<- E]|[_ E]]%lookup_insert_Some; [by rewrite E in Hd|by apply (kn_present _ Hk)].
    - intros b [[<- E]|[_ E]]%lookup_insert_Some; [rewrite E; set_solver|].
      apply (kn_missing _ Hk) in E. destruct d; set_solver.
    - intros b Hb. assert (b ∈ created pl ∨ b = a ∧ d = Missing_) as [Hb'|[-> E]]
        by (destruct d; set_solver); [by apply (kn_created _ Hk)|by rewrite E in Hd]. }
  assert (∀ pl', created (note_directory a d pl) ⊆ created pl' → created pl ⊆ created pl' ∧
    (d = Missing_ → a ∈ created pl')) as Hsub by (intros pl' Hp; simpl in Hp; destruct d; set_solver).
  destruct d eqn:Ed.
  - specialize (IH missing (note_directory a Present pl) Hk' Hs Hvl).
    destruct (parents_of w t missing l _) as [ready pl'].
    destruct IH as (H1 & H2 & H3); [intros E; specialize (Hm E); by apply Forall_cons in Hm as [_ ?]|].
    split_and!; [done|by apply Hsub|]. intros E. constructor; [by left|auto].
  - specialize (IH true (note_directory a Missing_ pl) Hk' Hs Hvl).
    destruct (parents_of w t true l _) as [ready pl'].
    destruct IH as (H1 & H2 & H3).
    { intros _. eapply Forall_impl; [exact Ha|]. intros b Hb. by eapply below_absent. }
    destruct (Hsub pl' H2) as [? Hin]. split_and!; [done..|]. intros E. constructor; [right; auto|auto].
  - split_and!; [done|by apply Hsub|done].
Qed.

(** A plan without conflicts has every directory it needs, and those it creates in what it
    creates. *)
Record provides (pl : Planner) : Prop := {
  pv_knows : knows pl;
  pv_created_valid : ∀ a, a ∈ created pl → valid_path a = true ∧ protects w a = false ∧
    ∀ b, above b a → available (λ b, b ∈ created pl) b;
  pv_changes : ∀ ch, ch ∈ planned_changes pl → ∃ c, planned_for w t c ch ∧ valid_path (pc_path ch) = true ∧
    ∀ b, above b (pc_path ch) → available (λ b, b ∈ created pl) b;
}.

Lemma available_mono (P Q : list N → Prop) a : (∀ b, P b → Q b) → available P a → available Q a.
Proof. intros H [?|?]; [by left|right; auto]. Qed.

Lemma live_at_protects p : live_at w t p ≠ LOther → protects w p = false.
Proof. unfold live_at, observed, parent_of. by destruct (protects w p). Qed.

Lemma live_entry_above p c stamp mode a :
  live_at w t p = LEntry c stamp mode → above a p → is_directory t a = true.
Proof.
  intros E Ha. destruct (live_at_present w t p c stamp mode E) as (ino & n & Hn & _).
  unfold node_at in Hn. destruct (Worktree.names t !! p) as [i|] eqn:Ei; [|done]. by eapply Hrooted.
Qed.

Lemma parents_of_same missing l pl : same_changes l pl (parents_of w t missing l pl).2.
Proof.
  revert missing pl. induction l as [|a l IH]; intros missing pl; [split_and!; [done..|set_solver]|].
  cbn [parents_of]. set (d := match directories pl !! a with Some d => d | None => _ end).
  assert (∀ pl', same_changes l (note_directory a d pl) pl' → same_changes (a :: l) pl pl') as Hsame.
  { intros pl' (H1 & H2 & H3). split_and!; [done..|]. simpl in *. destruct d; set_solver. }
  destruct d; [apply Hsame, IH..|]. apply Hsame. split_and!; [done..|set_solver].
Qed.

Lemma visit_of_conflicts c pl : conflicts (visit_of w t c pl) = [] → conflicts pl = [].
Proof.
  unfold visit_of. destruct (live_matches _ (cp_target c)); [done|].
  destruct (live_matches _ (cp_source c)); [|simpl; by intros [? _]%app_nil].
  destruct (expected_of _) as [expected mode].
  assert (conflicts (match cp_target c with
    | Some _ => parents_of w t false (slash_prefixes [] (cp_path c)) pl | None => (true, pl) end).2 = conflicts pl) as E
    by (destruct (cp_target c); [apply parents_of_same|done]).
  destruct (match cp_target c with Some _ => _ | None => _ end) as [[] pl']; simpl in *;
    [congruence|intros [? _]%app_nil; congruence].
Qed.

Lemma visit_of_provides c pl :
  valid_path (cp_path c) = true → provides pl → conflicts (visit_of w t c pl) = [] →
  provides (visit_of w t c pl).
Proof.
  intros Hv [Hk Hc Hch] Hnc. unfold visit_of in *.
  destruct (live_matches (live_at w t (cp_path c)) (cp_target c)) eqn:Ht; [by destruct Hk|].
  destruct (live_matches (live_at w t (cp_path c)) (cp_source c)) eqn:Hs;
    [|simpl in Hnc; by apply app_nil in Hnc as [_ ?]].
  destruct (expected_of (live_at w t (cp_path c))) as [expected mode] eqn:Ee.
  assert (live_at w t (cp_path c) ≠ LOther) as Hno by (intros E; by rewrite E in Hs).
  pose proof (live_at_protects _ Hno) as Hpr.
  assert (∀ pl0, knows pl0 → created pl ⊆ created pl0 → planned_changes pl0 = planned_changes pl →
    created pl0 ⊆ created pl ∪ list_to_set (slash_prefixes [] (cp_path c)) →
    (∀ b, above b (cp_path c) → available (λ b, b ∈ created pl0) b) →
    provides (plan_change c expected mode pl0)) as Hplan.
  { intros pl0 Hk0 Hsub Eq Hnew Hav. split; simpl.
    - by destruct Hk0.
    - intros a Ha. destruct (decide (a ∈ created pl)) as [Hin|Hnin].
      + destruct (Hc a Hin) as (? & ? & Hb). split_and!; [done..|]. intros b Hab.
        eapply available_mono; [|by apply Hb]. set_solver.
      + assert (above a (cp_path c)) as Hab by (apply slash_prefixes_above; set_solver).
        split_and!; [by eapply valid_path_above|by eapply Hprotects|]. intros b Hb.
        apply Hav. by eapply above_trans.
    - rewrite Eq. intros ch [Hin|Hin]%elem_of_app.
      + destruct (Hch ch Hin) as (x & ? & ? & Hb). exists x. split_and!; [done..|]. intros b Hab.
        eapply available_mono; [|by apply Hb]. set_solver.
      + apply list_elem_of_singleton in Hin as ->. exists c. simpl. split_and!; [by split|done|done]. }
  destruct (cp_target c) as [target|] eqn:Etarget.
  - pose proof (parents_of_knows false (slash_prefixes [] (cp_path c)) pl Hk
      (slash_prefixes_sorted _ _)) as Hp.
    pose proof (parents_of_same false (slash_prefixes [] (cp_path c)) pl) as Hsame.
    destruct (parents_of w t false _ pl) as [ready pl0].
    destruct Hp as (Hk0 & Hsub & Hav); [|done|].
    { apply Forall_forall. intros a Ha%slash_prefixes_above. by eapply valid_path_above. }
    destruct ready; [|simpl in Hnc; by apply app_nil in Hnc as [_ ?]].
    apply Hplan; [done..|apply Hsame|apply Hsame|]. intros b Hb%slash_prefixes_above.
    specialize (Hav eq_refl). rewrite Forall_forall in Hav. by apply Hav.
  - apply Hplan; [done..|set_solver|]. intros b Hb. left.
    destruct (live_at w t (cp_path c)) as [|content stamp m|] eqn:El; [|by eapply live_entry_above|done].
    by simpl in Ht.
Qed.

Lemma visits_of_provides cs pl :
  Forall (λ c, valid_path (cp_path c) = true) cs → provides pl →
  conflicts (visits_of w t cs pl) = [] → provides (visits_of w t cs pl).
Proof.
  unfold visits_of. revert pl. induction cs as [|c cs IH]; intros pl Hv Hp Hnc; [done|]. simpl in *.
  apply Forall_cons in Hv as [Hc Hv]. apply IH; [done| |done]. apply visit_of_provides; [done..|].
  clear IH Hp. revert Hnc. generalize (visit_of w t c pl) as pl0. clear Hv.
  induction cs as [|c' cs IH]; intros pl0; [done|]. simpl. intros E%IH. by eapply visit_of_conflicts.
Qed.

(** ** Making the directories *)

(** Sorted, what is above a directory comes before it. *)
Lemma above_before (created : gset (list N)) ds d rest b :
  sort_by id (elements created) = ds ++ d :: rest → above b d → b ∈ created → b ∈ ds.
Proof.
  intros E [y Ey] Hb.
  assert (b ∈ sort_by id (elements created)) as Hin.
  { unfold sort_by. by rewrite merge_sort_Permutation, elem_of_elements. }
  assert (StronglySorted (λ a b, bytes_lt (id a) (id b)) (sort_by id (elements created))) as Hs.
  { apply sort_by_sorted. rewrite list_fmap_id. apply NoDup_elements. }
  assert (bytes_lt b d) as Hlt by (rewrite Ey; by apply bytes_cmp_prefix).
  rewrite E in Hin, Hs. apply elem_of_app in Hin as [?|[->|Hr]%elem_of_cons]; [done|..].
  - by apply (irreflexivity bytes_lt) in Hlt.
  - apply StronglySorted_app in Hs as (_ & _ & Hs). apply StronglySorted_inv in Hs as [_ Hs].
    rewrite Forall_forall in Hs. specialize (Hs b Hr). simpl in Hs.
    exfalso. apply (irreflexivity bytes_lt b). by etrans.
Qed.

(** The first of them are made, and nothing else has changed. *)
Record made_so_far (h : Host) (ds : list (list N)) (h' : Host) : Prop := {
  ms_well : well h';
  ms_ok : tree_ok (tree h');
  ms_fresh : fresh uuid (tree h');
  ms_objects : objects h' = objects h;
  ms_inodes : inodes t ⊆ inodes (tree h');
  ms_names : ∀ q, q ∉ ds → Worktree.names (tree h') !! q = Worktree.names t !! q;
  ms_dirs : Forall (λ d, is_directory (tree h') d = true) ds;
}.

Lemma is_directory_kept t' p :
  inodes t ⊆ inodes t' → Worktree.names t' !! p = Worktree.names t !! p →
  is_directory t p = true → is_directory t' p = true.
Proof.
  intros Hi Hn. unfold is_directory, node_at. rewrite Hn.
  destruct (Worktree.names t !! p) as [ino|]; [|done]. simpl.
  destruct (inodes t !! ino) as [n|] eqn:En; [|done]. by rewrite (lookup_weaken _ _ _ _ En Hi).
Qed.

Lemma made_directory h ds h' p :
  made_so_far h ds h' → available (λ a, a ∈ ds) p → is_directory (tree h') p = true.
Proof.
  intros Hm [Hd|Hin]; [|pose proof (ms_dirs _ _ _ Hm) as H; rewrite Forall_forall in H; auto].
  destruct (decide (p ∈ ds)) as [Hin|Hnin].
  - pose proof (ms_dirs _ _ _ Hm) as H. rewrite Forall_forall in H. auto.
  - by apply is_directory_kept; [apply Hm|apply Hm|].
Qed.

Lemma wp_directories_live pl h token rest ds j h' :
  provides pl → Forall (λ d, ¬ scratch uuid d) (sort_by id (elements (created pl))) →
  sort_by id (elements (created pl)) = ds ++ rest → made_so_far h ds h' →
  wp (λ _, True) (publish_directories w token rest j) h' (λ r h'',
    ∃ j', r = Ok (PComplete, j') ∧ made_so_far h (sort_by id (elements (created pl))) h'').
Proof.
  intros Hp Hsc. revert ds j h'. induction rest as [|d rest IH]; intros ds j h' E Hm; simpl.
  { rewrite app_nil_r in E. apply wp_ret. exists j. by rewrite E. }
  pose proof Hm as [Hw Hok' Hf Ho Hi Hn Hd].
  apply wp_bind. eapply wp_mono; [by apply (looks_is_cancelled h' token (λ _, True))|done|].
  intros r h1 (Hr1 & _ & Hv). destruct (Hv Hw) as [Hw1 ->]. clear Hv.
  assert (d ∈ created pl) as Hin.
  { assert (d ∈ sort_by id (elements (created pl))) as H by (rewrite E; apply elem_of_app; right; by left).
    unfold sort_by in H. by rewrite merge_sort_Permutation, elem_of_elements in H. }
  destruct (pv_created_valid _ Hp d Hin) as (Hvalid & Hprot & Habove).
  assert (d ∉ ds) as Hnin.
  { intros H. assert (NoDup (ds ++ d :: rest)) as Hnd.
    { rewrite <- E. unfold sort_by. rewrite merge_sort_Permutation. apply NoDup_elements. }
    apply NoDup_app in Hnd as (_ & Hnd & _). apply (Hnd d H). by left. }
  assert (same_tree (tree h') (tree h1)) as [fl Et] by apply Hr1.
  assert (∀ b, above b d → is_directory (tree h1) b = true) as Hdirs.
  { intros b Hb. rewrite Et. apply (made_directory h ds h' b Hm).
    destruct (Habove b Hb) as [?|Hc]; [by left|right]. by eapply above_before. }
  apply wp_bind, wp_in_tree.
  eapply wp_mono; [apply (wp_create_tree_directory (protects w) uuid (w_umask w) (λ _, True)); [|done]|done|].
  { by rewrite Et. }
  intros r t' [Hinv Hkept Hh _ Hshown Hfresh Hlive].
  assert (r = Ok tt) as ->.
  { apply Hlive; [apply Hw1|by apply parent_of_reaches; [|apply valid_path_plain|]|].
    left. rewrite Et. simpl. rewrite Hn by done. by apply (kn_created _ (pv_knows _ Hp)). }
  apply (IH (ds ++ [d])); [by rewrite <- app_assoc|].
  assert (¬ scratch uuid d) as Hscd.
  { rewrite Forall_forall in Hsc. apply Hsc. rewrite E. apply elem_of_app. right. by left. }
  destruct Hw1 as (Hw1 & Hw2 & Hw3). split; simpl.
  - split_and!; [by apply Hh|done|done].
  - apply Hinv.
  - apply Hfresh; [done|by rewrite Et].
  - rewrite <- Ho. apply Hr1.
  - etrans; [exact Hi|]. rewrite Et in Hkept. exact Hkept.
  - intros q Hq. destruct Hinv as [_ [Hnames _]]. rewrite Hnames, Et; simpl; [apply Hn|]; set_solver.
  - apply Forall_app. split; [|constructor; [apply Hshown; by left|done]].
    eapply Forall_impl; [exact Hd|]. intros b Hb. destruct (decide (b = d)) as [->|Hne].
    + apply Hshown. by left.
    + destruct Hinv as [_ [Hnames _]]. unfold is_directory, node_at in *. rewrite Hnames, Et by done. simpl.
      destruct (Worktree.names (tree h') !! b) as [ino|]; [|done]. simpl in *.
      destruct (inodes (tree h') !! ino) as [n|] eqn:En; [|done]. simpl in *.
      rewrite Et in Hkept. simpl in Hkept. by rewrite (lookup_weaken _ _ _ _ En Hkept).
Qed.

(** ** Publishing the changes *)

Lemma live_at_reached t' p :
  protects w p = false → plain p → (∀ b, above b p → is_directory t' b = true) →
  observed (protects w) t' p = Ok (observed_at t' p).
Proof.
  intros Hpr Hp Hd. destruct (parent_of_reaches (protects w) t' p Hpr Hp Hd) as (d & n & E).
  unfold observed. by rewrite E.
Qed.

(** What shows the same is seen the same, but for its stamp. *)
Lemma live_at_shown t' p content stamp mode :
  plain p → (∀ b, above b p → is_directory t' b = true) → shown t' p = shown t p →
  live_at w t p = LEntry content stamp mode →
  ∃ stamp', live_at w t' p = LEntry content stamp' mode ∧ stamp_at t' p = Some stamp'.
Proof.
  intros Hp Hd Hs El. assert (protects w p = false) as Hpr by (apply live_at_protects; by rewrite El).
  assert (∀ b, above b p → is_directory t b = true) as Hd0 by (intros b; by eapply live_entry_above).
  unfold live_at in El. rewrite (live_at_reached t p) in El by done.
  unfold live_at. rewrite (live_at_reached t' p) by done.
  unfold observed_at, shown, stamp_at in *. destruct (node_at t p) as [[ino n]|]; [|done].
  destruct (node_at t' p) as [[ino' n']|]; [|done]. simpl in *. injection Hs as Hk Hm. rewrite Hk.
  unfold file_kind, permission_bits in *.
  destruct (i_kind n) as [bytes|link| |] eqn:Ek; [..|done|done].
  - rewrite Ek in El. rewrite Hk. destruct (_ <? _)%N; [done|]. unfold entry_of in *.
    destruct (blob_id bytes); [|done]. injection El as <- _ <-. rewrite Hm. by eexists.
  - unfold entry_of in *. destruct (blob_id link); [|done]. injection El as <- _ <-. by eexists.
Qed.

(** A path still to do is as it was, but that other names of its file may have been replaced. *)
Record as_seen (replaced : list TreeStamp) (t' : Tree) (ch : PlannedChange) : Prop := {
  as_name : Worktree.names t' !! pc_path ch = Worktree.names t !! pc_path ch;
  as_shown : shown t' (pc_path ch) = shown t (pc_path ch);
  as_above : ∀ b, above b (pc_path ch) → is_directory t' b = true;
  as_stamp : ∀ stamp, pc_expected ch = ExpPresent stamp → stamp ∈ replaced ∨
    ∀ ino, Worktree.names t !! pc_path ch = Some ino → inodes t' !! ino = inodes t !! ino;
}.

Definition planned_at (ch : PlannedChange) : Prop :=
  ∃ c, planned_for w t c ch ∧ valid_path (pc_path ch) = true.

Inductive seen_live (ch : PlannedChange) : Prop :=
| seen_absent : pc_expected ch = ExpAbsent → Worktree.names t !! pc_path ch = None → seen_live ch
| seen_entry content stamp mode : pc_expected ch = ExpPresent stamp → pc_source ch = Some content →
    live_at w t (pc_path ch) = LEntry content stamp mode → seen_live ch.

Lemma planned_seen ch : planned_at ch → seen_live ch ∧ protects w (pc_path ch) = false.
Proof.
  intros (c & [Ep Es _ Hs _ He] & Hv). rewrite Ep in Hv.
  assert (live_at w t (cp_path c) ≠ LOther) as Hno by (intros E; by rewrite E in Hs).
  split; [|rewrite Ep; by apply live_at_protects].
  destruct (live_at w t (cp_path c)) as [|content stamp mode|] eqn:El; simpl in *; [..|done].
  - injection He as He _. apply seen_absent; [done|]. rewrite Ep.
    apply observed_absent_name; [done|]. unfold live_at in El.
    destruct (observed (protects w) t (cp_path c)) as [[|ino n|l st| |]|]; try done.
    + destruct (_ <? _)%N; [done|]. destruct (i_kind n); try done. unfold entry_of in El.
      by destruct (blob_id bytes).
    + unfold entry_of in El. by destruct (blob_id l).
  - injection He as He _. destruct (cp_source c) as [content'|] eqn:Esrc; [|done].
    apply bool_decide_eq_true_1 in Hs as ->.
    apply (seen_entry _ content' stamp mode); [done|by rewrite Es|by rewrite Ep].
Qed.

Lemma seen_not_directory replaced t' ch :
  planned_at ch → as_seen replaced t' ch → is_directory t' (pc_path ch) = false.
Proof.
  intros Hp Ha. destruct (planned_seen ch Hp) as [Hs _]. apply not_true_iff_false. intros Hd.
  apply (is_directory_shown uuid) in Hd as [m Hd]. rewrite (as_shown _ _ _ Ha) in Hd.
  destruct Hs as [_ En|content stamp mode _ _ El].
  - unfold shown, node_at in Hd. by rewrite En in Hd.
  - destruct (live_at_present w t _ _ _ _ El) as (ino & n & Hn & _ & Hst).
    unfold shown in Hd. rewrite Hn in Hd. injection Hd as Hk _. by rewrite Hk in Hst.
Qed.

Lemma looks_relinked h' ch replaced token :
  well h' → planned_at ch → as_seen replaced (tree h') ch →
  wp (λ _, True) (relinked w ch replaced token) h' (λ r h'', reading h' h'' ∧ well h'' ∧
    ∃ e, r = Ok (Ok e) ∧ expected_holds (tree h') (pc_path ch) (default (pc_expected ch) e) = true).
Proof.
  intros Hw Hp Ha. destruct (planned_seen ch Hp) as [Hs _]. destruct Hp as (c & _ & Hv). unfold relinked.
  destruct Hs as [Ee En|content stamp mode Ee Es El]; rewrite Ee.
  { apply wp_ret. split; [reflexivity|]. split; [done|]. eexists. split; [done|]. simpl.
    unfold stamp_at, node_at. rewrite (as_name _ _ _ Ha), En. done. }
  destruct (live_at_shown (tree h') (pc_path ch) content stamp mode (valid_path_plain _ Hv)
    (as_above _ _ _ Ha) (as_shown _ _ _ Ha) El) as (stamp' & El' & Hst').
  case_bool_decide as Hin; simpl.
  - apply wp_bind, wp_attempt. eapply wp_mono; [by apply (looks_observe h' w _ _ (λ _, True))|done|].
    intros r h'' (Hr & _ & Hwell). destruct (Hwell Hw) as [Hw'' ->]. apply wp_ret.
    split; [done|]. split; [done|]. rewrite El'. simpl. rewrite bool_decide_true by done.
    eexists. split; [done|]. simpl. by apply bool_decide_eq_true.
  - apply wp_ret. split; [reflexivity|]. split; [done|]. eexists. split; [done|]. simpl.
    apply bool_decide_eq_true. destruct (as_stamp _ _ _ Ha stamp Ee) as [?|Hi]; [done|].
    destruct (live_at_present w t _ _ _ _ El) as (ino & n & Hn & Hst & _).
    unfold node_at in Hn. destruct (Worktree.names t !! pc_path ch) as [i|] eqn:En; [|done]. simpl in Hn.
    destruct (inodes t !! i) as [x|] eqn:Ex; [|done]. injection Hn as -> ->.
    unfold stamp_at, node_at. rewrite (as_name _ _ _ Ha), En. simpl.
    rewrite (Hi ino eq_refl), Ex. simpl. by rewrite Hst.
Qed.

(** What publishing a change does when nothing fails. *)
Record published (ch : PlannedChange) (h h' : Host) : Prop := {
  pd_well : well h';
  pd_inv : inv (others uuid (pc_path ch)) (tree h) (tree h');
  pd_fresh : fresh uuid (tree h');
  pd_objects : objects h' = objects h;
  pd_names : ∀ q, q ≠ pc_path ch → Worktree.names (tree h') !! q = Worktree.names (tree h) !! q;
  pd_undisturbed : undisturbed (pc_path ch) (tree h) (tree h');
}.

(** The object a change writes can be read. *)
Definition readable (o : Store) (ch : PlannedChange) : Prop :=
  ∀ target, pc_target ch = Some target → is_ok (read_blob o (c_oid target)).

Lemma wp_publish_change_live ch expected h :
  well h → tree_ok (tree h) → fresh uuid (tree h) → ¬ scratch uuid (pc_path ch) →
  protects w (pc_path ch) = false → plain (pc_path ch) →
  (∀ b, above b (pc_path ch) → is_directory (tree h) b = true) →
  expected_holds (tree h) (pc_path ch) expected = true → is_directory (tree h) (pc_path ch) = false →
  readable (objects h) ch →
  wp (λ _, True) (publish_change uuid w ch expected) h (λ r h', r = Ok (Ok tt) ∧ published ch h h').
Proof.
  intros Hw Hok' Hf Hsc Hpr Hpl Hd He Hnd Hrd. pose proof Hw as (Ht & Hfs & Hc).
  assert (∀ content, match content with TFile source _ => breaks source = None | _ => True end →
    wp (λ _, True) (do? r := in_tree (publish_tree_entry (protects w) uuid (w_umask w) (pc_path ch)
        expected content) in
      ret match r with Ok _ => Ok tt | Err e => Err (refusal e) end)%W h
      (λ r h', r = Ok (Ok tt) ∧ published ch h h')) as Hpub.
  { intros content Hb. apply wp_bind, wp_in_tree.
    eapply wp_mono; [by apply (wp_publish_tree_entry (protects w) uuid (w_umask w) (λ _, True))|done|].
    intros r t' [Hinv Hh _ Hund Hnames Hlive].
    assert (r = Ok tt) as -> by (apply Hlive; try done; by apply parent_of_reaches).
    apply wp_ret. split; [done|]. destruct (Hnames Ht Hf) as [Hn Hf'].
    split; simpl; [split_and!; [by apply Hh|done..]|done..|by apply Hund]. }
  unfold publish_change. destruct (pc_target ch) as [target|] eqn:Et; [|by apply Hpub].
  apply wp_bind. unfold Reverts.read_object. apply wp_host. simpl.
  assert (with_objects (objects h) h = h) as Eh by (by destruct h).
  specialize (Hrd target Et). destruct (read_blob (objects h) (c_oid target)) as [bytes|e]; [|done].
  apply Hpub. by destruct (c_kind target).
Qed.

(** So far everything was published, and the rest can be. *)
Record going (o : Store) (replaced : list TreeStamp) (rest : list PlannedChange) (h : Host) : Prop := {
  go_well : well h;
  go_ok : tree_ok (tree h);
  go_fresh : fresh uuid (tree h);
  go_objects : objects h = o;
  go_seen : Forall (as_seen replaced (tree h)) rest;
}.

Lemma going_reading o replaced rest h h' :
  going o replaced rest h → reading h h' → well h' → going o replaced rest h'.
Proof.
  intros [Hw Hok' Hf Ho Hs] Hr Hw'. pose proof (proj1 (proj1 Hr)) as [fl Et].
  split; [done|by rewrite Et..|by rewrite (reading_objects _ _ Hr)|].
  eapply Forall_impl; [exact Hs|]. intros x [H1 H2 H3 H4]. rewrite Et. by split.
Qed.

(** The stamp of a planned entry is that of its file. *)
Lemma planned_stamp ch stamp ino :
  planned_at ch → pc_expected ch = ExpPresent stamp → Worktree.names t !! pc_path ch = Some ino →
  ∃ n, inodes t !! ino = Some n ∧ stamp = stamp_of ino n.
Proof.
  intros Hp Ee En. destruct (planned_seen ch Hp) as [Hs _].
  destruct Hs as [Ee'|content stamp' mode Ee' _ El]; [congruence|].
  destruct (live_at_present w t _ _ _ _ El) as (i & n & Hn & Hst & _).
  unfold node_at in Hn. rewrite En in Hn. simpl in Hn.
  destruct (inodes t !! ino) as [x|] eqn:Ex; [|done]. injection Hn as -> ->.
  exists n. split; [done|congruence].
Qed.

Definition stamps_of (ch : PlannedChange) : list TreeStamp :=
  match pc_expected ch with ExpPresent stamp => [stamp] | ExpAbsent => [] end.

(** The others stay as they were seen. *)
Lemma as_seen_after o replaced ch rest h h' x :
  going o replaced (ch :: rest) h → planned_at ch → planned_at x → x ∈ rest →
  pc_path x ≠ pc_path ch → ¬ scratch uuid (pc_path x) →
  (∀ b, above b (pc_path x) → ¬ scratch uuid b) →
  published ch h h' → as_seen (replaced ++ stamps_of ch) (tree h') x.
Proof.
  intros [_ Hok' _ _ [Hc Hs]%Forall_cons] Hpc Hpx Hin Hne Hsc Habove [_ Hinv _ _ Hn Hund].
  rewrite Forall_forall in Hs. destruct (Hs x Hin) as [H1 H2 H3 H4].
  assert (∀ q, q ≠ pc_path ch → ¬ scratch uuid q → shown (tree h') q = shown (tree h) q) as Hsh.
  { intros q Hq Hqs. eapply extends_shown; [done|apply Hinv|by intros [?|?]]. }
  split.
  - rewrite Hn by done. exact H1.
  - rewrite Hsh by done. exact H2.
  - intros b Hb. pose proof (H3 b Hb) as Hd. apply (is_directory_shown uuid).
    rewrite Hsh; [by apply (is_directory_shown uuid)| |by apply Habove].
    intros ->. pose proof (seen_not_directory _ _ _ Hpc Hc). congruence.
  - intros stamp Ee. rewrite elem_of_app. destruct (H4 stamp Ee) as [?|Hi]; [by left; left|].
    destruct (Worktree.names t !! pc_path x) as [ino|] eqn:En; [|by right].
    destruct (planned_stamp x stamp ino Hpx Ee En) as (n & Ein & ->).
    destruct (decide (Worktree.names (tree h) !! pc_path ch = Some ino)) as [Ec|Ec].
    + left. right. rewrite (as_name _ _ _ Hc) in Ec. unfold stamps_of.
      destruct (planned_seen ch Hpc) as [Hseen _].
      destruct Hseen as [_ En'|content stamp mode Ee' _ _]; [congruence|].
      destruct (planned_stamp ch stamp ino Hpc Ee' Ec) as (n' & Ein' & ->).
      rewrite Ee'. apply list_elem_of_singleton. congruence.
    + right. intros i [= <-]. rewrite Ein. apply Hund; [|done]. by rewrite Hi.
Qed.

Lemma wp_publish_changes_live o changes token replaced j h :
  going o replaced changes h → NoDup (map pc_path changes) →
  Forall (λ ch, planned_at ch ∧ readable o ch ∧ ¬ scratch uuid (pc_path ch) ∧
    ∀ b, above b (pc_path ch) → ¬ scratch uuid b) changes →
  wp (λ _, True) (publish_changes uuid w token changes replaced j) h
    (λ r h', ∃ j', r = Ok (PComplete, j') ∧ well h' ∧ fresh uuid (tree h')).
Proof.
  revert replaced j h. induction changes as [|ch rest IH]; intros replaced j h Hg Hnd Hall.
  { apply wp_ret. exists j. split; [done|split; apply Hg]. }
  cbn [publish_changes]. apply NoDup_cons in Hnd as [Hnin Hnd].
  apply Forall_cons in Hall as [(Hp & Hrd & Hsc & _) Hall].
  apply wp_bind. eapply wp_mono; [by apply (looks_is_cancelled h token (λ _, True))|done|].
  intros r h1 (Hr1 & _ & Hv). destruct (Hv (go_well _ _ _ _ Hg)) as [Hw1 ->]. clear Hv.
  apply (going_reading _ _ _ _ h1) in Hg; [|done..].
  pose proof (go_seen _ _ _ _ Hg) as [Hc _]%Forall_cons.
  apply wp_bind. eapply wp_mono; [by apply looks_relinked|done|].
  intros r h2 (Hr2 & Hw2 & e & -> & Hexp).
  assert (same_tree (tree h1) (tree h2)) as [fl Et] by apply Hr2.
  apply (going_reading _ _ _ _ h2) in Hg; [|done..].
  pose proof (go_seen _ _ _ _ Hg) as [Hc2 _]%Forall_cons.
  destruct (planned_seen ch Hp) as [_ Hpr]. assert (valid_path (pc_path ch) = true) as Hv by (by destruct Hp as (? & _ & ?)).
  assert (expected_holds (tree h2) (pc_path ch) (default (pc_expected ch) e) = true) as Hexp2 by by rewrite Et.
  pose proof (seen_not_directory _ _ _ Hp Hc2) as Hdir.
  apply wp_bind. eapply wp_mono; [|done|].
  { apply (wp_publish_change_live ch _ h2); try done; try apply Hg; try apply Hc2.
    - by apply valid_path_plain.
    - by rewrite (go_objects _ _ _ _ Hg). }
  intros r h3 [-> Hpd]. apply IH; [|done..].
  split; [apply Hpd|apply Hpd|apply Hpd|by rewrite (pd_objects _ _ _ Hpd); apply Hg|].
  apply Forall_forall. intros x Hx. rewrite Forall_forall in Hall.
  destruct (Hall x Hx) as (? & ? & ? & ?). eapply as_seen_after; try done.
  intros E. apply Hnin. rewrite <- E. by apply list_elem_of_fmap_2.
Qed.

(** ** The whole of a plan *)

Lemma provides_none conflicts0 : provides (new_planner conflicts0).
Proof. by split; [split| |]; simpl; intros ? ?%elem_of_nil || set_solver. Qed.

(** What is not planned is already there. *)
Lemma live_matches_holds p st :
  valid_path p = true → live_matches (live_at w t p) st = true → holds t p st.
Proof.
  intros Hv. destruct (live_at w t p) as [|content stamp mode|] eqn:El; [..|by destruct st].
  - destruct st; [done|]. intros _. unfold holds, shown, node_at.
    rewrite observed_absent_name; [done..|].
    unfold live_at in El. destruct (observed (protects w) t p) as [[|ino n|l s| |]|]; try done.
    + destruct (_ <? _)%N; [done|]. destruct (i_kind n); try done. unfold entry_of in El.
      by destruct (blob_id bytes).
    + unfold entry_of in El. by destruct (blob_id l).
  - destruct st as [c|]; [|done]. simpl. intros ->%bool_decide_eq_true_1.
    by destruct (live_at_holds w t p _ _ _ El).
Qed.

(** What a planner provides for is published. *)
Lemma wp_publish_live pl p token j h :
  provides pl → pl_changes p = planned_changes pl → pl_created p = sort_by id (elements (created pl)) →
  well h → same_tree t (tree h) → fresh uuid t → apart uuid p →
  Forall (λ ch, readable (objects h) ch ∧ ∀ b, above b (pc_path ch) → ¬ scratch uuid b) (pl_changes p) →
  wp (λ _, True) (publish uuid w p token j) h (λ r h', ∃ j', r = Ok (PComplete, j')).
Proof.
  intros Hp Ech Ecr Hw [fl Et] Hf [Honce Hcr Hsc Hdir] Hrd. unfold publish.
  apply wp_bind. rewrite Ecr in *. eapply wp_mono; [apply (wp_directories_live pl h token _ [] j h)|done|]; [done..| |].
  { split; rewrite ?Et; simpl; try done. }
  intros r h1 (j1 & -> & [Hw1 Hok1 Hf1 Ho1 Hi1 Hn1 Hd1]). simpl.
  eapply wp_mono; [apply (wp_publish_changes_live (objects h))|done|by intros r h2 (j2 & -> & _); exists j2]; [|done|].
  - split; [done..|]. apply Forall_forall. intros ch Hch. rewrite Forall_forall in Hcr.
    rewrite Ech in Hch. destruct (pv_changes _ Hp ch Hch) as (c & Hc & Hv & Hav).
    assert (Worktree.names (tree h1) !! pc_path ch = Worktree.names t !! pc_path ch) as En
      by (apply Hn1, Hcr; by rewrite Ech).
    split; [done|..].
    + unfold shown, node_at. rewrite En. destruct (Worktree.names t !! pc_path ch) as [ino|] eqn:E; [|done].
      destruct (node_at_names t _ _ Hok E) as (n & Ein & _). simpl.
      by rewrite Ein, (lookup_weaken _ _ _ _ Ein Hi1).
    + intros b Hb. apply (made_directory h (sort_by id (elements (created pl))) h1); [by split|].
      eapply available_mono; [|by apply Hav]. intros x Hx. unfold sort_by.
      by rewrite merge_sort_Permutation, elem_of_elements.
    + intros stamp Ee. right. intros ino Ei. destruct (node_at_names t _ _ Hok Ei) as (n & Ein & _).
      by rewrite Ein, (lookup_weaken _ _ _ _ Ein Hi1).
  - apply Forall_forall. intros ch Hch. rewrite Forall_forall in Hrd, Hsc. destruct (Hrd ch Hch).
    split_and!; [|done|by apply Hsc|done]. rewrite Ech in Hch.
    destruct (pv_changes _ Hp ch Hch) as (c & Hc & Hv & _). by exists c.
Qed.
End live.

Lemma wp_both {A} P1 P2 (m : Io A) h Q1 Q2 :
  wp P1 m h Q1 → wp P2 m h Q2 → wp P1 m h (λ r h', Q1 r h' ∧ Q2 r h').
Proof. intros H1 H2 s Hs. destruct (H1 s Hs), (H2 s Hs). by split_and!. Qed.

(** C15: When nothing fails or interferes, a revert that found no conflict is carried out: the
    plan that is made is published completely, and every path the records compose to is
    afterwards as it was before them, with the same content and executable bit.  Directories
    it needs are made first, those above before those in them, and a file with several names
    of which some were replaced already is still recognised under the others. *)
Theorem revert_goes_through `{GL : GitLib} `{JL : JsonLib} uuid w rid holder dir ss stack recs token j h
    pl :
  well h → tree_ok (tree h) → rooted (tree h) → fresh uuid (tree h) →
  (∀ a p, above a p → protects w p = false → protects w a = false) →
  (N.land (w_umask w) OWNER_EXECUTABLE = 0)%N →
  Forall (λ r, valid_record r = true) recs →
  plan_of w (tree h) rid holder dir ss stack recs = Ok pl → pl_conflicts pl = 0 → apart uuid pl →
  Forall (λ ch, readable (objects h) ch ∧ ∀ b, above b (pc_path ch) → ¬ scratch uuid b) (pl_changes pl) →
  wp (λ _, True) (do? pl := plan (Some w) rid holder dir ss stack recs token in
    do? r := publish uuid w pl token j in ret r.1)%W h (λ r h',
    r = Ok PComplete ∧ Forall (λ d, is_directory (tree h') d = true) (pl_created pl) ∧
    ∀ c, c ∈ (compose recs dir).1 → cp_path c ∉ pl_created pl → ¬ scratch uuid (cp_path c) →
      holds (tree h') (cp_path c) (cp_target c)).
Proof.
  intros Hw Hok Hrooted Hf Hpr Hu Hv Epl Hnc Hap Hrd. apply (composed_valid _ dir) in Hv.
  apply wp_bind. eapply wp_mono; [by eapply (looks_plan (Some w)) with (P := λ _, True)|done|].
  intros r h1 (Hr1 & Hfor & Hwell). destruct (Hwell Hw) as [Hw1 ->]. rewrite Epl in *. clear Hwell.
  specialize (Hfor pl eq_refl). pose proof (proj1 (proj1 Hr1)) as Hsame. pose proof Hsame as [fl Et].
  assert (∃ pl0, provides w (tree h) pl0 ∧ pl_changes pl = planned_changes pl0 ∧
    pl_created pl = sort_by id (elements (created pl0))) as (pl0 & Hp & Ech & Ecr).
  { unfold plan_of in Epl. destruct (compose recs dir) as [cs cf].
    apply plan_result_parts in Epl as (_ & _ & Ech & Ecf & Ecr & _). eexists. split; [|done].
    apply visits_of_provides; try done; [by apply provides_none|apply length_zero_iff_nil; congruence]. }
  assert (tree_ok (tree h1)) as Hok1 by (by rewrite Et).
  apply wp_bind. eapply wp_mono.
  - apply (wp_both _ (λ _, True)).
    + eapply (wp_publish_live _ _ (tree h)); try done. by rewrite (reading_objects _ _ Hr1).
    + apply (wp_publish_plan uuid w (λ _, True)); [done..| |done].
      rewrite Et. eapply plan_for_foreseen; [exact Hfor|done|apply (evolves_refl (tree h))].
  - done.
  - intros r h2 [[j2 ->] (pub & k & c & at_ & done & [= <- _] & [[Hm Ha] _ _ [Hk Hd]])].
    destruct Hd as (_ & _ & _ & Hd). apply wp_ret. split; [done|]. split; [exact Hd|]. intros x Hx Hnin Hsc.
    assert (tree_ok (tree h2)) as Hok2 by (by eapply moves_ok).
    destruct (decide (cp_path x ∈ map pc_path (pl_changes pl))) as [Hin|Hout].
    + apply list_elem_of_fmap in Hin as (ch & Ep & Hch).
      destruct (pn_changes _ _ _ _ _ _ _ _ _ Hfor ch Hch) as (x' & Hx' & [Ep' _ Et' _ _ _]).
      assert (x' = x) as -> by (eapply (NoDup_key_inj cp_path); [apply composed_once|done..|congruence]).
      rewrite Ep, <- Et'. eapply wanted_holds; [done|].
      destruct Ha as (_ & Ha & _). rewrite Hk, firstn_all, Forall_forall in Ha. by apply Ha.
    + destruct (pn_all _ _ _ _ _ _ _ _ _ Hfor Hnc x Hx) as [Hl|(ch & Hch & [Ep _ _ _ _ _])].
      * unfold holds. rewrite (moves_shown (touches uuid pl) h1 h2); [|done..|].
        -- rewrite Et. rewrite Forall_forall in Hv. by apply (live_matches_holds w (tree h)); [..|apply Hv|].
        -- intros [?|[?|?]]; done.
      * destruct Hout. rewrite <- Ep. by apply list_elem_of_fmap_2.
Qed.

Module ExampleLive.
Export ExampleRevert.

Definition prefixes_check (P : list N → bool) (p : list N) : bool := forallb P (slash_prefixes [] p).

Lemma prefixes_checked (P : list N → bool) (Q : list N → Prop) p :
  (∀ a, P a = true → Q a) → prefixes_check P p = true → ∀ a, above a p → Q a.
Proof.
  intros HPQ Hc a Ha%slash_prefixes_above. apply HPQ. unfold prefixes_check in Hc.
  rewrite forallb_forall in Hc. by apply Hc, list_elem_of_In.
Qed.

Definition not_scratch (p : list N) : bool := negb (bool_decide (last p = Some 112%N)).
Lemma not_scratch_ok p : not_scratch p = true → ¬ scratch uuids p.
Proof. unfold not_scratch. intros H Hs%scratch_last. by rewrite bool_decide_true in H. Qed.

Lemma tree0_names fl (P : list N → N → Prop) :
  P (lit "d") 1%N → P (lit "d/a") 2%N → P (lit "d/n") 3%N → P (lit "b") 2%N →
  ∀ p ino, Worktree.names (tree0 fl) !! p = Some ino → P p ino.
Proof.
  intros H1 H2 H3 H4 p ino H. unfold tree0 in H. simpl in H.
  repeat (apply lookup_insert_Some in H as [[<- <-]|[_ H]]; [done|]).
  by apply lookup_singleton_Some in H as [<- <-].
Qed.

Lemma tree0_rooted : rooted (tree0 []).
Proof.
  intros p ino H. revert p ino H.
  apply (tree0_names [] (λ p _, ∀ a, above a p → is_directory (tree0 []) a = true)).
  all: apply (prefixes_checked (is_directory (tree0 []))); [done|by vm_compute].
Qed.

Lemma tree0_fresh : fresh uuids (tree0 []).
Proof.
  intros parent n _. destruct (Worktree.names (tree0 []) !! join_path parent (staged_name uuids n)) as [ino|] eqn:E; [|done].
  exfalso. assert (¬ scratch uuids (join_path parent (staged_name uuids n))) as Hno; [|apply Hno; by exists parent, n].
  revert E. generalize (join_path parent (staged_name uuids n)) as p. revert ino. intros ino p. revert p ino.
  apply (tree0_names [] (λ p _, ¬ scratch uuids p)).
  all: apply not_scratch_ok; by vm_compute.
Qed.

Definition plan0 : Result RevertPlan SnapshotError :=
  plan_of access (tree0 []) rid (lit "task") Revert [1%N] [] [record].
Definition journal0 : StoredJournal := StoredJournal_new rid (lit "task") 0 Revert [1%N] 3 1.
Definition readable_check (ch : PlannedChange) : bool :=
  match pc_target ch with
  | Some target => match read_blob store (c_oid target) with Ok _ => true | Err _ => false end
  | None => true
  end && prefixes_check not_scratch (pc_path ch).

Lemma readable_checked ch :
  readable_check ch = true → readable store ch ∧ ∀ b, above b (pc_path ch) → ¬ scratch uuids b.
Proof.
  unfold readable_check. rewrite andb_true_iff. intros [H1 H2]. split.
  - intros target E. rewrite E in H1. by destruct (read_blob _ _).
  - by apply (prefixes_checked not_scratch), H2; apply not_scratch_ok.
Qed.

(** The revert of the task of [ExampleRevert], whose file has another name. *)
Lemma revert_goes_through_witness :
  ∃ pl, plan0 = Ok pl ∧ length (pl_changes pl) = 3 ∧
  let '(r, s) := (do? pl := plan (Some access) rid (lit "task") Revert [1%N] [] [record] Uncancelled in
    do? r := publish uuids access pl Uncancelled journal0 in ret r.1)%W (start (host0 [])) in
  r = Ok PComplete ∧ is_directory (tree (world s)) (lit "x") = true ∧
  holds (tree (world s)) (lit "d/a") (as_file (lit "one")).
Proof.
  assert (match plan0 with Ok p => apart_check p && (pl_conflicts p =? 0) &&
      forallb readable_check (pl_changes p) && (length (pl_changes p) =? 3) &&
      bool_decide (pl_created p = [lit "x"]) | Err _ => false end = true) as Hc by (vm_compute; reflexivity).
  assert (∃ c, c ∈ (compose [record] Revert).1 ∧ cp_path c = lit "d/a" ∧ cp_target c = as_file (lit "one"))
    as (c & Hin & Ec & Et).
  { exists {| cp_path := lit "d/a"; cp_source := as_file (lit "two"); cp_target := as_file (lit "one") |}.
    split; [|split; reflexivity]. apply (list_elem_of_lookup_2 _ 0). vm_compute. reflexivity. }
  assert (Forall (λ r, valid_record r = true) [record]) as Hvalid
    by (constructor; [vm_compute; reflexivity|constructor]).
  pose proof (λ p E, revert_goes_through uuids access rid (lit "task") Revert [1%N] [] [record] Uncancelled
    journal0 (host0 []) p ltac:(split_and!; constructor) (tree0_ok []) tree0_rooted tree0_fresh
    (λ _ _ _ _, eq_refl) eq_refl Hvalid E) as H.
  change (plan_of _ _ _ _ _ _ _ _) with plan0 in H.
  destruct plan0 as [pl|e]; [|discriminate]. exists pl.
  rewrite !andb_true_iff in Hc. destruct Hc as [[[[Ha Hn] Hr] Hl] Hd].
  apply bool_decide_eq_true_1 in Hd. apply Nat.eqb_eq in Hn, Hl.
  specialize (H pl eq_refl Hn (apart_checked pl Ha)).
  destruct (H ltac:(apply Forall_forall; intros ch Hch; apply readable_checked; rewrite forallb_forall in Hr;
    apply Hr, list_elem_of_In, Hch) (start (host0 [])) eq_refl) as [(H1 & H2 & H3) _].
  match type of H1 with (?m).1 = _ => destruct m as [r s] end.
  split; [reflexivity|]. split; [exact Hl|]. split; [exact H1|]. rewrite Hd in H2, H3.
  split; [by apply Forall_cons in H2 as [? _]|]. rewrite <- Ec, <- Et. apply H3; [exact Hin|..]; rewrite Ec.
  - intros Hx%list_elem_of_singleton. discriminate.
  - apply not_scratch_ok. reflexivity.
Defined.
End ExampleLive.
