(* ===== verification/Retention.v ===== *)
(** * Retention and collection

    [workspace-snapshot/src/cleanup.rs]: evicting the oldest records to keep the store within
    a target, abandoning open records whose call is gone, and deleting every object nothing
    names any more.  What the stat cache names is an argument. *)

From stdpp Require Import gmap sorting.
From S2P Require Import Prelude Utf8 Effects ObjectStore SnapshotTree SnapshotDiff Collect Records.
From S2P Require Import Recording Worktree ChangeStore StoreReads Reverts.

(** ** State *)

(** Records from [k_from] on were committed while some open record ran. *)
Record Kept := { k_from : option N }.
Definition keeps_seq (k : Kept) (s : N) : bool :=
  match k_from k with Some from => (from <=? s)%N | None => false end.

(** Everything collection keeps. *)
Record Roots := {
  rt_open : list StoredOpenRecord; rt_records : list StoredRecord; rt_reverted : gset N;
}.

Record CleanupPreview := { stale_open_records : N; evicted_records : N; reclaimable_bytes : N }.
Record CleanupPlan := {
  cp_stale : list (list N); cp_evicted : list N; cp_preview : CleanupPreview;
}.
Record CleanupSummary := {
  abandoned_open_records : N; cs_evicted_records : N; deleted_objects : N; reclaimed_bytes : N;
}.

Definition STALE_OPEN_RECORD_MS : N := 12 * 60 * 60 * 1000.

(** ** Choosing *)

Definition minimum (l : list N) : option N :=
  match l with [] => None | x :: l' => Some (foldr N.min x l') end.
Definition kept_of (open : list StoredOpenRecord) : Kept := {| k_from := minimum (map opened_seq open) |}.

Definition may_evict (roots : Roots) (protect_from : N) (r : StoredRecord) : bool :=
  negb ((protect_from <=? seq r)%N || keeps_seq (kept_of (rt_open roots)) (seq r) ||
        bool_decide (seq r ∈ rt_reverted roots)).

(** Records retention may evict: tombstones, then the rest oldest first. *)
Definition evictable (roots : Roots) (protect_from : N) : gset N * list N :=
  let candidates := filter (fun r => may_evict roots protect_from r = true) (rt_records roots) in
  (list_to_set (map seq (filter (fun r => holders r = ∅) candidates)),
   map seq (filter (fun r => holders r ≠ ∅) candidates)).

Definition crowded (n : N) : bool := (MAX_STORE_RECORDS <=? n)%N.

Definition is_stale (open : StoredOpenRecord) (now : N) : bool :=
  (STALE_OPEN_RECORD_MS <? now - opened_at_unix_ms open)%N.

(** Gallops from [failing] until a count that fits, or [high]. *)
Fixpoint gallop (fuel failing step high : nat) (fits : nat → Io bool) : Io (nat * nat) :=
  match fuel with
  | 0 => ret (failing, high)
  | S fuel =>
      let probe := Nat.min (failing + step) high in
      if probe =? high then ret (failing, probe)
      else
        (do? b := fits probe in
         if b : bool then ret (failing, probe) else gallop fuel probe (step * 2) high fits)%W
  end.

Fixpoint bisect (fuel failing fitting : nat) (fits : nat → Io bool) : Io nat :=
  match fuel with
  | 0 => ret fitting
  | S fuel =>
      if fitting - failing <=? 1 then ret fitting
      else
        let middle := failing + (fitting - failing) / 2 in
        (do? b := fits middle in
         if b : bool then bisect fuel failing middle fits else bisect fuel middle fitting fits)%W
  end.

(** The smallest count in [low..=high] that fits, or [high] when none does. *)
Definition smallest_fitting (low high : nat) (fits : nat → Io bool) : Io nat :=
  if high <=? low then ret (Nat.min low high)
  else
    (do? b := fits low in
     if b : bool then ret (Nat.min low high)
     else
       do? (failing, fitting) := gallop (high - low) low 1 high fits in
       bisect (fitting - failing) failing fitting fits)%W.

(** ** What the store occupies *)

Definition unix_ms : Io N := host (fun h => (clock_ms h, h)).

Definition bytes_in (d : Dir) (fs : Files) : N :=
  foldr u64_sat_add 0%N
    (omap (fun '((d', _), f) => if decide (d' = d) then Some (sf_bytes f) else None)
       (map_to_list (file_map fs)) ++ temps_in d (temps fs)).

Definition directory_bytes (total : N) (d : Dir) : Io N :=
  fcall UnhealthyStorage (fun fs =>
    (if flooded d fs then Err UnhealthyStorage else Ok (u64_sat_add total (bytes_in d fs)), fs)).

Definition objects_usage : Io Usage :=
  (do? _ := fcall UnhealthyStorage (fun fs => (Ok tt, fs)) in
   host (fun h => (Collect.usage (objects h), h)))%W.

Definition DIRECTORIES : list Dir := [OPEN; RECORDS; REVERTS; EVICTED].

Fixpoint usage_of (dirs : list Dir) (bytes : N) : Io N :=
  match dirs with
  | [] => ret bytes
  | d :: dirs' => (do? bytes := directory_bytes bytes d in usage_of dirs' bytes)%W
  end.

Definition store_usage : Io N :=
  (do? u := objects_usage in
   do? bytes := usage_of DIRECTORIES (u_bytes u) in
   do? s := size state_path in
   ret (u64_sat_add bytes s))%W.

Definition object_count : Io N := (do? u := objects_usage in ret (u_objects u))%W.

Section retention.
Context `{GL : GitLib} `{TL : TreeLib} `{JL : JsonLib}.
(** The digest of a holder's name, and the objects the stat cache names. *)
Context (digest : str → list N) (previous : list ObjectId).

Definition kept : Io Kept := (do? os := open_records in ret (kept_of os))%W.

Definition read_roots : Io Roots :=
  (do? os := open_records in
   do? rs := records in
   do? reverted := reverted in
   ret {| rt_open := os; rt_records := rs; rt_reverted := reverted |})%W.

(** ** Collecting *)

Definition of_store {A} (r : Result A StoreError) : Io A :=
  match r with Ok a => ret a | Err e => throw (store_error e) end.

Definition garbage (roots : Roots) (evicted : gset N) : Io GarbagePlan :=
  (do? trees := lift (collect_ok before_id (rt_open roots)) in
   let named :=
     concat (map record_objects (filter (fun r => seq r ∉ evicted) (rt_records roots))) in
   do? plan := in_objects (garbage_keeping previous trees named) in
   of_store plan)%W.

Definition collect (roots : Roots) (evicted : gset N) : Io Usage :=
  (do? plan := garbage roots evicted in
   do? freed := in_objects (Collect.collect plan) in
   of_store freed)%W.

(** ** Evicting *)

(** The newest record each holder loses, and its client's metadata. *)
Definition newest (records : list StoredRecord) : gmap str (N * Client) :=
  foldl (fun m r => foldl (fun m holder => <[holder := (seq r, r_client r)]> m) m (elements (holders r)))
    ∅ records.

Definition mark_one (entry : str * (N * Client)) : Io unit :=
  let '(holder, (s, client)) := entry in mark_evicted digest holder s client.
Definition drop_record (s : N) : Io unit := (do? _ := remove (record_path s) in ret tt)%W.

Definition evict (roots : Roots) (evicted : gset N) : Io unit :=
  if bool_decide (evicted = ∅) then ret tt
  else
    (do? _ := each_io mark_one
       (sort_by fst (map_to_list (newest (filter (fun r => seq r ∈ evicted) (rt_records roots))))) in
     do? _ := each_io drop_record (sorted_set evicted) in
     sync RECORDS)%W.

Definition record_size (s : N) : Io N := size (record_path s).
Definition sat_sum (l : list N) : N := foldl u64_sat_add 0%N l.

(** The tombstones and the first [n] of the others. *)
Definition evicting (tombstones : gset N) (held : list N) (n : nat) : gset N :=
  tombstones ∪ list_to_set (take n held).

Definition fits_target (roots : Roots) (usage target tombstone_bytes : N) (tombstones : gset N)
    (held sizes : list N) (n : nat) : Io bool :=
  (do? plan := garbage roots (evicting tombstones held n) in
   let freed :=
     u64_sat_add (u64_sat_add (u_bytes (plan_usage plan)) tombstone_bytes)
       (foldr N.add 0%N (take n sizes)) in
   ret (usage - freed <=? target)%N)%W.

Definition fewest (roots : Roots) (tombstones : gset N) (held : list N) : nat :=
  let remaining := length (rt_records roots) - stdpp.base.size tombstones in
  Nat.min (remaining + 1 - N.to_nat MAX_STORE_RECORDS) (length held).

Definition plan_eviction (roots : Roots) (usage target protect_from : N) : Io (gset N) :=
  (let '(tombstones, held) := evictable roots protect_from in
   do? sizes := map_io record_size held in
   do? tombstone_sizes := map_io record_size (sorted_set tombstones) in
   do? n := smallest_fitting (fewest roots tombstones held) (length held)
     (fits_target roots usage target (sat_sum tombstone_sizes) tombstones held sizes) in
   ret (evicting tombstones held n))%W.

(** ** Retaining *)

(** The state's estimates replaced with what the store holds. *)
Definition measure (st : StoredState) : Io StoredState :=
  (do? bytes := store_usage in
   do? ss := seqs in
   let st := {| next_seq := next_seq st; st_bytes := bytes; st_records := N.of_nat (length ss) |} in
   do? _ := write_state st in
   ret st)%W.

Definition within_target (st : StoredState) (target : N) : bool :=
  (st_bytes st <=? target)%N && negb (crowded (st_records st)).

Definition retain (st : StoredState) (target protect_from : N) : Io StoredState :=
  if within_target st target then ret st
  else
    (do? st := measure st in
     if within_target st target then ret st
     else
       do? roots := read_roots in
       do? evicted := plan_eviction roots (st_bytes st) target protect_from in
       do? _ := evict roots evicted in
       do? _ := collect roots evicted in
       measure st)%W.

(** ** Cleaning up *)

Definition open_size (open : StoredOpenRecord) : Io N :=
  (do? p := lift (open_path (o_ticket open)) in size p)%W.

Definition plan_cleanup (retention : N) : Io CleanupPlan :=
  (do? all := read_roots in
   do? now := unix_ms in
   let stale := filter (fun o => is_stale o now = true) (rt_open all) in
   let roots := {| rt_open := filter (fun o => is_stale o now = false) (rt_open all);
                   rt_records := rt_records all; rt_reverted := rt_reverted all |} in
   do? usage := store_usage in
   do? evicted := plan_eviction roots usage retention U64_MAX in
   do? open_sizes := map_io open_size stale in
   do? record_sizes := map_io record_size (sorted_set evicted) in
   do? plan := garbage roots evicted in
   ret {| cp_stale := map o_ticket stale; cp_evicted := sorted_set evicted;
          cp_preview :=
            {| stale_open_records := count (length stale);
               evicted_records := count (stdpp.base.size evicted);
               reclaimable_bytes :=
                 u64_sat_add (u_bytes (plan_usage plan)) (sat_sum (open_sizes ++ record_sizes)) |} |})%W.

(** Abandons the open records of a plan that still are stale. *)
Fixpoint abandon_stale (now : N) (tickets : list (list N)) (abandoned : nat) (reclaimed : N) :
    Io (nat * N) :=
  match tickets with
  | [] => ret (abandoned, reclaimed)
  | ticket :: tickets' =>
      (do? open := found (open_record ticket) in
       match open with
       | None => abandon_stale now tickets' abandoned reclaimed
       | Some open =>
           do? path := lift (open_path ticket) in
           do? bytes := size path in
           do? removed := if is_stale open now then remove path else ret false in
           if removed : bool
           then abandon_stale now tickets' (S abandoned) (u64_sat_add reclaimed bytes)
           else abandon_stale now tickets' abandoned reclaimed
       end)%W
  end.

Definition execute_cleanup (plan : CleanupPlan) (token : Token) : Io CleanupSummary :=
  (do? _ := check_cancelled token in
   do? now := unix_ms in
   do? (abandoned, reclaimed) := abandon_stale now (cp_stale plan) 0 0%N in
   do? _ := if 0 <? abandoned then sync OPEN else ret tt in
   do? roots := read_roots in
   let '(tombstones, held) := evictable roots U64_MAX in
   let evicted : gset N :=
     list_to_set (filter (fun s => s ∈ tombstones ∪ list_to_set held) (cp_evicted plan)) in
   do? sizes := map_io record_size (sorted_set evicted) in
   do? _ := evict roots evicted in
   do? collected := collect roots evicted in
   do? st := state in
   do? _ := measure st in
   ret {| abandoned_open_records := count abandoned; cs_evicted_records := count (stdpp.base.size evicted);
          deleted_objects := N.min (u_objects collected) 0xFFFFFFFF;
          reclaimed_bytes :=
            u64_sat_add (foldl u64_sat_add reclaimed sizes) (u_bytes collected) |})%W.
End retention.

(** ** What a listing reads *)

Section listings.
Context `{JL : JsonLib}.

Lemma elem_of_names_in d m name : name ∈ names_in d m ↔ is_Some (m !! (d, name)).
Proof.
  unfold names_in. rewrite sort_by_perm, list_elem_of_omap. split.
  - intros ([[d' n] f] & Hin%elem_of_map_to_list & E). case_decide; [|done]. injection E as ->. subst. by exists f.
  - intros [f Hf]. exists ((d, name), f). split; [by apply elem_of_map_to_list|]. by rewrite decide_True.
Qed.

Lemma collect_ok_elem {A B E} (f : A → Result B E) l l' a :
  collect_ok f l = Ok l' → a ∈ l → ∃ b, f a = Ok b ∧ b ∈ l'.
Proof.
  revert l'. induction l as [|x l IH]; intros l'; simpl; [by intros _ ?%elem_of_nil|].
  destruct (f x) as [b|] eqn:Ef; [|done]. simpl. destruct (collect_ok f l) as [bs|]; [|done].
  intros [= <-] [->|Hin]%elem_of_cons; [exists b; split; [done|by left]|].
  destruct (IH bs eq_refl Hin) as (c & ? & ?). exists c. split; [done|by right].
Qed.

Lemma collect_ok_from {A B E} (f : A → Result B E) l l' b :
  collect_ok f l = Ok l' → b ∈ l' → ∃ a, a ∈ l ∧ f a = Ok b.
Proof.
  revert l'. induction l as [|x l IH]; intros l'; simpl; [by intros [= <-] ?%elem_of_nil|].
  destruct (f x) as [c|] eqn:Ef; [|done]. simpl. destruct (collect_ok f l) as [bs|]; [|done].
  intros [= <-] [->|Hin]%elem_of_cons; [exists x; split; [by left|done]|].
  destruct (IH bs eq_refl Hin) as (a & ? & ?). exists a. split; [by right|done].
Qed.

(** A listing reads each of its files. *)
Lemma looks_listing {A} h d (f : list N → Io A) (g : Files → list N → Result A SnapshotError) :
  (∀ fl fs a, g (with_file_faults fl fs) a = g fs a) →
  (∀ h' a, looks h' (f a) (answer (g (files h') a)) (g (files h') a)) →
  let v := (let? ns := names_at d (files h) in collect_ok (g (files h)) ns)%W in
  looks h (do? ns := names d in map_io f ns)%W (answered v) v.
Proof.
  intros Hfl Hf. simpl. eapply looks_bind; [apply looks_names| |].
  - intros h1 ns Hr1 [E|?]; [|done]. symmetry in E. eexists. split; [|rewrite E; intros _; reflexivity].
    rewrite E. simpl. assert (collect_ok (g (files h1)) ns = collect_ok (g (files h)) ns) as <-.
    { apply collect_ok_ext. intros x. by apply (reading_files h h1 _ (λ fs, g fs x)). }
    eapply looks_mono; [by apply looks_map_io| |done]. intros r [->| ->]; [|done]. by intros a.
  - intros e _. split; [done|]. by intros ->.
Qed.

Definition open_record_at (fs : Files) (ticket : list N) : Result StoredOpenRecord SnapshotError :=
  (let? p := open_path ticket in
   let? o := read_as_at fs p in
   if bool_decide (o_ticket o = ticket) then Ok o else Err UnhealthyStorage)%W.

Lemma looks_open_record h ticket :
  looks h (open_record ticket) (answer (open_record_at (files h) ticket)) (open_record_at (files h) ticket).
Proof.
  unfold open_record, open_record_at. apply looks_answer; [apply looks_lift; by left|]. intros h1 p Hr1.
  rewrite <- (reading_files h h1 _ (λ fs, read_as_at fs p)) by done.
  apply looks_answer; [apply looks_read_as|]. intros h2 o _.
  case_bool_decide; [apply looks_ret|apply looks_throw]; by left.
Qed.

Definition listed_result {A} (r : Result A SnapshotError) : Result A SnapshotError :=
  match r with Err NotFound => Err UnhealthyStorage | r => r end.
Definition listed_open_at (fs : Files) (name : list N) : Result StoredOpenRecord SnapshotError :=
  match strip_suffix METADATA_SUFFIX name with
  | None => Err UnhealthyStorage
  | Some ticket => listed_result (open_record_at fs ticket)
  end.

Lemma looks_listed_open h name :
  looks h (listed_open name) (answer (listed_open_at (files h) name)) (listed_open_at (files h) name).
Proof.
  unfold listed_open, listed_open_at. destruct (strip_suffix _ _) as [ticket|]; [|apply looks_throw; by left].
  eapply looks_bind; [apply (looks_attempt h _ (answer (open_record_at (files h) ticket)) (open_record_at (files h) ticket)
      (λ r, ∃ r', r = Ok r' ∧ answer (open_record_at (files h) ticket) r'));
    [apply looks_open_record|by eauto]| |].
  - intros h' r Hr (r' & [= <-] & Ha).
    exists (listed_result r). split; [|by intros [= <-]].
    destruct Ha as [->| ->]; [|apply looks_lift; by right].
    destruct (open_record_at _ _) as [o|e]; [|destruct e].
    all: by first [apply looks_lift; left|apply looks_throw; left].
  - by intros e (r' & ? & _).
Qed.

Definition opens_at (fs : Files) : Result (list StoredOpenRecord) SnapshotError :=
  (let? ns := names_at OPEN fs in collect_ok (listed_open_at fs) ns)%W.
Lemma looks_open_records h : looks h open_records (answered (opens_at (files h))) (opens_at (files h)).
Proof. apply looks_listing; [done|]. intros. apply looks_listed_open. Qed.

Definition seqs_at (fs : Files) : Result (list N) SnapshotError :=
  (let? ns := names_at RECORDS fs in collect_ok parse_record_name ns)%W.
Lemma looks_seqs h : looks h seqs (answered (seqs_at (files h))) (seqs_at (files h)).
Proof.
  unfold seqs, seqs_at. eapply looks_bind; [apply looks_names| |].
  - intros h1 ns Hr1 [E|?]; [|done]. symmetry in E. rewrite E. eexists. split; [|intros _; reflexivity].
    apply looks_lift. simpl. by intros a.
  - intros e _. split; [done|]. by intros ->.
Qed.

Definition records_at (fs : Files) : Result (list StoredRecord) SnapshotError :=
  (let? ss := seqs_at fs in collect_ok (listed_record_at fs) ss)%W.
Lemma looks_records h : looks h records (answered (records_at (files h))) (records_at (files h)).
Proof.
  unfold records, records_at. eapply looks_bind; [apply looks_seqs| |].
  - intros h1 ss Hr1 E. rewrite (E _ eq_refl). eexists. split; [|intros _; reflexivity]. simpl.
    assert (collect_ok (listed_record_at (files h1)) ss = collect_ok (listed_record_at (files h)) ss) as <-.
    { apply collect_ok_ext. intros x. by apply (reading_files h h1 _ (λ fs, listed_record_at fs x)). }
    eapply looks_mono; [apply (looks_map_io h1 listed_record listed_record_at);
      [done|intros; apply looks_listed_record]| |done].
    intros r [->| ->]; [|done]. by intros a.
  - intros e _. split; [done|]. by intros ->.
Qed.

(** *** Listings are complete *)

Lemma listed_at d fs ns name f :
  names_at d fs = Ok ns → file_map fs !! (d, name) = Some f → name ∈ ns.
Proof.
  unfold names_at. destruct (flooded d fs); [done|]. intros [= <-] Hf. apply elem_of_names_in. by exists f.
Qed.

Lemma read_as_at_decode {A} `{Stored A} fs p (a : A) f :
  file_map fs !! p = Some f → read_as_at fs p = Ok a → decode f = Ok a.
Proof.
  intros Hf. unfold read_as_at, read_at. rewrite Hf. destruct (_ <? _)%N; [done|]. done.
Qed.

Lemma listed_record_at_decode fs s r f :
  file_map fs !! record_path s = Some f → listed_record_at fs s = Ok r → decode f = Ok r ∧ seq r = s.
Proof.
  intros Hf. unfold listed_record_at, record_at.
  destruct (read_as_at fs (record_path s)) as [a|e] eqn:Er; [|by destruct e]. simpl.
  case_bool_decide; [|done]. intros [= <-]. split; [by eapply read_as_at_decode|done].
Qed.

Lemma records_complete fs rs name f :
  records_at fs = Ok rs → file_map fs !! (RECORDS, name) = Some f →
  ∃ r, r ∈ rs ∧ decode f = Ok r ∧ name = record_name (seq r) ∧ (seq r <= U64_MAX)%N.
Proof.
  unfold records_at, seqs_at. destruct (names_at RECORDS fs) as [ns|] eqn:En; [|done]. simpl.
  destruct (collect_ok parse_record_name ns) as [ss|] eqn:Es; [|done]. simpl. intros Hrs Hf.
  destruct (collect_ok_elem _ _ _ _ Es (listed_at _ _ _ _ _ En Hf)) as (s & Hp & Hs).
  apply parse_record_name_spec in Hp as [Hs64 ->].
  destruct (collect_ok_elem _ _ _ _ Hrs Hs) as (r & Hr & Hin).
  apply (listed_record_at_decode _ _ _ f) in Hr as [Hd <-]; [|done]. by exists r.
Qed.

Lemma records_listed fs rs r :
  records_at fs = Ok rs → r ∈ rs → ∃ f, file_map fs !! record_path (seq r) = Some f ∧ decode f = Ok r ∧
    (seq r <= U64_MAX)%N.
Proof.
  unfold records_at, seqs_at. destruct (names_at RECORDS fs) as [ns|] eqn:En; [|done]. simpl.
  destruct (collect_ok parse_record_name ns) as [ss|] eqn:Es; [|done]. simpl. intros Hrs Hr.
  destruct (collect_ok_from _ _ _ _ Hrs Hr) as (s & Hs & Hl).
  destruct (collect_ok_from _ _ _ _ Es Hs) as (name & Hn & Hp).
  apply parse_record_name_spec in Hp as [Hs64 ->].
  assert (is_Some (file_map fs !! (RECORDS, record_name s))) as [f Hf].
  { apply elem_of_names_in. unfold names_at in En. destruct (flooded _ _); [done|]. by injection En as ->. }
  destruct (listed_record_at_decode fs s r f Hf Hl) as [Hd <-]. by exists f.
Qed.

Lemma opens_complete fs os name f :
  opens_at fs = Ok os → file_map fs !! (OPEN, name) = Some f → ∃ o, o ∈ os ∧ decode f = Ok o.
Proof.
  unfold opens_at. destruct (names_at OPEN fs) as [ns|] eqn:En; [|done]. simpl. intros Hos Hf.
  destruct (collect_ok_elem _ _ _ _ Hos (listed_at _ _ _ _ _ En Hf)) as (o & Ho & Hin).
  exists o. split; [done|]. unfold listed_open_at in Ho.
  destruct (strip_suffix METADATA_SUFFIX name) as [ticket|] eqn:Et; [|done].
  apply strip_suffix_Some in Et as ->. unfold open_record_at, open_path in Ho.
  destruct (valid_random_id ticket TICKET_PREFIX); [|done]. simpl in Ho.
  destruct (read_as_at fs (OPEN, ticket ++ METADATA_SUFFIX)) as [o'|e] eqn:Er; [|by destruct e].
  simpl in Ho. case_bool_decide; [|done]. injection Ho as <-. by eapply read_as_at_decode.
Qed.

Lemma journals_complete fs js name f :
  journals_at fs = Ok js → file_map fs !! (REVERTS, name) = Some f → ∃ j, j ∈ js ∧ decode f = Ok j.
Proof.
  unfold journals_at. destruct (names_at REVERTS fs) as [ns|] eqn:En; [|done]. simpl.
  destruct (collect_ok (listed_journal_at fs) ns) as [os|] eqn:Eo; [|done]. simpl. intros [= <-] Hf.
  destruct (collect_ok_elem _ _ _ _ Eo (listed_at _ _ _ _ _ En Hf)) as (oj & Ho & Hin).
  unfold listed_journal_at in Ho. destruct (strip_suffix METADATA_SUFFIX name) as [rid|] eqn:Et; [|done].
  apply strip_suffix_Some in Et as ->. unfold journal_path in Ho.
  destruct (valid_random_id rid REVERT_ID_PREFIX); [|done]. simpl in Ho. unfold read_at in Ho. rewrite Hf in Ho.
  destruct (_ <? _)%N; [done|]. simpl in Ho. destruct (decode f) as [j|] eqn:Ed; [|done]. simpl in Ho.
  case_bool_decide; [|done]. injection Ho as <-. exists j. split; [|done].
  rewrite (merge_sort_Permutation journal_le). apply list_elem_of_omap. by exists (Some j).
Qed.

End listings.
