(* ===== verification/RetainSafe.v ===== *)
(** * What retention keeps

    At every moment of a retention or a cleanup, whatever fails, every record and every open
    record on disk has all its objects, and a record that is gone was old enough, outside
    every window, named by no revert and noted as evicted for each of its holders. *)

From stdpp Require Import gmap sorting.
From S2P Require Import Prelude Utf8 Effects ObjectStore SnapshotTree SnapshotDiff Collect Records.
From S2P Require Import Recording Worktree ChangeStore StoreReads Reverts RevertPublish Retention.

Section safe.
Context `{GL : GitLib} `{TL : TreeLib} `{JL : JsonLib}.
Context (digest : str → list N) (previous : list ObjectId).

(** ** What a step may change *)

(** It is on disk that [holder] lost a record as new as [s]. *)
Definition marked (fs : Files) (holder : str) (s : N) : Prop :=
  ∃ f e, file_map fs !! evicted_path digest holder = Some f ∧ sf_value f = VEvicted e ∧
    ev_holder e = holder ∧ (s <= ev_seq e)%N.

Definition listed (p : Dir * list N) : Prop := p.1 ≠ STATE ∧ p.1 ≠ EVICTED.

(** Only the state, the marks, which only grow, and some of the records [gone] have changed. *)
Record pruned (gone : gset N) (h h' : Host) : Prop := {
  pr_tree : same_tree (tree h) (tree h');
  pr_files : ∀ p, listed p → file_map (files h') !! p = file_map (files h) !! p ∨
    file_map (files h') !! p = None ∧ ∃ s, s ∈ gone ∧ p = record_path s;
  pr_marks : ∀ holder s, marked (files h) holder s → marked (files h') holder s;
  pr_objects : keeps (objects h) (objects h');
}.

#[export] Instance pruned_preorder gone : PreOrder (pruned gone).
Proof.
  split.
  - intros h. split; [done|by left|done|by split].
  - intros h1 h2 h3 [T1 F1 M1 O1] [T2 F2 M2 O2]. split; [by etrans| |auto|by eapply keeps_trans].
    intros p Hp. destruct (F2 p Hp) as [->|?]; [by apply F1|by right].
Qed.

Lemma pruned_mono (gone gone' : gset N) h h' : gone ⊆ gone' → pruned gone h h' → pruned gone' h h'.
Proof.
  intros Hg [T F M O]. split; [done| |done|done]. intros p Hp.
  destruct (F p Hp) as [?|(? & s & ? & ?)]; [by left|right]. split; [done|]. exists s. set_solver.
Qed.

Lemma pruned_none gone h h' : pruned ∅ h h' → pruned gone h h'.
Proof. apply pruned_mono. set_solver. Qed.

Lemma file_map_faults fs fs' : with_file_faults [] fs = with_file_faults [] fs' → file_map fs = file_map fs'.
Proof. by intros [= ]. Qed.

Lemma marked_map fs fs' holder s : file_map fs = file_map fs' → marked fs holder s → marked fs' holder s.
Proof. intros E. unfold marked. by rewrite E. Qed.

Lemma reading_pruned gone h h' : reading h h' → pruned gone h h'.
Proof.
  intros [[T O] F]. apply file_map_faults in F.
  split; [done|intros p _; left; congruence|intros holder s; by apply marked_map|by rewrite O].
Qed.

Lemma within_reading gone {A} (m : Io A) : within reading m → within (pruned gone) m.
Proof.
  intros Hm P h HP. eapply wp_mono; [apply Hm|intros e He; exact He|].
  - intros h' Hr. apply HP. by apply reading_pruned.
  - intros r h' Hr. by apply reading_pruned.
Qed.

(** ** Writing the state and the marks *)

Lemma pruned_written gone h fs' :
  (∀ p, listed p → file_map fs' !! p = file_map (files h) !! p) →
  (∀ holder s, marked (files h) holder s → marked fs' holder s) →
  pruned gone h (with_files fs' h).
Proof. intros Hf Hm. split; simpl; [done|intros p Hp; left; by apply Hf|done|by split]. Qed.

Lemma within_pruned_write_state gone st : within (pruned gone) (write_state st).
Proof.
  intros P h HP.
  assert (∀ fs', file_map fs' = file_map (files h) ∨
    file_map fs' = <[state_path := file_of st]> (file_map (files h)) → pruned gone h (with_files fs' h)) as Hw.
  { intros fs' Hfs. apply pruned_written.
    - intros p [Hp _]. destruct Hfs as [->| ->]; [done|]. rewrite lookup_insert_ne; [done|]. by intros <-.
    - intros holder s (f & e & Hf & ?). exists f, e. split; [|done].
      destruct Hfs as [->| ->]; [done|]. by rewrite lookup_insert_ne. }
  apply wp_write_as.
  - intros fs' Hfs. by apply HP, Hw.
  - intros _ r h' [Eh _ Hm _]. rewrite Eh. apply Hw. destruct r as [[]|e]; [by right|]. by destruct Hm.
  - intros _. reflexivity.
Qed.

Definition evicted_at (fs : Files) (holder : str) : Result (option StoredEvicted) SnapshotError :=
  (let? e := found_at (read_as_at fs (evicted_path digest holder)) in
   match e with
   | None => Ok None
   | Some e => if bool_decide (ev_holder e = holder) then Ok (Some e) else Err UnhealthyStorage
   end)%W.

Lemma looks_evicted h holder :
  looks h (evicted digest holder) (answer (evicted_at (files h) holder)) (evicted_at (files h) holder).
Proof.
  unfold evicted, evicted_at. apply looks_answer; [apply looks_found, looks_read_as|].
  intros h' [e|] _; [|apply looks_ret; by left].
  case_bool_decide; [apply looks_ret|apply looks_throw]; by left.
Qed.

(** What the mark of a holder says of the file. *)
Lemma evicted_at_spec fs holder o :
  evicted_at fs holder = Ok o →
  match o with
  | None => file_map fs !! evicted_path digest holder = None
  | Some e => ev_holder e = holder ∧
      ∃ f, file_map fs !! evicted_path digest holder = Some f ∧ sf_value f = VEvicted e
  end.
Proof.
  unfold evicted_at, read_as_at, read_at.
  destruct (file_map fs !! evicted_path digest holder) as [f|] eqn:Ef; simpl; [|by intros [= <-]].
  destruct (_ <? _)%N; [done|]. simpl. unfold decode. simpl.
  destruct (sf_value f) eqn:Ev; simpl; try done. destruct (valid_evicted _); simpl; [|done].
  case_bool_decide; [|done]. intros [= <-]. split; [done|]. by exists f.
Qed.

Lemma wp_mark_evicted gone P holder s c h :
  (∀ h', pruned gone h h' → P h') →
  wp P (mark_evicted digest holder s c) h
    (λ r h', pruned gone h h' ∧ (is_ok r → marked (files h') holder s)).
Proof.
  intros HP. unfold mark_evicted. apply wp_bind.
  eapply wp_mono; [apply (looks_evicted h holder P); intros h' Hr; by apply HP, reading_pruned|intros e He; exact He|].
  intros r h1 (Hr1 & Ho & _). pose proof (reading_pruned gone _ _ Hr1) as H1.
  destruct r as [o|e]; [|by split]. destruct Ho as [Ho|?]; [|done]. symmetry in Ho.
  apply evicted_at_spec in Ho. pose proof (file_map_faults _ _ (proj2 Hr1)) as Em. rewrite <- Em in Ho.
  destruct (match o with Some e => (s <=? ev_seq e)%N | None => false end) eqn:Eo.
  { apply wp_ret. split; [done|]. intros _. destruct o as [e|]; [|done].
    destruct Ho as (Eh & f & Hf & Hv). apply N.leb_le in Eo. by exists f, e. }
  set (e := {| ev_holder := holder; ev_seq := s; ev_client := c |}).
  set (p := evicted_path digest holder) in *.
  assert (∀ fs', file_map fs' = file_map (files h1) ∨ file_map fs' = <[p := file_of e]> (file_map (files h1)) →
    pruned gone h (with_files fs' h1)) as Hw.
  { intros fs' Hfs. etrans; [exact H1|]. apply pruned_written.
    - intros q [_ Hq]. destruct Hfs as [->| ->]; [done|]. rewrite lookup_insert_ne; [done|]. by intros <-.
    - intros h2 s2 (f2 & e2 & Hf2 & Hv2 & Eh2 & Hs2).
      destruct Hfs as [Hfs|Hfs]; unfold marked; rewrite Hfs; [by exists f2, e2|].
      destruct (decide (evicted_path digest h2 = p)) as [Ep|Hne].
      + rewrite Ep in Hf2 |- *. destruct o as [e0|]; [|congruence].
        destruct Ho as (Eh & f & Hf & Hv). rewrite Hf in Hf2. injection Hf2 as <-.
        rewrite Hv in Hv2. injection Hv2 as <-. apply N.leb_gt in Eo.
        exists (file_of e), e. rewrite lookup_insert_eq. split_and!; simpl; [done|done|congruence|lia].
      + exists f2, e2. rewrite lookup_insert_ne by done. done. }
  apply wp_write_as.
  - intros fs' Hfs. by apply HP, Hw.
  - intros _ r h' [Eh _ Hm _]. rewrite Eh. destruct r as [[]|er]; [|by split; [apply Hw, Hm|]].
    split; [apply Hw; by right|]. intros _. exists (file_of e), e. simpl. rewrite Hm, lookup_insert_eq.
    by split_and!.
  - intros _. by split.
Qed.

(** ** Evicting *)

(** Steps of a list that each establish something the others keep. *)
Lemma wp_each_io {A} R `{!PreOrder R} P (Q : A → Host → Prop) (f : A → Io unit) l h0 h :
  (∀ a h h', R h h' → Q a h → Q a h') →
  (∀ a h, a ∈ l → R h0 h → wp P (f a) h (λ r h', R h h' ∧ (is_ok r → Q a h'))) → R h0 h →
  wp P (each_io f l) h (λ r h', R h h' ∧ (is_ok r → ∀ a, a ∈ l → Q a h')).
Proof.
  intros HQ Hf. revert h. induction l as [|a l IH]; intros h H0; simpl.
  { apply wp_ret. split; [reflexivity|]. by intros _ a ?%elem_of_nil. }
  apply wp_bind. eapply wp_mono; [by apply Hf; [left|]|intros e He; exact He|].
  intros [[]|e] h1 [H1 Ha]; [|by split].
  eapply wp_mono; [apply IH; [|by etrans]|intros e He; exact He|].
  { intros b h' Hb. apply Hf. by right. }
  intros r h2 [H2 Hl]. split; [by etrans|]. intros Hr b [->|Hb]%elem_of_cons; [|by apply Hl].
  by apply (HQ a h1), Ha.
Qed.

Lemma newest_inner (v : N * Client) (l : list str) (m : gmap str (N * Client)) (k : str) :
  foldl (λ (m : gmap str (N * Client)) holder, <[holder := v]> m) m l !! k = if decide (k ∈ l) then Some v else m !! k.
Proof.
  revert m. induction l as [|a l IH]; intros m; [by rewrite decide_False by apply not_elem_of_nil|].
  simpl. rewrite IH. destruct (decide (k ∈ l)) as [Hin|Hnin]; [by rewrite decide_True by by right|].
  destruct (decide (k = a)) as [->|Hne]; [by rewrite decide_True, lookup_insert_eq by by left|].
  rewrite decide_False, lookup_insert_ne by (done || by intros [?|?]%elem_of_cons). done.
Qed.

(** The newest record of a holder is as new as any. *)
Lemma newest_spec rs r holder :
  StronglySorted N.lt (map seq rs) → r ∈ rs → holder ∈ holders r →
  ∃ s c, newest rs !! holder = Some (s, c) ∧ (seq r <= s)%N.
Proof.
  unfold newest. induction rs as [|x rs IH] using rev_ind; [by intros _ ?%elem_of_nil|].
  rewrite map_app, foldl_app. intros (Hlt & Hs & _)%StronglySorted_app [Hr|Hr]%elem_of_app Hh; simpl.
  - rewrite newest_inner. case_decide; [|by apply IH]. eexists _, _. split; [done|].
    apply N.lt_le_incl, Hlt; [by apply list_elem_of_fmap_2|by left].
  - apply list_elem_of_singleton in Hr as ->. rewrite newest_inner, decide_True by by apply elem_of_elements.
    by eexists _, _.
Qed.

Lemma sorted_filter (P : StoredRecord → Prop) `{∀ r, Decision (P r)} rs :
  StronglySorted N.lt (map seq rs) → StronglySorted N.lt (map seq (filter P rs)).
Proof.
  induction rs as [|r rs IH]; [done|]. intros [Hs Hr]%StronglySorted_inv. rewrite filter_cons.
  case_decide; [|by apply IH]. simpl. constructor; [by apply IH|].
  rewrite Forall_forall in Hr |- *. intros x (y & -> & Hy)%list_elem_of_fmap. apply Hr.
  apply list_elem_of_fmap_2. by apply list_elem_of_filter in Hy as [_ ?].
Qed.

(** Every holder of an evicted record has it noted. *)
Definition noted (rs : list StoredRecord) (evicted : gset N) (h : Host) : Prop :=
  ∀ r holder, r ∈ rs → seq r ∈ evicted → holder ∈ holders r → marked (files h) holder (seq r).

(** First the marks, then the records. *)
Definition evict_moment (rs : list StoredRecord) (evicted : gset N) (h h' : Host) : Prop :=
  pruned ∅ h h' ∨ pruned evicted h h' ∧ noted rs evicted h'.

Definition absent (s : N) (h : Host) : Prop := file_map (files h) !! record_path s = None.

Lemma record_path_listed s : listed (record_path s).
Proof. by split. Qed.

Lemma pruned_absent gone h h' s : pruned gone h h' → absent s h → absent s h'.
Proof.
  unfold absent. intros Hp Ha. by destruct (pr_files _ _ _ Hp (record_path s) (record_path_listed s)) as [->|[? _]].
Qed.

Lemma pruned_noted gone rs evicted h h' : pruned gone h h' → noted rs evicted h → noted rs evicted h'.
Proof. intros Hp Hn r holder H1 H2 H3. by apply (pr_marks _ _ _ Hp), Hn. Qed.

Lemma wp_drop_record (gone : gset N) P s h :
  s ∈ gone → (∀ h', pruned gone h h' → P h') →
  wp P (drop_record s) h (λ r h', pruned gone h h' ∧ (is_ok r → absent s h')).
Proof.
  intros Hs HP.
  assert (∀ fs', file_map fs' = file_map (files h) ∨ file_map fs' = delete (record_path s) (file_map (files h)) →
    pruned gone h (with_files fs' h)) as Hw.
  { intros fs' Hfs. split; simpl; [done| | |by split].
    - intros p Hp. destruct Hfs as [->| ->]; [by left|].
      destruct (decide (p = record_path s)) as [->|Hne]; [right|left; by rewrite lookup_delete_ne].
      rewrite lookup_delete_eq. split; [done|]. by exists s.
    - intros holder n (f & e & Hf & ?). exists f, e. split; [|done].
      destruct Hfs as [->| ->]; [done|]. by rewrite lookup_delete_ne. }
  unfold drop_record. apply wp_bind.
  eapply wp_mono; [apply wp_remove_file; intros fs' Hfs; by apply HP, Hw|intros e He; exact He|].
  intros [b|e] h' [Eh _ Hm _].
  - apply wp_ret. rewrite Eh. split; [apply Hw; right; apply Hm|]. intros _. unfold absent. simpl.
    destruct Hm as [-> _]. by rewrite lookup_delete_eq.
  - rewrite Eh. split; [apply Hw; left; apply Hm|done].
Qed.

Lemma elem_of_sorted_set x s : x ∈ sorted_set s ↔ x ∈ s.
Proof. unfold sorted_set. by rewrite (merge_sort_Permutation N.le), elem_of_elements. Qed.

Lemma wp_evict P roots evicted h :
  StronglySorted N.lt (map seq (rt_records roots)) →
  (∀ h', evict_moment (rt_records roots) evicted h h' → P h') →
  wp P (evict digest roots evicted) h (λ r h', evict_moment (rt_records roots) evicted h h' ∧
    (is_ok r → pruned evicted h h' ∧ noted (rt_records roots) evicted h' ∧
     ∀ s, s ∈ evicted → absent s h')).
Proof.
  intros Hs HP. unfold evict. case_bool_decide as He.
  { apply wp_ret. subst evicted. split; [by left|]. intros _. split; [done|split; [by intros r holder _ ?%elem_of_empty|by intros s ?%elem_of_empty]]. }
  set (lost := filter (λ r, seq r ∈ evicted) (rt_records roots)).
  apply wp_bind. eapply wp_mono; [|intros e He'; exact He'|].
  { apply (wp_each_io (pruned ∅) P (λ entry h', marked (files h') entry.1 entry.2.1) _ _ h); [|..|done].
    - intros [holder [s c]] h1 h2 H12. simpl. apply (pr_marks _ _ _ H12).
    - intros [holder [s c]] h1 _ H01. apply wp_mark_evicted. intros h2 H12. apply HP. left. by etrans. }
  intros [[]|e] h1 [H1 Hm]; [|by split; [left|]]. specialize (Hm I).
  assert (noted (rt_records roots) evicted h1) as Hn1.
  { intros r holder Hr Hev Hh.
    assert (StronglySorted N.lt (map seq lost)) as Hsl.
    { by apply sorted_filter. }
    destruct (newest_spec lost r holder Hsl) as (s & c & Hnew & Hle); [by apply list_elem_of_filter|done|].
    destruct (Hm (holder, (s, c))) as (f & e & Hf & Hv & Eh & Hse).
    { rewrite sort_by_perm. by apply elem_of_map_to_list. }
    exists f, e. split_and!; [done..|]. simpl in *. lia. }
  apply wp_bind. eapply wp_mono; [|intros e He'; exact He'|].
  { apply (wp_each_io (pruned evicted) P absent _ _ h1); [|..|done].
    - intros s h2 h3. by apply pruned_absent.
    - intros s h2 Hin H12. apply wp_drop_record; [by apply elem_of_sorted_set|].
      intros h3 H23. apply HP. right. assert (pruned evicted h1 h3) as H13 by (by etrans).
      split; [|by eapply pruned_noted]. etrans; [|exact H13]. by apply pruned_none. }
  intros r h2 [H2 Ha]. assert (pruned evicted h h2) as H02.
  { etrans; [|exact H2]. by apply pruned_none. }
  assert (noted (rt_records roots) evicted h2) as Hn2 by exact (pruned_noted _ _ _ _ _ H2 Hn1).
  destruct r as [[]|e]; [|by split; [right|]]. specialize (Ha I).
  eapply wp_mono; [apply (within_reading evicted); [apply within_sync|]|intros e He'; exact He'|].
  { intros h3 H23. apply HP. right. split; [by etrans|by eapply pruned_noted]. }
  intros r h3 H23. assert (pruned evicted h h3) by (by etrans).
  assert (noted (rt_records roots) evicted h3) by exact (pruned_noted _ _ _ _ _ H23 Hn2).
  split; [by right|]. intros _. split_and!; [done..|]. intros s Hin.
  apply (pruned_absent evicted h2 h3 s H23), Ha. by apply elem_of_sorted_set.
Qed.

(** ** What collection reads *)

Record current (fs : Files) (roots : Roots) : Prop := {
  cu_open : opens_at fs = Ok (rt_open roots);
  cu_records : records_at fs = Ok (rt_records roots);
  cu_reverted : ∃ js, journals_at fs = Ok js ∧ rt_reverted roots = list_to_set (concat (map j_seqs js));
}.

Lemma reading_at {T : Type} (f : Files → T) h h' :
  (∀ fl fs, f (with_file_faults fl fs) = f fs) → reading h h' → f (files h') = f (files h).
Proof. intros Hf Hr. by apply (reading_files h h' T f). Qed.

Lemma wp_reverted P h :
  (∀ h', reading h h' → P h') →
  wp P reverted h (λ r h', reading h h' ∧ ∀ s, r = Ok s →
    ∃ js, journals_at (files h) = Ok js ∧ s = list_to_set (concat (map j_seqs js))).
Proof.
  intros HP. unfold reverted. apply wp_bind.
  eapply wp_mono; [by apply (looks_journals h P)|intros e He; exact He|].
  intros [js|e] h1 (Hr1 & Hjs & _); [|by split]. apply wp_ret. split; [done|].
  intros s [= <-]. exists js. split; [by apply Hjs|done].
Qed.

Lemma wp_read_roots P h :
  (∀ h', reading h h' → P h') →
  wp P read_roots h (λ r h', reading h h' ∧ ∀ roots, r = Ok roots → current (files h) roots).
Proof.
  intros HP. unfold read_roots. apply wp_bind.
  eapply wp_mono; [by apply (looks_open_records h P)|intros e He; exact He|].
  intros [os|e] h1 (H1 & Hos & _); [|by split]. apply wp_bind.
  eapply wp_mono; [apply (looks_records h1 P); intros h' H'; apply HP; by etrans|intros e He; exact He|].
  intros [rs|e] h2 (H2 & Hrs & _); [|by split; [etrans|]]. assert (reading h h2) as H02 by by etrans.
  apply wp_bind. eapply wp_mono; [apply (wp_reverted P h2); intros h' H'; apply HP; by etrans|intros e He; exact He|].
  intros [s|e] h3 [H3 Hs]; [|by split; [etrans|]]. apply wp_ret. split; [by etrans|].
  intros roots [= <-]. destruct (Hs s eq_refl) as (js & Hjs & ->). split; simpl.
  - by apply Hos.
  - rewrite <- (reading_at records_at h h1) by done. by apply Hrs.
  - exists js. split; [|done]. by rewrite <- (reading_at journals_at h h2).
Qed.

(** Records are listed in the order of their numbers. *)
Lemma names_in_sorted d m : StronglySorted bytes_lt (names_in d m).
Proof.
  unfold names_in. set (l := omap _ (map_to_list m)).
  pose proof (sort_by_sorted id l) as H. simpl in H. apply H. rewrite list_fmap_id. subst l.
  pose proof (NoDup_fst_map_to_list m) as Hnd. revert Hnd. generalize (map_to_list m) as l.
  induction l as [|[[d' n] f] l IH]; simpl; [constructor|]. intros [Hnin Hnd]%NoDup_cons.
  case_decide as E; [|by apply IH]. constructor; [|by apply IH]. subst d'.
  intros ([[d' n'] f'] & Hin & E)%list_elem_of_omap. case_decide; [|done]. injection E as ->. subst d'.
  apply Hnin. apply list_elem_of_fmap. by exists (d, n, f').
Qed.

Lemma parsed_sorted ns ss :
  StronglySorted bytes_lt ns → collect_ok parse_record_name ns = Ok ss → StronglySorted N.lt ss.
Proof.
  revert ss. induction ns as [|n ns IH]; intros ss Hs; simpl; [intros [= <-]; constructor|].
  apply StronglySorted_inv in Hs as [Hs Hn]. destruct (parse_record_name n) as [s|] eqn:Ep; [|done]. simpl.
  destruct (collect_ok parse_record_name ns) as [ss'|] eqn:Es; [|done]. intros [= <-].
  constructor; [by apply IH|]. apply Forall_forall. intros x Hx.
  destruct (collect_ok_from _ _ _ _ Es Hx) as (m & Hm & Hp). rewrite Forall_forall in Hn. specialize (Hn m Hm).
  apply parse_record_name_spec in Ep as [Hs64 ->]. apply parse_record_name_spec in Hp as [Hx64 ->].
  unfold bytes_lt in Hn. rewrite record_name_cmp in Hn by done. by apply N.compare_lt_iff in Hn.
Qed.

Lemma records_sorted fs rs : records_at fs = Ok rs → StronglySorted N.lt (map seq rs).
Proof.
  unfold records_at, seqs_at, names_at. destruct (flooded RECORDS fs); [done|]. simpl.
  destruct (collect_ok parse_record_name _) as [ss|] eqn:Es; [|done]. simpl. intros Hrs.
  replace (map seq rs) with ss; [by eapply parsed_sorted; [apply names_in_sorted|]|].
  clear Es. revert rs Hrs. induction ss as [|s ss IH]; intros rs; simpl; [by intros [= <-]|].
  destruct (listed_record_at fs s) as [r|] eqn:Er; [|done]. simpl.
  destruct (collect_ok _ ss) as [rs'|]; [|done]. intros [= <-]. simpl. f_equal; [|by apply IH].
  unfold listed_record_at in Er. destruct (record_at fs s) as [[r'|]|] eqn:E; [|done..].
  injection Er as <-. symmetry. by apply (record_at_valid fs).
Qed.

(** ** Collecting *)

Definition named_by (roots : Roots) (evicted : gset N) : list ObjectId :=
  concat (map record_objects (filter (λ r, seq r ∉ evicted) (rt_records roots))).

Lemma wp_garbage P roots evicted h :
  (∀ o, keeps (objects h) o → P (with_objects o h)) →
  wp P (garbage previous roots evicted) h (λ r h', (∃ o, keeps (objects h) o ∧ h' = with_objects o h) ∧
    ∀ plan, r = Ok plan → ∃ trees live, collect_ok before_id (rt_open roots) = Ok trees ∧
      mark_roots (objects h) trees (list_to_set (previous ++ named_by roots evicted)) = Some (Ok live) ∧
      ∀ o, o ∈ live → o ∉ map fst (g_objects plan)).
Proof.
  intros HP. assert (h = with_objects (objects h) h) as Eh by by destruct h.
  unfold garbage. apply wp_bind, wp_lift.
  destruct (collect_ok before_id (rt_open roots)) as [trees|e]; [|by split; [exists (objects h)|]].
  apply wp_bind, wp_in_objects.
  eapply wp_mono; [apply wp_garbage_keeping|intros d Hd; by apply HP; split|].
  intros r o [Ho Hplan]. split; [|by apply HP].
  destruct r as [plan|e]; simpl; [apply wp_ret|apply wp_throw]; (split; [by exists o|]); [|done].
  intros p [= <-]. destruct (Hplan plan eq_refl) as (live & Hm & Hl). exists trees, live.
  split_and!; [done..|]. intros x Hx Hin. apply Hl in Hin. naive_solver.
Qed.

(** Only garbage goes. *)
Record collecting (roots : Roots) (evicted : gset N) (h h' : Host) : Prop := {
  cl_tree : same_tree (tree h) (tree h');
  cl_files : file_map (files h') = file_map (files h);
  cl_named : ∀ o, o ∈ named_by roots evicted →
    ObjectStore.named (disk (objects h')) !! o = ObjectStore.named (disk (objects h)) !! o;
  cl_trees : ∀ open id, open ∈ rt_open roots → before_id open = Ok id →
    entries (objects h') id = entries (objects h) id;
}.

Lemma collecting_refl roots evicted h : collecting roots evicted h h.
Proof. by split. Qed.

Lemma read_tree_keeps w w' o : keeps w w' → read_tree w' o = read_tree w o.
Proof.
  intros Hk. unfold read_tree.
  by rewrite (read_object_kept [] w w') by (by apply keeps_without || apply not_elem_of_nil).
Qed.

Lemma not_a_tree_keeps w w' o : keeps w w' → not_a_tree w o → not_a_tree w' o.
Proof. intros Hk Hn nodes. rewrite (read_tree_keeps w w') by done. apply Hn. Qed.

Lemma typed_keeps w w' : keeps w w' → typed w → typed w'.
Proof.
  intros Hk Ht tree nodes node. rewrite (read_tree_keeps w w') by done. intros H1 H2 H3.
  eapply not_a_tree_keeps; [done|]. by eapply Ht.
Qed.

Lemma entries_keeps w w' id : keeps w w' → entries w' id = entries w id.
Proof.
  intros Hk. apply (entries_kept w w' [id]); [|by left]. intros o k _.
  apply (read_object_kept []); [by apply keeps_without|apply not_elem_of_nil].
Qed.

Lemma pruned_objects gone h o : keeps (objects h) o → pruned gone h (with_objects o h).
Proof. intros Ho. split; simpl; [done|by left|done|done]. Qed.

Lemma wp_collect_safe P roots evicted h :
  typed (objects h) → (∀ o, o ∈ previous ++ named_by roots evicted → not_a_tree (objects h) o) →
  (∀ h', collecting roots evicted h h' → P h') →
  wp P (collect previous roots evicted) h (λ _ h', collecting roots evicted h h').
Proof.
  intros Ht Hnot HP.
  assert (∀ o, keeps (objects h) o → collecting roots evicted h (with_objects o h)) as Hkeep.
  { intros o Ho. split; simpl; [done|done|by destruct Ho as [(-> & _) _]|intros; by apply entries_keeps]. }
  unfold collect. apply wp_bind.
  eapply wp_mono; [apply wp_garbage; intros o Ho; by apply HP, Hkeep|intros e He; exact He|].
  intros [plan|e] h1 [(o1 & Ho1 & ->) Hplan]; [|by apply Hkeep].
  destruct (Hplan plan eq_refl) as (trees & live & Htrees & Hmark & Hlive).
  assert (∀ o, only_without (map fst (g_objects plan)) o1 o → collecting roots evicted h (with_objects o h)) as Hgo.
  { intros o Ho. assert (only_without (map fst (g_objects plan)) (objects h) o) as Hwo.
    { destruct (keeps_without (map fst (g_objects plan)) _ _ Ho1) as [D1 O1]. destruct Ho as [D2 O2].
      split; [by etrans|congruence]. }
    destruct (without_garbage previous trees (named_by roots evicted) (objects h) live _ o Ht Hnot Hmark Hlive Hwo)
      as [Hn He].
    split; simpl; [done|done| |].
    - intros x Hx. apply Hn. left. apply elem_of_app. by right.
    - intros open id Hopen Hid. apply He.
      destruct (collect_ok_elem before_id _ trees open Htrees Hopen) as (t & Et & ?). congruence. }
  apply wp_bind, wp_in_objects.
  eapply wp_mono; [apply (wp_collect (λ d, only_without (map fst (g_objects plan)) o1 (with_disk d o1)))| |].
  - intros d Hd. by split.
  - intros d Hd. apply HP, (Hgo (with_disk d o1) Hd).
  - intros r o [Ho _]. simpl. split; [|by apply HP, Hgo].
    destruct r as [u|e]; [apply wp_ret|apply wp_throw]; by apply Hgo.
Qed.

(** ** Planning an eviction *)

Lemma within_gallop R `{!PreOrder R} fuel failing step high fits :
  (∀ n, within R (fits n)) → within R (gallop fuel failing step high fits).
Proof.
  intros Hf. revert failing step. induction fuel as [|fuel IH]; intros failing step; simpl; [apply within_ret, _|].
  destruct (_ =? _); [apply within_ret, _|]. apply within_bind; [apply _|apply Hf|].
  intros []; [apply within_ret, _|apply IH].
Qed.

Lemma within_bisect R `{!PreOrder R} fuel failing fitting fits :
  (∀ n, within R (fits n)) → within R (bisect fuel failing fitting fits).
Proof.
  intros Hf. revert failing fitting. induction fuel as [|fuel IH]; intros failing fitting;
    cbn [bisect]; [apply within_ret, _|].
  destruct (_ <=? _); [apply within_ret, _|]. apply within_bind; [apply _|apply Hf|]. intros []; apply IH.
Qed.

Lemma within_smallest_fitting R `{!PreOrder R} low high fits :
  (∀ n, within R (fits n)) → within R (smallest_fitting low high fits).
Proof.
  intros Hf. unfold smallest_fitting. destruct (_ <=? _); [apply within_ret, _|].
  apply within_bind; [apply _|apply Hf|]. intros []; [apply within_ret, _|].
  apply within_bind; [apply _|by apply within_gallop|]. intros [failing fitting]. by apply within_bisect.
Qed.

Lemma within_garbage gone roots evicted : within (pruned gone) (garbage previous roots evicted).
Proof.
  intros P h HP. eapply wp_mono; [apply wp_garbage; intros o Ho; by apply HP, pruned_objects|intros e He; exact He|].
  intros r h' [(o & Ho & ->) _]. by apply pruned_objects.
Qed.

Lemma within_record_size gone s : within (pruned gone) (record_size s).
Proof. apply within_reading, within_size. Qed.

Lemma within_record_sizes gone l : within (pruned gone) (map_io record_size l).
Proof. apply within_map_io; [apply _|]. intros s. apply within_record_size. Qed.

(** What may be evicted: records outside every window and every revert. *)
Definition may_go (roots : Roots) (allowed : N → Prop) (evicted : gset N) : Prop :=
  ∀ s, s ∈ evicted → allowed s ∧ s ∉ rt_reverted roots ∧ keeps_seq (kept_of (rt_open roots)) s = false ∧
    ∃ r, r ∈ rt_records roots ∧ seq r = s.

Definition older (protect_from s : N) : Prop := (s < protect_from)%N.

Lemma may_evict_spec roots protect_from r :
  may_evict roots protect_from r = true →
  older protect_from (seq r) ∧ seq r ∉ rt_reverted roots ∧ keeps_seq (kept_of (rt_open roots)) (seq r) = false.
Proof.
  unfold may_evict. intros [[H1 H2]%orb_false_iff H3]%negb_true_iff%orb_false_iff.
  apply N.leb_gt in H1. by apply bool_decide_eq_false in H3.
Qed.

Lemma evictable_may_go roots protect_from s :
  s ∈ (evictable roots protect_from).1 ∪ list_to_set (evictable roots protect_from).2 →
  older protect_from s ∧ s ∉ rt_reverted roots ∧ keeps_seq (kept_of (rt_open roots)) s = false ∧
    ∃ r, r ∈ rt_records roots ∧ seq r = s.
Proof.
  unfold evictable. cbn [fst snd].
  intros [Hs%elem_of_list_to_set|Hs%elem_of_list_to_set]%elem_of_union;
    apply list_elem_of_fmap in Hs as (r & -> & Hr);
    apply list_elem_of_filter in Hr as [_ Hr]; apply list_elem_of_filter in Hr as [Hm Hr];
    destruct (may_evict_spec _ _ _ Hm) as (? & ? & ?); split_and!; try done; by exists r.
Qed.

Lemma evicting_may_go roots protect_from n :
  may_go roots (older protect_from)
    (evicting (evictable roots protect_from).1 (evictable roots protect_from).2 n).
Proof.
  intros s Hs. apply evictable_may_go. unfold evicting in Hs. rewrite elem_of_union in Hs |- *.
  destruct Hs as [?|Hs]; [by left|right]. apply elem_of_list_to_set in Hs. apply elem_of_list_to_set.
  apply elem_of_take in Hs as (i & Hs & _). by apply list_elem_of_lookup_2 in Hs.
Qed.

Lemma wp_plan_eviction P roots usage target protect_from h :
  (∀ h', pruned ∅ h h' → P h') →
  wp P (plan_eviction previous roots usage target protect_from) h (λ r h', pruned ∅ h h' ∧
    ∀ evicted, r = Ok evicted → may_go roots (older protect_from) evicted).
Proof.
  intros HP. unfold plan_eviction. pose proof (evicting_may_go roots protect_from) as Hgo.
  destruct (evictable roots protect_from) as [tombstones held]. simpl in Hgo.
  apply wp_bind. eapply wp_mono; [by apply (within_record_sizes ∅)|intros e He; exact He|].
  intros [sizes|e] h1 H1; [|by split].
  apply wp_bind. eapply wp_mono; [apply (within_record_sizes ∅)|intros e He; exact He|].
  { intros h' H'. apply HP. by etrans. }
  intros [ts|e] h2 H2; [|by split; [etrans|]].
  apply wp_bind. eapply wp_mono; [apply (within_smallest_fitting (pruned ∅))|intros e He; exact He|].
  { intros n. unfold fits_target. apply within_bind; [apply _|apply within_garbage|]. intros. apply within_ret, _. }
  { intros h' H'. apply HP. etrans; [exact H1|]. by etrans. }
  intros [n|e] h3 H3; [apply wp_ret|]; (split; [etrans; [exact H1|]; by etrans|]); [|done].
  intros evicted [= <-]. apply Hgo.
Qed.

(** ** The whole of it *)

Lemma within_usage_of gone dirs bytes : within (pruned gone) (usage_of dirs bytes).
Proof.
  revert bytes. induction dirs as [|d dirs IH]; intros bytes; simpl; [apply within_ret, _|].
  apply within_bind; [apply _| |intros; apply IH]. apply within_reading. unfold directory_bytes.
  by apply within_fcall_reading.
Qed.

Lemma within_objects_usage gone : within (pruned gone) objects_usage.
Proof.
  apply within_reading. unfold objects_usage. apply within_bind; [apply _| |].
  - by apply within_fcall_reading.
  - intros _. apply within_host. intros h. by destruct h.
Qed.

Lemma within_store_usage gone : within (pruned gone) store_usage.
Proof.
  unfold store_usage. apply within_bind; [apply _|apply within_objects_usage|intros u].
  apply within_bind; [apply _|apply within_usage_of|intros b].
  apply within_bind; [apply _|apply within_reading, within_size|intros s]. apply within_ret, _.
Qed.

Lemma within_measure gone st : within (pruned gone) (measure st).
Proof.
  unfold measure. apply within_bind; [apply _|apply within_store_usage|intros u].
  apply within_bind; [apply _|apply within_reading, within_seqs|intros ss].
  apply within_bind; [apply _|apply within_pruned_write_state|intros []]. apply within_ret, _.
Qed.

(** ** Safety *)

(** Allowed, outside every window, named by no revert, and noted for each holder. *)
Record let_go (allowed : N → Prop) (h : Host) (r : StoredRecord) : Prop := {
  lg_allowed : allowed (seq r);
  lg_window : ∀ p f o, p.1 = OPEN → file_map (files h) !! p = Some f → decode f = Ok o →
    (seq r < opened_seq o)%N;
  lg_reverts : ∀ p f j, p.1 = REVERTS → file_map (files h) !! p = Some f → decode f = Ok j →
    seq r ∉ j_seqs j;
  lg_noted : ∀ holder, holder ∈ holders r → marked (files h) holder (seq r);
}.

Record safe (allowed : N → Prop) (h h' : Host) : Prop := {
  sf_tree : same_tree (tree h) (tree h');
  sf_files : ∀ p f, listed p → file_map (files h') !! p = Some f → file_map (files h) !! p = Some f;
  sf_gone : ∀ p f r, p.1 = RECORDS → file_map (files h) !! p = Some f → file_map (files h') !! p = None →
    decode f = Ok r → let_go allowed h' r;
  sf_kept : ∀ p f r o, p.1 = RECORDS → file_map (files h') !! p = Some f → decode f = Ok r →
    o ∈ record_objects r → ObjectStore.named (disk (objects h')) !! o = ObjectStore.named (disk (objects h)) !! o;
  sf_open : ∀ p f open id, p.1 = OPEN → file_map (files h') !! p = Some f → decode f = Ok open →
    before_id open = Ok id → entries (objects h') id = entries (objects h) id;
  sf_opens : ∀ p, p.1 = OPEN → file_map (files h') !! p = file_map (files h) !! p;
}.

Lemma listed_dir (p : Dir * list N) d : p.1 = d → d ≠ STATE → d ≠ EVICTED → listed p.
Proof. by intros <-. Qed.
Lemma in_records_listed (p : Dir * list N) : p.1 = RECORDS → listed p.
Proof. intros E. by apply (listed_dir p RECORDS). Qed.
Lemma in_open_listed (p : Dir * list N) : p.1 = OPEN → listed p.
Proof. intros E. by apply (listed_dir p OPEN). Qed.
Lemma in_reverts_listed (p : Dir * list N) : p.1 = REVERTS → listed p.
Proof. intros E. by apply (listed_dir p REVERTS). Qed.

Lemma pruned_same h h' p : pruned ∅ h h' → listed p → file_map (files h') !! p = file_map (files h) !! p.
Proof. intros Hp Hl. destruct (pr_files _ _ _ Hp p Hl) as [?|(_ & s & Hs & _)]; [done|set_solver]. Qed.

Lemma let_go_after allowed h h' r : pruned ∅ h h' → let_go allowed h r → let_go allowed h' r.
Proof.
  intros Hp [H1 H2 H3 H4]. split; [done|..].
  - intros p f o Hd. rewrite (pruned_same h h' p) by (done || by apply in_open_listed). by apply H2.
  - intros p f j Hd. rewrite (pruned_same h h' p) by (done || by apply in_reverts_listed). by apply H3.
  - intros holder Hh. by apply (pr_marks _ _ _ Hp), H4.
Qed.

Lemma safe_after allowed h h1 h2 : safe allowed h h1 → pruned ∅ h1 h2 → safe allowed h h2.
Proof.
  intros [T F G K O N] Hp. pose proof (pruned_same h1 h2) as Hs. split.
  - etrans; [exact T|apply Hp].
  - intros p f Hl. rewrite Hs by done. by apply F.
  - intros p f r Hd Hf. rewrite Hs by (done || by apply in_records_listed). intros Hn Hr.
    eapply let_go_after; [done|]. by eapply G.
  - intros p f r o Hd. rewrite Hs by (done || by apply in_records_listed). intros Hf Hr Ho.
    destruct (pr_objects _ _ _ Hp) as [(-> & _) _]. by eapply K.
  - intros p f open id Hd. rewrite Hs by (done || by apply in_open_listed). intros Hf Hr Ho.
    rewrite (entries_keeps (objects h1) (objects h2)) by apply Hp. by eapply O.
  - intros p Hd. rewrite Hs by (done || by apply in_open_listed). by apply N.
Qed.

Lemma safe_before allowed h h1 h2 : pruned ∅ h h1 → safe allowed h1 h2 → safe allowed h h2.
Proof.
  intros Hp [T F G K O N]. pose proof (pruned_same h h1) as Hs. split.
  - etrans; [apply Hp|exact T].
  - intros p f Hl Hf. rewrite <- Hs by done. by apply F.
  - intros p f r Hd. rewrite <- Hs by (done || by apply in_records_listed). by apply G.
  - intros p f r o Hd Hf Hr Ho. rewrite (K p f r o) by done. by destruct (pr_objects _ _ _ Hp) as [(-> & _) _].
  - intros p f open id Hd Hf Hr Ho. rewrite (O p f open id) by done. apply entries_keeps, Hp.
  - intros p Hd. rewrite N by done. apply Hs; [done|by apply in_open_listed].
Qed.

Lemma safe_refl allowed h : safe allowed h h.
Proof. split; [done|done| |done|done|done]. intros p f r _ H1 H2. congruence. Qed.

Lemma pruned_opens evicted h h' p :
  pruned evicted h h' → p.1 = OPEN → file_map (files h') !! p = file_map (files h) !! p.
Proof.
  intros Hp Hd. destruct (pr_files _ _ _ Hp p (in_open_listed p Hd)) as [?|(_ & s & _ & E)]; [done|].
  by rewrite E in Hd.
Qed.

Lemma pruned_safe allowed h h' : pruned ∅ h h' → safe allowed h h'.
Proof. intros Hp. by eapply safe_after; [apply safe_refl|]. Qed.

Lemma kept_of_before os o s : o ∈ os → keeps_seq (kept_of os) s = false → (s < opened_seq o)%N.
Proof.
  intros Ho. unfold kept_of, keeps_seq, minimum. simpl.
  destruct (map opened_seq os) as [|x l] eqn:E; [by destruct os; [apply elem_of_nil in Ho|]|].
  intros Hk%N.leb_gt. apply (N.lt_le_trans _ (foldr N.min x l)); [done|].
  assert (opened_seq o ∈ x :: l) as Hin by (rewrite <- E; by apply list_elem_of_fmap_2).
  clear -Hin. revert x Hin. induction l as [|y l IH]; intros x Hin; simpl.
  - apply list_elem_of_singleton in Hin as ->. done.
  - apply elem_of_cons in Hin as [E|[E|Hin]%elem_of_cons].
    + assert (foldr N.min x l <= opened_seq o)%N by (apply IH; rewrite E; by left). lia.
    + lia.
    + assert (foldr N.min x l <= opened_seq o)%N by (apply IH; by right). lia.
Qed.

Lemma record_name_inj a b :
  (a <= U64_MAX)%N → (b <= U64_MAX)%N → record_name a = record_name b → a = b.
Proof.
  intros Ha Hb E. apply N.compare_eq. rewrite <- record_name_cmp by done. rewrite E. apply bytes_cmp_refl.
Qed.

Section core.
Context (roots : Roots) (allowed : N → Prop) (evicted : gset N) (h : Host).
Context (Hcur : current (files h) roots) (Hgo : may_go roots allowed evicted).

(** Of the records there were, those that may go are let go. *)
Lemma gone_let_go h' p f r :
  pruned evicted h h' → noted (rt_records roots) evicted h' → p.1 = RECORDS →
  file_map (files h) !! p = Some f → file_map (files h') !! p = None → decode f = Ok r →
  let_go allowed h' r.
Proof.
  intros Hp Hn Hd Hf Hnone Hr. destruct p as [d name]. simpl in Hd. subst d.
  destruct (records_complete _ _ _ _ (cu_records _ _ Hcur) Hf) as (r' & Hin & Hr' & -> & H64).
  assert (r' = r) as -> by congruence. clear Hr'.
  assert (seq r ∈ evicted) as Hev.
  { destruct (pr_files _ _ _ Hp (RECORDS, record_name (seq r))) as [E|(_ & s & Hs & E)]; [done|congruence|].
    apply (f_equal snd) in E. unfold record_path in E. cbn [snd] in E.
    destruct (Hgo s Hs) as (_ & _ & _ & rs & Hrs & <-).
    destruct (records_listed _ _ _ (cu_records _ _ Hcur) Hrs) as (_ & _ & _ & Hs64).
    by rewrite (record_name_inj _ _ H64 Hs64 E). }
  destruct (Hgo _ Hev) as (H1 & H3 & H2 & _).
  assert (∀ q g, listed q → q.1 ≠ RECORDS → file_map (files h') !! q = Some g → file_map (files h) !! q = Some g) as Hsame.
  { intros q g Hl Hq. destruct (pr_files _ _ _ Hp q Hl) as [->|(_ & s & _ & ->)]; done. }
  split; [done|..].
  - intros [d n] g o Hq Hg Ho. simpl in Hq. subst d.
    destruct (opens_complete _ _ _ _ (cu_open _ _ Hcur) (Hsame (OPEN, n) g ltac:(done) ltac:(done) Hg)) as (o' & Hin2 & E).
    assert (o' = o) as -> by congruence. by eapply kept_of_before.
  - intros [d n] g j Hq Hg Hj Hjs. simpl in Hq. subst d.
    destruct (cu_reverted _ _ Hcur) as (js & Ejs & Erev).
    destruct (journals_complete _ _ _ _ Ejs (Hsame (REVERTS, n) g ltac:(done) ltac:(done) Hg)) as (j' & Hin2 & E).
    assert (j' = j) as -> by congruence. apply H3. rewrite Erev. apply elem_of_list_to_set, elem_of_concat.
    exists (j_seqs j). split; [done|by apply list_elem_of_fmap_2].
  - intros holder Hh. by apply Hn.
Qed.

Lemma evicting_safe h' : evict_moment (rt_records roots) evicted h h' → safe allowed h h'.
Proof.
  intros [Hp|[Hp Hn]]; [by apply pruned_safe|]. split; [apply Hp|..].
  - intros p f Hl Hf. destruct (pr_files _ _ _ Hp p Hl) as [<-|[? _]]; [done|congruence].
  - intros p f r. by apply gone_let_go.
  - intros. by destruct (pr_objects _ _ _ Hp) as [(-> & _) _].
  - intros. apply entries_keeps, Hp.
  - intros p. by apply (pruned_opens evicted).
Qed.

(** Once the evicted are gone only garbage goes. *)
Lemma collecting_safe h1 h2 :
  pruned evicted h h1 → noted (rt_records roots) evicted h1 → (∀ s, s ∈ evicted → absent s h1) →
  collecting roots evicted h1 h2 → safe allowed h h2.
Proof.
  intros Hp Hn Ha [T F C O]. pose proof (evicting_safe h1 (or_intror (conj Hp Hn))) as [T1 F1 G1 K1 O1 N1].
  split; [by etrans|..].
  - intros p f Hl. rewrite F. by apply F1.
  - intros p f r Hd Hf. rewrite F. intros Hnone Hr. pose proof (G1 p f r Hd Hf Hnone Hr) as [L1 L2 L3 L4].
    split; [done|..].
    + intros q g o. rewrite F. apply L2.
    + intros q g j. rewrite F. apply L3.
    + intros holder Hh. destruct (L4 holder Hh) as (g & e & Hg & ?). exists g, e. by rewrite F.
  - intros [d name] f r o Hd. simpl in Hd. subst d. rewrite F. intros Hf Hr Ho.
    rewrite C; [by apply (K1 (RECORDS, name) f r o)|]. unfold named_by. apply elem_of_concat. exists (record_objects r).
    split; [done|]. apply list_elem_of_fmap_2, list_elem_of_filter.
    destruct (records_complete _ _ _ _ (cu_records _ _ Hcur) (F1 (RECORDS, name) f ltac:(done) Hf)) as (r' & Hin & Hr' & -> & _).
    assert (r' = r) as -> by congruence. split; [|done]. intros Hev. specialize (Ha _ Hev).
    unfold absent, record_path in Ha. congruence.
  - intros [d name] f open id Hd. simpl in Hd. subst d. rewrite F. intros Hf Ho Hid.
    destruct (opens_complete _ _ _ _ (cu_open _ _ Hcur) (F1 (OPEN, name) f ltac:(done) Hf)) as (o' & Hin & Ho').
    assert (o' = open) as -> by congruence. rewrite (O open id) by done. by apply (O1 (OPEN, name) f open id).
  - intros p. rewrite F. apply N1.
Qed.
End core.

(** Records and the stat cache name blobs. *)
Record names_blobs (h : Host) : Prop := {
  nb_typed : typed (objects h);
  nb_previous : ∀ o, o ∈ previous → not_a_tree (objects h) o;
  nb_records : ∀ p f r o, p.1 = RECORDS → file_map (files h) !! p = Some f → decode f = Ok r →
    o ∈ record_objects r → not_a_tree (objects h) o;
}.

Lemma names_blobs_after gone h h' : pruned gone h h' → names_blobs h → names_blobs h'.
Proof.
  intros Hp [Ht Hpr Hr]. pose proof (pr_objects _ _ _ Hp) as Hk. split.
  - by eapply typed_keeps.
  - intros o Ho. eapply not_a_tree_keeps; [done|]. by apply Hpr.
  - intros p f r o Hd Hf Hdec Ho. eapply not_a_tree_keeps; [done|]. eapply Hr; [done| |done..].
    by destruct (pr_files _ _ _ Hp p (in_records_listed p Hd)) as [<-|[? _]]; [|congruence].
Qed.

Lemma named_blobs roots evicted h :
  current (files h) roots → names_blobs h →
  ∀ o, o ∈ previous ++ named_by roots evicted → not_a_tree (objects h) o.
Proof.
  intros Hcur [_ Hpr Hr] o [Ho|Ho]%elem_of_app; [by apply Hpr|].
  apply elem_of_concat in Ho as (l & Ho & Hl). apply list_elem_of_fmap in Hl as (r & -> & Hin).
  apply list_elem_of_filter in Hin as [_ Hin].
  destruct (records_listed _ _ _ (cu_records _ _ Hcur) Hin) as (f & Hf & Hd & _).
  by apply (Hr (record_path (seq r)) f r o).
Qed.

Lemma wp_evict_collect {A} P roots allowed evicted (k : Usage → Io A) h0 h :
  current (files h0) roots → may_go roots allowed evicted → names_blobs h0 → pruned ∅ h0 h →
  (∀ h', safe allowed h0 h' → P h') →
  (∀ u h', safe allowed h0 h' → wp P (k u) h' (λ _ h'', safe allowed h0 h'')) →
  wp P (do? _ := evict digest roots evicted in do? u := collect previous roots evicted in k u)%W h
    (λ _ h', safe allowed h0 h').
Proof.
  intros Hcur Hgo Hb H0 HP Hk.
  assert (∀ h', evict_moment (rt_records roots) evicted h h' → evict_moment (rt_records roots) evicted h0 h') as Hmom.
  { intros h' [H|[H Hn]]; [left; by etrans|right]. split; [|done]. etrans; [by apply pruned_none|done]. }
  apply wp_bind. eapply wp_mono; [apply wp_evict|intros e He; exact He|].
  { by apply (records_sorted (files h0)), Hcur. }
  { intros h' H'. apply HP. eapply evicting_safe; [done..|]. by apply Hmom. }
  intros [[]|e] h1 [H1 Hall]; [|eapply evicting_safe; [done..|]; by apply Hmom].
  destruct (Hall I) as (Hp & Hn & Ha). assert (pruned evicted h0 h1) as Hp0.
  { etrans; [by apply pruned_none|done]. }
  assert (∀ h', collecting roots evicted h1 h' → safe allowed h0 h') as Hcl.
  { intros h' Hc. by eapply collecting_safe. }
  apply wp_bind. eapply wp_mono; [apply wp_collect_safe|intros e He; exact He|].
  - by apply (typed_keeps (objects h0)), Hb; apply Hp0.
  - intros o Ho. apply (not_a_tree_keeps (objects h0)); [apply Hp0|]. by eapply named_blobs.
  - intros h' Hc. by apply HP, Hcl.
  - intros [u|e] h2 Hc; [|by apply Hcl]. by apply Hk, Hcl.
Qed.

Lemma wp_retain_go P st target protect_from h :
  names_blobs h → (∀ h', safe (older protect_from) h h' → P h') →
  wp P (do? roots := read_roots in
        do? evicted := plan_eviction previous roots (st_bytes st) target protect_from in
        do? _ := evict digest roots evicted in
        do? _ := collect previous roots evicted in
        measure st)%W h (λ _ h', safe (older protect_from) h h').
Proof.
  intros Hb HP. apply wp_bind.
  assert (∀ h', pruned ∅ h h' → P h') as HPp by (intros h' Hp; by apply HP, pruned_safe).
  eapply wp_mono; [apply wp_read_roots; intros h' Hr; by apply HPp, reading_pruned|intros e He; exact He|].
  intros [roots|e] h1 [Hr1 Hcur]; [|by apply pruned_safe, reading_pruned].
  pose proof (reading_pruned ∅ _ _ Hr1) as H1. apply wp_bind.
  eapply wp_mono; [apply wp_plan_eviction; intros h' Hp; apply HPp; by etrans|intros e He; exact He|].
  intros [evicted|e] h2 [H2 Hgo]; [|apply pruned_safe; by etrans].
  apply wp_evict_collect; [by apply Hcur|by apply Hgo|done|by etrans|done|].
  intros u h3 H3. eapply wp_mono; [apply (within_measure ∅)|intros e He; exact He|].
  - intros h4 H4. apply HP. by eapply safe_after.
  - intros r h4 H4. by eapply safe_after.
Qed.

Lemma wp_retain_safe P st target protect_from h :
  names_blobs h → (∀ h', safe (older protect_from) h h' → P h') →
  wp P (retain digest previous st target protect_from) h (λ _ h', safe (older protect_from) h h').
Proof.
  intros Hb HP. unfold retain. destruct (within_target st target); [apply wp_ret, safe_refl|].
  apply wp_bind. eapply wp_mono; [apply (within_measure ∅); intros h' Hp; by apply HP, pruned_safe|intros e He; exact He|].
  intros [st'|e] h1 H1; [|by apply pruned_safe].
  destruct (within_target st' target); [by apply wp_ret, pruned_safe|].
  eapply wp_mono; [apply wp_retain_go|intros e He; exact He|].
  - by eapply names_blobs_after.
  - intros h' H'. apply HP. by eapply safe_before.
  - intros r h' H'. by eapply safe_before.
Qed.

(** ** Abandoning open records *)

(** Some open records of [tickets] that were stale are gone. *)
Record dropped (tickets : list (list N)) (now : N) (h h' : Host) : Prop := {
  dr_tree : same_tree (tree h) (tree h');
  dr_files : ∀ p, listed p → file_map (files h') !! p = file_map (files h) !! p ∨
    file_map (files h') !! p = None ∧ p.1 = OPEN ∧ ∃ f o, file_map (files h) !! p = Some f ∧
      decode f = Ok o ∧ o_ticket o ∈ tickets ∧ is_stale o now = true;
  dr_marks : ∀ holder s, marked (files h) holder s → marked (files h') holder s;
  dr_objects : keeps (objects h) (objects h');
}.

#[export] Instance dropped_preorder tickets now : PreOrder (dropped tickets now).
Proof.
  split.
  - intros h. split; [done|by left|done|by split].
  - intros h1 h2 h3 [T1 F1 M1 O1] [T2 F2 M2 O2]. split; [by etrans| |auto|by eapply keeps_trans].
    intros p Hp. destruct (F2 p Hp) as [->|(Hn & Hd & f & o & Hf & Hr)]; [by apply F1|].
    destruct (F1 p Hp) as [E|[E _]]; [|congruence]. right. split_and!; [done..|]. exists f, o. by rewrite <- E.
Qed.

Lemma pruned_dropped tickets now h h' : pruned ∅ h h' → dropped tickets now h h'.
Proof. intros Hp. split; try apply Hp. intros p Hl. left. by apply pruned_same. Qed.

Lemma dropped_same tickets now h h' p :
  dropped tickets now h h' → listed p → p.1 ≠ OPEN →
  file_map (files h') !! p = file_map (files h) !! p.
Proof. intros Hd Hl Hp. by destruct (dr_files _ _ _ _ Hd p Hl) as [?|(_ & ? & _)]. Qed.

Lemma names_blobs_dropped tickets now h h' : dropped tickets now h h' → names_blobs h → names_blobs h'.
Proof.
  intros Hd [Ht Hpr Hr]. pose proof (dr_objects _ _ _ _ Hd) as Hk. split.
  - by eapply typed_keeps.
  - intros o Ho. eapply not_a_tree_keeps; [done|]. by apply Hpr.
  - intros p f r o Hp. rewrite (dropped_same _ _ _ _ p Hd) by (try apply in_records_listed; congruence).
    intros Hf Hdec Ho. eapply not_a_tree_keeps; [done|]. by eapply Hr.
Qed.

Lemma open_record_at_spec fs ticket o :
  open_record_at fs ticket = Ok o →
  ∃ p f, open_path ticket = Ok p ∧ p.1 = OPEN ∧ file_map fs !! p = Some f ∧ decode f = Ok o ∧
    o_ticket o = ticket.
Proof.
  unfold open_record_at, open_path. destruct (valid_random_id ticket TICKET_PREFIX); [|done]. simpl.
  unfold read_as_at, read_at. destruct (file_map fs !! _) as [f|] eqn:Ef; [|done].
  destruct (_ <? _)%N; [done|]. cbn [result_bind]. destruct (decode f) as [o'|] eqn:Ed; [|done]. cbn [result_bind].
  case_bool_decide; [|done]. intros [= <-]. by eexists _, f.
Qed.

Lemma wp_remove_open P tickets now path f o h :
  path.1 = OPEN → file_map (files h) !! path = Some f → decode f = Ok o → o_ticket o ∈ tickets →
  is_stale o now = true → (∀ h', dropped tickets now h h' → P h') →
  wp P (remove path) h (λ _ h', dropped tickets now h h').
Proof.
  intros Hp Hf Hd Hin Hst HP.
  assert (∀ fs', file_map fs' = file_map (files h) ∨ file_map fs' = delete path (file_map (files h)) →
    dropped tickets now h (with_files fs' h)) as Hw.
  { intros fs' Hfs. split; simpl; [done| | |by split].
    - intros q Hq. destruct Hfs as [->| ->]; [by left|].
      destruct (decide (q = path)) as [->|Hne]; [right|left; by rewrite lookup_delete_ne].
      rewrite lookup_delete_eq. split_and!; [done..|]. by exists f, o.
    - intros holder n (g & e & Hg & ?). exists g, e. split; [|done].
      destruct Hfs as [->| ->]; [done|]. rewrite lookup_delete_ne; [done|]. intros E. by rewrite E in Hp. }
  eapply wp_mono; [apply wp_remove_file; intros fs' Hfs; by apply HP, Hw|intros e He; exact He|].
  intros r h' [Eh _ Hm _]. rewrite Eh. apply Hw. destruct r as [b|e]; [right; apply Hm|left; apply Hm].
Qed.

Lemma wp_abandon_stale P tickets now l abandoned reclaimed h :
  l ⊆ tickets → (∀ h', dropped tickets now h h' → P h') →
  wp P (abandon_stale now l abandoned reclaimed) h (λ _ h', dropped tickets now h h').
Proof.
  revert abandoned reclaimed h. induction l as [|ticket l IH]; intros abandoned reclaimed h Hl HP; cbn [abandon_stale].
  { by apply wp_ret. }
  assert (l ⊆ tickets ∧ ticket ∈ tickets) as [Hl' Hin] by set_solver.
  assert (∀ h1 abandoned reclaimed, dropped tickets now h h1 →
    wp P (abandon_stale now l abandoned reclaimed) h1 (λ _ h', dropped tickets now h h')) as Hrest.
  { intros h1 a b H1. eapply wp_mono; [apply IH; [done|]; intros h' H'; apply HP; by etrans|intros e He; exact He|].
    intros r h' H'. by etrans. }
  assert (∀ h', reading h h' → dropped tickets now h h') as Hread.
  { intros h' Hr. by apply pruned_dropped, reading_pruned. }
  apply wp_bind. eapply wp_mono; [apply (looks_found h _ _ (looks_open_record h ticket) P); intros h' Hr; by apply HP, Hread|intros e He; exact He|].
  intros [[o|]|e] h1 (Hr1 & Ho & _); [|by apply Hrest, Hread|by apply Hread].
  destruct Ho as [Ho|?]; [|done]. unfold found_at in Ho.
  destruct (open_record_at (files h) ticket) as [o'|[]] eqn:Eo; try done. injection Ho as <-.
  apply open_record_at_spec in Eo as (path & f & Ep & Hd & Hf & Hdec & Et).
  apply wp_bind, wp_lift. rewrite Ep. apply wp_bind.
  eapply wp_mono; [apply within_size; intros h' Hr; apply HP, Hread; by etrans|intros e He; exact He|].
  intros [bytes|e] h2 Hr2; [|apply Hread; by etrans]. assert (reading h h2) as Hr02 by by etrans.
  apply wp_bind. assert (file_map (files h2) !! path = Some f) as Hf2.
  { by rewrite (file_map_faults _ _ (proj2 Hr02)). }
  assert (∀ (r : Result bool SnapshotError) h3, dropped tickets now h2 h3 → match r with
    | Ok a => wp P (if a then abandon_stale now l (S abandoned) (u64_sat_add reclaimed bytes)
        else abandon_stale now l abandoned reclaimed) h3 (λ _ h', dropped tickets now h h')
    | Err e => dropped tickets now h h3 end) as Hnext.
  { intros r h3 H3. assert (dropped tickets now h h3) by (etrans; [by apply Hread|done]).
    destruct r as [[]|e]; by try apply Hrest. }
  destruct (is_stale o now) eqn:Est; [|apply wp_ret; by apply (Hnext (Ok false))].
  eapply wp_mono; [apply (wp_remove_open P tickets now path f o)|intros e He; exact He|exact Hnext]; [done..|by rewrite Et|done|].
  intros h' H'. apply HP. etrans; [by apply Hread|done].
Qed.


(** Stale open records the plan named go, and then records it named. *)
Definition cleaned (plan : CleanupPlan) (h h' : Host) : Prop :=
  ∃ h1, dropped (cp_stale plan) (clock_ms h) h h1 ∧ safe (λ s, s ∈ cp_evicted plan) h1 h'.

Lemma wp_check_cancelled P token h :
  (∀ h', reading h h' → P h') →
  wp P (check_cancelled token) h (λ _ h', reading h h' ∧ clock_ms h' = clock_ms h).
Proof.
  intros HP. unfold check_cancelled. apply wp_bind.
  assert (wp P (is_cancelled token) h (λ r h', reading h h' ∧ clock_ms h' = clock_ms h ∧ is_ok r)) as Hc.
  { destruct token; simpl; [by apply wp_ret|]. apply wp_host. by destruct (cancels h). }
  eapply wp_mono; [exact Hc|intros e He; exact He|]. intros [[]|e] h' (Hr & Ec & Hok); [..|done].
  - by apply wp_throw.
  - by apply wp_ret.
Qed.

Lemma wp_execute_cleanup P plan token h :
  names_blobs h → (∀ h', cleaned plan h h' → P h') →
  wp P (execute_cleanup digest previous plan token) h (λ _ h', cleaned plan h h').
Proof.
  intros Hb HP. unfold execute_cleanup.
  assert (∀ h', dropped (cp_stale plan) (clock_ms h) h h' → cleaned plan h h') as Hdr.
  { intros h' Hd. exists h'. split; [done|apply safe_refl]. }
  assert (∀ h', reading h h' → dropped (cp_stale plan) (clock_ms h) h h') as Hread.
  { intros h' Hr. by apply pruned_dropped, reading_pruned. }
  apply wp_bind. eapply wp_mono; [apply wp_check_cancelled; intros h' Hr; by apply HP, Hdr, Hread|intros e He; exact He|].
  intros [[]|e] h1 [Hr1 Ec]; [|by apply Hdr, Hread].
  apply wp_bind, wp_host. simpl. rewrite Ec. apply wp_bind.
  assert (∀ h2, dropped (cp_stale plan) (clock_ms h) h1 h2 → dropped (cp_stale plan) (clock_ms h) h h2) as Hfrom.
  { intros h2 H2. etrans; [by apply Hread|done]. }
  eapply wp_mono; [apply wp_abandon_stale; [done|]; intros h' Hd; by apply HP, Hdr, Hfrom|intros e He; exact He|].
  intros [[abandoned reclaimed]|e] h2 H2; apply Hfrom in H2; [|by apply Hdr].
  assert (∀ h', pruned ∅ h2 h' → cleaned plan h h') as Hpr.
  { intros h' Hp. exists h2. split; [done|by apply pruned_safe]. }
  apply wp_bind.
  assert (wp P (if 0 <? abandoned then sync OPEN else ret tt) h2 (λ _ h', pruned ∅ h2 h')) as Hsync.
  { destruct (0 <? abandoned); [|by apply wp_ret].
    eapply wp_mono; [apply within_sync; intros h' Hr; by apply HP, Hpr, reading_pruned|intros e He; exact He|].
    intros r h' Hr. by apply reading_pruned. }
  eapply wp_mono; [exact Hsync|intros e He; exact He|]. intros [[]|e] h3 H3; [|by apply Hpr].
  apply wp_bind. eapply wp_mono; [apply wp_read_roots|intros e He; exact He|].
  { intros h' Hr. apply HP, Hpr. etrans; [exact H3|by apply reading_pruned]. }
  intros [roots|e] h4 [Hr4 Hcur]; [|apply Hpr; etrans; [exact H3|by apply reading_pruned]].
  specialize (Hcur roots eq_refl). pose proof (reading_pruned ∅ _ _ Hr4) as H4.
  pose proof (evictable_may_go roots U64_MAX) as Hgo.
  unfold evictable in Hgo. cbn [fst snd] in Hgo. set (evicted := list_to_set (filter _ (cp_evicted plan)) : gset N).
  assert (∀ h', safe (λ s, s ∈ cp_evicted plan) h3 h' → cleaned plan h h') as Hsafe.
  { intros h' Hs. exists h2. split; [done|]. by eapply safe_before. }
  apply wp_bind. eapply wp_mono; [apply (within_record_sizes ∅)|intros e He; exact He|].
  { intros h' H'. apply HP, Hsafe, pruned_safe. by etrans. }
  intros [sizes|e] h5 H5; [|apply Hsafe, pruned_safe; by etrans].
  eapply wp_mono; [apply (wp_evict_collect P roots (λ s, s ∈ cp_evicted plan) evicted _ h3 h5)|
    intros e He; exact He|intros r h' H'; by apply Hsafe].
  - done.
  - intros s Hs%elem_of_list_to_set. apply list_elem_of_filter in Hs as [Hs Hin].
    destruct (Hgo s Hs) as (_ & ? & ? & ?). done.
  - eapply names_blobs_after; [exact H3|]. by eapply names_blobs_dropped.
  - by etrans.
  - intros h' H'. by apply HP, Hsafe.
  - intros u h6 H6. apply wp_bind.
    eapply wp_mono; [apply (within_reading ∅ _ within_state)|intros e He; exact He|].
    { intros h' H'. apply HP, Hsafe. by eapply safe_after. }
    intros [st|e] h7 H7; [|by eapply safe_after]. apply wp_bind.
    assert (safe (λ s, s ∈ cp_evicted plan) h3 h7) as Hs7 by by eapply safe_after.
    eapply wp_mono; [apply (within_measure ∅)|intros e He; exact He|].
    { intros h' H'. apply HP, Hsafe. by eapply safe_after. }
    intros [st'|e] h8 H8; [apply wp_ret|]; by eapply safe_after.
Qed.
End safe.

(** C18: At every moment of a retention or a cleanup, whatever fails, every record on disk has
    the objects it names as they were, and every open record's tree reads as it did.  A
    retention lets go only records older than it was told, committed before every open record
    was opened, named by no pending revert, and noted as evicted for each of their holders
    before they go; a cleanup lets go only what its plan named, on the same terms, and only
    open records too old for their call to run.  Nothing else in the store is gone, and the
    workspace is as it was. *)
Theorem retention_keeps_what_is_named `{GL : GitLib} `{TL : TreeLib} `{JL : JsonLib} digest previous h :
  names_blobs previous h →
  (∀ st target protect_from,
     wp (safe digest (older protect_from) h) (retain digest previous st target protect_from) h
       (λ _ h', safe digest (older protect_from) h h')) ∧
  (∀ plan token,
     wp (cleaned digest plan h) (execute_cleanup digest previous plan token) h
       (λ _ h', cleaned digest plan h h')).
Proof.
  intros Hb. split; intros *; [by apply wp_retain_safe|by apply wp_execute_cleanup].
Qed.

Module ExampleRetain.
Export RevertPublish.ExampleRevert.
Import SnapshotDiff.ExampleTrees Collect.ExampleCollect.

Definition change_of (p : list N) (c : PathState) : StoredChange :=
  {| sc_path := p; before := None; after := c |}.
Definition record_of (s : N) (text : list N) : StoredRecord :=
  {| seq := s; r_ticket := TICKET_PREFIX ++ replicate 32 48%N; holders := {[ lit "task" ]}; r_client := [];
     r_changes := [change_of (lit "a") (as_file text)]; unrecorded := [] |}.

(** An open record whose call began after the first record was committed. *)
Definition ticket : list N := TICKET_PREFIX ++ replicate 32 49%N.
Definition open_after : StoredOpenRecord :=
  {| o_ticket := ticket;
     o_request := {| rq_holder := lit "task"; rq_client := []; rq_scope := Paths [lit "a"];
                     rq_limits := {| max_files := 1; max_file_bytes := 1; max_total_bytes := 1 |} |};
     o_widened := false; opened_seq := 2; opened_at_unix_ms := 0; o_before := replicate 40 48%N;
     o_blind := [] |}.

Definition with_orphan : Store :=
  stored (lit "one") (stored (lit "two") (stored (lit "orphan") (empty_store []))).
Definition file (v : FileValue) : StoreFile := {| sf_bytes := 10; sf_value := v |}.
Definition host1 : Host :=
  {| tree := tree0 [];
     files := {| file_map := {[ record_path 1 := file (VRecord (record_of 1 (lit "one")));
                                record_path 2 := file (VRecord (record_of 2 (lit "two")));
                                (OPEN, ticket ++ METADATA_SUFFIX) := file (VOpen open_after) ]};
                 temps := ∅; next_temp := 0; file_faults := [] |};
     objects := with_orphan; cancels := []; clock_ms := 0; next_random := 0 |}.
Definition full_state : StoredState := {| next_seq := 3; st_bytes := 1000; st_records := 2 |}.

Lemma host1_names_blobs : names_blobs [] host1.
Proof.
  split.
  - apply typed_bool_typed. vm_compute. reflexivity.
  - intros o Ho. destruct (proj1 (elem_of_nil o) Ho).
  - intros [d name] f r o Hd Hf Hr Ho. simpl in Hd. subst d.
    assert (o = oid_of (lit "one") ∨ o = oid_of (lit "two")) as Hcase.
    { unfold host1 in Hf. cbn [files file_map] in Hf.
      apply lookup_insert_Some in Hf as [[_ <-]|[_ Hf]];
        [|apply lookup_insert_Some in Hf as [[_ <-]|[_ Hf]];
          [|apply lookup_singleton_Some in Hf as [E _]; discriminate]].
      - left. vm_compute in Hr. injection Hr as <-. vm_compute in Ho. by apply list_elem_of_singleton in Ho.
      - right. vm_compute in Hr. injection Hr as <-. vm_compute in Ho. by apply list_elem_of_singleton in Ho. }
    intros nodes. destruct Hcase as [->| ->]; vm_compute; discriminate.
Qed.

(** The store is too full: the first record goes and is noted; the second, in the window of the
    open record, stays with its object; what nothing names goes. *)
Lemma retention_keeps_what_is_named_witness :
  let '(r, s) := retain (λ holder, holder) [] full_state 0 10 (start host1) in
  is_ok r = true ∧ let_go (λ holder, holder) (older 10) (world s) (record_of 1 (lit "one")) ∧
  ObjectStore.named (disk (objects (world s))) !! oid_of (lit "two") =
    ObjectStore.named (disk (objects host1)) !! oid_of (lit "two") ∧
  ObjectStore.named (disk (objects (world s))) !! oid_of (lit "orphan") = None.
Proof.
  assert (let '(r, s) := retain (λ holder, holder) [] full_state 0 10 (start host1) in
    is_ok r = true ∧ file_map (files (world s)) !! record_path 1 = None ∧
    file_map (files (world s)) !! record_path 2 = file_map (files host1) !! record_path 2 ∧
    ObjectStore.named (disk (objects (world s))) !! oid_of (lit "orphan") = None) as Hrun
    by (vm_compute; split_and!; reflexivity).
  assert (file_map (files host1) !! record_path 1 = Some (file (VRecord (record_of 1 (lit "one")))) ∧
    file_map (files host1) !! record_path 2 = Some (file (VRecord (record_of 2 (lit "two")))) ∧
    decode (file (VRecord (record_of 1 (lit "one")))) = Ok (record_of 1 (lit "one")) ∧
    decode (file (VRecord (record_of 2 (lit "two")))) = Ok (record_of 2 (lit "two")) ∧
    record_objects (record_of 2 (lit "two")) = [oid_of (lit "two")]) as (H1 & H2 & D1 & D2 & Ho)
    by (vm_compute; split_and!; reflexivity).
  destruct (retention_keeps_what_is_named (λ holder, holder) [] host1 host1_names_blobs) as [Hret _].
  destruct (Hret full_state 0%N 10%N (start host1) eq_refl) as [Hsafe _].
  destruct (retain _ _ _ _ _ (start host1)) as [r s]. cbn [fst snd] in Hsafe.
  destruct Hrun as (Hr & Hn & Hsame & Horphan). split; [exact Hr|]. split; [|split; [|exact Horphan]].
  - by apply (sf_gone _ _ _ _ Hsafe (record_path 1) _ _ eq_refl H1 Hn D1).
  - rewrite H2 in Hsame. apply (sf_kept _ _ _ _ Hsafe (record_path 2) _ _ _ eq_refl Hsame D2).
    rewrite Ho. by left.
Defined.
End ExampleRetain.
