(* ===== verification/RetainLeast.v ===== *)
(** * How much retention evicts

    An eviction is planned by a search over how many of the oldest records go: it takes the
    fewest that leave room for another record and bring the store within its target, or all of
    them, where that is not enough. *)

From stdpp Require Import gmap sorting.
From S2P Require Import Prelude Utf8 Effects ObjectStore SnapshotTree SnapshotDiff Collect Records.
From S2P Require Import Recording Worktree ChangeStore StoreReads Reverts RevertPublish Retention RetainSafe.

(** ** The search *)

Section search.
Context (P : Host → Prop) (I : Host → Prop) (f : nat → option bool) (fits : nat → Io bool).
Context (low high : nat).
Hypothesis answers : ∀ n h, low ≤ n < high → I h →
  wp P (fits n) h (λ r h', I h' ∧ ∀ b, r = Ok b → f n = Some b).

Lemma gallop_spec fuel failing step h :
  I h → low ≤ failing < high → high - failing ≤ fuel → 1 ≤ step → f failing = Some false →
  wp P (gallop fuel failing step high fits) h (λ r h', I h' ∧ ∀ a b, r = Ok (a, b) →
    low ≤ a < b ∧ b ≤ high ∧ f a = Some false ∧ (b = high ∨ f b = Some true)).
Proof.
  revert failing step h. induction fuel as [|fuel IH]; intros failing step h HI Hf Hfuel Hs Ha; cbn [gallop]; [lia|].
  destruct (_ =? high) eqn:E.
  - apply Nat.eqb_eq in E. rewrite E. apply wp_ret. split; [done|]. intros a b [= <- <-]. split_and!; auto; lia.
  - apply Nat.eqb_neq in E. apply wp_bind. eapply wp_mono; [apply answers; [lia|done]|done|].
    intros [[]|e] h' [HI' Hb]; [apply wp_ret|apply IH|]; rewrite ?(Hb _ eq_refl); try done; try lia.
    split; [done|]. intros a b [= <- <-]. split_and!; auto; lia.
Qed.

Lemma bisect_spec fuel failing fitting h :
  I h → low ≤ failing < fitting → fitting ≤ high → fitting - failing ≤ fuel →
  f failing = Some false → fitting = high ∨ f fitting = Some true →
  wp P (bisect fuel failing fitting fits) h (λ r h', I h' ∧ ∀ n, r = Ok n →
    low < n ≤ high ∧ (n = high ∨ f n = Some true) ∧ f (pred n) = Some false).
Proof.
  revert failing fitting h. induction fuel as [|fuel IH]; intros failing fitting h HI Hf Hh Hfuel Ha Hb;
    cbn [bisect]; [lia|].
  destruct (_ <=? 1) eqn:E.
  - apply Nat.leb_le in E. apply wp_ret. split; [done|]. intros n [= <-].
    replace fitting with (S failing) in * by lia. split_and!; auto; lia.
  - apply Nat.leb_gt in E.
    assert (0 < (fitting - failing) / 2 < fitting - failing) as Hm.
    { split; [apply Nat.div_str_pos; lia|apply Nat.div_lt; lia]. }
    apply wp_bind. eapply wp_mono; [apply answers; [lia|done]|done|].
    intros [[]|e] h' [HI' Hm']; [apply IH|apply IH|]; rewrite ?(Hm' _ eq_refl); try done; try lia; by right.
Qed.

(** The search ends with a count that fits, or the highest, and the one below does not fit. *)
Lemma smallest_fitting_least h :
  low ≤ high → I h →
  wp P (smallest_fitting low high fits) h (λ r h', I h' ∧ ∀ n, r = Ok n →
    low ≤ n ≤ high ∧ (n = high ∨ f n = Some true) ∧ (n = low ∨ f (pred n) = Some false)).
Proof.
  intros Hlow HI. unfold smallest_fitting. destruct (high <=? low) eqn:E.
  - apply Nat.leb_le in E. apply wp_ret. split; [done|]. intros n [= <-]. split_and!; [lia..|left; lia|left; lia].
  - apply Nat.leb_gt in E. apply wp_bind. eapply wp_mono; [apply answers; [lia|done]|done|].
    intros [[]|e] h1 [H1 Hb]; [| |done].
    + apply wp_ret. split; [done|]. intros n [= <-]. rewrite Nat.min_l by lia.
      split_and!; [lia..|right; by apply Hb|by left].
    + apply wp_bind. eapply wp_mono; [apply gallop_spec; [done|lia..|by apply Hb]|done|].
      intros [[a b]|e] h2 [H2 Hg]; [|done]. destruct (Hg a b eq_refl) as (Ha & Hbh & Hfa & Hfb).
      eapply wp_mono; [apply bisect_spec; [done|lia|done|lia|done|done]|done|].
      intros r h3 [H3 Hn]. split; [done|]. intros n Hr. destruct (Hn n Hr) as (? & ? & ?).
      split_and!; [lia..|done|by right].
Qed.

(** The least that fits, where what fits goes on fitting. *)
Lemma least_of (n : nat) :
  (∀ a b, a ≤ b → f a = Some true → f b ≠ Some false) →
  low ≤ n → (n = low ∨ f (pred n) = Some false) → ∀ m, low ≤ m < n → f m ≠ Some true.
Proof.
  intros Hmono Hn [->|Hp] m Hm E; [lia|]. by apply (Hmono m (pred n)); [lia|..].
Qed.
End search.

(** ** What is freed *)

Section least.
Context `{GL : GitLib} `{TL : TreeLib} `{JL : JsonLib}.
Context (previous : list ObjectId).

Definition total (l : list N) : N := foldr N.add 0%N l.

(** The sizes of the objects of some directories that are not live. *)
Definition swept_in (d : Disk) (live : gset ObjectId) (oids : list ObjectId) : N :=
  total (map (λ o, file_size (ObjectStore.named d !! o)) (filter (λ o, o ∉ live) oids)).
Definition swept (d : Disk) (live : gset ObjectId) (bytes : list N) : N :=
  total (map (λ b, swept_in d live (Collect.objects_in d b)) bytes).
Definition staged (d : Disk) : N :=
  total (map (λ t, file_size (temporaries d !! t)) (elements (dom (temporaries d)))).
Definition garbage_bytes (d : Disk) (live : gset ObjectId) : N :=
  (swept d live (elements (dom (ObjectStore.directories d))) + staged d)%N.

Definition live_after (h : Host) (roots : Roots) (evicted : gset N) : option (gset ObjectId) :=
  match collect_ok before_id (rt_open roots) with
  | Ok trees =>
      match mark_roots (objects h) trees (list_to_set (previous ++ named_by roots evicted)) with
      | Some (Ok live) => Some live
      | _ => None
      end
  | Err _ => None
  end.

Definition record_bytes (h : Host) (s : N) : N :=
  match file_map (files h) !! record_path s with Some f => sf_bytes f | None => 0%N end.

(** What evicting the tombstones and the first [n] of the others frees. *)
Definition freed (h : Host) (roots : Roots) (tombstones : gset N) (held : list N) (n : nat) : option N :=
  live ← live_after h roots (evicting tombstones held n);
  Some (u64_sat_add
    (u64_sat_add (garbage_bytes (disk (objects h)) live) (sat_sum (map (record_bytes h) (sorted_set tombstones))))
    (total (take n (map (record_bytes h) held)))).

Lemma total_app l l' : total (l ++ l') = (total l + total l')%N.
Proof. induction l as [|x l IH]; simpl; [done|]. rewrite IH. lia. Qed.
Lemma total_perm l l' : l ≡ₚ l' → total l = total l'.
Proof. induction 1; simpl; lia. Qed.

Lemma total_map_le {A} (g g' : A → N) l : (∀ a, (g a <= g' a)%N) → (total (map g l) <= total (map g' l))%N.
Proof. intros H. induction l as [|a l IH]; simpl; [done|]. specialize (H a). lia. Qed.

Lemma garbage_bytes_mono (d : Disk) (live live' : gset ObjectId) :
  live' ⊆ live → (garbage_bytes d live <= garbage_bytes d live')%N.
Proof.
  intros Hsub. unfold garbage_bytes, swept. apply N.add_le_mono_r, total_map_le. intros b. unfold swept_in.
  generalize (Collect.objects_in d b) as l. induction l as [|o l IH]; [done|]. rewrite !filter_cons.
  repeat case_decide; simpl; try lia. exfalso. set_solver.
Qed.

(** *** Sweeping *)

(** Nothing but which calls will fail has changed. *)
Definition looked (w w' : Store) : Prop := ∃ fl, w' = with_disk (with_faults fl (disk w)) w.
#[local] Instance looked_preorder : PreOrder looked.
Proof.
  split; [intros w; exists (faults (disk w)); by destruct w as [[] ?]|].
  intros w1 w2 w3 [fl1 ->] [fl2 ->]. by exists fl2.
Qed.

Lemma wp_looking {A B} (g : Disk → A) (k : A → Io_ B) w (Q : Result B StoreError → Store → Prop) :
  (∀ fl d, g (with_faults fl d) = g d) →
  (∀ e w', looked w w' → Q (Err e) w') →
  (∀ w', looked w w' → wp any (k (g (disk w))) w' Q) →
  wp any (and_then (call (λ d, (Ok (g d), d))) k) w Q.
Proof.
  intros Hg He Hk. apply wp_bind, wp_call; intros fl; (split; [done|]); simpl; [apply He; by eexists|].
  rewrite Hg. apply Hk. by eexists.
Qed.

Lemma looked_same {A} (g : Disk → A) w w' :
  (∀ fl d, g (with_faults fl d) = g d) → looked w w' → g (disk w') = g (disk w).
Proof. intros Hg [fl ->]. simpl. apply Hg. Qed.

Lemma wp_swept_in live oids plan w :
  wp any (sweep_objects live oids plan) w (λ r w', looked w w' ∧
    ∀ p, r = Ok p → total (map snd p) = (total (map snd plan) + swept_in (disk w) live oids)%N).
Proof.
  revert plan w. induction oids as [|oid oids IH]; intros plan w; cbn [sweep_objects].
  { apply wp_ret. split; [done|]. intros p [= <-]. unfold swept_in. simpl. lia. }
  unfold swept_in. rewrite filter_cons. case_bool_decide as Hl.
  - rewrite decide_False by (intros H; by apply H). apply IH.
  - rewrite decide_True by done. apply (wp_looking (λ d, file_size (ObjectStore.named d !! oid))); [done|by split|].
    intros w1 H1. eapply wp_mono; [apply IH|done|]. intros r w2 [H2 Hp]. split; [by etrans|].
    intros p Hr. rewrite (Hp p Hr), map_app, total_app. simpl.
    rewrite (looked_same (λ d, swept_in d live oids) w w1) by done. unfold swept_in. lia.
Qed.

Lemma wp_swept live bytes plan w :
  wp any (sweep_directories live bytes plan) w (λ r w', looked w w' ∧
    ∀ p, r = Ok p → total (map snd p) = (total (map snd plan) + swept (disk w) live bytes)%N).
Proof.
  revert plan w. induction bytes as [|b bytes IH]; intros plan w; cbn [sweep_directories].
  { apply wp_ret. split; [done|]. intros p [= <-]. unfold swept. simpl. lia. }
  apply (wp_looking (λ d, Collect.objects_in d b)); [done|by split|]. intros w1 H1. apply wp_bind.
  eapply wp_mono; [apply wp_swept_in|done|]. intros [plan'|e] w2 [H2 Hp2]; [|split; [by etrans|done]].
  assert (looked w w2) as H12 by (by etrans).
  eapply wp_mono; [apply IH|done|]. intros r w3 [H3 Hp3]. split; [by etrans|].
  intros p Hr. rewrite (Hp3 p Hr), (Hp2 _ eq_refl).
  rewrite (looked_same (λ d, swept d live bytes) w w2) by done.
  rewrite (looked_same (λ d, swept_in d live (Collect.objects_in (disk w) b)) w w1) by done.
  unfold swept. simpl. lia.
Qed.

Lemma wp_staged ts plan w :
  wp any (sweep_temporaries ts plan) w (λ r w', looked w w' ∧
    ∀ p, r = Ok p → total (map snd p) =
      (total (map snd plan) + total (map (λ t, file_size (temporaries (disk w) !! t)) ts))%N).
Proof.
  revert plan w. induction ts as [|t ts IH]; intros plan w; cbn [sweep_temporaries].
  { apply wp_ret. split; [done|]. intros p [= <-]. simpl. lia. }
  apply (wp_looking (λ d, file_size (temporaries d !! t))); [done|by split|].
  intros w1 H1. eapply wp_mono; [apply IH|done|]. intros r w2 [H2 Hp]. split; [by etrans|].
  intros p Hr. rewrite (Hp p Hr), map_app, total_app. simpl.
  rewrite (looked_same (λ d, total (map (λ t, file_size (temporaries d !! t)) ts)) w w1) by done. lia.
Qed.

Lemma wp_garbage_bytes roots objects w :
  wp any (garbage_keeping previous roots objects) w (λ r w', looked w w' ∧
    ∀ plan, r = Ok plan → ∃ live, mark_roots w roots (list_to_set (previous ++ objects)) = Some (Ok live) ∧
      u_bytes (plan_usage plan) = garbage_bytes (disk w) live).
Proof.
  unfold garbage_keeping. apply wp_bind, wp_handle. cbn [fst snd]. apply wp_bind, wp_lift.
  destruct (mark_roots w roots _) as [[live|e]|]; [|by split..].
  apply (wp_looking (λ d, (elements (dom (ObjectStore.directories d)), elements (dom (temporaries d))))); [done|by split|].
  intros w1 H1. cbv beta iota. apply wp_bind. eapply wp_mono; [apply wp_staged|done|].
  intros [ts|e] w2 [H2 Hts]; [|split; [by etrans|done]]. assert (looked w w2) as H12 by (by etrans).
  apply wp_bind. eapply wp_mono; [apply wp_swept|done|].
  intros [os|e] w3 [H3 Hos]; [apply wp_ret|]; (split; [by etrans|]); [|done].
  intros plan [= <-]. exists live. split; [done|]. unfold plan_usage. cbn [u_bytes g_objects g_temporaries].
  fold (total (map snd (merge_sort object_le os) ++ map snd (merge_sort temporary_le ts))). rewrite total_app.
  rewrite (total_perm (map snd (merge_sort object_le os)) (map snd os)) by by rewrite (merge_sort_Permutation object_le os).
  rewrite (total_perm (map snd (merge_sort temporary_le ts)) (map snd ts)) by by rewrite (merge_sort_Permutation temporary_le ts).
  rewrite (Hos _ eq_refl), (Hts _ eq_refl). cbn [map total foldr].
  rewrite (looked_same (λ d, swept d live (elements (dom (ObjectStore.directories (disk w))))) w w2) by done.
  rewrite (looked_same (λ d, total (map (λ t, file_size (temporaries d !! t)) (elements (dom (temporaries (disk w)))))) w w1) by done.
  done.
Qed.

(** ** Planning *)

Definition idle (h h' : Host) : Prop :=
  file_map (files h') = file_map (files h) ∧ looked (objects h) (objects h').
#[local] Instance idle_preorder : PreOrder idle.
Proof. split; [by intros h|]. intros h1 h2 h3 [E1 L1] [E2 L2]. split; [congruence|by etrans]. Qed.

Definition anywhere (h : Host) : Prop := True.

Lemma mark_tree_looked (w w' : Store) fuel pending live :
  looked w w' → mark_tree w' fuel pending live = mark_tree w fuel pending live.
Proof.
  intros [fl ->]. revert pending live. induction fuel as [|fuel IH]; intros [|t pending] live; simpl; try done.
  assert (read_tree (with_disk (with_faults fl (disk w)) w) t = read_tree w t) as -> by reflexivity.
  rewrite IH. case_bool_decide; [done|]. destruct (read_tree w t) as [nodes|[]]; try done.
  destruct (mark_nodes _ _ _). apply IH.
Qed.

Lemma mark_roots_looked (w w' : Store) roots live :
  looked w w' → mark_roots w' roots live = mark_roots w roots live.
Proof.
  intros Hl. revert live. induction roots as [|root roots IH]; intros live; simpl; [done|].
  assert (mark_snapshot w' root live = mark_snapshot w root live) as ->.
  { unfold mark_snapshot. case_bool_decide; [done|].
    assert (snapshot_parts w' root = snapshot_parts w root) as -> by (destruct Hl as [fl ->]; reflexivity).
    assert (mark_fuel w' = mark_fuel w) as -> by (destruct Hl as [fl ->]; reflexivity).
    destruct (snapshot_parts w root) as [[f m]|[]]; try done. by apply mark_tree_looked. }
  destruct (mark_snapshot w root live) as [[l|]|]; simpl; [apply IH|done|done].
Qed.

Lemma live_after_idle roots evicted h h' : idle h h' → live_after h' roots evicted = live_after h roots evicted.
Proof.
  intros [_ Hl]. unfold live_after. destruct (collect_ok _ _); [|done]. by rewrite (mark_roots_looked _ _ _ _ Hl).
Qed.

Lemma record_bytes_idle h h' s : idle h h' → record_bytes h' s = record_bytes h s.
Proof. intros [E _]. unfold record_bytes. by rewrite E. Qed.

Lemma freed_idle roots tombstones held n h h' :
  idle h h' → freed h' roots tombstones held n = freed h roots tombstones held n.
Proof.
  intros Hi. unfold freed. rewrite (live_after_idle roots _ h h' Hi).
  destruct (live_after h roots _) as [live|]; [|done]. simpl.
  rewrite !(map_ext _ _ (λ s, record_bytes_idle h h' s Hi)). destruct Hi as [_ Hl].
  by rewrite (looked_same (λ d, garbage_bytes d live) _ _ ltac:(done) Hl).
Qed.

Lemma wp_garbage_of roots evicted h :
  wp anywhere (garbage previous roots evicted) h (λ r h', idle h h' ∧ ∀ plan, r = Ok plan →
    ∃ live, live_after h roots evicted = Some live ∧ u_bytes (plan_usage plan) = garbage_bytes (disk (objects h)) live).
Proof.
  unfold garbage, live_after. apply wp_bind, wp_lift. destruct (collect_ok before_id _) as [trees|e]; [|by split].
  apply wp_bind, wp_in_objects. eapply wp_mono; [apply wp_garbage_bytes|done|]. intros r o [Ho Hp]. split; [|done].
  assert (idle h (with_objects o h)) as Hi by done.
  destruct r as [plan|e]; simpl; [apply wp_ret|apply wp_throw]; (split; [done|]); [|done].
  intros p [= <-]. destruct (Hp plan eq_refl) as (live & Hm & Hb). exists live. split; [|done].
  unfold named_by. by rewrite Hm.
Qed.

Lemma wp_record_size s h :
  wp anywhere (record_size s) h (λ r h', idle h h' ∧ ∀ n, r = Ok n → n = record_bytes h s).
Proof.
  unfold record_size, ChangeStore.size. apply wp_fcall; intros fl Hfl; (split; [|done]); (split; [done|]); [done|].
  by intros n [= <-].
Qed.

Lemma wp_record_sizes l h :
  wp anywhere (map_io record_size l) h (λ r h', idle h h' ∧ ∀ ns, r = Ok ns → ns = map (record_bytes h) l).
Proof.
  revert h. induction l as [|s l IH]; intros h; cbn [map_io]; [apply wp_ret; split; [done|by intros ? [= <-]]|].
  apply wp_bind. eapply wp_mono; [apply wp_record_size|done|]. intros [n|e] h1 [H1 Hn]; [|by split].
  apply wp_bind. eapply wp_mono; [apply IH|done|]. intros [ns|e] h2 [H2 Hns]; [|by split; [etrans|]].
  apply wp_ret. split; [by etrans|]. intros ns' [= <-]. rewrite (Hn _ eq_refl), (Hns _ eq_refl). simpl. f_equal.
  apply map_ext. intros x. by apply record_bytes_idle.
Qed.

(** Whether a count is known to bring the store within a target. *)
Definition fits_after (h : Host) (roots : Roots) (usage target : N) (tombstones : gset N) (held : list N)
    (n : nat) : option bool :=
  x ← freed h roots tombstones held n; Some (usage - x <=? target)%N.

Lemma wp_fits roots usage target tombstones held n h :
  wp anywhere (fits_target previous roots usage target (sat_sum (map (record_bytes h) (sorted_set tombstones)))
      tombstones held (map (record_bytes h) held) n) h
    (λ r h', idle h h' ∧ ∀ b, r = Ok b → fits_after h roots usage target tombstones held n = Some b).
Proof.
  unfold fits_target. apply wp_bind. eapply wp_mono; [apply wp_garbage_of|done|].
  intros [plan|e] h' [Hi Hp]; [apply wp_ret|by split]. split; [done|]. intros b [= <-].
  destruct (Hp plan eq_refl) as (live & Hl & Hb). unfold fits_after, freed. rewrite Hl. simpl.
  rewrite <- Hb. reflexivity.
Qed.

(** *** More evicted is no less freed *)

Lemma take_total_le a b l : a ≤ b → (total (take a l) <= total (take b l))%N.
Proof.
  revert a b. induction l as [|x l IH]; intros [|a] [|b] H; simpl; try lia.
  specialize (IH a b). lia.
Qed.

Lemma u64_sat_add_mono a b c d : (a <= b → c <= d → u64_sat_add a c <= u64_sat_add b d)%N.
Proof. unfold u64_sat_add. lia. Qed.

Lemma evicting_mono tombstones held a b : a ≤ b → evicting tombstones held a ⊆ evicting tombstones held b.
Proof.
  intros Hab s. unfold evicting. rewrite !elem_of_union, !elem_of_list_to_set. intros [?|Hs]; [by left|right].
  apply elem_of_take in Hs as (i & Hs & Hi). apply elem_of_take. exists i. split; [done|lia].
Qed.

Lemma named_by_mono roots (evicted evicted' : gset N) o :
  evicted ⊆ evicted' → o ∈ named_by roots evicted' → o ∈ named_by roots evicted.
Proof.
  intros Hsub. unfold named_by. rewrite !elem_of_concat. intros (l & Ho & (r & -> & Hr)%list_elem_of_fmap).
  apply list_elem_of_filter in Hr as [Hr Hin]. exists (record_objects r). split; [done|].
  apply list_elem_of_fmap_2, list_elem_of_filter. set_solver.
Qed.

Lemma reachable_marked roots evicted h live :
  names_blobs previous h → current (files h) roots → live_after h roots evicted = Some live →
  ∃ trees, collect_ok before_id (rt_open roots) = Ok trees ∧
    ∀ o, o ∈ live ↔ o ∈ previous ++ named_by roots evicted ∨ reachable (objects h) trees o.
Proof.
  intros Hb Hc. unfold live_after. destruct (collect_ok before_id _) as [trees|]; [|done].
  destruct (mark_roots _ _ _) as [[l|]|] eqn:Em; [|done..]. intros [= ->]. exists trees. split; [done|].
  destruct (marked_live (objects h) (previous ++ named_by roots evicted) trees live (nb_typed _ _ Hb)) as [H1 H2];
    [intros o Ho; by eapply named_blobs|done|]. naive_solver.
Qed.

Lemma fits_after_mono roots usage target tombstones held h a b :
  names_blobs previous h → current (files h) roots → a ≤ b →
  fits_after h roots usage target tombstones held a = Some true →
  fits_after h roots usage target tombstones held b ≠ Some false.
Proof.
  intros Hb Hc Hab. unfold fits_after, freed.
  destruct (live_after h roots (evicting tombstones held a)) as [la|] eqn:Ea; [|done].
  destruct (live_after h roots (evicting tombstones held b)) as [lb|] eqn:Eb; [|done]. simpl.
  destruct (reachable_marked _ _ _ _ Hb Hc Ea) as (ta & Hta & Ha).
  destruct (reachable_marked _ _ _ _ Hb Hc Eb) as (tb & Htb & Hlb).
  assert (tb = ta) as -> by congruence.
  assert (lb ⊆ la) as Hsub.
  { intros o. rewrite Ha, Hlb, !elem_of_app. intros [[?|Ho]|?]; [by left; left|left; right|by right].
    by eapply named_by_mono, Ho; apply evicting_mono. }
  intros [= H1%N.leb_le] [= H2%N.leb_gt].
  pose proof (garbage_bytes_mono (disk (objects h)) la lb Hsub).
  pose proof (take_total_le a b (map (record_bytes h) held) Hab).
  pose proof (u64_sat_add_mono
    (u64_sat_add (garbage_bytes (disk (objects h)) la) (sat_sum (map (record_bytes h) (sorted_set tombstones))))
    (u64_sat_add (garbage_bytes (disk (objects h)) lb) (sat_sum (map (record_bytes h) (sorted_set tombstones))))
    (total (take a (map (record_bytes h) held))) (total (take b (map (record_bytes h) held)))) as Hm.
  assert (∀ x y z, (x <= y → u64_sat_add x z <= u64_sat_add y z)%N) as Hs by (intros; by apply u64_sat_add_mono).
  specialize (Hm (Hs _ _ _ H) H0). lia.
Qed.

(** *** Room *)

(** Whether an eviction leaves room for another record. *)
Definition leaves_room (roots : Roots) (evicted : gset N) : Prop :=
  (N.of_nat (length (rt_records roots) - stdpp.base.size evicted) < MAX_STORE_RECORDS)%N.

Lemma sorted_NoDup l : StronglySorted N.lt l → NoDup l.
Proof.
  induction 1 as [|a l _ IH Ha]; constructor; [|done]. intros Hin. rewrite Forall_forall in Ha.
  apply Ha in Hin. lia.
Qed.

Lemma NoDup_map_inj {A B} (g : A → B) l a b : NoDup (map g l) → a ∈ l → b ∈ l → g a = g b → a = b.
Proof.
  induction l as [|x l IH]; simpl; [by intros _ ?%elem_of_nil|].
  intros [Hx Hn]%NoDup_cons [->|Ha]%elem_of_cons [->|Hb]%elem_of_cons E; try done.
  - destruct Hx. rewrite E. by apply list_elem_of_fmap_2.
  - destruct Hx. rewrite <- E. by apply list_elem_of_fmap_2.
  - by apply IH.
Qed.

Lemma filter_split_length {A} (P : A → Prop) `{!∀ a, Decision (P a)} l :
  length (filter P l) + length (filter (λ a, ¬ P a) l) = length l.
Proof. induction l as [|a l IH]; [done|]. rewrite !filter_cons. repeat case_decide; simpl; (done || lia). Qed.

(** The records that may go are the tombstones and the others, in order. *)
Lemma evictable_spec roots protect_from :
  StronglySorted N.lt (map seq (rt_records roots)) →
  let '(tombstones, held) := evictable roots protect_from in
  StronglySorted N.lt held ∧ (∀ s, s ∈ held → s ∉ tombstones) ∧
  stdpp.base.size tombstones + length held ≤ length (rt_records roots).
Proof.
  intros Hs. unfold evictable. set (c := filter _ (rt_records roots)).
  assert (StronglySorted N.lt (map seq c)) as Hc by by apply sorted_filter.
  split_and!; [by apply sorted_filter| |].
  - intros s (r & -> & [Hr Hin]%list_elem_of_filter)%list_elem_of_fmap.
    rewrite elem_of_list_to_set. intros (r' & E & [Hr' Hin']%list_elem_of_filter)%list_elem_of_fmap.
    by assert (r = r') as -> by (by apply (NoDup_map_inj seq c); [apply sorted_NoDup|..]).
  - rewrite size_list_to_set by by apply sorted_NoDup, sorted_filter. rewrite !length_map.
    rewrite (filter_split_length (λ r, holders r = ∅) c). apply length_filter.
Qed.

Lemma evicting_size (tombstones : gset N) held n :
  StronglySorted N.lt held → (∀ s, s ∈ held → s ∉ tombstones) → n ≤ length held →
  stdpp.base.size (evicting tombstones held n) = stdpp.base.size tombstones + n.
Proof.
  intros Hs Hd Hn. unfold evicting. rewrite size_union.
  - assert (NoDup (take n held)) as Hnd.
    { pose proof (sorted_NoDup held Hs) as H. rewrite <- (take_drop n held) in H. by apply NoDup_app in H as [? _]. }
    by rewrite size_list_to_set, length_take_le.
  - intros s Ht Hin%elem_of_list_to_set. apply elem_of_take in Hin as (i & Hi & _).
    by apply list_elem_of_lookup_2, Hd in Hi.
Qed.

Lemma fewest_spec roots tombstones held m :
  StronglySorted N.lt held → (∀ s, s ∈ held → s ∉ tombstones) → m ≤ length held →
  fewest roots tombstones held ≤ m ↔ m = length held ∨ leaves_room roots (evicting tombstones held m).
Proof.
  intros Hs Hd Hm. unfold fewest, leaves_room. rewrite evicting_size by done. 
  unfold MAX_STORE_RECORDS. lia.
Qed.

(** C24: The plan of an eviction takes every tombstone that may go and the oldest of the other
    records that may, as few as leave room for another record and bring what the store
    occupies, less what they and the objects only they named occupy, within the target; or
    all that may go, where that is not enough.  Nothing is changed by planning. *)
Theorem eviction_takes_fewest roots usage target protect_from h :
  names_blobs previous h → current (files h) roots →
  let '(tombstones, held) := evictable roots protect_from in
  let enough n := leaves_room roots (evicting tombstones held n) ∧
    ∃ x, freed h roots tombstones held n = Some x ∧ (usage - x <= target)%N in
  let '(r, s) := plan_eviction previous roots usage target protect_from (start h) in
  idle h (world s) ∧ ∀ evicted, r = Ok evicted → ∃ n, n ≤ length held ∧ evicted = evicting tombstones held n ∧
    (∀ a b, a ∈ take n held → b ∈ drop n held → (a < b)%N) ∧
    (n = length held ∨ enough n) ∧ ∀ m, m < n → ¬ enough m.
Proof.
  intros Hb Hc. pose proof (evictable_spec roots protect_from (records_sorted _ _ (cu_records _ _ Hc))) as Hev.
  destruct (evictable roots protect_from) as [tombstones held] eqn:Ee. destruct Hev as (Hs & Hd & _). cbv zeta.
  set (low := fewest roots tombstones held). set (f := fits_after h roots usage target tombstones held).
  assert (wp anywhere (plan_eviction previous roots usage target protect_from) h (λ r h', idle h h' ∧
    ∀ evicted, r = Ok evicted → ∃ n, evicted = evicting tombstones held n ∧ low ≤ n ≤ length held ∧
      (n = length held ∨ f n = Some true) ∧ (n = low ∨ f (pred n) = Some false))) as Hwp.
  { unfold plan_eviction. rewrite Ee. apply wp_bind. eapply wp_mono; [apply wp_record_sizes|done|].
    intros [sizes|e] h1 [H1 Hsz]; [|by split]. rewrite (Hsz _ eq_refl).
    apply wp_bind. eapply wp_mono; [apply wp_record_sizes|done|].
    intros [ts|e] h2 [H2 Hts]; [|by split; [etrans|]]. rewrite (Hts _ eq_refl).
    rewrite (map_ext _ _ (λ s, record_bytes_idle h h1 s H1)). apply wp_bind.
    eapply wp_mono; [apply (smallest_fitting_least anywhere (idle h) f)|done|].
    - intros n h' Hn Hi. pose proof (wp_fits roots usage target tombstones held n h') as Hf.
      rewrite !(map_ext _ _ (λ s, record_bytes_idle h h' s Hi)) in Hf. 
      eapply wp_mono; [exact Hf|done|]. intros r h'' [Hi' Hr]. split; [by etrans|]. intros b E. rewrite <- (Hr b E).
      unfold f, fits_after. by rewrite (freed_idle _ _ _ _ h h').
    - unfold low, fewest. lia.
    - by etrans.
    - intros [n|e] h3 [H3 Hn]; [apply wp_ret|by split]. split; [done|]. intros evicted [= <-]. exists n.
      split; [done|]. by apply Hn. }
  destruct (Hwp (start h) eq_refl) as [[Hi Hr] _]. destruct (plan_eviction _ _ _ _ _ _) as [r s]. split; [exact Hi|].
  intros evicted ->. destruct (Hr evicted eq_refl) as (n & -> & [Hl Hh] & Hfit & Hpred). exists n.
  assert (∀ m, f m = Some true ↔ ∃ x, freed h roots tombstones held m = Some x ∧ (usage - x <= target)%N) as Hf.
  { intros m. unfold f, fits_after. destruct (freed h roots tombstones held m) as [x|]; simpl.
    - split; [intros [= H%N.leb_le]; by exists x|intros (y & [= <-] & H%N.leb_le); by rewrite H].
    - split; [done|by intros (x & ? & _)]. }
  split_and!; [done|done| | |].
  - intros a b Ha Hb'. rewrite <- (take_drop n held) in Hs. by apply (StronglySorted_app_1_elem_of N.lt _ _ a b) in Hs.
  - destruct Hfit as [?|Hfit%Hf]; [by left|].
    apply (fewest_spec roots tombstones held n) in Hl as [?|?]; [by left|by right|done..].
  - intros m Hm [Hroom Hx%Hf]. refine (least_of f low n _ Hl Hpred m _ Hx).
    + intros a b. by apply fits_after_mono.
    + split; [|done]. apply fewest_spec; [done|done|lia|by right].
Qed.

Lemma names_blobs_fewer (h : Host) fs :
  names_blobs previous h →
  (∀ p f, p.1 = RECORDS → file_map fs !! p = Some f → file_map (files h) !! p = Some f) →
  names_blobs previous (with_files fs h).
Proof. intros [H1 H2 H3] Hf. split; simpl; [done|done|]. intros p f r o Hp Hpf. by apply (H3 p f r o Hp), Hf. Qed.
End least.

(** ** An example *)

Module ExampleLeast.
Import SnapshotDiff.ExampleTrees Collect.ExampleCollect RetainSafe.ExampleRetain.

(** Two records, none in the window of an open record. *)
Definition host2 : Host :=
  with_files {| file_map := delete (OPEN, ticket ++ METADATA_SUFFIX) (file_map (files host1));
                temps := ∅; next_temp := 0; file_faults := [] |} host1.
Definition roots2 : Roots :=
  {| rt_open := []; rt_records := [record_of 1 (lit "one"); record_of 2 (lit "two")]; rt_reverted := ∅ |}.

Lemma host2_current : current (files host2) roots2.
Proof.
  split; [vm_compute; reflexivity|vm_compute; reflexivity|].
  exists []. split; [vm_compute; reflexivity|]. vm_compute. reflexivity.
Qed.

Lemma host2_names_blobs : names_blobs [] host2.
Proof.
  apply (names_blobs_fewer [] host1 _ host1_names_blobs). intros p f _ Hf. cbn [file_map] in Hf.
  by apply lookup_delete_Some in Hf as [_ Hf].
Qed.

(** One record has to go, the older, with its object and the one that nothing names. *)
Lemma eviction_takes_fewest_witness :
  map (freed [] host2 roots2 ∅ [1%N; 2%N]) [0; 1; 2] = [Some 7%N; Some 21%N; Some 35%N] ∧
  (plan_eviction [] roots2 40 20 10 (start host2)).1 = Ok ({[1%N]} : gset N) ∧
  ∃ n, n ≤ 2 ∧ ({[1%N]} : gset N) = evicting ∅ [1%N; 2%N] n ∧
    ∀ m, m < n → ¬ (leaves_room roots2 (evicting ∅ [1%N; 2%N] m) ∧
      ∃ x, freed [] host2 roots2 ∅ [1%N; 2%N] m = Some x ∧ (40 - x <= 20)%N).
Proof.
  split; [vm_compute; reflexivity|].
  assert ((plan_eviction [] roots2 40 20 10 (start host2)).1 = Ok ({[1%N]} : gset N)) as Hrun
    by (vm_compute; reflexivity).
  split; [exact Hrun|].
  pose proof (eviction_takes_fewest [] roots2 40%N 20%N 10%N host2 host2_names_blobs host2_current) as H.
  assert (evictable roots2 10 = (∅, [1%N; 2%N])) as Ev by (vm_compute; reflexivity).
  rewrite Ev in H. cbv zeta in H. destruct (plan_eviction [] roots2 40 20 10 (start host2)) as [r s].
  cbn [fst] in Hrun. destruct H as [_ H]. destruct (H _ Hrun) as (n & Hn & He & _ & _ & Hm).
  exists n. split; [exact Hn|]. split; [exact He|exact Hm].
Defined.
End ExampleLeast.
