(* ===== verification/HostContract.v ===== *)
(** * The host contract's operations

    [workcell-host-contract/src/lib.rs]: the values a remote host exchanges about operations
    and watches, the checks a peer makes of them, and what they occupy in memory.  Types of
    Rust are measured by the compiler and capacities chosen by the allocator, so [Memory] is
    an argument.  Fields that hold the contract's only version are left out. *)

From stdpp Require Import gmap.
From S2P Require Import Prelude.
From S2P Require Records.

(** ** Limits *)

Definition MAX_ID_BYTES : nat := 128.
Definition MAX_CURSOR_BYTES : nat := 128.
Definition MAX_PROGRESS_CHUNK_BYTES : nat := 16384.
Definition MAX_RESOURCE_INTENTS : nat := 128.
Definition MAX_RESOURCE_SCOPE_DEPTH : nat := 128.
Definition MAX_PROGRESS_EVENTS : nat := 256.
Definition MAX_WATCH_SUBSCRIPTIONS : nat := 8.
Definition MAX_WATCH_RETAINED_EVENTS : nat := 256.
Definition MAX_WATCH_LIFETIME_EVENTS : N := 4096.
Definition MAX_WATCH_RETAINED_BYTES : N := 512 * 1024.
Definition MAX_WATCH_POLL_EVENTS : N := 128.
Definition MAX_WATCH_POLL_BYTES : N := 256 * 1024.
Definition MAX_WATCH_WAIT_MS : N := 1000.
Definition WATCH_SUBSCRIPTION_TTL_MS : N := 120000.

(** ** Text *)

Definition Identifier_new (value : str) : Result str string :=
  (let? _ := Records.validate_opaque_string value MAX_ID_BYTES in Ok value)%W.
Definition Cursor_new (value : str) : Result str string :=
  (let? _ := Records.validate_opaque_string value MAX_CURSOR_BYTES in Ok value)%W.
Definition ProgressChunkText_new (value : str) : Result str string :=
  (let? _ := Records.validate_text value MAX_PROGRESS_CHUNK_BYTES true true in Ok value)%W.

(** ** Bindings *)

Record HostBinding := {
  server_id : str; instance_id : str; workspace_id : str; workspace_generation : str;
  root_project_id : str; principal_id : str; cwd_handle : str; catalog_revision : str;
  policy_revision : str;
}.
#[export] Instance HostBinding_eq_dec : EqDecision HostBinding.
Proof. solve_decision. Defined.

Record ContractBinding := { contract_id : str; version : str; result_version : str }.
Record OperationBinding := { host : HostBinding; contract : ContractBinding; argument_digest : str }.
Record WorkspaceRequestBinding := { w_host : HostBinding; w_cwd_handle : str }.
#[export] Instance WorkspaceRequestBinding_eq_dec : EqDecision WorkspaceRequestBinding.
Proof. solve_decision. Defined.

(** ** Intents *)

Inductive OperationKind := Inspect | Read | Search | Mutate | Execute | Transfer.
Inductive ResourceAccess :=
| AccessInspect | AccessRead | AccessSearch | AccessTraverse | AccessWrite | AccessReadWrite
| AccessDelete | AccessExecute | AccessConnect.
Record ResourceIntent := {
  resource_id : str; scope : list str; display : str; access : ResourceAccess; revision : option str;
}.
Record OperationIntent := { i_kind : OperationKind; mutating : bool; resources : list ResourceIntent }.

Definition resource_intent_valid (r : ResourceIntent) : bool :=
  negb (bool_decide (scope r = []) || (MAX_RESOURCE_SCOPE_DEPTH <? length (scope r)) ||
        negb (bool_decide (last (scope r) = Some (resource_id r))) ||
        negb (size (list_to_set (scope r) : gset str) =? length (scope r))).

Definition operation_intent_valid (i : OperationIntent) : bool :=
  forallb resource_intent_valid (resources i) && (length (resources i) <=? MAX_RESOURCE_INTENTS).

(** ** Outcomes *)

(** A value of [serde_json]. *)
Inductive Value :=
| VNull | VBool (b : bool) | VNumber (text : str) | VString (text : str)
| VArray (values : list Value) | VObject (members : list (str * Value)).

Record ToolResultEnvelope := {
  content : list str; structured_content : option Value; is_error : bool;
}.
Record OperationError := { code : str; message : str }.
Inductive OutcomeKind := OutcomeCompleted | OutcomeFailed | OutcomeCancelled.
Record StructuredOutcome := {
  kind : OutcomeKind; side_effects_possible : bool;
  result : option ToolResultEnvelope; error : option OperationError;
}.

(** ** Status *)

Inductive OperationState :=
| NeverSeen | Prepared | Running | Completed | Failed | Cancelled | Forgotten | Indeterminate.
#[export] Instance OperationState_eq_dec : EqDecision OperationState.
Proof. solve_decision. Defined.

Record ProgressEvent := { execution_id : str; sequence : N; p_kind : str; chunk : str }.
Record ProgressMetadata := {
  first_retained_sequence : option N; next_sequence : N; gap_before_first : bool;
}.
Record StatusResponse := {
  state : OperationState; s_preparation_id : str; s_invocation_id : option str;
  s_execution_id : option str; s_expires_at_unix_ms : option N; s_binding : option OperationBinding;
  s_outcome : option StructuredOutcome; tombstones_evicted_through_unix_ms : option N;
  progress_metadata : ProgressMetadata; progress : list ProgressEvent;
}.

(** [windows(2)] of a list. *)
Fixpoint windows {A} (test : A → A → bool) (l : list A) : bool :=
  match l with
  | x :: ((y :: _) as l') => test x y && windows test l'
  | _ => true
  end.

Definition is_some_and {A} (f : A → bool) (o : option A) : bool :=
  match o with Some a => f a | None => false end.
Definition is_none_or {A} (f : A → bool) (o : option A) : bool :=
  match o with Some a => f a | None => true end.

(** [StatusResponse::validate]. *)
Definition status_valid (r : StatusResponse) : bool :=
  let metadata := progress_metadata r in
  let complete :=
    match first_retained_sequence metadata with
    | None => (next_sequence metadata =? 1)%N
    | Some first => (first =? 1)%N
    end &&
    windows (fun e e' => (u64_sat_add (sequence e) 1 =? sequence e')%N) (progress r) in
  (length (progress r) <=? MAX_PROGRESS_EVENTS) &&
  negb ((next_sequence metadata =? 0)%N ||
        is_some_and (fun first => (first =? 0)%N || (next_sequence metadata <=? first)%N)
          (first_retained_sequence metadata) ||
        is_some_and (fun e => is_none_or (fun first => (sequence e <? first)%N)
          (first_retained_sequence metadata)) (head (progress r)) ||
        negb (windows (fun e e' => (sequence e <? sequence e')%N) (progress r))) &&
  negb (is_some_and (fun e => (next_sequence metadata <=? sequence e)%N) (last (progress r))) &&
  (complete || gap_before_first metadata).

(** ** Requests and responses of operations *)

Record ExecuteRequest := { x_preparation_id : str; x_invocation_id : str; x_host : HostBinding }.
Record CancelRequest := { c_preparation_id : str; c_invocation_id : str; c_host : HostBinding }.
Record CancelResponse := { c_state : OperationState; cancellation_requested : bool }.
Record ReleaseResponse := {
  r_state : OperationState; released : bool; r_evicted_through_unix_ms : option N;
}.
Record PrepareResponse := {
  pr_preparation_id : str; pr_expires_at_unix_ms : N; pr_binding : OperationBinding;
  pr_intent : OperationIntent;
}.
Record OperationSelector := {
  sel_preparation_id : str; sel_invocation_id : option str; sel_host : HostBinding;
}.
Record StatusRequest := { after_sequence : option N; selector : OperationSelector }.

(** ** Watches *)

Inductive WatchState := Current | FullResync.
Inductive WatchResyncReason :=
| CursorInvalid | InstanceChanged | Overflow | BackendError | RetentionLost | SubscriptionExpired
| SubscriptionClosed.
Inductive WatchEventKind := Create | Modify | Remove | Rescan.
Record WatchEvent := { w_sequence : N; w_kind : WatchEventKind; w_path : str }.
Record WatchOpenRequest := { wo_binding : WorkspaceRequestBinding }.
Record WatchOpenResponse := {
  wo_subscription_id : str; wo_state : WatchState; wo_cursor : str; wo_expires_at_unix_ms : N;
}.
Record WatchPollRequest := {
  wp_binding : WorkspaceRequestBinding; wp_subscription_id : str; wp_cursor : str;
  max_events : N; max_bytes : N; wait_ms : N;
}.
Record WatchPollResponse := {
  subscription_id : str; watch_state : WatchState; resync_reason : option WatchResyncReason;
  w_first_retained_sequence : option N; w_next_sequence : N; events : list WatchEvent;
  next_cursor : option str; w_expires_at_unix_ms : option N;
}.
Record WatchCloseRequest := { wc_binding : WorkspaceRequestBinding; wc_subscription_id : str }.
Record WatchCloseResponse := { wc_response_id : str; closed : bool }.

(** [WatchPollRequest::validate]. *)
Definition poll_request_valid (r : WatchPollRequest) : bool :=
  negb ((max_events r =? 0)%N || (MAX_WATCH_POLL_EVENTS <? max_events r)%N) &&
  negb ((max_bytes r =? 0)%N || (MAX_WATCH_POLL_BYTES <? max_bytes r)%N) &&
  negb (MAX_WATCH_WAIT_MS <? wait_ms r)%N.

(** [WatchPollResponse::validate]. *)
Definition poll_response_valid (r : WatchPollResponse) : bool :=
  (N.of_nat (length (events r)) <=? MAX_WATCH_POLL_EVENTS)%N &&
  negb (negb (windows (fun e e' => (w_sequence e <? w_sequence e')%N) (events r)) ||
        is_some_and (fun e => (w_next_sequence r <=? w_sequence e)%N) (last (events r))) &&
  match watch_state r, resync_reason r, next_cursor r, w_expires_at_unix_ms r, events r with
  | Current, None, Some _, Some _, _ => true
  | FullResync, Some _, None, None, [] => true
  | _, _, _, _, _ => false
  end.

(** ** What values occupy *)

(** The Rust types whose size the contract and the ledger count. *)
Inductive Layout :=
| SizeText | SizeToolResultContent | SizeToolResultEnvelope | SizeStructuredOutcome
| SizeOperationError | SizeValue | SizeMember | SizeProgressEvent | SizeOperationBinding
| SizeRecord | SizeEntry | SizeTombstone | SizeReservation | SizeExecutionLease.

Class Memory := {
  size_of : Layout → N;
  (** The capacity of a string and of a vector that hold this much. *)
  string_capacity : str → N;
  vec_capacity : nat → N;
  (** The capacity of a hash table and of a deque after an insertion, and of a table after it
      is shrunk, given the capacity it had and its length. *)
  table_grown : N → nat → N;
  table_shrunk : N → nat → N;
  deque_grown : N → nat → N;
  (** The bytes of a value as [serde_json] writes it, where it can. *)
  encoded_progress : ProgressEvent → option N;
  encoded_watch : WatchEvent → option N;
}.

Definition sat_mul (a b : N) : N := N.min (a * b) USIZE_MAX.
Definition sat_total (l : list N) : N := foldl u64_sat_add 0%N l.

Section sizes.
Context `{ME : Memory}.

(** [retained_bytes] of an identifier, a revision, a handle or a bounded text. *)
Definition text_bytes (s : str) : N := u64_sat_add (size_of SizeText) (string_capacity s).
Definition option_bytes {A} (f : A → N) (o : option A) : N := match o with Some a => f a | None => 0%N end.

Fixpoint retained_json_bytes (v : Value) : N :=
  match v with
  | VNull | VBool _ | VNumber _ => size_of SizeValue
  | VString text => u64_sat_add (size_of SizeValue) (string_capacity text)
  | VArray values =>
      u64_sat_add
        (u64_sat_add (size_of SizeValue) (sat_mul (vec_capacity (length values)) (size_of SizeValue)))
        (sat_total (map retained_json_bytes values))
  | VObject members =>
      u64_sat_add
        (u64_sat_add (size_of SizeValue)
           (sat_mul (N.of_nat (length members)) (sat_mul (size_of SizeMember) 2)))
        (sat_total (map (fun '(key, value) => u64_sat_add (string_capacity key) (retained_json_bytes value))
           members))
  end.

Definition envelope_bytes (e : ToolResultEnvelope) : N :=
  u64_sat_add
    (u64_sat_add
       (u64_sat_add (size_of SizeToolResultEnvelope)
          (sat_mul (vec_capacity (length (content e))) (size_of SizeToolResultContent)))
       (sat_total (map text_bytes (content e))))
    (option_bytes retained_json_bytes (structured_content e)).

Definition outcome_bytes (o : StructuredOutcome) : N :=
  u64_sat_add
    (u64_sat_add (size_of SizeStructuredOutcome) (option_bytes envelope_bytes (result o)))
    (option_bytes (fun e =>
       u64_sat_add (u64_sat_add (size_of SizeOperationError) (text_bytes (code e))) (text_bytes (message e)))
       (error o)).

Definition progress_event_bytes (e : ProgressEvent) : N :=
  u64_sat_add
    (u64_sat_add (u64_sat_add (size_of SizeProgressEvent) (text_bytes (execution_id e)))
       (text_bytes (p_kind e)))
    (text_bytes (chunk e)).

Definition operation_binding_bytes (b : OperationBinding) : N :=
  foldl u64_sat_add (size_of SizeOperationBinding)
    (map text_bytes
       [server_id (host b); instance_id (host b); workspace_id (host b); workspace_generation (host b);
        root_project_id (host b); principal_id (host b); cwd_handle (host b); catalog_revision (host b);
        policy_revision (host b); contract_id (contract b); version (contract b);
        result_version (contract b); argument_digest b]).
End sizes.

(** ** Lemmas *)

Lemma windows_cons {A} (test : A → A → bool) x y l :
  windows test (x :: y :: l) = test x y && windows test (y :: l).
Proof. done. Qed.

Lemma windows_tail {A} (test : A → A → bool) x l : windows test (x :: l) = true → windows test l = true.
Proof. destruct l; [done|]. rewrite windows_cons. by intros [_ ?]%andb_prop. Qed.

Lemma windows_snoc {A} (test : A → A → bool) l x :
  windows test l = true → (∀ y, last l = Some y → test y x = true) → windows test (l ++ [x]) = true.
Proof.
  induction l as [|y l IH]; intros Hw Hl; [done|].
  destruct l as [|z l]; [simpl; by rewrite Hl|].
  simpl in *. apply andb_prop in Hw as [-> Hw]. simpl. apply IH; [done|]. intros t Ht. by apply Hl.
Qed.

Lemma windows_suffix {A} (test : A → A → bool) l l' : windows test (l ++ l') = true → windows test l' = true.
Proof. induction l as [|x l IH]; [done|]. intros H%windows_tail. by apply IH. Qed.

Lemma windows_impl {A} (p q : A → A → bool) l :
  (∀ x y, p x y = true → q x y = true) → windows p l = true → windows q l = true.
Proof.
  intros Hpq. induction l as [|x l IH]; [done|]. destruct l as [|y l]; [done|].
  rewrite !windows_cons. intros [H1 H2]%andb_prop. rewrite Hpq by done. by apply IH.
Qed.
