(* ===== verification/Ledger.v ===== *)
(** * The operation ledger of a remote host

    [src/remote_host.rs]: preparations that wait to be executed, executions and their
    outcomes, the tombstones of what was forgotten, and the bytes all of it occupies.  An
    operation of the ledger takes what the host told it, an [Env], and returns its answer and
    the ledger.  The operations that are prepared are those of the tool groups, an argument. *)

From stdpp Require Import gmap sorting.
From S2P Require Import Prelude HostContract.

(** ** Limits.  Instants are in nanoseconds. *)

Definition SECOND : N := 1000000000.
Definition PREPARATION_TTL : N := 120 * SECOND.
Definition RETENTION_TTL : N := 600 * SECOND.
Definition MAX_PREPARATIONS : N := 64.
Definition MAX_OPERATIONS : N := 128.
Definition MAX_LEDGER_BYTES : N := 32 * 1024 * 1024.
Definition MAX_PREPARED_OPERATION_BYTES : N := MAX_LEDGER_BYTES - 2 * 1024 * 1024.
Definition MAX_PROGRESS_BYTES : N := 64 * 1024.
Definition MAX_TOMBSTONES : nat := 256.
Definition HASH_TABLE_GROWTH_ALLOWANCE : N := 256 * 1024.

Inductive RemoteOperationError :=
| BindingMismatch | InstanceMismatch | ContractMismatch | InvocationMismatch | NotFound
| EForgotten | Expired | ERunning | ECancelled | QuotaExceeded | ResourceLimit | InvalidRequest
| Internal.
#[export] Instance RemoteOperationError_eq_dec : EqDecision RemoteOperationError.
Proof. solve_decision. Defined.

(** ** Data *)

(** A cancellation token is known by a number. *)
Definition Token := N.

Record OpRecord {Op : Type} := {
  o_preparation_id : str; operation : option Op; prepared_bytes : N; binding : OperationBinding;
  created_at : N; expires_at : N; expires_at_unix_ms : N; invocation_id : option str;
  o_execution_id : option str; o_state : OperationState; cancellation : option Token;
  outcome : option StructuredOutcome; terminal_at : option N; o_progress : list ProgressEvent;
  progress_capacity : N; next_progress_sequence : N; progress_gap : bool;
}.
Arguments OpRecord : clear implicits.

Record Tombstone := {
  t_preparation_id : str; t_invocation_id : option str; t_state : OperationState;
  t_progress_metadata : ProgressMetadata; forgotten_at : N; forgotten_at_unix_ms : N;
}.

Record Ledger {Op : Type} := {
  records : gmap str (OpRecord Op); table_capacity : N;
  tombstones : list Tombstone; tombstones_capacity : N;
  bytes : N; reserved_bytes : N; running_bytes : N; reservations : N;
  evicted_through_unix_ms : option N;
}.
Arguments Ledger : clear implicits.

Record ExecutionLease := { l_bytes : N; l_preparation_id : str; l_invocation_id : str }.

Inductive BeginExecution {Op : Type} :=
| Start (operation : Op) (cancellation : Token) (lease : ExecutionLease)
| BeginRunning (status : StatusResponse)
| BeginTerminal (status : StatusResponse).
Arguments BeginExecution : clear implicits.

(** What an operation of the ledger reads of the host: the instant, and the one a second
    reading gives; the wall clock, also as each record is forgotten; and the order in which the
    table of records lists its entries. *)
Record Env {Op : Type} := {
  now : N; later : N; unix_ms : N; wall : str → N;
  iteration : list (str * OpRecord Op) → list (str * OpRecord Op);
  iteration_perm : ∀ l, iteration l ≡ₚ l;
}.
Arguments Env : clear implicits.

(** ** Updates *)

Section updates.
Context {Op : Type}.

Definition empty_ledger : Ledger Op :=
  {| records := ∅; table_capacity := 0; tombstones := []; tombstones_capacity := 0; bytes := 0;
     reserved_bytes := 0; running_bytes := 0; reservations := 0; evicted_through_unix_ms := None |}.

Definition with_records (m : gmap str (OpRecord Op)) (c : N) (l : Ledger Op) : Ledger Op :=
  {| records := m; table_capacity := c; tombstones := tombstones l;
     tombstones_capacity := tombstones_capacity l; bytes := bytes l; reserved_bytes := reserved_bytes l;
     running_bytes := running_bytes l; reservations := reservations l;
     evicted_through_unix_ms := evicted_through_unix_ms l |}.
Definition with_tombstones (ts : list Tombstone) (c : N) (l : Ledger Op) : Ledger Op :=
  {| records := records l; table_capacity := table_capacity l; tombstones := ts;
     tombstones_capacity := c; bytes := bytes l; reserved_bytes := reserved_bytes l;
     running_bytes := running_bytes l; reservations := reservations l;
     evicted_through_unix_ms := evicted_through_unix_ms l |}.
Definition with_bytes (b : N) (l : Ledger Op) : Ledger Op :=
  {| records := records l; table_capacity := table_capacity l; tombstones := tombstones l;
     tombstones_capacity := tombstones_capacity l; bytes := b; reserved_bytes := reserved_bytes l;
     running_bytes := running_bytes l; reservations := reservations l;
     evicted_through_unix_ms := evicted_through_unix_ms l |}.
Definition with_reserved (b n : N) (l : Ledger Op) : Ledger Op :=
  {| records := records l; table_capacity := table_capacity l; tombstones := tombstones l;
     tombstones_capacity := tombstones_capacity l; bytes := bytes l; reserved_bytes := b;
     running_bytes := running_bytes l; reservations := n;
     evicted_through_unix_ms := evicted_through_unix_ms l |}.
Definition with_running (b : N) (l : Ledger Op) : Ledger Op :=
  {| records := records l; table_capacity := table_capacity l; tombstones := tombstones l;
     tombstones_capacity := tombstones_capacity l; bytes := bytes l; reserved_bytes := reserved_bytes l;
     running_bytes := b; reservations := reservations l;
     evicted_through_unix_ms := evicted_through_unix_ms l |}.
Definition with_evicted_through (e : option N) (l : Ledger Op) : Ledger Op :=
  {| records := records l; table_capacity := table_capacity l; tombstones := tombstones l;
     tombstones_capacity := tombstones_capacity l; bytes := bytes l; reserved_bytes := reserved_bytes l;
     running_bytes := running_bytes l; reservations := reservations l; evicted_through_unix_ms := e |}.

(** A record whose operation was taken and given to an execution. *)
Definition started (iid : str) (token : Token) (r : OpRecord Op) : OpRecord Op :=
  {| o_preparation_id := o_preparation_id r; operation := None; prepared_bytes := prepared_bytes r;
     binding := binding r; created_at := created_at r; expires_at := expires_at r;
     expires_at_unix_ms := expires_at_unix_ms r; invocation_id := Some iid; o_execution_id := Some iid;
     o_state := Running; cancellation := Some token; outcome := outcome r; terminal_at := terminal_at r;
     o_progress := o_progress r; progress_capacity := progress_capacity r;
     next_progress_sequence := next_progress_sequence r; progress_gap := progress_gap r |}.

(** A record whose execution ended at an instant. *)
Definition ended (s : OperationState) (o : option StructuredOutcome) (at_ : N) (r : OpRecord Op) : OpRecord Op :=
  {| o_preparation_id := o_preparation_id r; operation := operation r; prepared_bytes := prepared_bytes r;
     binding := binding r; created_at := created_at r; expires_at := expires_at r;
     expires_at_unix_ms := expires_at_unix_ms r; invocation_id := invocation_id r;
     o_execution_id := o_execution_id r; o_state := s; cancellation := None; outcome := o;
     terminal_at := Some at_; o_progress := o_progress r; progress_capacity := progress_capacity r;
     next_progress_sequence := next_progress_sequence r; progress_gap := progress_gap r |}.

(** A record that lost its outcome. *)
Definition bare (r : OpRecord Op) : OpRecord Op :=
  {| o_preparation_id := o_preparation_id r; operation := operation r; prepared_bytes := prepared_bytes r;
     binding := binding r; created_at := created_at r; expires_at := expires_at r;
     expires_at_unix_ms := expires_at_unix_ms r; invocation_id := invocation_id r;
     o_execution_id := o_execution_id r; o_state := Indeterminate; cancellation := cancellation r;
     outcome := None; terminal_at := terminal_at r; o_progress := o_progress r;
     progress_capacity := progress_capacity r; next_progress_sequence := next_progress_sequence r;
     progress_gap := progress_gap r |}.

Definition with_progress (p : list ProgressEvent) (c next : N) (gap : bool) (r : OpRecord Op) : OpRecord Op :=
  {| o_preparation_id := o_preparation_id r; operation := operation r; prepared_bytes := prepared_bytes r;
     binding := binding r; created_at := created_at r; expires_at := expires_at r;
     expires_at_unix_ms := expires_at_unix_ms r; invocation_id := invocation_id r;
     o_execution_id := o_execution_id r; o_state := o_state r; cancellation := cancellation r;
     outcome := outcome r; terminal_at := terminal_at r; o_progress := p; progress_capacity := c;
     next_progress_sequence := next; progress_gap := gap |}.
End updates.

(** [Iterator::min_by_key]: the first of the smallest. *)
Definition min_by {A} (lt : A → A → bool) (l : list A) : option A :=
  match l with
  | [] => None
  | x :: l' => Some (foldl (fun best y => if lt y best then y else best) x l')
  end.

Definition option_lt (a b : option N) : bool :=
  match a, b with
  | None, Some _ => true
  | Some a, Some b => (a <? b)%N
  | _, None => false
  end.

Definition unknown_status (s : OperationState) (pid : str) (iid : option str) : StatusResponse :=
  {| state := s; s_preparation_id := pid; s_invocation_id := iid; s_execution_id := None;
     s_expires_at_unix_ms := None; s_binding := None; s_outcome := None;
     tombstones_evicted_through_unix_ms := None;
     progress_metadata :=
       {| first_retained_sequence := None; next_sequence := 1; gap_before_first := false |};
     progress := [] |}.

(** ** Records and tombstones *)

Section record.
Context `{ME : Memory} {Op : Type}.

Definition is_terminal (r : OpRecord Op) : bool :=
  match o_state r with Completed | Failed | Cancelled | Indeterminate => true | _ => false end.

Definition progress_payload_bytes (p : list ProgressEvent) : N :=
  sat_total (map (fun e => default MAX_PROGRESS_BYTES (encoded_progress e)) p).

Definition progress_bytes (r : OpRecord Op) : N :=
  u64_sat_add (sat_total (map progress_event_bytes (o_progress r)))
    (sat_mul (progress_capacity r) (size_of SizeProgressEvent)).

Definition EXECUTION_LEASE_OVERHEAD_BYTES : N :=
  size_of SizeExecutionLease + 2 * (size_of SizeText + N.of_nat MAX_ID_BYTES * 2).

Definition stored_bytes (r : OpRecord Op) : N :=
  foldl u64_sat_add (size_of SizeRecord)
    [text_bytes (o_preparation_id r); operation_binding_bytes (binding r);
     option_bytes text_bytes (invocation_id r); option_bytes text_bytes (o_execution_id r);
     option_bytes outcome_bytes (outcome r);
     option_bytes (fun _ => u64_sat_add (prepared_bytes r) EXECUTION_LEASE_OVERHEAD_BYTES) (operation r);
     progress_bytes r].

Definition reservation_bytes (r : OpRecord Op) : N :=
  u64_sat_add (stored_bytes r) HASH_TABLE_GROWTH_ALLOWANCE.

Definition metadata_of (r : OpRecord Op) : ProgressMetadata :=
  {| first_retained_sequence := option_map sequence (head (o_progress r));
     next_sequence := next_progress_sequence r; gap_before_first := progress_gap r |}.

Definition status_of (r : OpRecord Op) : StatusResponse :=
  {| state := o_state r; s_preparation_id := o_preparation_id r; s_invocation_id := invocation_id r;
     s_execution_id := o_execution_id r; s_expires_at_unix_ms := Some (expires_at_unix_ms r);
     s_binding := Some (binding r); s_outcome := outcome r; tombstones_evicted_through_unix_ms := None;
     progress_metadata := metadata_of r; progress := o_progress r |}.

Definition validate_invocation (t : Tombstone) (iid : option str) : Result unit RemoteOperationError :=
  match iid with
  | Some _ => if bool_decide (t_invocation_id t = iid) then Ok tt else Err InvocationMismatch
  | None => Ok tt
  end.

Definition with_metadata (m : ProgressMetadata) (s : StatusResponse) : StatusResponse :=
  {| state := state s; s_preparation_id := s_preparation_id s; s_invocation_id := s_invocation_id s;
     s_execution_id := s_execution_id s; s_expires_at_unix_ms := s_expires_at_unix_ms s;
     s_binding := s_binding s; s_outcome := s_outcome s;
     tombstones_evicted_through_unix_ms := tombstones_evicted_through_unix_ms s;
     progress_metadata := m; progress := progress s |}.
Definition with_boundary (e : option N) (s : StatusResponse) : StatusResponse :=
  {| state := state s; s_preparation_id := s_preparation_id s; s_invocation_id := s_invocation_id s;
     s_execution_id := s_execution_id s; s_expires_at_unix_ms := s_expires_at_unix_ms s;
     s_binding := s_binding s; s_outcome := s_outcome s; tombstones_evicted_through_unix_ms := e;
     progress_metadata := progress_metadata s; progress := progress s |}.

Definition tombstone_status (t : Tombstone) (iid : option str) : Result StatusResponse RemoteOperationError :=
  (let? _ := validate_invocation t iid in
   Ok (with_metadata (t_progress_metadata t)
         (unknown_status (t_state t) (t_preparation_id t) (t_invocation_id t))))%W.

Definition tombstone_bytes (t : Tombstone) : N :=
  u64_sat_add (u64_sat_add (size_of SizeTombstone) (text_bytes (t_preparation_id t)))
    (option_bytes text_bytes (t_invocation_id t)).
End record.

(** ** The ledger *)

Section ledger.
Context `{ME : Memory} {Op : Type}.
Notation Ledger := (Ledger Op).
Notation Env := (Env Op).

Definition total_bytes (l : Ledger) : N :=
  u64_sat_add (u64_sat_add (u64_sat_add (bytes l) (reserved_bytes l)) (running_bytes l))
    (sat_mul (reservations l) (size_of SizeReservation)).

Definition refresh_bytes (l : Ledger) : Ledger :=
  let values := map snd (map_to_list (records l)) in
  let keys := map fst (map_to_list (records l)) in
  with_bytes
    (u64_sat_add
       (u64_sat_add
          (u64_sat_add (sat_total (map stored_bytes values ++ map tombstone_bytes (tombstones l)))
             (sat_mul (table_capacity l) (u64_sat_add (size_of SizeEntry) 1)))
          (sat_total (map text_bytes keys)))
       (sat_mul (tombstones_capacity l) (size_of SizeTombstone))) l.

Definition over (l : Ledger) : bool := (MAX_LEDGER_BYTES <? total_bytes l)%N.

Definition note_eviction (t : Tombstone) (l : Ledger) : Ledger :=
  with_evicted_through
    (Some match evicted_through_unix_ms l with
          | None => forgotten_at_unix_ms t
          | Some through => N.max through (forgotten_at_unix_ms t)
          end) l.

Definition find_tombstone (l : Ledger) (pid : str) : option Tombstone :=
  snd <$> list_find (fun t => t_preparation_id t = pid) (tombstones l).

(** The tombstone a record leaves. *)
Definition bury (env : Env) (pid : str) (s : OperationState) (r : OpRecord Op) : Tombstone :=
  {| t_preparation_id := pid; t_invocation_id := invocation_id r; t_state := s;
     t_progress_metadata :=
       {| first_retained_sequence := None; next_sequence := next_progress_sequence r;
          gap_before_first := progress_gap r || negb (next_progress_sequence r =? 1)%N |};
     forgotten_at := now env; forgotten_at_unix_ms := wall env pid |}.

Definition push_tombstone (t : Tombstone) (l : Ledger) : Ledger :=
  with_tombstones (tombstones l ++ [t])
    (deque_grown (tombstones_capacity l) (length (tombstones l))) l.

(** The oldest tombstone is noted and goes. *)
Definition pop_tombstone (l : Ledger) : option Ledger :=
  match tombstones l with
  | [] => None
  | t :: ts => Some (note_eviction t (with_tombstones ts (tombstones_capacity l) l))
  end.

Definition forget (env : Env) (pid : str) (s : OperationState) (l : Ledger) : Ledger :=
  let l :=
    match records l !! pid with
    | None => l
    | Some r =>
        let l := with_records (delete pid (records l)) (table_capacity l) l in
        let l := if length (tombstones l) =? MAX_TOMBSTONES then default l (pop_tombstone l) else l in
        push_tombstone (bury env pid s r) l
    end in
  refresh_bytes
    (with_records (records l) (table_shrunk (table_capacity l) (size (records l))) l).

(** Whether [prune] forgets a record. *)
Definition outlived (t : N) (r : OpRecord Op) : bool :=
  (bool_decide (o_state r = Prepared) && (expires_at r <=? t)%N) ||
  (is_terminal r && is_some_and (fun at_ => (RETENTION_TTL <=? t - at_)%N) (terminal_at r)).

Definition entries (env : Env) (l : Ledger) : list (str * OpRecord Op) :=
  iteration env (map_to_list (records l)).

(** Drops the oldest tombstones while they are too old or too many. *)
Fixpoint drop_old (t : N) (ts : list Tombstone) (l : Ledger) : Ledger :=
  match ts with
  | [] => l
  | entry :: ts' =>
      if (RETENTION_TTL <=? t - forgotten_at entry)%N || (MAX_TOMBSTONES <? length ts)
      then drop_old t ts' (note_eviction entry (with_tombstones ts' (tombstones_capacity l) l))
      else l
  end.

(** Drops the oldest tombstones while the ledger is over its ceiling. *)
Fixpoint drop_over (ts : list Tombstone) (l : Ledger) : Ledger :=
  if over l then
    match ts with
    | [] => l
    | entry :: ts' =>
        drop_over ts' (refresh_bytes (note_eviction entry (with_tombstones ts' (tombstones_capacity l) l)))
    end
  else l.

Definition prune (env : Env) (t : N) (l : Ledger) : Ledger :=
  let forgotten := map fst (filter (fun '(_, r) => outlived t r = true) (entries env l)) in
  let l := foldl (fun l id => forget env id Forgotten l) l forgotten in
  let l := refresh_bytes (drop_old t (tombstones l) l) in
  drop_over (tombstones l) l.

(** ** Admission *)

Definition prepared_count (l : Ledger) : N :=
  N.of_nat (length (filter (fun '(_, r) => o_state r = Prepared) (map_to_list (records l)))).

Definition reserve (env : Env) (b : N) (l : Ledger) : Result unit RemoteOperationError * Ledger :=
  let l := prune env (now env) l in
  if (MAX_PREPARATIONS <=? u64_sat_add (prepared_count l) (reservations l))%N ||
     (MAX_OPERATIONS <=? u64_sat_add (N.of_nat (size (records l))) (reservations l))%N ||
     (MAX_LEDGER_BYTES <?
        u64_sat_add
          (u64_sat_add (u64_sat_add (u64_sat_add (bytes l) (reserved_bytes l)) (running_bytes l)) b)
          (sat_mul (u64_sat_add (reservations l) 1) (size_of SizeReservation)))%N
  then (Err QuotaExceeded, l)
  else (Ok tt, with_reserved (u64_sat_add (reserved_bytes l) b) (u64_sat_add (reservations l) 1) l).

Definition rollback_reservation (b : N) (l : Ledger) : Ledger :=
  with_reserved (reserved_bytes l - b) (reservations l - 1) l.

Definition resize_reservation (env : Env) (t previous b : N) (l : Ledger) :
    Result unit RemoteOperationError * Ledger :=
  let l := prune env t l in
  let prospective :=
    u64_sat_add
      (u64_sat_add (u64_sat_add (u64_sat_add (bytes l) (reserved_bytes l - previous)) (running_bytes l)) b)
      (sat_mul (reservations l) (size_of SizeReservation)) in
  if (MAX_LEDGER_BYTES <? prospective)%N then (Err QuotaExceeded, l)
  else (Ok tt, with_reserved (u64_sat_add (reserved_bytes l - previous) b) (reservations l) l).

Definition insert_reserved (env : Env) (r : OpRecord Op) (b : N) (l : Ledger) :
    Result unit RemoteOperationError * Ledger :=
  let l := prune env (now env) l in
  if (MAX_OPERATIONS <=? N.of_nat (size (records l)))%N || over l
  then (Err QuotaExceeded, rollback_reservation b l)
  else
    let pid := o_preparation_id r in
    let l :=
      with_records (<[pid := r]> (records l)) (table_grown (table_capacity l) (size (records l))) l in
    let l := refresh_bytes (rollback_reservation b l) in
    if over l then
      let m := delete pid (records l) in
      (Err QuotaExceeded,
       refresh_bytes (with_records m (table_shrunk (table_capacity l) (size m)) l))
    else (Ok tt, l).

(** ** Execution *)

Definition missing_for_execution (l : Ledger) (pid iid : str) : RemoteOperationError :=
  match find_tombstone l pid with
  | Some t =>
      if is_some_and (fun bound => negb (bool_decide (bound = iid))) (t_invocation_id t)
      then InvocationMismatch else EForgotten
  | None => NotFound
  end.

Definition begin (env : Env) (request : ExecuteRequest) (token : Token) (l : Ledger) :
    Result (BeginExecution Op) RemoteOperationError * Ledger :=
  let l := prune env (now env) l in
  let pid := x_preparation_id request in
  let iid := x_invocation_id request in
  let missing := missing_for_execution l pid iid in
  match records l !! pid with
  | None => (Err missing, l)
  | Some r =>
      if negb (bool_decide (host (binding r) = x_host request)) then (Err BindingMismatch, l)
      else
        match invocation_id r with
        | Some bound =>
            if negb (bool_decide (bound = iid)) then (Err InvocationMismatch, l)
            else if bool_decide (o_state r = Running) then (Ok (BeginRunning (status_of r)), l)
            else (Ok (BeginTerminal (status_of r)), l)
        | None =>
            if (expires_at r <=? now env)%N then (Err Expired, l)
            else
              match operation r with
              | None => (Err Internal, l)
              | Some op =>
                  let lease_bytes := u64_sat_add (prepared_bytes r) EXECUTION_LEASE_OVERHEAD_BYTES in
                  let l :=
                    with_running (u64_sat_add (running_bytes l) lease_bytes)
                      (with_records (<[pid := started iid token r]> (records l)) (table_capacity l) l) in
                  (Ok (Start op token
                     {| l_bytes := lease_bytes; l_preparation_id := pid; l_invocation_id := iid |}),
                   refresh_bytes l)
              end
        end
  end.

(** ** The ceiling *)

Definition evict_oldest_progress (env : Env) (l : Ledger) : option Ledger :=
  let with_events := filter (fun '(_, r) => o_progress r ≠ []) (entries env l) in
  match min_by (fun a b => (created_at a.2 <? created_at b.2)%N) with_events with
  | None => None
  | Some (id, r) =>
      Some (with_records
              (<[id := with_progress (tail (o_progress r)) (progress_capacity r)
                         (next_progress_sequence r) true r]> (records l))
              (table_capacity l) l)
  end.

(** All progress retained. *)
Definition progress_events (l : Ledger) : nat :=
  sum_list_with (fun '(_, r) => length (o_progress r)) (map_to_list (records l)).

Fixpoint evict_progress (fuel : nat) (env : Env) (l : Ledger) : Ledger :=
  match fuel with
  | 0 => l
  | S fuel =>
      if over l then
        match evict_oldest_progress env l with
        | None => l
        | Some l' => evict_progress fuel env (refresh_bytes l')
        end
      else l
  end.

(** The terminal record, other than [protected], that ended first. *)
Definition oldest_terminal (env : Env) (protected : str) (l : Ledger) : option str :=
  fst <$> min_by (fun a b => option_lt (terminal_at a.2) (terminal_at b.2))
    (filter (fun '(id, r) => id ≠ protected ∧ is_terminal r = true) (entries env l)).

Fixpoint forget_terminals (fuel : nat) (env : Env) (protected : str) (l : Ledger) : Ledger :=
  match fuel with
  | 0 => l
  | S fuel =>
      if over l then
        match oldest_terminal env protected l with
        | None => l
        | Some id => forget_terminals fuel env protected (forget env id Indeterminate l)
        end
      else l
  end.

(** The protected record without its outcome and its progress. *)
Definition strip (r : OpRecord Op) : OpRecord Op :=
  let r := bare r in
  match o_progress r with
  | [] => r
  | _ => with_progress [] (progress_capacity r) (next_progress_sequence r) true r
  end.

Definition strip_protected (protected : str) (l : Ledger) : Ledger :=
  if over l then
    match records l !! protected with
    | Some r => refresh_bytes (with_records (<[protected := strip r]> (records l)) (table_capacity l) l)
    | None => l
    end
  else l.

(** Drops tombstones, which it does not note, while the ledger is over its ceiling. *)
Fixpoint drop_unnoted (ts : list Tombstone) (l : Ledger) : Ledger :=
  if over l then
    match ts with
    | [] => l
    | _ :: ts' => drop_unnoted ts' (refresh_bytes (with_tombstones ts' (tombstones_capacity l) l))
    end
  else l.

Definition enforce_ceiling (env : Env) (protected : str) (l : Ledger) : Ledger :=
  let l := evict_progress (progress_events l) env l in
  let l := forget_terminals (size (records l)) env protected l in
  let l := strip_protected protected l in
  drop_unnoted (tombstones l) l.

(** ** Ending *)

(** Whether an execution of [pid] by [iid] is running. *)
Definition running_for (l : Ledger) (pid iid : str) : option (OpRecord Op) :=
  match records l !! pid with
  | Some r =>
      if bool_decide (invocation_id r = Some iid) && bool_decide (o_state r = Running) then Some r else None
  | None => None
  end.

Definition outcome_state (o : StructuredOutcome) : OperationState :=
  if side_effects_possible o then Indeterminate
  else match kind o with
       | OutcomeCompleted => Completed
       | OutcomeFailed => Failed
       | OutcomeCancelled => Cancelled
       end.

Definition finish (env : Env) (pid iid : str) (o : StructuredOutcome) (l : Ledger) : Ledger :=
  match running_for l pid iid with
  | None => l
  | Some r =>
      let r := ended (outcome_state o) (Some o) (now env) r in
      enforce_ceiling env pid
        (refresh_bytes (with_records (<[pid := r]> (records l)) (table_capacity l) l))
  end.

Definition finish_indeterminate (env : Env) (pid iid : str) (l : Ledger) : Ledger :=
  match running_for l pid iid with
  | None => l
  | Some r =>
      let r := ended Indeterminate None (now env) r in
      enforce_ceiling env pid
        (refresh_bytes (with_records (<[pid := r]> (records l)) (table_capacity l) l))
  end.

(** [ExecutionLease::drop]. *)
Definition drop_lease (env : Env) (lease : ExecutionLease) (l : Ledger) : Ledger :=
  let l :=
    if is_some_and (fun r => bool_decide (o_state r = Running)) (records l !! l_preparation_id lease)
    then finish_indeterminate env (l_preparation_id lease) (l_invocation_id lease) l else l in
  with_running (running_bytes l - l_bytes lease) l.

(** ** Questions *)

Definition status (env : Env) (pid : str) (iid : option str) (l : Ledger) :
    Result StatusResponse RemoteOperationError * Ledger :=
  let l := prune env (now env) l in
  let through := evicted_through_unix_ms l in
  match records l !! pid with
  | Some r =>
      if is_some_and (fun i => negb (bool_decide (invocation_id r = Some i))) iid
      then (Err InvocationMismatch, l) else (Ok (with_boundary through (status_of r)), l)
  | None =>
      (result_map (with_boundary through)
         match find_tombstone l pid with
         | Some t => tombstone_status t iid
         | None => Ok (unknown_status NeverSeen pid iid)
         end, l)
  end.

Definition release (env : Env) (pid : str) (iid : option str) (l : Ledger) :
    Result ReleaseResponse RemoteOperationError * Ledger :=
  let l := prune env (now env) l in
  let through := evicted_through_unix_ms l in
  let answer s r := {| r_state := s; released := r; r_evicted_through_unix_ms := through |} in
  match records l !! pid with
  | None =>
      match find_tombstone l pid with
      | Some t => (let? _ := validate_invocation t iid in Ok (answer (t_state t) false), l)%W
      | None => (Ok (answer NeverSeen false), l)
      end
  | Some r =>
      if is_some_and (fun i => negb (bool_decide (invocation_id r = Some i))) iid
      then (Err InvocationMismatch, l)
      else if bool_decide (o_state r = Running) then (Err ERunning, l)
      else (Ok (answer (o_state r) true), forget env pid Forgotten l)
  end.

(** The token it cancels beside its answer. *)
Definition cancel (env : Env) (request : CancelRequest) (l : Ledger) :
    Result CancelResponse RemoteOperationError * option Token * Ledger :=
  let l := prune env (now env) l in
  match records l !! c_preparation_id request with
  | None =>
      match find_tombstone l (c_preparation_id request) with
      | Some t =>
          (let? _ := validate_invocation t (Some (c_invocation_id request)) in
           Ok {| c_state := t_state t; cancellation_requested := false |}, None, l)%W
      | None => (Err NotFound, None, l)
      end
  | Some r =>
      if negb (bool_decide (invocation_id r = Some (c_invocation_id request)))
      then (Err InvocationMismatch, None, l)
      else (Ok {| c_state := o_state r; cancellation_requested := bool_decide (is_Some (cancellation r)) |},
            cancellation r, l)
  end.

(** ** Progress *)

(** Drops the oldest events while they are too many or too large; whether any was. *)
Fixpoint shed (p : list ProgressEvent) (gap : bool) : list ProgressEvent * bool :=
  match p with
  | [] => ([], gap)
  | _ :: p' =>
      if (MAX_PROGRESS_EVENTS <? length p) || (MAX_PROGRESS_BYTES <? progress_payload_bytes p)%N
      then shed p' true else (p, gap)
  end.

Definition record_progress (event : ProgressEvent) (r : OpRecord Op) : OpRecord Op :=
  let gap := progress_gap r || negb (sequence event =? next_progress_sequence r)%N in
  let next := N.max (next_progress_sequence r) (u64_sat_add (sequence event) 1) in
  let '(p, gap) := shed (o_progress r ++ [event]) gap in
  with_progress p (deque_grown (progress_capacity r) (length (o_progress r))) next gap r.

Definition capture_progress (env : Env) (pid iid : str) (s : N) (k c : str) (l : Ledger) : Ledger :=
  match running_for l pid iid with
  | None => l
  | Some r =>
      if (s <? next_progress_sequence r)%N || (s =? U64_MAX)%N then l
      else
        let event := {| execution_id := iid; sequence := s; p_kind := k; chunk := c |} in
        let l :=
          refresh_bytes
            (with_records (<[pid := record_progress event r]> (records l)) (table_capacity l) l) in
        evict_progress (progress_events l) env l
  end.
End ledger.
