(* ===== verification/RemoteHost.v ===== *)
(** * The remote host

    [src/remote_host.rs], [RemoteHostState]: the requests a host serves on its ledger, with the
    reservations of preparations that are being inspected and the leases of executions that
    run.  [serve] is one call under the ledger's lock; a history is a list of calls, so every
    interleaving of concurrent requests is one. *)

From stdpp Require Import gmap sorting.
From S2P Require Import Prelude HostContract Ledger.

Section host.
Context `{ME : Memory} {Op : Type} (op_bytes : Op → N) (this : HostBinding).
Notation Ledger := (Ledger Op).
Notation Env := (Env Op).

(** ** Bindings *)

Definition same_remote_identity (a b : HostBinding) : bool :=
  bool_decide (server_id a = server_id b) && bool_decide (workspace_id a = workspace_id b) &&
  bool_decide (workspace_generation a = workspace_generation b) &&
  bool_decide (root_project_id a = root_project_id b) && bool_decide (principal_id a = principal_id b).

Definition same_host_binding_except_instance (a b : HostBinding) : bool :=
  same_remote_identity a b && bool_decide (cwd_handle a = cwd_handle b) &&
  bool_decide (catalog_revision a = catalog_revision b) &&
  bool_decide (policy_revision a = policy_revision b).

Definition validate_host (h : HostBinding) : Result unit RemoteOperationError :=
  if negb (same_remote_identity h this) then Err BindingMismatch
  else if negb (bool_decide (instance_id h = instance_id this)) then Err InstanceMismatch
  else if negb (bool_decide (h = this)) then Err BindingMismatch
  else Ok tt.

Definition validate_workspace_host (h : HostBinding) : Result unit RemoteOperationError :=
  if same_host_binding_except_instance h this then Ok tt else Err BindingMismatch.

(** ** Preparing *)

Definition duration_ms (d : N) : N := N.min (d / 1000000) U64_MAX.

Definition new_record (env : Env) (pid : str) (op : Op) (b : OperationBinding) : OpRecord Op :=
  {| o_preparation_id := pid; operation := Some op; prepared_bytes := op_bytes op; binding := b;
     created_at := now env; expires_at := now env + PREPARATION_TTL;
     expires_at_unix_ms := u64_sat_add (unix_ms env) (duration_ms PREPARATION_TTL);
     invocation_id := None; o_execution_id := None; o_state := Prepared; cancellation := None;
     outcome := None; terminal_at := None; o_progress := []; progress_capacity := 0;
     next_progress_sequence := 1; progress_gap := false |}.

(** A preparation that was inspected under a reservation of [reserved] bytes, which ends here
    whatever happens. *)
Definition prepare_reserved (env : Env) (uuid : str) (reserved : N) (op : Op) (b : OperationBinding)
    (intent : OperationIntent) (l : Ledger) : Result PrepareResponse RemoteOperationError * Ledger :=
  let abandoned e l := (Err e, rollback_reservation reserved l) in
  if negb (operation_intent_valid intent) then abandoned ResourceLimit l
  else
    match Identifier_new (lit "prep_" ++ uuid) with
    | Err _ => abandoned Internal l
    | Ok pid =>
        if (MAX_PREPARED_OPERATION_BYTES <? op_bytes op)%N then abandoned QuotaExceeded l
        else
          let r := new_record env pid op b in
          match resize_reservation env (later env) reserved (reservation_bytes r) l with
          | (Err e, l) => abandoned e l
          | (Ok _, l) =>
              match insert_reserved env r (reservation_bytes r) l with
              | (Err e, l) => (Err e, l)
              | (Ok _, l) =>
                  (Ok {| pr_preparation_id := pid; pr_expires_at_unix_ms := expires_at_unix_ms r;
                         pr_binding := b; pr_intent := intent |}, l)
              end
          end
    end.

(** ** Requests *)

Definition host_begin (env : Env) (request : ExecuteRequest) (token : Token) (l : Ledger) :
    Result (BeginExecution Op) RemoteOperationError * Ledger :=
  match validate_host (x_host request) with
  | Err e => (Err e, l)
  | Ok _ => begin env request token l
  end.

Definition host_status (env : Env) (pid : str) (iid : option str) (h : HostBinding) (l : Ledger) :
    Result StatusResponse RemoteOperationError * Ledger :=
  if negb (same_remote_identity h this) then (Err BindingMismatch, l)
  else if negb (bool_decide (instance_id h = instance_id this))
  then (Ok (unknown_status Indeterminate pid iid), l)
  else
    match validate_host h with
    | Err e => (Err e, l)
    | Ok _ => status env pid iid l
    end.

Definition with_events (p : list ProgressEvent) (s : StatusResponse) : StatusResponse :=
  {| state := state s; s_preparation_id := s_preparation_id s; s_invocation_id := s_invocation_id s;
     s_execution_id := s_execution_id s; s_expires_at_unix_ms := s_expires_at_unix_ms s;
     s_binding := s_binding s; s_outcome := s_outcome s;
     tombstones_evicted_through_unix_ms := tombstones_evicted_through_unix_ms s;
     progress_metadata := progress_metadata s; progress := p |}.

Definition status_after (env : Env) (request : StatusRequest) (l : Ledger) :
    Result StatusResponse RemoteOperationError * Ledger :=
  let s := selector request in
  match host_status env (sel_preparation_id s) (sel_invocation_id s) (sel_host s) l with
  | (Err e, l) => (Err e, l)
  | (Ok answer, l) =>
      match after_sequence request with
      | None => (Ok answer, l)
      | Some after =>
          if (after =? U64_MAX)%N ||
             ((next_sequence (progress_metadata answer) <=? after)%N &&
              bool_decide (instance_id (sel_host s) = instance_id this))
          then (Err InvalidRequest, l)
          else (Ok (with_events (filter (fun e => (after < sequence e)%N) (progress answer)) answer), l)
      end
  end.

Definition host_release (env : Env) (pid : str) (iid : option str) (h : HostBinding) (l : Ledger) :
    Result ReleaseResponse RemoteOperationError * Ledger :=
  match validate_host h with
  | Err e => (Err e, l)
  | Ok _ => release env pid iid l
  end.

Definition host_cancel (env : Env) (request : CancelRequest) (l : Ledger) :
    Result CancelResponse RemoteOperationError * option Token * Ledger :=
  match validate_host (c_host request) with
  | Err e => (Err e, None, l)
  | Ok _ => cancel env request l
  end.

Definition host_capture_progress (env : Env) (pid iid : str) (s : N) (k message : str) (l : Ledger) : Ledger :=
  match Identifier_new k, ProgressChunkText_new message with
  | Ok k, Ok c => capture_progress env pid iid s k c l
  | _, _ => l
  end.

(** ** Histories *)

Inductive Call :=
| Reserve (b : N)
| Abandon (reservation : nat)
| Prepare (reservation : nat) (uuid : str) (op : Op) (b : OperationBinding) (intent : OperationIntent)
| Begin (request : ExecuteRequest)
| Progress (pid iid : str) (s : N) (k message : str)
| Finish (pid iid : str) (o : StructuredOutcome)
| FinishIndeterminate (pid iid : str)
| DropLease (lease : nat)
| Status (request : StatusRequest)
| Release (pid : str) (iid : option str) (h : HostBinding)
| Cancel (request : CancelRequest).

Inductive Answer :=
| AReserve (r : Result nat RemoteOperationError)
| APrepare (r : Result PrepareResponse RemoteOperationError)
| ABegin (r : Result (BeginExecution Op) RemoteOperationError)
| AStatus (r : Result StatusResponse RemoteOperationError)
| ARelease (r : Result ReleaseResponse RemoteOperationError)
| ACancel (r : Result CancelResponse RemoteOperationError)
| ANone.

(** The ledger, and what is held outside of it: reservations by their bytes, leases, the tokens
    given out and those cancelled. *)
Record Host := {
  ledger : Ledger; held : gmap nat N; leases : gmap nat ExecutionLease;
  tokens : N; cancelled : gset Token;
}.
Definition new_host : Host :=
  {| ledger := empty_ledger; held := ∅; leases := ∅; tokens := 0; cancelled := ∅ |}.

Definition with_ledger (l : Ledger) (h : Host) : Host :=
  {| ledger := l; held := held h; leases := leases h; tokens := tokens h; cancelled := cancelled h |}.
Definition with_held (m : gmap nat N) (h : Host) : Host :=
  {| ledger := ledger h; held := m; leases := leases h; tokens := tokens h; cancelled := cancelled h |}.
Definition with_leases (m : gmap nat ExecutionLease) (h : Host) : Host :=
  {| ledger := ledger h; held := held h; leases := m; tokens := tokens h; cancelled := cancelled h |}.

Definition serve_reserve (env : Env) (b : N) (h : Host) : Answer * Host :=
  let '(r, l) := reserve env b (ledger h) in
  match r with
  | Err e => (AReserve (Err e), with_ledger l h)
  | Ok _ =>
      let k := fresh (dom (held h)) in
      (AReserve (Ok k), with_held (<[k := b]> (held h)) (with_ledger l h))
  end.

Definition serve_abandon (k : nat) (h : Host) : Answer * Host :=
  match held h !! k with
  | None => (ANone, h)
  | Some b => (ANone, with_held (delete k (held h)) (with_ledger (rollback_reservation b (ledger h)) h))
  end.

(** [prepare] takes the lock to resize the reservation and again to insert the record; here both
    are one step, so a history has no other call between them. *)
Definition serve_prepare (env : Env) (k : nat) (uuid : str) (op : Op) (b : OperationBinding)
    (intent : OperationIntent) (h : Host) : Answer * Host :=
  match held h !! k with
  | None => (ANone, h)
  | Some reserved =>
      let '(r, l) := prepare_reserved env uuid reserved op b intent (ledger h) in
      (APrepare r, with_held (delete k (held h)) (with_ledger l h))
  end.

Definition serve_begin (env : Env) (request : ExecuteRequest) (h : Host) : Answer * Host :=
  let token := tokens h in
  let '(r, l) := host_begin env request token (ledger h) in
  let h := {| ledger := l; held := held h; leases := leases h; tokens := token + 1;
              cancelled := cancelled h |} in
  (ABegin r,
   match r with
   | Ok (Start _ _ lease) => with_leases (<[fresh (dom (leases h)) := lease]> (leases h)) h
   | _ => h
   end).

Definition serve_drop (env : Env) (k : nat) (h : Host) : Answer * Host :=
  match leases h !! k with
  | None => (ANone, h)
  | Some lease =>
      (ANone, with_leases (delete k (leases h)) (with_ledger (drop_lease env lease (ledger h)) h))
  end.

Definition serve_cancel (env : Env) (request : CancelRequest) (h : Host) : Answer * Host :=
  let '(r, token, l) := host_cancel env request (ledger h) in
  (ACancel r,
   {| ledger := l; held := held h; leases := leases h; tokens := tokens h;
      cancelled := from_option (fun t => {[ t ]}) ∅ token ∪ cancelled h |}).

Definition serve (env : Env) (call : Call) (h : Host) : Answer * Host :=
  match call with
  | Reserve b => serve_reserve env b h
  | Abandon k => serve_abandon k h
  | Prepare k uuid op b intent => serve_prepare env k uuid op b intent h
  | Begin request => serve_begin env request h
  | Progress pid iid s k message =>
      (ANone, with_ledger (host_capture_progress env pid iid s k message (ledger h)) h)
  | Finish pid iid o => (ANone, with_ledger (finish env pid iid o (ledger h)) h)
  | FinishIndeterminate pid iid => (ANone, with_ledger (finish_indeterminate env pid iid (ledger h)) h)
  | DropLease k => serve_drop env k h
  | Status request =>
      let '(r, l) := status_after env request (ledger h) in (AStatus r, with_ledger l h)
  | Release pid iid b =>
      let '(r, l) := host_release env pid iid b (ledger h) in (ARelease r, with_ledger l h)
  | Cancel request => serve_cancel env request h
  end.

(** The hosts a history passes through, and its answers. *)
Fixpoint serve_all (calls : list (Env * Call)) (h : Host) : list Answer * Host :=
  match calls with
  | [] => ([], h)
  | (env, call) :: calls' =>
      let '(a, h') := serve env call h in
      let '(answers, h'') := serve_all calls' h' in
      (a :: answers, h'')
  end.
End host.
