(* ===== verification/LedgerSafe.v ===== *)
(** * The ledger's promises

    What every call does to each operation of a host, the statuses it answers, and the bytes it
    promises, for every history of calls. *)

From stdpp Require Import gmap sorting.
From S2P Require Import Prelude HostContract Ledger RemoteHost.

Section ledger.
Context `{ME : Memory} {Op : Type}.
Notation Ledger := (Ledger Op).
Notation OpRecord := (OpRecord Op).
Notation Env := (Env Op).

(** ** What the loops of the ledger change *)

Lemma elem_of_entries (env : Env) l id r : (id, r) ∈ entries env l ↔ records l !! id = Some r.
Proof. unfold entries. by rewrite (iteration_perm env), elem_of_map_to_list. Qed.

Lemma min_by_elem {A} lt (l : list A) x : min_by lt l = Some x → x ∈ l.
Proof.
  destruct l as [|y l]; [done|]. intros [= <-].
  enough (∀ z, foldl (λ best y, if lt y best then y else best) z l = z ∨
    foldl (λ best y, if lt y best then y else best) z l ∈ l) as H.
  { destruct (H y) as [->|?]; [by left|by right]. }
  induction l as [|w l IH]; intros z; [by left|]. simpl.
  destruct (lt w z); destruct (IH w) as [E|]; destruct (IH z) as [E'|];
    rewrite ?E, ?E'; first [by left|right; by left|right; by right].
Qed.

Lemma min_by_None {A} lt (l : list A) : min_by lt l = None ↔ l = [].
Proof. by destruct l. Qed.

(** One event of one record goes. *)
Definition drop_event (id : str) (r : OpRecord) (l : Ledger) : Ledger :=
  refresh_bytes
    (with_records (<[id := with_progress (tail (o_progress r)) (progress_capacity r)
                             (next_progress_sequence r) true r]> (records l)) (table_capacity l) l).

Lemma evict_oldest_progress_Some (env : Env) l l' :
  evict_oldest_progress env l = Some l' →
  ∃ id r, records l !! id = Some r ∧ o_progress r ≠ [] ∧ refresh_bytes l' = drop_event id r l.
Proof.
  unfold evict_oldest_progress. destruct (min_by _ _) as [[id r]|] eqn:E; [|done]. intros [= <-].
  apply min_by_elem, list_elem_of_filter in E as [Hp E%elem_of_entries]. by exists id, r.
Qed.

Lemma evict_progress_keeps (P : Ledger → Prop) fuel (env : Env) l :
  (∀ l id r, P l → records l !! id = Some r → o_progress r ≠ [] → P (drop_event id r l)) →
  P l → P (evict_progress fuel env l).
Proof.
  intros HP. revert l. induction fuel as [|fuel IH]; intros l Hl; simpl; [done|].
  destruct (over l); [|done]. destruct (evict_oldest_progress env l) as [l'|] eqn:E; [|done].
  apply IH. destruct (evict_oldest_progress_Some env l l' E) as (id & r & Hr & Hp & ->). by apply HP.
Qed.

Lemma forget_terminals_keeps (P : Ledger → Prop) fuel (env : Env) protected l :
  (∀ l id r, P l → records l !! id = Some r → id ≠ protected → is_terminal r = true →
     P (forget env id Indeterminate l)) →
  P l → P (forget_terminals fuel env protected l).
Proof.
  intros HP. revert l. induction fuel as [|fuel IH]; intros l Hl; simpl; [done|].
  destruct (over l); [|done]. destruct (oldest_terminal env protected l) as [id|] eqn:E; [|done].
  apply IH. unfold oldest_terminal in E. destruct (min_by _ _) as [[id' r]|] eqn:E'; [|done].
  injection E as ->. apply min_by_elem, list_elem_of_filter in E' as [[Hn Ht] E'%elem_of_entries].
  by eapply HP.
Qed.

Lemma drop_unnoted_keeps (P : Ledger → Prop) ts l :
  (∀ l ts, P l → P (refresh_bytes (with_tombstones ts (tombstones_capacity l) l))) →
  P l → P (drop_unnoted ts l).
Proof.
  intros HP. revert l. induction ts as [|t ts IH]; intros l Hl; simpl; destruct (over l); auto.
Qed.

Lemma drop_old_keeps (P : Ledger → Prop) t ts l :
  (∀ l e ts, P l → P (note_eviction e (with_tombstones ts (tombstones_capacity l) l))) →
  P l → P (drop_old t ts l).
Proof.
  intros HP. revert l. induction ts as [|e ts IH]; intros l Hl; simpl; [done|]. destruct (_ || _); auto.
Qed.

Lemma drop_over_keeps (P : Ledger → Prop) ts l :
  (∀ l e ts, P l → P (refresh_bytes (note_eviction e (with_tombstones ts (tombstones_capacity l) l)))) →
  P l → P (drop_over ts l).
Proof.
  intros HP. revert l. induction ts as [|e ts IH]; intros l Hl; simpl; destruct (over l); auto.
Qed.

(** ** Records *)

Lemma forget_records (env : Env) id s l : records (forget env id s l) = delete id (records l).
Proof.
  unfold forget. destruct (records l !! id) as [r|] eqn:E; simpl; [|by rewrite delete_id].
  case_match; [|done]. unfold pop_tombstone. simpl. by destruct (tombstones l).
Qed.

Lemma forget_all_records (env : Env) s ids l id :
  records (foldl (λ l id, forget env id s l) l ids) !! id =
    if decide (id ∈ ids) then None else records l !! id.
Proof.
  revert l. induction ids as [|i ids IH]; intros l; [done|]. cbn [foldl]. rewrite IH, forget_records.
  destruct (decide (id = i)) as [->|Hn].
  - rewrite lookup_delete_eq. destruct (decide (i ∈ i :: ids)) as [|Hni]; [|destruct Hni; by left].
    by case_decide.
  - rewrite lookup_delete_ne by done. destruct (decide (id ∈ ids)) as [?|Hni].
    + rewrite decide_True; [done|]. by right.
    + rewrite decide_False; [done|]. by intros [?|?]%elem_of_cons.
Qed.

Lemma prune_lookup (env : Env) t l id :
  records (prune env t l) !! id =
    match records l !! id with Some r => if outlived t r then None else Some r | None => None end.
Proof.
  unfold prune.
  set (ids := map fst (filter _ _)). set (l1 := foldl _ l ids).
  assert (records (drop_over (tombstones (refresh_bytes (drop_old t (tombstones l1) l1)))
    (refresh_bytes (drop_old t (tombstones l1) l1))) = records l1) as ->.
  { apply (drop_over_keeps (λ l', records l' = records l1)); [done|].
    by apply (drop_old_keeps (λ l', records l' = records l1)). }
  unfold l1. rewrite forget_all_records.
  assert (id ∈ ids ↔ ∃ r, records l !! id = Some r ∧ outlived t r = true) as Hids.
  { unfold ids. rewrite list_elem_of_fmap. split.
    - intros ([i r] & -> & [Ho Hin]%list_elem_of_filter). exists r. by rewrite <- elem_of_entries.
    - intros (r & Hr & Ho). exists (id, r). split; [done|]. apply list_elem_of_filter.
      by rewrite elem_of_entries. }
  destruct (decide (id ∈ ids)) as [Hin|Hni].
  - apply Hids in Hin as (r & -> & ->). done.
  - destruct (records l !! id) as [r|] eqn:Er; [|done]. destruct (outlived t r) eqn:Eo; [|done].
    destruct Hni. apply Hids. by exists r.
Qed.

(** A record but for its progress. *)
Definition alike (r r' : OpRecord) : Prop := ∃ p c n g, r' = with_progress p c n g r.

Lemma alike_refl r : alike r r.
Proof. exists (o_progress r), (progress_capacity r), (next_progress_sequence r), (progress_gap r). by destruct r. Qed.
Lemma alike_trans r1 r2 r3 : alike r1 r2 → alike r2 r3 → alike r1 r3.
Proof. intros (? & ? & ? & ? & ->) (p & c & n & g & ->). by exists p, c, n, g. Qed.
Lemma alike_terminal r r' : alike r r' → is_terminal r' = is_terminal r.
Proof. by intros (? & ? & ? & ? & ->). Qed.
Lemma alike_bare r r' : alike r r' → alike (bare r) (bare r').
Proof. intros (p & c & n & g & ->). by exists p, c, n, g. Qed.
Hint Resolve alike_refl : core.

(** Dropping progress changes nothing else. *)
Lemma evict_progress_alike fuel (env : Env) l id :
  option_Forall2 alike (records l !! id) (records (evict_progress fuel env l) !! id).
Proof.
  apply (evict_progress_keeps (λ l', option_Forall2 alike (records l !! id) (records l' !! id))).
  - intros l' i r H Hr _. simpl. destruct (decide (i = id)) as [->|Hn].
    + rewrite lookup_insert_eq. rewrite Hr in H. inversion H; subst. constructor.
      eapply alike_trans; [done|]. do 4 eexists. done.
    + by rewrite lookup_insert_ne.
  - destruct (records l !! id); by constructor.
Qed.

(** What enforcing the ceiling leaves of a record. *)
Inductive ceiling_left (protected id : str) : option OpRecord → option OpRecord → Prop :=
| left_absent : ceiling_left protected id None None
| left_alike r r' : alike r r' → ceiling_left protected id (Some r) (Some r')
| left_bare r r' : id = protected → alike (bare r) r' → ceiling_left protected id (Some r) (Some r')
| left_gone r : id ≠ protected → is_terminal r = true → ceiling_left protected id (Some r) None.

Lemma strip_alike r : alike (bare r) (strip r).
Proof.
  unfold strip. destruct (o_progress (bare r)) eqn:E; [done|]. do 4 eexists. done.
Qed.

Lemma enforce_ceiling_left (env : Env) protected l id :
  ceiling_left protected id (records l !! id) (records (enforce_ceiling env protected l) !! id).
Proof.
  unfold enforce_ceiling. set (l1 := evict_progress _ env l). set (l2 := forget_terminals _ env protected l1).
  set (l3 := strip_protected protected l2).
  assert (records (drop_unnoted (tombstones l3) l3) = records l3) as ->.
  { by apply (drop_unnoted_keeps (λ l', records l' = records l3)). }
  assert ((records l2 !! id = records l1 !! id) ∨
    (id ≠ protected ∧ records l2 !! id = None ∧ ∃ r, records l1 !! id = Some r ∧ is_terminal r = true)) as H2.
  { apply (forget_terminals_keeps (λ l', records l' !! id = records l1 !! id ∨
      (id ≠ protected ∧ records l' !! id = None ∧ ∃ r, records l1 !! id = Some r ∧ is_terminal r = true)));
      [|by left].
    intros l' i r H Hr Hn Ht. rewrite forget_records. destruct (decide (i = id)) as [->|Hi].
    - rewrite lookup_delete_eq. right. split_and!; [done..|]. destruct H as [H|(_ & H & _)]; [|congruence].
      exists r. by rewrite <- H.
    - by rewrite lookup_delete_ne. }
  assert (records l3 !! id = records l2 !! id ∨
    (id = protected ∧ ∃ r, records l2 !! id = Some r ∧ records l3 !! id = Some (strip r))) as H3.
  { unfold l3, strip_protected. destruct (over l2); [|by left].
    destruct (records l2 !! protected) as [r|] eqn:E; [|by left]. simpl.
    destruct (decide (id = protected)) as [->|]; [|left; by rewrite lookup_insert_ne].
    right. split; [done|]. exists r. by rewrite lookup_insert_eq. }
  pose proof (evict_progress_alike (progress_events l) env l id) as H1. fold l1 in H1.
  destruct H2 as [H2|(Hn & H2 & r & Hr & Ht)].
  - destruct H3 as [H3|(-> & r & Hr & H3)]; rewrite H3.
    + rewrite H2. inversion H1; constructor; done.
    + rewrite H2 in Hr. rewrite Hr in H1. inversion H1; subst. apply left_bare; [done|].
      eapply alike_trans; [by apply alike_bare|apply strip_alike].
  - destruct H3 as [H3|(-> & _)]; [|done]. rewrite H3, H2. rewrite Hr in H1. inversion H1; subst.
    apply left_gone; [done|]. by erewrite <- alike_terminal.
Qed.

(** ** Well-formed ledgers *)

(** Progress is in order, within its limits and below the next sequence, and what is missing
    of it is disclosed. *)
Record progress_ok (r : OpRecord) : Prop := {
  ok_few : length (o_progress r) ≤ MAX_PROGRESS_EVENTS;
  ok_small : (progress_payload_bytes (o_progress r) <= MAX_PROGRESS_BYTES)%N;
  ok_next : (1 <= next_progress_sequence r <= U64_MAX)%N;
  ok_ordered : windows (λ e e', (sequence e <? sequence e')%N) (o_progress r) = true;
  ok_below : Forall (λ e, (1 <= sequence e < next_progress_sequence r)%N) (o_progress r);
  ok_disclosed : progress_gap r = false →
    map (λ e, N.to_nat (sequence e)) (o_progress r) = seq 1 (N.to_nat (next_progress_sequence r) - 1);
}.

(** What a record holds in each of its states. *)
Definition state_ok (r : OpRecord) : Prop :=
  match o_state r with
  | Prepared => is_Some (operation r) ∧ invocation_id r = None ∧ cancellation r = None ∧
      outcome r = None ∧ terminal_at r = None
  | Running => operation r = None ∧ is_Some (invocation_id r) ∧ is_Some (cancellation r) ∧
      outcome r = None ∧ terminal_at r = None
  | NeverSeen | Forgotten => False
  | s => operation r = None ∧ is_Some (invocation_id r) ∧ cancellation r = None ∧
      (∀ o, outcome r = Some o → outcome_state o = s) ∧ (outcome r = None → s = Indeterminate) ∧
      is_Some (terminal_at r)
  end.

Record record_ok (id : str) (r : OpRecord) : Prop := {
  ok_id : o_preparation_id r = id;
  ok_execution : o_execution_id r = invocation_id r;
  ok_state : state_ok r;
  ok_progress : progress_ok r;
}.

Definition tombstone_ok (t : Tombstone) : Prop :=
  let m := t_progress_metadata t in
  first_retained_sequence m = None ∧ (1 <= next_sequence m)%N ∧
  (gap_before_first m = false → next_sequence m = 1%N).

Record ledger_ok (l : Ledger) : Prop := {
  ok_records : map_Forall record_ok (records l);
  ok_tombstones : Forall tombstone_ok (tombstones l);
  ok_count : length (tombstones l) ≤ MAX_TOMBSTONES;
}.

Lemma windows_tail_list {A} test (l : list A) : windows test l = true → windows test (tail l) = true.
Proof. destruct l; [done|]. apply windows_tail. Qed.

Lemma sat_total_sum l : sat_total l = N.min (foldr N.add 0 l)%N U64_MAX.
Proof.
  unfold sat_total. enough (∀ a, (a <= U64_MAX)%N →
    foldl u64_sat_add a l = N.min (a + foldr N.add 0 l)%N U64_MAX) as ->; [done|by unfold U64_MAX|].
  induction l as [|x l IH]; intros a Ha; simpl; [unfold U64_MAX in *; lia|].
  rewrite IH by apply u64_sat_add_le. unfold u64_sat_add, U64_MAX in *. lia.
Qed.

Lemma payload_suffix d p : (progress_payload_bytes p <= progress_payload_bytes (d ++ p))%N.
Proof.
  unfold progress_payload_bytes. rewrite !sat_total_sum, map_app, foldr_app.
  enough (∀ a, (a <= foldr N.add a (map (λ e, default MAX_PROGRESS_BYTES (encoded_progress e)) d))%N) as H
    by (specialize (H (foldr N.add 0 (map (λ e, default MAX_PROGRESS_BYTES (encoded_progress e)) p))%N); lia).
  intros a. induction d as [|e d IH]; simpl; [done|]. lia.
Qed.

(** Dropping the oldest events keeps progress in order, when it is disclosed. *)
Lemma progress_ok_suffix r d p c :
  o_progress r = d ++ p → progress_ok r → progress_ok (with_progress p c (next_progress_sequence r) true r).
Proof.
  intros E [H1 H2 H3 H4 H5 H6]. rewrite E in *. split; simpl.
  - rewrite length_app in H1. lia.
  - etrans; [apply (payload_suffix d)|done].
  - done.
  - by eapply windows_suffix.
  - by apply Forall_app in H5 as [_ ?].
  - done.
Qed.

Lemma drop_event_ok id r l :
  records l !! id = Some r → o_progress r ≠ [] → ledger_ok l → ledger_ok (drop_event id r l).
Proof.
  intros Hr Hp [Hl Ht Hc]. split; [|done..]. simpl. apply map_Forall_insert_2; [|done].
  destruct (Hl _ _ Hr) as [? ? ? Hpr]. split; [done..|].
  destruct (o_progress r) as [|e p] eqn:E; [done|]. by apply (progress_ok_suffix r [e] p).
Qed.

Lemma bury_ok (env : Env) id s r : progress_ok r → tombstone_ok (bury env id s r).
Proof.
  intros [_ _ H _ _ _]. split_and!; simpl; [done|lia|]. intros [_ E]%orb_false_iff.
  apply negb_false_iff, N.eqb_eq in E. done.
Qed.

Lemma forget_ok (env : Env) id s l : ledger_ok l → ledger_ok (forget env id s l).
Proof.
  intros [Hl Ht Hc]. split.
  - rewrite forget_records. by apply map_Forall_delete.
  - unfold forget. destruct (records l !! id) as [r|] eqn:E; [|done]. simpl.
    assert (tombstone_ok (bury env id s r)) as Hb by apply bury_ok, (Hl _ _ E).
    case_match; [|simpl; by apply Forall_app; split; [|apply Forall_singleton]].
    unfold pop_tombstone. simpl. destruct (tombstones l) as [|t ts]; simpl; [by apply Forall_singleton|].
    apply Forall_cons in Ht as [_ Ht]. apply Forall_app; split; [done|by apply Forall_singleton].
  - unfold forget. destruct (records l !! id) as [r|] eqn:E; [|done]. simpl.
    case_match eqn:Em; simpl.
    + unfold pop_tombstone. simpl. destruct (tombstones l) as [|t ts] eqn:Et; simpl in *; [unfold MAX_TOMBSTONES; lia|].
      rewrite length_app. simpl. lia.
    + apply Nat.eqb_neq in Em. rewrite length_app. simpl. lia.
Qed.

Lemma fewer_tombstones_ok l ts c :
  ts `suffix_of` tombstones l → ledger_ok l → ledger_ok (with_tombstones ts c l).
Proof.
  intros [d E] [Hl Ht Hc]. rewrite E in *. split; simpl; [done|by apply Forall_app in Ht as [_ ?]|].
  rewrite length_app in Hc. lia.
Qed.

Lemma drop_old_ok t ts l : ts = tombstones l → ledger_ok l → ledger_ok (drop_old t ts l).
Proof.
  revert l. induction ts as [|e ts IH]; intros l E Hl; simpl; [done|]. destruct (_ || _); [|done].
  apply IH; [done|]. destruct (fewer_tombstones_ok l ts (tombstones_capacity l)) as [? ? ?];
    [rewrite <- E; by exists [e]|done|]. by split.
Qed.

Lemma drop_over_ok ts l : ts = tombstones l → ledger_ok l → ledger_ok (drop_over ts l).
Proof.
  revert l. induction ts as [|e ts IH]; intros l E Hl; simpl; destruct (over l); try done.
  apply IH; [done|]. destruct (fewer_tombstones_ok l ts (tombstones_capacity l)) as [? ? ?];
    [rewrite <- E; by exists [e]|done|]. by split.
Qed.

Lemma drop_unnoted_ok ts l : ts = tombstones l → ledger_ok l → ledger_ok (drop_unnoted ts l).
Proof.
  revert l. induction ts as [|e ts IH]; intros l E Hl; simpl; destruct (over l); try done.
  apply IH; [done|]. destruct (fewer_tombstones_ok l ts (tombstones_capacity l)) as [? ? ?];
    [rewrite <- E; by exists [e]|done|]. by split.
Qed.

Lemma refresh_ok l : ledger_ok l → ledger_ok (refresh_bytes l).
Proof. intros [? ? ?]. by split. Qed.

Lemma prune_ok (env : Env) t l : ledger_ok l → ledger_ok (prune env t l).
Proof.
  intros Hl. unfold prune. set (ids := map fst _). apply drop_over_ok; [done|].
  apply refresh_ok, drop_old_ok; [done|]. clearbody ids. revert l Hl.
  induction ids as [|id ids IH]; intros l Hl; [done|]. simpl. by apply IH, forget_ok.
Qed.

Lemma insert_ok id r c l : record_ok id r → ledger_ok l → ledger_ok (with_records (<[id := r]> (records l)) c l).
Proof. intros Hr [Hl ? ?]. split; [|done..]. by apply map_Forall_insert_2. Qed.

Lemma bare_ok id r : is_terminal r = true → record_ok id r → record_ok id (bare r).
Proof.
  intros Ht [? ? Hs Hp]. split; [done..| |by destruct Hp; split].
  unfold is_terminal in Ht. unfold state_ok in *. simpl. destruct (o_state r); try done; naive_solver.
Qed.

Lemma strip_ok id r : is_terminal r = true → record_ok id r → record_ok id (strip r).
Proof.
  intros Ht Hr. unfold strip. pose proof (bare_ok id r Ht Hr) as [? ? Hs Hp].
  destruct (o_progress (bare r)) eqn:E; [by split|]. split; [done..|].
  apply (progress_ok_suffix (bare r) (o_progress (bare r)) []); [by rewrite app_nil_r|done].
Qed.

Lemma enforce_ceiling_ok (env : Env) id l :
  (∀ r, records l !! id = Some r → is_terminal r = true) → ledger_ok l →
  ledger_ok (enforce_ceiling env id l).
Proof.
  intros Ht Hl. unfold enforce_ceiling. set (l1 := evict_progress _ env l).
  set (l2 := forget_terminals _ env id l1). apply drop_unnoted_ok; [done|].
  assert (ledger_ok l1) as H1.
  { apply (evict_progress_keeps ledger_ok); [|done]. intros. by apply drop_event_ok. }
  assert (ledger_ok l2) as H2.
  { apply (forget_terminals_keeps ledger_ok); [|done]. intros. by apply forget_ok. }
  unfold strip_protected. destruct (over l2); [|done]. destruct (records l2 !! id) as [r|] eqn:Er; [|done].
  apply refresh_ok, insert_ok; [|done]. apply strip_ok; [|by apply H2].
  assert (records l1 !! id = Some r) as Hr1.
  { apply (forget_terminals_keeps (λ l', records l' !! id = Some r → records l1 !! id = Some r)
      (size (records l1)) env id l1); [|done|done].
    intros l' i r' H Hr' Hn _. rewrite forget_records, lookup_delete_ne by done. done. }
  pose proof (evict_progress_alike (progress_events l) env l id) as H. fold l1 in H. rewrite Hr1 in H.
  inversion H as [r0 ? Ha E E'|]; subst. rewrite (alike_terminal r0 r Ha). by apply Ht.
Qed.

(** *** Every operation keeps a ledger well-formed *)

Lemma shed_spec p g : ∀ p' g', shed p g = (p', g') → ∃ d, p = d ++ p' ∧ (d = [] ∧ g' = g ∨ g' = true) ∧
  length p' ≤ MAX_PROGRESS_EVENTS ∧ (progress_payload_bytes p' <= MAX_PROGRESS_BYTES)%N.
Proof.
  revert g. induction p as [|e p IH]; intros g p' g' H.
  - injection H as <- <-. exists []. split_and!; [done|by left|unfold MAX_PROGRESS_EVENTS; simpl; lia|done].
  - change (shed (e :: p) g) with
      (if (MAX_PROGRESS_EVENTS <? length (e :: p)) ||
          (MAX_PROGRESS_BYTES <? progress_payload_bytes (e :: p))%N then shed p true else (e :: p, g)) in H.
    destruct (_ || _) eqn:E.
    + destruct (IH true p' g' H) as (d & -> & Hg & H1 & H2). exists (e :: d).
      split_and!; [done| |done..]. right. by destruct Hg as [[_ ->]| ->].
    + injection H as <- <-. apply orb_false_iff in E as [E1%Nat.ltb_ge E2%N.ltb_ge].
      exists []. split_and!; [done|by left|done..].
Qed.

Lemma appended_ok r e :
  (next_progress_sequence r <= sequence e < U64_MAX)%N → progress_ok r →
  let p := o_progress r ++ [e] in
  let next := u64_sat_add (sequence e) 1 in
  (1 <= next <= U64_MAX)%N ∧ windows (λ e e', (sequence e <? sequence e')%N) p = true ∧
  Forall (λ e, (1 <= sequence e < next)%N) p ∧
  (progress_gap r || negb (sequence e =? next_progress_sequence r)%N = false →
   map (λ e, N.to_nat (sequence e)) p = seq 1 (N.to_nat next - 1)).
Proof.
  intros Hs [H1 H2 H3 H4 H5 H6]. unfold u64_sat_add. fold U64_MAX. rewrite N.min_l by lia. simpl. split_and!.
  - lia.
  - lia.
  - apply windows_snoc; [done|]. intros y Hy. apply N.ltb_lt.
    rewrite Forall_forall in H5. specialize (H5 y (last_Some_elem_of _ _ Hy)). lia.
  - apply Forall_app. split; [|apply Forall_singleton; lia]. eapply Forall_impl; [done|]. simpl. lia.
  - intros [Hg E%negb_false_iff%N.eqb_eq]%orb_false_iff. rewrite map_app, (H6 Hg). simpl. rewrite E.
    replace (N.to_nat (next_progress_sequence r + 1) - 1) with (S (N.to_nat (next_progress_sequence r) - 1)) by lia.
    rewrite seq_S. do 2 f_equal. lia.
Qed.

Lemma record_progress_ok id e r :
  (next_progress_sequence r <= sequence e < U64_MAX)%N → record_ok id r → record_ok id (record_progress e r).
Proof.
  intros Hs [Hi Hx Hst Hp]. unfold record_progress.
  destruct (appended_ok r e Hs Hp) as (A1 & A2 & A3 & A4).
  assert (N.max (next_progress_sequence r) (u64_sat_add (sequence e) 1) = u64_sat_add (sequence e) 1) as ->
    by (unfold u64_sat_add, U64_MAX in *; lia).
  destruct (shed _ _) as [p' g'] eqn:Esh. apply shed_spec in Esh as (d & E & Hg & H1 & H2).
  split; [done..|]. rewrite E in *. split; simpl; [done..| | |].
  - by eapply windows_suffix.
  - by apply Forall_app in A3 as [_ ?].
  - intros ->. destruct Hg as [[-> Hg]|]; [|done]. symmetry in Hg. by apply A4 in Hg.
Qed.

Lemma ended_ok id s o t iid (r : OpRecord) :
  record_ok id r → invocation_id r = Some iid → o_state r = Running →
  (s = outcome_state o → record_ok id (ended s (Some o) t r)) ∧ record_ok id (ended Indeterminate None t r).
Proof.
  intros [Hi Hx Hs Hp] Hinv Hst. unfold state_ok in Hs. rewrite Hst in Hs. destruct Hs as (Ho & ? & ? & ? & ?).
  split; [intros ->|]; (split; [done..| |by destruct Hp; split]); unfold state_ok; simpl.
  - unfold outcome_state. destruct (side_effects_possible o) eqn:E; [|destruct (kind o) eqn:Ek];
      (split_and!; [done..|intros ? [= <-]; unfold outcome_state; by rewrite E, ?Ek|done|by eexists]).
  - split_and!; [done..|by eexists].
Qed.

Lemma running_for_Some (l : Ledger) pid iid r :
  running_for l pid iid = Some r ↔
    records l !! pid = Some r ∧ invocation_id r = Some iid ∧ o_state r = Running.
Proof.
  unfold running_for. destruct (records l !! pid) as [r'|]; [|naive_solver].
  destruct (bool_decide _) eqn:E1, (bool_decide (o_state r' = Running)) eqn:E2; simpl;
    repeat first [rewrite bool_decide_eq_true in * |rewrite bool_decide_eq_false in *]; naive_solver.
Qed.

(** Ending the execution of a record, however it ends. *)
Definition ending (env : Env) (pid : str) (r' : OpRecord) (l : Ledger) : Ledger :=
  enforce_ceiling env pid (refresh_bytes (with_records (<[pid := r']> (records l)) (table_capacity l) l)).

Lemma ending_ok (env : Env) pid r' l :
  record_ok pid r' → is_terminal r' = true → ledger_ok l → ledger_ok (ending env pid r' l).
Proof.
  intros Hr Ht Hl. apply enforce_ceiling_ok; [|by apply refresh_ok, insert_ok].
  intros r. simpl. rewrite lookup_insert_eq. by intros [= <-].
Qed.

Lemma outcome_state_terminal o t (r : OpRecord) : is_terminal (ended (outcome_state o) (Some o) t r) = true.
Proof. unfold is_terminal, outcome_state. simpl. destruct (side_effects_possible o), (kind o); done. Qed.

Lemma finish_ok (env : Env) pid iid o l : ledger_ok l → ledger_ok (finish env pid iid o l).
Proof.
  intros Hl. unfold finish. destruct (running_for l pid iid) as [r|] eqn:E; [|done].
  apply running_for_Some in E as (Hr & Hi & Hs). apply (ending_ok env pid); [|apply outcome_state_terminal|done].
  eapply (ended_ok pid _ o (now env) iid r); [by apply Hl|done..].
Qed.

Lemma finish_indeterminate_ok (env : Env) pid iid l : ledger_ok l → ledger_ok (finish_indeterminate env pid iid l).
Proof.
  intros Hl. unfold finish_indeterminate. destruct (running_for l pid iid) as [r|] eqn:E; [|done].
  apply running_for_Some in E as (Hr & Hi & Hs). apply (ending_ok env pid); [|done..].
  eapply (ended_ok pid Indeterminate {| kind := OutcomeFailed; side_effects_possible := true;
    result := None; error := None |} (now env) iid r); [by apply Hl|done..].
Qed.

Lemma drop_lease_ok (env : Env) lease l : ledger_ok l → ledger_ok (drop_lease env lease l).
Proof.
  intros Hl. unfold drop_lease.
  assert (ledger_ok (finish_indeterminate env (l_preparation_id lease) (l_invocation_id lease) l)) as [? ? ?]
    by by apply finish_indeterminate_ok.
  destruct (is_some_and _ _); destruct Hl; by split.
Qed.

Lemma capture_progress_ok (env : Env) pid iid s k c l :
  (s <= U64_MAX)%N → ledger_ok l → ledger_ok (capture_progress env pid iid s k c l).
Proof.
  intros Hs64 Hl. unfold capture_progress. destruct (running_for l pid iid) as [r|] eqn:E; [|done].
  apply running_for_Some in E as (Hr & Hi & Hs).
  destruct (s <? next_progress_sequence r)%N eqn:E1; [done|]. apply N.ltb_ge in E1.
  destruct (s =? U64_MAX)%N eqn:E2; [done|]. apply N.eqb_neq in E2. cbn [orb].
  apply (evict_progress_keeps ledger_ok); [intros; by apply drop_event_ok|].
  apply refresh_ok, insert_ok; [|done]. apply record_progress_ok; [simpl; lia|by apply Hl].
Qed.

Lemma reserved_ok l b n : ledger_ok (with_reserved b n l) ↔ ledger_ok l.
Proof. split; intros [? ? ?]; by split. Qed.

Lemma reserve_ok (env : Env) b l : ledger_ok l → ledger_ok (reserve env b l).2.
Proof. intros Hl%(prune_ok env (now env)). unfold reserve. by destruct (_ || _); simpl; rewrite ?reserved_ok. Qed.

Lemma resize_reservation_ok (env : Env) t b b' l : ledger_ok l → ledger_ok (resize_reservation env t b b' l).2.
Proof.
  intros Hl%(prune_ok env t). unfold resize_reservation. by destruct (_ <? _)%N; simpl; rewrite ?reserved_ok.
Qed.

Lemma insert_reserved_ok (env : Env) r b l :
  record_ok (o_preparation_id r) r → ledger_ok l → ledger_ok (insert_reserved env r b l).2.
Proof.
  intros Hr Hl%(prune_ok env (now env)). unfold insert_reserved. destruct (_ || _); [by apply reserved_ok|].
  set (l1 := with_records _ _ (prune env (now env) l)).
  assert (ledger_ok l1) as H1 by by apply insert_ok.
  assert (ledger_ok (refresh_bytes (rollback_reservation b l1))) as [Hl2 ? ?] by by apply refresh_ok, reserved_ok.
  destruct (over _); [|by split]. split; [|done..]. simpl in *. by apply map_Forall_delete.
Qed.

Lemma started_ok id iid token r : o_state r = Prepared → record_ok id r → record_ok id (started iid token r).
Proof.
  intros Hp [? ? Hs Hpr]. unfold state_ok in Hs. rewrite Hp in Hs. destruct Hs as (? & ? & ? & ? & ?).
  split; [done..| |by destruct Hpr; split]. unfold state_ok. simpl. split_and!; [done|by eexists|by eexists|done..].
Qed.

(** What [begin] does. *)
Lemma begin_cases (env : Env) request token (l : Ledger) :
  let pruned := prune env (now env) l in
  let pid := x_preparation_id request in
  let '(answer, l') := begin env request token l in
  ledger_ok l →
  (∃ r op, records pruned !! pid = Some r ∧ o_state r = Prepared ∧ operation r = Some op ∧
    host (binding r) = x_host request ∧ (now env < expires_at r)%N ∧
    answer = Ok (Start op token
      {| l_bytes := u64_sat_add (prepared_bytes r) EXECUTION_LEASE_OVERHEAD_BYTES;
         l_preparation_id := pid; l_invocation_id := x_invocation_id request |}) ∧
    l' = refresh_bytes
      (with_running
         (u64_sat_add (running_bytes pruned) (u64_sat_add (prepared_bytes r) EXECUTION_LEASE_OVERHEAD_BYTES))
         (with_records (<[pid := started (x_invocation_id request) token r]> (records pruned))
            (table_capacity pruned) pruned))) ∨
  (l' = pruned ∧
   match answer with
   | Ok (Start _ _ _) => False
   | Ok (BeginRunning s) => ∃ r, records pruned !! pid = Some r ∧ o_state r = Running ∧
       invocation_id r = Some (x_invocation_id request) ∧ s = status_of r
   | Ok (BeginTerminal s) => ∃ r, records pruned !! pid = Some r ∧ is_terminal r = true ∧
       invocation_id r = Some (x_invocation_id request) ∧ s = status_of r
   | Err InvocationMismatch | Err EForgotten | Err NotFound | Err BindingMismatch => True
   | Err _ => False
   end).
Proof.
  intros pruned pid. destruct (begin env request token l) as [answer l'] eqn:E. intros Hl.
  pose proof (prune_ok env (now env) l Hl) as Hp. fold pruned in Hp.
  unfold begin in E. fold pruned pid in E. cbv zeta in E.
  destruct (records pruned !! pid) as [r|] eqn:Er.
  2: { injection E as <- <-. right. split; [done|]. unfold missing_for_execution.
       destruct (find_tombstone pruned pid); [|done]. by destruct (is_some_and _ _). }
  destruct (bool_decide (host (binding r) = x_host request)) eqn:Eh; cbn [negb] in E; [|by injection E as <- <-; right].
  apply bool_decide_eq_true in Eh. destruct (ok_records _ Hp _ _ Er) as [_ _ Hs _].
  destruct (invocation_id r) as [bound|] eqn:Ei.
  - destruct (bool_decide (bound = _)) eqn:Eb; cbn [negb] in E; [|by injection E as <- <-; right].
    apply bool_decide_eq_true in Eb. subst. right.
    case_bool_decide as Est; injection E as <- <-; (split; [done|]); exists r; split_and!; try done.
    unfold state_ok in Hs. unfold is_terminal. by destruct (o_state r); naive_solver.
  - assert (o_state r = Prepared) as Est.
    { unfold state_ok in Hs. destruct (o_state r); try done; destruct Hs as (_ & [? ?] & _); congruence. }
    destruct (expires_at r <=? now env)%N eqn:Ex.
    { pose proof (prune_lookup env (now env) l pid) as H. fold pruned in H. rewrite Er in H.
      destruct (records l !! pid) as [r'|]; [|done]. destruct (outlived _ r') eqn:Eo; [done|].
      injection H as <-. unfold outlived in Eo. rewrite Est, Ex in Eo.
      by rewrite bool_decide_eq_true_2 in Eo by done. }
    apply N.leb_gt in Ex. unfold state_ok in Hs. rewrite Est in Hs. destruct Hs as ([op Hop] & _).
    rewrite Hop in E. injection E as <- <-. left. by exists r, op.
Qed.

Lemma begin_ok (env : Env) request token l : ledger_ok l → ledger_ok (begin env request token l).2.
Proof.
  intros Hl. pose proof (begin_cases env request token l) as H. cbv zeta in H.
  destruct (begin env request token l) as [answer l'].
  destruct (H Hl) as [(r & op & Hr & Hst & _ & _ & _ & _ & ->)|[-> _]]; simpl; [|by apply prune_ok].
  apply (prune_ok env (now env)) in Hl. apply refresh_ok.
  destruct (insert_ok (x_preparation_id request) (started (x_invocation_id request) token r)
    (table_capacity (prune env (now env) l)) (prune env (now env) l)) as [? ? ?]; [|done|by split].
  apply started_ok; [done|]. by apply Hl.
Qed.

Lemma status_ok (env : Env) pid iid l : ledger_ok l → ledger_ok (status env pid iid l).2.
Proof.
  intros Hl%(prune_ok env (now env)). unfold status. destruct (records _ !! pid); [|done].
  by destruct (is_some_and _ _).
Qed.

Lemma release_ok (env : Env) pid iid l : ledger_ok l → ledger_ok (release env pid iid l).2.
Proof.
  intros Hl%(prune_ok env (now env)). unfold release. destruct (records _ !! pid); [|by destruct (find_tombstone _ _)].
  destruct (is_some_and _ _); [done|]. case_bool_decide; [done|]. by apply forget_ok.
Qed.

Lemma cancel_ok (env : Env) request l : ledger_ok l → ledger_ok (cancel env request l).2.
Proof.
  intros Hl%(prune_ok env (now env)). unfold cancel. destruct (records _ !! _); [|by destruct (find_tombstone _ _)].
  by destruct (negb _).
Qed.

(** ** Statuses *)

Lemma windows_contiguous l :
  (∃ a n, map (λ e, N.to_nat (sequence e)) l = seq a n) → Forall (λ e, (sequence e < U64_MAX)%N) l →
  windows (λ e e', (u64_sat_add (sequence e) 1 =? sequence e')%N) l = true.
Proof.
  intros (a & n & E). revert a n E. induction l as [|x l IH]; intros a n E H; [done|].
  destruct l as [|y l]; [done|]. destruct n as [|[|n]]; [done|done|].
  rewrite windows_cons. simpl in E. injection E as Ex Ey El. apply Forall_cons in H as [Hx H].
  rewrite (IH (S a) (S n)); [|by simpl; rewrite Ey, El|done]. rewrite andb_true_r. apply N.eqb_eq.
  unfold u64_sat_add. fold U64_MAX. lia.
Qed.

(** Progress in order passes the checks of a peer, from any point on. *)
Lemma progress_valid r after s :
  progress_ok r → progress_metadata s = metadata_of r →
  progress s = filter (λ e, (after <= sequence e)%N) (o_progress r) → status_valid s = true.
Proof.
  intros [H1 H2 H3 H4 H5 H6] Hm Hp.
  assert (∃ d, o_progress r = d ++ progress s) as [d Hd].
  { rewrite Hp. clear -H4. induction (o_progress r) as [|e p IH]; [by exists []|].
    destruct IH as [d Hd]; [by eapply windows_tail|]. rewrite filter_cons. case_decide as Ha.
    - exists []. simpl. f_equal. clear Hd. revert e Ha H4.
      induction p as [|e' p IH]; intros e Ha H4; [done|]. rewrite windows_cons in H4.
      apply andb_prop in H4 as [Hlt%N.ltb_lt H4]. rewrite filter_cons, decide_True by lia. f_equal.
      apply (IH e'); [lia|done].
    - exists (e :: d). simpl. by rewrite <- Hd. }
  unfold status_valid. rewrite Hm. unfold metadata_of; cbn [first_retained_sequence next_sequence gap_before_first].
  rewrite Hd in H1, H4, H5, H6. rewrite Hd.
  apply windows_suffix in H4 as Hw. apply Forall_app in H5 as [Hbd Hb].
  assert (length (progress s) <=? MAX_PROGRESS_EVENTS = true) as ->.
  { apply Nat.leb_le. rewrite length_app in H1. lia. }
  assert (∀ e, head (d ++ progress s) = Some e → (1 <= sequence e < next_progress_sequence r)%N) as Hhead.
  { intros e He. assert (e ∈ d ++ progress s) as Hin
      by (destruct (d ++ progress s) as [|e0 p0]; [done|]; injection He as ->; by left).
    apply elem_of_app in Hin as [Hin|Hin]; [by apply (proj1 (Forall_forall _ _) Hbd)|by apply (proj1 (Forall_forall _ _) Hb)]. }
  rewrite Hw. rewrite (proj2 (N.eqb_neq _ 0)) by lia. simpl.
  assert (is_some_and (λ e, (next_progress_sequence r <=? sequence e)%N) (last (progress s)) = false) as ->.
  { destruct (last (progress s)) as [e|] eqn:El; [|done]. simpl. apply N.leb_gt.
    apply (proj1 (Forall_forall _ _) Hb), (last_Some_elem_of _ _ El). }
  assert (is_some_and (λ first, (first =? 0)%N || (next_progress_sequence r <=? first)%N)
    (option_map sequence (head (d ++ progress s))) = false) as ->.
  { destruct (head (d ++ progress s)) as [e|] eqn:Eh; [|done]. simpl. specialize (Hhead e eq_refl).
    apply orb_false_iff. rewrite N.eqb_neq, N.leb_gt. lia. }
  simpl.
  assert (is_some_and (λ e, is_none_or (λ first, (sequence e <? first)%N)
    (option_map sequence (head (d ++ progress s)))) (head (progress s)) = false) as ->.
  { destruct (progress s) as [|e p] eqn:Ep; [done|]. destruct d as [|e0 d]; simpl; [by apply N.ltb_irrefl|].
    apply N.ltb_ge. clear -H4. revert e0 H4. induction d as [|e1 d IH]; intros e0 H4; simpl in *;
      apply andb_prop in H4 as [Hlt%N.ltb_lt H4]; [lia|]. specialize (IH e1 H4). lia. }
  simpl. destruct (progress_gap r) eqn:Eg; [by rewrite orb_true_r|]. rewrite orb_false_r.
  specialize (H6 eq_refl). apply andb_true_intro. split.
  - destruct (head (d ++ progress s)) as [e|] eqn:Eh; simpl.
    + destruct (d ++ progress s) as [|e' p]; [done|]. injection Eh as ->.
      destruct (N.to_nat (next_progress_sequence r) - 1) as [|n]; [done|]. simpl in H6. injection H6 as H6 _.
      apply N.eqb_eq. lia.
    + destruct (d ++ progress s); [|done]. apply N.eqb_eq. simpl in H6.
      destruct (N.to_nat (next_progress_sequence r) - 1) as [|n] eqn:En; [lia|done].
  - apply windows_contiguous; [|eapply Forall_impl; [exact Hb|simpl; lia]].
    rewrite map_app in H6. exists (1 + length d), (length (progress s)).
    assert (length d + length (progress s) = N.to_nat (next_progress_sequence r) - 1) as Hlen.
    { apply (f_equal length) in H6. by rewrite length_app, !length_map, length_seq in H6. }
    rewrite <- Hlen, seq_app in H6.
    apply app_inj_1 in H6 as [_ H6]; [done|]. by rewrite length_map, length_seq.
Qed.
End ledger.

Section host.
Context `{ME : Memory} {Op : Type} (op_bytes : Op → N) (this : HostBinding).
Notation Ledger := (Ledger Op).
Notation OpRecord := (OpRecord Op).
Notation Env := (Env Op).
Notation Call := (Call (Op := Op)).
Notation Answer := (Answer (Op := Op)).
Notation Host := (Host (Op := Op)).
Notation serve := (serve op_bytes this).
Notation serve_all := (serve_all op_bytes this).

(** A sequence number is a [u64]. *)
Definition typed (call : Call) : Prop :=
  match call with Progress _ _ s _ _ => (s <= U64_MAX)%N | _ => True end.

Lemma new_record_ok (env : Env) pid op b : record_ok pid (new_record op_bytes env pid op b).
Proof.
  split; [done..| |].
  - split_and!; [by eexists|done..].
  - split; simpl; try done. unfold MAX_PROGRESS_EVENTS. lia.
Qed.

Lemma prepare_reserved_ok (env : Env) uuid b op bd intent l :
  ledger_ok l → ledger_ok (prepare_reserved op_bytes env uuid b op bd intent l).2.
Proof.
  intros Hl. unfold prepare_reserved. destruct (negb _); [by apply reserved_ok|].
  destruct (Identifier_new _) as [pid|]; [|by apply reserved_ok].
  destruct (_ <? _)%N; [by apply reserved_ok|].
  set (r := new_record op_bytes env pid op bd).
  pose proof (resize_reservation_ok env (later env) b (reservation_bytes r) l Hl) as H1.
  destruct (resize_reservation _ _ _ _ _) as [[[]|e] l1]; simpl in H1; [|by apply reserved_ok].
  pose proof (insert_reserved_ok env r (reservation_bytes r) l1 (new_record_ok env pid op bd) H1) as H2.
  by destruct (insert_reserved _ _ _ _) as [[[]|e] l2].
Qed.

Lemma host_begin_ok (env : Env) request token l : ledger_ok l → ledger_ok (host_begin this env request token l).2.
Proof. intros. unfold host_begin. destruct (validate_host _ _); [by apply begin_ok|done]. Qed.

Lemma status_after_ok (env : Env) request l : ledger_ok l → ledger_ok (status_after this env request l).2.
Proof.
  intros Hl. unfold status_after.
  assert (ledger_ok (host_status this env (sel_preparation_id (selector request))
    (sel_invocation_id (selector request)) (sel_host (selector request)) l).2) as H.
  { unfold host_status. destruct (negb _); [done|]. destruct (negb _); [done|].
    destruct (validate_host _ _); [by apply status_ok|done]. }
  destruct (host_status _ _ _ _ _ _) as [[s|e] l']; [|done].
  destruct (after_sequence request); [|done]. by destruct (_ || _).
Qed.

Lemma serve_ok (env : Env) call (h : Host) :
  typed call → ledger_ok (ledger h) → ledger_ok (ledger (serve env call h).2).
Proof.
  intros Ht Hl. destruct call; cbn [RemoteHost.serve].
  - unfold serve_reserve. pose proof (reserve_ok env b _ Hl) as H. by destruct (reserve _ _ _) as [[]].
  - unfold serve_abandon. destruct (held h !! _); [by apply reserved_ok|done].
  - unfold serve_prepare. destruct (held h !! _) as [n|]; [|done].
    pose proof (prepare_reserved_ok env uuid n op b intent _ Hl) as H. by destruct (prepare_reserved _ _ _ _ _ _ _ _).
  - unfold serve_begin. pose proof (host_begin_ok env request (tokens h) _ Hl) as H.
    by destruct (host_begin _ _ _ _ _) as [[[]|]].
  - simpl. unfold host_capture_progress. destruct (Identifier_new k); [|done].
    destruct (ProgressChunkText_new message); [|done]. by apply capture_progress_ok.
  - by apply finish_ok.
  - by apply finish_indeterminate_ok.
  - unfold serve_drop. destruct (leases h !! _); [by apply drop_lease_ok|done].
  - pose proof (status_after_ok env request _ Hl) as H. by destruct (status_after _ _ _ _).
  - unfold host_release. destruct (validate_host _ _); [|done].
    pose proof (release_ok env pid iid _ Hl) as H. by destruct (release _ _ _ _).
  - unfold serve_cancel, host_cancel. destruct (validate_host _ _); [|done].
    pose proof (cancel_ok env request _ Hl) as H. by destruct (cancel _ _ _) as [[]].
Qed.

Lemma serve_all_ok calls (h : Host) :
  Forall (λ c, typed c.2) calls → ledger_ok (ledger h) → ledger_ok (ledger (serve_all calls h).2).
Proof.
  revert h. induction calls as [|[env call] calls IH]; intros h; [done|].
  intros [Ht Hts]%Forall_cons Hl. simpl. pose proof (serve_ok env call h Ht Hl) as H.
  destruct (serve env call h) as [a h1]. specialize (IH h1 Hts H). by destruct (serve_all calls h1).
Qed.

Lemma new_host_ok : ledger_ok (ledger (new_host (Op := Op))).
Proof. split; simpl; [apply map_Forall_empty|done|lia]. Qed.

(** *** Answers *)

Definition answer_valid (a : Answer) : Prop :=
  match a with
  | AStatus (Ok s) | ABegin (Ok (BeginRunning s)) | ABegin (Ok (BeginTerminal s)) => status_valid s = true
  | _ => True
  end.

Lemma filter_everything (p : list ProgressEvent) : filter (λ e, (0 <= sequence e)%N) p = p.
Proof. induction p as [|e p IH]; [done|]. rewrite filter_cons, decide_True by lia. by f_equal. Qed.

Lemma status_of_valid id (r : OpRecord) : record_ok id r → status_valid (status_of r) = true.
Proof.
  intros [_ _ _ Hp]. apply (progress_valid r 0); [done..|]. by rewrite filter_everything.
Qed.

(** The progress of a status: all, or what a client has not seen. *)
Definition seen_after (after : option N) (p : list ProgressEvent) : list ProgressEvent :=
  match after with None => p | Some after => filter (fun e => (after < sequence e)%N) p end.

Lemma seen_after_filter after p : ∃ n, seen_after after p = filter (λ e, (n <= sequence e)%N) p.
Proof.
  destruct after as [after|]; simpl; [|exists 0%N; by rewrite filter_everything].
  exists (after + 1)%N. apply list_filter_iff. intros e. lia.
Qed.

Lemma status_valid_after (env : Env) pid iid after (l : Ledger) s l' :
  ledger_ok l → status env pid iid l = (Ok s, l') →
  status_valid (with_events (seen_after after (progress s)) s) = true.
Proof.
  intros Hl%(prune_ok env (now env)). unfold status. destruct (seen_after_filter after (progress s)) as [n Hn].
  destruct (records _ !! pid) as [r|] eqn:Er.
  - destruct (is_some_and _ _); [done|]. intros [= <- _].
    destruct (ok_records _ Hl _ _ Er) as [_ _ _ Hp]. apply (progress_valid r n); done.
  - destruct (find_tombstone _ pid) as [t|] eqn:Et.
    + unfold tombstone_status. destruct (validate_invocation t iid) as [[]|]; [|done]. intros [= <- _].
      unfold find_tombstone in Et. apply fmap_Some in Et as ([i t'] & Ht & ->).
      apply list_find_Some in Ht as (Ht%list_elem_of_lookup_2 & _).
      pose proof (proj1 (Forall_forall _ _) (ok_tombstones _ Hl) _ Ht) as (H1 & H2 & H3).
      simpl in *. assert (seen_after after [] = []) as -> by by destruct after.
      unfold status_valid. simpl. rewrite H1. simpl. rewrite (proj2 (N.eqb_neq _ 0)) by lia. simpl.
      destruct (gap_before_first _); [by rewrite orb_true_r|]. by rewrite H3.
    + intros [= <- _]. simpl. assert (seen_after after [] = []) as -> by by destruct after. done.
Qed.

Lemma serve_answer_valid (env : Env) call (h : Host) :
  ledger_ok (ledger h) → answer_valid (serve env call h).1.
Proof.
  intros Hl. destruct call; cbn [RemoteHost.serve].
  - unfold serve_reserve. by destruct (reserve _ _ _) as [[]].
  - unfold serve_abandon. by destruct (held h !! _).
  - unfold serve_prepare. destruct (held h !! _); [|done]. by destruct (prepare_reserved _ _ _ _ _ _ _ _).
  - unfold serve_begin, host_begin. destruct (validate_host _ _); [|done].
    pose proof (begin_cases env request (tokens h) (ledger h)) as H. cbv zeta in H.
    destruct (begin env request (tokens h) (ledger h)) as [answer l'].
    apply (prune_ok env (now env)) in Hl as Hp.
    destruct (H Hl) as [(r & op & _ & _ & _ & _ & _ & -> & _)|[_ Ha]]; [done|].
    destruct answer as [[]|e]; simpl in *; [done| | |done]; destruct Ha as (r & Hr & _ & _ & ->);
      eapply status_of_valid, Hp, Hr.
  - done.
  - done.
  - done.
  - unfold serve_drop. by destruct (leases h !! _).
  - unfold status_after, host_status. destruct (negb _); [done|]. destruct (negb _).
    { destruct (after_sequence request); [|done]. by destruct (_ || _). }
    destruct (validate_host _ _); [|done].
    destruct (status _ _ _ _) as [[s|e] l'] eqn:Es; [|done]. simpl.
    pose proof (status_valid_after env _ _ (after_sequence request) _ _ _ Hl Es) as H.
    destruct (after_sequence request) as [after|]; [|by destruct s]. by destruct (_ || _).
  - unfold host_release. destruct (validate_host _ _); [|done]. by destruct (release _ _ _ _).
  - unfold serve_cancel. by destruct (host_cancel _ _ _ _) as [[]].
Qed.

Lemma serve_all_valid calls (h : Host) :
  Forall (λ c, typed c.2) calls → ledger_ok (ledger h) → Forall answer_valid (serve_all calls h).1.
Proof.
  revert h. induction calls as [|[env call] calls IH]; intros h; [done|].
  intros [Ht Hts]%Forall_cons Hl. simpl. pose proof (serve_ok env call h Ht Hl) as H.
  pose proof (serve_answer_valid env call h Hl) as Ha.
  destruct (serve env call h) as [a h1]. specialize (IH h1 Hts H). destruct (serve_all calls h1). by constructor.
Qed.

(** ** The life of an operation *)

(** The identifier a preparation is given. *)
Definition prep_id (uuid : str) : str := lit "prep_" ++ uuid.

(** Calls that end an execution: of the operation they name, or of another. *)
Definition ends (h : Host) (call : Call) (pid : str) (iid : str) : Prop :=
  match call with
  | FinishIndeterminate p i => p = pid ∧ i = iid
  | DropLease k => ∃ lease, leases h !! k = Some lease ∧ l_preparation_id lease = pid ∧ l_invocation_id lease = iid
  | _ => False
  end.
Definition ending_call (call : Call) : bool :=
  match call with Finish _ _ _ | FinishIndeterminate _ _ | DropLease _ => true | _ => false end.

(** What one call may do to the record of one operation. *)
Inductive fate (env : Env) (h : Host) (call : Call) (pid : str) : option OpRecord → option OpRecord → Prop :=
(** It stays as it is, its progress apart. *)
| fate_absent : fate env h call pid None None
| fate_kept r r' : alike r r' → fate env h call pid (Some r) (Some r')
(** It is prepared. *)
| fate_prepared k uuid op b intent :
    call = Prepare k uuid op b intent → pid = prep_id uuid →
    fate env h call pid None (Some (new_record op_bytes env pid op b))
(** It starts: it waited, the request is bound to its host, and it has not expired. *)
| fate_started request op token r :
    call = Begin request → x_preparation_id request = pid → o_state r = Prepared → operation r = Some op →
    host (binding r) = x_host request → x_host request = this → (now env < expires_at r)%N →
    fate env h call pid (Some r) (Some (started (x_invocation_id request) token r))
(** It ends with its outcome, which the ceiling may take. *)
| fate_finished iid o r r' :
    call = Finish pid iid o → o_state r = Running → invocation_id r = Some iid →
    alike (ended (outcome_state o) (Some o) (now env) r) r' ∨ alike (ended Indeterminate None (now env) r) r' →
    fate env h call pid (Some r) (Some r')
(** It ends without one. *)
| fate_lost iid r r' :
    ends h call pid iid → o_state r = Running → invocation_id r = Some iid →
    alike (ended Indeterminate None (now env) r) r' → fate env h call pid (Some r) (Some r')
(** It is forgotten: not in time to start, long after it ended, released while it was not
    running, or ended and crowded out by the end of another. *)
| fate_outlived r t : t = now env ∨ t = later env → outlived t r = true → fate env h call pid (Some r) None
| fate_released iid b r : call = Release pid iid b → o_state r ≠ Running → fate env h call pid (Some r) None
| fate_crowded r : ending_call call = true → is_terminal r = true → fate env h call pid (Some r) None.

(** No record has the identifier a preparation is given. *)
Definition unused (l : Ledger) (call : Call) : Prop :=
  match call with Prepare _ uuid _ _ _ => records l !! prep_id uuid = None | _ => True end.

Lemma fate_same env h call pid o : fate env h call pid o o.
Proof. destruct o; [by apply fate_kept, alike_refl|constructor]. Qed.

Lemma fate_prune env h call pid t (l : Ledger) :
  t = now env ∨ t = later env → fate env h call pid (records l !! pid) (records (prune env t l) !! pid).
Proof.
  intros Ht. rewrite prune_lookup. destruct (records l !! pid) as [r|]; [|constructor].
  destruct (outlived t r) eqn:E; [by eapply fate_outlived|by apply fate_kept, alike_refl].
Qed.

(** A prune first, then anything that keeps what is absent. *)
Lemma fate_after_prune env h call pid t (l : Ledger) o :
  t = now env ∨ t = later env →
  fate env h call pid (records (prune env t l) !! pid) o → (records (prune env t l) !! pid = None → o = None) →
  fate env h call pid (records l !! pid) o.
Proof.
  intros Ht Hf Hn. rewrite prune_lookup in *. destruct (records l !! pid) as [r|]; [|done].
  destruct (outlived t r) eqn:E; [|done]. rewrite Hn by done. by eapply fate_outlived.
Qed.

Lemma ending_fate env h call pid pid' iid r r' t s o (l : Ledger) :
  ending_call call = true →
  records l !! pid = Some r → invocation_id r = Some iid → o_state r = Running →
  r' = ended s o t r → is_terminal r' = true →
  (∀ r'', alike r' r'' ∨ alike (ended Indeterminate None t r) r'' → fate env h call pid (Some r) (Some r'')) →
  fate env h call pid' (records l !! pid') (records (ending env pid r' l) !! pid').
Proof.
  intros He Hr Hi Hs -> Ht Hf. unfold ending.
  set (l1 := refresh_bytes _).
  pose proof (enforce_ceiling_left env pid l1 pid') as H. simpl in H.
  destruct (decide (pid' = pid)) as [->|Hn].
  - rewrite lookup_insert_eq in H. rewrite Hr. inversion H; subst; [by apply Hf; left|by apply Hf; right|done].
  - rewrite lookup_insert_ne in H by done. inversion H; subst; try done; by constructor.
Qed.

Lemma finish_fate env h pid pid' iid o (l : Ledger) :
  fate env h (Finish pid iid o) pid' (records l !! pid') (records (finish env pid iid o l) !! pid').
Proof.
  unfold finish. destruct (running_for l pid iid) as [r|] eqn:E; [|apply fate_same].
  apply running_for_Some in E as (Hr & Hi & Hs).
  eapply (ending_fate env h _ pid pid' iid r); [done..|apply outcome_state_terminal|].
  intros r'' Ha. by eapply fate_finished.
Qed.

Lemma finish_indeterminate_fate env h call pid pid' iid (l : Ledger) :
  ending_call call = true → ends h call pid iid →
  fate env h call pid' (records l !! pid') (records (finish_indeterminate env pid iid l) !! pid').
Proof.
  intros Hc He. unfold finish_indeterminate. destruct (running_for l pid iid) as [r|] eqn:E; [|apply fate_same].
  apply running_for_Some in E as (Hr & Hi & Hs).
  eapply (ending_fate env h _ pid pid' iid r); [done..|].
  intros r'' Ha. eapply fate_lost; [done..|]. by destruct Ha.
Qed.

Lemma capture_progress_fate env h call pid pid' iid s k c (l : Ledger) :
  fate env h call pid' (records l !! pid') (records (capture_progress env pid iid s k c l) !! pid').
Proof.
  unfold capture_progress. destruct (running_for l pid iid) as [r|] eqn:E; [|apply fate_same].
  apply running_for_Some in E as (Hr & Hi & Hs). destruct (_ || _); [apply fate_same|].
  set (e := {| execution_id := iid; sequence := s; p_kind := k; chunk := c |}). set (l1 := refresh_bytes _).
  pose proof (evict_progress_alike (progress_events l1) env l1 pid') as H. simpl in H.
  destruct (decide (pid' = pid)) as [->|Hn].
  - rewrite lookup_insert_eq in H. rewrite Hr. inversion H; subst. apply fate_kept.
    eapply alike_trans; [|done]. unfold record_progress. destruct (shed _ _). do 4 eexists. done.
  - rewrite lookup_insert_ne in H by done. destruct (records l !! pid'); inversion H; subst; [by apply fate_kept|constructor].
Qed.

Lemma insert_reserved_lookup (env : Env) r b (l : Ledger) id :
  let '(answer, l') := insert_reserved env r b l in
  let pruned := prune env (now env) l in
  (answer = Ok tt ∧ records l' !! id = <[o_preparation_id r := r]> (records pruned) !! id) ∨
  (answer = Err QuotaExceeded ∧
     (records l' !! id = records pruned !! id ∨ records l' !! id = delete (o_preparation_id r) (records pruned) !! id)).
Proof.
  unfold insert_reserved. destruct (_ || _); [by right; split; [|left]|].
  destruct (over _); simpl; [right|by left]. split; [done|right]. by rewrite delete_insert_eq.
Qed.

Lemma prepare_fate env h k uuid op b intent reserved pid (l : Ledger) :
  unused l (Prepare k uuid op b intent) →
  fate env h (Prepare k uuid op b intent) pid (records l !! pid)
    (records (prepare_reserved op_bytes env uuid reserved op b intent l).2 !! pid).
Proof.
  intros Hu. unfold prepare_reserved. destruct (negb _); [apply fate_same|].
  destruct (Identifier_new (lit "prep_" ++ uuid)) as [new|] eqn:Eid; [|apply fate_same].
  assert (new = prep_id uuid) as ->.
  { unfold Identifier_new in Eid. destruct (Records.validate_opaque_string _ _); [|done]. by injection Eid as <-. }
  destruct (_ <? _)%N; [apply fate_same|].
  set (r := new_record op_bytes env (prep_id uuid) op b). unfold resize_reservation.
  set (l1 := prune env (later env) l). set (l2 := with_reserved _ _ l1).
  set (l3 := prune env (now env) l2).
  assert (records l1 !! prep_id uuid = None) as E1 by (unfold l1; by rewrite prune_lookup, Hu).
  assert (records l3 !! prep_id uuid = None) as E3 by (unfold l3; by rewrite prune_lookup; simpl; rewrite E1).
  assert (∀ o, pid ≠ prep_id uuid → o = records l3 !! pid →
    fate env h (Prepare k uuid op b intent) pid (records l !! pid) o) as H3.
  { intros o _ ->. apply (fate_after_prune env h _ pid (later env) l); [by right| |].
    - fold l1. change (records l1 !! pid) with (records l2 !! pid).
      apply fate_prune. by left.
    - fold l1. intros E. unfold l3. rewrite prune_lookup. simpl. by rewrite E. }
  pose proof (insert_reserved_lookup env r (reservation_bytes r) l2 pid) as H. fold l3 in H.
  change (o_preparation_id r) with (prep_id uuid) in H.
  destruct (decide (pid = prep_id uuid)) as [->|Hn].
  - simpl in Hu. rewrite Hu. destruct (_ <? _)%N; [simpl; rewrite E1; constructor|].
    destruct (insert_reserved env r (reservation_bytes r) l2) as [answer l4]. cbv zeta in H.
    destruct H as [[-> H]|[-> [H|H]]]; simpl; rewrite H.
    + rewrite lookup_insert_eq. by eapply fate_prepared.
    + rewrite E3. constructor.
    + rewrite lookup_delete_eq. constructor.
  - destruct (_ <? _)%N; [apply fate_prune; by right|].
    destruct (insert_reserved env r (reservation_bytes r) l2) as [answer l4]. cbv zeta in H.
    rewrite lookup_insert_ne, lookup_delete_ne in H by done.
    destruct H as [[-> H]|[-> [H|H]]]; by apply H3.
Qed.

Lemma begin_fate env h request pid token (l : Ledger) :
  ledger_ok l → x_host request = this →
  fate env h (Begin request) pid (records l !! pid) (records (begin env request token l).2 !! pid).
Proof.
  intros Hl Hh. pose proof (begin_cases env request token l) as H. cbv zeta in H.
  destruct (begin env request token l) as [answer l'].
  destruct (H Hl) as [(r & op & Hr & Hs & Hop & Hb & Hx & _ & ->)|[-> _]]; simpl; [|apply fate_prune; by left].
  apply (fate_after_prune env h _ pid (now env) l); [by left| |].
  - destruct (decide (pid = x_preparation_id request)) as [->|Hn].
    + rewrite lookup_insert_eq, Hr. by eapply fate_started.
    + rewrite lookup_insert_ne by done. apply fate_same.
  - intros E. destruct (decide (pid = x_preparation_id request)) as [->|Hn]; [congruence|].
    by rewrite lookup_insert_ne.
Qed.

Lemma release_fate env h pid pid' iid b (l : Ledger) :
  fate env h (Release pid iid b) pid' (records l !! pid') (records (release env pid iid l).2 !! pid').
Proof.
  unfold release. set (l1 := prune env (now env) l).
  assert (fate env h (Release pid iid b) pid' (records l !! pid') (records l1 !! pid')) as H1
    by (apply fate_prune; by left).
  destruct (records l1 !! pid) as [r|] eqn:Er; [|by destruct (find_tombstone _ _)].
  destruct (is_some_and _ _); [done|]. case_bool_decide as Hs; [done|]. cbn [snd]. rewrite forget_records.
  destruct (decide (pid' = pid)) as [->|Hn]; [|by rewrite lookup_delete_ne].
  rewrite lookup_delete_eq. apply (fate_after_prune env h _ pid (now env) l); [by left| |done].
  fold l1. rewrite Er. by eapply fate_released.
Qed.

Lemma validate_host_this h : validate_host this h = Ok tt → h = this.
Proof.
  unfold validate_host. destruct (negb _); [done|]. destruct (negb _); [done|].
  destruct (bool_decide (h = this)) eqn:E; [|done]. by apply bool_decide_eq_true in E.
Qed.

Lemma serve_fate env call h pid :
  ledger_ok (ledger h) → unused (ledger h) call →
  fate env h call pid (records (ledger h) !! pid) (records (ledger (serve env call h).2) !! pid).
Proof.
  intros Hl Hu. destruct call; cbn [RemoteHost.serve].
  - unfold serve_reserve, reserve.
    pose proof (fate_prune env h (Reserve b) pid (now env) (ledger h) (or_introl eq_refl)) as H.
    by destruct (_ || _).
  - unfold serve_abandon. destruct (held h !! _); apply fate_same.
  - unfold serve_prepare. destruct (held h !! _) as [reserved|]; [|apply fate_same].
    pose proof (prepare_fate env h reservation uuid op b intent reserved pid _ Hu) as H.
    by destruct (prepare_reserved _ _ _ _ _ _ _ _).
  - unfold serve_begin, host_begin. destruct (validate_host this (x_host request)) as [[]|e] eqn:Eh; [|apply fate_same].
    pose proof (begin_fate env h request pid (tokens h) _ Hl (validate_host_this _ Eh)) as H.
    by destruct (begin _ _ _ _) as [[[]|]].
  - simpl. unfold host_capture_progress. destruct (Identifier_new k); [|apply fate_same].
    destruct (ProgressChunkText_new message); [|apply fate_same]. apply capture_progress_fate.
  - apply finish_fate.
  - by apply finish_indeterminate_fate.
  - unfold serve_drop. destruct (leases h !! lease) as [le|] eqn:El; [|apply fate_same]. simpl.
    unfold drop_lease. destruct (is_some_and _ _); [|apply fate_same].
    apply finish_indeterminate_fate; [done|]. by exists le.
  - unfold status_after, host_status. destruct (negb _); [apply fate_same|].
    destruct (negb _); [destruct (after_sequence request); [destruct (_ || _)|]; apply fate_same|].
    destruct (validate_host _ _); [|apply fate_same].
    assert (records (status env (sel_preparation_id (selector request)) (sel_invocation_id (selector request))
      (ledger h)).2 = records (prune env (now env) (ledger h))) as Hs.
    { unfold status. destruct (records _ !! _); [by destruct (is_some_and _ _)|done]. }
    pose proof (fate_prune env h (Status request) pid (now env) (ledger h) (or_introl eq_refl)) as H.
    destruct (status _ _ _ _) as [[s|e] l']; simpl in Hs; rewrite <- Hs in H; [|done].
    destruct (after_sequence request); [by destruct (_ || _)|done].
  - unfold host_release. destruct (validate_host _ _); [|apply fate_same].
    pose proof (release_fate env h pid0 pid iid h0 (ledger h)) as H. by destruct (release _ _ _ _).
  - unfold serve_cancel, host_cancel. destruct (validate_host _ _); [|apply fate_same].
    assert (records (cancel env request (ledger h)).2 = records (prune env (now env) (ledger h))) as Hs.
    { unfold cancel. destruct (records _ !! _); [by destruct (negb _)|by destruct (find_tombstone _ _)]. }
    pose proof (fate_prune env h (Cancel request) pid (now env) (ledger h) (or_introl eq_refl)) as H.
    destruct (cancel _ _ _) as [[r t] l']; simpl in *. by rewrite Hs.
Qed.

(** ** Histories *)

(** The identifiers preparations are given are unlike each other. *)
Definition uuid_of (call : Call) : option str :=
  match call with Prepare _ uuid _ _ _ => Some uuid | _ => None end.
Definition uuids (calls : list (Env * Call)) : list str := omap (λ c, uuid_of c.2) calls.

(** No record yet has an identifier still to be given. *)
Definition to_come (calls : list (Env * Call)) (l : Ledger) : Prop :=
  ∀ uuid, uuid ∈ uuids calls → records l !! prep_id uuid = None.

Lemma prep_id_inj uuid uuid' : prep_id uuid = prep_id uuid' → uuid = uuid'.
Proof. unfold prep_id. by intros ?%app_inv_head. Qed.

Lemma fate_None env h call pid o :
  fate env h call pid None o → o = None ∨ ∃ uuid, uuid_of call = Some uuid ∧ pid = prep_id uuid.
Proof. inversion 1; subst; [by left|]. right. by eexists. Qed.

Lemma to_come_step env call calls h :
  ledger_ok (ledger h) → NoDup (uuids ((env, call) :: calls)) → to_come ((env, call) :: calls) (ledger h) →
  unused (ledger h) call ∧ NoDup (uuids calls) ∧ to_come calls (ledger (serve env call h).2).
Proof.
  intros Hl Hn Hc. unfold uuids in Hn. simpl in Hn. fold (uuids calls) in Hn.
  assert (unused (ledger h) call) as Hu.
  { destruct call; try done. apply Hc. unfold uuids. simpl. by left. }
  split; [done|].
  assert (NoDup (uuids calls) ∧ ∀ uuid, uuid_of call = Some uuid → uuid ∉ uuids calls) as [Hnd Hni].
  { destruct (uuid_of call) as [u|]; [|done]. apply NoDup_cons in Hn as [??]. split; [done|]. by intros ? [= <-]. }
  split; [done|]. intros uuid Hin. pose proof (serve_fate env call h (prep_id uuid) Hl Hu) as H.
  rewrite (Hc uuid) in H.
  - apply fate_None in H as [->|(u & Hu' & E%prep_id_inj)]; [done|]. subst. by destruct (Hni u).
  - unfold uuids. simpl. destruct (uuid_of call); [by right|done].
Qed.

Lemma uuids_fresh env call calls uuid : 
  NoDup (uuids ((env, call) :: calls)) → uuid_of call = Some uuid → uuid ∉ uuids calls.
Proof. unfold uuids. simpl. intros H E. rewrite E in H. by apply NoDup_cons in H as [? _]. Qed.

(** Whether an answer starts an operation. *)
Definition starts (pid : str) (a : Answer) : bool :=
  match a with
  | ABegin (Ok (Start _ _ lease)) => bool_decide (l_preparation_id lease = pid)
  | _ => false
  end.

(** The operation of a record was given out. *)
Definition spent (l : Ledger) (pid : str) : Prop := ∀ r, records l !! pid = Some r → operation r = None.

Lemma start_answer env call h pid :
  ledger_ok (ledger h) → starts pid (serve env call h).1 = true →
  ∃ request op token lease r,
    call = Begin request ∧ x_preparation_id request = pid ∧ x_host request = this ∧
    (serve env call h).1 = ABegin (Ok (Start op token lease)) ∧
    records (ledger h) !! pid = Some r ∧ operation r = Some op ∧ host (binding r) = this ∧
    spent (ledger (serve env call h).2) pid.
Proof.
  intros Hl. destruct call; cbn [RemoteHost.serve];
    try (intros H; exfalso; revert H;
      unfold serve_reserve, serve_abandon, serve_prepare, serve_drop, serve_cancel;
      repeat case_match; done).
  unfold serve_begin, host_begin. destruct (validate_host this (x_host request)) as [[]|] eqn:Eh; [|done].
  apply validate_host_this in Eh. pose proof (begin_cases env request (tokens h) (ledger h)) as H. cbv zeta in H.
  destruct (begin env request (tokens h) (ledger h)) as [answer l'].
  destruct (H Hl) as [(r & op & Hr & Hs & Hop & Hb & Hx & -> & ->)|[-> Ha]].
  - simpl. intros <-%bool_decide_eq_true. exists request, op, (tokens h). eexists. exists r. clear H.
    split_and!; [done..| |done|congruence|].
    + rewrite prune_lookup in Hr. destruct (records (ledger h) !! _); [|done]. by destruct (outlived _ _).
    + intros r'. simpl. rewrite lookup_insert_eq. by intros [= <-].
  - destruct answer as [[]|]; done.
Qed.

Lemma fate_spent env h call pid l l' :
  fate env h call pid (records l !! pid) (records l' !! pid) →
  (∀ uuid, uuid_of call = Some uuid → pid ≠ prep_id uuid) → spent l pid → spent l' pid.
Proof.
  intros Hf Hu Hs r' Hr'. rewrite Hr' in Hf. inversion Hf as [|r r0 Ha E|? ? ? ? ? Hc Hp| | | | | |]; subst.
  - destruct Ha as (? & ? & ? & ? & ->). simpl. by apply Hs.
  - by destruct (Hu uuid).
  - done.
  - match goal with H : _ ∨ _ |- _ => destruct H as [(? & ? & ? & ? & ->)|(? & ? & ? & ? & ->)] end; simpl; by apply Hs.
  - match goal with H : alike _ _ |- _ => destruct H as (? & ? & ? & ? & ->) end. simpl. by apply Hs.
Qed.

Lemma spent_step env call calls h pid :
  ledger_ok (ledger h) → NoDup (uuids ((env, call) :: calls)) → to_come ((env, call) :: calls) (ledger h) →
  (∀ uuid, uuid ∈ uuids ((env, call) :: calls) → pid ≠ prep_id uuid) →
  spent (ledger h) pid → spent (ledger (serve env call h).2) pid.
Proof.
  intros Hl Hn Hc Hni. destruct (to_come_step env call calls h Hl Hn Hc) as (Hu & _ & _).
  apply (fate_spent env h call); [by apply serve_fate|]. intros uuid E. apply Hni.
  unfold uuids. simpl. rewrite E. by left.
Qed.

(** Once given out, an operation is not given out again. *)
Lemma never_again calls h pid :
  Forall (λ c, typed c.2) calls → ledger_ok (ledger h) → NoDup (uuids calls) → to_come calls (ledger h) →
  (∀ uuid, uuid ∈ uuids calls → pid ≠ prep_id uuid) → spent (ledger h) pid →
  Forall (λ a, starts pid a = false) (serve_all calls h).1.
Proof.
  revert h. induction calls as [|[env call] calls IH]; intros h Ht Hl Hn Hc Hni Hs; [done|].
  apply Forall_cons in Ht as [Ht Hts]. destruct (to_come_step env call calls h Hl Hn Hc) as (Hu & Hn' & Hc').
  pose proof (spent_step env call calls h pid Hl Hn Hc Hni Hs) as Hs'.
  pose proof (serve_ok env call h Ht Hl) as Hl'.
  pose proof (start_answer env call h pid Hl) as Hst. simpl.
  destruct (serve env call h) as [a h1]. simpl in *.
  assert (∀ uuid, uuid ∈ uuids calls → pid ≠ prep_id uuid) as Hni'.
  { intros uuid Hin. apply Hni. unfold uuids. simpl. destruct (uuid_of call); [by right|done]. }
  specialize (IH h1 Hts Hl' Hn' Hc' Hni' Hs').
  destruct (serve_all calls h1) as [answers h2]. constructor; [|done].
  destruct (starts pid a); [|done]. destruct (Hst eq_refl) as (? & ? & ? & ? & r & _ & _ & _ & _ & Hr & Hop & _).
  by rewrite (Hs r Hr) in Hop.
Qed.

Lemma starts_once calls h pid :
  Forall (λ c, typed c.2) calls → ledger_ok (ledger h) → NoDup (uuids calls) → to_come calls (ledger h) →
  length (filter (λ a, starts pid a = true) (serve_all calls h).1) ≤ 1.
Proof.
  revert h. induction calls as [|[env call] calls IH]; intros h Ht Hl Hn Hc; [simpl; lia|].
  pose proof Ht as [Ht1 Hts]%Forall_cons. destruct (to_come_step env call calls h Hl Hn Hc) as (Hu & Hn' & Hc').
  pose proof (serve_ok env call h Ht1 Hl) as Hl'. pose proof (start_answer env call h pid Hl) as Hst. simpl.
  destruct (serve env call h) as [a h1]. simpl in *. specialize (IH h1 Hts Hl' Hn' Hc').
  destruct (starts pid a) eqn:Ea.
  - destruct (Hst eq_refl) as (request & op & token & lease & r & Hcall & _ & _ & _ & Hr & _ & _ & Hs).
    assert (∀ uuid, uuid ∈ uuids calls → pid ≠ prep_id uuid) as Hni.
    { intros uuid Hin ->. rewrite Hcall in Hc. rewrite (Hc uuid Hin) in Hr. done. }
    pose proof (never_again calls h1 pid Hts Hl' Hn' Hc' Hni Hs) as Hno.
    destruct (serve_all calls h1) as [answers h2]. simpl in *. rewrite filter_cons, decide_True by done. simpl.
    enough (filter (λ a, starts pid a = true) answers = []) as -> by done.
    clear -Hno. induction Hno as [|b l Hb _ IH]; [done|]. rewrite filter_cons, decide_False by (by rewrite Hb). done.
  - destruct (serve_all calls h1) as [answers h2]. simpl in *. by rewrite filter_cons, decide_False by (by rewrite Ea).
Qed.

(** What starts was prepared before, for this host. *)
Lemma started_was_prepared calls h i a pid :
  Forall (λ c, typed c.2) calls → ledger_ok (ledger h) → NoDup (uuids calls) → to_come calls (ledger h) →
  (serve_all calls h).1 !! i = Some a → starts pid a = true →
  ∃ op token lease, a = ABegin (Ok (Start op token lease)) ∧
  ((∃ r, records (ledger h) !! pid = Some r ∧ operation r = Some op ∧ host (binding r) = this) ∨
   ∃ j env k uuid b intent, j < i ∧ calls !! j = Some (env, Prepare k uuid op b intent) ∧
     pid = prep_id uuid ∧ host b = this).
Proof.
  revert h i. induction calls as [|[env call] calls IH]; intros h i Ht Hl Hn Hc Hi Ha; [done|].
  pose proof Ht as [Ht1 Hts]%Forall_cons. destruct (to_come_step env call calls h Hl Hn Hc) as (Hu & Hn' & Hc').
  pose proof (serve_ok env call h Ht1 Hl) as Hl'. pose proof (start_answer env call h pid Hl) as Hst.
  pose proof (serve_fate env call h pid Hl Hu) as Hf. simpl in Hi.
  destruct (serve env call h) as [a1 h1]. simpl in *. specialize (IH h1).
  destruct (serve_all calls h1) as [answers h2]. destruct i as [|i]; simpl in Hi.
  - injection Hi as <-. destruct (Hst Ha) as (request & op & token & lease & r & _ & _ & _ & -> & Hr & Hop & Hb & _).
    exists op, token, lease. split; [done|]. left. by exists r.
  - destruct (IH i Hts Hl' Hn' Hc' Hi Ha) as (op & token & lease & -> & [(r & Hr & Hop & Hb)|Hp]);
      exists op, token, lease; (split; [done|]).
    + rewrite Hr in Hf. inversion Hf as [|r0 r' Hal|k uuid op' b intent Hcall Hpid E| | | | | |]; subst.
      * left. exists r0. destruct Hal as (? & ? & ? & ? & ->). by split_and!.
      * right. simpl in Hop, Hb. injection Hop as ->. exists 0, env, k, uuid, b, intent. split_and!; [lia|done..].
      * done.
      * left. eexists. split; [done|].
        match goal with H : _ ∨ _ |- _ => destruct H as [(? & ? & ? & ? & ->)|(? & ? & ? & ? & ->)] end; done.
      * left. eexists. split; [done|]. match goal with H : alike _ _ |- _ => destruct H as (? & ? & ? & ? & ->) end. done.
    + right. destruct Hp as (j & env' & k & uuid & b & intent & Hj & Hp). exists (S j), env', k, uuid, b, intent.
      split; [lia|done].
Qed.

Lemma new_to_come calls : to_come calls (ledger (new_host (Op := Op))).
Proof. intros uuid _. apply lookup_empty. Qed.

Lemma serve_all_to_come calls calls' h :
  Forall (λ c, typed c.2) calls → ledger_ok (ledger h) → NoDup (uuids (calls ++ calls')) →
  to_come (calls ++ calls') (ledger h) →
  NoDup (uuids calls') ∧ to_come calls' (ledger (serve_all calls h).2).
Proof.
  revert h. induction calls as [|[env call] calls IH]; intros h Ht Hl Hn Hc; [done|].
  apply Forall_cons in Ht as [Ht Hts]. destruct (to_come_step env call (calls ++ calls') h Hl Hn Hc) as (Hu & Hn' & Hc').
  pose proof (serve_ok env call h Ht Hl) as Hl'. simpl. destruct (serve env call h) as [a h1].
  specialize (IH h1 Hts Hl' Hn' Hc'). by destruct (serve_all calls h1).
Qed.
End host.

(** C3: Whatever requests a host serves, in whatever order, an operation is given out for
    execution at most once, and only one that an earlier call prepared under that identifier,
    for this very host. *)
Theorem executes_at_most_once `{ME : Memory} {Op : Type} (op_bytes : Op → N) this calls pid :
  Forall (λ c, typed c.2) calls → NoDup (uuids calls) →
  let answers := (serve_all op_bytes this calls new_host).1 in
  length (filter (λ a, starts pid a = true) answers) ≤ 1 ∧
  ∀ i a, answers !! i = Some a → starts pid a = true →
    ∃ op token lease j env k uuid b intent,
      a = ABegin (Ok (Start op token lease)) ∧ j < i ∧
      calls !! j = Some (env, Prepare k uuid op b intent) ∧ pid = prep_id uuid ∧ host b = this.
Proof.
  intros Ht Hn answers. split; [by apply starts_once; auto using new_host_ok, new_to_come|].
  intros i a Hi Ha.
  destruct (started_was_prepared op_bytes this calls new_host i a pid Ht new_host_ok Hn (new_to_come calls) Hi Ha)
    as (op & token & lease & -> & [(r & Hr & _)|(j & env & k & uuid & b & intent & Hj & Hp)]).
  - discriminate Hr.
  - by exists op, token, lease, j, env, k, uuid, b, intent.
Qed.

(** C16: In every host that requests lead to, each record holds what its state says, and one more
    call leaves it as it was, its progress apart, or takes it one step: from prepared to
    running, only by a request bound to its host and in time; from running to its outcome, or
    to an indeterminate one where the execution was lost or the ceiling took the outcome; and
    away, only when it expired unstarted, was retained long enough after it ended, was released
    while not running, or had ended and was crowded out.  A running operation is never
    forgotten. *)
Theorem life_cycle `{ME : Memory} {Op : Type} (op_bytes : Op → N) this calls env call pid :
  Forall (λ c, typed c.2) calls → NoDup (uuids (calls ++ [(env, call)])) →
  let h := (serve_all op_bytes this calls new_host).2 in
  let h' := (serve op_bytes this env call h).2 in
  fate op_bytes this env h call pid (records (ledger h) !! pid) (records (ledger h') !! pid) ∧
  (∀ r, records (ledger h) !! pid = Some r → state_ok r) ∧
  (∀ r, records (ledger h) !! pid = Some r → o_state r = Running → is_Some (records (ledger h') !! pid)).
Proof.
  intros Ht Hn h h'.
  assert (ledger_ok (ledger h)) as Hl by (apply serve_all_ok; [done|apply new_host_ok]).
  destruct (serve_all_to_come op_bytes this calls [(env, call)] new_host Ht new_host_ok Hn (new_to_come _)) as [_ Hc].
  assert (unused (ledger h) call) as Hu by (destruct call; try done; apply Hc; by left).
  assert (fate op_bytes this env h call pid (records (ledger h) !! pid) (records (ledger h') !! pid)) as Hf
    by by apply serve_fate.
  split_and!; [done|intros r Hr; by destruct (ok_records _ Hl _ _ Hr)|].
  intros r Hr Hs. rewrite Hr in Hf. inversion Hf as [| | | | | |r0 t _ Ho|iid b r0 _ Hns|r0 _ Hto]; subst; try (eexists; reflexivity); try done.
  - unfold outlived, is_terminal in Ho. rewrite Hs in Ho. by rewrite bool_decide_eq_false_2 in Ho.
  - unfold is_terminal in Hto. by rewrite Hs in Hto.
Qed.

(** C19: Every status a host answers, to a status request from any point on or to a repeated
    execution, passes the checks its peer makes of it: progress in order, within its limits,
    after what is no longer retained, and with every gap disclosed. *)
Theorem statuses_valid `{ME : Memory} {Op : Type} (op_bytes : Op → N) this calls :
  Forall (λ c, typed c.2) calls → Forall answer_valid (serve_all op_bytes this calls new_host).1.
Proof. intros Ht. apply serve_all_valid; [done|apply new_host_ok]. Qed.

Module ExampleLedger.

(** Eight bytes for every type, and capacities that double. *)
#[export] Instance memory : Memory := {
  size_of _ := 8%N; string_capacity s := N.of_nat (length s); vec_capacity n := N.of_nat n;
  table_grown c n := if (c <=? N.of_nat n)%N then (2 * c + 4)%N else c;
  table_shrunk c n := N.min c (2 * N.of_nat n);
  deque_grown c n := if (c <=? N.of_nat n)%N then (2 * c + 4)%N else c;
  encoded_progress e := Some (N.of_nat (length (chunk e))); encoded_watch _ := Some 64%N;
}.

Definition this : HostBinding :=
  {| server_id := lit "server"; instance_id := lit "instance"; workspace_id := lit "workspace";
     workspace_generation := lit "1"; root_project_id := lit "project"; principal_id := lit "principal";
     cwd_handle := lit "cwd"; catalog_revision := lit "1"; policy_revision := lit "1" |}.
Definition bound : OperationBinding :=
  {| host := this;
     contract := {| contract_id := lit "file_write"; version := lit "1"; result_version := lit "1" |};
     argument_digest := lit "digest" |}.
Definition intent : OperationIntent := {| i_kind := Mutate; mutating := true; resources := [] |}.

(** The clocks read [t] seconds. *)
Definition at_ (t : N) : Env N :=
  {| now := (t * SECOND)%N; later := (t * SECOND)%N; unix_ms := (t * 1000)%N; wall _ := (t * 1000)%N;
     iteration l := l;
     iteration_perm l := reflexivity l |}.
Definition uuid : str := lit "0001".
Definition execute (iid : str) : Call (Op := N) :=
  Begin {| x_preparation_id := prep_id uuid; x_invocation_id := iid; x_host := this |}.
Definition done_ : StructuredOutcome :=
  {| kind := OutcomeCompleted; side_effects_possible := false; result := None; error := None |}.
Definition ask (iid : str) (after : option N) : Call (Op := N) :=
  Status {| after_sequence := after;
            selector := {| sel_preparation_id := prep_id uuid; sel_invocation_id := Some iid; sel_host := this |} |}.

(** Prepared, executed twice at once, progress with a gap. *)
Definition running_calls : list (Env N * Call) :=
  [(at_ 0, Reserve 1000); (at_ 1, Prepare 0 uuid 7%N bound intent);
   (at_ 2, execute (lit "one")); (at_ 3, execute (lit "one")); (at_ 3, execute (lit "two"));
   (at_ 4, Progress (prep_id uuid) (lit "one") 1 (lit "stdout") (lit "a"));
   (at_ 4, Progress (prep_id uuid) (lit "one") 3 (lit "stdout") (lit "b"))].
Definition finish_call : Call (Op := N) := Finish (prep_id uuid) (lit "one") done_.
Definition all_calls : list (Env N * Call) :=
  running_calls ++ [(at_ 5, finish_call); (at_ 5, DropLease 0); (at_ 6, execute (lit "one"));
    (at_ 6, ask (lit "one") (Some 1%N))].

Lemma all_typed : Forall (λ c, typed c.2) all_calls.
Proof. repeat constructor; vm_compute; discriminate. Qed.
Lemma all_unlike : NoDup (uuids all_calls).
Proof. by apply NoDup_singleton. Qed.

Definition answer_name (a : Answer (Op := N)) : N :=
  match a with
  | ABegin (Ok (Start op _ _)) => op
  | ABegin (Ok (BeginRunning _)) => 100
  | ABegin (Ok (BeginTerminal _)) => 101
  | ABegin (Err InvocationMismatch) => 102
  | AStatus (Ok s) => 200 + N.of_nat (length (progress s))
  | _ => 0
  end.

Lemma executes_at_most_once_witness :
  let answers := (serve_all (λ b, b) this all_calls new_host).1 in
  map answer_name answers = [0; 0; 7; 100; 102; 0; 0; 0; 0; 101; 201]%N ∧
  length (filter (λ a, starts (prep_id uuid) a = true) answers) ≤ 1.
Proof.
  split; [vm_compute; reflexivity|].
  apply (executes_at_most_once (λ b, b) this all_calls (prep_id uuid) all_typed all_unlike).
Defined.

(** The outcome is kept, and the record stays. *)
Lemma life_cycle_witness :
  let h := (serve_all (λ b, b) this running_calls new_host).2 in
  let h' := (serve (λ b, b) this (at_ 5) finish_call h).2 in
  o_state <$> records (ledger h) !! prep_id uuid = Some Running ∧
  fate (λ b, b) this (at_ 5) h finish_call (prep_id uuid)
    (records (ledger h) !! prep_id uuid) (records (ledger h') !! prep_id uuid) ∧
  outcome <$> records (ledger h') !! prep_id uuid = Some (Some done_).
Proof.
  split; [vm_compute; reflexivity|]. split; [|vm_compute; reflexivity].
  apply (life_cycle (λ b, b) this running_calls (at_ 5) finish_call (prep_id uuid)).
  - repeat constructor; vm_compute; discriminate.
  - by apply NoDup_singleton.
Defined.

Lemma statuses_valid_witness :
  Forall answer_valid (serve_all (λ b, b) this all_calls new_host).1.
Proof. apply statuses_valid. exact all_typed. Defined.
End ExampleLedger.
