(* ===== verification/LedgerBytes.v ===== *)
(** * What the ledger promises and what it gives up

    The bytes reserved, given to executions and kept for operations that wait never exceed the
    ledger's ceiling; what is over the ceiling is given up in order; and what is forgotten is
    noted. *)

From stdpp Require Import gmap sorting.
From S2P Require Import Prelude HostContract Ledger RemoteHost LedgerSafe.

(** ** Sums over maps *)

Section sums.
Context {K A : Type} `{Countable K} (f : A → N).

Definition msum (m : gmap K A) : N := map_fold (λ _ a n, (f a + n)%N) 0%N m.

Lemma msum_insert k a (m : gmap K A) : m !! k = None → msum (<[k := a]> m) = (f a + msum m)%N.
Proof. intros Hk. unfold msum. apply (map_fold_insert_L (λ _ a n, (f a + n)%N)); [intros; lia|done]. Qed.

Lemma msum_delete k a (m : gmap K A) : m !! k = Some a → msum m = (f a + msum (delete k m))%N.
Proof. intros Hk. unfold msum. apply (map_fold_delete_L (λ _ a n, (f a + n)%N)); [intros; lia|done]. Qed.

Lemma msum_empty : msum ∅ = 0%N.
Proof. apply map_fold_empty. Qed.

Definition opt (o : option A) : N := match o with Some a => f a | None => 0%N end.

Lemma msum_split k (m : gmap K A) : msum m = (opt (m !! k) + msum (delete k m))%N.
Proof. destruct (m !! k) as [a|] eqn:E; [by apply msum_delete|]. by rewrite delete_id. Qed.

Lemma msum_mono (m m' : gmap K A) : (∀ k, (opt (m' !! k) <= opt (m !! k))%N) → (msum m' <= msum m)%N.
Proof.
  revert m. induction m' as [|k a m' Hk IH] using map_ind; intros m Hm; [rewrite msum_empty; lia|].
  rewrite msum_insert by done. rewrite (msum_split k m). specialize (Hm k) as Hmk.
  rewrite lookup_insert_eq in Hmk. simpl in Hmk.
  assert (msum m' <= msum (delete k m))%N; [|lia]. apply IH. intros i. specialize (Hm i).
  destruct (decide (i = k)) as [->|Hn].
  - rewrite Hk. simpl. lia.
  - by rewrite lookup_insert_ne in Hm; [rewrite lookup_delete_ne|].
Qed.

Lemma msum_perm (m : gmap K A) : msum m = foldr N.add 0%N (map (λ p, f p.2) (map_to_list m)).
Proof.
  induction m as [|k a m Hk IH] using map_ind; [by rewrite msum_empty, map_to_list_empty|].
  rewrite msum_insert by done. rewrite IH.
  assert (∀ l l' : list N, l ≡ₚ l' → foldr N.add 0%N l = foldr N.add 0%N l') as Hp.
  { intros l l'. induction 1; simpl; lia. }
  symmetry. rewrite (Hp _ (map (λ p, f p.2) ((k, a) :: map_to_list m))); [done|].
  by apply fmap_Permutation, map_to_list_insert.
Qed.
End sums.

Lemma msum_le {K A} `{Countable K} (f g : A → N) (m : gmap K A) :
  (∀ a, (f a <= g a)%N) → (msum f m <= msum g m)%N.
Proof.
  intros Hfg. induction m as [|k a m Hk IH] using map_ind; [by rewrite !msum_empty|].
  rewrite !msum_insert by done. specialize (Hfg a). lia.
Qed.

Section bytes.
Context `{ME : Memory} {Op : Type}.
Notation Ledger := (Ledger Op).
Notation OpRecord := (OpRecord Op).
Notation Env := (Env Op).

(** ** What waits *)

(** The bytes kept for an operation that was not given out. *)
Definition promised (r : OpRecord) : N :=
  option_bytes (λ _, u64_sat_add (prepared_bytes r) EXECUTION_LEASE_OVERHEAD_BYTES) (operation r).
Definition unstarted (l : Ledger) : N := msum promised (records l).
Definition waiting (r : OpRecord) : N := if bool_decide (o_state r = Prepared) then 1%N else 0%N.
Definition one_each (r : OpRecord) : N := 1%N.

Lemma sat_fold_start l a : (N.min a U64_MAX <= foldl u64_sat_add a l)%N.
Proof.
  revert a. induction l as [|y l IH]; intros a; simpl; [lia|].
  etrans; [|apply IH]. unfold u64_sat_add, U64_MAX. lia.
Qed.

Lemma sat_fold_ge l a x : x ∈ l → (N.min x U64_MAX <= foldl u64_sat_add a l)%N.
Proof.
  revert a. induction l as [|y l IH]; intros a; simpl; [by intros ?%elem_of_nil|].
  intros [->|Hx]%elem_of_cons; [|by apply IH]. etrans; [|apply sat_fold_start].
  unfold u64_sat_add, U64_MAX. lia.
Qed.

Lemma promised_stored r : (promised r <= stored_bytes r)%N.
Proof.
  assert (promised r <= U64_MAX)%N as H.
  { unfold promised. destruct (operation r); simpl; [apply u64_sat_add_le|unfold U64_MAX; lia]. }
  rewrite <- (N.min_l _ _ H). apply sat_fold_ge. do 5 right. by left.
Qed.

(** Sums that do not saturate are what they say. *)
Lemma sat_total_le l b : (sat_total l <= b)%N → (b < U64_MAX)%N → (foldr N.add 0 l <= b)%N.
Proof. rewrite sat_total_sum. lia. Qed.

(** The bytes a ledger counts cover what waits in it. *)
Lemma refresh_covers l b :
  (bytes (refresh_bytes l) <= b)%N → (b < U64_MAX)%N → (unstarted l <= b)%N.
Proof.
  intros Hb Hlt. unfold refresh_bytes in Hb. simpl in Hb.
  set (stored := map stored_bytes (map snd (map_to_list (records l)))) in *.
  assert (sat_total (stored ++ map tombstone_bytes (tombstones l)) <= b)%N as H1
    by (unfold u64_sat_add, U64_MAX in *; lia).
  apply sat_total_le in H1; [|done].
  unfold unstarted. etrans; [apply (msum_le _ stored_bytes), promised_stored|].
  rewrite msum_perm. etrans; [|exact H1]. unfold stored. rewrite map_map, foldr_app.
  generalize (foldr N.add 0%N (map tombstone_bytes (tombstones l))). intros n. clear.
  induction (map_to_list (records l)) as [|x l' IH]; simpl; [lia|]. by apply N.add_le_mono_l.
Qed.

(** *** What operations leave alone *)

Definition same_books (l l' : Ledger) : Prop :=
  reserved_bytes l' = reserved_bytes l ∧ running_bytes l' = running_bytes l ∧ reservations l' = reservations l.

Lemma same_books_refl l : same_books l l.
Proof. done. Qed.
Lemma same_books_trans l1 l2 l3 : same_books l1 l2 → same_books l2 l3 → same_books l1 l3.
Proof. intros (? & ? & ?) (? & ? & ?). split_and!; congruence. Qed.
Hint Resolve same_books_refl : core.

Lemma forget_same (env : Env) id s l : same_books l (forget env id s l).
Proof.
  unfold forget. destruct (records l !! id); [|done]. case_match; [|done].
  unfold pop_tombstone. simpl. by destruct (tombstones l).
Qed.

Lemma prune_same (env : Env) t l : same_books l (prune env t l).
Proof.
  unfold prune. set (ids := map fst _). set (l1 := foldl _ l ids).
  apply (drop_over_keeps (same_books l)); [done|].
  apply (drop_old_keeps (same_books l)); [done|]. unfold l1. clear l1. clearbody ids. revert l.
  induction ids as [|id ids IH]; intros l; [done|]. simpl. eapply same_books_trans; [|apply IH]. apply forget_same.
Qed.

Lemma enforce_ceiling_same (env : Env) id l : same_books l (enforce_ceiling env id l).
Proof.
  unfold enforce_ceiling. apply (drop_unnoted_keeps (same_books l)); [done|].
  set (l2 := forget_terminals _ _ _ _).
  assert (same_books l l2) as H2.
  { apply (forget_terminals_keeps (same_books l)).
    - intros. eapply same_books_trans; [done|apply forget_same].
    - by apply (evict_progress_keeps (same_books l)). }
  unfold strip_protected. destruct (over l2); [|done]. by destruct (records l2 !! id).
Qed.

Lemma ending_same (env : Env) pid r l : same_books l (ending env pid r l).
Proof. unfold ending. eapply same_books_trans; [|apply enforce_ceiling_same]. done. Qed.

Lemma finish_same (env : Env) pid iid o l : same_books l (finish env pid iid o l).
Proof. unfold finish. destruct (running_for l pid iid); [apply ending_same|done]. Qed.

Lemma finish_indeterminate_same (env : Env) pid iid l : same_books l (finish_indeterminate env pid iid l).
Proof. unfold finish_indeterminate. destruct (running_for l pid iid); [apply ending_same|done]. Qed.

Lemma capture_progress_same (env : Env) pid iid s k c l : same_books l (capture_progress env pid iid s k c l).
Proof.
  unfold capture_progress. destruct (running_for l pid iid); [|done]. destruct (_ || _); [done|].
  by apply (evict_progress_keeps (same_books l)).
Qed.

(** The bytes of a ledger are counted. *)
Definition counted (l : Ledger) : Prop := bytes l = bytes (refresh_bytes l).

Lemma prune_counted (env : Env) t l : counted (prune env t l).
Proof. unfold prune. by apply (drop_over_keeps counted). Qed.

Lemma refresh_counted l : counted (refresh_bytes l).
Proof. reflexivity. Qed.

Lemma counted_covers l b : counted l → (bytes l <= b)%N → (b < U64_MAX)%N → (unstarted l <= b)%N.
Proof. intros ->. apply refresh_covers. Qed.

(** ** The books *)

Record books (l : Ledger) : Prop := {
  bk_bytes : (reserved_bytes l + running_bytes l + unstarted l <= MAX_LEDGER_BYTES)%N;
  bk_records : (msum one_each (records l) + reservations l <= MAX_OPERATIONS)%N;
  bk_waiting : (msum waiting (records l) + reservations l <= MAX_PREPARATIONS)%N;
}.

Definition fewer (o o' : option OpRecord) : Prop :=
  (opt promised o' <= opt promised o)%N ∧ (opt one_each o' <= opt one_each o)%N ∧
  (opt waiting o' <= opt waiting o)%N.

Lemma books_fewer l l' :
  same_books l l' → (∀ id, fewer (records l !! id) (records l' !! id)) → books l → books l'.
Proof.
  intros (Hr & Hx & Hn) Hf [H1 H2 H3].
  assert (unstarted l' <= unstarted l)%N by (apply msum_mono; intros; apply Hf).
  assert (msum one_each (records l') <= msum one_each (records l))%N by (apply msum_mono; intros; apply Hf).
  assert (msum waiting (records l') <= msum waiting (records l))%N by (apply msum_mono; intros; apply Hf).
  split; rewrite ?Hr, ?Hx, ?Hn; lia.
Qed.

Lemma msum_size (m : gmap str OpRecord) : msum one_each m = N.of_nat (size m).
Proof.
  induction m as [|k a m Hk IH] using map_ind; [by rewrite msum_empty|].
  rewrite msum_insert, map_size_insert_None by done. rewrite IH. unfold one_each. lia.
Qed.

Lemma prepared_count_waiting l : prepared_count l = msum waiting (records l).
Proof.
  unfold prepared_count. rewrite msum_perm. induction (map_to_list (records l)) as [|[i r] m IH]; [done|].
  rewrite filter_cons. simpl. unfold waiting at 1. case_decide; case_bool_decide; try done; simpl; rewrite <- IH; lia.
Qed.

Lemma fewer_refl o : fewer o o.
Proof. done. Qed.

Lemma prune_books (env : Env) t l : books l → books (prune env t l).
Proof.
  apply books_fewer; [apply prune_same|]. intros id. rewrite prune_lookup.
  destruct (records l !! id) as [r|]; [|done]. destruct (outlived t r); [|done].
  split_and!; apply N.le_0_l.
Qed.

Ltac saturate :=
  unfold u64_sat_add, U64_MAX, MAX_LEDGER_BYTES, MAX_OPERATIONS, MAX_PREPARATIONS in *.

Lemma reserve_books (env : Env) b l :
  books l →
  let '(answer, l') := reserve env b l in
  books l' ∧ running_bytes l' = running_bytes l ∧
  match answer with
  | Ok _ => reserved_bytes l' = (reserved_bytes l + b)%N ∧ reservations l' = (reservations l + 1)%N
  | Err _ => same_books l l'
  end.
Proof.
  intros Hb%(prune_books env (now env)). unfold reserve.
  pose proof (prune_same env (now env) l) as Hs. pose proof (prune_counted env (now env) l) as Hc.
  set (p := prune env (now env) l) in *. clearbody p. destruct Hs as (Hr & Hx & Hn).
  destruct (_ || _) eqn:E; [by split_and!|].
  apply orb_false_iff in E as [[E1 E2]%orb_false_iff E3]. rewrite prepared_count_waiting in E1.
  rewrite <- msum_size in E2. apply N.leb_gt in E1, E2. apply N.ltb_ge in E3. destruct Hb as [B1 B2 B3].
  generalize dependent (sat_mul (u64_sat_add (reservations p) 1) (size_of SizeReservation)). intros z Hz.
  assert (unstarted p <= bytes p)%N as Hu by (apply counted_covers; [done|lia|saturate; lia]).
  split_and!; simpl.
  - split; cbn -[unstarted msum]; change (unstarted (with_reserved _ _ p)) with (unstarted p); saturate; lia.
  - done.
  - saturate. lia.
  - saturate. lia.
Qed.

Lemma rollback_books b l : books l → books (rollback_reservation b l).
Proof.
  intros [H1 H2 H3]. unfold rollback_reservation.
  split; simpl; change (unstarted (with_reserved _ _ l)) with (unstarted l); lia.
Qed.

Lemma resize_books (env : Env) t previous b l :
  books l → (previous <= reserved_bytes l)%N →
  let '(answer, l') := resize_reservation env t previous b l in
  books l' ∧
  match answer with
  | Ok _ => running_bytes l' = running_bytes l ∧ reservations l' = reservations l ∧
      reserved_bytes l' = (reserved_bytes l - previous + b)%N ∧ records l' = records (prune env t l)
  | Err _ => same_books l l'
  end.
Proof.
  intros Hb%(prune_books env t) Hle. unfold resize_reservation.
  pose proof (prune_same env t l) as Hs. pose proof (prune_counted env t l) as Hc.
  set (p := prune env t l) in *. clearbody p. destruct Hs as (Hr & Hx & Hn).
  destruct (_ <? _)%N eqn:E; [by split_and!|]. apply N.ltb_ge in E. destruct Hb as [B1 B2 B3].
  generalize dependent (sat_mul (reservations p) (size_of SizeReservation)). intros z Hz.
  assert (unstarted p <= bytes p)%N as Hu by (apply counted_covers; [done|lia|saturate; lia]).
  split_and!; simpl; [|done..|saturate; lia|done].
  split; simpl; change (unstarted (with_reserved _ _ p)) with (unstarted p); saturate; lia.
Qed.

Lemma insert_books (env : Env) r b l :
  books l → (b <= reserved_bytes l)%N → (1 <= reservations l)%N → records l !! o_preparation_id r = None →
  let '(answer, l') := insert_reserved env r b l in
  books l' ∧ running_bytes l' = running_bytes l ∧ reservations l' = (reservations l - 1)%N ∧
  reserved_bytes l' = (reserved_bytes l - b)%N.
Proof.
  intros Hb%(prune_books env (now env)) Hle H1 Hnone. unfold insert_reserved.
  pose proof (prune_same env (now env) l) as (Hr & Hx & Hn).
  pose proof (prune_lookup env (now env) l (o_preparation_id r)) as Hnone'. rewrite Hnone in Hnone'.
  set (p := prune env (now env) l) in *. clearbody p.
  destruct (_ || _).
  { split; [by apply rollback_books|]. simpl. by rewrite Hr, Hx, Hn. }
  set (c := table_grown _ _).
  set (l1 := with_records (<[o_preparation_id r := r]> (records p)) c p).
  set (l2 := rollback_reservation b l1).
  assert (records l2 = <[o_preparation_id r := r]> (records p)) as Em by done.
  assert (reserved_bytes l2 = (reserved_bytes p - b)%N ∧ running_bytes l2 = running_bytes p ∧
    reservations l2 = (reservations p - 1)%N) as (R2 & X2 & N2) by done.
  clearbody l2. clear l1.
  pose proof (refresh_counted l2) as Hc. set (l3 := refresh_bytes l2) in *.
  assert (records l3 = records l2 ∧ reserved_bytes l3 = reserved_bytes l2 ∧ running_bytes l3 = running_bytes l2 ∧
    reservations l3 = reservations l2) as (M3 & R3 & X3 & N3) by done.
  clearbody l3. rewrite Em in M3. rewrite R2 in R3. rewrite X2 in X3. rewrite N2 in N3. clear dependent l2.
  rewrite <- Hr, <- Hx, <- Hn. destruct (over l3) eqn:Eo.
  - set (l4 := refresh_bytes _).
    assert (same_books l3 l4) as (R4 & X4 & N4) by done.
    assert (records l4 = delete (o_preparation_id r) (records l3)) as M4 by done. clearbody l4.
    rewrite M3, delete_insert_eq, delete_id in M4 by done. rewrite R4, X4, N4, R3, X3, N3. split; [|done].
    destruct Hb as [B1 B2 B3]. unfold unstarted in *.
    split; unfold unstarted; rewrite ?M4, ?R4, ?X4, ?N4, ?R3, ?X3, ?N3; lia.
  - apply N.ltb_ge in Eo. unfold total_bytes in Eo.
    generalize dependent (sat_mul (reservations l3) (size_of SizeReservation)). intros z Eo.
    assert (unstarted l3 <= bytes l3)%N as Hu by (apply counted_covers; [done|lia|saturate; lia]).
    destruct Hb as [B1 B2 B3]. split; [|done]. split.
    + saturate. lia.
    + rewrite M3, N3, msum_insert by done. unfold one_each at 1. lia.
    + rewrite M3, N3, msum_insert by done.
      assert (waiting r <= 1)%N by (unfold waiting; case_bool_decide; lia). lia.
Qed.

Lemma begin_books (env : Env) request token l :
  ledger_ok l → books l →
  let '(answer, l') := begin env request token l in
  books l' ∧ reserved_bytes l' = reserved_bytes l ∧ reservations l' = reservations l ∧
  running_bytes l' = (running_bytes l + match answer with Ok (Start _ _ lease) => l_bytes lease | _ => 0 end)%N.
Proof.
  intros Hl Hb%(prune_books env (now env)).
  pose proof (begin_cases env request token l) as H. cbv zeta in H.
  pose proof (prune_same env (now env) l) as (Hr & Hx & Hn).
  destruct (begin env request token l) as [answer l'].
  set (p := prune env (now env) l) in *. clearbody p.
  destruct (H Hl) as [(r & op & Hrec & Hs & Hop & _ & _ & -> & ->)|[-> Ha]].
  2: { split_and!; [done..|]. destruct answer as [[]|]; [done| | |]; by rewrite N.add_0_r. }
  clear H. destruct Hb as [B1 B2 B3].
  set (r' := started (x_invocation_id request) token r).
  assert (promised r = u64_sat_add (prepared_bytes r) EXECUTION_LEASE_OVERHEAD_BYTES) as Hp
    by (unfold promised; by rewrite Hop).
  rewrite <- Hp. simpl.
  assert (unstarted p = promised r + msum promised (delete (x_preparation_id request) (records p)))%N as Hu
    by (unfold unstarted; by apply msum_delete).
  assert (u64_sat_add (running_bytes p) (promised r) = running_bytes p + promised r)%N as Hsat
    by (saturate; lia).
  rewrite Hsat. split_and!; [|done|done|congruence]. split; simpl.
  - unfold unstarted. simpl. rewrite (msum_split _ (x_preparation_id request)), lookup_insert_eq.
    rewrite delete_insert_eq. simpl. change (promised r') with 0%N. lia.
  - assert (msum one_each (<[x_preparation_id request := r']> (records p)) <= msum one_each (records p))%N; [|lia].
    apply msum_mono. intros id. destruct (decide (id = x_preparation_id request)) as [->|];
      [by rewrite lookup_insert_eq, Hrec|by rewrite lookup_insert_ne].
  - assert (msum waiting (<[x_preparation_id request := r']> (records p)) <= msum waiting (records p))%N; [|lia].
    apply msum_mono. intros id. destruct (decide (id = x_preparation_id request)) as [->|];
      [rewrite lookup_insert_eq, Hrec; apply N.le_0_l|by rewrite lookup_insert_ne].
Qed.
End bytes.

Section accounts.
Context `{ME : Memory} {Op : Type} (op_bytes : Op → N) (this : HostBinding).
Notation Ledger := (Ledger Op).
Notation OpRecord := (OpRecord Op).
Notation Env := (Env Op).
Notation Call := (Call (Op := Op)).
Notation Host := (Host (Op := Op)).
Notation serve := (serve op_bytes this).
Notation serve_all := (serve_all op_bytes this).

(** What a host holds is what its ledger counts, and all of it is within the limits. *)
Record accounts (h : Host) : Prop := {
  ac_reserved : reserved_bytes (ledger h) = msum id (held h);
  ac_reservations : reservations (ledger h) = N.of_nat (size (held h));
  ac_running : running_bytes (ledger h) = msum l_bytes (leases h);
  ac_books : books (ledger h);
}.

Lemma prepare_books (env : Env) uuid reserved op b intent (l : Ledger) k :
  books l → unused l (Prepare k uuid op b intent) → (reserved <= reserved_bytes l)%N → (1 <= reservations l)%N →
  let '(_, l') := prepare_reserved op_bytes env uuid reserved op b intent l in
  books l' ∧ running_bytes l' = running_bytes l ∧ reservations l' = (reservations l - 1)%N ∧
  reserved_bytes l' = (reserved_bytes l - reserved)%N.
Proof.
  intros Hb Hu Hle H1. unfold prepare_reserved.
  assert (∀ l', books l' → same_books l l' →
    books (rollback_reservation reserved l') ∧
    running_bytes (rollback_reservation reserved l') = running_bytes l ∧
    reservations (rollback_reservation reserved l') = (reservations l - 1)%N ∧
    reserved_bytes (rollback_reservation reserved l') = (reserved_bytes l - reserved)%N) as Hroll.
  { intros l' Hb' (Hr & Hx & Hn). split; [by apply rollback_books|]. simpl. by rewrite Hr, Hx, Hn. }
  destruct (negb _); [by apply Hroll|].
  destruct (Identifier_new (lit "prep_" ++ uuid)) as [new|] eqn:Eid; [|by apply Hroll].
  assert (new = prep_id uuid) as ->.
  { unfold Identifier_new in Eid. destruct (Records.validate_opaque_string _ _); [|done]. by injection Eid as <-. }
  destruct (_ <? _)%N; [by apply Hroll|].
  set (r := new_record op_bytes env (prep_id uuid) op b).
  pose proof (resize_books env (later env) reserved (reservation_bytes r) l Hb Hle) as Hres.
  destruct (resize_reservation _ _ _ _ _) as [[[]|e] l1]; destruct Hres as [Hb1 Hres]; [|by apply Hroll].
  destruct Hres as (X1 & N1 & R1 & M1).
  assert (records l1 !! o_preparation_id r = None) as Hnone.
  { rewrite M1, prune_lookup. simpl in Hu. simpl. by rewrite Hu. }
  pose proof (insert_books env r (reservation_bytes r) l1 Hb1 ltac:(lia) ltac:(lia) Hnone) as Hins.
  destruct (insert_reserved _ _ _ _) as [[[]|e] l2]; destruct Hins as (B2 & X2 & N2 & R2);
    (split; [done|]); split_and!; [congruence..|lia|congruence|congruence|lia].
Qed.

Lemma fate_fewer env h call pid o o' :
  fate op_bytes this env h call pid o o' → uuid_of call = None → fewer o o'.
Proof.
  intros Hf Hc. inversion Hf as [|r r' (? & ? & ? & ? & ->)|? ? ? ? ? E|? ? ? r ? ? Hs Hop|? ? r r' _ Hs _ Ha|? r r' _ Hs _ (? & ? & ? & ? & ->)|r ? _ _|? ? r _ _|r _ _];
    subst; try done; try (split_and!; apply N.le_0_l).
  all: try (destruct Ha as [(? & ? & ? & ? & ->)|(? & ? & ? & ? & ->)]).
  all: split_and!; try reflexivity; try apply N.le_0_l; unfold waiting; simpl; rewrite ?Hs; case_bool_decide; try done; try lia.
  all: unfold outcome_state in *; by repeat case_match.
Qed.

Lemma accounts_fewer h h' :
  same_books (ledger h) (ledger h') → held h' = held h → leases h' = leases h →
  (∀ pid, fewer (records (ledger h) !! pid) (records (ledger h') !! pid)) → accounts h → accounts h'.
Proof.
  intros (Hr & Hx & Hn) Hh Hl Hf [A1 A2 A3 A4]. split; rewrite ?Hh, ?Hl; [congruence..|].
  by eapply books_fewer.
Qed.

Lemma msum_fresh {A} (f : A → N) (m : gmap nat A) a :
  msum f (<[fresh (dom m) := a]> m) = (f a + msum f m)%N ∧
  size (<[fresh (dom m) := a]> m) = S (size m).
Proof.
  assert (m !! fresh (dom m) = None) as H by (apply not_elem_of_dom, is_fresh).
  by rewrite msum_insert, map_size_insert_None.
Qed.

Lemma msum_take {A} (f : A → N) (m : gmap nat A) k a :
  m !! k = Some a → msum f m = (f a + msum f (delete k m))%N ∧ size m = S (size (delete k m)).
Proof.
  intros H. split; [by apply msum_delete|]. rewrite map_size_delete_Some by done.
  assert (size m ≠ 0); [|lia]. intros E%map_size_empty_inv. subst. by rewrite lookup_empty in H.
Qed.

Lemma serve_accounts env call h :
  ledger_ok (ledger h) → unused (ledger h) call → accounts h → accounts (serve env call h).2.
Proof.
  intros Hl Hu Ha.
  assert (uuid_of call = None → ∀ pid, fewer (records (ledger h) !! pid)
    (records (ledger (serve env call h).2) !! pid)) as Hf.
  { intros Hc pid. eapply fate_fewer; [by apply serve_fate|done]. }
  destruct call; cbn [RemoteHost.serve] in *.
  - unfold serve_reserve in *. destruct Ha as [A1 A2 A3 A4].
    pose proof (reserve_books env b _ A4) as H. destruct (reserve _ _ _) as [[[]|e] l]; destruct H as (B & X & R).
    + destruct R as [R N]. destruct (msum_fresh id (held h) b) as [E1 E2].
      split; simpl; [rewrite R, E1; simpl; lia|rewrite N, E2; lia|congruence|done].
    + destruct R as (R & _ & N). split; simpl; [congruence..|done].
  - unfold serve_abandon. destruct (held h !! reservation) as [b|] eqn:E; [|done]. destruct Ha as [A1 A2 A3 A4].
    destruct (msum_take id _ _ _ E) as [E1 E2]. simpl in E1.
    split; simpl; [lia|lia|done|by apply rollback_books].
  - unfold serve_prepare. destruct (held h !! reservation) as [n|] eqn:E; [|done]. destruct Ha as [A1 A2 A3 A4].
    destruct (msum_take id _ _ _ E) as [E1 E2]. simpl in E1.
    pose proof (prepare_books env uuid n op b intent _ reservation A4 Hu ltac:(lia) ltac:(lia)) as H.
    destruct (prepare_reserved _ _ _ _ _ _ _ _) as [r l]. destruct H as (B & X & N & R).
    split; simpl; [lia|lia|congruence|done].
  - unfold serve_begin, host_begin in *. destruct Ha as [A1 A2 A3 A4].
    destruct (validate_host this (x_host request)); [|by split].
    pose proof (begin_books env request (tokens h) _ Hl A4) as H.
    destruct (begin _ _ _ _) as [[[op t lease|s|s]|e] l]; destruct H as (B & R & N & X); simpl.
    { destruct (msum_fresh l_bytes (leases h) lease) as [E1 _].
      split; simpl; [congruence..|rewrite X, E1; lia|done]. }
    all: rewrite N.add_0_r in X; split; simpl; [congruence..|done].
  - apply (accounts_fewer h); try done; [|by apply Hf]. simpl. unfold host_capture_progress.
    destruct (Identifier_new k); [|done]. destruct (ProgressChunkText_new message); [|done].
    apply capture_progress_same.
  - apply (accounts_fewer h); try done; [apply finish_same|by apply Hf].
  - apply (accounts_fewer h); try done; [apply finish_indeterminate_same|by apply Hf].
  - unfold serve_drop in *. destruct (leases h !! lease) as [le|] eqn:E; [|done].
    set (l' := if is_some_and (fun r => bool_decide (o_state r = Running)) (records (ledger h) !! l_preparation_id le)
      then finish_indeterminate env (l_preparation_id le) (l_invocation_id le) (ledger h) else ledger h).
    assert (accounts (with_ledger l' h)) as [A1 A2 A3 A4].
    { apply (accounts_fewer h); try done; [|by apply Hf].
      simpl. unfold l'. destruct (is_some_and _ _); [apply finish_indeterminate_same|done]. }
    destruct (msum_take l_bytes _ _ _ E) as [E1 _]. simpl in *.
    split; simpl; unfold drop_lease; fold l'; simpl; [done..|lia|]. destruct A4 as [B1 B2 B3].
    split; simpl; [|done..]. change (unstarted (with_running _ l')) with (unstarted l'). lia.
  - unfold status_after, host_status in *.
    assert (same_books (ledger h) (status env (sel_preparation_id (selector request))
      (sel_invocation_id (selector request)) (ledger h)).2) as Hs.
    { pose proof (prune_same env (now env) (ledger h)) as H. unfold status.
      destruct (records _ !! _); [by destruct (is_some_and _ _)|done]. }
    destruct (negb _); [by apply (accounts_fewer h)|].
    destruct (negb _); [destruct (after_sequence request); [destruct (_ || _)|]; by apply (accounts_fewer h)|].
    destruct (validate_host _ _); [|by apply (accounts_fewer h)].
    destruct (status _ _ _ _) as [[s|e] l']; [|apply (accounts_fewer h); try done; by apply Hf].
    destruct (after_sequence request); [destruct (_ || _)|]; apply (accounts_fewer h); try done; by apply Hf.
  - unfold host_release in *. destruct (validate_host _ _); [|by apply (accounts_fewer h)].
    assert (same_books (ledger h) (release env pid iid (ledger h)).2) as Hs.
    { pose proof (prune_same env (now env) (ledger h)) as H. unfold release. 
      destruct (records _ !! _); [|by destruct (find_tombstone _ _)].
      destruct (is_some_and _ _); [done|]. case_bool_decide; [done|]. eapply same_books_trans; [done|apply forget_same]. }
    destruct (release _ _ _ _) as [r l']. apply (accounts_fewer h); try done. by apply Hf.
  - unfold serve_cancel, host_cancel in *. destruct (validate_host _ _); [|by apply (accounts_fewer h)].
    assert (same_books (ledger h) (cancel env request (ledger h)).2) as Hs.
    { pose proof (prune_same env (now env) (ledger h)) as H. unfold cancel.
      destruct (records _ !! _); [by destruct (negb _)|by destruct (find_tombstone _ _)]. }
    destruct (cancel _ _ _) as [[r t] l']. apply (accounts_fewer h); try done. by apply Hf.
Qed.

Lemma serve_all_accounts calls h :
  Forall (λ c, typed c.2) calls → ledger_ok (ledger h) → NoDup (uuids calls) → to_come calls (ledger h) →
  accounts h → accounts (serve_all calls h).2.
Proof.
  revert h. induction calls as [|[env call] calls IH]; intros h Ht Hl Hn Hc Ha; [done|].
  apply Forall_cons in Ht as [Ht Hts]. destruct (to_come_step op_bytes this env call calls h Hl Hn Hc) as (Hu & Hn' & Hc').
  pose proof (serve_ok op_bytes this env call h Ht Hl) as Hl'.
  pose proof (serve_accounts env call h Hl Hu Ha) as Ha'. simpl.
  destruct (serve env call h) as [a h1]. specialize (IH h1 Hts Hl' Hn' Hc' Ha'). by destruct (serve_all calls h1).
Qed.

Lemma new_accounts : accounts (new_host (Op := Op)).
Proof. split; try done. Qed.
End accounts.

(** ** The ceiling *)

Section ceiling.
Context `{ME : Memory} {Op : Type}.
Notation Ledger := (Ledger Op).
Notation OpRecord := (OpRecord Op).
Notation Env := (Env Op).

Definition event_count (r : OpRecord) : N := N.of_nat (length (o_progress r)).

Lemma progress_events_sum (l : Ledger) : N.of_nat (progress_events l) = msum event_count (records l).
Proof.
  rewrite msum_perm. unfold progress_events. induction (map_to_list (records l)) as [|[id r] m IH]; [done|].
  simpl. rewrite Nat2N.inj_add, IH. done.
Qed.

Lemma drop_event_count id r (l : Ledger) :
  records l !! id = Some r → o_progress r ≠ [] → progress_events l = S (progress_events (drop_event id r l)).
Proof.
  intros Hr Hp. apply Nat2N.inj. rewrite Nat2N.inj_succ, !progress_events_sum. simpl.
  rewrite (msum_split _ id), (msum_split _ id (<[id := _]> _)), lookup_insert_eq, delete_insert_eq, Hr. simpl.
  unfold event_count at 1 3. simpl. destruct (o_progress r); [done|]. simpl. lia.
Qed.

Definition no_progress (l : Ledger) : Prop := ∀ id r, records l !! id = Some r → o_progress r = [].

Lemma evict_progress_done fuel (env : Env) l :
  progress_events l ≤ fuel → over (evict_progress fuel env l) = false ∨ no_progress (evict_progress fuel env l).
Proof.
  revert l. induction fuel as [|fuel IH]; intros l Hf; simpl.
  - right. intros id r Hr. assert (progress_events l = 0) as E by lia.
    destruct (o_progress r) eqn:Ep; [done|]. rewrite (drop_event_count id r) in E; [done|done|by rewrite Ep].
  - destruct (over l) eqn:Eo; [|by left]. destruct (evict_oldest_progress env l) as [l'|] eqn:Ee.
    + destruct (evict_oldest_progress_Some env l l' Ee) as (id & r & Hr & Hp & ->). apply IH.
      rewrite (drop_event_count id r) in Hf by done. lia.
    + right. intros id r Hr. unfold evict_oldest_progress in Ee. destruct (min_by _ _) as [[i x]|] eqn:Em; [done|].
      apply min_by_None in Em. destruct (o_progress r) eqn:Ep; [done|]. exfalso.
      apply (elem_of_nil (id, r)). rewrite <- Em. apply list_elem_of_filter. rewrite Ep. split; [done|].
      by apply elem_of_entries.
Qed.

(** Every record that ended, other than the protected one, is gone. *)
Definition only_protected (protected : str) (l : Ledger) : Prop :=
  ∀ id r, records l !! id = Some r → is_terminal r = true → id = protected.

Lemma forget_terminals_done fuel (env : Env) protected l :
  size (records l) ≤ fuel →
  over (forget_terminals fuel env protected l) = false ∨ only_protected protected (forget_terminals fuel env protected l).
Proof.
  revert l. induction fuel as [|fuel IH]; intros l Hf; simpl.
  - right. intros id r Hr. assert (records l = ∅) as E by (apply map_size_empty_inv; lia).
    by rewrite E, lookup_empty in Hr.
  - destruct (over l) eqn:Eo; [|by left]. destruct (oldest_terminal env protected l) as [id|] eqn:Ee.
    + apply IH. rewrite forget_records. unfold oldest_terminal in Ee. destruct (min_by _ _) as [[i x]|] eqn:Em; [|done].
      injection Ee as ->. apply min_by_elem, list_elem_of_filter in Em as [_ Em%elem_of_entries].
      rewrite map_size_delete_Some by by eexists. assert (size (records l) ≠ 0); [|lia].
      intros E%map_size_empty_inv. by rewrite E, lookup_empty in Em.
    + right. intros id r Hr Ht. destruct (decide (id = protected)) as [|Hn]; [done|]. exfalso.
      unfold oldest_terminal in Ee. destruct (min_by _ _) eqn:Em; [done|]. apply min_by_None in Em.
      apply (elem_of_nil (id, r)). rewrite <- Em. apply list_elem_of_filter. split; [done|]. by apply elem_of_entries.
Qed.

Lemma drop_unnoted_done ts (l : Ledger) :
  ts = tombstones l → over (drop_unnoted ts l) = false ∨ tombstones (drop_unnoted ts l) = [].
Proof.
  revert l. induction ts as [|t ts IH]; intros l E; simpl; destruct (over l) eqn:Eo; [by right|by left|by apply IH|by left].
Qed.

Lemma not_over_done (env : Env) protected fuel ts (l : Ledger) :
  over l = false →
  forget_terminals fuel env protected l = l ∧ strip_protected protected l = l ∧ drop_unnoted ts l = l.
Proof. intros E. unfold strip_protected. destruct fuel, ts; simpl; by rewrite E. Qed.

Lemma enforce_ceiling_gives_up (env : Env) protected (l : Ledger) :
  let l' := enforce_ceiling env protected l in
  over l' = false ∨
  (no_progress l' ∧ only_protected protected l' ∧ tombstones l' = [] ∧
   (∀ r, records l' !! protected = Some r → outcome r = None)).
Proof.
  unfold enforce_ceiling. set (l1 := evict_progress _ env l).
  destruct (evict_progress_done (progress_events l) env l (le_n _)) as [E|Hp];
    [fold l1 in E|fold l1 in Hp].
  { left. destruct (not_over_done env protected (size (records l1)) [] l1 E) as (-> & -> & _).
    by destruct (not_over_done env protected 0 (tombstones l1) l1 E) as (_ & _ & ->). }
  set (l2 := forget_terminals _ env protected l1).
  assert (no_progress l2) as Hp2.
  { apply (forget_terminals_keeps no_progress); [|done]. intros l' id r Hl' _ _ _ i r'.
    rewrite forget_records. intros [_ H]%lookup_delete_Some. by eapply Hl'. }
  destruct (forget_terminals_done (size (records l1)) env protected l1 (le_n _)) as [E|Ho];
    [fold l2 in E|fold l2 in Ho].
  { left. destruct (not_over_done env protected 0 [] l2 E) as (_ & -> & _).
    by destruct (not_over_done env protected 0 (tombstones l2) l2 E) as (_ & _ & ->). }
  set (l3 := strip_protected protected l2).
  destruct (over l2) eqn:E2.
  2: { left. destruct (not_over_done env protected 0 [] l2 E2) as (_ & E3 & _). unfold l3. rewrite E3.
       by destruct (not_over_done env protected 0 (tombstones l2) l2 E2) as (_ & _ & ->). }
  destruct (drop_unnoted_done (tombstones l3) l3 eq_refl) as [E|Ht]; [by left|right].
  assert (records (drop_unnoted (tombstones l3) l3) = records l3) as Em.
  { by apply (drop_unnoted_keeps (λ l', records l' = records l3)). }
  unfold no_progress, only_protected. rewrite Em.
  assert (∀ id r, records l3 !! id = Some r →
    (∃ r0, records l2 !! id = Some r0 ∧ (o_progress r = [] ∨ o_progress r = o_progress r0) ∧ (id ≠ protected → r = r0) ∧
      (id = protected → outcome r = None))) as H3.
  { intros id r. unfold l3, strip_protected. rewrite E2. destruct (records l2 !! protected) as [r0|] eqn:Er.
    - simpl. destruct (decide (id = protected)) as [->|Hn].
      + rewrite lookup_insert_eq. intros [= <-]. exists r0. split_and!; [done| |done|].
        * unfold strip. simpl. destruct (o_progress r0) eqn:E; [by left|by left].
        * intros _. unfold strip. by destruct (o_progress (bare r0)).
      + rewrite lookup_insert_ne by done. intros Hr. exists r. split_and!; [done|by right|done|done].
    - intros Hr. exists r. split_and!; [done|by right|done|]. intros ->. congruence. }
  split_and!; [|..|done|].
  - intros id r Hr. destruct (H3 id r Hr) as (r0 & Hr0 & [?|E] & _); [done|]. rewrite E. by eapply Hp2.
  - intros id r Hr Hte. destruct (decide (id = protected)) as [|Hn]; [done|].
    destruct (H3 id r Hr) as (r0 & Hr0 & _ & E & _). rewrite (E Hn) in Hte. by eapply Ho.
  - intros r Hr. destruct (H3 protected r Hr) as (_ & _ & _ & _ & E). by apply E.
Qed.
End ceiling.

(** ** What is forgotten is noted *)

Section noted.
Context `{ME : Memory} {Op : Type} (pid : str).
Notation Ledger := (Ledger Op).
Notation OpRecord := (OpRecord Op).
Notation Env := (Env Op).

(** The ledger owns to having dropped what it forgot at [w]. *)
Definition owned_to (w : N) (l : Ledger) : Prop :=
  ∃ through, evicted_through_unix_ms l = Some through ∧ (w <= through)%N.
(** An operation it forgot at [w] has its tombstone, or is owned to. *)
Definition buried (w : N) (l : Ledger) : Prop :=
  (∃ t, t ∈ tombstones l ∧ t_preparation_id t = pid ∧ forgotten_at_unix_ms t = w) ∨ owned_to w l.

Lemma owned_to_note w e l : owned_to w l → owned_to w (note_eviction e l).
Proof.
  intros (b & Hb & Hw). unfold owned_to. simpl. rewrite Hb. eexists. split; [done|]. lia.
Qed.

Lemma owned_to_noted e l : owned_to (forgotten_at_unix_ms e) (note_eviction e l).
Proof. unfold owned_to. simpl. eexists. split; [done|]. destruct (evicted_through_unix_ms l); lia. Qed.

(** Dropping the oldest tombstone notes it. *)
Lemma buried_drop w e ts c l :
  tombstones l = e :: ts → buried w l → buried w (note_eviction e (with_tombstones ts c l)).
Proof.
  intros E [(t & Ht & Hp & Hw)|Ho]; [|right; by apply owned_to_note].
  rewrite E in Ht. apply elem_of_cons in Ht as [->|Ht]; [right; rewrite <- Hw; apply owned_to_noted|].
  left. by exists t.
Qed.

Lemma buried_push w t l : buried w l → buried w (push_tombstone t l).
Proof.
  intros [(t' & Ht & Hp & Hw)|Ho]; [|by right]. left. exists t'. split_and!; [|done..].
  simpl. apply elem_of_app. by left.
Qed.

Lemma buried_forget w (env : Env) id s l : buried w l → buried w (forget env id s l).
Proof.
  intros H. unfold forget. destruct (records l !! id) as [r|]; [|done].
  enough (buried w (push_tombstone (bury env id s r)
    (if length (tombstones (with_records (delete id (records l)) (table_capacity l) l)) =? MAX_TOMBSTONES
     then default (with_records (delete id (records l)) (table_capacity l) l)
       (pop_tombstone (with_records (delete id (records l)) (table_capacity l) l))
     else with_records (delete id (records l)) (table_capacity l) l))) by done.
  apply buried_push. destruct (_ =? _); [|done]. unfold pop_tombstone. simpl.
  destruct (tombstones l) as [|e ts] eqn:E; [done|]. by apply (buried_drop w e ts).
Qed.

Lemma buried_drop_old w t ts l : ts = tombstones l → buried w l → buried w (drop_old t ts l).
Proof.
  revert l. induction ts as [|e ts IH]; intros l E H; simpl; [done|]. destruct (_ || _); [|done].
  apply IH; [done|]. by apply buried_drop.
Qed.

Lemma buried_drop_over w ts l : ts = tombstones l → buried w l → buried w (drop_over ts l).
Proof.
  revert l. induction ts as [|e ts IH]; intros l E H; simpl; destruct (over l); try done.
  apply IH; [done|]. by apply (buried_drop w e ts (tombstones_capacity l) l).
Qed.

Lemma buried_forget_all w (env : Env) s ids l : buried w l → buried w (foldl (λ l id, forget env id s l) l ids).
Proof. revert l. induction ids as [|id ids IH]; intros l H; [done|]. simpl. by apply IH, buried_forget. Qed.

Lemma buried_prune w (env : Env) t l : buried w l → buried w (prune env t l).
Proof.
  intros H. unfold prune. apply buried_drop_over; [done|].
  assert (∀ l', buried w l' → buried w (refresh_bytes l')) as Hr by done. apply Hr.
  apply buried_drop_old; [done|]. by apply buried_forget_all.
Qed.

(** A record that is forgotten is buried. *)
Lemma forget_buries (env : Env) s l :
  is_Some (records l !! pid) → buried (wall env pid) (forget env pid s l).
Proof.
  intros [r Hr]. unfold forget. rewrite Hr. left. exists (bury env pid s r). split; [|done]. simpl.
  apply elem_of_app. right. by apply list_elem_of_singleton.
Qed.

(** It is retained, or was forgotten and is buried. *)
Definition remembered (env : Env) (l : Ledger) : Prop :=
  is_Some (records l !! pid) ∨ buried (wall env pid) l.

Lemma remembered_forget (env : Env) id s l : remembered env l → remembered env (forget env id s l).
Proof.
  intros [H|H]; [|right; by apply buried_forget]. destruct (decide (id = pid)) as [->|Hn].
  - right. by apply forget_buries.
  - left. by rewrite forget_records, lookup_delete_ne.
Qed.

Lemma remembered_prune (env : Env) t l : remembered env l → remembered env (prune env t l).
Proof.
  intros H. unfold prune. set (ids := map fst _). set (l1 := foldl _ l ids).
  assert (remembered env l1) as [Hl|Hb].
  { unfold l1. clear l1. clearbody ids. revert l H. induction ids as [|id ids IH]; intros l H; [done|].
    simpl. by apply IH, remembered_forget. }
  - left. by apply (drop_over_keeps (λ l', is_Some (records l' !! pid))); [|apply (drop_old_keeps (λ l', is_Some (records l' !! pid)))].
  - right. apply buried_drop_over; [done|].
    assert (∀ l', buried (wall env pid) l' → buried (wall env pid) (refresh_bytes l')) as Hr by done. apply Hr.
    by apply buried_drop_old.
Qed.

(** Nothing is lost from one ledger to another. *)
Definition nothing_lost (env : Env) (l l' : Ledger) : Prop :=
  (remembered env l → remembered env l') ∧ ∀ w, buried w l → buried w l'.

Lemma nothing_lost_trans (env : Env) l1 l2 l3 :
  nothing_lost env l1 l2 → nothing_lost env l2 l3 → nothing_lost env l1 l3.
Proof. intros [? ?] [? ?]. split; auto. Qed.

Lemma prune_loses_nothing (env : Env) t l : nothing_lost env l (prune env t l).
Proof. split; [apply remembered_prune|intros w; apply buried_prune]. Qed.

Lemma forget_loses_nothing (env : Env) id s l : nothing_lost env l (forget env id s l).
Proof. split; [apply remembered_forget|intros w; apply buried_forget]. Qed.

(** The same tombstones, and no record gone. *)
Lemma tidy_loses_nothing (env : Env) l l' :
  tombstones l' = tombstones l → evicted_through_unix_ms l' = evicted_through_unix_ms l →
  (is_Some (records l !! pid) → is_Some (records l' !! pid)) → nothing_lost env l l'.
Proof.
  intros Ht He Hr. unfold nothing_lost, remembered, buried, owned_to. rewrite Ht, He. split; [|done].
  intros [?|?]; [left; auto|by right].
Qed.
End noted.

Section noted_host.
Context `{ME : Memory} {Op : Type} (op_bytes : Op → N) (this : HostBinding) (pid : str).
Notation Ledger := (Ledger Op).
Notation Env := (Env Op).
Notation Host := (Host (Op := Op)).
Notation nothing_lost := (nothing_lost pid).

Lemma prepare_loses_nothing (env : Env) k uuid b op bd intent (l : Ledger) :
  unused l (Prepare k uuid op bd intent) →
  nothing_lost env l (prepare_reserved op_bytes env uuid b op bd intent l).2.
Proof.
  intros Hu. unfold prepare_reserved. destruct (negb _); [by apply tidy_loses_nothing|].
  destruct (Identifier_new (lit "prep_" ++ uuid)) as [new|] eqn:Eid; [|by apply tidy_loses_nothing].
  assert (new = prep_id uuid) as ->.
  { unfold Identifier_new in Eid. destruct (Records.validate_opaque_string _ _); [|done]. by injection Eid as <-. }
  destruct (_ <? _)%N; [by apply tidy_loses_nothing|].
  set (r := new_record op_bytes env (prep_id uuid) op bd). unfold resize_reservation.
  set (l1 := prune env (later env) l).
  destruct (_ <? _)%N.
  { eapply nothing_lost_trans; [apply (prune_loses_nothing pid env (later env))|]. by apply tidy_loses_nothing. }
  set (l2 := with_reserved _ _ l1).
  eapply nothing_lost_trans; [apply (prune_loses_nothing pid env (later env))|]. fold l1.
  eapply (nothing_lost_trans pid env _ l2); [by apply tidy_loses_nothing|].
  eapply (nothing_lost_trans pid env _ (prune env (now env) l2)); [apply prune_loses_nothing|].
  assert (records (prune env (now env) l2) !! prep_id uuid = None) as Hnone.
  { rewrite prune_lookup. simpl. unfold l1. rewrite prune_lookup. simpl in Hu. by rewrite Hu. }
  pose proof (insert_reserved_lookup env r (reservation_bytes r) l2 pid) as H.
  assert (tombstones (insert_reserved env r (reservation_bytes r) l2).2 = tombstones (prune env (now env) l2) ∧
    evicted_through_unix_ms (insert_reserved env r (reservation_bytes r) l2).2 =
      evicted_through_unix_ms (prune env (now env) l2)) as [Ht He].
  { unfold insert_reserved. destruct (_ || _); [done|]. by destruct (over _). }
  destruct (insert_reserved env r (reservation_bytes r) l2) as [answer l3]. cbv zeta in H. simpl in Ht, He.
  assert (nothing_lost env (prune env (now env) l2) l3) as Hn.
  { apply tidy_loses_nothing; [done..|]. intros Hs. change (o_preparation_id r) with (prep_id uuid) in H.
    destruct (decide (pid = prep_id uuid)) as [->|Hne]; [rewrite Hnone in Hs; by destruct Hs|].
    rewrite lookup_insert_ne, lookup_delete_ne in H by done. destruct H as [[_ ->]|[_ [-> | ->]]]; done. }
  by destruct answer as [[]|].
Qed.

Lemma serve_loses_nothing env call (h : Host) :
  ledger_ok (ledger h) → unused (ledger h) call → ending_call call = false →
  nothing_lost env (ledger h) (ledger (serve op_bytes this env call h).2).
Proof.
  intros Hl Hu He.
  pose proof (prune_loses_nothing pid env (now env) (ledger h)) as Hp.
  assert (nothing_lost env (ledger h) (ledger h)) as Hsame by by apply tidy_loses_nothing.
  destruct call; try done; cbn [serve].
  - unfold serve_reserve, reserve. destruct (_ || _); [done|]. simpl.
    eapply nothing_lost_trans; [exact Hp|]. by apply tidy_loses_nothing.
  - unfold serve_abandon. destruct (held h !! _); [|done]. by apply tidy_loses_nothing.
  - unfold serve_prepare. destruct (held h !! _) as [n|]; [|done].
    pose proof (prepare_loses_nothing env reservation uuid n op b intent (ledger h) Hu) as H.
    by destruct (prepare_reserved _ _ _ _ _ _ _ _).
  - unfold serve_begin, host_begin. destruct (validate_host _ _); [|done].
    pose proof (begin_cases env request (tokens h) (ledger h)) as H. cbv zeta in H.
    destruct (begin env request (tokens h) (ledger h)) as [answer l'].
    assert (nothing_lost env (ledger h) l') as Hn; [|by destruct answer as [[]|]].
    destruct (H Hl) as [(r & op & Hr & _ & _ & _ & _ & _ & ->)|[-> _]]; [|done].
    eapply nothing_lost_trans; [exact Hp|]. apply tidy_loses_nothing; [done..|]. simpl.
    destruct (decide (pid = x_preparation_id request)) as [->|]; [by rewrite lookup_insert_eq|by rewrite lookup_insert_ne].
  - simpl. unfold host_capture_progress. destruct (Identifier_new k); [|done].
    destruct (ProgressChunkText_new message); [|done]. unfold capture_progress.
    destruct (running_for (ledger h) pid0 iid) as [r|] eqn:Er; [|done]. destruct (_ || _); [done|].
    apply running_for_Some in Er as (Hr & _ & _).
    set (l1 := refresh_bytes _). set (l2 := evict_progress _ env l1).
    apply tidy_loses_nothing.
    + by apply (evict_progress_keeps (λ l', tombstones l' = tombstones (ledger h))).
    + by apply (evict_progress_keeps (λ l', evicted_through_unix_ms l' = evicted_through_unix_ms (ledger h))).
    + intros Hs. pose proof (evict_progress_alike (progress_events l1) env l1 pid) as H. fold l2 in H.
      assert (is_Some (records l1 !! pid)) as [r1 Hr1].
      { simpl. destruct (decide (pid = pid0)) as [->|]; [by rewrite lookup_insert_eq|by rewrite lookup_insert_ne]. }
      rewrite Hr1 in H. assert (is_Some (records l2 !! pid)); [|done]. destruct (records l2 !! pid); [by eexists|inversion H].
  - unfold status_after, host_status. destruct (negb _); [done|].
    destruct (negb _); [destruct (after_sequence request); [by destruct (_ || _)|done]|].
    destruct (validate_host _ _); [|done].
    assert (nothing_lost env (ledger h) (status env (sel_preparation_id (selector request))
      (sel_invocation_id (selector request)) (ledger h)).2) as H.
    { unfold status. destruct (records _ !! _); [by destruct (is_some_and _ _)|done]. }
    destruct (status _ _ _ _) as [[s|e] l']; [|done]. destruct (after_sequence request); [by destruct (_ || _)|done].
  - unfold host_release. destruct (validate_host _ _); [|done].
    assert (nothing_lost env (ledger h) (release env pid0 iid (ledger h)).2) as H.
    { unfold release. destruct (records _ !! _); [|by destruct (find_tombstone _ _)].
      destruct (is_some_and _ _); [done|]. case_bool_decide; [done|].
      eapply nothing_lost_trans; [exact Hp|]. apply forget_loses_nothing. }
    by destruct (release _ _ _ _).
  - unfold serve_cancel, host_cancel. destruct (validate_host _ _); [|done].
    assert (nothing_lost env (ledger h) (cancel env request (ledger h)).2) as H.
    { unfold cancel. destruct (records _ !! _); [by destruct (negb _)|by destruct (find_tombstone _ _)]. }
    by destruct (cancel _ _ _) as [[r t] l'].
Qed.
End noted_host.

(** C17: In every host that requests lead to, what its ledger counts as reserved and as running is
    exactly what the preparations under inspection and the executions hold, and these together
    with every operation that waits fit the ceiling; so do the operations and preparations
    their limits.  No order of requests overcommits the ledger, and none of its saturating
    sums is ever reached. *)
Theorem never_overcommitted `{ME : Memory} {Op : Type} (op_bytes : Op → N) this calls :
  Forall (λ c, typed c.2) calls → NoDup (uuids calls) →
  let h := (serve_all op_bytes this calls new_host).2 in
  reserved_bytes (ledger h) = msum id (held h) ∧
  reservations (ledger h) = N.of_nat (size (held h)) ∧
  running_bytes (ledger h) = msum l_bytes (leases h) ∧
  (msum id (held h) + msum l_bytes (leases h) + unstarted (ledger h) <= MAX_LEDGER_BYTES)%N ∧
  (N.of_nat (size (records (ledger h)) + size (held h)) <= MAX_OPERATIONS)%N ∧
  (prepared_count (ledger h) + N.of_nat (size (held h)) <= MAX_PREPARATIONS)%N.
Proof.
  intros Ht Hn h.
  destruct (serve_all_accounts op_bytes this calls new_host Ht new_host_ok Hn (new_to_come _) new_accounts)
    as [A1 A2 A3 [B1 B2 B3]]. fold h in A1, A2, A3, B1, B2, B3.
  split_and!; [done..| | |].
  - by rewrite <- A1, <- A3.
  - rewrite Nat2N.inj_add, <- A2, <- msum_size. done.
  - rewrite <- A2, prepared_count_waiting. done.
Qed.

(** C22: Enforcing the ceiling ends with the ledger within it, or with nothing left to give up:
    no progress, no other operation that ended, no outcome of the one that just did, and no
    tombstones. *)
Theorem ceiling_gives_up `{ME : Memory} {Op : Type} (env : Env Op) protected (l : Ledger Op) :
  let l' := enforce_ceiling env protected l in
  (total_bytes l' <= MAX_LEDGER_BYTES)%N ∨
  (no_progress l' ∧ only_protected protected l' ∧ tombstones l' = [] ∧
   (∀ r, records l' !! protected = Some r → outcome r = None)).
Proof.
  destruct (enforce_ceiling_gives_up env protected l) as [E|H]; [left|by right]. by apply N.ltb_ge in E.
Qed.

Module ExampleBytes.
Export ExampleLedger.

Definition begin_of (u : str) (iid : str) : Call (Op := N) :=
  Begin {| x_preparation_id := prep_id u; x_invocation_id := iid; x_host := this |}.
Definition u2 : str := lit "0002".

(** One operation ran and was released; another runs, and a reservation takes what is left. *)
Definition first_calls : list (Env N * Call (Op := N)) :=
  [(at_ 0, Reserve 1000); (at_ 0, Prepare 0 uuid 7%N bound intent); (at_ 1, begin_of uuid (lit "a"));
   (at_ 2, Finish (prep_id uuid) (lit "a") done_); (at_ 2, DropLease 0);
   (at_ 3, Release (prep_id uuid) (Some (lit "a")) this);
   (at_ 4, Reserve 1000); (at_ 4, Prepare 0 u2 9%N bound intent); (at_ 5, begin_of u2 (lit "b"))].
Definition room : N :=
  MAX_LEDGER_BYTES - total_bytes (ledger (serve_all (λ b, b) this first_calls new_host).2) - 8.
Definition full_calls : list (Env N * Call (Op := N)) := first_calls ++ [(at_ 6, Reserve room)].

(** A line of progress of the second, and its end. *)
Definition then_calls : list (Env N * Call (Op := N)) :=
  [(at_ 7, Progress (prep_id u2) (lit "b") 1 (lit "stdout") (lit "x"));
   (at_ 8, Finish (prep_id u2) (lit "b") done_)].
Definition is_it_known : Env N * Call (Op := N) :=
  (at_ 9, Status {| after_sequence := None;
     selector := {| sel_preparation_id := prep_id uuid; sel_invocation_id := None; sel_host := this |} |}).

Lemma first_typed : Forall (λ c, typed c.2) first_calls.
Proof. repeat constructor; vm_compute; discriminate. Qed.
Lemma full_typed : Forall (λ c, typed c.2) full_calls.
Proof. apply Forall_app; split; [exact first_typed|]. by apply Forall_singleton. Qed.
Lemma full_unlike : NoDup (uuids full_calls).
Proof. apply (bool_decide_unpack _). vm_compute. exact I. Qed.

Lemma never_overcommitted_witness :
  let h := (serve_all (λ b, b) this full_calls new_host).2 in
  msum id (held h) = room ∧ size (leases h) = 1 ∧
  (msum id (held h) + msum l_bytes (leases h) + unstarted (ledger h) <= MAX_LEDGER_BYTES)%N.
Proof.
  split; [vm_compute; reflexivity|]. split; [vm_compute; reflexivity|].
  destruct (never_overcommitted (λ b, b) this full_calls full_typed full_unlike) as (_ & _ & _ & H & _).
  exact H.
Defined.

Lemma lost_shape (pid : str) (answers : list (Answer (Op := N))) :
  existsb (starts pid) answers = true →
  match last answers with
  | Some (AStatus (Ok s)) => s_preparation_id s = pid ∧ state s = NeverSeen ∧
      HostContract.tombstones_evicted_through_unix_ms s = None
  | _ => False
  end →
  (∃ a, a ∈ answers ∧ starts pid a = true) ∧
  ∃ s, last answers = Some (AStatus (Ok s)) ∧ s_preparation_id s = pid ∧ state s = NeverSeen ∧
    HostContract.tombstones_evicted_through_unix_ms s = None.
Proof.
  intros (a & Ha & Hs)%existsb_exists H. split; [exists a; split; [by apply list_elem_of_In|done]|].
  destruct (last answers) as [[| | |[s|]| | |]|]; try done. by exists s.
Qed.

(** The boundary is not noted: the first operation ran, and is said never to have been seen. *)
Definition lost_calls : list (Env N * Call (Op := N)) := full_calls ++ then_calls ++ [is_it_known].
Lemma lost_typed : Forall (λ c, typed c.2) lost_calls.
Proof. apply Forall_app; split; [exact full_typed|]. repeat constructor; vm_compute; discriminate. Qed.
Lemma lost_unlike : NoDup (uuids lost_calls).
Proof. apply (bool_decide_unpack _). vm_compute. exact I. Qed.
Lemma lost_answers :
  let answers := (serve_all (λ b, b) this lost_calls new_host).1 in
  existsb (starts (prep_id uuid)) answers = true ∧
  match last answers with
  | Some (AStatus (Ok s)) => s_preparation_id s = prep_id uuid ∧ state s = NeverSeen ∧
      HostContract.tombstones_evicted_through_unix_ms s = None
  | _ => False
  end.
Proof. vm_compute. by split_and!. Qed.
End ExampleBytes.

(** C21: Whatever a call makes a host forget, save one that ends an execution, stays known: an
    operation that is retained stays so or leaves a tombstone, and a tombstone stays or the
    ledger owns to having dropped it, by a boundary no earlier than when it was forgotten and
    that never goes back.  A call that ends an execution does not: a host can answer that it
    never saw an operation that ran, with no boundary at all. *)
Theorem forgotten_is_noted :
  (∀ `{ME : Memory} {Op : Type} (op_bytes : Op → N) this calls env call pid,
     Forall (λ c, typed c.2) calls → NoDup (uuids (calls ++ [(env, call)])) → ending_call call = false →
     let l := ledger (serve_all op_bytes this calls new_host).2 in
     let l' := ledger (serve op_bytes this env call (serve_all op_bytes this calls new_host).2).2 in
     (is_Some (records l !! pid) → is_Some (records l' !! pid) ∨ buried pid (wall env pid) l') ∧
     (∀ w, buried pid w l → buried pid w l') ∧ (∀ w, owned_to w l → owned_to w l')) ∧
  (∃ `{ME : Memory} this calls pid,
     Forall (λ c, typed c.2) calls ∧ NoDup (uuids calls) ∧
     let answers := (serve_all (Op := N) (λ b, b) this calls new_host).1 in
     (∃ a, a ∈ answers ∧ starts pid a = true) ∧
     ∃ s, last answers = Some (AStatus (Ok s)) ∧ s_preparation_id s = pid ∧ state s = NeverSeen ∧
       HostContract.tombstones_evicted_through_unix_ms s = None).
Proof.
  split.
  - intros ME Op op_bytes this calls env call pid Ht Hn He l l'.
    destruct (serve_all_to_come op_bytes this calls [(env, call)] new_host Ht new_host_ok Hn (new_to_come _)) as [_ Hc].
    assert (unused l call) as Hu by (destruct call; try done; apply Hc; by left).
    assert (ledger_ok l) as Hl by (apply serve_all_ok; [done|apply new_host_ok]).
    destruct (serve_loses_nothing op_bytes this pid env call _ Hl Hu He) as [H1 H2].
    split_and!; [intros H; apply H1; by left|done|].
    intros w Hw. set (other := fresh (list_to_set (map t_preparation_id (tombstones l')) : gset str)).
    destruct (serve_loses_nothing op_bytes this other env call _ Hl Hu He) as [_ H3].
    destruct (H3 w (or_intror Hw)) as [(t & Ht' & Hp & _)|]; [|done]. exfalso.
    apply (is_fresh (list_to_set (map t_preparation_id (tombstones l')) : gset str)). fold other.
    rewrite <- Hp. apply elem_of_list_to_set. by apply list_elem_of_fmap_2.
  - exists ExampleLedger.memory, ExampleLedger.this, ExampleBytes.lost_calls, (prep_id ExampleLedger.uuid).
    destruct ExampleBytes.lost_answers as [H1 H2].
    split; [exact ExampleBytes.lost_typed|]. split; [exact ExampleBytes.lost_unlike|].
    exact (ExampleBytes.lost_shape _ _ H1 H2).
Qed.

Module ExampleNoted.
Export ExampleLedger.

Definition prepared_calls : list (Env N * Call (Op := N)) :=
  [(at_ 0, Reserve 1000); (at_ 0, Prepare 0 uuid 7%N bound intent)].
Definition release_call : Call (Op := N) := Release (prep_id uuid) None this.

Lemma released_record :
  let h := (serve_all (λ b, b) this prepared_calls new_host).2 in
  bool_decide (is_Some (records (ledger h) !! prep_id uuid)) = true ∧
  bool_decide (is_Some (records (ledger (serve (λ b, b) this (at_ 1) release_call h).2) !! prep_id uuid)) = false.
Proof. vm_compute. by split. Qed.

(** Released, it leaves its tombstone. *)
Lemma forgotten_is_noted_witness :
  buried (prep_id uuid) 1000
    (ledger (serve (λ b, b) this (at_ 1) release_call (serve_all (λ b, b) this prepared_calls new_host).2).2).
Proof.
  destruct released_record as [H1%bool_decide_eq_true H2%bool_decide_eq_false].
  assert (Forall (λ c : Env N * Call (Op := N), typed c.2) prepared_calls) as Ht by (by repeat constructor).
  assert (NoDup (uuids (prepared_calls ++ [(at_ 1, release_call)]))) as Hn by (by apply NoDup_singleton).
  destruct (proj1 forgotten_is_noted _ _ (λ b, b) this prepared_calls (at_ 1) release_call (prep_id uuid) Ht Hn eq_refl)
    as [H _].
  destruct (H H1) as [H3|H3]; [by destruct (H2 H3)|exact H3].
Defined.
End ExampleNoted.
