(* ===== verification/Watch.v ===== *)
(** * Watches of the workspace

    [src/remote_host.rs], [WatchRegistry]: subscriptions to changes of the workspace, the events
    each retains, the cursors a client resumes from, and the tombstones of what ended.  The
    watcher of the file tools delivers batches of events, an argument of a poll. *)

From stdpp Require Import gmap sorting.
From S2P Require Import Prelude HostContract Ledger RemoteHost LedgerSafe.

Definition MAX_WATCH_TOMBSTONES : nat := 32.
Definition WATCH_TOMBSTONE_TTL : N := 600 * SECOND.
Definition SUBSCRIPTION_TTL : N := WATCH_SUBSCRIPTION_TTL_MS * 1000000.

(** ** Data *)

Inductive WorkspaceWatchFailure := FailureOverflow | FailureBackend.
Record WorkspaceWatchEvent := { e_kind : WatchEventKind; e_path : str }.
Record WorkspaceWatchBatch := { b_events : list WorkspaceWatchEvent; b_failure : option WorkspaceWatchFailure }.

Record RetainedWatchEvent := { event : WatchEvent; cursor : str; e_bytes : N }.
Record WatchSubscription := {
  s_binding : WorkspaceRequestBinding; s_expires_at : N; s_expires_unix_ms : N;
  s_events : list RetainedWatchEvent; retained_bytes : N; cursor_sequences : gmap str N;
  s_next_sequence : N;
}.
Record WatchTombstone := {
  wt_binding : WorkspaceRequestBinding; wt_reason : WatchResyncReason; retained_until : N;
}.
Record WatchRegistry := {
  subscriptions : gmap str WatchSubscription; w_tombstones : gmap str WatchTombstone;
  tombstone_order : list str;
}.

(** What a call reads of the host: the instant, and the one a second reading gives, the wall clock,
    the order in which the table of subscriptions lists its entries, and new identifiers: of a subscription, of its first
    cursor, and of the cursor of each event. *)
Record WatchEnv := {
  w_now : N; w_later : N; w_unix_ms : N;
  w_iteration : list (str * WatchSubscription) → list (str * WatchSubscription);
  w_iteration_perm : ∀ l, w_iteration l ≡ₚ l;
  subscription_uuid : str; first_uuid : str; event_uuid : N → str;
}.

Definition empty_registry : WatchRegistry :=
  {| subscriptions := ∅; w_tombstones := ∅; tombstone_order := [] |}.

Definition watch_id (uuid : str) : str := lit "watch_" ++ uuid.
Definition cursor_id (uuid : str) : str := lit "watch_cursor_" ++ uuid.

(** ** Answers *)

Definition watch_resync (id : str) (reason : WatchResyncReason) : WatchPollResponse :=
  {| subscription_id := id; watch_state := FullResync; resync_reason := Some reason;
     w_first_retained_sequence := None; w_next_sequence := 1; events := []; next_cursor := None;
     w_expires_at_unix_ms := None |}.

Definition watch_failure_reason (f : option WorkspaceWatchFailure) : option WatchResyncReason :=
  match f with
  | None => None
  | Some FailureOverflow => Some Overflow
  | Some FailureBackend => Some BackendError
  end.

Definition validate_watch_binding (expected actual : WorkspaceRequestBinding) :
    Result unit RemoteOperationError :=
  if bool_decide (expected = actual) then Ok tt else Err BindingMismatch.

(** ** The registry *)

Section registry.
Context `{ME : Memory}.

Definition with_subscription (id : str) (s : WatchSubscription) (reg : WatchRegistry) : WatchRegistry :=
  {| subscriptions := <[id := s]> (subscriptions reg); w_tombstones := w_tombstones reg;
     tombstone_order := tombstone_order reg |}.

(** Drops the oldest tombstones while they are too many. *)
Fixpoint bound_tombstones (order : list str) (m : gmap str WatchTombstone) : list str * gmap str WatchTombstone :=
  match order with
  | [] => ([], m)
  | id :: order' =>
      if MAX_WATCH_TOMBSTONES <? length order then bound_tombstones order' (delete id m) else (order, m)
  end.

Definition remove (id : str) (reason : WatchResyncReason) (t : N) (reg : WatchRegistry) : WatchRegistry :=
  match subscriptions reg !! id with
  | None => reg
  | Some s =>
      let '(order, m) :=
        bound_tombstones (tombstone_order reg ++ [id])
          (<[id := {| wt_binding := s_binding s; wt_reason := reason;
                      retained_until := t + WATCH_TOMBSTONE_TTL |}]> (w_tombstones reg)) in
      {| subscriptions := delete id (subscriptions reg); w_tombstones := m; tombstone_order := order |}
  end.

(** Drops the oldest tombstones that are past their time. *)
Fixpoint expire_tombstones (t : N) (order : list str) (m : gmap str WatchTombstone) :
    list str * gmap str WatchTombstone :=
  match order with
  | [] => ([], m)
  | id :: order' =>
      match m !! id with
      | Some tombstone =>
          if (retained_until tombstone <=? t)%N then expire_tombstones t order' (delete id m) else (order, m)
      | None => (order, m)
      end
  end.

Definition expire (env : WatchEnv) (reg : WatchRegistry) : WatchRegistry :=
  let t := w_now env in
  let expired :=
    map fst (filter (fun '(_, s) => (s_expires_at s <= t)%N) (w_iteration env (map_to_list (subscriptions reg)))) in
  let reg := foldl (fun reg id => remove id SubscriptionExpired t reg) reg expired in
  let '(order, m) := expire_tombstones t (tombstone_order reg) (w_tombstones reg) in
  {| subscriptions := subscriptions reg; w_tombstones := m; tombstone_order := order |}.

(** *** Events *)

(** Drops the oldest events while they are too many or too large. *)
Fixpoint trim_events (l : list RetainedWatchEvent) (b : N) : list RetainedWatchEvent * N :=
  match l with
  | [] => ([], b)
  | e :: l' =>
      if (MAX_WATCH_RETAINED_EVENTS <? length l) || (MAX_WATCH_RETAINED_BYTES <? b)%N
      then trim_events l' (b - e_bytes e) else (l, b)
  end.

Definition append_event (env : WatchEnv) (pending : WorkspaceWatchEvent) (s : WatchSubscription) :
    option WatchSubscription :=
  if (MAX_WATCH_LIFETIME_EVENTS <? s_next_sequence s)%N then None
  else
    let e := {| w_sequence := s_next_sequence s; w_kind := e_kind pending; w_path := e_path pending |} in
    match encoded_watch e with
    | None => None
    | Some b =>
        if (MAX_WATCH_RETAINED_BYTES <? b)%N then None
        else
          match Cursor_new (cursor_id (event_uuid env (s_next_sequence s))) with
          | Err _ => None
          | Ok c =>
              let '(l, total) :=
                trim_events (s_events s ++ [{| event := e; cursor := c; e_bytes := b |}])
                  (u64_sat_add (retained_bytes s) b) in
              Some {| s_binding := s_binding s; s_expires_at := s_expires_at s;
                      s_expires_unix_ms := s_expires_unix_ms s; s_events := l; retained_bytes := total;
                      cursor_sequences := <[c := w_sequence e]> (cursor_sequences s);
                      s_next_sequence := u64_sat_add (s_next_sequence s) 1 |}
          end
    end.

(** Whether all were appended, and the subscription with those that were. *)
Fixpoint append_all (env : WatchEnv) (pending : list WorkspaceWatchEvent) (s : WatchSubscription) :
    bool * WatchSubscription :=
  match pending with
  | [] => (true, s)
  | p :: pending' =>
      match append_event env p s with
      | None => (false, s)
      | Some s' => append_all env pending' s'
      end
  end.

Definition append_events (env : WatchEnv) (id : str) (batch : WorkspaceWatchBatch) (reg : WatchRegistry) :
    bool * WatchRegistry :=
  match subscriptions reg !! id with
  | None => (false, reg)
  | Some s =>
      let '(ok, s') := append_all env (b_events batch) s in (ok, with_subscription id s' reg)
  end.

(** The events a response has room for, and the cursor after them. *)
Fixpoint take_events (max_events max_bytes : N) (l : list RetainedWatchEvent) (taken : list WatchEvent)
    (b : N) (next : str) : list WatchEvent * str :=
  match l with
  | [] => (taken, next)
  | r :: l' =>
      if (max_events <=? N.of_nat (length taken))%N || (max_bytes <? u64_sat_add b (e_bytes r))%N
      then (taken, next)
      else take_events max_events max_bytes l' (taken ++ [event r]) (u64_sat_add b (e_bytes r)) (cursor r)
  end.

Definition poll_response (env : WatchEnv) (request : WatchPollRequest) (reg : WatchRegistry) :
    Result WatchPollResponse RemoteOperationError * WatchRegistry :=
  let id := wp_subscription_id request in
  match subscriptions reg !! id with
  | None => (Err NotFound, reg)
  | Some s =>
      match cursor_sequences s !! wp_cursor request with
      | None => (Ok (watch_resync id CursorInvalid), remove id CursorInvalid (w_later env) reg)
      | Some after =>
          let first := option_map (fun r => w_sequence (event r)) (head (s_events s)) in
          if is_some_and (fun first => (u64_sat_add after 1 <? first)%N) first
          then (Ok (watch_resync id RetentionLost), remove id RetentionLost (w_later env) reg)
          else
            let '(es, next) :=
              take_events (max_events request) (max_bytes request)
                (filter (fun r => (after < w_sequence (event r))%N) (s_events s)) [] 0 (wp_cursor request) in
            (Ok {| subscription_id := id; watch_state := Current; resync_reason := None;
                   w_first_retained_sequence := first; w_next_sequence := s_next_sequence s; events := es;
                   next_cursor := Some next; w_expires_at_unix_ms := Some (s_expires_unix_ms s) |}, reg)
      end
  end.

Definition resync_for (request : WatchPollRequest) (reg : WatchRegistry) :
    Result WatchPollResponse RemoteOperationError :=
  match w_tombstones reg !! wp_subscription_id request with
  | Some t =>
      (let? _ := validate_watch_binding (wt_binding t) (wp_binding request) in
       Ok (watch_resync (wp_subscription_id request) (wt_reason t)))%W
  | None => Ok (watch_resync (wp_subscription_id request) CursorInvalid)
  end.

(** ** Requests *)

Context (this : HostBinding).

Definition open_watch (env : WatchEnv) (request : WatchOpenRequest) (reg : WatchRegistry) :
    Result WatchOpenResponse RemoteOperationError * WatchRegistry :=
  match validate_host this (w_host (wo_binding request)) with
  | Err e => (Err e, reg)
  | Ok _ =>
      match Identifier_new (watch_id (subscription_uuid env)), Cursor_new (cursor_id (first_uuid env)) with
      | Ok id, Ok c =>
          let unix := u64_sat_add (w_unix_ms env) WATCH_SUBSCRIPTION_TTL_MS in
          let reg := expire env reg in
          if MAX_WATCH_SUBSCRIPTIONS <=? size (subscriptions reg) then (Err QuotaExceeded, reg)
          else
            (Ok {| wo_subscription_id := id; wo_state := Current; wo_cursor := c; wo_expires_at_unix_ms := unix |},
             with_subscription id
               {| s_binding := wo_binding request; s_expires_at := w_now env + SUBSCRIPTION_TTL;
                  s_expires_unix_ms := unix; s_events := []; retained_bytes := 0;
                  cursor_sequences := {[c := 0%N]}; s_next_sequence := 1 |} reg)
      | _, _ => (Err Internal, reg)
      end
  end.

(** [poll_watch] until it waits for the watcher: its answer, where it does not wait. *)
Definition poll_watch (env : WatchEnv) (request : WatchPollRequest) (reg : WatchRegistry) :
    option (Result WatchPollResponse RemoteOperationError) * WatchRegistry :=
  let h := w_host (wp_binding request) in
  if negb (poll_request_valid request) then (Some (Err InvalidRequest), reg)
  else if negb (bool_decide (instance_id h = instance_id this)) then
    (Some (if same_remote_identity h this
           then Ok (watch_resync (wp_subscription_id request) InstanceChanged) else Err BindingMismatch), reg)
  else
    match validate_host this h with
    | Err e => (Some (Err e), reg)
    | Ok _ =>
        let reg := expire env reg in
        match subscriptions reg !! wp_subscription_id request with
        | None => (Some (resync_for request reg), reg)
        | Some s =>
            match validate_watch_binding (s_binding s) (wp_binding request) with
            | Err e => (Some (Err e), reg)
            | Ok _ => (None, reg)
            end
        end
    end.

Definition finish_watch_poll (env : WatchEnv) (request : WatchPollRequest) (batch : WorkspaceWatchBatch)
    (reg : WatchRegistry) : Result WatchPollResponse RemoteOperationError * WatchRegistry :=
  let id := wp_subscription_id request in
  let reg := expire env reg in
  match subscriptions reg !! id with
  | None => (resync_for request reg, reg)
  | Some s =>
      match validate_watch_binding (s_binding s) (wp_binding request) with
      | Err e => (Err e, reg)
      | Ok _ =>
          match watch_failure_reason (b_failure batch) with
          | Some reason => (Ok (watch_resync id reason), remove id reason (w_later env) reg)
          | None =>
              let '(ok, reg) := append_events env id batch reg in
              if ok : bool then poll_response env request reg
              else (Ok (watch_resync id Overflow), remove id Overflow (w_later env) reg)
          end
      end
  end.

Definition close_watch (env : WatchEnv) (request : WatchCloseRequest) (reg : WatchRegistry) :
    Result WatchCloseResponse RemoteOperationError * WatchRegistry :=
  let id := wc_subscription_id request in
  let answer b := {| wc_response_id := id; closed := b |} in
  match validate_host this (w_host (wc_binding request)) with
  | Err e => (Err e, reg)
  | Ok _ =>
      let reg := expire env reg in
      match subscriptions reg !! id with
      | Some s =>
          match validate_watch_binding (s_binding s) (wc_binding request) with
          | Err e => (Err e, reg)
          | Ok _ => (Ok (answer true), remove id SubscriptionClosed (w_later env) reg)
          end
      | None =>
          match w_tombstones reg !! id with
          | Some t =>
              (let? _ := validate_watch_binding (wt_binding t) (wc_binding request) in Ok (answer false), reg)%W
          | None => (Ok (answer false), reg)
          end
      end
  end.

(** The task that waits for a subscription to expire. *)
Definition watch_expiry (env : WatchEnv) (id : str) (reg : WatchRegistry) : WatchRegistry :=
  remove id SubscriptionExpired (w_now env) reg.
End registry.

(** ** Calls *)

Section calls.
Context `{ME : Memory} (this : HostBinding).

Inductive WatchCall :=
| WOpen (request : WatchOpenRequest)
| WPoll (request : WatchPollRequest)
| WFinish (request : WatchPollRequest) (batch : WorkspaceWatchBatch)
| WClose (request : WatchCloseRequest)
| WExpiry (id : str).

Definition serve_watch (env : WatchEnv) (call : WatchCall) (reg : WatchRegistry) :
    option (Result WatchPollResponse RemoteOperationError) * WatchRegistry :=
  match call with
  | WOpen request => (None, (open_watch this env request reg).2)
  | WPoll request => poll_watch this env request reg
  | WFinish request batch =>
      let '(r, reg) := finish_watch_poll env request batch reg in (Some r, reg)
  | WClose request => (None, (close_watch this env request reg).2)
  | WExpiry id => (None, watch_expiry env id reg)
  end.

(** ** One subscription *)

(** The events of a batch, numbered from [n]. *)
Fixpoint assigned (n : N) (l : list WorkspaceWatchEvent) : list WatchEvent :=
  match l with
  | [] => []
  | p :: l' => {| w_sequence := n; w_kind := e_kind p; w_path := e_path p |} :: assigned (n + 1) l'
  end.

(** A subscription that took [all]: they are numbered from one, it retains the last of them
    within its limits, and each cursor stands where its event does. *)
Record sub_ok (all : list WatchEvent) (s : WatchSubscription) : Prop := {
  so_numbered : ∀ i e, all !! i = Some e → w_sequence e = N.of_nat (S i);
  so_retained : ∃ dropped, all = dropped ++ map event (s_events s);
  so_some : s_events s = [] → all = [];
  so_next : s_next_sequence s = (N.of_nat (length all) + 1)%N;
  so_few : (N.of_nat (length all) <= MAX_WATCH_LIFETIME_EVENTS)%N;
  so_cursors : ∀ r, r ∈ s_events s → cursor_sequences s !! cursor r = Some (w_sequence (event r));
  so_within : ∀ c n, cursor_sequences s !! c = Some n → (n <= N.of_nat (length all))%N;
  so_events : length (s_events s) ≤ MAX_WATCH_RETAINED_EVENTS;
  so_bytes : retained_bytes s = foldr N.add 0%N (map e_bytes (s_events s)) ∧
    (retained_bytes s <= MAX_WATCH_RETAINED_BYTES)%N;
}.

(** The cursors of the events to come are new, and unlike each other. *)
Definition new_cursors (env : WatchEnv) (s : WatchSubscription) : Prop :=
  (∀ n n', event_uuid env n = event_uuid env n' → n = n') ∧
  ∀ n, (s_next_sequence s <= n)%N → cursor_sequences s !! cursor_id (event_uuid env n) = None.

Lemma assigned_app n l l' : assigned n (l ++ l') = assigned n l ++ assigned (n + N.of_nat (length l)) l'.
Proof.
  revert n. induction l as [|p l IH]; intros n; simpl; [by rewrite N.add_0_r|].
  rewrite IH. do 3 f_equal. lia.
Qed.

Lemma trim_events_spec l b l' b' :
  trim_events l b = (l', b') → b = foldr N.add 0%N (map e_bytes l) →
  (∃ d, l = d ++ l') ∧ b' = foldr N.add 0%N (map e_bytes l') ∧
  length l' ≤ MAX_WATCH_RETAINED_EVENTS ∧ (b' <= MAX_WATCH_RETAINED_BYTES)%N.
Proof.
  revert b. induction l as [|e l IH]; intros b.
  - intros [= <- <-] ->. split_and!; [by exists []|done|unfold MAX_WATCH_RETAINED_EVENTS; simpl; lia|done].
  - intros H Hb. change (trim_events (e :: l) b) with
      (if (MAX_WATCH_RETAINED_EVENTS <? length (e :: l)) || (MAX_WATCH_RETAINED_BYTES <? b)%N
       then trim_events l (b - e_bytes e) else (e :: l, b)) in H.
    destruct (_ || _) eqn:E.
    + apply IH in H as ((d & ->) & H); [|simpl in Hb; lia]. split; [by exists (e :: d)|done].
    + injection H as <- <-. apply orb_false_iff in E as [E1%Nat.ltb_ge E2%N.ltb_ge].
      split_and!; [by exists []|done..].
Qed.

(** The newest event stays, when it fits on its own. *)
Lemma trim_events_some l r b :
  b = foldr N.add 0%N (map e_bytes (l ++ [r])) → (e_bytes r <= MAX_WATCH_RETAINED_BYTES)%N →
  (trim_events (l ++ [r]) b).1 ≠ [].
Proof.
  intros Hb Hr. revert b Hb. induction l as [|e l IH]; intros b Hb; simpl.
  - simpl in Hb. subst b. rewrite N.add_0_r. apply N.ltb_ge in Hr. by rewrite Hr.
  - destruct (_ || _); [|done]. apply IH. simpl in Hb. lia.
Qed.

Lemma append_event_ok (env : WatchEnv) all p s s' :
  sub_ok all s → new_cursors env s → append_event env p s = Some s' →
  sub_ok (all ++ assigned (s_next_sequence s) [p]) s' ∧ new_cursors env s' ∧
  (∀ c n, cursor_sequences s !! c = Some n → cursor_sequences s' !! c = Some n) ∧
  s_binding s' = s_binding s.
Proof.
  intros [S1 [d S2] S0 S3 S4 S5 S6 S7 [S8 S9]] [Hinj Hnew] Happ. unfold append_event in Happ.
  destruct (_ <? s_next_sequence s)%N eqn:El; [done|]. apply N.ltb_ge in El.
  destruct (encoded_watch _) as [b|]; [|done]. destruct (_ <? b)%N eqn:Eb; [done|]. apply N.ltb_ge in Eb.
  destruct (Cursor_new _) as [c|] eqn:Ec; [|done].
  assert (c = cursor_id (event_uuid env (s_next_sequence s))) as ->.
  { unfold Cursor_new in Ec. destruct (Records.validate_opaque_string _ _); [|done]. by injection Ec as <-. }
  set (e := {| w_sequence := s_next_sequence s; w_kind := e_kind p; w_path := e_path p |}) in *.
  set (r := {| event := e; cursor := _; e_bytes := b |}) in *.
  destruct (trim_events _ _) as [l total] eqn:Et. injection Happ as <-.
  assert (u64_sat_add (retained_bytes s) b = retained_bytes s + b)%N as Hsat
    by (unfold u64_sat_add, MAX_WATCH_RETAINED_BYTES in *; lia).
  assert (u64_sat_add (retained_bytes s) b = foldr N.add 0%N (map e_bytes (s_events s ++ [r]))) as Hsum.
  { rewrite Hsat, S8, map_app, foldr_app. simpl. clear. induction (s_events s) as [|x xs IH]; simpl; lia. }
  pose proof (trim_events_some (s_events s) r _ Hsum Eb) as Hsome. rewrite Et in Hsome.
  apply trim_events_spec in Et as ((d' & Hd') & -> & Hl & Hb); [|done].
  pose proof (Hnew (s_next_sequence s) (N.le_refl _)) as Hc0.
  assert (u64_sat_add (s_next_sequence s) 1 = s_next_sequence s + 1)%N as Hn1
    by (unfold u64_sat_add, MAX_WATCH_LIFETIME_EVENTS in *; lia).
  split_and!; [|split; [done|]|..|done]; simpl; rewrite ?Hn1.
  - split; simpl; rewrite ?length_app; simpl.
    + intros i x [Hi|[Hi Hx]]%lookup_app_Some; [by apply S1|].
      destruct (i - length all) as [|k] eqn:Ek; [|by destruct k]. injection Hx as <-. simpl. rewrite S3. lia.
    + exists (d ++ map event d'). rewrite S2, <- !app_assoc. f_equal.
      transitivity (map event (s_events s ++ [r])); [by rewrite map_app|]. by rewrite Hd', map_app.
    + done.
    + rewrite S3. lia.
    + rewrite S3 in El. lia.
    + intros x Hx. assert (x ∈ s_events s ++ [r]) as [Hin|Hin%list_elem_of_singleton]%elem_of_app
        by (rewrite Hd'; apply elem_of_app; by right).
      * pose proof (S5 _ Hin) as Hold. rewrite lookup_insert_ne; [done|]. intros E. rewrite <- E in Hold. congruence.
      * subst x. by rewrite lookup_insert_eq.
    + intros c n [[_ <-]|[_ Hn]]%lookup_insert_Some; [rewrite S3; lia|]. apply S6 in Hn. lia.
    + done.
    + done.
  - intros n Hn. rewrite lookup_insert_ne; [apply Hnew; lia|]. intros E%app_inv_head%Hinj. lia.
  - intros c n Hn. rewrite lookup_insert_ne; [done|]. intros E. subst c. congruence.
Qed.

Lemma append_all_ok (env : WatchEnv) all l s s' :
  sub_ok all s → new_cursors env s → append_all env l s = (true, s') →
  sub_ok (all ++ assigned (s_next_sequence s) l) s' ∧
  (∀ c n, cursor_sequences s !! c = Some n → cursor_sequences s' !! c = Some n) ∧
  s_binding s' = s_binding s.
Proof.
  revert all s. induction l as [|p l IH]; intros all s Hs Hn Happ; simpl in Happ.
  - injection Happ as <-. simpl. by rewrite app_nil_r.
  - destruct (append_event env p s) as [s1|] eqn:E; [|done].
    destruct (append_event_ok env all p s s1 Hs Hn E) as (H1 & H2 & H3 & H4).
    destruct (IH _ _ H1 H2 Happ) as (H5 & H6 & H7).
    split_and!; [|auto|congruence]. rewrite <- app_assoc in H5.
    rewrite (so_next _ _ H1), length_app in H5. simpl in H5.
    change (p :: l) with ([p] ++ l). rewrite assigned_app. simpl. rewrite (so_next _ _ Hs).
    rewrite (so_next _ _ Hs) in H5. simpl in H5.
    replace (N.of_nat (length all + 1) + 1)%N with (N.of_nat (length all) + 1 + 1)%N in H5 by lia. done.
Qed.

(** *** Polling *)

Lemma take_events_spec me mb l taken b next :
  let '(es, next') := take_events me mb l taken b next in
  ∃ k, k ≤ length l ∧ es = taken ++ map event (take k l) ∧
    next' = default next (cursor <$> last (take k l)) ∧
    (N.of_nat (length es) <= N.max (N.of_nat (length taken)) me)%N.
Proof.
  revert taken b next. induction l as [|r l IH]; intros taken b next; simpl.
  - exists 0. rewrite app_nil_r. split_and!; [lia|done..|lia].
  - destruct (me <=? N.of_nat (length taken))%N eqn:E; simpl.
    { exists 0. simpl. rewrite app_nil_r. split_and!; [lia|done..|lia]. }
    apply N.leb_gt in E. destruct (_ <? _)%N.
    { exists 0. simpl. rewrite app_nil_r. split_and!; [lia|done..|lia]. }
    specialize (IH (taken ++ [event r]) (u64_sat_add b (e_bytes r)) (cursor r)).
    destruct (take_events _ _ _ _ _ _) as [es next']. destruct IH as (k & Hk & -> & -> & Hlen).
    exists (S k). simpl. split_and!; [lia|by rewrite <- app_assoc| |].
    + destruct (take k l) as [|x xs] eqn:Et; [done|].
      change (last (r :: x :: xs)) with (last (x :: xs)).
      destruct (last (x :: xs)) eqn:El; [done|]. by apply last_None in El.
    + rewrite !length_app in *. simpl in *. lia.
Qed.

Lemma filter_after (after : N) D l :
  (∀ i r, l !! i = Some r → w_sequence (event r) = N.of_nat (S (D + i))) →
  filter (λ r, (after < w_sequence (event r))%N) l = drop (N.to_nat after - D) l.
Proof.
  revert D. induction l as [|r l IH]; intros D H; [by rewrite drop_nil|].
  rewrite filter_cons. pose proof (H 0 r eq_refl) as H0.
  assert (∀ i r, l !! i = Some r → w_sequence (event r) = N.of_nat (S (S D + i))) as H'.
  { intros i r' Hr. rewrite (H (S i) r' Hr). lia. }
  case_decide as Ha.
  - replace (N.to_nat after - D) with 0 by lia. rewrite (IH (S D) H').
    by replace (N.to_nat after - S D) with 0 by lia.
  - rewrite (IH (S D) H'). by replace (N.to_nat after - D) with (S (N.to_nat after - S D)) by lia.
Qed.

(** What a poll answers: the events after the cursor, in order, as many as fit, and the cursor
    after them; or, where they are not all retained any more, that the client start over. *)
Lemma poll_response_spec (env : WatchEnv) request reg all s :
  sub_ok all s → subscriptions reg !! wp_subscription_id request = Some s →
  let '(answer, reg') := poll_response env request reg in
  (∃ resp after k c, answer = Ok resp ∧ reg' = reg ∧ watch_state resp = Current ∧ resync_reason resp = None ∧
     cursor_sequences s !! wp_cursor request = Some after ∧
     events resp = take k (drop (N.to_nat after) all) ∧
     (N.of_nat (length (events resp)) <= max_events request)%N ∧
     next_cursor resp = Some c ∧
     cursor_sequences s !! c = Some (after + N.of_nat (length (events resp)))%N ∧
     w_next_sequence resp = (N.of_nat (length all) + 1)%N ∧ is_Some (w_expires_at_unix_ms resp)) ∨
  (∃ reason, answer = Ok (watch_resync (wp_subscription_id request) reason) ∧
     reg' = remove (wp_subscription_id request) reason (w_later env) reg ∧
     (reason = CursorInvalid ∧ cursor_sequences s !! wp_cursor request = None ∨
      reason = RetentionLost ∧ ∃ after e, cursor_sequences s !! wp_cursor request = Some after ∧
        head (s_events s) = Some e ∧ (after + 1 < w_sequence (event e))%N)).
Proof.
  intros [S1 [d S2] S0 S3 S4 S5 S6 S7 _] Hs. unfold poll_response. rewrite Hs.
  destruct (cursor_sequences s !! wp_cursor request) as [after|] eqn:Ec.
  2: { right. exists CursorInvalid. split_and!; [done..|by left]. }
  pose proof (S6 _ _ Ec) as Hle.
  assert (u64_sat_add after 1 = after + 1)%N as Hsat
    by (unfold u64_sat_add, MAX_WATCH_LIFETIME_EVENTS in *; lia).
  rewrite Hsat.
  assert (∀ i r, s_events s !! i = Some r → w_sequence (event r) = N.of_nat (S (length d + i))) as Hseq.
  { intros i r Hr. apply S1. rewrite S2, lookup_app_r by lia. replace (length d + i - length d) with i by lia.
    by rewrite list_lookup_fmap, Hr. }
  destruct (is_some_and _ _) eqn:Ef.
  { right. exists RetentionLost. split_and!; [done..|right]. split; [done|]. exists after.
    destruct (s_events s) as [|e l] eqn:Ee; [done|]. exists e. split_and!; [done..|]. simpl in Ef. by apply N.ltb_lt. }
  assert (length d ≤ N.to_nat after) as Hd.
  { destruct (s_events s) as [|e l] eqn:Ee; simpl in Ef.
    - specialize (S0 eq_refl). subst all. destruct d; [simpl; lia|done].
    - apply N.ltb_ge in Ef. specialize (Hseq 0 e eq_refl). lia. }
  rewrite (filter_after after (length d)) by done.
  pose proof (take_events_spec (max_events request) (max_bytes request)
    (drop (N.to_nat after - length d) (s_events s)) [] 0 (wp_cursor request)) as Ht.
  destruct (take_events _ _ _ _ _ _) as [es next]. destruct Ht as (k & Hk & -> & -> & Hlen). left.
  set (l := drop (N.to_nat after - length d) (s_events s)) in *.
  assert (map event (take k l) = take k (drop (N.to_nat after) all)) as Hmap.
  { unfold l. rewrite <- !firstn_map, <- skipn_map, S2. rewrite drop_app_ge by lia. done. }
  eexists _, after, k, _. split; [reflexivity|]. cbn [events next_cursor watch_state resync_reason w_next_sequence
    w_expires_at_unix_ms app].
  split_and!; [done..|exact Hmap| |reflexivity| |done|by eexists].
  - simpl in Hlen. rewrite N.max_r in Hlen by lia. done.
  - rewrite length_map, length_take_le by done.
    destruct (last (take k l)) as [r|] eqn:El; simpl.
    + assert (k ≠ 0) as Hk0 by (intros ->; done).
      rewrite last_lookup, length_take_le in El by done. rewrite lookup_take in El.
      destruct (decide _); [|done]. unfold l in El. rewrite lookup_drop in El.
      rewrite (S5 r) by (by eapply list_elem_of_lookup_2). f_equal. rewrite (Hseq _ _ El). lia.
    + apply last_None in El. assert (k = 0) as -> by (apply (f_equal length) in El; rewrite length_take_le in El by done; done).
      rewrite Ec. f_equal. lia.
Qed.

(** ** Registries *)

Lemma remove_lookup id reason t reg id' :
  subscriptions (remove id reason t reg) !! id' = delete id (subscriptions reg) !! id'.
Proof.
  unfold remove. destruct (subscriptions reg !! id) as [s|] eqn:E; [|by rewrite delete_id].
  by destruct (bound_tombstones _ _).
Qed.

Lemma remove_some id reason t reg id' s :
  subscriptions (remove id reason t reg) !! id' = Some s → subscriptions reg !! id' = Some s.
Proof. rewrite remove_lookup. by intros [_ ?]%lookup_delete_Some. Qed.

Lemma expire_some (env : WatchEnv) reg id s :
  subscriptions (expire env reg) !! id = Some s → subscriptions reg !! id = Some s.
Proof.
  unfold expire. set (ids := map fst _). clearbody ids.
  destruct (expire_tombstones _ _ _) as [order m]. simpl. revert reg.
  induction ids as [|i ids IH]; intros reg H; [done|]. simpl in H. by apply IH, remove_some in H.
Qed.

(** A registry within its limits: of subscriptions, each with the events it took, and of
    tombstones. *)
Record registry_ok (reg : WatchRegistry) : Prop := {
  ro_subscriptions : map_Forall (λ _ s, ∃ all, sub_ok all s) (subscriptions reg);
  ro_size : size (subscriptions reg) ≤ MAX_WATCH_SUBSCRIPTIONS;
  ro_order : length (tombstone_order reg) ≤ MAX_WATCH_TOMBSTONES;
  ro_tombstones : ∀ id, is_Some (w_tombstones reg !! id) → id ∈ tombstone_order reg;
}.

Lemma bound_tombstones_ok order m order' m' :
  bound_tombstones order m = (order', m') → (∀ id, is_Some (m !! id) → id ∈ order) →
  length order' ≤ MAX_WATCH_TOMBSTONES ∧ (∀ id, is_Some (m' !! id) → id ∈ order').
Proof.
  revert m. induction order as [|i order IH]; intros m.
  - intros [= <- <-] H. split; [unfold MAX_WATCH_TOMBSTONES; simpl; lia|done].
  - intros E H. change (bound_tombstones (i :: order) m) with
      (if MAX_WATCH_TOMBSTONES <? length (i :: order) then bound_tombstones order (delete i m) else (i :: order, m)) in E.
    destruct (_ <? _) eqn:El.
    + apply (IH _ E). intros id [t [Hn Ht]%lookup_delete_Some].
      destruct (proj1 (elem_of_cons _ _ _) (H id (ex_intro _ t Ht))) as [->|]; done.
    + injection E as <- <-. split; [by apply Nat.ltb_ge in El|done].
Qed.

Lemma expire_tombstones_ok t order m order' m' :
  expire_tombstones t order m = (order', m') → (∀ id, is_Some (m !! id) → id ∈ order) →
  length order' ≤ length order ∧ (∀ id, is_Some (m' !! id) → id ∈ order').
Proof.
  revert m. induction order as [|i order IH]; intros m; simpl; [by intros [= <- <-]|].
  intros E H. destruct (m !! i) as [w|]; [|by injection E as <- <-].
  destruct (_ <=? _)%N; [|by injection E as <- <-].
  destruct (IH _ E) as [H1 H2]; [|split; [lia|done]]. intros id [x [Hn Hx]%lookup_delete_Some].
  destruct (proj1 (elem_of_cons _ _ _) (H id (ex_intro _ x Hx))) as [->|]; done.
Qed.

Lemma remove_ok id reason t reg : registry_ok reg → registry_ok (remove id reason t reg).
Proof.
  intros [H1 H2 H3 H4]. unfold remove. destruct (subscriptions reg !! id) as [s|] eqn:Es; [|done].
  destruct (bound_tombstones _ _) as [order m] eqn:E. apply bound_tombstones_ok in E as [E1 E2].
  - split; simpl; [by apply map_Forall_delete| |done..]. rewrite map_size_delete_Some by by eexists. lia.
  - intros i [x Hx]. apply elem_of_app. apply lookup_insert_Some in Hx as [[-> _]|[_ Hx]];
      [right; by apply list_elem_of_singleton|left; apply H4; by eexists].
Qed.

Lemma expire_ok (env : WatchEnv) reg : registry_ok reg → registry_ok (expire env reg).
Proof.
  intros H. unfold expire. set (ids := map fst _). clearbody ids.
  assert (registry_ok (foldl (λ reg id, remove id SubscriptionExpired (w_now env) reg) reg ids)) as [H1 H2 H3 H4].
  { revert reg H. induction ids as [|i ids IH]; intros reg H; [done|]. simpl. by apply IH, remove_ok. }
  destruct (expire_tombstones _ _ _) as [order m] eqn:E. apply expire_tombstones_ok in E as [E1 E2]; [|done].
  split; simpl; [done..|lia|done].
Qed.

(** New identifiers are new. *)
Definition new_ids (env : WatchEnv) (reg : WatchRegistry) : Prop :=
  subscriptions reg !! watch_id (subscription_uuid env) = None ∧
  map_Forall (λ _ s, new_cursors env s) (subscriptions reg).

Lemma opened_ok b e u c :
  sub_ok [] {| s_binding := b; s_expires_at := e; s_expires_unix_ms := u; s_events := []; retained_bytes := 0;
               cursor_sequences := {[c := 0%N]}; s_next_sequence := 1 |}.
Proof.
  split; simpl; try done.
  - by exists [].
  - by intros r ?%elem_of_nil.
  - intros c' n [_ <-]%lookup_singleton_Some. lia.
  - unfold MAX_WATCH_RETAINED_EVENTS. lia.
Qed.

Lemma with_subscription_ok id s reg all :
  sub_ok all s → is_Some (subscriptions reg !! id) → registry_ok reg → registry_ok (with_subscription id s reg).
Proof.
  intros Hs Hi [H1 H2 H3 H4]. split; simpl; [|by rewrite map_size_insert_Some|done..].
  apply map_Forall_insert_2; [by exists all|done].
Qed.

(** What the end of a poll does. *)
Lemma finish_cases (env : WatchEnv) request batch reg :
  let id := wp_subscription_id request in
  let '(answer, reg') := finish_watch_poll env request batch reg in
  (subscriptions (expire env reg) !! id = None ∧ reg' = expire env reg ∧ answer = resync_for request reg') ∨
  (reg' = expire env reg ∧ answer = Err BindingMismatch) ∨
  (∃ reason, answer = Ok (watch_resync id reason) ∧ subscriptions reg' !! id = None ∧
     ∃ t s, reg' = remove id reason t (expire env reg) ∨ reg' = remove id reason t (with_subscription id s (expire env reg))) ∨
  (∃ s s', subscriptions (expire env reg) !! id = Some s ∧ append_all env (b_events batch) s = (true, s') ∧
     s_binding s = wp_binding request ∧
     (answer, reg') = poll_response env request (with_subscription id s' (expire env reg))).
Proof.
  intros id. unfold finish_watch_poll. fold id. set (reg1 := expire env reg).
  destruct (subscriptions reg1 !! id) as [s|] eqn:Es; [|by left].
  unfold validate_watch_binding. case_bool_decide as Eb; [|by right; left].
  destruct (watch_failure_reason _) as [reason|].
  { right; right; left. exists reason. split_and!; [done|by rewrite remove_lookup, lookup_delete_eq|].
    exists (w_later env), s. by left. }
  unfold append_events. rewrite Es. destruct (append_all env (b_events batch) s) as [[] s'] eqn:Ea; cbv beta iota.
  - destruct (poll_response _ _ _) as [a r] eqn:Ep. right; right; right. by exists s, s'.
  - right; right; left. exists Overflow. split_and!; [done|by rewrite remove_lookup, lookup_delete_eq|].
    exists (w_later env), s'. by right.
Qed.

Lemma new_cursors_expired (env : WatchEnv) reg id s :
  new_ids env reg → subscriptions (expire env reg) !! id = Some s → new_cursors env s.
Proof. intros [_ Hn] Hs%expire_some. by apply (Hn id). Qed.

Lemma finish_ok_registry (env : WatchEnv) request batch reg :
  new_ids env reg → registry_ok reg → registry_ok (finish_watch_poll env request batch reg).2.
Proof.
  intros Hn Hr. pose proof (expire_ok env reg Hr) as He. unfold finish_watch_poll.
  destruct (subscriptions (expire env reg) !! wp_subscription_id request) as [s|] eqn:Es; [|done].
  unfold validate_watch_binding. destruct (bool_decide _); [|done].
  destruct (watch_failure_reason _); [by apply remove_ok|].
  destruct (ro_subscriptions _ He _ _ Es) as [all Hs].
  unfold append_events. rewrite Es. destruct (append_all env (b_events batch) s) as [[] s'] eqn:Ea; cbv beta iota.
  - destruct (append_all_ok env all _ s s' Hs (new_cursors_expired env reg _ s Hn Es) Ea) as (Hs' & _ & _).
    pose proof (with_subscription_ok _ s' (expire env reg) _ Hs' (ex_intro _ s Es) He) as Hw.
    clear -Hw. generalize dependent (with_subscription (wp_subscription_id request) s' (expire env reg)).
    intros r Hr. unfold poll_response. destruct (subscriptions r !! wp_subscription_id request) as [x|]; [|done].
    destruct (cursor_sequences x !! wp_cursor request); [|by apply remove_ok]. destruct (is_some_and _ _); [by apply remove_ok|].
    by case_match.
  - cbn [snd]. unfold remove. simpl. rewrite lookup_insert_eq.
    pose proof (remove_ok (wp_subscription_id request) Overflow (w_later env) (expire env reg) He) as Hrm.
    unfold remove in Hrm. rewrite Es in Hrm. destruct Hrm as [H1 H2 H3 H4].
    assert (s_binding s' = s_binding s) as Eb.
    { clear -Ea. revert s Ea. induction (b_events batch) as [|p l IH]; intros s Ea; simpl in Ea; [done|].
      destruct (append_event env p s) as [s1|] eqn:E1; [|by injection Ea as <-].
      rewrite (IH s1 Ea). unfold append_event in E1. repeat case_match; try done. by injection E1 as <-. }
    rewrite Eb. destruct (bound_tombstones _ _) as [order m]. simpl in *. rewrite delete_insert_eq. by split.
Qed.

Lemma serve_watch_ok (env : WatchEnv) call reg :
  new_ids env reg → registry_ok reg → registry_ok (serve_watch env call reg).2.
Proof.
  intros Hn Hr. pose proof (expire_ok env reg Hr) as He. destruct call; simpl.
  - unfold open_watch. destruct (validate_host _ _); [|done].
    destruct (Identifier_new _) as [id|] eqn:Eid; [|done]. destruct (Cursor_new _) as [c|]; [|done].
    destruct (_ <=? _) eqn:El; [done|]. apply Nat.leb_gt in El. destruct He as [H1 H2 H3 H4].
    split; simpl; [|rewrite map_size_insert; case_match; unfold Datatypes.id; lia|done..].
    apply map_Forall_insert_2; [exists []; apply opened_ok|done].
  - unfold poll_watch. destruct (negb _); [done|]. destruct (negb _); [done|]. destruct (validate_host _ _); [|done].
    destruct (subscriptions _ !! _); [|done]. by destruct (validate_watch_binding _ _).
  - pose proof (finish_ok_registry env request batch reg Hn Hr). by destruct (finish_watch_poll _ _ _ _).
  - unfold close_watch. destruct (validate_host _ _); [|done].
    destruct (subscriptions _ !! _); [|by destruct (w_tombstones _ !! _)].
    destruct (validate_watch_binding _ _); [by apply remove_ok|done].
  - by apply remove_ok.
Qed.

(** A subscription a call does not deliver to stays as it is, or goes. *)
Lemma serve_watch_elsewhere (env : WatchEnv) call reg id s :
  watch_id (subscription_uuid env) ≠ id →
  (∀ request batch, call = WFinish request batch → wp_subscription_id request ≠ id) →
  subscriptions (serve_watch env call reg).2 !! id = Some s → subscriptions reg !! id = Some s.
Proof.
  intros Hid Hc Hs. destruct call; simpl in Hs.
  - unfold open_watch in Hs. destruct (validate_host _ _); [|done].
    destruct (Identifier_new _) as [i|] eqn:Ei; [|done]. destruct (Cursor_new _); [|done].
    destruct (_ <=? _); [by apply expire_some in Hs|].
    assert (i = watch_id (subscription_uuid env)) as ->.
    { unfold Identifier_new in Ei. destruct (Records.validate_opaque_string _ _); [|done]. by injection Ei as <-. }
    simpl in Hs. rewrite lookup_insert_ne in Hs by done. by apply expire_some in Hs.
  - unfold poll_watch in Hs. destruct (negb _); [done|]. destruct (negb _); [done|].
    destruct (validate_host _ _); [|done].
    assert (subscriptions (expire env reg) !! id = Some s) as Hs'.
    { destruct (subscriptions (expire env reg) !! wp_subscription_id request); [|done].
      by destruct (validate_watch_binding _ _). }
    by apply expire_some in Hs'.
  - specialize (Hc request batch eq_refl). pose proof (finish_cases env request batch reg) as H. cbv zeta in H.
    destruct (finish_watch_poll env request batch reg) as [a reg']. simpl in Hs.
    destruct H as [(_ & -> & _)|[[-> _]|[(reason & _ & _ & t & s0 & [-> | ->])|(s0 & s' & _ & _ & _ & Hp)]]].
    + by apply expire_some in Hs.
    + by apply expire_some in Hs.
    + by apply remove_some, expire_some in Hs.
    + apply remove_some in Hs. simpl in Hs. rewrite lookup_insert_ne in Hs by done. by apply expire_some in Hs.
    + assert (subscriptions (with_subscription (wp_subscription_id request) s' (expire env reg)) !! id = Some s) as Hs'.
      { unfold poll_response in Hp. destruct (subscriptions (with_subscription _ _ _) !! wp_subscription_id request);
          [|by injection Hp as -> ->].
        destruct (cursor_sequences _ !! _); [|injection Hp as -> ->; by apply remove_some in Hs].
        destruct (is_some_and _ _); [injection Hp as -> ->; by apply remove_some in Hs|].
        destruct (take_events _ _ _ _ _ _). by injection Hp as -> ->. }
      simpl in Hs'. rewrite lookup_insert_ne in Hs' by done. by apply expire_some in Hs'.
  - unfold close_watch in Hs. destruct (validate_host _ _); [|done].
    destruct (subscriptions (expire env reg) !! wc_subscription_id request) as [s0|] eqn:E.
    + destruct (validate_watch_binding _ _); [apply remove_some in Hs|]; by apply expire_some in Hs.
    + destruct (w_tombstones _ !! _); by apply expire_some in Hs.
  - by apply remove_some in Hs.
Qed.

(** ** Histories *)

(** The registries calls lead to. *)
Inductive reached : WatchRegistry → Prop :=
| reached_empty : reached empty_registry
| reached_call env call reg : reached reg → new_ids env reg → reached (serve_watch env call reg).2.

Lemma reached_ok reg : reached reg → registry_ok reg.
Proof.
  induction 1 as [|env call reg _ IH Hn]; [|by apply serve_watch_ok].
  split; simpl; [apply map_Forall_empty|rewrite map_size_empty; apply Nat.le_0_l|apply Nat.le_0_l|].
  intros id [t Ht]. by rewrite lookup_empty in Ht.
Qed.

(** The events a batch adds to [all]. *)
Definition delivered (all : list WatchEvent) (batch : WorkspaceWatchBatch) : list WatchEvent :=
  all ++ assigned (N.of_nat (length all) + 1) (b_events batch).

(** A client that opened a subscription and polls it from the cursor each answer gave it:
    the registry, all events its subscription took, its cursor, and the events it has seen.
    Others may call at any time, poll the same subscription too, and end it. *)
Inductive follows (id : str) : WatchRegistry → list WatchEvent → str → list WatchEvent → Prop :=
| follows_open env request reg resp reg' :
    new_ids env reg → open_watch this env request reg = (Ok resp, reg') → wo_subscription_id resp = id →
    follows id reg' [] (wo_cursor resp) []
| follows_poll env request batch reg resp reg' all c c' seen :
    follows id reg all c seen → new_ids env reg → finish_watch_poll env request batch reg = (Ok resp, reg') →
    wp_subscription_id request = id → wp_cursor request = c → next_cursor resp = Some c' →
    follows id reg' (delivered all batch) c' (seen ++ events resp)
| follows_polled env request batch reg resp reg' all c seen :
    follows id reg all c seen → new_ids env reg → finish_watch_poll env request batch reg = (Ok resp, reg') →
    wp_subscription_id request = id → watch_state resp = Current →
    follows id reg' (delivered all batch) c seen
| follows_ended env request batch reg answer reg' all c seen :
    follows id reg all c seen → new_ids env reg → finish_watch_poll env request batch reg = (answer, reg') →
    wp_subscription_id request = id → (∀ resp, answer = Ok resp → watch_state resp = FullResync) →
    follows id reg' all c seen
| follows_elsewhere env call reg all c seen :
    follows id reg all c seen → new_ids env reg → watch_id (subscription_uuid env) ≠ id →
    (∀ request batch, call = WFinish request batch → wp_subscription_id request ≠ id) →
    follows id (serve_watch env call reg).2 all c seen.

(** What a follower knows. *)
Record informed (id : str) (reg : WatchRegistry) (all : list WatchEvent) (c : str) (seen : list WatchEvent) : Prop := {
  in_numbered : ∀ i e, all !! i = Some e → w_sequence e = N.of_nat (S i);
  in_seen : seen `prefix_of` all;
  in_sub : ∀ s, subscriptions reg !! id = Some s →
    sub_ok all s ∧ cursor_sequences s !! c = Some (N.of_nat (length seen));
}.

Lemma prefix_take {A} (seen all : list A) k :
  seen `prefix_of` all → seen ++ take k (drop (length seen) all) `prefix_of` all.
Proof.
  intros [r ->]. rewrite drop_app_length. exists (drop k r). by rewrite <- app_assoc, take_drop.
Qed.

Lemma informed_gone id reg reg' all c seen :
  (∀ s, subscriptions reg' !! id = Some s → subscriptions reg !! id = Some s) →
  informed id reg all c seen → informed id reg' all c seen.
Proof. intros H [H1 H2 H3]. split; auto. Qed.

(** A subscription that took the events of a batch. *)
Lemma informed_delivered (env : WatchEnv) id reg batch all c seen s s' :
  new_ids env reg → informed id reg all c seen → subscriptions (expire env reg) !! id = Some s →
  append_all env (b_events batch) s = (true, s') →
  informed id (with_subscription id s' (expire env reg)) (delivered all batch) c seen.
Proof.
  intros Hn [H1 H2 H3] Hs Ha. destruct (H3 s) as [Hok Hc]; [by eapply expire_some|].
  destruct (append_all_ok env all _ s s' Hok (new_cursors_expired env reg id s Hn Hs) Ha) as (Hok' & Hkeep & _).
  rewrite (so_next _ _ Hok) in Hok'. fold (delivered all batch) in Hok'. split.
  - apply (so_numbered _ _ Hok').
  - etrans; [exact H2|]. by eexists.
  - intros s0. simpl. rewrite lookup_insert_eq. intros [= <-]. split; [done|]. by apply Hkeep.
Qed.

Lemma informed_poll (env : WatchEnv) id request reg all c seen answer reg' :
  informed id reg all c seen → is_Some (subscriptions reg !! id) → wp_subscription_id request = id →
  poll_response env request reg = (answer, reg') →
  (∀ resp, answer = Ok resp → watch_state resp = Current → informed id reg' all c seen) ∧
  (∀ resp c', answer = Ok resp → wp_cursor request = c → next_cursor resp = Some c' →
     informed id reg' all c' (seen ++ events resp)) ∧
  (∀ s, subscriptions reg' !! id = Some s → subscriptions reg !! id = Some s).
Proof.
  intros Hin [s Hs] Hid Hp. destruct (in_sub _ _ _ _ _ Hin s Hs) as [Hok Hc].
  pose proof (poll_response_spec env request reg all s Hok) as H. rewrite Hid in H. specialize (H Hs).
  rewrite Hp in H.
  destruct H as [(resp & after & k & c2 & -> & -> & Hst & _ & Haf & Hev & _ & Hnx & Hc2 & _)|(reason & -> & -> & _)].
  - split_and!; [done| |done]. intros resp0 c' [= <-] Hcur Hnext. rewrite Hnx in Hnext. injection Hnext as <-.
    rewrite Hcur, Hc in Haf. injection Haf as <-. rewrite Nat2N.id in Hev.
    destruct Hin as [H1 H2 H3]. split; [done|rewrite Hev; by apply prefix_take|].
    intros s0 Hs0. rewrite Hs in Hs0. injection Hs0 as <-. split; [done|].
    rewrite Hc2, length_app. f_equal. lia.
  - split_and!.
    + by intros resp [= <-].
    + by intros resp c' [= <-].
    + intros s0. by intros ?%remove_some.
Qed.

Lemma follows_informed id reg all c seen : follows id reg all c seen → informed id reg all c seen.
Proof.
  induction 1 as [env request reg resp reg' Hn Ho Hid|env request batch reg resp reg' all c c' seen Hf IH Hn Hp Hid Hc Hnx
    |env request batch reg resp reg' all c seen Hf IH Hn Hp Hid Hst|env request batch reg answer reg' all c seen Hf IH Hn Hp Hid Hr
    |env call reg all c seen Hf IH Hn Hne Hcall].
  - split; [done|done|]. unfold open_watch in Ho. destruct (validate_host _ _); [|done].
    destruct (Identifier_new _) as [i|]; [|done]. destruct (Cursor_new _) as [c|]; [|done].
    destruct (_ <=? _); [done|]. injection Ho as <- <-. simpl in Hid. subst i. simpl. intros s.
    rewrite lookup_insert_eq. intros [= <-]. split; [apply opened_ok|]. simpl. by rewrite lookup_singleton_eq.
  - pose proof (finish_cases env request batch reg) as H. cbv zeta in H. rewrite Hp, Hid in H.
    destruct H as [(_ & _ & Ha)|[[_ ?]|[(reason & [= ->] & _)|(s & s' & Hs & Ha & _ & Hpr)]]]; [|done|done|].
    + unfold resync_for in Ha. destruct (w_tombstones _ !! _); [|by injection Ha as ->].
      destruct (validate_watch_binding _ _); [|done]. by injection Ha as ->.
    + pose proof (informed_delivered env id reg batch all c seen s s' Hn IH Hs Ha) as Hd.
      symmetry in Hpr. destruct (informed_poll env id request _ _ _ _ _ _ Hd (ex_intro _ s' (lookup_insert_eq _ _ _)) Hid Hpr)
        as (_ & H & _). by apply (H resp c').
  - pose proof (finish_cases env request batch reg) as H. cbv zeta in H. rewrite Hp, Hid in H.
    destruct H as [(_ & _ & Ha)|[[_ ?]|[(reason & [= ->] & _)|(s & s' & Hs & Ha & _ & Hpr)]]]; [|done|done|].
    + unfold resync_for in Ha. destruct (w_tombstones _ !! _); [|by injection Ha as ->].
      destruct (validate_watch_binding _ _); [|done]. by injection Ha as ->.
    + pose proof (informed_delivered env id reg batch all c seen s s' Hn IH Hs Ha) as Hd.
      symmetry in Hpr. destruct (informed_poll env id request _ _ _ _ _ _ Hd (ex_intro _ s' (lookup_insert_eq _ _ _)) Hid Hpr)
        as (H & _). by apply (H resp).
  - eapply informed_gone; [|exact IH]. intros s0 Hs0.
    pose proof (finish_cases env request batch reg) as H. cbv zeta in H. rewrite Hp, Hid in H.
    destruct H as [(_ & -> & _)|[[-> _]|[(reason & _ & Hnone & _)|(s & s' & Hs & Ha & _ & Hpr)]]];
      [by apply expire_some in Hs0|by apply expire_some in Hs0|congruence|].
    pose proof (informed_delivered env id reg batch all c seen s s' Hn IH Hs Ha) as Hd.
    set (reg1 := with_subscription id s' (expire env reg)) in *.
    assert (subscriptions reg1 !! id = Some s') as Hs1 by apply lookup_insert_eq.
    destruct (in_sub _ _ _ _ _ Hd s' Hs1) as [Hok' _].
    pose proof (poll_response_spec env request reg1 _ s' Hok') as H. rewrite Hid in H. specialize (H Hs1).
    rewrite <- Hpr in H. destruct H as [(resp & after & k & c2 & -> & _ & Hst & _)|(reason & -> & -> & _)].
    + rewrite (Hr resp eq_refl) in Hst. done.
    + by rewrite remove_lookup, lookup_delete_eq in Hs0.
  - eapply informed_gone; [|exact IH]. intros s Hs. by eapply serve_watch_elsewhere.
Qed.

(** *** Answers *)

Lemma resync_valid id reason : poll_response_valid (watch_resync id reason) = true.
Proof. done. Qed.

Lemma numbered_windows l n :
  (∀ i e, l !! i = Some e → w_sequence e = N.of_nat (n + i)) →
  windows (λ e e', (w_sequence e <? w_sequence e')%N) l = true.
Proof.
  revert n. induction l as [|x l IH]; intros n H; [done|]. destruct l as [|y l]; [done|].
  rewrite windows_cons. rewrite (H 0 x eq_refl), (H 1 y eq_refl). rewrite (IH (S n)).
  - rewrite andb_true_r. apply N.ltb_lt. lia.
  - intros i e He. rewrite (H (S i) e He). lia.
Qed.

Lemma finish_valid (env : WatchEnv) request batch reg resp reg' :
  registry_ok reg → new_ids env reg → poll_request_valid request = true →
  finish_watch_poll env request batch reg = (Ok resp, reg') → poll_response_valid resp = true.
Proof.
  intros Hr Hn Hv Hp. pose proof (finish_cases env request batch reg) as H. cbv zeta in H. rewrite Hp in H.
  destruct H as [(_ & _ & Ha)|[[_ ?]|[(reason & [= ->] & _)|(s & s' & Hs & Ha & _ & Hpr)]]]; [|done|done|].
  - unfold resync_for in Ha. destruct (w_tombstones _ !! _); [|by injection Ha as ->].
    destruct (validate_watch_binding _ _); [|done]. by injection Ha as ->.
  - destruct (ro_subscriptions _ (expire_ok env reg Hr) _ _ Hs) as [all Hok].
    destruct (append_all_ok env all _ s s' Hok (new_cursors_expired env reg _ s Hn Hs) Ha) as (Hok' & _).
    set (all' := all ++ _) in Hok'.
    assert (subscriptions (with_subscription (wp_subscription_id request) s' (expire env reg)) !!
      wp_subscription_id request = Some s') as Hs1 by apply lookup_insert_eq.
    pose proof (poll_response_spec env request _ all' s' Hok' Hs1) as H.
    rewrite <- Hpr in H.
    destruct H as [(resp0 & after & k & c & [= <-] & _ & Hst & Hre & Haf & Hev & Hlen & Hnx & Hc & Hsq & [x Hx])|(reason & [= ->] & _)];
      [|done].
    unfold poll_response_valid. rewrite Hst, Hre, Hnx, Hx, Hsq, andb_true_r.
    assert (∀ i e, events resp !! i = Some e → w_sequence e = N.of_nat (S (N.to_nat after) + i)) as Hnum.
    { intros i e. rewrite Hev, lookup_take. destruct (decide _); [|done]. rewrite lookup_drop.
      intros He. rewrite (so_numbered _ _ Hok' _ _ He). lia. }
    rewrite (numbered_windows _ _ Hnum). simpl. apply andb_true_intro. split.
    + apply N.leb_le. unfold poll_request_valid in Hv. apply andb_prop in Hv as [[Hv _]%andb_prop _].
      apply negb_true_iff, orb_false_iff in Hv as [_ Hv%N.ltb_ge]. lia.
    + apply negb_true_iff. destruct (last (events resp)) as [e|] eqn:El; [|done]. simpl. apply N.leb_gt.
      rewrite last_lookup in El. rewrite (Hnum _ _ El). apply (so_within _ _ Hok') in Hc.
      assert (events resp ≠ []) by (intros E; by rewrite E in El).
      destruct (events resp); [done|]. simpl in *. lia.
Qed.
End calls.

(** ** What a watch promises *)

Lemma tombstones_size (reg : WatchRegistry) : registry_ok reg → size (w_tombstones reg) ≤ MAX_WATCH_TOMBSTONES.
Proof.
  intros [_ _ H3 H4]. rewrite <- (size_dom (D := gset str)).
  transitivity (size (list_to_set (C := gset str) (tombstone_order reg))).
  - apply subseteq_size. intros i Hi%elem_of_dom. by apply elem_of_list_to_set, H4.
  - etrans; [|exact H3]. clear. induction (tombstone_order reg) as [|x l IH]; [rewrite list_to_set_nil, size_empty; simpl; lia|].
    rewrite list_to_set_cons, size_union_alt, size_singleton. simpl. apply le_n_S. etrans; [|exact IH].
    apply subseteq_size. set_solver.
Qed.

(** C20: A client that polls from the cursor each answer gave it misses nothing: the events of the
    subscription are numbered from one without a gap, those the client has seen are the first of
    them in order, whatever other calls came between, polls of the same subscription included;
    and its next poll either goes on where it stopped, with no more events than it asked for, or
    says that it must start over, and then the subscription is gone. *)
Theorem follower_misses_nothing `{ME : Memory} (this : HostBinding) (id : str) (reg : WatchRegistry) all c seen
    (env : WatchEnv) (request : WatchPollRequest) (batch : WorkspaceWatchBatch) :
  follows this id reg all c seen → new_ids env reg →
  wp_subscription_id request = id → wp_cursor request = c →
  (∀ i e, all !! i = Some e → w_sequence e = N.of_nat (S i)) ∧ seen `prefix_of` all ∧
  ∀ resp reg', finish_watch_poll env request batch reg = (Ok resp, reg') →
    watch_state resp = Current ∧ seen ++ events resp `prefix_of` delivered all batch ∧
      (N.of_nat (length (events resp)) <= max_events request)%N ∧
      w_next_sequence resp = (N.of_nat (length (delivered all batch)) + 1)%N ∨
    (∃ reason, resp = watch_resync id reason) ∧ subscriptions reg' !! id = None.
Proof.
  intros Hf Hn Hid Hc. pose proof (follows_informed this id reg all c seen Hf) as Hin.
  split; [apply (in_numbered _ _ _ _ _ Hin)|]. split; [apply (in_seen _ _ _ _ _ Hin)|].
  intros resp reg' Hp. pose proof (finish_cases env request batch reg) as H. cbv zeta in H. rewrite Hp, Hid in H.
  destruct H as [(Hs & -> & Ha)|[[_ ?]|[(reason & [= ->] & Hs & _)|(s & s' & Hs & Ha & _ & Hpr)]]]; [|done| |].
  - right. split; [|done]. unfold resync_for in Ha. rewrite Hid in Ha.
    destruct (w_tombstones _ !! _); [|injection Ha as ->; by eexists].
    destruct (validate_watch_binding _ _); [|done]. injection Ha as ->. by eexists.
  - right. split; [by eexists|done].
  - pose proof (informed_delivered env id reg batch all c seen s s' Hn Hin Hs Ha) as Hd.
    set (reg1 := with_subscription id s' (expire env reg)) in *.
    assert (subscriptions reg1 !! id = Some s') as Hs1 by apply lookup_insert_eq.
    destruct (in_sub _ _ _ _ _ Hd s' Hs1) as [Hok' Hcur].
    pose proof (poll_response_spec env request reg1 _ s' Hok') as H. rewrite Hid in H. specialize (H Hs1).
    rewrite <- Hpr in H. destruct H as [(r & after & k & c2 & [= <-] & -> & Hst & _ & Haf & Hev & Hlen & _ & _ & Hsq & _)
      |(reason & [= ->] & -> & _)].
    + left. rewrite Hc, Hcur in Haf. injection Haf as <-. rewrite Nat2N.id in Hev.
      split_and!; [done|rewrite Hev; apply prefix_take, (in_seen _ _ _ _ _ Hd)|done|done].
    + right. split; [by eexists|]. by rewrite remove_lookup, lookup_delete_eq.
Qed.

(** C23: Whatever calls came, the registry keeps to its limits, and the bytes of a subscription are
    those of the events it retains; and every answer to a valid poll, at once or after the
    watcher delivered any batch, is one that the contract's own validation accepts. *)
Theorem poll_responses_valid `{ME : Memory} (this : HostBinding) (reg : WatchRegistry) (env : WatchEnv)
    (request : WatchPollRequest) (batch : WorkspaceWatchBatch) :
  reached this reg → new_ids env reg →
  size (subscriptions reg) ≤ MAX_WATCH_SUBSCRIPTIONS ∧ size (w_tombstones reg) ≤ MAX_WATCH_TOMBSTONES ∧
  (∀ id s, subscriptions reg !! id = Some s →
     length (s_events s) ≤ MAX_WATCH_RETAINED_EVENTS ∧ (retained_bytes s <= MAX_WATCH_RETAINED_BYTES)%N ∧
     retained_bytes s = foldr N.add 0%N (map e_bytes (s_events s))) ∧
  (poll_request_valid request = true → ∀ resp,
     (finish_watch_poll env request batch reg).1 = Ok resp ∨ (poll_watch this env request reg).1 = Some (Ok resp) →
     poll_response_valid resp = true).
Proof.
  intros Hre Hn. pose proof (reached_ok this reg Hre) as Hr. split; [apply Hr|].
  split; [by apply tombstones_size|]. split.
  - intros id s Hs. destruct (ro_subscriptions _ Hr _ _ Hs) as [all Hok].
    destruct (so_bytes _ _ Hok). by split_and!; [apply (so_events _ _ Hok)|..].
  - intros Hv resp [Hp|Hp].
    + destruct (finish_watch_poll env request batch reg) as [a reg'] eqn:E. simpl in Hp. subst a.
      by apply (finish_valid env request batch reg resp reg').
    + unfold poll_watch in Hp. destruct (negb _); [done|]. destruct (negb _).
      { destruct (same_remote_identity _ _); [|done]. by injection Hp as <-. }
      destruct (validate_host _ _); [|done]. destruct (subscriptions _ !! _).
      { by destruct (validate_watch_binding _ _). }
      simpl in Hp. unfold resync_for in Hp. destruct (w_tombstones _ !! _); [|by injection Hp as <-].
      destruct (validate_watch_binding _ _); [|done]. by injection Hp as <-.
Qed.

(** ** An example *)

Module ExampleWatch.
Import LedgerSafe.ExampleLedger.

(** The host at second [t], where the next subscription is called [u]: the identifiers of events are
    as long as the number they stand for. *)
Definition watch_env (t : N) (u : str) : WatchEnv :=
  {| w_now := (t * SECOND)%N; w_later := (t * SECOND)%N; w_unix_ms := (t * 1000)%N;
     w_iteration l := l; w_iteration_perm l := reflexivity l;
     subscription_uuid := u; first_uuid := []; event_uuid n := replicate (N.to_nat n) 49%N |}.
Definition where_ : WorkspaceRequestBinding := {| w_host := this; w_cwd_handle := lit "cwd" |}.
Definition poll_from (c : str) : WatchPollRequest :=
  {| wp_binding := where_; wp_subscription_id := watch_id (lit "0001"); wp_cursor := c;
     max_events := 2; max_bytes := 4096; wait_ms := 0 |}.
Definition changed (p : string) : WorkspaceWatchEvent := {| e_kind := Modify; e_path := lit p |}.
Definition batch_of (l : list WorkspaceWatchEvent) : WorkspaceWatchBatch := {| b_events := l; b_failure := None |}.

Definition opened : WatchRegistry := (open_watch this (watch_env 0 (lit "0001")) {| wo_binding := where_ |} empty_registry).2.
(** Another client opens a subscription of its own. *)
Definition two_open : WatchRegistry :=
  (serve_watch this (watch_env 1 (lit "0002")) (WOpen {| wo_binding := where_ |}) opened).2.
Definition three_changes : WorkspaceWatchBatch := batch_of [changed "a"; changed "b"; changed "c"].
Definition first_poll := finish_watch_poll (watch_env 2 (lit "0003")) (poll_from (cursor_id [])) three_changes two_open.
Definition second_cursor : str := cursor_id (lit "11").
Definition second_poll :=
  finish_watch_poll (watch_env 3 (lit "0003")) (poll_from second_cursor) (batch_of [changed "d"]) first_poll.2.

(** New identifiers are those no subscription used. *)
Lemma new_ids_check t u (reg : WatchRegistry) :
  subscriptions reg !! watch_id u = None →
  forallb (λ '(_, s), forallb (λ '(c, _), length c <=? length (cursor_id []) + N.to_nat (s_next_sequence s) - 1)
    (map_to_list (cursor_sequences s))) (map_to_list (subscriptions reg)) = true →
  new_ids (watch_env t u) reg.
Proof.
  intros Hu Hc. split; [done|]. intros id s Hs. split.
  - intros n n' H%(f_equal length). simpl in H. rewrite !length_replicate in H. lia.
  - intros n Hn. apply eq_None_not_Some. intros [x Hx]. rewrite forallb_forall in Hc.
    specialize (Hc (id, s)). rewrite <- list_elem_of_In, elem_of_map_to_list in Hc. specialize (Hc Hs). simpl in Hc.
    rewrite forallb_forall in Hc. specialize (Hc (cursor_id (replicate (N.to_nat n) 49%N), x)).
    rewrite <- list_elem_of_In, elem_of_map_to_list in Hc. specialize (Hc Hx). apply Nat.leb_le in Hc.
    unfold cursor_id in Hc. rewrite !length_app, length_replicate in Hc. simpl in Hc. lia.
Qed.

Lemma new_first : new_ids (watch_env 0 (lit "0001")) empty_registry.
Proof. by apply new_ids_check. Qed.
Lemma new_second : new_ids (watch_env 1 (lit "0002")) opened.
Proof. by apply new_ids_check; vm_compute. Qed.
Lemma new_third : new_ids (watch_env 2 (lit "0003")) two_open.
Proof. by apply new_ids_check; vm_compute. Qed.
Lemma new_fourth : new_ids (watch_env 3 (lit "0003")) first_poll.2.
Proof. by apply new_ids_check; vm_compute. Qed.

Lemma followed_open : follows this (watch_id (lit "0001")) two_open [] (cursor_id []) [].
Proof.
  apply follows_elsewhere; [|apply new_second|by vm_compute|done].
  apply (follows_open this _ (watch_env 0 (lit "0001")) {| wo_binding := where_ |} empty_registry
    {| wo_subscription_id := watch_id (lit "0001"); wo_state := Current; wo_cursor := cursor_id [];
       wo_expires_at_unix_ms := WATCH_SUBSCRIPTION_TTL_MS |} opened); [apply new_first|by vm_compute|done].
Qed.

Definition answer_of (r : Result WatchPollResponse RemoteOperationError) : list (N * str) * option str :=
  match r with Ok resp => (map (λ e, (w_sequence e, w_path e)) (events resp), next_cursor resp) | Err _ => ([], None) end.

Lemma first_answer : answer_of first_poll.1 = ([(1%N, lit "a"); (2%N, lit "b")], Some second_cursor).
Proof. by vm_compute. Qed.

Lemma followed_poll : ∃ all seen, map w_path seen = [lit "a"; lit "b"] ∧ length all = 3 ∧
  follows this (watch_id (lit "0001")) first_poll.2 all second_cursor seen.
Proof.
  destruct first_poll as [r reg'] eqn:E. pose proof first_answer as H. rewrite E in H. simpl in H.
  destruct r as [resp|]; [|done]. injection H as Hev Hnx.
  exists (delivered [] three_changes), ([] ++ events resp). split; [|split].
  - apply (f_equal (map snd)) in Hev. rewrite map_map in Hev. exact Hev.
  - reflexivity.
  - exact (follows_poll this _ _ (poll_from (cursor_id [])) three_changes two_open resp reg' [] (cursor_id []) second_cursor []
      followed_open new_third E eq_refl eq_refl Hnx).
Qed.

Lemma follower_misses_nothing_witness :
  ∃ all seen, map w_path seen = [lit "a"; lit "b"] ∧ length all = 3 ∧ seen `prefix_of` all ∧
    answer_of second_poll.1 = ([(3%N, lit "c"); (4%N, lit "d")], Some (cursor_id (lit "1111"))) ∧
    ∀ resp reg', second_poll = (Ok resp, reg') →
      seen ++ events resp `prefix_of` delivered all (batch_of [changed "d"]) ∨ subscriptions reg' !! watch_id (lit "0001") = None.
Proof.
  destruct followed_poll as (all & seen & Hp & Hl & Hf). exists all, seen.
  destruct (follower_misses_nothing this (watch_id (lit "0001")) first_poll.2 all second_cursor seen
    (watch_env 3 (lit "0003")) (poll_from second_cursor) (batch_of [changed "d"]) Hf new_fourth eq_refl eq_refl) as (_ & H1 & H2).
  split; [exact Hp|]. split; [exact Hl|]. split; [exact H1|]. split; [vm_compute; reflexivity|].
  intros resp reg' Hq. destruct (H2 resp reg' Hq) as [(_ & H & _)|[_ H]]; [left|right]; exact H.
Defined.

Lemma reached_two : reached this two_open.
Proof.
  apply reached_call; [|apply new_second].
  apply (reached_call this (watch_env 0 (lit "0001")) (WOpen {| wo_binding := where_ |}) empty_registry); [|apply new_first].
  apply reached_empty.
Qed.

Lemma poll_responses_valid_witness :
  size (subscriptions two_open) = 2 ∧ ∀ resp, first_poll.1 = Ok resp → poll_response_valid resp = true.
Proof.
  split; [vm_compute; reflexivity|]. intros resp H.
  destruct (poll_responses_valid this two_open (watch_env 2 (lit "0003")) (poll_from (cursor_id [])) three_changes
    reached_two new_third) as (_ & _ & _ & Hv).
  exact (Hv eq_refl resp (or_introl H)).
Defined.
End ExampleWatch.
